(* ===== verification/_CoqProject ===== *)
-Q . S2P
Prelude.v
Programs.v
PyValue.v
PyRegex.v
PyText.v
Recovery.v
Lifecycle.v
LifecycleMemory.v
LifecycleRedis.v
LifecycleController.v
Graph.v
Priority.v
WorkflowContracts.v
WorkflowRuntime.v
WorkflowStore.v
ServicePipeline.v
Broker.v
BrokerRepo.v
BrokerBoard.v
BrokerMembers.v
BrokerDispatch.v
BrokerReadiness.v
BrokerScripts.v
BrokerRedis.v
BrokerRedisBoard.v
StageDispatch.v
StageRuntime.v
StageComposite.v
Coordinator.v
CoordinatorMachine.v
CoordinatorRuns.v
CoordinatorStore.v
CoordinatorDelivery.v
CoordinatorDeliveryDemo.v
CoordinatorAdapters.v
CoordinatorGuards.v
CoordinatorAdmission.v
CoordinatorAdmissionDemo.v
ExecutionBoundary.v
RuntimeContracts.v
RuntimeState.v
RuntimeFence.v
RuntimeFile.v
RuntimeSupervisor.v
RuntimeTransition.v
RuntimeReadiness.v
RuntimeDemo.v
QueueRedis.v
QueueEngine.v
QueueJobs.v
QueueSends.v
QueueAsync.v
QueueSafety.v
QueueLedger.v
QueueClaims.v
QueueReports.v
QueueSlots.v
QueueRouting.v
QueueFleet.v
QueueServer.v
QueueDemo.v
