(* ===== verification/Prelude.v ===== *)
(** * gpu-manager: a verification library

    gpu-manager runs model services ("bundles") on the graphics cards of one
    host.  Its decisions are taken by a few Python modules under [src/scripts/]
    that keep little state of their own; around them sit HTTP handlers,
    subprocesses, Docker and Redis.  This library models those modules and
    proves what makes them correct.

    ** The parts, and the files that model them

    - Bundle lifecycle, [bundle_lifecycle.py].  [Recovery] is the pure reducer
      [reduce_recovery] (probe results to start, restart, quarantine).
      [Lifecycle] holds the records, the leases, the normalisers and the store
      protocol as the class [LifecycleStore]; [Spec] in it is the abstract
      fenced cell of a bundle and the class [FencedStore] the promise that
      every operation acts on that cell.  [LifecycleMemory] models
      [InMemoryBundleLifecycleStore] and discharges the promise;
      [LifecycleRedis] models [RedisBundleLifecycleStore], each Lua script one
      function, over an abstract Redis, and shows that both stores agree.
      [LifecycleController] models [BundleLifecycleController] against the
      interface, with the keepalive task as a state machine and the runners as
      functions of a schedule.
    - Priorities, the priority part of [gpu_manager_contracts.py]: [Priority].
    - Workflows.  [Graph] is Kahn's loop, written once for its two users;
      [WorkflowContracts] models [workflow_contracts.py] (validation);
      [WorkflowRuntime] and [WorkflowStore] model [workflow_runtime.py] (the
      stage transitions and derived status; the two stores and the codec).
    - Service pipelines, [service_pipeline.py]: [ServicePipeline], on the
      regular expressions of [PyRegex].
    - The Gemma broker, [gemma_broker/].  [Broker] holds [contracts.py],
      [compatibility.py], [admission.py] and the two rules at the top of
      [redis_store.py]; [BrokerRepo] models [InMemoryJobRepository] method by
      method; [BrokerBoard] states its contract as an abstract job board and
      the refinement; [BrokerMembers] projects it onto one member;
      [BrokerDispatch] models [dispatcher.py] and the crash repair of
      [reconcile.py] on it; [BrokerReadiness] models [readiness.py] and the
      drain and rejoin coordinators of [drain.py].
      [BrokerScripts] models the Lua scripts of [RedisJobRepository], each one
      function over a typed store, and [BrokerRedis] its methods, each a plan
      computed from reads and a script; [BrokerRedisBoard] lets any number of
      clients interleave between their reads and their scripts and proves the
      same job board refined.
    - Running a pipeline.  [StageDispatch] models the executors of
      [stage_dispatch.py] over a provider call that is a parameter;
      [ExecutionBoundary] models [execution_boundary.py]: which provider the
      worker owns, how a pipeline is dispatched, and the handoffs before and
      after the worker's stages.  [StageRuntime] and [StageComposite] model
      [pipeline_provider_runtime.py] over an effect with exceptions: the
      provider registry, the JSON provider and the retrying HTTP executor, and
      the composite executor with its gates, delegation and correction loops.
    - The durable coordinator, [pipeline_coordinator.py].  [Coordinator] models
      [PipelineCoordinator] as programs over operations (load, save, execute,
      poll, cancel, ...), so that they can be cut short anywhere;
      [CoordinatorMachine] is the abstract machine of one durable run and its
      invariants; [CoordinatorRuns] shows that every save of every history of
      ticks, cancellation requests and crashes is a move of the machine, and
      draws the properties of runs from it.  [CoordinatorStore] models
      [RedisCoordinatorStore] and [ControllerPipelineRuntime] of
      [gpu_manager_pipeline_runtime.py] as programs over Redis commands, with
      streams as a class with laws; [CoordinatorDelivery] shows what the queue
      promises, and [CoordinatorDeliveryDemo] a concrete stream server, the
      witnesses and what lies outside the promises.  [CoordinatorAdapters]
      models the leaf client of that file and the registry, external executor
      and callback map of [workflow_coordinator_runtime.py],
      [CoordinatorGuards] what they guard, [CoordinatorAdmission] the
      admission of queued entries and the terminal mirror,
      [CoordinatorAdmissionDemo] their witnesses and examples.
    - The runtime supervisor.  [RuntimeContracts] models the validation of
      profiles, model sets, observations and the registry of
      [runtime_contracts.py]; [RuntimeState] the in-memory store of
      [runtime_state.py] and [RuntimeFile] its file store, whose writes have an
      explicit outcome; [RuntimeFence] what its leases promise.
      [RuntimeSupervisor] models [transition_runtime] of
      [runtime_supervisor.py] as a program over its awaits; [RuntimeTransition]
      and [RuntimeReadiness] show what a transition promises while others use
      the store, [RuntimeDemo] has the witnesses and examples.
    - The job queue, [queue_engine.py].  [QueueRedis] has the commands and Lua
      scripts it sends, over a key space whose streams are a class with laws;
      [QueueEngine] models [RedisQueue], [QueueAsync] [AsyncRedisQueue],
      [QueueJobs] [JobTracker], each method a program over these commands.
      [QueueSends] shows which keys the methods use, so that [QueueSafety] and
      [QueueLedger] can speak of every history of their commands;
      [QueueClaims] shows which job is claimed, [QueueReports] models the depth
      and pending reports.  [QueueSlots] models both slot managers,
      [QueueRouting] [RoutingEngine] and [CapacityTracker] (with the
      eligibility gate of [gpu_manager_contracts.py]), [QueueFleet] the
      capacity reporter and gossiper.  [QueueServer] is a concrete stream that
      keeps the laws, [QueueDemo] has the witnesses and examples.

    [Programs] has programs over operations, their execution cut after any
    number of them, and a program logic with an invariant for every operation.
    [PyValue] has the JSON-like values that reach the code as [Any], [PyText]
    their texts and the redaction of secrets; this file
    has the shared notation, the result type, [dataclasses.replace], tactics
    and generic lemmas.

    The parts call each other as the files require each other: the controller
    runs operations under leases of a lifecycle store; a workflow is validated,
    admitted, moved by the reducers and kept by a store; the broker's
    dispatcher, repair and coordinators act on one job repository, whose
    contract ([op_ok]) the dispatcher and the repair are proved to keep.

    ** What the theorems show

    - Lifecycle: a lease that was superseded can never renew or finish, a live
      lease excludes others, group operations are all or nothing, both stores
      agree on every valid history, a run that reports success was alone on its
      bundle, a failed run frees it, the keepalive ends, restarts are bounded
      and end in quarantine.
    - Priorities: a child never becomes more urgent than its parent unasked.
    - Workflows: validation reports a cycle exactly when there is one; a stage
      starts only after its dependencies; a job that is not finished can always
      move; creation is idempotent over restarts; the file store resumes where
      it was.
    - Pipelines: what a loaded pipeline satisfies, exactness of the cycle
      check, correction stages behind gates, termination of loading, exactness
      of the derived prompt target and of the request's choice of pipeline.
    - Broker: the repository refines the job board; a job is never held twice;
      the acceptance boundary is final; leases stay within slots; a draining
      member takes nothing new; member states, versions and generations move
      lawfully; an overdue job is not passed; one dispatch keeps the contract;
      repair happens on proof and once; a member accepts exactly when all is
      proved and comes back only on proof; a drain request tells the truth and
      ends.  In Redis, under any interleaving: every script is a board step, no
      update is lost however stale the reads, claims are exclusive, acceptance
      is final, reservations are fenced by the leadership token; and one thing
      that fails, a release that undoes a drain.
    - Running a pipeline: the two executors agree; every stage has one result,
      built on settled dependencies only; provider calls are bounded; the
      dispatch mode follows the owners; the handoffs are fail-closed and run
      each stage on exactly one side.  The composite executor stays within its
      bounds of depth, results and corrections, never repeats a seeded stage,
      goes to a provider exactly when its gates say so, and ends no correction
      loop silently.
    - The coordinator, in every history: success is earned (everything done,
      no quality stage rejected) under sound plans; no attempt is executed
      twice while saves succeed; one attempt is in flight at most, the one at
      the cursor; corrections are bounded; endings are truthful and final; a
      cancellation takes effect at the next tick that ends.  Examples show what
      each condition is for.
    - The coordinator's queue, in every history of any consumers, with commands
      refused or unheard and methods cut anywhere, while saves succeed: no live
      run is without an entry, an admitted entry is kept and its redelivery
      harmless, entries are served in order, every stored state is lawful.
      Each stage has one reviewed owner; a leaf receives no key that redirects
      it; what the external executor returns can be recorded.
    - The runtime supervisor: superseded leases are fenced off and fences
      increase over restarts; an instance admits work only on full evidence of
      its last transition; a restart resumes the file's records; a transition
      ends with the desired state observed by its own holder, calls the adapter
      in the planned order wherever it is cut, and waits a bounded number of
      times.
    - The job queue, in every history of the commands of any processes, keys
      expiring in between: an entry is claimed once and cancelled once, and
      stays until it is settled while the stream is short; dead letters are
      kept or counted; an admission key is granted again only after its job
      ended; an intent is written only to a job in flight; a slot has one
      holder.  A claim takes the most urgent job, routing the best member, equal
      members in turn; a depth reported as known is exact; the asynchronous
      queue does what the synchronous one does.  The examples of [QueueDemo]
      show where jobs are lost or doubled all the same.

    A doc comment [C<n>] marks the principal theorems; a lemma named
    [.._witness] applies each to a concrete case; an [Example] that follows a
    component records a behaviour worth knowing.

    ** Conventions, bounds and fuel

    Times are whole microseconds ([time]); Python integers are [Z]; a dict is
    a [gmap] where order does not matter and an item list where it does; a
    call that raises is [Err] and leaves its state, except where the code had
    already written.  A method that holds its lock throughout, a Lua script and
    a stretch of coroutine without [await] are one step; between steps other
    actors' operations are explicit lists.  Kahn's loop gets one step more than
    there are nodes and is proved to end within them; the walk from a
    correction stage gets the number of edges plus two and the downstream
    search the number of stages plus two, both proved enough; the star of a
    regular expression is unrolled at most as often as the text is long, which
    the matcher's equivalence with its meaning shows to be enough.  The drain
    coordinator's rebases are its own three attempts; its wait and the
    keepalive are recursions on their schedules.  Delegation in the composite
    executor recurses on the levels its depth limit leaves
    ([composite_bounded] shows more fuel changes nothing); a coordinator's
    program is finite by construction, and [run_upto] cuts it after any number
    of operations.  The readiness wait of a transition gets one step per poll
    interval of its timeout, which [readiness_wait_ends] shows to be enough; the
    three attempts of a cancellation intent are the code's own.

    ** Not modelled

    Within the modelled files: NaN and rounding of floats, texts outside ASCII
    in [str.strip], [str.lower], [int] and [re], messages of exceptions, the
    JSON text of files and of Redis values, [asyncio] task cancellation inside
    a dispatch.  Stage identities of a pipeline that are numbers stop the model
    at [NumericId].  The key expiry of Redis is outside the agreement of the
    two lifecycle stores and is shown, where it matters, in
    [redis_fence_resets]; the read that follows a granted Redis begin is taken
    as one step with it.  Configuration and probes of a broker member have the
    types their annotations state.  Digests, [uuid4], clocks, the transport
    and the text of numbers are parameters.

    Of the Redis job repository: the text of records, connection failures, the
    terminal notifier, the two repairs of a malformed generation fence (a typed
    store holds none) and the precision of numbers in [cjson]; a sorted set
    orders equal scores by name.

    Of the pipeline executors and the coordinator: the declared HTTP flows, the
    OpenAI transport and the address check of endpoints, the waiting between
    retries, and timestamps that nothing reads.  Actors take turns as a whole
    in the histories, though each may be cut after any command; three examples
    let two of them interleave.  Of the coordinator's store: the field codec of
    the hashes and the in-memory store.

    Left out as parts: [LeaseReconciler], the broker's runtime, API and
    observers; the bridges between coordinator, providers and host; packaging,
    format adapters and host supervisors: I/O around the modelled decisions.
    The controller process [gpu-manager.py] is left out too: 43,000 lines in
    which HTTP handlers, subprocesses and Docker calls are interleaved with
    what they decide.  Of the queue engine: [QueueMetrics], the listings over
    all jobs and over all dead letters, the counters that [CapacityTracker]
    writes to Redis, and the creation of connections.  Its streams have their
    group from the start, an expiry alone is not counted as a write of a
    watched key, and a blocking read is the read when it is answered. *)

From stdpp Require Export base tactics list gmap strings fin_maps sorting relations.
From Stdlib Require Export ZArith Lia.

#[export] Set Default Goal Selector "!".
#[global] Open Scope Z_scope.

Declare Scope py_scope.
Delimit Scope py_scope with py.
#[global] Open Scope py_scope.

(** ** Python values *)

(** Truthiness of [str] and of [str | None]. *)
Definition str_truthy (s : string) : bool := negb (String.eqb s "").

Definition opt_truthy (o : option string) : bool :=
  match o with Some s => str_truthy s | None => false end.

(** [a or b] on strings. *)
Definition py_or (a b : string) : string := if str_truthy a then a else b.

(** [s[:n]]. *)
Definition str_take (n : nat) (s : string) : string := String.substring 0 n s.

(** [str.strip()] on the ASCII whitespace characters: TAB to CR, FS to US
    and the space. *)
Definition is_space (c : Ascii.ascii) : bool :=
  let n := Ascii.nat_of_ascii c in
  ((9 <=? n) && (n <=? 13) || (28 <=? n) && (n <=? 32))%nat.

Fixpoint drop_spaces (cs : list Ascii.ascii) : list Ascii.ascii :=
  match cs with
  | [] => []
  | c :: cs' => if is_space c then drop_spaces cs' else cs
  end.

Definition py_strip (s : string) : string :=
  String.string_of_list_ascii
    (rev (drop_spaces (rev (drop_spaces (String.list_ascii_of_string s))))).

(** [tuple(dict.fromkeys(xs))]: the first occurrence of each element. *)
Definition dict_fromkeys {A} `{EqDecision A} (xs : list A) : list A :=
  fold_left (fun acc x => if decide (x ∈ acc) then acc else acc ++ [x]) xs [].

(** [list.remove(x)] of a member: its first occurrence goes. *)
Fixpoint remove_first {A} `{EqDecision A} (x : A) (xs : list A) : list A :=
  match xs with
  | [] => []
  | y :: ys => if decide (y = x) then ys else y :: remove_first x ys
  end.

(** [sorted] on strings: code-point order. *)
Definition py_sorted (xs : list string) : list string := merge_sort String.le xs.

(** A Python [float] holding seconds, as a whole number of microseconds. *)
Abbreviation time := Z (only parsing).
Definition seconds (n : Z) : time := n * 1000000.

(** [int(x)] of a float number of seconds: truncation toward zero. *)
Definition int_seconds (t : time) : Z := Z.quot t 1000000.

(** ** Results: a value or the exception that was raised *)
Inductive result (E A : Type) : Type :=
  | Ok (a : A)
  | Err (e : E).
Arguments Ok {E A} a.
Arguments Err {E A} e.

#[export] Instance result_eq_dec `{EqDecision E, EqDecision A} : EqDecision (result E A).
Proof. solve_decision. Defined.

#[export] Instance result_ret {E} : MRet (result E) := fun _ a => Ok a.
#[export] Instance result_bind {E} : MBind (result E) := fun _ _ k r =>
  match r with Ok a => k a | Err e => Err e end.
#[export] Instance result_fmap {E} : FMap (result E) := fun _ _ f r =>
  match r with Ok a => Ok (f a) | Err e => Err e end.

(** [guard b e]: raise [e] unless [b]. *)
Definition guard {E} (b : bool) (e : E) : result E unit :=
  if b then Ok tt else Err e.

Definition is_ok {E A} (r : result E A) : bool :=
  match r with Ok _ => true | Err _ => false end.

(** ** [dataclasses.replace]: one field of a record at a time *)

(** [eta] rebuilds a record from its projections; the setter of a field is
    found by abstracting that projection in [eta]. *)
Class Replaceable (R : Type) := eta : R -> R.
Class FieldSetter {R T : Type} (field : R -> T) := update_field : (T -> T) -> R -> R.

Ltac derive_setter field :=
  match type of field with
  | ?R -> _ =>
      let e := constr:(_ : Replaceable R) in
      let body := eval hnf in e in
      match body with
      | context [field] =>
          match eval pattern field in body with
          | ?abs _ =>
              let s := constr:(fun f r => abs (fun r' => f (field r')) r) in
              let s' := eval cbv beta in s in
              exact s'
          end
      end
  end.

#[export] Hint Extern 1 (FieldSetter ?field) => derive_setter field : typeclass_instances.

Definition replace_field {R T} (field : R -> T) `{!FieldSetter field} (v : T) (r : R) : R :=
  update_field (field := field) (fun _ => v) r.
Arguments replace_field {R T} field {_} v r /.
Arguments update_field {R T} field {_} f r /.

Notation "r ⟪ field := v ⟫" := (replace_field field v r)
  (at level 1, left associativity, field at level 99, v at level 200,
   format "r ⟪ field  :=  v ⟫") : py_scope.

(** ** Tactics *)

(** Split every [match]/[if] of the goal and of the hypotheses, turning
    boolean tests into propositions as they appear. *)
Ltac bool_prop :=
  repeat match goal with
  | H : (_ && _)%bool = true |- _ => apply andb_true_iff in H as [? ?]
  | H : (_ || _)%bool = false |- _ => apply orb_false_iff in H as [? ?]
  | H : negb _ = true |- _ => apply negb_true_iff in H
  | H : negb _ = false |- _ => apply negb_false_iff in H
  | H : bool_decide _ = true |- _ => apply bool_decide_eq_true in H
  | H : bool_decide _ = false |- _ => apply bool_decide_eq_false in H
  | H : (_ <=? _) = true |- _ => apply Z.leb_le in H
  | H : (_ <=? _) = false |- _ => apply Z.leb_gt in H
  | H : (_ <? _) = true |- _ => apply Z.ltb_lt in H
  | H : (_ <? _) = false |- _ => apply Z.ltb_ge in H
  | H : (_ =? _) = true |- _ => apply Z.eqb_eq in H
  | H : (_ =? _) = false |- _ => apply Z.eqb_neq in H
  end.

Ltac split_cases := repeat (case_match; bool_prop; simplify_eq/=; try done).

(** Invert a successful chain of binds and guards. *)
Ltac inv_ok :=
  repeat match goal with
  | H : mbind _ ?r = Ok _ |- _ => destruct r eqn:?; simpl in H; [|discriminate H]
  | H : guard ?b _ = Ok _ |- _ => unfold guard in H; destruct b eqn:?; [|discriminate H]
  | H : Ok _ = Ok _ |- _ => injection H as H; subst
  | H : mret _ = Ok _ |- _ => injection H as H; subst
  | H : Err _ = Ok _ |- _ => discriminate H
  end.

Create HintDb gpum.

(** ** Generic lemmas *)

Lemma opt_truthy_spec (o : option string) :
  opt_truthy o = true <-> exists s, o = Some s /\ s <> "".
Proof.
  unfold opt_truthy, str_truthy. destruct o as [s|]; [|naive_solver].
  destruct (String.eqb_spec s ""); naive_solver.
Qed.

Definition starts_clean (cs : list Ascii.ascii) : Prop :=
  match cs with [] => True | c :: _ => is_space c = false end.

Lemma drop_spaces_clean cs : starts_clean (drop_spaces cs).
Proof. induction cs as [|c cs IH]; simpl; [done|]. by destruct (is_space c) eqn:E. Qed.

Lemma drop_spaces_id cs : starts_clean cs -> drop_spaces cs = cs.
Proof. destruct cs as [|c cs]; simpl; [done|]. by intros ->. Qed.

Lemma drop_spaces_snoc cs c :
  is_space c = false -> drop_spaces (cs ++ [c]) = drop_spaces cs ++ [c].
Proof.
  intros Hc. induction cs as [|d cs IH]; simpl; [by rewrite Hc|]. by destruct (is_space d).
Qed.

Lemma py_strip_idem s : py_strip (py_strip s) = py_strip s.
Proof.
  unfold py_strip at 1. f_equal. unfold py_strip.
  rewrite String.list_ascii_of_string_of_list_ascii.
  set (d := drop_spaces (String.list_ascii_of_string s)).
  assert (starts_clean d) as Hd by apply drop_spaces_clean. clearbody d.
  rewrite (drop_spaces_id (rev (drop_spaces (rev d)))).
  - rewrite rev_involutive. by rewrite (drop_spaces_id (drop_spaces _)) by apply drop_spaces_clean.
  - destruct d as [|c d]; [done|]. simpl in *. rewrite drop_spaces_snoc by done.
    by rewrite rev_app_distr.
Qed.

Lemma dict_fromkeys_app {A} `{EqDecision A} (xs acc : list A) :
  forall x, x ∈ fold_left (fun acc x => if decide (x ∈ acc) then acc else acc ++ [x]) xs acc
            <-> x ∈ xs \/ x ∈ acc.
Proof.
  revert acc. induction xs as [|y xs IH]; intros acc x; simpl; [set_solver|].
  rewrite IH. case_decide; set_solver.
Qed.

Lemma elem_of_dict_fromkeys {A} `{EqDecision A} (xs : list A) x :
  x ∈ dict_fromkeys xs <-> x ∈ xs.
Proof. unfold dict_fromkeys. rewrite dict_fromkeys_app. set_solver. Qed.

Lemma NoDup_dict_fromkeys {A} `{EqDecision A} (xs : list A) : NoDup (dict_fromkeys xs).
Proof.
  unfold dict_fromkeys.
  assert (forall acc, NoDup acc ->
    NoDup (fold_left (fun acc x => if decide (x ∈ acc) then acc else acc ++ [x]) xs acc)) as H.
  { induction xs as [|y xs IH]; intros acc Hacc; simpl; [done|].
    apply IH. case_decide; [done|]. apply NoDup_app. repeat split; [done|set_solver|].
    apply NoDup_singleton. }
  apply H, NoDup_nil_2.
Qed.

Lemma py_sorted_perm xs : py_sorted xs ≡ₚ xs.
Proof. apply merge_sort_Permutation. Qed.

Lemma py_sorted_sorted xs : StronglySorted String.le (py_sorted xs).
Proof. apply StronglySorted_merge_sort; apply _. Qed.

Lemma py_sorted_id xs : StronglySorted String.le xs -> py_sorted xs = xs.
Proof.
  intros H. apply (StronglySorted_unique String.le).
  - apply py_sorted_sorted.
  - done.
  - apply py_sorted_perm.
Qed.

Lemma existsb_false_Forall {A} (p : A -> bool) l :
  existsb p l = false <-> Forall (fun x => p x = false) l.
Proof.
  induction l as [|x l IH]; simpl.
  - split; [constructor|done].
  - rewrite orb_false_iff, IH, Forall_cons. done.
Qed.

Lemma forallb_true_Forall {A} (p : A -> bool) l :
  forallb p l = true <-> Forall (fun x => p x = true) l.
Proof.
  induction l as [|x l IH]; simpl.
  - split; [constructor|done].
  - rewrite andb_true_iff, IH, Forall_cons. done.
Qed.

#[export] Hint Resolve NoDup_dict_fromkeys py_sorted_perm py_sorted_sorted : gpum.
