(* ===== verification/Programs.v ===== *)
(** * Programs: code as a tree of operations

    A program asks an operation, is answered, and goes on; it returns or
    raises.  Because the operations are explicit, a program can be stopped
    after any number of them, as a crash stops it, or interleaved with
    another's.  With a meaning of the operations come the world after [n] of
    them, the end of a whole run, and a logic: an invariant that holds after
    every operation and a postcondition of what is returned. *)

From S2P Require Import Prelude.

Section Syntax.
Context {O : Type -> Type}.

Inductive program (A : Type) : Type :=
  | Ret (a : A)
  | Raise (text : string)
  | Vis {X : Type} (o : O X) (k : X -> program A).

Fixpoint program_bind {A B} (k : A -> program B) (p : program A) : program B :=
  match p with
  | Ret _ a => k a
  | Raise _ t => Raise _ t
  | Vis _ o c => Vis _ o (fun x => program_bind k (c x))
  end.

#[export] Instance program_mret : MRet program := Ret.
#[export] Instance program_mbind : MBind program := fun _ _ => program_bind.

Definition perform {X} (o : O X) : program X := Vis _ o (Ret _).

(** A call whose exception propagates. *)
Definition require {X} (o : O (result string X)) : program X :=
  Vis _ o (fun r => match r with Ok x => Ret _ x | Err t => Raise _ t end).

Definition raising {A} (r : result string A) : program A :=
  match r with Ok a => Ret _ a | Err t => Raise _ t end.

End Syntax.
Arguments program O A : clear implicits.
Arguments Ret {O A} a.
Arguments Raise {O A} text.
Arguments Vis {O A X} o k.

(** Programs over one set of operations as programs over another. *)
Fixpoint embed {O O' : Type -> Type} (f : forall X, O X -> O' X) {A} (p : program O A) : program O' A :=
  match p with
  | Ret a => Ret a
  | Raise t => Raise t
  | Vis o k => Vis (f _ o) (fun x => embed f (k x))
  end.

(** [try]: the exception as a value. *)
Fixpoint catch {O : Type -> Type} {A} (p : program O A) : program O (result string A) :=
  match p with
  | Ret a => Ret (Ok a)
  | Raise t => Ret (Err t)
  | Vis o k => Vis o (fun x => catch (k x))
  end.

(** Every operation a program may perform satisfies [P]. *)
Fixpoint uses {O : Type -> Type} (P : forall X, O X -> Prop) {A} (p : program O A) : Prop :=
  match p with
  | Vis o k => P _ o /\ forall x, uses P (k x)
  | _ => True
  end.

Lemma uses_bind {O : Type -> Type} (P : forall X, O X -> Prop) {A B} (p : program O A) (k : A -> program O B) :
  uses P p -> (forall a, uses P (k a)) -> uses P (p ≫= k).
Proof.
  intros Hp Hk. induction p as [a|t|X o c IH]; cbn in *; [apply Hk|done|]. destruct Hp as [Ho Hc]. split; auto.
Qed.

Lemma uses_all {O : Type -> Type} (P : forall X, O X -> Prop) {A} (p : program O A) : (forall X o, P X o) -> uses P p.
Proof. intros HP. induction p as [a|t|X o c IH]; cbn; auto. Qed.

Lemma uses_embed {O O' : Type -> Type} (f : forall X, O X -> O' X) (P : forall X, O' X -> Prop) {A} (p : program O A) :
  uses (fun X o => P X (f X o)) p -> uses P (embed f p).
Proof. induction p as [a|t|X o c IH]; cbn; [done|done|]. intros [Ho Hc]. auto. Qed.

(** ** Runs *)

Section Runs.
Context {O : Type -> Type} {W : Type} (handle : forall X, O X -> W -> X * W).

(** The first [n] operations of a program. *)
Fixpoint run_upto {A} (n : nat) (p : program O A) (w : W) : W :=
  match n, p with
  | S n', Vis o k => let '(x, w') := handle _ o w in run_upto n' (k x) w'
  | _, _ => w
  end.

(** A program run to its end. *)
Fixpoint run_all {A} (p : program O A) (w : W) : result string A * W :=
  match p with
  | Ret a => (Ok a, w)
  | Raise t => (Err t, w)
  | Vis o k => let '(x, w') := handle _ o w in run_all (k x) w'
  end.

(** A run to the end is a run of some number of operations. *)
Lemma run_all_upto {A} (p : program O A) w : exists n, (run_all p w).2 = run_upto n p w.
Proof.
  revert w. induction p as [a|t|X o k IH]; intros w; [by exists 0%nat|by exists 0%nat|].
  cbn. destruct (handle X o w) as [x w'] eqn:Hh. destruct (IH x w') as [n Hn]. exists (S n). cbn. by rewrite Hh.
Qed.

Lemma run_all_bind {A B} (p : program O A) (k : A -> program O B) w :
  run_all (p ≫= k) w = match run_all p w with (Ok a, w') => run_all (k a) w' | (Err t, w') => (Err t, w') end.
Proof.
  revert w. induction p as [a|t|X o c IH]; intros w; [done|done|]. cbn. destruct (handle X o w) as [x w']. apply IH.
Qed.

Lemma run_all_catch {A} (p : program O A) w : run_all (catch p) w = (Ok (run_all p w).1, (run_all p w).2).
Proof.
  revert w. induction p as [a|t|X o k IH]; intros w; [done|done|]. cbn. destruct (handle X o w) as [x w']. apply IH.
Qed.

(** Two programs on one world; [true] is the first's turn. *)
Fixpoint both {A B} (turns : list bool) (p : program O A) (q : program O B) (w : W)
    : program O A * program O B * W :=
  match turns with
  | [] => (p, q, w)
  | true :: turns' =>
      match p with
      | Vis o k => let '(x, w') := handle _ o w in both turns' (k x) q w'
      | _ => both turns' p q w
      end
  | false :: turns' =>
      match q with
      | Vis o k => let '(x, w') := handle _ o w in both turns' p (k x) w'
      | _ => both turns' p q w
      end
  end.

(** ** The logic *)

Section Logic.
Variable I : W -> Prop.

Fixpoint wp {A} (p : program O A) (Q : A -> W -> Prop) (w : W) : Prop :=
  I w /\
  match p with
  | Ret a => Q a w
  | Raise _ => True
  | Vis o k => let '(x, w') := handle _ o w in wp (k x) Q w'
  end.

Lemma wp_inv {A} (p : program O A) Q w : wp p Q w -> I w.
Proof. destruct p; by intros []. Qed.

Lemma wp_sound {A} (p : program O A) Q w n : wp p Q w -> I (run_upto n p w).
Proof.
  revert p w. induction n as [|n IH]; intros p w Hp; [by eapply wp_inv|].
  destruct p as [a|t|X o k]; cbn in *; [by destruct Hp|by destruct Hp|].
  destruct Hp as [_ Hp], (handle X o w) as [x w']. auto.
Qed.

Lemma wp_result {A} (p : program O A) Q w a w' : wp p Q w -> run_all p w = (Ok a, w') -> Q a w'.
Proof.
  revert w. induction p as [b|t|X o k IH]; intros w [Hi Hp] Hr; cbn in *; [by simplify_eq|done|].
  destruct (handle X o w) as [x w1]. by eapply IH.
Qed.

Lemma wp_bind {A B} (p : program O A) (k : A -> program O B) Q w :
  wp p (fun a => wp (k a) Q) w -> wp (p ≫= k) Q w.
Proof.
  revert w. induction p as [a|t|X o c IH]; cbn; intros w [Hi H]; [done|done|]. split; [done|].
  destruct (handle X o w) as [x w']. by apply IH.
Qed.

Lemma wp_mono {A} (p : program O A) (Q Q' : A -> W -> Prop) w :
  (forall a w', Q a w' -> Q' a w') -> wp p Q w -> wp p Q' w.
Proof.
  intros HQ. revert w. induction p as [a|t|X o c IH]; cbn; intros w [Hi H]; (split; [done|]); auto.
  destruct (handle X o w) as [x w']. by apply IH.
Qed.

Lemma wp_conseq {A} (p : program O A) (Q Q' : A -> W -> Prop) w :
  (forall a w', I w' -> Q a w' -> Q' a w') -> wp p Q w -> wp p Q' w.
Proof.
  intros HQ. revert w. induction p as [a|t|X o c IH]; cbn; intros w [Hi H]; (split; [done|]); auto.
  destruct (handle X o w) as [x w']. by apply IH.
Qed.

(** An invariant that every operation the program may perform keeps. *)
Lemma wp_uses (P : forall X, O X -> Prop) {A} (p : program O A) w :
  (forall X o w, P X o -> I w -> I (handle X o w).2) -> uses P p -> I w -> wp p (fun _ => I) w.
Proof.
  intros Hop. revert w. induction p as [a|t|X o k IH]; cbn; intros w Hp Hi; (split; [done|]); [done|done|].
  destruct Hp as [Ho Hk]. pose proof (Hop X o w Ho Hi) as Hi'. destruct (handle X o w) as [x w']. by apply IH.
Qed.

Lemma wp_vis {A X} (o : O X) (k : X -> program O A) Q w :
  I w -> (let '(x, w') := handle X o w in wp (k x) Q w') -> wp (Vis o k) Q w.
Proof. done. Qed.

End Logic.

Lemma wp_weaken (I I' : W -> Prop) {A} (p : program O A) Q w :
  (forall w, I w -> I' w) -> wp I p Q w -> wp I' p Q w.
Proof.
  intros HI. revert w. induction p as [a|t|X o c IH]; cbn; intros w [Hi H]; (split; [by apply HI|]); auto.
  destruct (handle X o w) as [x w']. by apply IH.
Qed.

End Runs.
