(* ===== verification/PyValue.v ===== *)
(** * PyValue: the JSON-like Python values the contracts inspect

    Workflow definitions, service payloads and priorities reach the code as
    [Any].  A value here is what [json.loads] yields: dict keys are strings and
    a dict is the list of its items, each key once. *)

From S2P Require Import Prelude.

#[local] Set Warnings "-register-all".

(** A finite float is a number of microseconds, as times are in [Prelude]. *)
Inductive value : Type :=
  | PNone
  | PBool (b : bool)
  | PInt (n : Z)
  | PFloat (us : Z)
  | PNan
  | PInfinity
  | PStr (s : string)
  | PList (l : list value)
  | PDict (d : list (string * value)).

(** A dict, as the list of its items. *)
Abbreviation data := (list (string * value)) (only parsing).

Definition is_mapping (v : value) : bool := match v with PDict _ => true | _ => false end.
Definition is_none (v : value) : bool := match v with PNone => true | _ => false end.
Definition is_str (v : value) : bool := match v with PStr _ => true | _ => false end.
Definition is_bool (v : value) : bool := match v with PBool _ => true | _ => false end.

(** [bool(v)] *)
Definition py_truthy (v : value) : bool :=
  match v with
  | PNone => false
  | PBool b => b
  | PInt n => negb (n =? 0)
  | PFloat us => negb (us =? 0)
  | PNan | PInfinity => true
  | PStr s => str_truthy s
  | PList l => match l with [] => false | _ => true end
  | PDict d => match d with [] => false | _ => true end
  end.

(** [a or b] *)
Definition value_or (a b : value) : value := if py_truthy a then a else b.

(** Lists and dicts cannot be members of a set. *)
Definition hashable (v : value) : bool :=
  match v with PList _ | PDict _ => false | _ => true end.

Definition as_str (v : value) : option string := match v with PStr s => Some s | _ => None end.

(** [d.get(k)]: the item under [k], if any. *)
Fixpoint dict_get {A} (d : list (string * A)) (k : string) : option A :=
  match d with
  | [] => None
  | (k', v) :: d' => if String.eqb k' k then Some v else dict_get d' k
  end.

(** [d.get(k, default)] *)
Definition dict_get_or (d : list (string * value)) (k : string) (dflt : value) : value :=
  default dflt (dict_get d k).

(** [d[k] = v]: an existing key keeps its place. *)
Fixpoint dict_set {A} (d : list (string * A)) (k : string) (v : A) : list (string * A) :=
  match d with
  | [] => [(k, v)]
  | (k', v') :: d' => if String.eqb k' k then (k, v) :: d' else (k', v') :: dict_set d' k v
  end.

(** [d.update(items)] *)
Definition dict_update {A} (d items : list (string * A)) : list (string * A) :=
  fold_left (fun d i => dict_set d i.1 i.2) items d.

(** [str.lower()] on ASCII letters. *)
Definition lower_ascii (c : Ascii.ascii) : Ascii.ascii :=
  let n := Ascii.nat_of_ascii c in
  if ((65 <=? n) && (n <=? 90))%nat then Ascii.ascii_of_nat (n + 32) else c.

Definition py_lower (s : string) : string :=
  String.string_of_list_ascii (lower_ascii <$> String.list_ascii_of_string s).

(** [chr(n)]: 43 is [+], 45 [-], 46 [.], 95 [_]. *)
Definition chr (n : nat) : Ascii.ascii := Ascii.ascii_of_nat n.

(** [int(s)] on a [str]: surrounding whitespace, a sign, ASCII digits that may
    be separated by single underscores; [None] is [ValueError]. *)
Definition digit_value (c : Ascii.ascii) : option Z :=
  let n := Ascii.nat_of_ascii c in
  if ((48 <=? n) && (n <=? 57))%nat then Some (Z.of_nat n - 48) else None.

Fixpoint parse_digits (cs : list Ascii.ascii) (after_digit : bool) (acc : Z) : option Z :=
  match cs with
  | [] => if after_digit then Some acc else None
  | c :: cs' =>
      match digit_value c with
      | Some d => parse_digits cs' true (acc * 10 + d)
      | None =>
          if Ascii.eqb c (chr 95) && after_digit then
            match cs' with [] => None | _ => parse_digits cs' false acc end
          else None
      end
  end.

Definition int_of_str (s : string) : option Z :=
  match String.list_ascii_of_string (py_strip s) with
  | [] => None
  | c :: cs =>
      if Ascii.eqb c (chr 45) then Z.opp <$> parse_digits cs false 0
      else if Ascii.eqb c (chr 43) then parse_digits cs false 0
      else parse_digits (c :: cs) false 0
  end.

(** [a == b]: numbers by value, dicts whatever the order of their items.  NaN
    equals nothing. *)
Definition number (v : value) : option Z :=
  match v with
  | PBool b => Some (if b then 1000000 else 0)
  | PInt n => Some (n * 1000000)
  | PFloat us => Some us
  | _ => None
  end.

Fixpoint py_eq (a b : value) {struct a} : bool :=
  match a with
  | PNone => match b with PNone => true | _ => false end
  | PNan => false
  | PInfinity => match b with PInfinity => true | _ => false end
  | PStr s => match b with PStr t => String.eqb s t | _ => false end
  | PList l =>
      match b with
      | PList m => (fix go l m := match l, m with
                    | [], [] => true
                    | x :: l', y :: m' => py_eq x y && go l' m'
                    | _, _ => false
                    end) l m
      | _ => false
      end
  | PDict d =>
      match b with
      | PDict e => (length d =? length e)%nat
          && (fix go d := match d with
              | [] => true
              | (k, x) :: d' => match dict_get e k with Some y => py_eq x y | None => false end && go d'
              end) d
      | _ => false
      end
  | PBool _ | PInt _ | PFloat _ =>
      match number a, number b with Some x, Some y => x =? y | _, _ => false end
  end.

(** [x in xs] for a list of values. *)
Definition py_in (x : value) (xs : list value) : bool := existsb (py_eq x) xs.

(** Lemmas on dictionaries. *)
Lemma dict_get_set {A} (d : list (string * A)) k v k' :
  dict_get (dict_set d k v) k' = if decide (k' = k) then Some v else dict_get d k'.
Proof.
  induction d as [|[k0 v0] d IH]; simpl.
  - destruct (String.eqb_spec k k'); case_decide; congruence.
  - destruct (String.eqb_spec k0 k) as [->|Hne]; simpl.
    + destruct (String.eqb_spec k k'); case_decide; congruence.
    + rewrite IH. destruct (String.eqb_spec k0 k'); case_decide; congruence.
Qed.

Lemma dict_get_update {A} (items d : list (string * A)) k :
  NoDup items.*1 ->
  dict_get (dict_update d items) k =
    match dict_get items k with Some v => Some v | None => dict_get d k end.
Proof.
  unfold dict_update. revert d. induction items as [|[k0 v0] items IH]; intros d Hnd; [done|].
  apply NoDup_cons in Hnd as [Hk Hnd]. simpl. rewrite IH, dict_get_set by done.
  destruct (String.eqb_spec k0 k) as [->|Hne].
  - assert (dict_get items k = None) as ->; [|by rewrite decide_True].
    clear -Hk. induction items as [|[k1 v1] items IHi]; [done|]. csimpl in *.
    destruct (String.eqb_spec k1 k); [set_solver|]. apply IHi. set_solver.
  - by rewrite decide_False by congruence.
Qed.

(** ** Values at every depth *)

(** Induction with a hypothesis for every item of a list or a dict. *)
Fixpoint value_nested_ind (P : value -> Prop)
    (Hscalar : forall v, (match v with PList _ | PDict _ => False | _ => True end) -> P v)
    (Hlist : forall l, Forall P l -> P (PList l))
    (Hdict : forall d, Forall (fun i => P i.2) d -> P (PDict d)) (v : value) {struct v} : P v :=
  match v with
  | PList l =>
      Hlist l ((fix go l : Forall P l := match l with
        | [] => Forall_nil_2 _
        | x :: l' => Forall_cons_2 _ _ _ (value_nested_ind P Hscalar Hlist Hdict x) (go l')
        end) l)
  | PDict d =>
      Hdict d ((fix go d : Forall (fun i => P i.2) d := match d with
        | [] => Forall_nil_2 _
        | (k, x) :: d' => Forall_cons_2 _ (k, x) _ (value_nested_ind P Hscalar Hlist Hdict x) (go d')
        end) d)
  | PNone => Hscalar PNone I
  | PBool b => Hscalar (PBool b) I
  | PInt n => Hscalar (PInt n) I
  | PFloat us => Hscalar (PFloat us) I
  | PNan => Hscalar PNan I
  | PInfinity => Hscalar PInfinity I
  | PStr s => Hscalar (PStr s) I
  end.

(** Every dict key at every depth satisfies [f]. *)
Fixpoint all_keys (f : string -> bool) (v : value) : bool :=
  match v with
  | PList l => forallb (all_keys f) l
  | PDict d => forallb (fun i => f i.1 && all_keys f i.2) d
  | _ => true
  end.

Lemma all_keys_dict f d : all_keys f (PDict d) = forallb (fun i => f i.1 && all_keys f i.2) d.
Proof. done. Qed.

Lemma forallb_dict_set f (d : list (string * value)) k v :
  f (k, v) = true -> forallb f d = true -> forallb f (dict_set d k v) = true.
Proof.
  intros Hk. induction d as [|[k0 v0] d IH]; cbn; [by rewrite Hk|]. intros [H0 Hd]%andb_true_iff.
  destruct (String.eqb k0 k); cbn; [by rewrite Hk, Hd|by rewrite H0, IH].
Qed.
