(* ===== verification/PyRegex.v ===== *)
(** * PyRegex: the fragment of [re] the contracts use

    Regular expressions over ASCII text with character classes, anchors and
    word edges, a declarative meaning and an executable matcher equivalent to
    it.  Non-ASCII characters are outside the fragment. *)

From S2P Require Import Prelude PyValue.

Inductive re : Type :=
  | Eps
  | Char (p : Ascii.ascii -> bool)
  | Seq (a b : re)
  | Alt (a b : re)
  | Star (a : re)
  | Begin
  | End
  | WordEdge.

(** A place in the text: the character before it and the text after it. *)
Definition place : Type := (option Ascii.ascii * list Ascii.ascii)%type.

Definition code_between (lo hi : nat) (c : Ascii.ascii) : bool :=
  let n := Ascii.nat_of_ascii c in ((lo <=? n) && (n <=? hi))%nat.

Definition is_digit : Ascii.ascii -> bool := code_between 48 57.
Definition is_letter (c : Ascii.ascii) : bool := code_between 65 90 c || code_between 97 122 c.
Definition is_char (n : nat) (c : Ascii.ascii) : bool := Ascii.eqb c (chr n).

(** [\w] *)
Definition is_word (c : Ascii.ascii) : bool := is_letter c || is_digit c || is_char 95 c.

(** [^] without [MULTILINE]; [$] also matches before a final newline; [\b]. *)
Definition at_begin (p : place) : bool := match p.1 with None => true | Some _ => false end.
Definition at_end (p : place) : bool :=
  match p.2 with [] => true | [c] => is_char 10 c | _ => false end.
Definition at_word_edge (p : place) : bool :=
  xorb (match p.1 with Some c => is_word c | None => false end)
       (match p.2 with c :: _ => is_word c | [] => false end).

(** [matches r p q]: the expression can match from place [p] to place [q]. *)
Inductive matches : re -> place -> place -> Prop :=
  | m_eps p : matches Eps p p
  | m_char f o c s : f c = true -> matches (Char f) (o, c :: s) (Some c, s)
  | m_seq a b p q r : matches a p q -> matches b q r -> matches (Seq a b) p r
  | m_left a b p q : matches a p q -> matches (Alt a b) p q
  | m_right a b p q : matches b p q -> matches (Alt a b) p q
  | m_star_done a p : matches (Star a) p p
  | m_star_more a p q r : matches a p q -> matches (Star a) q r -> matches (Star a) p r
  | m_begin p : at_begin p = true -> matches Begin p p
  | m_end p : at_end p = true -> matches End p p
  | m_edge p : at_word_edge p = true -> matches WordEdge p p.

(** Iterations that consume nothing add no end, so [fuel] is the text left. *)
Fixpoint star_ends (step : place -> list place) (fuel : nat) (p : place) : list place :=
  p :: match fuel with
       | O => []
       | S fuel' =>
           flat_map (star_ends step fuel')
             (List.filter (fun q => length q.2 <? length p.2)%nat (step p))
       end.

(** Every place a match from [p] can end at. *)
Fixpoint ends (r : re) (p : place) : list place :=
  match r with
  | Eps => [p]
  | Char f =>
      match p.2 with
      | c :: s => if f c then [(Some c, s)] else []
      | [] => []
      end
  | Seq a b => flat_map (ends b) (ends a p)
  | Alt a b => ends a p ++ ends b p
  | Star a => star_ends (ends a) (length p.2) p
  | Begin => if at_begin p then [p] else []
  | End => if at_end p then [p] else []
  | WordEdge => if at_word_edge p then [p] else []
  end.

Definition matches_from (r : re) (p : place) : bool :=
  match ends r p with [] => false | _ => true end.

Fixpoint search_from (r : re) (prev : option Ascii.ascii) (s : list Ascii.ascii) : bool :=
  matches_from r (prev, s)
  || match s with [] => false | c :: s' => search_from r (Some c) s' end.

(** [pattern.match(s)] and [pattern.search(s)], as booleans. *)
Definition re_match (r : re) (s : string) : bool :=
  matches_from r (None, String.list_ascii_of_string s).
Definition re_search (r : re) (s : string) : bool :=
  search_from r None (String.list_ascii_of_string s).

(** ** Building expressions *)

Definition Plus (a : re) : re := Seq a (Star a).
Definition Opt (a : re) : re := Alt a Eps.

(** A literal under [IGNORECASE]. *)
Definition word (s : string) : re :=
  fold_right (fun c r => Seq (Char (fun d => Ascii.eqb (lower_ascii d) (lower_ascii c))) r) Eps
    (String.list_ascii_of_string s).

Definition any_of (rs : list re) : re := fold_right Alt (Char (fun _ => false)) rs.

(** A character class given by its characters. *)
Definition one_of (s : string) : re :=
  Char (fun c => existsb (Ascii.eqb c) (String.list_ascii_of_string s)).

(** ** The matcher decides the relation *)

Lemma matches_progress r p q : matches r p q -> q = p \/ (length q.2 < length p.2)%nat.
Proof.
  induction 1; simpl; try tauto; try lia; repeat match goal with
    | H : _ \/ _ |- _ => destruct H; subst end; auto; right; lia.
Qed.

Lemma star_ends_sound a step fuel p q :
  (forall x y, y ∈ step x -> matches a x y) -> q ∈ star_ends step fuel p -> matches (Star a) p q.
Proof.
  intros Hs. revert p q. induction fuel as [|fuel IH]; intros p q; simpl.
  - intros ->%list_elem_of_singleton. constructor.
  - intros [->|Hq]%elem_of_cons; [constructor|].
    apply list_elem_of_In, in_flat_map in Hq as (x & [Hx _]%List.filter_In & Hq).
    apply m_star_more with x; [apply Hs, list_elem_of_In, Hx|apply IH, list_elem_of_In, Hq].
Qed.

Lemma star_ends_complete a step fuel p q :
  (forall x y, matches a x y -> y ∈ step x) -> (length p.2 <= fuel)%nat ->
  matches (Star a) p q -> q ∈ star_ends step fuel p.
Proof.
  intros Hs Hf H. remember (Star a) as r eqn:Hr. revert fuel Hf.
  induction H as [| | | | |b p|b p x q Hx _ Hq IH| | |]; try discriminate; injection Hr as ->;
    intros fuel Hf; [by destruct fuel; left|].
  destruct (matches_progress _ _ _ Hx) as [->|Hlt]; [by apply IH|].
  destruct fuel as [|fuel]; [lia|]. simpl. right.
  apply list_elem_of_In, in_flat_map. exists x. split; [|apply list_elem_of_In, IH; [done|lia]].
  apply List.filter_In. split; [apply list_elem_of_In, Hs, Hx|by apply Nat.ltb_lt].
Qed.

Lemma ends_spec r p q : q ∈ ends r p <-> matches r p q.
Proof.
  revert p q. induction r as [|f|a IHa b IHb|a IHa b IHb|a IHa| | |]; intros p q; simpl.
  - rewrite list_elem_of_singleton. split; [intros ->; constructor|by inversion 1].
  - destruct p as [o [|c s]]; simpl; [split; [by intros ?%not_elem_of_nil|by inversion 1]|].
    destruct (f c) eqn:Hf.
    + rewrite list_elem_of_singleton. split; [intros ->; by constructor|by inversion 1].
    + split; [by intros ?%not_elem_of_nil|inversion 1; congruence].
  - rewrite list_elem_of_In, in_flat_map. split.
    + intros (x & Hx%list_elem_of_In & Hq%list_elem_of_In).
      apply m_seq with x; [by apply IHa|by apply IHb].
    + inversion 1 as [| |? ? ? x ? Hx Hq| | | | | | |]; subst. exists x.
      split; apply list_elem_of_In; [by apply IHa|by apply IHb].
  - rewrite elem_of_app, IHa, IHb. split.
    + intros [?|?]; [by apply m_left|by apply m_right].
    + inversion 1; tauto.
  - split.
    + apply star_ends_sound. intros x y. apply IHa.
    + apply star_ends_complete; [|done]. intros x y. apply IHa.
  - destruct (at_begin p) eqn:E; rewrite ?list_elem_of_singleton.
    + split; [intros ->; by constructor|by inversion 1].
    + split; [by intros ?%not_elem_of_nil|inversion 1; congruence].
  - destruct (at_end p) eqn:E; rewrite ?list_elem_of_singleton.
    + split; [intros ->; by constructor|by inversion 1].
    + split; [by intros ?%not_elem_of_nil|inversion 1; congruence].
  - destruct (at_word_edge p) eqn:E; rewrite ?list_elem_of_singleton.
    + split; [intros ->; by constructor|by inversion 1].
    + split; [by intros ?%not_elem_of_nil|inversion 1; congruence].
Qed.

Lemma re_match_spec r s :
  re_match r s = true <-> exists q, matches r (None, String.list_ascii_of_string s) q.
Proof.
  unfold re_match, matches_from. destruct (ends r _) as [|q l] eqn:E.
  - split; [done|]. intros (q & Hq%ends_spec). rewrite E in Hq. by apply not_elem_of_nil in Hq.
  - split; [|done]. intros _. exists q. apply ends_spec. rewrite E. left.
Qed.
