(* ===== verification/PyText.v ===== *)
(** * PyText: how Python renders values in messages, and the redaction

    [repr] and [str] of the values of [PyValue], which the error texts of the
    stage executors embed, and [_redact_secrets] of
    [scripts/pipeline_provider_runtime.py], which those texts pass through.
    Text is a string of bytes; bytes above 127 are printed as they are. *)

From stdpp Require Import pretty.
From S2P Require Import Prelude PyValue PyRegex.

Abbreviation text := (list Ascii.ascii) (only parsing).
Abbreviation chars := String.list_ascii_of_string (only parsing).
Abbreviation of_chars := String.string_of_list_ascii (only parsing).

(** ** repr of a string *)

Definition dquote : Ascii.ascii := chr 34.
Definition squote : Ascii.ascii := chr 39.
Definition backslash : Ascii.ascii := chr 92.

Definition hex_digit (n : nat) : Ascii.ascii := if (n <? 10)%nat then chr (48 + n) else chr (87 + n).

Definition escape_char (quote c : Ascii.ascii) : text :=
  let n := Ascii.nat_of_ascii c in
  if Ascii.eqb c quote || Ascii.eqb c backslash then [backslash; c]
  else if (n =? 9)%nat then [backslash; chr 116]
  else if (n =? 10)%nat then [backslash; chr 110]
  else if (n =? 13)%nat then [backslash; chr 114]
  else if (n <? 32)%nat || (n =? 127)%nat then
    [backslash; chr 120; hex_digit (n / 16); hex_digit (n mod 16)]
  else [c].

(** Single quotes, unless the text has some and no double quote. *)
Definition repr_quote (cs : text) : Ascii.ascii :=
  if existsb (Ascii.eqb squote) cs && negb (existsb (Ascii.eqb dquote) cs) then dquote else squote.

Definition py_repr_str (s : string) : string :=
  let cs := chars s in
  let q := repr_quote cs in
  of_chars (q :: flat_map (escape_char q) cs ++ [q]).

(** ** JSON strings *)

Definition hex_value (c : Ascii.ascii) : option Z :=
  let n := Z.of_nat (Ascii.nat_of_ascii c) in
  if (48 <=? n) && (n <=? 57) then Some (n - 48)
  else if (97 <=? n) && (n <=? 102) then Some (n - 87)
  else if (65 <=? n) && (n <=? 70) then Some (n - 55) else None.

(** A lowercase hexadecimal digit, and the 64 of a SHA-256. *)
Definition is_hex (c : Ascii.ascii) : bool :=
  let n := Ascii.nat_of_ascii c in ((48 <=? n) && (n <=? 57) || (97 <=? n) && (n <=? 102))%nat.

Definition is_sha256 (s : string) : bool :=
  (String.length s =? 64)%nat && forallb is_hex (String.list_ascii_of_string s).

Definition hex4 (a b c d : Ascii.ascii) : option Z :=
  w ← hex_value a; x ← hex_value b; y ← hex_value c; z ← hex_value d;
  Some (Z.lor (Z.shiftl w 12) (Z.lor (Z.shiftl x 8) (Z.lor (Z.shiftl y 4) z))).

Definition zchr (n : Z) : Ascii.ascii := chr (Z.to_nat n).

(** A code point in UTF-8. *)
Definition utf8 (n : Z) : text :=
  let tail k := zchr (Z.lor 128 (Z.land (Z.shiftr n k) 63)) in
  if n <? 128 then [zchr n]
  else if n <? 2048 then [zchr (Z.lor 192 (Z.shiftr n 6)); tail 0]
  else if n <? 65536 then [zchr (Z.lor 224 (Z.shiftr n 12)); tail 6; tail 0]
  else [zchr (Z.lor 240 (Z.shiftr n 18)); tail 12; tail 6; tail 0].

Definition simple_escape (c : Ascii.ascii) : option Ascii.ascii :=
  match Ascii.nat_of_ascii c with
  | 34 => Some dquote | 92 => Some backslash | 47 => Some (chr 47) | 98 => Some (chr 8) | 102 => Some (chr 12)
  | 110 => Some (chr 10) | 114 => Some (chr 13) | 116 => Some (chr 9) | _ => None
  end%nat.

Definition low_surrogate (n : Z) : bool := (56320 <=? n) && (n <=? 57343).

(** The characters up to the closing quote, and what follows it. *)
Fixpoint scan_json (t : text) : option (text * text) :=
  let cons cs rest := match rest with Some (a, b) => Some (cs ++ a, b) | None => None end in
  match t with
  | [] => None
  | c :: t1 =>
      if Ascii.eqb c dquote then Some ([], t1)
      else if Ascii.eqb c backslash then
        match t1 with
        | [] => None
        | e :: t2 =>
            match simple_escape e with
            | Some x => cons [x] (scan_json t2)
            | None =>
                if negb (is_char 117 e) then None
                else match t2 with
                     | h1 :: h2 :: h3 :: h4 :: t3 =>
                         match hex4 h1 h2 h3 h4 with
                         | None => None
                         | Some n =>
                             let alone := cons (utf8 n) (scan_json t3) in
                             if (55296 <=? n) && (n <=? 56319) then
                               match t3 with
                               | b :: u :: l1 :: l2 :: l3 :: l4 :: t4 =>
                                   if Ascii.eqb b backslash && is_char 117 u then
                                     match hex4 l1 l2 l3 l4 with
                                     | Some m =>
                                         if low_surrogate m then
                                           cons (utf8 (65536 + Z.lor (Z.shiftl (n - 55296) 10) (m - 56320)))
                                             (scan_json t4)
                                         else alone
                                     | None => alone
                                     end
                                   else alone
                               | _ => alone
                               end
                             else alone
                         end
                     | _ => None
                     end
            end
        end
      else if (Ascii.nat_of_ascii c <? 32)%nat then None
      else cons [c] (scan_json t1)
  end.

Definition json_space (c : Ascii.ascii) : bool :=
  existsb (fun n => is_char n c) [9; 10; 13; 32]%nat.

(** [json.loads] of a text that begins with a quote. *)
Definition json_string (s : string) : option string :=
  match chars s with
  | _ :: t => '(a, rest) ← scan_json t; if forallb json_space rest then Some (of_chars a) else None
  | [] => None
  end.

(** ** repr and str of a value *)

Fixpoint drop_zeros (cs : text) : text :=
  match cs with c :: cs' => if is_char 48 c then drop_zeros cs' else cs | [] => [] end.

(** Digits without trailing zeros. *)
Definition trim_zeros (cs : text) : text := rev (drop_zeros (rev cs)).

Definition point_digits (cs : text) : text := match cs with [] => [] | _ => chr 46 :: cs end.

(** The mantissa and exponent form, of a digit string [d] with exponent [e]. *)
Definition exponent_form (cs : text) (e : Z) : text :=
  match cs with
  | [] => []
  | c :: cs' =>
      c :: point_digits (trim_zeros cs') ++ chr 101 :: (if e <? 0 then chr 45 else chr 43)
        :: (if Z.abs e <? 10 then [chr 48] else []) ++ chars (pretty (Z.abs e))
  end.

(** [repr] of a float of [us] microseconds: fixed point from 1e-4 up to 1e16. *)
Definition float_text (us : Z) : string :=
  let n := Z.abs us in
  let digits := chars (pretty n) in
  of_chars ((if us <? 0 then [chr 45] else []) ++
    if n =? 0 then [chr 48; chr 46; chr 48]
    else if (n <? 100) || (10 ^ 22 <=? n) then exponent_form digits (Z.of_nat (length digits) - 7)
    else
      let fraction := trim_zeros (tail (chars (pretty (10 ^ 6 + n mod 10 ^ 6)))) in
      chars (pretty (n / 10 ^ 6)) ++ chr 46 :: match fraction with [] => [chr 48] | f => f end).

Definition bool_text (b : bool) : string := if b then "True" else "False".

Fixpoint py_repr (v : value) : string :=
  match v with
  | PNone => "None"
  | PBool b => bool_text b
  | PInt n => pretty n
  | PFloat us => float_text us
  | PNan => "nan"
  | PInfinity => "inf"
  | PStr s => py_repr_str s
  | PList l => "[" +:+ String.concat ", " (map py_repr l) +:+ "]"
  | PDict d =>
      "{" +:+ String.concat ", " (map (fun i => py_repr_str i.1 +:+ ": " +:+ py_repr i.2) d) +:+ "}"
  end.

Definition py_str (v : value) : string := match v with PStr s => s | _ => py_repr v end.

Example repr_examples :
  py_repr (PDict [("a", PList [PInt (-3); PBool true; PNone; PStr "it's"]); ("b", PFloat 1500000)]) =
    "{'a': [-3, True, None, " +:+ of_chars [dquote] +:+ "it's" +:+ of_chars [dquote] +:+ "], 'b': 1.5}" /\
  (float_text <$> [-250; 30000000; 12; 10; 10 ^ 22]) = ["-0.00025"; "30.0"; "1.2e-05"; "1e-05"; "1e+16"].
Proof. by vm_compute. Qed.

(** ** Slices and substrings *)

(** [t[a:b]]: a negative index counts from the end, both are clipped. *)
Definition slice_index (len : nat) (i : Z) : nat :=
  if i <? 0 then Z.to_nat (Z.of_nat len + i) else Nat.min len (Z.to_nat i).

Definition py_slice (t : text) (a b : Z) : text :=
  let i := slice_index (length t) a in
  let j := slice_index (length t) b in
  take (j - i) (drop i t).

Fixpoint starts_with (p t : text) : bool :=
  match p, t with
  | [], _ => true
  | c :: p', d :: t' => Ascii.eqb c d && starts_with p' t'
  | _, [] => false
  end.

(** [p in t] *)
Fixpoint contained (p t : text) : bool :=
  starts_with p t || match t with [] => false | _ :: t' => contained p t' end.

(** [p] is a prefix up to ASCII case. *)
Definition starts_with_nocase (p t : text) : bool :=
  starts_with (lower_ascii <$> p) (lower_ascii <$> t).

(** ** _redact_secrets *)

Fixpoint span (f : Ascii.ascii -> bool) (t : text) : text * text :=
  match t with
  | c :: t' => if f c then let '(a, b) := span f t' in (c :: a, b) else ([], t)
  | [] => ([], [])
  end.

Definition redacted : text := chars "<redacted>".

Definition token_char (c : Ascii.ascii) : bool :=
  negb (is_space c || Ascii.eqb c dquote || Ascii.eqb c squote).

(** A match of [_AUTH_RE] at the start of the text: its first group and the
    length of the second.  No backtracking helps: what follows the spaces is
    not a space. *)
Definition auth_match (t : text) : option (text * nat) :=
  if starts_with_nocase (chars "bearer") t then
    let '(spaces, rest) := span is_space (drop 6 t) in
    let '(token, _) := span token_char rest in
    match spaces, token with
    | [], _ | _, [] => None
    | _, _ => Some (take 6 t ++ spaces, length token)
    end
  else None.

(** [_AUTH_RE.sub(r"\1<redacted>", text)]; [skip] characters belong to the
    match last replaced. *)
Fixpoint sub_auth (skip : nat) (t : text) : text :=
  match t with
  | [] => []
  | c :: t' =>
      match skip with
      | S skip' => sub_auth skip' t'
      | O =>
          match auth_match t with
          | Some (group, n) => group ++ redacted ++ sub_auth (length group + n - 1) t'
          | None => c :: sub_auth 0 t'
          end
      end
  end.

Definition secret_words : list string :=
  ["api_key"; "api-key"; "apikey"; "secret"; "password"; "auth"; "token"].

Definition is_name_char : Ascii.ascii -> bool := is_word.

(** A match of [_SECRET_RE]: the word, with no name character around it. *)
Definition secret_match (prev : option Ascii.ascii) (t : text) : option nat :=
  if match prev with Some c => is_name_char c | None => false end then None
  else
    length ∘ chars <$>
      List.find (fun w => starts_with_nocase (chars w) t &&
        match drop (length (chars w)) t with c :: _ => negb (is_name_char c) | [] => true end)
      secret_words.

(** [_SECRET_RE.sub(_secret_replacer, text)], where the replacer looks at the
    twelve characters of [whole] before the match. *)
Fixpoint sub_secret (whole : text) (pos : nat) (skip : nat) (prev : option Ascii.ascii) (t : text) : text :=
  match t with
  | [] => []
  | c :: t' =>
      match skip with
      | S skip' => sub_secret whole (S pos) skip' (Some c) t'
      | O =>
          match secret_match prev t with
          | Some n =>
              (if contained redacted (py_slice whole (Z.of_nat pos - 12) (Z.of_nat pos))
               then take n t else redacted) ++ sub_secret whole (S pos) (n - 1) (Some c) t'
          | None => c :: sub_secret whole (S pos) 0 (Some c) t'
          end
      end
  end.

Definition _redact_secrets (s : string) : string :=
  let t := sub_auth 0 (chars s) in
  of_chars (sub_secret t 0 0 None t).

(** The word is replaced, the value after it is not: a key in a query string
    or a JSON body stays readable. *)
Example redaction_keeps_the_secret :
  _redact_secrets "401 for api_key=sk-123 and Authorization: Bearer abc.def" =
    "401 for <redacted>=sk-123 and Authorization: Bearer <redacted>" /\
  _redact_secrets "Bearer token" = "Bearer <redacted>" /\
  _redact_secrets "Bearer x token=1" = "Bearer <redacted> token=1" /\
  _redact_secrets "mytoken token_2 Token" = "mytoken token_2 <redacted>".
Proof. by vm_compute. Qed.
