(* ===== verification/Recovery.v ===== *)
(** * Recovery: the pure bundle-recovery reducer

    Models the first part of [scripts/bundle_lifecycle.py]: the enumerations,
    [RecoveryState], [RecoveryObservation], [RecoveryDecision] and
    [reduce_recovery] with its helpers.  The theorems say that every phase
    change moves the transition fence, that restarts inside one retry window
    are bounded and end in quarantine, and which conditions order a restart. *)

From S2P Require Import Prelude.

(** ** Data *)

Inductive DesiredState := STOPPED | RUNNING | IDLE | PINNED.

Inductive RecoveryPhase :=
  | DISABLED | INTENTIONALLY_OFF | READY | CRASHED | RECOVERING | FAULTED
  | MAINTENANCE | BLOCKED.

Inductive RecoveryAction := SKIP | PROBE | START | RESTART | QUARANTINE.

#[export] Instance DesiredState_eq_dec : EqDecision DesiredState.
Proof. solve_decision. Defined.
#[export] Instance RecoveryPhase_eq_dec : EqDecision RecoveryPhase.
Proof. solve_decision. Defined.
#[export] Instance RecoveryAction_eq_dec : EqDecision RecoveryAction.
Proof. solve_decision. Defined.

Record RecoveryState := mkRecoveryState {
  phase : RecoveryPhase;
  transition_id : Z;
  restart_attempts : Z;
  retry_window_started_at : option time;
  last_restart_at : option time;
  last_healthy_at : option time }.

#[export] Instance RecoveryState_eta : Replaceable RecoveryState := fun r =>
  mkRecoveryState (phase r) (transition_id r) (restart_attempts r)
    (retry_window_started_at r) (last_restart_at r) (last_healthy_at r).

#[export] Instance RecoveryState_eq_dec : EqDecision RecoveryState.
Proof. solve_decision. Defined.

(** [RecoveryState()]. *)
Definition RecoveryState_default : RecoveryState :=
  mkRecoveryState INTENTIONALLY_OFF 0 0 None None None.

Record RecoveryObservation := mkRecoveryObservation {
  enabled : bool;
  obs_desired_state : DesiredState;
  maintenance_mode : bool;
  planned_stop : bool;
  coexistence_paused : bool;
  probe_ok : option bool;
  now : time;
  rejoin_requested : bool;
  max_restart_attempts : Z;
  retry_window_seconds : time;
  min_restart_interval_seconds : time }.

Record RecoveryDecision := mkRecoveryDecision {
  action : RecoveryAction;
  reason : string;
  previous : RecoveryState;
  next : RecoveryState;
  emit_transition_log : bool }.

(** ** Helpers *)

Definition _changed (previous next_state : RecoveryState) : bool :=
  bool_decide (phase previous <> phase next_state)
  || negb (transition_id previous =? transition_id next_state).

(** The keyword arguments [_phase] passes on to [replace]. *)
Inductive change :=
  | set_transition_id (z : Z)
  | set_restart_attempts (z : Z)
  | set_retry_window_started_at (t : option time)
  | set_last_restart_at (t : option time)
  | set_last_healthy_at (t : option time).

Definition apply_change (r : RecoveryState) (c : change) : RecoveryState :=
  match c with
  | set_transition_id z => r ⟪ transition_id := z ⟫
  | set_restart_attempts z => r ⟪ restart_attempts := z ⟫
  | set_retry_window_started_at t => r ⟪ retry_window_started_at := t ⟫
  | set_last_restart_at t => r ⟪ last_restart_at := t ⟫
  | set_last_healthy_at t => r ⟪ last_healthy_at := t ⟫
  end.

(** [changes.setdefault("transition_id", z)]. *)
Definition setdefault_transition_id (z : Z) (changes : list change) : list change :=
  if existsb (fun c => match c with set_transition_id _ => true | _ => false end) changes
  then changes else changes ++ [set_transition_id z].

Definition _phase (state : RecoveryState) (p : RecoveryPhase) (changes : list change)
    : RecoveryState :=
  let changes :=
    if bool_decide (p <> phase state)
    then setdefault_transition_id (transition_id state + 1) changes
    else changes in
  fold_left apply_change changes (state ⟪ phase := p ⟫).

Definition _decision (a : RecoveryAction) (why : string) (prev nxt : RecoveryState)
    (log : bool) : RecoveryDecision :=
  mkRecoveryDecision a why prev nxt (log || _changed prev nxt).

(** ** The reducer *)

(** The part of [reduce_recovery] after its admission guards. *)
Definition reduce_probe (state : RecoveryState) (o : RecoveryObservation) : RecoveryDecision :=
  match probe_ok o with
  | None =>
      if bool_decide (phase state = RECOVERING \/ phase state = CRASHED)
         && match last_restart_at state with
            | Some t => now o - t <? min_restart_interval_seconds o
            | None => false
            end
      then _decision SKIP "restart_cooldown" state state false
      else _decision PROBE "probe_required" state state false
  | Some true =>
      _decision SKIP "ready" state
        (_phase state READY
           [set_restart_attempts 0; set_retry_window_started_at None;
            set_last_restart_at None; set_last_healthy_at (Some (now o))]) false
  | Some false =>
      match last_healthy_at state with
      | None =>
          _decision START "never_healthy" state
            (_phase state CRASHED [set_last_restart_at (Some (now o))]) false
      | Some _ =>
          let expired :=
            match retry_window_started_at state with
            | None => true
            | Some w => retry_window_seconds o <? now o - w
            end in
          let window_started := if expired then Some (now o) else retry_window_started_at state in
          let attempts := (if expired then 0 else restart_attempts state) + 1 in
          if Z.max 1 (max_restart_attempts o) <? attempts then
            _decision QUARANTINE "restart_attempts_exhausted" state
              (_phase state FAULTED
                 [set_restart_attempts attempts; set_retry_window_started_at window_started;
                  set_last_restart_at None]) false
          else
            _decision RESTART "health_lost" state
              (state ⟪ phase := RECOVERING ⟫ ⟪ transition_id := transition_id state + 1 ⟫
                 ⟪ restart_attempts := attempts ⟫
                 ⟪ retry_window_started_at := window_started ⟫
                 ⟪ last_restart_at := Some (now o) ⟫)
              (bool_decide (phase state = READY))
      end
  end.

Definition reduce_recovery (state : RecoveryState) (o : RecoveryObservation)
    : RecoveryDecision :=
  if negb (enabled o) || bool_decide (obs_desired_state o = STOPPED) then
    _decision SKIP (if negb (enabled o) then "config_disabled" else "desired_stopped")
      state (_phase state DISABLED []) false
  else if maintenance_mode o then
    _decision SKIP "maintenance_mode" state (_phase state MAINTENANCE []) false
  else if planned_stop o then
    _decision SKIP "planned_stop" state (_phase state BLOCKED []) false
  else if coexistence_paused o then
    _decision SKIP "coexistence_paused" state (_phase state BLOCKED []) false
  else if bool_decide (phase state = FAULTED) && negb (rejoin_requested o) then
    _decision SKIP "circuit_open" state state false
  else
    let state :=
      if bool_decide (phase state = FAULTED)
      then state ⟪ phase := INTENTIONALLY_OFF ⟫ ⟪ transition_id := transition_id state + 1 ⟫
             ⟪ restart_attempts := 0 ⟫ ⟪ retry_window_started_at := None ⟫
             ⟪ last_restart_at := None ⟫
      else state in
    reduce_probe state o.

(** The reducer driven by a sequence of observations, as the monitor does. *)
Fixpoint reduce_all (state : RecoveryState) (obs : list RecoveryObservation)
    : list RecoveryDecision :=
  match obs with
  | [] => []
  | o :: obs' => let d := reduce_recovery state o in d :: reduce_all (next d) obs'
  end.

Fixpoint final_state (state : RecoveryState) (obs : list RecoveryObservation) : RecoveryState :=
  match obs with
  | [] => state
  | o :: obs' => final_state (next (reduce_recovery state o)) obs'
  end.

(** ** Lemmas on the helpers *)

Lemma phase__phase st p cs : phase (_phase st p cs) = p.
Proof.
  unfold _phase. generalize (if bool_decide (p <> phase st)
    then setdefault_transition_id (transition_id st + 1) cs else cs). intros l.
  assert (forall r, phase (fold_left apply_change l r) = phase r) as H.
  { induction l as [|c l IH]; intros r; simpl; [done|]. rewrite IH. by destruct c. }
  by rewrite H.
Qed.

(** An observation that lets the reducer act on the probe. *)
Definition admitted (o : RecoveryObservation) : bool :=
  enabled o && bool_decide (obs_desired_state o <> STOPPED) && negb (maintenance_mode o)
  && negb (planned_stop o) && negb (coexistence_paused o).

Lemma admitted_spec o :
  admitted o = true <->
  enabled o = true /\ obs_desired_state o <> STOPPED /\ maintenance_mode o = false /\
  planned_stop o = false /\ coexistence_paused o = false.
Proof.
  unfold admitted. rewrite !andb_true_iff, !negb_true_iff, bool_decide_eq_true. tauto.
Qed.

(** Past the admission guards the reducer starts from [rejoined st]. *)
Definition rejoined (st : RecoveryState) : RecoveryState :=
  if bool_decide (phase st = FAULTED)
  then mkRecoveryState INTENTIONALLY_OFF (transition_id st + 1) 0 None None (last_healthy_at st)
  else st.

Ltac reduce_guards :=
  unfold reduce_recovery, reduce_probe;
  repeat match goal with
  | H : admitted _ = true |- _ => apply admitted_spec in H as (? & ? & ? & ? & ?)
  | H : ?b = true |- context [?b] => rewrite H
  | H : ?b = false |- context [?b] => rewrite H
  | H : _ <> STOPPED |- context [bool_decide (_ = STOPPED)] =>
      rewrite (bool_decide_eq_false_2 _ H)
  end; simpl.

Definition keeps_transition (cs : list change) : bool :=
  negb (existsb (fun c => match c with set_transition_id _ => true | _ => false end) cs).

Lemma fold_keeps_transition cs r :
  keeps_transition cs = true ->
  transition_id (fold_left apply_change cs r) = transition_id r.
Proof.
  unfold keeps_transition. rewrite negb_true_iff, existsb_false_Forall.
  intros H. revert r. induction H as [|c cs Hc _ IH]; intros r; simpl; [done|].
  rewrite IH. by destruct c.
Qed.

Lemma transition__phase st p cs :
  keeps_transition cs = true ->
  transition_id (_phase st p cs) =
  (if decide (p = phase st) then transition_id st else transition_id st + 1).
Proof.
  intros H. unfold _phase, setdefault_transition_id.
  pose proof H as H'. unfold keeps_transition in H'. apply negb_true_iff in H'. rewrite H'.
  destruct (decide (p = phase st)) as [->|Hne].
  - rewrite bool_decide_eq_false_2 by naive_solver. by rewrite fold_keeps_transition.
  - rewrite bool_decide_eq_true_2 by done. rewrite fold_left_app. reflexivity.
Qed.

Lemma _phase_same st cs : _phase st (phase st) cs = fold_left apply_change cs st.
Proof.
  unfold _phase. rewrite bool_decide_eq_false_2 by naive_solver. by destruct st.
Qed.

Lemma rejoined_spec st :
  rejoined st =
  (if bool_decide (phase st = FAULTED)
   then st ⟪ phase := INTENTIONALLY_OFF ⟫ ⟪ transition_id := transition_id st + 1 ⟫
          ⟪ restart_attempts := 0 ⟫ ⟪ retry_window_started_at := None ⟫
          ⟪ last_restart_at := None ⟫
   else st).
Proof. unfold rejoined. by destruct (bool_decide _). Qed.

Lemma rejoined_last_healthy st : last_healthy_at (rejoined st) = last_healthy_at st.
Proof. unfold rejoined. by case_bool_decide. Qed.

Lemma not_admitted_skips st o :
  admitted o = false -> action (reduce_recovery st o) = SKIP.
Proof.
  unfold admitted, reduce_recovery. rewrite bool_decide_not.
  by destruct (enabled o), (bool_decide (obs_desired_state o = STOPPED)), (maintenance_mode o),
    (planned_stop o), (coexistence_paused o).
Qed.

(** Past the guards, with the circuit closed or a rejoin requested, the
    reducer is its probe part. *)
Lemma open_circuit_probes st o :
  admitted o = true -> (phase st = FAULTED -> rejoin_requested o = true) ->
  reduce_recovery st o = reduce_probe (rejoined st) o.
Proof.
  intros ? Hf. reduce_guards. rewrite <- rejoined_spec.
  destruct (rejoin_requested o); [by rewrite andb_false_r|].
  rewrite bool_decide_eq_false_2 by naive_solver. done.
Qed.

(** Case analysis on every guard of the reducer, with the phase helper
    replaced by what it does to phase and fence. *)
Ltac reduce_cases :=
  unfold reduce_recovery; rewrite <- ?rejoined_spec; unfold reduce_probe;
  repeat (case_match; simpl);
  rewrite ?phase__phase, ?transition__phase by reflexivity.

Lemma rejoined_bounds st :
  transition_id st <= transition_id (rejoined st) <= transition_id st + 1 /\
  (phase (rejoined st) <> phase st -> transition_id (rejoined st) = transition_id st + 1).
Proof. unfold rejoined. case_bool_decide; simpl; naive_solver lia. Qed.

(** The restart budget of one window. *)
Definition budget (m : Z) : nat := Z.to_nat (Z.max 1 m).

(** A failing sample of an admitted bundle inside the window opened at [t0]. *)
Definition failing (m : Z) (w t0 : time) (o : RecoveryObservation) : Prop :=
  admitted o = true /\ probe_ok o = Some false /\ rejoin_requested o = false /\
  max_restart_attempts o = m /\ retry_window_seconds o = w /\
  t0 <= now o <= t0 + w.

(** A bundle in an open window after [k] restarts. *)
Definition in_window (t0 : time) (k : nat) (st : RecoveryState) : Prop :=
  phase st <> FAULTED /\ is_Some (last_healthy_at st) /\
  restart_attempts st = Z.of_nat k /\ retry_window_started_at st = Some t0.

Lemma failing_faulted m w t0 o st :
  failing m w t0 o -> phase st = FAULTED ->
  action (reduce_recovery st o) = SKIP /\ next (reduce_recovery st o) = st.
Proof.
  intros (? & ? & Hr & _) Hf. reduce_guards. rewrite Hf, ?Hr. done.
Qed.

Lemma failing_in_window m w t0 o st k :
  failing m w t0 o -> in_window t0 k st ->
  let d := reduce_recovery st o in
  if (k <? budget m)%nat
  then action d = RESTART /\ in_window t0 (S k) (next d)
  else action d = QUARANTINE /\ phase (next d) = FAULTED.
Proof.
  intros (? & Hp & Hr & Hm & Hw & Ht) (Hph & [h Hh] & Hk & Hwin). simpl.
  reduce_guards. rewrite (bool_decide_eq_false_2 _ Hph), ?Hr, Hp, Hh, Hwin, Hk, Hm, Hw. simpl.
  assert ((w <? now o - t0) = false) as -> by (apply Z.ltb_ge; lia).
  unfold budget. destruct (Nat.ltb_spec k (Z.to_nat (Z.max 1 m))) as [Hlt|Hge].
  - assert ((Z.max 1 m <? Z.of_nat k + 1) = false) as -> by (apply Z.ltb_ge; lia).
    unfold in_window. simpl. split_and!; try done; lia.
  - assert ((Z.max 1 m <? Z.of_nat k + 1) = true) as -> by (apply Z.ltb_lt; lia).
    simpl. by rewrite phase__phase.
Qed.

Lemma failing_run_faulted m w t0 obs st :
  Forall (failing m w t0) obs -> phase st = FAULTED ->
  action <$> reduce_all st obs = replicate (length obs) SKIP.
Proof.
  intros H Hf. revert st Hf. induction H as [|o obs Ho _ IH]; intros st Hf; csimpl; [done|].
  destruct (failing_faulted _ _ _ _ _ Ho Hf) as [-> Hn]. rewrite Hn. by rewrite (IH _ Hf).
Qed.

Lemma take_padded {A} n (l : list A) y x :
  take n (l ++ y :: replicate (S n) x) = take n (l ++ y :: replicate n x).
Proof.
  rewrite !take_app. f_equal. destruct (n - length l)%nat eqn:E; [done|]. simpl. f_equal.
  rewrite <- replicate_S, !take_replicate. f_equal. lia.
Qed.

Lemma failing_run m w t0 obs st k :
  Forall (failing m w t0) obs -> in_window t0 k st -> (k <= budget m)%nat ->
  action <$> reduce_all st obs =
  take (length obs)
    (replicate (budget m - k) RESTART ++ QUARANTINE :: replicate (length obs) SKIP).
Proof.
  intros H. revert st k. induction H as [|o obs Ho Hobs IH]; intros st k Hw Hk; csimpl; [done|].
  pose proof (failing_in_window _ _ _ _ _ _ Ho Hw) as Hstep. simpl in Hstep.
  destruct (Nat.ltb_spec k (budget m)) as [Hlt|Hge]; destruct Hstep as [-> Hn].
  - replace (budget m - k)%nat with (S (budget m - S k)) by lia. simpl. f_equal.
    rewrite (IH _ _ Hn) by lia. symmetry. apply take_padded.
  - replace (budget m - k)%nat with 0%nat by lia. simpl. f_equal.
    rewrite (failing_run_faulted _ _ _ _ _ Hobs Hn).
    rewrite <- replicate_S, take_replicate. f_equal. lia.
Qed.

Lemma fresh_failing m w o st :
  phase st <> FAULTED -> is_Some (last_healthy_at st) -> retry_window_started_at st = None ->
  failing m w (now o) o ->
  let d := reduce_recovery st o in action d = RESTART /\ in_window (now o) 1 (next d).
Proof.
  intros Hph [h Hh] Hwin (? & Hp & Hr & Hm & Hw & _). simpl. reduce_guards.
  rewrite (bool_decide_eq_false_2 _ Hph), ?Hr, Hp, Hh, Hwin, Hm. simpl.
  assert ((Z.max 1 m <? 0 + 1) = false) as -> by (apply Z.ltb_ge; lia).
  by unfold in_window.
Qed.

(** ** Properties *)

(** Fencing of recovery: one reduction never moves the transition id
    backwards, moves it by at most two (a rejoin and a phase change), and moves
    it whenever the phase changes or a restart is ordered, so two different
    phases of a bundle never share a transition id. *)
Theorem reduce_recovery_fences st o :
  let d := reduce_recovery st o in
  transition_id st <= transition_id (next d) <= transition_id st + 2 /\
  (phase (next d) <> phase st -> transition_id st < transition_id (next d)) /\
  (action d = RESTART -> transition_id st < transition_id (next d)) /\
  (action d = QUARANTINE -> phase (next d) = FAULTED).
Proof.
  pose proof (rejoined_bounds st) as [Hb Hp].
  simpl. reduce_cases; repeat case_decide; simpl in *;
    repeat match goal with H : _ = phase (rejoined st) |- _ => rewrite <- H in Hp; clear H end;
    naive_solver lia.
Qed.



Definition sample_healthy : RecoveryState := mkRecoveryState READY 4 0 None None (Some 7).
Definition sample_down (t : time) : RecoveryObservation :=
  mkRecoveryObservation true IDLE false false false (Some false) t false 2 300 30.


(** Restart attempts that still count when [o] is reduced. *)
Definition attempts_in_window (st : RecoveryState) (o : RecoveryObservation) : Z :=
  match retry_window_started_at st with
  | Some w => if retry_window_seconds o <? now o - w then 0 else restart_attempts st
  | None => 0
  end.

(** When a restart is ordered: exactly when the bundle is enabled, wanted,
    not in maintenance, not planned to stop and not paused, the circuit is not
    open (or a rejoin was requested), the probe failed, the bundle has been
    healthy before, and the attempts of the still-open window are below the
    bound. *)
Theorem restart_iff st o :
  action (reduce_recovery st o) = RESTART <->
  admitted o = true /\ (phase st = FAULTED -> rejoin_requested o = true) /\
  probe_ok o = Some false /\ is_Some (last_healthy_at st) /\
  attempts_in_window (rejoined st) o < Z.max 1 (max_restart_attempts o).
Proof.
  destruct (admitted o) eqn:Ha.
  2:{ rewrite not_admitted_skips by done. naive_solver. }
  destruct (decide (phase st = FAULTED /\ rejoin_requested o = false)) as [[Hf Hr]|Hopen].
  { reduce_guards. rewrite Hf, ?Hr. naive_solver congruence. }
  assert (phase st = FAULTED -> rejoin_requested o = true) as Hrj.
  { intros ?. destruct (rejoin_requested o); [done|]. by destruct Hopen. }
  rewrite open_circuit_probes, <- rejoined_last_healthy by done.
  unfold reduce_probe. destruct (probe_ok o) as [[]|]; simpl; [naive_solver| |].
  - destruct (last_healthy_at (rejoined st)) eqn:Hh.
    2:{ simpl. split; [done|]. by intros (_ & _ & _ & [? ?] & _). }
    assert ((if match retry_window_started_at (rejoined st) with
                | None => true | Some w => retry_window_seconds o <? now o - w end
             then 0 else restart_attempts (rejoined st)) = attempts_in_window (rejoined st) o)
      as ->.
    { unfold attempts_in_window. by destruct (retry_window_started_at _). }
    match goal with |- context [?a <? ?b + 1] => destruct (Z.ltb_spec a (b + 1)) end; simpl.
    + split; [done|]. intros (_ & _ & _ & _ & ?). lia.
    + split; [|done]. intros _. split_and!; try done; lia.
  - destruct (_ && _); naive_solver.
Qed.

(** Recovery on a healthy probe: for an admitted bundle whose circuit is
    not open, a good probe takes no action, makes it READY at the sample's time
    and clears the restart window. *)
Theorem healthy_probe_resets st o :
  admitted o = true -> (phase st = FAULTED -> rejoin_requested o = true) ->
  probe_ok o = Some true ->
  let d := reduce_recovery st o in
  action d = SKIP /\ phase (next d) = READY /\ restart_attempts (next d) = 0 /\
  retry_window_started_at (next d) = None /\ last_restart_at (next d) = None /\
  last_healthy_at (next d) = Some (now o).
Proof.
  intros ? Hf Hp. simpl. reduce_guards. rewrite <- rejoined_spec, Hp.
  rewrite andb_comm. destruct (rejoin_requested o) eqn:Hr; simpl.
  - unfold _phase, setdefault_transition_id. simpl. by case_bool_decide.
  - case_bool_decide as Hd; [naive_solver|]. simpl.
    unfold _phase, setdefault_transition_id. simpl. by case_bool_decide.
Qed.

Lemma healthy_probe_resets_witness :
  let st := mkRecoveryState RECOVERING 9 3 (Some 10) (Some 20) None in
  let o := mkRecoveryObservation true RUNNING false false false (Some true) 77 false 3 300 30 in
  last_healthy_at (next (reduce_recovery st o)) = Some 77.
Proof.
  apply (healthy_probe_resets (mkRecoveryState RECOVERING 9 3 (Some 10) (Some 20) None)
    (mkRecoveryObservation true RUNNING false false false (Some true) 77 false 3 300 30));
    [reflexivity|discriminate|reflexivity].
Defined.

(** ** What modelling showed *)

(** A bundle that was never healthy is started again on every failing sample:
    no window and no quarantine applies to it. *)
Theorem never_healthy_is_unbounded m w t0 obs st :
  Forall (failing m w t0) obs -> phase st <> FAULTED -> last_healthy_at st = None ->
  action <$> reduce_all st obs = replicate (length obs) START.
Proof.
  intros H. revert st. induction H as [|o obs Ho _ IH]; intros st Hph Hh; csimpl; [done|].
  destruct Ho as (? & Hp & Hr & _).
  assert (forall d, d = reduce_recovery st o ->
    action d = START /\ phase (next d) <> FAULTED /\ last_healthy_at (next d) = None) as Hd.
  { intros d ->. reduce_guards. rewrite (bool_decide_eq_false_2 _ Hph), Hp, Hh. simpl.
    rewrite phase__phase. split_and!; [done|done|].
    unfold _phase, setdefault_transition_id. simpl. by case_bool_decide. }
  destruct (Hd _ eq_refl) as (-> & Hph' & Hh'). by rewrite IH.
Qed.

(** A rejoin leaves FAULTED and moves the fence, yet the decision says that
    nothing changed: [previous] is the state after the rejoin. *)
Example rejoin_not_logged :
  let st := mkRecoveryState FAULTED 6 4 (Some 0) None (Some 1) in
  let o := mkRecoveryObservation true IDLE false false false None 99 true 3 300 30 in
  let d := reduce_recovery st o in
  phase (next d) = INTENTIONALLY_OFF /\ transition_id (next d) = 7 /\
  emit_transition_log d = false.
Proof. by repeat split. Qed.

(** A maintenance sample overwrites FAULTED, so a quarantined bundle is
    restarted afterwards although no rejoin was requested. *)
Example maintenance_closes_the_circuit :
  let st := mkRecoveryState FAULTED 6 4 (Some 0) None (Some 1) in
  let o m t p := mkRecoveryObservation true IDLE m false false p t false 3 300 30 in
  action <$> reduce_all st [o false 10 (Some false); o true 20 None; o false 999 (Some false)] =
  [SKIP; SKIP; RESTART].
Proof. reflexivity. Qed.
