(* ===== verification/Lifecycle.v ===== *)
(** * Lifecycle: bundle records, leases and what a lifecycle store promises

    Models the data of [scripts/bundle_lifecycle.py] that the stores share
    ([BundleLifecycleRecord], the leases and attempts, the two normalisers) and
    the [BundleLifecycleStore] protocol.  The protocol is the class
    [LifecycleStore]; what it promises is the class [FencedStore]: every
    operation acts on the fenced cell of a bundle as the small functions of
    [Spec] say.  The theorems about fencing and mutual exclusion are proved once
    against that promise. *)

From S2P Require Import Prelude Recovery.

(** ** Data *)

Record BundleLifecycleRecord := mkBundleLifecycleRecord {
  bundle_name : string;
  desired_state : DesiredState;
  recovery : RecoveryState;
  generation_fence : Z;
  transition_owner : option string;
  transition_expires_at : time;
  last_reason : string;
  last_error : option string;
  updated_at : time }.

#[export] Instance BundleLifecycleRecord_eta : Replaceable BundleLifecycleRecord := fun r =>
  mkBundleLifecycleRecord (bundle_name r) (desired_state r) (recovery r) (generation_fence r)
    (transition_owner r) (transition_expires_at r) (last_reason r) (last_error r) (updated_at r).

(** [BundleLifecycleRecord(bundle_name=name, updated_at=t)]. *)
Definition new_record (name : string) (t : time) : BundleLifecycleRecord :=
  mkBundleLifecycleRecord name IDLE RecoveryState_default 0 None 0 "" None t.

(** The [transition_id] property of a record. *)
Definition record_transition_id (r : BundleLifecycleRecord) : Z := transition_id (recovery r).

Record BundleTransitionLease := mkBundleTransitionLease {
  lease_bundle_name : string;
  lease_owner : string;
  lease_generation_fence : Z;
  lease_transition_id : Z;
  lease_expires_at : time }.

Record TransitionAttempt := mkTransitionAttempt {
  acquired : bool;
  attempt_lease : option BundleTransitionLease;
  attempt_reason : string;
  attempt_record : option BundleLifecycleRecord }.

(** [BundleTransitionGroupLease.leases]. *)
Definition BundleTransitionGroupLease : Type := list BundleTransitionLease.

Record TransitionGroupAttempt := mkTransitionGroupAttempt {
  group_acquired : bool;
  group_lease : option BundleTransitionGroupLease;
  group_reason : string }.

Record ResourceLease := mkResourceLease {
  resource_ids : list string;
  resource_owner : string;
  resource_fence : Z;
  resource_expires_at : time }.

(** ** Normalisers *)

(** A value passed as a resource: a [str], a [bytes] (seen as what its strict
    UTF-8 decoding yields, [None] when that raises), or anything else. *)
Inductive PyResource :=
  | ResStr (s : string)
  | ResBytes (decoded : option string)
  | ResOther.

(** The argument of [canonical_resource_ids]: one [str]/[bytes], an iterable,
    or a value [list()] rejects. *)
Inductive PyResources :=
  | OneResource (r : PyResource)
  | ResourceIterable (l : list PyResource)
  | NotIterable.

Inductive ValueError :=
  | NotIterableResources | EmptyResourceIdentity | ResourceDecodeError | UnknownDesiredState.

Definition canonical_resource (r : PyResource) : result ValueError string :=
  match r with
  | ResBytes None => Err ResourceDecodeError
  | ResOther => Err EmptyResourceIdentity
  | ResStr s | ResBytes (Some s) =>
      if str_truthy (py_strip s) then Ok (py_strip s) else Err EmptyResourceIdentity
  end.

Fixpoint canonical_loop (l : list PyResource) (normalized : list string)
    : result ValueError (list string) :=
  match l with
  | [] => Ok normalized
  | r :: l' =>
      match canonical_resource r with
      | Ok s => canonical_loop l' (if decide (s ∈ normalized) then normalized else normalized ++ [s])
      | Err e => Err e
      end
  end.

Definition canonical_resource_ids (resources : PyResources) : result ValueError (list string) :=
  match resources with
  | NotIterable => Err NotIterableResources
  | OneResource r => n ← canonical_loop [r] []; mret (py_sorted n)
  | ResourceIterable l => n ← canonical_loop l []; mret (py_sorted n)
  end.

Definition DesiredState_value (d : DesiredState) : string :=
  match d with
  | STOPPED => "stopped" | RUNNING => "running" | IDLE => "idle" | PINNED => "pinned"
  end.

(** [DesiredState(s)]; [None] stands for the [ValueError]. *)
Definition DesiredState_of (s : string) : option DesiredState :=
  if String.eqb s "stopped" then Some STOPPED
  else if String.eqb s "running" then Some RUNNING
  else if String.eqb s "idle" then Some IDLE
  else if String.eqb s "pinned" then Some PINNED else None.

(** A desired state as a caller gives it: the enumeration or its text. *)
Definition coerce_desired (d : DesiredState + string) : result ValueError DesiredState :=
  match d with
  | inl d => Ok d
  | inr s => match DesiredState_of s with Some d => Ok d | None => Err UnknownDesiredState end
  end.

Fixpoint normalize_loop (ts : list (string * (DesiredState + string)))
    (normalized : gmap string DesiredState) : result ValueError (gmap string DesiredState) :=
  match ts with
  | [] => Ok normalized
  | (n, d) :: ts' =>
      let name := py_strip n in
      if negb (str_truthy name) then normalize_loop ts' normalized
      else d ← coerce_desired d; normalize_loop ts' (<[name := d]> normalized)
  end.

(** [tuple(sorted(normalized.items()))]; the names are distinct, so the order
    of the states never decides. *)
Definition sorted_items {A} (m : gmap string A) : list (string * A) :=
  omap (fun k => (k,.) <$> m !! k) (py_sorted (elements (dom m))).

Definition _normalize_group_transitions (ts : list (string * (DesiredState + string)))
    : result ValueError (list (string * DesiredState)) :=
  m ← normalize_loop ts ∅; mret (sorted_items m).

Lemma lookup_items_NoDup {A} (m : gmap string A) ks :
  NoDup ks -> NoDup (omap (fun k => (k,.) <$> m !! k) ks).*1.
Proof.
  assert (forall ks x, x ∈ (omap (fun k => (k,.) <$> m !! k) ks).*1 -> x ∈ ks) as Hsub.
  { intros l. induction l as [|k l IH]; csimpl; [done|]. intros x.
    destruct (m !! k); csimpl; set_solver. }
  induction 1 as [|k ks Hk _ IH]; csimpl; [constructor|].
  destruct (m !! k); csimpl; [|done]. constructor; [|done]. eauto.
Qed.

Lemma normalize_items_NoDup ts items :
  _normalize_group_transitions ts = Ok items -> NoDup items.*1.
Proof.
  unfold _normalize_group_transitions. intros H. inv_ok. apply lookup_items_NoDup.
  rewrite py_sorted_perm. apply NoDup_elements.
Qed.

(** *** Canonical resource identities *)

(** What [canonical_resource_ids] returns: sorted, without duplicates, each
    identity stripped and non-empty. *)
Definition canonical_form (ids : list string) : Prop :=
  StronglySorted String.le ids /\ NoDup ids /\
  Forall (fun x => py_strip x = x /\ str_truthy x = true) ids.

Lemma canonical_resource_ok r x :
  canonical_resource r = Ok x -> py_strip x = x /\ str_truthy x = true.
Proof.
  unfold canonical_resource.
  destruct r as [s|[s|]|]; try done; destruct (str_truthy (py_strip s)) eqn:E; try done;
    intros [= <-]; (split; [apply py_strip_idem|done]).
Qed.

Lemma canonical_loop_ok l acc n :
  canonical_loop l acc = Ok n ->
  (NoDup acc -> NoDup n) /\
  forall x, x ∈ n <-> x ∈ acc \/ exists r, r ∈ l /\ canonical_resource r = Ok x.
Proof.
  revert acc. induction l as [|r l IH]; intros acc; simpl.
  { intros [= <-]. split; [done|]. set_solver. }
  destruct (canonical_resource r) as [x|] eqn:Hr; [|done]. intros [H1 H2]%IH. split.
  - intros Hacc. apply H1. case_decide; [done|]. apply NoDup_app. split_and!; [done|set_solver|].
    apply NoDup_singleton.
  - intros y. rewrite H2.
    assert ((exists r', r' ∈ r :: l /\ canonical_resource r' = Ok y) <->
            y = x \/ exists r', r' ∈ l /\ canonical_resource r' = Ok y) as ->.
    { setoid_rewrite elem_of_cons. naive_solver congruence. }
    case_decide; rewrite ?elem_of_app, ?list_elem_of_singleton; naive_solver.
Qed.

Lemma canonical_loop_stripped ids acc :
  Forall (fun x => py_strip x = x /\ str_truthy x = true) ids -> NoDup (acc ++ ids) ->
  canonical_loop (ResStr <$> ids) acc = Ok (acc ++ ids).
Proof.
  intros H. revert acc. induction H as [|x ids [Hs Ht] _ IH]; intros acc Hnd; csimpl.
  { by rewrite app_nil_r. }
  rewrite Hs, Ht. rewrite decide_False.
  - rewrite IH; rewrite <- app_assoc; done.
  - apply NoDup_app in Hnd as (_ & Hd & _). set_solver.
Qed.

Lemma canonical_resource_ids_form rs ids :
  canonical_resource_ids rs = Ok ids -> canonical_form ids.
Proof.
  intros H.
  assert (exists l n, canonical_loop l [] = Ok n /\ ids = py_sorted n) as (l & n & Hl & ->).
  { destruct rs; [| |discriminate]; cbn [canonical_resource_ids] in H;
      destruct (canonical_loop _ _) as [n|] eqn:E; try discriminate; injection H as <-; eauto. }
  apply canonical_loop_ok in Hl as [Hnd Hin]. split_and!.
  - apply py_sorted_sorted.
  - rewrite py_sorted_perm. apply Hnd, NoDup_nil_2.
  - rewrite py_sorted_perm. apply Forall_forall. intros x [?|(r & _ & Hr)]%Hin; [set_solver|].
    by eapply canonical_resource_ok.
Qed.

Lemma canonical_resource_ids_fixed ids :
  canonical_form ids -> canonical_resource_ids (ResourceIterable (ResStr <$> ids)) = Ok ids.
Proof.
  intros (Hs & Hnd & Hall). simpl. rewrite canonical_loop_stripped by done.
  simpl. by rewrite py_sorted_id.
Qed.

(** Equal sets of identities have equal canonical forms. *)
Lemma canonical_form_unique ids ids' :
  canonical_form ids -> canonical_form ids' -> (forall x, x ∈ ids <-> x ∈ ids') -> ids = ids'.
Proof.
  intros (Hs & Hnd & _) (Hs' & Hnd' & _) Hin. apply (StronglySorted_unique String.le); [done..|].
  by apply NoDup_Permutation.
Qed.

(** ** The store protocol *)

Class LifecycleStore (S : Type) := {
  store_get : time -> S -> string -> BundleLifecycleRecord;
  store_begin : S -> string -> DesiredState -> string -> time -> time -> string ->
    TransitionAttempt * S;
  store_begin_group : S -> list (string * (DesiredState + string)) -> string -> time -> time ->
    string -> result ValueError TransitionGroupAttempt * S;
  store_renew : S -> BundleTransitionLease -> time -> time -> bool * S;
  store_renew_group : S -> BundleTransitionGroupLease -> time -> time -> bool * S;
  store_record_recovery : S -> string -> DesiredState -> RecoveryState -> time -> string ->
    bool * S;
  store_finish : S -> BundleTransitionLease -> bool -> time -> string -> option string ->
    bool * S;
  store_finish_group : S -> BundleTransitionGroupLease -> bool -> time -> string ->
    option string -> bool * S;
  store_acquire_resources : S -> PyResources -> string -> time -> time ->
    result ValueError (option ResourceLease) * S;
  store_renew_resources : S -> ResourceLease -> time -> time -> result ValueError bool * S;
  store_release_resources : S -> ResourceLease -> result ValueError bool * S }.

(** ** Abstract specification: the fenced cell of one bundle *)

Record Cell := mkCell {
  c_fence : Z; c_transition : Z; c_owner : string; c_expires : time;
  c_phase : RecoveryPhase; c_desired : DesiredState }.

#[export] Instance Cell_eta : Replaceable Cell := fun c =>
  mkCell (c_fence c) (c_transition c) (c_owner c) (c_expires c) (c_phase c) (c_desired c).

(** The shortest renewal: [max(0.1, float(ttl_seconds))]. *)
Definition renewal_ttl (ttl : time) : time := Z.max 100000 ttl.

Module Spec.
Definition live (c : Cell) (now : time) : bool := str_truthy (c_owner c) && (now <? c_expires c).

Definition begin (d : DesiredState) (owner : string) (now ttl : time) (c : Cell)
    : option Cell :=
  if live c now then None
  else Some (mkCell (c_fence c + 1) (c_transition c + 1) owner (now + ttl) RECOVERING d).

Definition holds (l : BundleTransitionLease) (now : time) (c : Cell) : bool :=
  String.eqb (c_owner c) (lease_owner l) && (c_fence c =? lease_generation_fence l)
  && (c_transition c =? lease_transition_id l) && (now <? c_expires c).

Definition renew (l : BundleTransitionLease) (now ttl : time) (c : Cell) : option Cell :=
  if holds l now c then Some (c ⟪ c_expires := now + renewal_ttl ttl ⟫) else None.

Definition released (success : bool) (c : Cell) : Cell :=
  c ⟪ c_phase := if success then READY else CRASHED ⟫ ⟪ c_owner := "" ⟫ ⟪ c_expires := 0 ⟫.

Definition finish (l : BundleTransitionLease) (success : bool) (now : time) (c : Cell)
    : option Cell :=
  if holds l now c then Some (released success c) else None.

Definition record_recovery (d : DesiredState) (r : RecoveryState) (now : time) (c : Cell)
    : option Cell :=
  if live c now then None
  else Some (c ⟪ c_transition := transition_id r ⟫ ⟪ c_phase := phase r ⟫ ⟪ c_desired := d ⟫).
End Spec.

(** The lease [begin] hands out for the cell it leaves. *)
Definition lease_of (name : string) (c : Cell) : BundleTransitionLease :=
  mkBundleTransitionLease name (c_owner c) (c_fence c) (c_transition c) (c_expires c).

(** [stepped o cs cs' k]: the cells go from [cs] to [cs'] by giving bundle [k]
    the cell of [o], or stay as they are when [o] refuses. *)
Definition stepped (o : option Cell) (cs cs' : string -> Cell) (k : string) : Prop :=
  match o with
  | Some c => forall n, cs' n = if decide (n = k) then c else cs n
  | None => forall n, cs' n = cs n
  end.

(** The cells a group operation leaves when it succeeds. *)
Definition group_begun (items : list (string * DesiredState)) (owner : string) (now ttl : time)
    (cs : string -> Cell) (n : string) : Cell :=
  match (list_to_map items : gmap string DesiredState) !! n with
  | Some d => mkCell (c_fence (cs n) + 1) (c_transition (cs n) + 1) owner (now + ttl) RECOVERING d
  | None => cs n
  end.

Definition group_updated (ls : BundleTransitionGroupLease) (f : Cell -> Cell)
    (cs : string -> Cell) (n : string) : Cell :=
  if decide (n ∈ lease_bundle_name <$> ls) then f (cs n) else cs n.

Definition all_hold (ls : BundleTransitionGroupLease) (now : time) (cs : string -> Cell) : bool :=
  forallb (fun l => Spec.holds l now (cs (lease_bundle_name l))) ls.

(** What a store promises.  [cell_of] is the abstraction function and
    [store_wf] the representation invariant. *)
Class FencedStore (S : Type) `{!LifecycleStore S} := {
  cell_of : S -> string -> Cell;
  store_wf : S -> Prop;
  begin_refines s name d owner now ttl reason :
    store_wf s -> str_truthy owner = true ->
    let '(att, s') := store_begin s name d owner now ttl reason in
    let o := Spec.begin d owner now ttl (cell_of s name) in
    store_wf s' /\ stepped o (cell_of s) (cell_of s') name /\
    acquired att = bool_decide (is_Some o) /\ attempt_lease att = lease_of name <$> o;
  begin_group_refines s ts owner now ttl reason :
    store_wf s -> str_truthy owner = true ->
    let '(r, s') := store_begin_group s ts owner now ttl reason in
    store_wf s' /\
    match _normalize_group_transitions ts with
    | Err e => r = Err e /\ forall n, cell_of s' n = cell_of s n
    | Ok items =>
        if forallb (fun i => negb (Spec.live (cell_of s i.1) now)) items
           && negb (bool_decide (items = []))
        then (exists g, r = Ok g /\ group_acquired g = true /\
                group_lease g = Some ((fun i => lease_of i.1 (cell_of s' i.1)) <$> items)) /\
             forall n, cell_of s' n = group_begun items owner now ttl (cell_of s) n
        else (exists g, r = Ok g /\ group_acquired g = false /\ group_lease g = None) /\
             forall n, cell_of s' n = cell_of s n
    end;
  renew_refines s l now ttl :
    store_wf s -> str_truthy (lease_owner l) = true ->
    let '(ok, s') := store_renew s l now ttl in
    let o := Spec.renew l now ttl (cell_of s (lease_bundle_name l)) in
    store_wf s' /\ ok = bool_decide (is_Some o) /\
    stepped o (cell_of s) (cell_of s') (lease_bundle_name l);
  renew_group_refines s ls owner now ttl :
    store_wf s -> str_truthy owner = true -> Forall (fun l => lease_owner l = owner) ls ->
    let '(ok, s') := store_renew_group s ls now ttl in
    store_wf s' /\
    ok = (all_hold ls now (cell_of s) && negb (bool_decide (ls = []))) /\
    forall n, cell_of s' n =
      if ok then group_updated ls (fun c => c ⟪ c_expires := now + renewal_ttl ttl ⟫) (cell_of s) n
      else cell_of s n;
  record_recovery_refines s name d r now reason :
    store_wf s ->
    let '(ok, s') := store_record_recovery s name d r now reason in
    let o := Spec.record_recovery d r now (cell_of s name) in
    store_wf s' /\ ok = bool_decide (is_Some o) /\ stepped o (cell_of s) (cell_of s') name;
  finish_refines s l success now reason err :
    store_wf s -> str_truthy (lease_owner l) = true ->
    let '(ok, s') := store_finish s l success now reason err in
    let o := Spec.finish l success now (cell_of s (lease_bundle_name l)) in
    store_wf s' /\ ok = bool_decide (is_Some o) /\
    stepped o (cell_of s) (cell_of s') (lease_bundle_name l);
  finish_group_refines s ls owner success now reason err :
    store_wf s -> str_truthy owner = true -> ls <> [] ->
    Forall (fun l => lease_owner l = owner) ls ->
    let '(ok, s') := store_finish_group s ls success now reason err in
    store_wf s' /\ ok = all_hold ls now (cell_of s) /\
    forall n, cell_of s' n =
      if ok then group_updated ls (Spec.released success) (cell_of s) n
      else cell_of s n }.

(** ** Histories of one store *)

Inductive StoreOp :=
  | OpBegin (name : string) (d : DesiredState) (owner : string) (now ttl : time) (reason : string)
  | OpBeginGroup (ts : list (string * (DesiredState + string))) (owner : string) (now ttl : time)
      (reason : string)
  | OpRenew (l : BundleTransitionLease) (now ttl : time)
  | OpRenewGroup (ls : BundleTransitionGroupLease) (now ttl : time)
  | OpRecord (name : string) (d : DesiredState) (r : RecoveryState) (now : time) (reason : string)
  | OpFinish (l : BundleTransitionLease) (success : bool) (now : time) (reason : string)
      (err : option string)
  | OpFinishGroup (ls : BundleTransitionGroupLease) (success : bool) (now : time)
      (reason : string) (err : option string).

Definition run_op {S} `{!LifecycleStore S} (s : S) (op : StoreOp) : S :=
  match op with
  | OpBegin n d o now ttl why => (store_begin s n d o now ttl why).2
  | OpBeginGroup ts o now ttl why => (store_begin_group s ts o now ttl why).2
  | OpRenew l now ttl => (store_renew s l now ttl).2
  | OpRenewGroup ls now ttl => (store_renew_group s ls now ttl).2
  | OpRecord n d r now why => (store_record_recovery s n d r now why).2
  | OpFinish l ok now why e => (store_finish s l ok now why e).2
  | OpFinishGroup ls ok now why e => (store_finish_group s ls ok now why e).2
  end.

Definition run_ops {S} `{!LifecycleStore S} (s : S) (ops : list StoreOp) : S :=
  fold_left run_op ops s.

(** Owners are non-empty and a group lease has one owner and a member, as
    [BundleLifecycleController] guarantees. *)
Definition one_owner (ls : BundleTransitionGroupLease) : bool :=
  match ls with
  | [] => false
  | l :: ls' =>
      str_truthy (lease_owner l) && forallb (fun m => String.eqb (lease_owner m) (lease_owner l)) ls'
  end.

Definition valid_op (op : StoreOp) : bool :=
  match op with
  | OpBegin _ _ o _ _ _ | OpBeginGroup _ o _ _ _ => str_truthy o
  | OpRenew l _ _ | OpFinish l _ _ _ _ => str_truthy (lease_owner l)
  | OpRenewGroup ls _ _ | OpFinishGroup ls _ _ _ _ => one_owner ls
  | OpRecord _ _ _ _ _ => true
  end.

Definition op_now (op : StoreOp) : time :=
  match op with
  | OpBegin _ _ _ now _ _ | OpBeginGroup _ _ now _ _ | OpRenew _ now _ | OpRenewGroup _ now _
  | OpRecord _ _ _ now _ | OpFinish _ _ now _ _ | OpFinishGroup _ _ now _ _ => now
  end.

Definition op_leases (op : StoreOp) : list BundleTransitionLease :=
  match op with
  | OpRenew l _ _ | OpFinish l _ _ _ _ => [l]
  | OpRenewGroup ls _ _ | OpFinishGroup ls _ _ _ _ => ls
  | _ => []
  end.

(** Two leases carry the same token for the same bundle. *)
Definition same_token (l m : BundleTransitionLease) : bool :=
  String.eqb (lease_bundle_name l) (lease_bundle_name m)
  && String.eqb (lease_owner l) (lease_owner m)
  && (lease_generation_fence l =? lease_generation_fence m)
  && (lease_transition_id l =? lease_transition_id m).

(** What one operation may do to one cell. *)
Inductive cell_step (op : StoreOp) (n : string) (c : Cell) : Cell -> Prop :=
  | step_same : cell_step op n c c
  | step_begin d o ttl :
      Spec.live c (op_now op) = false ->
      cell_step op n c
        (mkCell (c_fence c + 1) (c_transition c + 1) o (op_now op + ttl) RECOVERING d)
  | step_renew l ttl :
      l ∈ op_leases op -> lease_bundle_name l = n -> Spec.holds l (op_now op) c = true ->
      cell_step op n c (c ⟪ c_expires := op_now op + renewal_ttl ttl ⟫)
  | step_finish l p :
      l ∈ op_leases op -> lease_bundle_name l = n -> Spec.holds l (op_now op) c = true ->
      cell_step op n c (c ⟪ c_phase := p ⟫ ⟪ c_owner := "" ⟫ ⟪ c_expires := 0 ⟫)
  | step_record d r :
      Spec.live c (op_now op) = false ->
      cell_step op n c
        (c ⟪ c_transition := transition_id r ⟫ ⟪ c_phase := phase r ⟫ ⟪ c_desired := d ⟫).

Lemma holds_spec l now c :
  Spec.holds l now c = true <->
  c_owner c = lease_owner l /\ c_fence c = lease_generation_fence l /\
  c_transition c = lease_transition_id l /\ now < c_expires c.
Proof.
  unfold Spec.holds. rewrite !andb_true_iff, String.eqb_eq, !Z.eqb_eq, Z.ltb_lt. tauto.
Qed.

Lemma cell_step_fence op n c c' : cell_step op n c c' -> c_fence c <= c_fence c'.
Proof. destruct 1; simpl; lia. Qed.

Lemma one_owner_spec ls :
  one_owner ls = true ->
  ls <> [] /\ exists o, str_truthy o = true /\ Forall (fun l => lease_owner l = o) ls.
Proof.
  destruct ls as [|l ls]; [done|]. simpl. intros [Ho Hls]%andb_true_iff.
  split; [done|]. exists (lease_owner l). split; [done|]. constructor; [done|].
  apply forallb_true_Forall in Hls. eapply Forall_impl; [exact Hls|].
  intros m. apply String.eqb_eq.
Qed.

Lemma group_updated_step op (ls : BundleTransitionGroupLease) now f cs n :
  all_hold ls now cs = true -> op_leases op = ls -> op_now op = now ->
  (forall l, l ∈ ls -> lease_bundle_name l = n -> Spec.holds l now (cs n) = true ->
     cell_step op n (cs n) (f (cs n))) ->
  cell_step op n (cs n) (group_updated ls f cs n).
Proof.
  intros Hall Hls Hnow Hf. unfold group_updated. case_decide as Hin; [|constructor].
  apply list_elem_of_fmap in Hin as (l & Hn & Hl). apply Hf with l; [done|done|].
  apply forallb_true_Forall in Hall. rewrite Forall_forall in Hall. rewrite Hn. by apply Hall.
Qed.

Section FencedHistories.
Context {S : Type} `{HS : FencedStore S}.
Implicit Types (s : S) (op : StoreOp) (n : string).

Lemma stepped_cell o cs cs' k n (P : Cell -> Prop) :
  stepped o cs cs' k -> P (cs n) ->
  (forall c, o = Some c -> n = k -> P c) -> P (cs' n).
Proof.
  destruct o as [c|]; simpl; intros Hs Hsame Hc; rewrite Hs; [|done].
  case_decide; eauto.
Qed.

Lemma run_op_cells s op :
  store_wf s -> valid_op op = true ->
  store_wf (run_op s op) /\
  forall n, cell_step op n (cell_of s n) (cell_of (run_op s op) n).
Proof.
  intros Hwf Hv. destruct op as [k d o now ttl why|ts o now ttl why|l now ttl|ls now ttl
    |k d r now why|l ok now why e|ls ok now why e]; simpl in *.
  - pose proof (begin_refines s k d o now ttl why Hwf Hv) as H.
    destruct (store_begin _ _ _ _ _ _ _) as [att s']. destruct H as (Hwf' & Hs & _).
    split; [done|]. intros n. apply (stepped_cell _ _ _ _ n (cell_step _ n (cell_of s n)) Hs); [constructor|].
    intros c Hc ->. unfold Spec.begin in Hc. case_match eqn:Hl; simplify_eq. by constructor.
  - pose proof (begin_group_refines s ts o now ttl why Hwf Hv) as H.
    destruct (store_begin_group _ _ _ _ _ _) as [r s']. destruct H as (Hwf' & H).
    split; [done|]. intros n. simpl.
    destruct (_normalize_group_transitions ts) as [items|]; [|destruct H as [_ ->]; constructor].
    destruct (_ && _) eqn:Hall; destruct H as [_ ->]; [|constructor].
    apply andb_true_iff in Hall as [Hall _]. unfold group_begun.
    destruct (list_to_map items !! n) as [d|] eqn:Hn; [|constructor].
    apply elem_of_list_to_map_2 in Hn. apply forallb_true_Forall in Hall.
    rewrite Forall_forall in Hall. specialize (Hall _ Hn). apply negb_true_iff in Hall.
    by constructor.
  - pose proof (renew_refines s l now ttl Hwf Hv) as H.
    destruct (store_renew _ _ _ _) as [b s']. destruct H as (Hwf' & _ & Hs).
    split; [done|]. intros n. apply (stepped_cell _ _ _ _ n (cell_step _ n (cell_of s n)) Hs); [constructor|].
    intros c Hc ->. unfold Spec.renew in Hc. case_match; simplify_eq.
    eapply (step_renew (OpRenew l now ttl)); [|done..]. simpl. set_solver.
  - apply one_owner_spec in Hv as (Hne & o & Ho & Hls).
    pose proof (renew_group_refines s ls o now ttl Hwf Ho Hls) as H.
    destruct (store_renew_group _ _ _ _) as [b s']. destruct H as (Hwf' & Hb & Hs).
    split; [done|]. intros n. simpl. rewrite Hs. destruct b; [|constructor].
    symmetry in Hb. apply andb_true_iff in Hb as [Hb _].
    eapply (group_updated_step (OpRenewGroup ls now ttl)); [done..|].
    intros. eapply step_renew; eauto.
  - pose proof (record_recovery_refines s k d r now why Hwf) as H.
    destruct (store_record_recovery _ _ _ _ _ _) as [b s']. destruct H as (Hwf' & _ & Hs).
    split; [done|]. intros n. apply (stepped_cell _ _ _ _ n (cell_step _ n (cell_of s n)) Hs); [constructor|].
    intros c Hc ->. unfold Spec.record_recovery in Hc. case_match eqn:Hl; simplify_eq.
    by apply step_record.
  - pose proof (finish_refines s l ok now why e Hwf Hv) as H.
    destruct (store_finish _ _ _ _ _ _) as [b s']. destruct H as (Hwf' & _ & Hs).
    split; [done|]. intros n. apply (stepped_cell _ _ _ _ n (cell_step _ n (cell_of s n)) Hs); [constructor|].
    intros c Hc ->. unfold Spec.finish in Hc. case_match; simplify_eq.
    eapply (step_finish (OpFinish l ok now why e)); [|done..]. simpl. set_solver.
  - apply one_owner_spec in Hv as (Hne & o & Ho & Hls).
    pose proof (finish_group_refines s ls o ok now why e Hwf Ho Hne Hls) as H.
    destruct (store_finish_group _ _ _ _ _ _) as [b s']. destruct H as (Hwf' & Hb & Hs).
    split; [done|]. intros n. simpl. rewrite Hs. destruct b; [|constructor].
    eapply (group_updated_step (OpFinishGroup ls ok now why e)); [done..|].
    intros. eapply step_finish; eauto.
Qed.

Lemma run_ops_wf s ops :
  store_wf s -> Forall (fun op => valid_op op = true) ops -> store_wf (run_ops s ops).
Proof.
  intros Hwf H. revert s Hwf. induction H as [|op ops Hv _ IH]; intros s Hwf; [done|].
  simpl. apply IH. by apply run_op_cells.
Qed.

Lemma run_ops_fence s ops n :
  store_wf s -> Forall (fun op => valid_op op = true) ops ->
  c_fence (cell_of s n) <= c_fence (cell_of (run_ops s ops) n).
Proof.
  intros Hwf H. revert s Hwf. induction H as [|op ops Hv _ IH]; intros s Hwf; [simpl; lia|].
  destruct (run_op_cells s op Hwf Hv) as [Hwf' Hc].
  etrans; [eapply cell_step_fence, (Hc n)|]. by apply IH.
Qed.

(** A begin that acquires leaves the cell its lease describes. *)
Lemma begin_acquired s name d owner now ttl why att s' l :
  store_wf s -> str_truthy owner = true ->
  store_begin s name d owner now ttl why = (att, s') -> attempt_lease att = Some l ->
  store_wf s' /\ Spec.live (cell_of s name) now = false /\
  lease_generation_fence l = c_fence (cell_of s name) + 1 /\
  lease_bundle_name l = name /\ lease_owner l = owner /\ lease_expires_at l = now + ttl /\
  l = lease_of name (cell_of s' name).
Proof.
  intros Hwf Ho Hb Hl. pose proof (begin_refines s name d owner now ttl why Hwf Ho) as H.
  rewrite Hb in H. destruct H as (Hwf' & Hs & _ & Hlease). rewrite Hl in Hlease.
  unfold Spec.begin in *. destruct (Spec.live _ _) eqn:Hlive; [done|].
  simpl in *. injection Hlease as ->. rewrite Hs, decide_True by done. done.
Qed.

(** A lease whose fence is behind is refused and changes no cell. *)
Lemma behind_is_refused s l now ttl success why e :
  store_wf s -> str_truthy (lease_owner l) = true ->
  lease_generation_fence l < c_fence (cell_of s (lease_bundle_name l)) ->
  ((store_renew s l now ttl).1 = false /\
   forall n, cell_of (store_renew s l now ttl).2 n = cell_of s n) /\
  ((store_finish s l success now why e).1 = false /\
   forall n, cell_of (store_finish s l success now why e).2 n = cell_of s n).
Proof.
  intros Hwf Ho Hlt.
  assert (Spec.holds l now (cell_of s (lease_bundle_name l)) = false) as Hh.
  { apply not_true_is_false. rewrite holds_spec. lia. }
  split.
  - pose proof (renew_refines s l now ttl Hwf Ho) as H. unfold Spec.renew in H. rewrite Hh in H.
    destruct (store_renew s l now ttl). simpl. naive_solver.
  - pose proof (finish_refines s l success now why e Hwf Ho) as H.
    unfold Spec.finish in H. rewrite Hh in H.
    destruct (store_finish s l success now why e). simpl. naive_solver.
Qed.

(** Fencing: once a later begin on the same bundle was granted, an earlier
    lease is refused for ever, whatever valid operations ran in between. *)
Lemma fenced_out s0 name d1 o1 t1 ttl1 w1 att1 s1 l1 ops1 d2 o2 t2 ttl2 w2 att2 s2 ops2
    now ttl success why e :
  store_wf s0 -> str_truthy o1 = true -> str_truthy o2 = true ->
  store_begin s0 name d1 o1 t1 ttl1 w1 = (att1, s1) -> attempt_lease att1 = Some l1 ->
  Forall (fun op => valid_op op = true) (ops1 ++ ops2) ->
  store_begin (run_ops s1 ops1) name d2 o2 t2 ttl2 w2 = (att2, s2) -> acquired att2 = true ->
  let s := run_ops s2 ops2 in
  ((store_renew s l1 now ttl).1 = false /\
   forall n, cell_of (store_renew s l1 now ttl).2 n = cell_of s n) /\
  ((store_finish s l1 success now why e).1 = false /\
   forall n, cell_of (store_finish s l1 success now why e).2 n = cell_of s n).
Proof.
  intros Hwf0 Ho1 Ho2 Hb1 Hl1 [Hv1 Hv2]%Forall_app Hb2 Ha2. simpl.
  destruct (begin_acquired _ _ _ _ _ _ _ _ _ _ Hwf0 Ho1 Hb1 Hl1)
    as (Hwf1 & _ & _ & Hn1 & Hown & _ & Hle).
  pose proof (run_ops_wf _ _ Hwf1 Hv1) as Hwf1'.
  pose proof (begin_refines (run_ops s1 ops1) name d2 o2 t2 ttl2 w2 Hwf1' Ho2) as Hr.
  rewrite Hb2 in Hr. destruct Hr as (Hwf2 & Hs & Hacq & _).
  rewrite Ha2 in Hacq. symmetry in Hacq. apply bool_decide_eq_true in Hacq as [c Hc].
  rewrite Hc in Hs. simpl in Hs.
  assert (c_fence c = c_fence (cell_of (run_ops s1 ops1) name) + 1) as Hfc.
  { unfold Spec.begin in Hc. case_match; by simplify_eq. }
  apply behind_is_refused.
  - by apply run_ops_wf.
  - by rewrite Hown.
  - rewrite Hn1. pose proof (run_ops_fence s2 ops2 name Hwf2 Hv2) as Hm2.
    pose proof (run_ops_fence s1 ops1 name Hwf1 Hv1) as Hm1.
    rewrite (Hs name), decide_True in Hm2 by done. subst l1. simpl. lia.
Qed.

(** An operation that runs before the expiry of the token a cell holds, and
    does not carry that token, leaves the cell alone. *)
Lemma foreign_op_keeps_cell op l n c c' :
  str_truthy (lease_owner l) = true -> lease_bundle_name l = n ->
  Spec.holds l (op_now op) c = true ->
  Forall (fun m => same_token m l = false) (op_leases op) ->
  cell_step op n c c' -> c' = c.
Proof.
  intros Ho Hn Hh Htok Hst. apply holds_spec in Hh as (H1 & H2 & H3 & Hlt).
  assert (Spec.live c (op_now op) = true) as Hlive.
  { unfold Spec.live. rewrite H1, Ho. by apply Z.ltb_lt. }
  assert (forall m, m ∈ op_leases op -> lease_bundle_name m = n ->
    Spec.holds m (op_now op) c = true -> False) as Hno.
  { intros m Hm Hmn (G1 & G2 & G3 & _)%holds_spec. rewrite Forall_forall in Htok.
    specialize (Htok _ Hm). unfold same_token in Htok.
    rewrite Hmn, Hn, <- H1, <- G1, <- H2, <- G2, <- H3, <- G3 in Htok.
    by rewrite !String.eqb_refl, !Z.eqb_refl in Htok. }
  destruct Hst; try congruence; exfalso; eauto.
Qed.

(** Exclusion: while a granted lease is live, operations that do not carry
    its token leave the bundle's cell alone. *)
Lemma live_lease_excludes s name d owner now ttl why att s' l ops :
  store_wf s -> str_truthy owner = true ->
  store_begin s name d owner now ttl why = (att, s') -> attempt_lease att = Some l ->
  Forall (fun op => valid_op op = true /\ op_now op < lease_expires_at l /\
                    Forall (fun m => same_token m l = false) (op_leases op)) ops ->
  cell_of (run_ops s' ops) name = cell_of s' name.
Proof.
  intros Hwf Ho Hb Hl Hops.
  destruct (begin_acquired _ _ _ _ _ _ _ _ _ _ Hwf Ho Hb Hl)
    as (Hwf' & _ & _ & Hn & Hown & _ & Hle).
  set (c0 := cell_of s' name) in *. assert (cell_of s' name = c0) as Hc0 by done.
  clearbody c0. clear Hb Hwf. revert s' Hwf' Hc0.
  induction Hops as [|op ops (Hv & Hnow & Htok) _ IH]; intros s' Hwf' Hc0; [done|].
  simpl. destruct (run_op_cells s' op Hwf' Hv) as [Hwf'' Hst]. specialize (Hst name).
  apply IH; [done|]. rewrite Hc0 in Hst.
  eapply foreign_op_keeps_cell in Hst; [done| | | |exact Htok]; [congruence|done|].
  apply holds_spec. subst l. by simpl in *.
Qed.
End FencedHistories.
