(* ===== verification/LifecycleMemory.v ===== *)
(** * LifecycleMemory: the in-memory lifecycle store

    Models [InMemoryBundleLifecycleStore] of [scripts/bundle_lifecycle.py]: one
    function per method, on an explicit state.  Each method runs under the
    store's lock and so is one atomic step.  The store implements
    [FencedStore], and its resource leases are exclusive. *)

From S2P Require Import Prelude Recovery Lifecycle.

(** ** State *)

Record MemoryStore := mkMemoryStore {
  _records : gmap string BundleLifecycleRecord;
  _resource_leases : gmap string (string * Z * time);
  _resource_fence : Z }.

#[export] Instance MemoryStore_eta : Replaceable MemoryStore := fun s =>
  mkMemoryStore (_records s) (_resource_leases s) (_resource_fence s).

Definition empty_store : MemoryStore := mkMemoryStore ∅ ∅ 0.

Implicit Types (s : MemoryStore).

(** [self._records.get(name) or BundleLifecycleRecord(...)]: a record object is
    always true. *)
Definition current_record s (name : string) (t : time) : BundleLifecycleRecord :=
  default (new_record name t) (_records s !! name).

Definition put_record s (name : string) (r : BundleLifecycleRecord) : MemoryStore :=
  s ⟪ _records := <[name := r]> (_records s) ⟫.

(** [current.transition_owner and current.transition_expires_at > now] *)
Definition in_transition (r : BundleLifecycleRecord) (now : time) : bool :=
  opt_truthy (transition_owner r) && (now <? transition_expires_at r).

(** ** Resource leases *)

Definition set_leases (ids : list string) (v : string * Z * time)
    (m : gmap string (string * Z * time)) : gmap string (string * Z * time) :=
  fold_left (fun m r => <[r := v]> m) ids m.

Definition mem_acquire_resources s (resources : PyResources) (owner : string) (now ttl : time)
    : result ValueError (option ResourceLease) * MemoryStore :=
  match canonical_resource_ids resources with
  | Err e => (Err e, s)
  | Ok [] => (Ok None, s)
  | Ok normalized =>
      let expires_at := now + renewal_ttl ttl in
      if existsb (fun r => match _resource_leases s !! r with
                           | Some (_, _, e) => now <? e
                           | None => false end) normalized
      then (Ok None, s)
      else
        let fence := _resource_fence s + 1 in
        (Ok (Some (mkResourceLease normalized owner fence expires_at)),
         s ⟪ _resource_fence := fence ⟫
           ⟪ _resource_leases := set_leases normalized (owner, fence, expires_at)
                                   (_resource_leases s) ⟫)
  end.

Definition mem_renew_resources s (lease : ResourceLease) (now ttl : time)
    : result ValueError bool * MemoryStore :=
  match canonical_resource_ids (ResourceIterable (ResStr <$> resource_ids lease)) with
  | Err e => (Err e, s)
  | Ok normalized =>
      let expires_at := now + renewal_ttl ttl in
      if existsb (fun r => match _resource_leases s !! r with
                           | None => true
                           | Some (o, f, e) =>
                               negb (bool_decide ((o, f) = (resource_owner lease, resource_fence lease)))
                               || (e <=? now)
                           end) normalized
      then (Ok false, s)
      else
        (Ok true,
         s ⟪ _resource_leases := set_leases normalized
               (resource_owner lease, resource_fence lease, expires_at) (_resource_leases s) ⟫)
  end.

Definition mem_release_resources s (lease : ResourceLease)
    : result ValueError bool * MemoryStore :=
  match canonical_resource_ids (ResourceIterable (ResStr <$> resource_ids lease)) with
  | Err e => (Err e, s)
  | Ok normalized =>
      if existsb (fun r => match _resource_leases s !! r with
                           | None => true
                           | Some (o, f, _) =>
                               negb (bool_decide ((o, f) = (resource_owner lease, resource_fence lease)))
                           end) normalized
      then (Ok false, s)
      else
        (Ok true,
         s ⟪ _resource_leases := fold_left (fun m r => delete r m) normalized
                                   (_resource_leases s) ⟫)
  end.

(** ** Transitions *)

(** [get]; [clock] is what the store's clock returns. *)
Definition mem_get (clock : time) s (name : string) : BundleLifecycleRecord :=
  current_record s name clock.

(** The record [begin] and [begin_group] write. *)
Definition begun_record (current : BundleLifecycleRecord) (d : DesiredState) (owner : string)
    (now ttl : time) (reason : string) : BundleLifecycleRecord :=
  let next_recovery :=
    (recovery current) ⟪ phase := RECOVERING ⟫
      ⟪ transition_id := transition_id (recovery current) + 1 ⟫
      ⟪ last_restart_at := Some now ⟫ in
  current ⟪ desired_state := d ⟫ ⟪ recovery := next_recovery ⟫
    ⟪ generation_fence := generation_fence current + 1 ⟫
    ⟪ transition_owner := Some owner ⟫ ⟪ transition_expires_at := now + ttl ⟫
    ⟪ last_reason := reason ⟫ ⟪ last_error := None ⟫ ⟪ updated_at := now ⟫.

Definition record_lease (name owner : string) (r : BundleLifecycleRecord) : BundleTransitionLease :=
  mkBundleTransitionLease name owner (generation_fence r) (record_transition_id r)
    (transition_expires_at r).

Definition mem_begin s (name : string) (d : DesiredState) (owner : string) (now ttl : time)
    (reason : string) : TransitionAttempt * MemoryStore :=
  let current := current_record s name now in
  if in_transition current now then
    (mkTransitionAttempt false None "transition_in_progress" (Some current), s)
  else
    let next_record := begun_record current d owner now ttl reason in
    (mkTransitionAttempt true (Some (record_lease name owner next_record)) "acquired"
       (Some next_record),
     put_record s name next_record).

(** The loop of [begin_group] over the normalised transitions; [currents] are
    the records read before it. *)
Fixpoint begin_group_loop (currents : gmap string BundleLifecycleRecord)
    (items : list (string * DesiredState)) (owner : string) (now ttl : time) (reason : string)
    s (leases : BundleTransitionGroupLease) : BundleTransitionGroupLease * MemoryStore :=
  match items with
  | [] => (leases, s)
  | (name, d) :: items' =>
      let current := default (new_record name now) (currents !! name) in
      let next_record := begun_record current d owner now ttl reason in
      begin_group_loop currents items' owner now ttl reason (put_record s name next_record)
        (leases ++ [record_lease name owner next_record])
  end.

Definition mem_begin_group s (transitions : list (string * (DesiredState + string)))
    (owner : string) (now ttl : time) (reason : string)
    : result ValueError TransitionGroupAttempt * MemoryStore :=
  match _normalize_group_transitions transitions with
  | Err e => (Err e, s)
  | Ok [] => (Ok (mkTransitionGroupAttempt false None "empty_group"), s)
  | Ok items =>
      let current_records :=
        list_to_map ((fun i => (i.1, current_record s i.1 now)) <$> items) in
      if existsb (fun i => match current_records !! i.1 with
                           | Some r => in_transition r now
                           | None => false end) items
      then (Ok (mkTransitionGroupAttempt false None "transition_in_progress"), s)
      else
        let '(leases, s') := begin_group_loop current_records items owner now ttl reason s [] in
        (Ok (mkTransitionGroupAttempt true (Some leases) "acquired"), s')
  end.

(** The guard of [renew], [finish] and their group forms: the record is absent
    or does not carry the token, or the lease has expired. *)
Definition lease_rejected (current : option BundleLifecycleRecord) (l : BundleTransitionLease)
    (now : time) : bool :=
  match current with
  | None => true
  | Some c =>
      negb (bool_decide (transition_owner c = Some (lease_owner l)))
      || negb (generation_fence c =? lease_generation_fence l)
      || negb (record_transition_id c =? lease_transition_id l)
      || (transition_expires_at c <=? now)
  end.

Definition renewed_record (expires_at now : time) (c : BundleLifecycleRecord)
    : BundleLifecycleRecord :=
  c ⟪ transition_expires_at := expires_at ⟫ ⟪ updated_at := now ⟫.

Definition mem_renew s (lease : BundleTransitionLease) (now ttl : time) : bool * MemoryStore :=
  let expires_at := now + renewal_ttl ttl in
  let current := _records s !! lease_bundle_name lease in
  if lease_rejected current lease now then (false, s)
  else
    match current with
    | Some c => (true, put_record s (lease_bundle_name lease) (renewed_record expires_at now c))
    | None => (false, s)
    end.

(** [for current in current_records: self._records[current.bundle_name] = f(current)] *)
Definition rewrite_records (f : BundleLifecycleRecord -> BundleLifecycleRecord)
    (currents : list (option BundleLifecycleRecord)) s : MemoryStore :=
  fold_left (fun s c => match c with
                        | Some c => put_record s (bundle_name c) (f c)
                        | None => s end) currents s.

Definition group_rejected (currents : list (option BundleLifecycleRecord))
    (ls : BundleTransitionGroupLease) (now : time) : bool :=
  existsb (fun p => lease_rejected p.1 p.2 now) (combine currents ls).

Definition mem_renew_group s (lease : BundleTransitionGroupLease) (now ttl : time)
    : bool * MemoryStore :=
  if bool_decide (lease = []) then (false, s)
  else
    let expires_at := now + renewal_ttl ttl in
    let current_records := (fun l => _records s !! lease_bundle_name l) <$> lease in
    if group_rejected current_records lease now then (false, s)
    else (true, rewrite_records (renewed_record expires_at now) current_records s).

Definition mem_record_recovery s (name : string) (d : DesiredState) (r : RecoveryState)
    (now : time) (reason : string) : bool * MemoryStore :=
  let current := current_record s name now in
  if in_transition current now then (false, s)
  else
    (true, put_record s name
       (current ⟪ desired_state := d ⟫ ⟪ recovery := r ⟫ ⟪ last_reason := reason ⟫
          ⟪ updated_at := now ⟫)).

(** The record [finish] and [finish_group] write; [failure] is the default
    error text. *)
Definition finished_record (success : bool) (now : time) (reason : string)
    (error : option string) (failure : string) (current : BundleLifecycleRecord)
    : BundleLifecycleRecord :=
  let healthy := if success then Some now else last_healthy_at (recovery current) in
  let rec := (recovery current) ⟪ phase := if success then READY else CRASHED ⟫
               ⟪ last_healthy_at := healthy ⟫ in
  current ⟪ recovery := rec ⟫ ⟪ transition_owner := None ⟫ ⟪ transition_expires_at := 0 ⟫
    ⟪ last_reason := py_or reason (last_reason current) ⟫
    ⟪ last_error := if success then None
                    else Some (if opt_truthy error then default "" error else failure) ⟫
    ⟪ updated_at := now ⟫.

Definition mem_finish s (lease : BundleTransitionLease) (success : bool) (now : time)
    (reason : string) (error : option string) : bool * MemoryStore :=
  match _records s !! lease_bundle_name lease with
  | None => (false, s)
  | Some current =>
      if negb (bool_decide (transition_owner current = Some (lease_owner lease))) then (false, s)
      else if transition_expires_at current <=? now then (false, s)
      else if negb (generation_fence current =? lease_generation_fence lease)
              || negb (record_transition_id current =? lease_transition_id lease)
      then (false, s)
      else
        (true, put_record s (lease_bundle_name lease)
           (finished_record success now reason error "bundle transition failed" current))
  end.

Definition mem_finish_group s (lease : BundleTransitionGroupLease) (success : bool) (now : time)
    (reason : string) (error : option string) : bool * MemoryStore :=
  let current_records := (fun l => _records s !! lease_bundle_name l) <$> lease in
  if group_rejected current_records lease now then (false, s)
  else (true, rewrite_records
                (finished_record success now reason error "bundle transition group failed")
                current_records s).

#[export] Instance MemoryStore_store : LifecycleStore MemoryStore := {|
  store_get := mem_get;
  store_begin := mem_begin;
  store_begin_group := mem_begin_group;
  store_renew := mem_renew;
  store_renew_group := mem_renew_group;
  store_record_recovery := mem_record_recovery;
  store_finish := mem_finish;
  store_finish_group := mem_finish_group;
  store_acquire_resources := mem_acquire_resources;
  store_renew_resources := mem_renew_resources;
  store_release_resources := mem_release_resources |}.

(** ** Refinement *)

Definition record_cell (r : BundleLifecycleRecord) : Cell :=
  mkCell (generation_fence r) (record_transition_id r) (default "" (transition_owner r))
    (transition_expires_at r) (phase (recovery r)) (desired_state r).

Definition mem_cell s (name : string) : Cell :=
  record_cell (current_record s name 0).

(** Every record is stored under its own name. *)
Definition mem_wf s : Prop :=
  forall n r, _records s !! n = Some r -> bundle_name r = n.

Lemma mem_cell_alt s n t : mem_cell s n = record_cell (current_record s n t).
Proof. unfold mem_cell, current_record. by destruct (_records s !! n). Qed.

Lemma current_record_name s n t : mem_wf s -> bundle_name (current_record s n t) = n.
Proof.
  intros Hwf. unfold current_record. destruct (_records s !! n) eqn:E; [|done]. by apply Hwf.
Qed.

Lemma in_transition_live r now : in_transition r now = Spec.live (record_cell r) now.
Proof.
  unfold in_transition, Spec.live, opt_truthy. simpl. by destruct (transition_owner r).
Qed.

Lemma put_record_wf s n r : mem_wf s -> bundle_name r = n -> mem_wf (put_record s n r).
Proof.
  intros Hwf Hr m r'. simpl. rewrite lookup_insert. case_decide as Hd; intros [= <-] || intros Hm.
  - congruence.
  - by apply Hwf.
Qed.

Lemma put_record_cell s n r m :
  mem_cell (put_record s n r) m = if decide (m = n) then record_cell r else mem_cell s m.
Proof.
  unfold mem_cell, current_record. simpl. rewrite lookup_insert.
  destruct (decide (n = m)), (decide (m = n)); by subst.
Qed.

Lemma begun_record_cell r d owner now ttl why :
  record_cell (begun_record r d owner now ttl why) =
  mkCell (generation_fence r + 1) (record_transition_id r + 1) owner (now + ttl) RECOVERING d.
Proof. reflexivity. Qed.

Lemma lease_rejected_holds s l now :
  str_truthy (lease_owner l) = true ->
  lease_rejected (_records s !! lease_bundle_name l) l now =
  negb (Spec.holds l now (mem_cell s (lease_bundle_name l))).
Proof.
  intros Ho. apply eq_true_iff_eq. rewrite negb_true_iff, <- not_true_iff_false, holds_spec.
  unfold mem_cell, current_record, lease_rejected.
  destruct (_records s !! lease_bundle_name l) as [r|]; simpl.
  - rewrite !orb_true_iff, !negb_true_iff, !Z.eqb_neq, bool_decide_eq_false, Z.leb_le.
    unfold str_truthy in Ho. apply negb_true_iff, String.eqb_neq in Ho.
    assert (transition_owner r = Some (lease_owner l) <->
            default "" (transition_owner r) = lease_owner l) as ->.
    { destruct (transition_owner r); naive_solver. }
    destruct (decide (default "" (transition_owner r) = lease_owner l)); intuition lia.
  - unfold str_truthy in Ho. apply negb_true_iff, String.eqb_neq in Ho. naive_solver.
Qed.

Lemma finished_record_cell success now why e failure r :
  record_cell (finished_record success now why e failure r) =
  Spec.released success (record_cell r).
Proof. reflexivity. Qed.

(** *** Group operations *)

Definition rewrite_cells (f : Cell -> Cell) (names : list string) (cs : string -> Cell)
    (n : string) : Cell :=
  if decide (n ∈ names) then f (cs n) else cs n.

(** Rewriting the records read before the loop gives each named bundle its
    rewritten record, even when a name is listed twice. *)
Lemma rewrite_records_spec f fc s ls s' :
  mem_wf s -> mem_wf s' ->
  (forall r, bundle_name (f r) = bundle_name r) ->
  (forall r, record_cell (f r) = fc (record_cell r)) ->
  Forall (fun l => is_Some (_records s !! lease_bundle_name l)) ls ->
  let s'' := rewrite_records f ((fun l => _records s !! lease_bundle_name l) <$> ls) s' in
  mem_wf s'' /\
  forall n, mem_cell s'' n =
    if decide (n ∈ lease_bundle_name <$> ls) then fc (mem_cell s n) else mem_cell s' n.
Proof.
  intros Hwf Hwf' Hname Hcell Hls. simpl. revert s' Hwf'.
  induction Hls as [|l ls [r Hr] _ IH]; intros s' Hwf'; csimpl.
  - done.
  - unfold rewrite_records in *. simpl. rewrite Hr.
    pose proof (Hwf _ _ Hr) as Hn.
    destruct (IH (put_record s' (bundle_name r) (f r))) as [IH1 IH2].
    { apply put_record_wf; [done|]. by rewrite Hname. }
    split; [done|]. intros n. rewrite IH2, put_record_cell, Hcell, Hn.
    destruct (decide (n = lease_bundle_name l)) as [->|Hne].
    + rewrite (decide_True (P := lease_bundle_name l ∈ lease_bundle_name l :: _)) by set_solver.
      case_decide; [done|]. unfold mem_cell, current_record. by rewrite Hr.
    + repeat case_decide; set_solver.
Qed.

Lemma group_rejected_all_hold s ls owner now :
  str_truthy owner = true -> Forall (fun l => lease_owner l = owner) ls ->
  group_rejected ((fun l => _records s !! lease_bundle_name l) <$> ls) ls now =
  negb (all_hold ls now (mem_cell s)).
Proof.
  intros Ho Hls. unfold group_rejected, all_hold.
  induction Hls as [|l ls Hl _ IH]; [done|]. csimpl.
  rewrite lease_rejected_holds, IH, negb_andb by by rewrite Hl. done.
Qed.

Lemma all_hold_some s ls owner now :
  str_truthy owner = true -> Forall (fun l => lease_owner l = owner) ls ->
  all_hold ls now (mem_cell s) = true ->
  Forall (fun l => is_Some (_records s !! lease_bundle_name l)) ls.
Proof.
  intros Ho Hls Hall. apply forallb_true_Forall in Hall. rewrite Forall_forall in *.
  intros l Hl. specialize (Hls _ Hl). specialize (Hall _ Hl).
  assert (lease_rejected (_records s !! lease_bundle_name l) l now = false) as Hr.
  { rewrite lease_rejected_holds, Hall by by rewrite Hls. done. }
  destruct (_records s !! lease_bundle_name l); [done|discriminate].
Qed.

(** *** Each method implements its specification *)

Lemma mem_put_stepped s n r o c :
  o = Some c -> record_cell r = c -> stepped o (mem_cell s) (mem_cell (put_record s n r)) n.
Proof. intros -> <-. simpl. intros m. apply put_record_cell. Qed.

Lemma mem_begin_refines s name d owner now ttl reason :
  mem_wf s -> str_truthy owner = true ->
  let '(att, s') := mem_begin s name d owner now ttl reason in
  let o := Spec.begin d owner now ttl (mem_cell s name) in
  mem_wf s' /\ stepped o (mem_cell s) (mem_cell s') name /\
  acquired att = bool_decide (is_Some o) /\ attempt_lease att = lease_of name <$> o.
Proof.
  intros Hwf Ho. unfold mem_begin, Spec.begin.
  rewrite in_transition_live, <- mem_cell_alt.
  destruct (Spec.live _ _) eqn:Hl; [done|]. split_and!; [|eapply mem_put_stepped|done|]; try done.
  - apply put_record_wf; [done|]. simpl. by apply current_record_name.
  - rewrite begun_record_cell. by rewrite (mem_cell_alt _ _ now).
  - rewrite (mem_cell_alt _ _ now). done.
Qed.

Lemma mem_renew_refines s l now ttl :
  mem_wf s -> str_truthy (lease_owner l) = true ->
  let '(ok, s') := mem_renew s l now ttl in
  let o := Spec.renew l now ttl (mem_cell s (lease_bundle_name l)) in
  mem_wf s' /\ ok = bool_decide (is_Some o) /\
  stepped o (mem_cell s) (mem_cell s') (lease_bundle_name l).
Proof.
  intros Hwf Ho. unfold mem_renew, Spec.renew. rewrite lease_rejected_holds by done.
  destruct (Spec.holds _ _ _) eqn:Hh; [|done]. simpl.
  destruct (_records s !! lease_bundle_name l) as [r|] eqn:Hr.
  - split_and!; [|done|].
    + apply put_record_wf; [done|]. exact (Hwf _ _ Hr).
    + intros m. rewrite put_record_cell. unfold mem_cell, current_record. by rewrite Hr.
  - pose proof (lease_rejected_holds s l now Ho) as H. by rewrite Hh, Hr in H.
Qed.

Lemma mem_finish_guard s l now r :
  str_truthy (lease_owner l) = true -> _records s !! lease_bundle_name l = Some r ->
  Spec.holds l now (mem_cell s (lease_bundle_name l)) =
  negb (negb (bool_decide (transition_owner r = Some (lease_owner l)))
        || (transition_expires_at r <=? now)
        || (negb (generation_fence r =? lease_generation_fence l)
            || negb (record_transition_id r =? lease_transition_id l))).
Proof.
  intros Ho Hr. pose proof (lease_rejected_holds s l now Ho) as H. rewrite Hr in H. simpl in H.
  rewrite <- (negb_involutive (Spec.holds _ _ _)), <- H. f_equal.
  destruct (bool_decide _), (_ <=? _), (generation_fence r =? _), (record_transition_id r =? _); done.
Qed.

Lemma mem_finish_refines s l success now reason e :
  mem_wf s -> str_truthy (lease_owner l) = true ->
  let '(ok, s') := mem_finish s l success now reason e in
  let o := Spec.finish l success now (mem_cell s (lease_bundle_name l)) in
  mem_wf s' /\ ok = bool_decide (is_Some o) /\
  stepped o (mem_cell s) (mem_cell s') (lease_bundle_name l).
Proof.
  intros Hwf Ho. unfold mem_finish, Spec.finish.
  destruct (_records s !! lease_bundle_name l) as [r|] eqn:Hr.
  - rewrite (mem_finish_guard s l now r) by done.
    destruct (bool_decide (transition_owner r = _)), (transition_expires_at r <=? now),
      (generation_fence r =? _), (record_transition_id r =? _); simpl; try done.
    split_and!; [|done|].
    + apply put_record_wf; [done|]. exact (Hwf _ _ Hr).
    + intros m. rewrite put_record_cell, finished_record_cell.
      unfold mem_cell, current_record. by rewrite Hr.
  - pose proof (lease_rejected_holds s l now Ho) as H. rewrite Hr in H. simpl in H.
    symmetry in H. apply negb_true_iff in H. by rewrite H.
Qed.

Lemma mem_record_recovery_refines s name d r now reason :
  mem_wf s ->
  let '(ok, s') := mem_record_recovery s name d r now reason in
  let o := Spec.record_recovery d r now (mem_cell s name) in
  mem_wf s' /\ ok = bool_decide (is_Some o) /\ stepped o (mem_cell s) (mem_cell s') name.
Proof.
  intros Hwf. unfold mem_record_recovery, Spec.record_recovery.
  rewrite in_transition_live, <- mem_cell_alt.
  destruct (Spec.live _ _) eqn:Hl; [done|]. split_and!; [|done|].
  - apply put_record_wf; [done|]. simpl. by apply current_record_name.
  - intros m. rewrite put_record_cell, (mem_cell_alt _ name now). done.
Qed.

Lemma mem_renew_group_refines s ls owner now ttl :
  mem_wf s -> str_truthy owner = true -> Forall (fun l => lease_owner l = owner) ls ->
  let '(ok, s') := mem_renew_group s ls now ttl in
  mem_wf s' /\
  ok = (all_hold ls now (mem_cell s) && negb (bool_decide (ls = []))) /\
  forall n, mem_cell s' n =
    if ok then group_updated ls (fun c => c ⟪ c_expires := now + renewal_ttl ttl ⟫) (mem_cell s) n
    else mem_cell s n.
Proof.
  intros Hwf Ho Hls. unfold mem_renew_group.
  destruct (decide (ls = [])) as [->|Hnil]; [done|]. rewrite !bool_decide_eq_false_2 by done.
  rewrite (group_rejected_all_hold s ls owner) by done.
  destruct (all_hold _ _ _) eqn:Hall; [|done]. simpl.
  eapply all_hold_some in Hall; [|done..].
  pose proof (rewrite_records_spec (renewed_record (now + renewal_ttl ttl) now)
    (fun c => c ⟪ c_expires := now + renewal_ttl ttl ⟫) s ls s Hwf Hwf
    (fun _ => eq_refl) (fun _ => eq_refl) Hall) as [H1 H2].
  split; [exact H1|]. split; [done|]. exact H2.
Qed.

Lemma mem_finish_group_refines s ls owner success now reason e :
  mem_wf s -> str_truthy owner = true -> ls <> [] ->
  Forall (fun l => lease_owner l = owner) ls ->
  let '(ok, s') := mem_finish_group s ls success now reason e in
  mem_wf s' /\ ok = all_hold ls now (mem_cell s) /\
  forall n, mem_cell s' n =
    if ok then group_updated ls (Spec.released success) (mem_cell s) n
    else mem_cell s n.
Proof.
  intros Hwf Ho _ Hls. unfold mem_finish_group.
  rewrite (group_rejected_all_hold s ls owner) by done.
  destruct (all_hold _ _ _) eqn:Hall; [|done]. simpl.
  eapply all_hold_some in Hall; [|done..].
  pose proof (rewrite_records_spec
    (finished_record success now reason e "bundle transition group failed")
    (Spec.released success) s ls s Hwf Hwf
    (fun _ => eq_refl) (fun _ => eq_refl) Hall) as [H1 H2].
  split; [exact H1|]. split; [done|]. exact H2.
Qed.

(** *** The group begin *)

Lemma list_to_map_currents s (items : list (string * DesiredState)) now n d :
  NoDup items.*1 -> (n, d) ∈ items ->
  (list_to_map ((fun i => (i.1, current_record s i.1 now)) <$> items)
    : gmap string BundleLifecycleRecord) !! n = Some (current_record s n now).
Proof.
  intros Hnd Hin. apply elem_of_list_to_map_1.
  - rewrite <- list_fmap_compose. done.
  - apply list_elem_of_fmap. by exists (n, d).
Qed.

(** The loop writes the begun record of each item and collects their leases. *)
Lemma begin_group_loop_spec currents items owner now ttl why s0 s leases :
  NoDup items.*1 -> mem_wf s0 -> mem_wf s ->
  (forall n d, (n, d) ∈ items -> currents !! n = Some (current_record s0 n now)) ->
  let '(ls, s') := begin_group_loop currents items owner now ttl why s leases in
  mem_wf s' /\
  ls = leases ++ ((fun i => lease_of i.1 (mem_cell s' i.1)) <$> items) /\
  forall n, mem_cell s' n =
    match (list_to_map items : gmap string DesiredState) !! n with
    | Some d => mkCell (c_fence (mem_cell s0 n) + 1) (c_transition (mem_cell s0 n) + 1) owner
                  (now + ttl) RECOVERING d
    | None => mem_cell s n
    end.
Proof.
  intros Hnd Hwf0. revert s leases. induction items as [|[n d] items IH]; intros s leases Hwf Hc.
  { simpl. rewrite app_nil_r. done. }
  apply NoDup_cons in Hnd as [Hn Hnd]. simpl. rewrite (Hc n d) by set_solver. simpl.
  set (r := begun_record _ _ _ _ _ _).
  assert (mem_wf (put_record s n r)) as Hwf1.
  { apply put_record_wf; [done|]. by apply current_record_name. }
  specialize (IH Hnd (put_record s n r) (leases ++ [record_lease n owner r]) Hwf1).
  destruct (begin_group_loop _ _ _ _ _ _ _ _) as [ls s'].
  destruct IH as (Hwf' & Hls & Hcells). { intros m e Hm. apply (Hc m e). set_solver. }
  assert (mem_cell s' n = record_cell r) as Hcn.
  { rewrite Hcells, not_elem_of_list_to_map_1 by done. by rewrite put_record_cell, decide_True. }
  split_and!; [done| |].
  - rewrite Hls, <- app_assoc. csimpl. by rewrite Hcn.
  - intros m. rewrite lookup_insert. case_decide as Hm.
    + subst m. rewrite Hcn. unfold r. rewrite begun_record_cell.
      unfold current_record. by destruct (_records s0 !! n).
    + rewrite Hcells. case_match; [done|]. rewrite put_record_cell, decide_False by done. done.
Qed.

Lemma mem_begin_group_refines s ts owner now ttl reason :
  mem_wf s -> str_truthy owner = true ->
  let '(r, s') := mem_begin_group s ts owner now ttl reason in
  mem_wf s' /\
  match _normalize_group_transitions ts with
  | Err e => r = Err e /\ forall n, mem_cell s' n = mem_cell s n
  | Ok items =>
      if forallb (fun i => negb (Spec.live (mem_cell s i.1) now)) items
         && negb (bool_decide (items = []))
      then (exists g, r = Ok g /\ group_acquired g = true /\
              group_lease g = Some ((fun i => lease_of i.1 (mem_cell s' i.1)) <$> items)) /\
           forall n, mem_cell s' n = group_begun items owner now ttl (mem_cell s) n
      else (exists g, r = Ok g /\ group_acquired g = false /\ group_lease g = None) /\
           forall n, mem_cell s' n = mem_cell s n
  end.
Proof.
  intros Hwf Ho. unfold mem_begin_group.
  destruct (_normalize_group_transitions ts) as [items|] eqn:Hts; [|done].
  apply normalize_items_NoDup in Hts as Hnd.
  destruct (decide (items = [])) as [->|Hne].
  { split; [done|]. split; [|done]. by eexists. }
  rewrite bool_decide_eq_false_2, andb_true_r by done.
  destruct items as [|i0 items0] eqn:Hi; [done|]. rewrite <- Hi in *. clear Hne Hi.
  set (currents := list_to_map _).
  assert (forall n d, (n, d) ∈ items -> currents !! n = Some (current_record s n now)) as Hcur.
  { intros n d. by apply list_to_map_currents. }
  assert (existsb (fun i => match currents !! i.1 with
                            | Some r => in_transition r now | None => false end) items =
          negb (forallb (fun i => negb (Spec.live (mem_cell s i.1) now)) items)) as ->.
  { clear Hnd Hts i0 items0. clearbody currents. induction items as [|[n d] items IH]; [done|]. simpl.
    rewrite (Hcur n d) by set_solver.
    rewrite negb_andb, negb_involutive, in_transition_live, <- mem_cell_alt.
    f_equal. apply IH. intros m e Hm. apply (Hcur m e). set_solver. }
  destruct (forallb _ items); simpl; [|split; [done|]; split; [by eexists|done]].
  pose proof (begin_group_loop_spec currents items owner now ttl reason s s [] Hnd Hwf Hwf Hcur)
    as H.
  destruct (begin_group_loop _ _ _ _ _ _ _ _) as [ls s']. destruct H as (Hwf' & Hls & Hcells).
  split; [done|]. split; [|done]. rewrite Hls. by eauto.
Qed.

#[export] Instance MemoryStore_fenced : FencedStore MemoryStore := {|
  cell_of := mem_cell;
  store_wf := mem_wf;
  begin_refines := mem_begin_refines;
  begin_group_refines := mem_begin_group_refines;
  renew_refines := mem_renew_refines;
  renew_group_refines := mem_renew_group_refines;
  record_recovery_refines := mem_record_recovery_refines;
  finish_refines := mem_finish_refines;
  finish_group_refines := mem_finish_group_refines |}.

Lemma empty_store_wf : mem_wf empty_store.
Proof. done. Qed.
#[export] Hint Resolve empty_store_wf : gpum.

(** ** Resource leases are exclusive *)

Inductive ResourceOp :=
  | ResAcquire (rs : PyResources) (owner : string) (now ttl : time)
  | ResRenew (l : ResourceLease) (now ttl : time)
  | ResRelease (l : ResourceLease).

Definition run_resource_op s (op : ResourceOp) : MemoryStore :=
  match op with
  | ResAcquire rs o now ttl => (mem_acquire_resources s rs o now ttl).2
  | ResRenew l now ttl => (mem_renew_resources s l now ttl).2
  | ResRelease l => (mem_release_resources s l).2
  end.

Definition run_resource_ops s (ops : list ResourceOp) : MemoryStore :=
  fold_left run_resource_op ops s.

(** The operation runs before [t] when it reads the time, and does not carry
    the token of [l]. *)
Definition foreign_resource_op (l : ResourceLease) (t : time) (op : ResourceOp) : bool :=
  match op with
  | ResAcquire _ _ now _ => now <? t
  | ResRenew m _ _ | ResRelease m =>
      negb (bool_decide ((resource_owner m, resource_fence m)
                         = (resource_owner l, resource_fence l)))
  end.

Lemma set_leases_lookup ids v m r :
  set_leases ids v m !! r = if decide (r ∈ ids) then Some v else m !! r.
Proof.
  unfold set_leases. revert m. induction ids as [|k ids IH]; intros m; simpl; [done|].
  rewrite IH, lookup_insert. repeat case_decide; set_solver.
Qed.

Lemma delete_leases_lookup (ids : list string) (m : gmap string (string * Z * time)) r :
  fold_left (fun m r => delete r m) ids m !! r = if decide (r ∈ ids) then None else m !! r.
Proof.
  revert m. induction ids as [|k ids IH]; intros m; simpl; [done|].
  rewrite IH, lookup_delete. repeat case_decide; set_solver.
Qed.

(** What each operation leaves at one resource. *)
Lemma acquire_resources_lookup s rs owner now ttl :
  let '(a, s') := mem_acquire_resources s rs owner now ttl in
  match a with
  | Ok (Some l) =>
      canonical_resource_ids rs = Ok (resource_ids l) /\ resource_ids l <> [] /\
      resource_owner l = owner /\ resource_fence l = _resource_fence s + 1 /\
      resource_expires_at l = now + renewal_ttl ttl /\
      _resource_fence s' = resource_fence l /\
      (forall r, r ∈ resource_ids l -> forall o f e, _resource_leases s !! r = Some (o, f, e) ->
                 e <= now) /\
      forall r, _resource_leases s' !! r =
        if decide (r ∈ resource_ids l)
        then Some (owner, resource_fence l, resource_expires_at l) else _resource_leases s !! r
  | _ => s' = s
  end.
Proof.
  unfold mem_acquire_resources. destruct (canonical_resource_ids rs) as [ids|]; [|done].
  destruct ids as [|i ids'] eqn:Hi; [done|]. rewrite <- Hi.
  destruct (existsb _ ids) eqn:Hex; [done|]. simpl.
  split_and!; try done; [by subst| |].
  - apply existsb_false_Forall in Hex. rewrite Forall_forall in Hex. intros r Hr o f e Hl.
    specialize (Hex _ Hr). rewrite Hl in Hex. by apply Z.ltb_ge in Hex.
  - intros r. apply set_leases_lookup.
Qed.

Lemma renew_resources_lookup s l now ttl r :
  let '(_, s') := mem_renew_resources s l now ttl in
  _resource_fence s' = _resource_fence s /\
  (_resource_leases s' !! r = _resource_leases s !! r \/
   exists e, _resource_leases s !! r = Some (resource_owner l, resource_fence l, e) /\
     _resource_leases s' !! r =
       Some (resource_owner l, resource_fence l, now + renewal_ttl ttl)).
Proof.
  unfold mem_renew_resources. destruct (canonical_resource_ids _) as [ids|]; [|by eauto].
  destruct (existsb _ ids) eqn:Hex; [by eauto|]. simpl. split; [done|].
  rewrite set_leases_lookup. case_decide as Hr; [right|by left].
  apply existsb_false_Forall in Hex. rewrite Forall_forall in Hex. specialize (Hex _ Hr).
  destruct (_resource_leases s !! r) as [[[o f] e]|]; [|done]. simpl in Hex. bool_prop.
  simplify_eq. eauto.
Qed.

Lemma release_resources_lookup s l r :
  let '(_, s') := mem_release_resources s l in
  _resource_fence s' = _resource_fence s /\
  (_resource_leases s' !! r = _resource_leases s !! r \/
   _resource_leases s' !! r = None /\
   exists e, _resource_leases s !! r = Some (resource_owner l, resource_fence l, e)).
Proof.
  unfold mem_release_resources. destruct (canonical_resource_ids _) as [ids|]; [|by eauto].
  destruct (existsb _ ids) eqn:Hex; [by eauto|]. simpl. split; [done|].
  rewrite delete_leases_lookup. case_decide as Hr; [right|by left].
  apply existsb_false_Forall in Hex. rewrite Forall_forall in Hex. specialize (Hex _ Hr).
  destruct (_resource_leases s !! r) as [[[o f] e]|]; [|done]. simpl in Hex. bool_prop.
  simplify_eq. eauto.
Qed.

(** One foreign operation leaves a live resource entry alone. *)
Lemma foreign_op_keeps_resource s op l t r :
  foreign_resource_op l t op = true ->
  _resource_leases s !! r = Some (resource_owner l, resource_fence l, t) ->
  _resource_leases (run_resource_op s op) !! r =
    Some (resource_owner l, resource_fence l, t).
Proof.
  intros Hop Hr. destruct op as [rs o now ttl|m now ttl|m]; simpl in *.
  - pose proof (acquire_resources_lookup s rs o now ttl) as H.
    destruct (mem_acquire_resources _ _ _ _ _) as [[[a|]|] s']; simpl; [|by subst..].
    destruct H as (_ & _ & _ & _ & _ & _ & Hexp & Hs'). rewrite Hs'. case_decide as Hin; [|done].
    apply Z.ltb_lt in Hop. specialize (Hexp _ Hin _ _ _ Hr). lia.
  - pose proof (renew_resources_lookup s m now ttl r) as H.
    destruct (mem_renew_resources _ _ _ _) as [? s']. simpl.
    destruct H as (_ & [->|(e & H1 & _)]); [done|]. simpl in *. bool_prop. congruence.
  - pose proof (release_resources_lookup s m r) as H.
    destruct (mem_release_resources _ _) as [? s']. simpl.
    destruct H as (_ & [->|(_ & e & H1)]); [done|]. simpl in *. bool_prop. congruence.
Qed.

(** Once a resource is fenced past [f], it stays so. *)
Definition resource_past (r : string) (f : Z) s : Prop :=
  f < _resource_fence s /\
  forall o g e, _resource_leases s !! r = Some (o, g, e) -> f < g.

Lemma resource_fence_step s op : _resource_fence s <= _resource_fence (run_resource_op s op).
Proof.
  destruct op as [rs o now ttl|m now ttl|m]; simpl.
  - pose proof (acquire_resources_lookup s rs o now ttl) as H.
    destruct (mem_acquire_resources _ _ _ _ _) as [[[a|]|] s']; simpl; [|by subst..].
    destruct H as (_ & _ & _ & H1 & _ & H2 & _). lia.
  - pose proof (renew_resources_lookup s m now ttl "") as H.
    destruct (mem_renew_resources _ _ _ _). simpl. lia.
  - pose proof (release_resources_lookup s m "") as H.
    destruct (mem_release_resources _ _). simpl. lia.
Qed.

Lemma resource_past_step s op r f :
  resource_past r f s -> resource_past r f (run_resource_op s op).
Proof.
  intros [Hf Hr]. split.
  { pose proof (resource_fence_step s op). lia. }
  destruct op as [rs o now ttl|m now ttl|m]; simpl.
  - pose proof (acquire_resources_lookup s rs o now ttl) as H.
    destruct (mem_acquire_resources _ _ _ _ _) as [[[a|]|] s']; simpl; [|by subst..].
    destruct H as (_ & _ & _ & H1 & _ & H2 & _ & H3). intros o' g e. rewrite H3.
    case_decide; [|apply Hr]. intros [= <- <- <-]. lia.
  - pose proof (renew_resources_lookup s m now ttl r) as H.
    destruct (mem_renew_resources _ _ _ _) as [? s']. simpl.
    destruct H as (_ & [->|(e & H1 & ->)]); [done|]. intros o' g e' [= <- <- <-]. eauto.
  - pose proof (release_resources_lookup s m r) as H.
    destruct (mem_release_resources _ _) as [? s']. simpl.
    destruct H as (_ & [->|(-> & _)]); done.
Qed.

Lemma resource_past_refused s l r :
  canonical_form (resource_ids l) -> r ∈ resource_ids l ->
  resource_past r (resource_fence l) s ->
  (forall now ttl, mem_renew_resources s l now ttl = (Ok false, s)) /\
  mem_release_resources s l = (Ok false, s).
Proof.
  intros Hform Hr [_ Hp]. unfold mem_renew_resources, mem_release_resources.
  rewrite canonical_resource_ids_fixed by done.
  split; [intros now ttl|]; destruct (existsb _ _) eqn:Hex; try done;
    apply existsb_false_Forall in Hex; rewrite Forall_forall in Hex; specialize (Hex _ Hr);
    destruct (_resource_leases s !! r) as [[[o f] e]|] eqn:Hl; try done; bool_prop;
    simplify_eq; specialize (Hp _ _ _ eq_refl); lia.
Qed.

(** ** Properties of the in-memory store *)

Definition all_valid (ops : list StoreOp) : Prop := Forall (fun op => valid_op op = true) ops.

Lemma mem_reachable_wf ops : all_valid ops -> mem_wf (run_ops empty_store ops).
Proof. exact (run_ops_wf (S := MemoryStore) empty_store ops empty_store_wf). Qed.

(** C1. Fencing in the in-memory store.  Take any store reached by valid
    operations and let a begin grant lease [l1] on a bundle.  Once any later
    begin on that bundle is granted, [l1] can never again renew or finish, and
    trying to changes no bundle's cell, whatever operations came in between or
    come after. *)
Theorem memory_fencing ops0 ops1 ops2 name d1 o1 t1 ttl1 w1 att1 s1 l1 d2 o2 t2 ttl2 w2 att2 s2
    now ttl success why e :
  all_valid ops0 -> all_valid (ops1 ++ ops2) -> str_truthy o1 = true -> str_truthy o2 = true ->
  mem_begin (run_ops empty_store ops0) name d1 o1 t1 ttl1 w1 = (att1, s1) ->
  attempt_lease att1 = Some l1 ->
  mem_begin (run_ops s1 ops1) name d2 o2 t2 ttl2 w2 = (att2, s2) -> acquired att2 = true ->
  let s := run_ops s2 ops2 in
  (mem_renew s l1 now ttl).1 = false /\ (mem_finish s l1 success now why e).1 = false /\
  forall n, mem_cell (mem_renew s l1 now ttl).2 n = mem_cell s n /\
            mem_cell (mem_finish s l1 success now why e).2 n = mem_cell s n.
Proof.
  intros H0 H12 Ho1 Ho2 Hb1 Hl1 Hb2 Ha2.
  assert (mem_wf (run_ops empty_store ops0)) as Hwf by by apply mem_reachable_wf.
  pose proof (fenced_out (S := MemoryStore) _ _ _ _ _ _ _ _ _ _ ops1 _ _ _ _ _ _ _ ops2
    now ttl success why e Hwf Ho1 Ho2 Hb1 Hl1 H12 Hb2 Ha2) as [[H1 H2] [H3 H4]].
  split_and!; [exact H1|exact H3|]. intros n. split; [apply H2|apply H4].
Qed.

Lemma memory_fencing_witness :
  let b1 := mem_begin empty_store "chat" RUNNING "w1" 0 (seconds 5) "up" in
  let b2 := mem_begin b1.2 "chat" RUNNING "w2" (seconds 9) (seconds 5) "up" in
  exists l1, attempt_lease b1.1 = Some l1 /\ acquired b2.1 = true /\
             (mem_renew b2.2 l1 (seconds 10) (seconds 5)).1 = false.
Proof.
  intros b1 b2. eexists. split; [reflexivity|]. split; [reflexivity|].
  refine (proj1 (memory_fencing [] [] [] "chat" RUNNING "w1" 0 (seconds 5) "up" b1.1 b1.2 _
    RUNNING "w2" (seconds 9) (seconds 5) "up" b2.1 b2.2 (seconds 10) (seconds 5) true "" None
    _ _ _ _ _ _ _ _)); first [constructor | reflexivity].
Defined.

(** Exclusion in the in-memory store.  While a granted lease has not
    expired, valid operations that do not carry its token (begins, group
    begins, recovery reports, and renewals or finishes of other leases) leave
    the bundle's cell as the grant left it. *)
Theorem memory_exclusion ops0 ops name d owner now ttl why att s' l :
  all_valid ops0 -> str_truthy owner = true ->
  mem_begin (run_ops empty_store ops0) name d owner now ttl why = (att, s') ->
  attempt_lease att = Some l ->
  Forall (fun op => valid_op op = true /\ op_now op < lease_expires_at l /\
                    Forall (fun m => same_token m l = false) (op_leases op)) ops ->
  mem_cell (run_ops s' ops) name =
    mkCell (lease_generation_fence l) (lease_transition_id l) owner (now + ttl) RECOVERING d.
Proof.
  intros H0 Ho Hb Hl Hops.
  assert (mem_wf (run_ops empty_store ops0)) as Hwf by by apply mem_reachable_wf.
  etrans; [exact (live_lease_excludes (S := MemoryStore) _ _ _ _ _ _ _ _ _ _ ops
    Hwf Ho Hb Hl Hops)|].
  pose proof (mem_begin_refines _ name d owner now ttl why Hwf Ho) as H.
  rewrite Hb in H. destruct H as (_ & Hs & _ & Hle). rewrite Hl in Hle. revert Hs Hle.
  unfold Spec.begin. destruct (Spec.live _ _); [done|]. simpl. intros Hs [= ->].
  change (mem_cell s' name = mkCell (c_fence (mem_cell (run_ops empty_store ops0) name) + 1)
    (c_transition (mem_cell (run_ops empty_store ops0) name) + 1) owner (now + ttl) RECOVERING d).
  by rewrite (Hs name), decide_True.
Qed.

Lemma memory_exclusion_witness :
  let b := mem_begin empty_store "chat" RUNNING "w1" 0 (seconds 5) "up" in
  let steal := OpBegin "chat" IDLE "w2" (seconds 4) (seconds 5) "steal" in
  exists l, attempt_lease b.1 = Some l /\
    mem_cell (run_ops b.2 [steal]) "chat"
      = mkCell (lease_generation_fence l) (lease_transition_id l) "w1" (0 + seconds 5)
          RECOVERING RUNNING.
Proof.
  intros b steal. eexists. split; [reflexivity|].
  refine (memory_exclusion [] [steal] "chat" RUNNING "w1" 0 (seconds 5) "up" b.1 b.2 _ _ _ _ _ _).
  - constructor.
  - reflexivity.
  - reflexivity.
  - reflexivity.
  - constructor; [|constructor]. split; [reflexivity|]. split; [reflexivity|constructor].
Defined.

(** A group begin is all or nothing.  When it is granted every member was
    free, each member's lease carries the next fence of its bundle, is held by
    the store and can be renewed until it expires, and no other bundle moves;
    when it is refused, or the transitions do not parse, the store is the one
    it started from. *)
Theorem memory_group_all_or_nothing ops0 ts owner now ttl why r s' :
  let s := run_ops empty_store ops0 in
  all_valid ops0 -> str_truthy owner = true ->
  mem_begin_group s ts owner now ttl why = (r, s') ->
  match r with
  | Err e => _normalize_group_transitions ts = Err e /\ s' = s
  | Ok g =>
      exists items, _normalize_group_transitions ts = Ok items /\
      if group_acquired g
      then exists ls, group_lease g = Some ls /\ lease_bundle_name <$> ls = items.*1 /\
             Forall (fun l => Spec.live (mem_cell s (lease_bundle_name l)) now = false /\
                              lease_generation_fence l
                                = c_fence (mem_cell s (lease_bundle_name l)) + 1) ls /\
             (forall t, t < now + ttl -> all_hold ls t (mem_cell s') = true) /\
             forall n, n ∉ items.*1 -> mem_cell s' n = mem_cell s n
      else s' = s /\ group_lease g = None /\
           (items = [] \/ exists i, i ∈ items /\ Spec.live (mem_cell s i.1) now = true)
  end.
Proof.
  intros s H0 Ho Hb. assert (mem_wf s) as Hwf by by apply mem_reachable_wf.
  pose proof (mem_begin_group_refines s ts owner now ttl why Hwf Ho) as H. rewrite Hb in H.
  destruct H as [_ H]. destruct (_normalize_group_transitions ts) as [items|x] eqn:Hts.
  2:{ destruct H as [-> _]. unfold mem_begin_group in Hb. rewrite Hts in Hb. by simplify_eq. }
  destruct (forallb _ items && _) eqn:Hall; destruct H as [(g & -> & Hg & Hls) Hc];
    exists items; rewrite Hg; (split; [done|]).
  - exists ((fun i => lease_of i.1 (mem_cell s' i.1)) <$> items).
    apply normalize_items_NoDup in Hts. apply andb_true_iff in Hall as [Hall _].
    apply forallb_true_Forall in Hall.
    assert (forall i, i ∈ items -> mem_cell s' i.1 = mkCell (c_fence (mem_cell s i.1) + 1)
      (c_transition (mem_cell s i.1) + 1) owner (now + ttl) RECOVERING i.2) as Hi.
    { intros [n d] Hin. rewrite Hc. unfold group_begun.
      by rewrite (elem_of_list_to_map_1 _ n d). }
    split_and!; [done|by rewrite <- list_fmap_compose| | |].
    + apply Forall_fmap, Forall_forall. intros i Hin. rewrite Forall_forall in Hall.
      split; [by apply negb_true_iff, Hall|]. exact (f_equal c_fence (Hi i Hin)).
    + intros t Ht. unfold all_hold. apply forallb_true_Forall, Forall_fmap, Forall_forall.
      intros i Hin. apply holds_spec. split_and!; [done..|].
      change (t < c_expires (mem_cell s' i.1)). by rewrite Hi.
    + intros n Hn. rewrite Hc. unfold group_begun. by rewrite not_elem_of_list_to_map_1.
  - split_and!; [|done|].
    + unfold mem_begin_group in Hb. rewrite Hts in Hb. destruct items; [by simplify_eq|].
      destruct (existsb _ _); [by simplify_eq|].
      destruct (begin_group_loop _ _ _ _ _ _ _ _). by simplify_eq.
    + apply andb_false_iff in Hall as [Hall|Hall]; [right|left].
      * apply not_true_iff_false in Hall. rewrite forallb_true_Forall in Hall.
        apply not_Forall_Exists, Exists_exists in Hall; [|solve_decision].
        destruct Hall as (i & Hin & Hi). exists i. split; [done|].
        by apply not_false_iff_true in Hi || (simpl in Hi; by destruct (Spec.live _ _)).
      * by bool_prop.
Qed.

Lemma memory_group_all_or_nothing_witness :
  let b := mem_begin_group (run_ops empty_store []) [("b", inl RUNNING); ("a", inr "idle")] "w1" 0
             (seconds 5) "up" in
  is_ok b.1 = true /\
  match b.1 with
  | Err _ => True
  | Ok g => exists items,
      _normalize_group_transitions [("b", inl RUNNING); ("a", inr "idle")] = Ok items /\
      group_acquired g = true
  end.
Proof.
  intros b. split; [vm_compute; reflexivity|].
  pose proof (memory_group_all_or_nothing [] [("b", inl RUNNING); ("a", inr "idle")] "w1" 0
    (seconds 5) "up" b.1 b.2 ltac:(constructor) eq_refl eq_refl) as H.
  destruct b.1 as [g|] eqn:Hb; [|exact I].
  destruct H as (items & Hi & _). exists items. split; [exact Hi|].
  vm_compute in Hb. injection Hb as <-. reflexivity.
Defined.

Lemma resource_entries_kept s ops l t r :
  Forall (fun op => foreign_resource_op l t op = true) ops ->
  _resource_leases s !! r = Some (resource_owner l, resource_fence l, t) ->
  _resource_leases (run_resource_ops s ops) !! r =
    Some (resource_owner l, resource_fence l, t).
Proof.
  intros H. revert s. induction H as [|op ops Hop _ IH]; intros s Hr; [done|].
  apply IH. by apply foreign_op_keeps_resource.
Qed.

Lemma resource_past_steps s ops r f :
  resource_past r f s -> resource_past r f (run_resource_ops s ops).
Proof.
  revert s. induction ops as [|op ops IH]; intros s H; [done|].
  by apply IH, resource_past_step.
Qed.

Lemma resource_fence_steps s ops :
  _resource_fence s <= _resource_fence (run_resource_ops s ops).
Proof.
  revert s. induction ops as [|op ops IH]; intros s; simpl; [lia|].
  etrans; [apply (resource_fence_step s op)|apply IH].
Qed.

(** Resource leases exclude each other.  While a granted lease has not
    expired, whatever foreign operations ran since, an acquisition that shares
    a resource with it is refused and changes nothing, and the lease itself
    can still be renewed and released. *)
Theorem resource_exclusion s ops rs o now ttl l s1 t :
  mem_acquire_resources s rs o now ttl = (Ok (Some l), s1) ->
  Forall (fun op => foreign_resource_op l (resource_expires_at l) op = true) ops ->
  t < resource_expires_at l ->
  let s2 := run_resource_ops s1 ops in
  (forall rs' ids o' ttl' r, canonical_resource_ids rs' = Ok ids -> r ∈ ids ->
     r ∈ resource_ids l -> mem_acquire_resources s2 rs' o' t ttl' = (Ok None, s2)) /\
  (forall ttl', (mem_renew_resources s2 l t ttl').1 = Ok true) /\
  (mem_release_resources s2 l).1 = Ok true.
Proof.
  intros Ha Hops Ht s2. pose proof (acquire_resources_lookup s rs o now ttl) as H.
  rewrite Ha in H. destruct H as (Hids & _ & Ho & _ & _ & _ & _ & H).
  assert (forall r, r ∈ resource_ids l -> _resource_leases s2 !! r =
    Some (resource_owner l, resource_fence l, resource_expires_at l)) as Hr.
  { intros r Hr. apply resource_entries_kept; [done|]. rewrite H, decide_True, Ho by done. done. }
  clearbody s2. split_and!.
  - intros rs' ids o' ttl' r Hc Hin Hl. unfold mem_acquire_resources. rewrite Hc.
    destruct ids as [|i ids'] eqn:Hi; [done|]. rewrite <- Hi.
    destruct (existsb _ ids) eqn:Hex; [done|].
    apply existsb_false_Forall in Hex. rewrite <- Hi, Forall_forall in *.
    specialize (Hex _ Hin). rewrite Hr in Hex by done. bool_prop. lia.
  - intros ttl'. unfold mem_renew_resources.
    rewrite canonical_resource_ids_fixed by by eapply canonical_resource_ids_form.
    destruct (existsb _ _) eqn:Hex; [|done]. apply existsb_exists in Hex as (r & Hin & Hx).
    rewrite Hr in Hx by by apply list_elem_of_In. rewrite bool_decide_eq_true_2 in Hx by done.
    simpl in Hx. bool_prop. lia.
  - unfold mem_release_resources.
    rewrite canonical_resource_ids_fixed by by eapply canonical_resource_ids_form.
    destruct (existsb _ _) eqn:Hex; [|done]. apply existsb_exists in Hex as (r & Hin & Hx).
    rewrite Hr in Hx by by apply list_elem_of_In. by rewrite bool_decide_eq_true_2 in Hx.
Qed.

Lemma resource_exclusion_witness :
  let a := mem_acquire_resources empty_store (OneResource (ResStr "gpu0")) "w1" 0 (seconds 5) in
  let steal := ResAcquire (OneResource (ResStr "gpu0")) "w2" (seconds 3) (seconds 5) in
  exists l, a.1 = Ok (Some l) /\
            (mem_release_resources (run_resource_ops a.2 [steal]) l).1 = Ok true.
Proof.
  intros a steal. eexists. split; [vm_compute; reflexivity|].
  refine (proj2 (proj2 (resource_exclusion empty_store [steal]
    (OneResource (ResStr "gpu0")) "w1" 0 (seconds 5) _ a.2 (seconds 3) _ _ _)));
    [vm_compute; reflexivity|constructor; [vm_compute; reflexivity|constructor]
    |vm_compute; reflexivity].
Defined.

(** A resource lease is fenced.  Once a later acquisition of one of its
    resources has been granted, a lease can never again be renewed or
    released, whatever operations run in between or after. *)
Theorem resource_fencing s ops1 ops2 rs1 o1 now1 ttl1 l1 s1 rs2 o2 now2 ttl2 l2 s2 r :
  mem_acquire_resources s rs1 o1 now1 ttl1 = (Ok (Some l1), s1) ->
  mem_acquire_resources (run_resource_ops s1 ops1) rs2 o2 now2 ttl2 = (Ok (Some l2), s2) ->
  r ∈ resource_ids l1 -> r ∈ resource_ids l2 ->
  let s3 := run_resource_ops s2 ops2 in
  resource_fence l1 < resource_fence l2 /\
  (forall now ttl, mem_renew_resources s3 l1 now ttl = (Ok false, s3)) /\
  mem_release_resources s3 l1 = (Ok false, s3).
Proof.
  intros H1 H2 Hr1 Hr2.
  pose proof (acquire_resources_lookup s rs1 o1 now1 ttl1) as G1. rewrite H1 in G1.
  destruct G1 as (Hids & _ & _ & _ & _ & Hf1 & _).
  pose proof (acquire_resources_lookup (run_resource_ops s1 ops1) rs2 o2 now2 ttl2) as G2.
  rewrite H2 in G2. destruct G2 as (_ & _ & _ & Hf2 & _ & Hf2' & _ & Hl2).
  pose proof (resource_fence_steps s1 ops1) as Hm. split; [lia|].
  apply resource_past_refused with r; [by eapply canonical_resource_ids_form|done|].
  apply resource_past_steps. split; [lia|]. intros o g e. rewrite Hl2, decide_True by done.
  intros [= <- <- <-]. lia.
Qed.

Lemma resource_fencing_witness :
  let a1 := mem_acquire_resources empty_store (OneResource (ResStr "gpu0")) "w1" 0 (seconds 5) in
  let a2 := mem_acquire_resources a1.2 (ResourceIterable [ResStr "gpu1"; ResStr " gpu0 "]) "w2"
              (seconds 6) (seconds 5) in
  exists l1 l2, a1.1 = Ok (Some l1) /\ a2.1 = Ok (Some l2) /\
                mem_release_resources a2.2 l1 = (Ok false, a2.2).
Proof.
  intros a1 a2. do 2 eexists. split; [vm_compute; reflexivity|].
  split; [vm_compute; reflexivity|].
  refine (proj2 (proj2 (resource_fencing empty_store [] [] (OneResource (ResStr "gpu0")) "w1" 0
    (seconds 5) _ a1.2 (ResourceIterable [ResStr "gpu1"; ResStr " gpu0 "]) "w2" (seconds 6)
    (seconds 5) _ a2.2 "gpu0" _ _ _ _)));
    [vm_compute; reflexivity|vm_compute; reflexivity|left|left].
Defined.
