(* ===== verification/LifecycleRedis.v ===== *)
(** * LifecycleRedis: the Redis lifecycle store

    Models [RedisBundleLifecycleStore] of [scripts/bundle_lifecycle.py]: its
    Lua scripts, one function each and each one atomic step, and the methods
    that call them, with the field codec of [BundleLifecycleRecord].  Redis
    itself and the text of numbers are parameters: [RedisOps] with the laws
    [RedisLaws], and [NumText] with [NumTextLaws].  The laws speak of keys that
    have not expired; numbers are those that doubles represent exactly. *)

From Stdlib Require Import Ascii DecimalString DecimalZ.
From S2P Require Import Prelude PyValue Recovery Lifecycle LifecycleMemory.

(** ** What the store relies on *)

(** Redis hashes and counters; [hincrby] is [None] when the field does not
    hold an integer. *)
Class RedisOps (R : Type) := {
  hgetall : R -> string -> gmap string string;
  hset : R -> string -> list (string * string) -> R;
  hincrby : R -> string -> string -> Z -> option (Z * R);
  incr : R -> string -> Z * R;
  expire : R -> string -> Z -> R;
  del : R -> string -> R }.

(** [repr(float)], [str(int)], and the readers: Lua's [tonumber] (in
    microseconds), Python's [float] and [int] on text. *)
Class NumText := {
  repr_float : time -> string;
  str_int : Z -> string;
  tonumber : string -> option time;
  py_float_of : string -> option time;
  py_int_of : string -> option Z }.

Class NumTextLaws `{NumText} := {
  tonumber_repr t : tonumber (repr_float t) = Some t;
  tonumber_int z : tonumber (str_int z) = Some (seconds z);
  float_of_repr t : py_float_of (repr_float t) = Some t;
  int_of_str_int z : py_int_of (str_int z) = Some z;
  repr_not_empty t : repr_float t <> "";
  int_not_empty z : str_int z <> "";
  zero_text : str_int 0 = "0";
  zero_float : py_float_of "0" = Some 0;
  minus_one_text : str_int (-1) = "-1" }.

Definition hset_fields (h : gmap string string) (fs : list (string * string)) : gmap string string :=
  fold_left (fun h f => <[f.1 := f.2]> h) fs h.

Class RedisLaws (R : Type) `{RedisOps R} `{NumText} := {
  hgetall_hset r k fs k' :
    hgetall (hset r k fs) k' = if decide (k' = k) then hset_fields (hgetall r k) fs else hgetall r k';
  hincrby_absent r k f n :
    hgetall r k !! f = None -> exists r', hincrby r k f n = Some (n, r') /\
    forall k', hgetall r' k' = if decide (k' = k) then <[f := str_int n]> (hgetall r k) else hgetall r k';
  hincrby_present r k f n z :
    hgetall r k !! f = Some (str_int z) -> exists r', hincrby r k f n = Some (z + n, r') /\
    forall k', hgetall r' k' =
      if decide (k' = k) then <[f := str_int (z + n)]> (hgetall r k) else hgetall r k';
  hgetall_expire r k ttl k' : 0 < ttl -> hgetall (expire r k ttl) k' = hgetall r k';
  hgetall_del r k k' : hgetall (del r k) k' = if decide (k' = k) then ∅ else hgetall r k' }.

(** ** Field codec *)

Definition RecoveryPhase_value (p : RecoveryPhase) : string :=
  match p with
  | DISABLED => "disabled" | INTENTIONALLY_OFF => "intentionally_off"
  | READY => "ready" | RECOVERING => "recovering" | CRASHED => "crashed" | FAULTED => "faulted"
  | MAINTENANCE => "maintenance" | BLOCKED => "blocked"
  end.

Definition all_phases : list RecoveryPhase :=
  [DISABLED; INTENTIONALLY_OFF; READY; RECOVERING; CRASHED; FAULTED; MAINTENANCE; BLOCKED].

(** [RecoveryPhase(s)] *)
Definition RecoveryPhase_of (s : string) : option RecoveryPhase :=
  List.find (fun p => String.eqb (RecoveryPhase_value p) s) all_phases.

Section Codec.
Context `{NumText}.

Definition opt_text (o : option string) : string := default "" o.
Definition opt_time_text (o : option time) : string :=
  match o with Some t => repr_float t | None => "" end.

Definition to_fields (r : BundleLifecycleRecord) : list (string * string) :=
  [("schema_version", "1"); ("bundle_name", bundle_name r);
   ("desired_state", DesiredState_value (desired_state r));
   ("phase", RecoveryPhase_value (phase (recovery r)));
   ("transition_id", str_int (transition_id (recovery r)));
   ("restart_attempts", str_int (restart_attempts (recovery r)));
   ("retry_window_started_at", opt_time_text (retry_window_started_at (recovery r)));
   ("last_restart_at", opt_time_text (last_restart_at (recovery r)));
   ("last_healthy_at", opt_time_text (last_healthy_at (recovery r)));
   ("generation_fence", str_int (generation_fence r));
   ("transition_owner", opt_text (transition_owner r));
   ("transition_expires_at", repr_float (transition_expires_at r));
   ("last_reason", last_reason r); ("last_error", opt_text (last_error r));
   ("updated_at", repr_float (updated_at r))].

Definition text (h : gmap string string) (name dflt : string) : string := default dflt (h !! name).

(** [int(text(name, "0") or 0)], [0] when that raises. *)
Definition integer (h : gmap string string) (name : string) : Z :=
  let s := text h name "0" in
  if str_truthy s then default 0 (py_int_of s) else 0.

Definition number_or_none (h : gmap string string) (name : string) : option time :=
  let s := text h name "" in
  if str_truthy s then py_float_of s else None.

(** [float(text(name, "0") or 0)], [0.0] when that raises. *)
Definition number (h : gmap string string) (name : string) : time :=
  let s := text h name "0" in
  if str_truthy s then default 0 (py_float_of s) else 0.

Definition or_none (s : string) : option string := if str_truthy s then Some s else None.

Definition from_fields (name : string) (h : gmap string string) : BundleLifecycleRecord :=
  mkBundleLifecycleRecord
    (text h "bundle_name" name)
    (default IDLE (DesiredState_of (text h "desired_state" "idle")))
    (mkRecoveryState
       (default INTENTIONALLY_OFF (RecoveryPhase_of (text h "phase" "intentionally_off")))
       (integer h "transition_id") (integer h "restart_attempts")
       (number_or_none h "retry_window_started_at") (number_or_none h "last_restart_at")
       (number_or_none h "last_healthy_at"))
    (integer h "generation_fence") (or_none (text h "transition_owner" ""))
    (number h "transition_expires_at") (text h "last_reason" "")
    (or_none (text h "last_error" "")) (number h "updated_at").
End Codec.

Section RedisStore.
Context {R : Type} `{RedisOps R} `{NumText}.
Context (prefix : string) (sha256_hex : string -> string).
Implicit Types (r : R).

Definition _key (name : string) : string := (prefix +:+ name).
Definition _resource_key (id : string) : string :=
  (prefix +:+ "resource-fence:" +:+ sha256_hex id).
Definition _resource_fence_key : string := (prefix +:+ "resource-fence:counter").

(** [redis.call('HGET', key, field)] *)
Definition hget r (key field : string) : option string := hgetall r key !! field.

(** [max(1, int(ttl_seconds) + 1)] *)
Definition key_ttl (ttl : time) : Z := Z.max 1 (int_seconds ttl + 1).

(** ** Lua scripts *)

(** A script yields [None] when Lua raises (comparing [nil] with a number, or
    [HINCRBY] of a field that is not an integer). *)
Definition lua_gt (a b : option time) : option bool :=
  match a, b with Some x, Some y => Some (y <? x) | _, _ => None end.

(** [owner ~= '' and expires > now] *)
Definition lua_busy r (key : string) (now : option time) : option bool :=
  if str_truthy (default "" (hget r key "transition_owner"))
  then lua_gt (tonumber (default "0" (hget r key "transition_expires_at"))) now
  else Some false.

(** The negation of [owner ~= ARGV or fence ~= ... or transition ~= ... or
    expires <= now]. *)
Definition lua_holds r (key owner fence transition : string) (now : option time) : option bool :=
  if negb (String.eqb (default "" (hget r key "transition_owner")) owner) then Some false
  else if negb (bool_decide (tonumber (default "-1" (hget r key "generation_fence"))
                             = tonumber fence)) then Some false
  else if negb (bool_decide (tonumber (default "-1" (hget r key "transition_id"))
                             = tonumber transition)) then Some false
  else lua_gt (tonumber (default "0" (hget r key "transition_expires_at"))) now.

(** One bundle's part of [_BEGIN_SCRIPT] and [_BEGIN_GROUP_SCRIPT]. *)
Definition lua_take r (key owner now name desired expires reason : string) (ttl : Z)
    : option (Z * Z * R) :=
  '(fence, r1) ← hincrby r key "generation_fence" 1;
  '(transition, r2) ← hincrby r1 key "transition_id" 1;
  Some (fence, transition,
        expire (hset r2 key
          [("schema_version", "1"); ("bundle_name", name); ("desired_state", desired);
           ("phase", "recovering"); ("transition_owner", owner);
           ("transition_expires_at", expires); ("last_reason", reason); ("last_error", "");
           ("updated_at", now)]) key ttl).

Definition _BEGIN_SCRIPT r (key owner now name desired expires reason : string) (ttl : Z)
    : option (option (Z * Z) * R) :=
  busy ← lua_busy r key (tonumber now);
  if busy : bool then Some (None, r)
  else
    '(fence, transition, r') ← lua_take r key owner now name desired expires reason ttl;
    Some (Some (fence, transition), r').

(** The first loop of a group script: stop at the first key that fails. *)
Fixpoint lua_none_busy r (keys : list string) (now : option time) : option bool :=
  match keys with
  | [] => Some true
  | key :: keys' =>
      busy ← lua_busy r key now;
      if busy : bool then Some false else lua_none_busy r keys' now
  end.

Fixpoint lua_take_all r (items : list (string * string * string)) (owner now expires reason : string)
    (ttl : Z) : option (list (Z * Z) * R) :=
  match items with
  | [] => Some ([], r)
  | (key, name, desired) :: items' =>
      '(fence, transition, r1) ← lua_take r key owner now name desired expires reason ttl;
      '(rest, r2) ← lua_take_all r1 items' owner now expires reason ttl;
      Some ((fence, transition) :: rest, r2)
  end.

Definition _BEGIN_GROUP_SCRIPT r (items : list (string * string * string))
    (owner now reason expires : string) (ttl : Z) : option (option (list (Z * Z)) * R) :=
  free ← lua_none_busy r ((fun i => i.1.1) <$> items) (tonumber now);
  if free : bool then
    '(tokens, r') ← lua_take_all r items owner now expires reason ttl;
    Some (Some tokens, r')
  else Some (None, r).

Definition lua_renew r (key expires now : string) (ttl : Z) : R :=
  expire (hset r key [("transition_expires_at", expires); ("updated_at", now)]) key ttl.

Definition _RENEW_SCRIPT r (key owner fence transition expires now : string) (ttl : Z)
    : option (bool * R) :=
  ok ← lua_holds r key owner fence transition (tonumber now);
  if ok : bool then Some (true, lua_renew r key expires now ttl) else Some (false, r).

(** A member of a group script: its key, fence and transition. *)
Fixpoint lua_all_hold r (items : list (string * string * string)) (owner : string)
    (now : option time) : option bool :=
  match items with
  | [] => Some true
  | (key, fence, transition) :: items' =>
      ok ← lua_holds r key owner fence transition now;
      if ok : bool then lua_all_hold r items' owner now else Some false
  end.

Definition _RENEW_GROUP_SCRIPT r (items : list (string * string * string))
    (owner expires now : string) (ttl : Z) : option (bool * R) :=
  ok ← lua_all_hold r items owner (tonumber now);
  if ok : bool
  then Some (true, fold_left (fun r i => lua_renew r i.1.1 expires now ttl) items r)
  else Some (false, r).

Definition lua_finish r (key phase reason error now : string) (ttl : Z) : R :=
  let r1 := hset r key
    [("phase", phase); ("transition_owner", ""); ("transition_expires_at", "0");
     ("last_reason", reason); ("last_error", error); ("updated_at", now)] in
  let r2 :=
    if String.eqb phase "ready" then
      hset (hset r1 key [("last_healthy_at", now); ("last_restart_at", "")]) key
        [("restart_attempts", "0"); ("retry_window_started_at", "")]
    else r1 in
  expire r2 key ttl.

Definition _FINISH_SCRIPT r (key owner fence transition phase reason error now : string) (ttl : Z)
    : option (bool * R) :=
  ok ← lua_holds r key owner fence transition (tonumber now);
  if ok : bool then Some (true, lua_finish r key phase reason error now ttl) else Some (false, r).

Definition _FINISH_GROUP_SCRIPT r (items : list (string * string * string))
    (owner phase reason error now : string) (ttl : Z) : option (bool * R) :=
  ok ← lua_all_hold r items owner (tonumber now);
  if ok : bool
  then Some (true, fold_left (fun r i => lua_finish r i.1.1 phase reason error now ttl) items r)
  else Some (false, r).

Definition _RECORD_RECOVERY_SCRIPT r (key name desired phase transition attempts window restart
    healthy reason now : string) (ttl : Z) : option (bool * R) :=
  busy ← lua_busy r key (tonumber now);
  if busy : bool then Some (false, r)
  else Some (true, expire (hset r key
    [("schema_version", "1"); ("bundle_name", name); ("desired_state", desired); ("phase", phase);
     ("transition_id", transition); ("restart_attempts", attempts);
     ("retry_window_started_at", window); ("last_restart_at", restart);
     ("last_healthy_at", healthy); ("last_reason", reason); ("updated_at", now)]) key ttl).

(** ** Resource scripts *)

(** [math.ceil(expires - now) + 1], at least 1. *)
Definition lua_resource_ttl (expires now : time) : Z :=
  Z.max 1 (- Z.div (now - expires) 1000000 + 1).

Fixpoint lua_resources_free r (keys : list string) (now : time) : option bool :=
  match keys with
  | [] => Some true
  | key :: keys' =>
      busy ← (if str_truthy (default "" (hget r key "owner"))
              then lua_gt (tonumber (default "0" (hget r key "expires_at"))) (Some now)
              else Some false);
      if busy : bool then Some false else lua_resources_free r keys' now
  end.

Definition _ACQUIRE_RESOURCES_SCRIPT r (keys : list string) (fence_key owner : string)
    (now expires : time) : option (option Z * R) :=
  free ← lua_resources_free r keys now;
  if free : bool then
    let '(fence, r1) := incr r fence_key in
    Some (Some fence,
      fold_left (fun r key =>
        expire (hset r key [("owner", owner); ("fence", str_int fence);
                            ("expires_at", repr_float expires)]) key
          (lua_resource_ttl expires now)) keys r1)
  else Some (None, r).

(** [current_owner ~= owner or current_fence ~= fence], fences as text. *)
Definition lua_resource_matches r (key owner fence : string) : bool :=
  String.eqb (default "" (hget r key "owner")) owner
  && String.eqb (default "" (hget r key "fence")) fence.

Fixpoint lua_resources_held r (keys : list string) (owner fence : string) (now : time)
    : option bool :=
  match keys with
  | [] => Some true
  | key :: keys' =>
      if lua_resource_matches r key owner fence then
        e ← tonumber (default "0" (hget r key "expires_at"));
        if e <=? now then Some false else lua_resources_held r keys' owner fence now
      else Some false
  end.

Definition _RENEW_RESOURCES_SCRIPT r (keys : list string) (owner fence : string)
    (now expires : time) : option (bool * R) :=
  held ← lua_resources_held r keys owner fence now;
  if held : bool then
    Some (true, fold_left (fun r key =>
      expire (hset r key [("expires_at", repr_float expires)]) key
        (lua_resource_ttl expires now)) keys r)
  else Some (false, r).

Definition _RELEASE_RESOURCES_SCRIPT r (keys : list string) (owner fence : string) : bool * R :=
  if forallb (fun key => lua_resource_matches r key owner fence) keys
  then (true, fold_left del keys r)
  else (false, r).

(** ** Methods *)

(** [None] throughout: the script raised, so the method does. *)
Definition redis_get r (name : string) : BundleLifecycleRecord :=
  from_fields name (hgetall r (_key name)).

(** [begin]; no other actor runs between the script and the read that
    follows it. *)
Definition redis_begin r (name : string) (d : DesiredState) (owner : string) (now ttl : time)
    (reason : string) : option (TransitionAttempt * R) :=
  '(raw, r') ← _BEGIN_SCRIPT r (_key name) owner (repr_float now) name (DesiredState_value d)
                 (repr_float (now + ttl)) (str_take 500 reason) (key_ttl ttl);
  let record := redis_get r' name in
  match raw with
  | None => Some (mkTransitionAttempt false None "transition_in_progress" (Some record), r')
  | Some (fence, transition) =>
      Some (mkTransitionAttempt true
              (Some (mkBundleTransitionLease name owner fence transition
                       (transition_expires_at record))) "acquired" (Some record), r')
  end.

Definition redis_begin_group r (ts : list (string * (DesiredState + string))) (owner : string)
    (now ttl : time) (reason : string)
    : option (result ValueError TransitionGroupAttempt * R) :=
  match _normalize_group_transitions ts with
  | Err e => Some (Err e, r)
  | Ok [] => Some (Ok (mkTransitionGroupAttempt false None "empty_group"), r)
  | Ok items =>
      '(raw, r') ← _BEGIN_GROUP_SCRIPT r
                     ((fun i => (_key i.1, i.1, DesiredState_value i.2)) <$> items)
                     owner (repr_float now) (str_take 500 reason) (repr_float (now + ttl))
                     (key_ttl ttl);
      match raw with
      | None => Some (Ok (mkTransitionGroupAttempt false None "transition_in_progress"), r')
      | Some tokens =>
          Some (Ok (mkTransitionGroupAttempt true
            (Some (zip_with (fun i t => mkBundleTransitionLease i.1 owner t.1 t.2 (now + ttl))
                     items tokens)) "acquired"), r')
      end
  end.

Definition redis_renew r (lease : BundleTransitionLease) (now ttl : time) : option (bool * R) :=
  _RENEW_SCRIPT r (_key (lease_bundle_name lease)) (lease_owner lease)
    (str_int (lease_generation_fence lease)) (str_int (lease_transition_id lease))
    (repr_float (now + renewal_ttl ttl)) (repr_float now) (key_ttl ttl).

Definition member_args (l : BundleTransitionLease) : string * string * string :=
  (_key (lease_bundle_name l), str_int (lease_generation_fence l), str_int (lease_transition_id l)).

(** [lease.leases[0].owner] *)
Definition first_owner (ls : BundleTransitionGroupLease) : string :=
  match ls with [] => "" | l :: _ => lease_owner l end.

Definition redis_renew_group r (ls : BundleTransitionGroupLease) (now ttl : time)
    : option (bool * R) :=
  match ls with
  | [] => Some (false, r)
  | _ => _RENEW_GROUP_SCRIPT r (member_args <$> ls) (first_owner ls)
           (repr_float (now + renewal_ttl ttl)) (repr_float now) (key_ttl ttl)
  end.

Definition redis_record_recovery r (name : string) (d : DesiredState) (recovery : RecoveryState)
    (now : time) (reason : string) : option (bool * R) :=
  _RECORD_RECOVERY_SCRIPT r (_key name) name (DesiredState_value d)
    (RecoveryPhase_value (phase recovery)) (str_int (transition_id recovery))
    (str_int (restart_attempts recovery)) (opt_time_text (retry_window_started_at recovery))
    (opt_time_text (last_restart_at recovery)) (opt_time_text (last_healthy_at recovery))
    (str_take 500 reason) (repr_float now) 3600.

Definition finish_phase (success : bool) : string :=
  RecoveryPhase_value (if success then READY else CRASHED).

Definition redis_finish r (lease : BundleTransitionLease) (success : bool) (now : time)
    (reason : string) (error : option string) : option (bool * R) :=
  _FINISH_SCRIPT r (_key (lease_bundle_name lease)) (lease_owner lease)
    (str_int (lease_generation_fence lease)) (str_int (lease_transition_id lease))
    (finish_phase success) (str_take 500 reason) (str_take 1000 (default "" error))
    (repr_float now) 3600.

Definition redis_finish_group r (ls : BundleTransitionGroupLease) (success : bool) (now : time)
    (reason : string) (error : option string) : option (bool * R) :=
  match ls with
  | [] => Some (false, r)
  | _ => _FINISH_GROUP_SCRIPT r (member_args <$> ls) (first_owner ls) (finish_phase success)
           (str_take 500 reason) (str_take 1000 (default "" error)) (repr_float now) 3600
  end.

Definition redis_acquire_resources r (resources : PyResources) (owner : string) (now ttl : time)
    : option (result ValueError (option ResourceLease) * R) :=
  match canonical_resource_ids resources with
  | Err e => Some (Err e, r)
  | Ok [] => Some (Ok None, r)
  | Ok ids =>
      let expires := now + renewal_ttl ttl in
      match _ACQUIRE_RESOURCES_SCRIPT r (_resource_key <$> ids) _resource_fence_key owner
              now expires with
      | None => None
      | Some (None, r') => Some (Ok None, r')
      | Some (Some fence, r') => Some (Ok (Some (mkResourceLease ids owner fence expires)), r')
      end
  end.

Definition redis_renew_resources r (lease : ResourceLease) (now ttl : time)
    : option (result ValueError bool * R) :=
  match canonical_resource_ids (ResourceIterable (ResStr <$> resource_ids lease)) with
  | Err e => Some (Err e, r)
  | Ok [] => Some (Ok false, r)
  | Ok ids =>
      match _RENEW_RESOURCES_SCRIPT r (_resource_key <$> ids) (resource_owner lease)
              (str_int (resource_fence lease)) now (now + renewal_ttl ttl) with
      | None => None
      | Some (ok, r') => Some (Ok ok, r')
      end
  end.

Definition redis_release_resources r (lease : ResourceLease) : result ValueError bool * R :=
  match canonical_resource_ids (ResourceIterable (ResStr <$> resource_ids lease)) with
  | Err e => (Err e, r)
  | Ok [] => (Ok false, r)
  | Ok ids =>
      let '(ok, r') := _RELEASE_RESOURCES_SCRIPT r (_resource_key <$> ids) (resource_owner lease)
                         (str_int (resource_fence lease)) in
      (Ok ok, r')
  end.

(** Seen through [LifecycleStore], a script that raises refuses and changes
    nothing; [redis_never_raises] shows that none does. *)
Definition or_refused {A} (refused : A) r (o : option (A * R)) : A * R := default (refused, r) o.

Definition redis_store : LifecycleStore R := {|
  store_get _ r name := redis_get r name;
  store_begin r name d owner now ttl reason :=
    or_refused (mkTransitionAttempt false None "" None) r (redis_begin r name d owner now ttl reason);
  store_begin_group r ts owner now ttl reason :=
    or_refused (Ok (mkTransitionGroupAttempt false None "")) r
      (redis_begin_group r ts owner now ttl reason);
  store_renew r l now ttl := or_refused false r (redis_renew r l now ttl);
  store_renew_group r ls now ttl := or_refused false r (redis_renew_group r ls now ttl);
  store_record_recovery r name d rec now reason :=
    or_refused false r (redis_record_recovery r name d rec now reason);
  store_finish r l ok now reason e := or_refused false r (redis_finish r l ok now reason e);
  store_finish_group r ls ok now reason e :=
    or_refused false r (redis_finish_group r ls ok now reason e);
  store_acquire_resources r rs owner now ttl :=
    or_refused (Ok None) r (redis_acquire_resources r rs owner now ttl);
  store_renew_resources r l now ttl := or_refused (Ok false) r (redis_renew_resources r l now ttl);
  store_release_resources r l := redis_release_resources r l |}.
End RedisStore.

(** ** Hashes the store writes *)

Lemma hset_fields_lookup h fs f :
  hset_fields h fs !! f = match dict_get (rev fs) f with Some v => Some v | None => h !! f end.
Proof.
  unfold hset_fields. revert h. induction fs as [|[g v] fs IH]; intros h; simpl; [done|].
  rewrite IH.
  assert (forall l : list (string * string), dict_get (l ++ [(g, v)]) f =
    match dict_get l f with Some w => Some w | None => if String.eqb g f then Some v else None end)
    as ->.
  { intros l. induction l as [|[g' v'] l IHl]; simpl; [done|]. by destruct (String.eqb g' f). }
  destruct (dict_get (rev fs) f); [done|]. rewrite lookup_insert.
  destruct (String.eqb_spec g f); case_decide; congruence.
Qed.

Section HashFacts.
Context `{NumTextLaws}.
Implicit Types (h : gmap string string).

Definition int_field_is h (f : string) (z : Z) : Prop :=
  h !! f = Some (str_int z) \/ (h !! f = None /\ z = 0).

Definition time_field_is h (f : string) (t : time) : Prop :=
  (exists s, h !! f = Some s /\ s <> "" /\ tonumber s = Some t /\ py_float_of s = Some t) \/
  (h !! f = None /\ t = 0).

Definition hash_owner h : string := default "" (h !! "transition_owner").

(** The numeric fields hold numbers, and an owned bundle has all of them. *)
Record hash_ok h : Prop := {
  ok_fence : exists z, int_field_is h "generation_fence" z;
  ok_transition : exists z, int_field_is h "transition_id" z;
  ok_expires : exists t, time_field_is h "transition_expires_at" t;
  ok_owner : str_truthy (hash_owner h) = true ->
    is_Some (h !! "generation_fence") /\ is_Some (h !! "transition_id") /\
    is_Some (h !! "transition_expires_at") }.

Definition hash_cell h : Cell := record_cell (from_fields "" h).

Lemma str_truthy_ne s : s <> "" -> str_truthy s = true.
Proof. intros Hs. unfold str_truthy. by destruct (String.eqb_spec s ""). Qed.

Lemma integer_is h f z : int_field_is h f z -> integer h f = z.
Proof.
  unfold integer, text. intros [->|[-> ->]]; simpl.
  - rewrite str_truthy_ne by apply int_not_empty. by rewrite int_of_str_int.
  - rewrite <- zero_text. by rewrite int_of_str_int.
Qed.

Lemma number_is h f t : time_field_is h f t -> number h f = t.
Proof.
  unfold number, text. intros [(s & -> & Hs & _ & Hf)|[-> ->]]; simpl.
  - rewrite str_truthy_ne by done. by rewrite Hf.
  - by rewrite zero_float.
Qed.

Lemma or_none_text s : default "" (or_none s) = s.
Proof. unfold or_none, str_truthy. by destruct (String.eqb_spec s ""). Qed.

Lemma time_text t h f : h !! f = Some (repr_float t) -> time_field_is h f t.
Proof.
  intros Hf. left. exists (repr_float t). split_and!; [done|apply repr_not_empty|
    apply tonumber_repr|apply float_of_repr].
Qed.

(** The cell of a well-formed hash, field by field. *)
Lemma hash_cell_is h f t e :
  int_field_is h "generation_fence" f -> int_field_is h "transition_id" t ->
  time_field_is h "transition_expires_at" e ->
  hash_cell h = mkCell f t (hash_owner h) e
    (default INTENTIONALLY_OFF (RecoveryPhase_of (text h "phase" "intentionally_off")))
    (default IDLE (DesiredState_of (text h "desired_state" "idle"))).
Proof.
  intros Hf Ht He. unfold hash_cell, record_cell, record_transition_id, from_fields. simpl.
  by rewrite (integer_is _ _ _ Hf), (integer_is _ _ _ Ht), (number_is _ _ _ He), or_none_text.
Qed.

Lemma hash_ok_fields h :
  hash_ok h -> exists f t e, int_field_is h "generation_fence" f /\ int_field_is h "transition_id" t /\
    time_field_is h "transition_expires_at" e.
Proof. intros [[f Hf] [t Ht] [e He] _]. eauto 10. Qed.

Lemma phase_round p : RecoveryPhase_of (RecoveryPhase_value p) = Some p.
Proof. by destruct p. Qed.

Lemma desired_round d : DesiredState_of (DesiredState_value d) = Some d.
Proof. by destruct d. Qed.

Lemma seconds_inj a b : seconds a = seconds b -> a = b.
Proof. unfold seconds. lia. Qed.
End HashFacts.

Section Scripts.
Context {R : Type} `{HL : RedisLaws R} `{HN : !NumTextLaws}.
Implicit Types (r : R).

Lemma lua_busy_live r key now :
  hash_ok (hgetall r key) ->
  lua_busy r key (tonumber (repr_float now)) = Some (Spec.live (hash_cell (hgetall r key)) now).
Proof.
  intros Hok. destruct (hash_ok_fields _ Hok) as (f & t & e & Hf & Ht & He).
  rewrite (hash_cell_is _ f t e Hf Ht He). unfold lua_busy, Spec.live, hget, hash_owner. simpl.
  destruct (str_truthy (default "" (hgetall r key !! "transition_owner"))) eqn:Ho; [|done].
  destruct (ok_owner _ Hok Ho) as (_ & _ & [s Hs]).
  destruct He as [(s' & Hs' & _ & Hn & _)|[Hs' _]]; rewrite Hs' in *; [|done]. simpl.
  by rewrite Hn, tonumber_repr.
Qed.

Lemma lua_holds_spec r key l now :
  hash_ok (hgetall r key) -> str_truthy (lease_owner l) = true ->
  lua_holds r key (lease_owner l) (str_int (lease_generation_fence l))
    (str_int (lease_transition_id l)) (tonumber (repr_float now))
  = Some (Spec.holds l now (hash_cell (hgetall r key))).
Proof.
  intros Hok Hlo. destruct (hash_ok_fields _ Hok) as (f & t & e & Hf & Ht & He).
  rewrite (hash_cell_is _ f t e Hf Ht He). unfold lua_holds, Spec.holds, hget. simpl.
  fold (hash_owner (hgetall r key)).
  destruct (String.eqb_spec (hash_owner (hgetall r key)) (lease_owner l)) as [Heq|]; [|done].
  rewrite <- Heq in Hlo. destruct (ok_owner _ Hok Hlo) as ([sf Hsf] & [st Hst] & [se Hse]).
  destruct Hf as [Hf|[Hf _]]; rewrite Hf in *; [|done].
  destruct Ht as [Ht|[Ht _]]; rewrite Ht in *; [|done].
  destruct He as [(s' & Hs' & _ & Hn & _)|[Hs' _]]; rewrite Hs' in *; [|done]. simpl.
  rewrite !tonumber_int, Hn, tonumber_repr.
  assert (forall a b, bool_decide (Some (seconds a) = Some (seconds b)) = (a =? b)) as Hsec.
  { intros a b. destruct (Z.eqb_spec a b) as [->|Hne]; [by apply bool_decide_eq_true_2|].
    apply bool_decide_eq_false_2. by intros [= ?%seconds_inj]. }
  rewrite !Hsec. by destruct (f =? _), (t =? _).
Qed.

(** [r'] is [r] with the hash at [key] replaced. *)
Definition rewrites r r' (key : string) (h : gmap string string) : Prop :=
  forall k, hgetall r' k = if decide (k = key) then h else hgetall r k.

Lemma rewrites_expire r r' key h ttl : 0 < ttl -> rewrites r r' key h -> rewrites r (expire r' key ttl) key h.
Proof. intros Ht Hr k. rewrite hgetall_expire by done. apply Hr. Qed.

Lemma rewrites_hset r r' key h fs :
  rewrites r r' key h -> rewrites r (hset r' key fs) key (hset_fields h fs).
Proof.
  intros Hr k. rewrite hgetall_hset. case_decide as Hk.
  - rewrite Hr, decide_True by done. done.
  - rewrite Hr, decide_False by done. done.
Qed.

Lemma rewrites_refl r key : rewrites r r key (hgetall r key).
Proof. intros k. case_decide; by subst. Qed.

Lemma hincr_field r r0 key h f z :
  rewrites r0 r key h -> int_field_is h f z ->
  exists r', hincrby r key f 1 = Some (z + 1, r') /\ rewrites r0 r' key (<[f := str_int (z + 1)]> h).
Proof.
  intros Hr Hf. assert (hgetall r key = h) as Hh by by rewrite (Hr key), decide_True.
  assert (exists r', hincrby r key f 1 = Some (z + 1, r') /\
    forall k, hgetall r' k = if decide (k = key) then <[f := str_int (z + 1)]> h else hgetall r k)
    as (r' & Hi & Hk).
  { rewrite <- Hh. destruct Hf as [Hf|[Hf ->]]; rewrite <- Hh in Hf.
    - by apply hincrby_present.
    - by apply hincrby_absent. }
  exists r'. split; [done|]. intros k. rewrite Hk. case_decide; [done|]. rewrite Hr.
  by rewrite decide_False.
Qed.

Lemma key_ttl_pos ttl : 0 < key_ttl ttl.
Proof. unfold key_ttl. lia. Qed.

Lemma lua_take_spec r key owner now ttl name d reason :
  hash_ok (hgetall r key) ->
  let c := hash_cell (hgetall r key) in
  exists r' h, lua_take r key owner (repr_float now) name (DesiredState_value d)
                 (repr_float (now + ttl)) reason (key_ttl ttl)
               = Some (c_fence c + 1, c_transition c + 1, r') /\
    rewrites r r' key h /\ hash_ok h /\
    hash_cell h = mkCell (c_fence c + 1) (c_transition c + 1) owner (now + ttl) RECOVERING d /\
    transition_expires_at (from_fields name h) = now + ttl.
Proof.
  intros Hok. destruct (hash_ok_fields _ Hok) as (f & t & e & Hf & Ht & He).
  rewrite (hash_cell_is _ f t e Hf Ht He). simpl. unfold lua_take.
  destruct (hincr_field r r key _ "generation_fence" f (rewrites_refl r key) Hf) as (r1 & -> & Hr1).
  simpl.
  destruct (hincr_field r1 r key _ "transition_id" t Hr1) as (r2 & -> & Hr2).
  { unfold int_field_is in *. by rewrite lookup_insert_ne. }
  simpl. do 2 eexists. split; [done|]. split.
  { apply rewrites_expire; [apply key_ttl_pos|]. apply rewrites_hset. exact Hr2. }
  set (h := hset_fields _ _).
  assert (int_field_is h "generation_fence" (f + 1)) as Hf'.
  { left. unfold h. rewrite hset_fields_lookup. simpl.
    by rewrite lookup_insert_ne, lookup_insert_eq. }
  assert (int_field_is h "transition_id" (t + 1)) as Ht'.
  { left. unfold h. rewrite hset_fields_lookup. simpl. by rewrite lookup_insert_eq. }
  assert (h !! "transition_expires_at" = Some (repr_float (now + ttl))) as He'.
  { unfold h. by rewrite hset_fields_lookup. }
  pose proof (time_text _ _ _ He') as He''.
  split_and!.
  - split; [eauto..|]. intros _. destruct Hf' as [Hf'|[_ ?]], Ht' as [Ht'|[_ ?]];
      rewrite ?Hf', ?Ht', He'; try done.
    all: unfold h; rewrite !hset_fields_lookup; simpl; rewrite ?lookup_insert_eq; eauto.
    all: rewrite ?lookup_insert_ne, ?lookup_insert_eq by done; eauto.
  - rewrite (hash_cell_is h (f + 1) (t + 1) (now + ttl)) by done.
    unfold hash_owner, text, h. rewrite !hset_fields_lookup. simpl. by rewrite desired_round.
  - simpl. by apply number_is.
Qed.

(** The other writes keep the fence, so the hash keeps its form. *)
Lemma lua_renew_spec r r0 key h e now ttl :
  rewrites r0 r key h -> hash_ok h -> str_truthy (hash_owner h) = true ->
  exists h', rewrites r0 (lua_renew r key (repr_float e) (repr_float now) (key_ttl ttl)) key h' /\
    hash_ok h' /\ hash_owner h' = hash_owner h /\
    hash_cell h' = (hash_cell h) ⟪ c_expires := e ⟫.
Proof.
  intros Hr Hok Ho. destruct (hash_ok_fields _ Hok) as (f & t & e0 & Hf & Ht & He).
  destruct (ok_owner _ Hok Ho) as (H1 & H2 & _).
  eexists. split. { apply rewrites_expire; [apply key_ttl_pos|]. apply rewrites_hset. exact Hr. }
  set (h' := hset_fields _ _).
  assert (forall g, g <> "transition_expires_at" -> g <> "updated_at" -> h' !! g = h !! g) as Hg.
  { intros g Hg1 Hg2. unfold h'. rewrite hset_fields_lookup. cbn [rev app dict_get].
    destruct (String.eqb_spec "updated_at" g); [congruence|].
    by destruct (String.eqb_spec "transition_expires_at" g); [congruence|]. }
  assert (h' !! "transition_expires_at" = Some (repr_float e)) as He'.
  { unfold h'. by rewrite hset_fields_lookup. }
  assert (int_field_is h' "generation_fence" f /\ int_field_is h' "transition_id" t) as [Hf' Ht'].
  { unfold int_field_is in *. by rewrite !Hg by done. }
  assert (hash_owner h' = hash_owner h) as Hown by (unfold hash_owner; by rewrite Hg by done).
  split_and!; [|done|].
  - split; [eauto..| |].
    + exists e. by apply time_text.
    + intros _. by rewrite He', !Hg by done.
  - rewrite (hash_cell_is h f t e0), (hash_cell_is h' f t e) by (done || by apply time_text).
    unfold text. by rewrite Hown, !Hg by done.
Qed.

Lemma lua_finish_spec r r0 key h success reason e now :
  rewrites r0 r key h -> hash_ok h ->
  exists h', rewrites r0 (lua_finish r key (finish_phase success) reason e (repr_float now) 3600)
               key h' /\
    hash_ok h' /\ hash_cell h' = Spec.released success (hash_cell h).
Proof.
  intros Hr Hok. destruct (hash_ok_fields _ Hok) as (f & t & e0 & Hf & Ht & He).
  assert (exists h', rewrites r0 (lua_finish r key (finish_phase success) reason e
      (repr_float now) 3600) key h' /\
    (forall g, g ∈ ["generation_fence"; "transition_id"; "desired_state"] -> h' !! g = h !! g) /\
    h' !! "phase" = Some (finish_phase success) /\ h' !! "transition_owner" = Some "" /\
    h' !! "transition_expires_at" = Some "0") as (h' & Hr' & Hg & Hp & Hown & Hx).
  { unfold lua_finish, finish_phase. destruct success; simpl; eexists.
    - split; [apply rewrites_expire; [lia|]; do 3 apply rewrites_hset; exact Hr|].
      split; [intros g Hg|]; rewrite !hset_fields_lookup; [|done].
      rewrite !elem_of_cons in Hg. destruct Hg as [->|[->|[->|Hg]]]; [done..|].
      by apply not_elem_of_nil in Hg.
    - split; [apply rewrites_expire; [lia|]; apply rewrites_hset; exact Hr|].
      split; [intros g Hg|]; rewrite !hset_fields_lookup; [|done].
      rewrite !elem_of_cons in Hg. destruct Hg as [->|[->|[->|Hg]]]; [done..|].
      by apply not_elem_of_nil in Hg. }
  exists h'. split; [done|].
  assert (int_field_is h' "generation_fence" f /\ int_field_is h' "transition_id" t) as [Hf' Ht'].
  { unfold int_field_is in *. by rewrite !Hg by set_solver. }
  assert (time_field_is h' "transition_expires_at" 0) as Hx'.
  { left. exists "0". split_and!; [done|done| |apply zero_float].
    rewrite <- zero_text, tonumber_int. done. }
  split.
  - split; [eauto..|]. unfold hash_owner. by rewrite Hown.
  - rewrite (hash_cell_is h f t e0), (hash_cell_is h' f t 0) by done.
    unfold hash_owner, text. rewrite Hown, Hp, Hg by set_solver. unfold finish_phase. simpl.
    rewrite phase_round. done.
Qed.

Lemma hset_record_spec r r0 key h name d rec reason now :
  rewrites r0 r key h -> hash_ok h ->
  let r' := expire (hset r key
    [("schema_version", "1"); ("bundle_name", name); ("desired_state", DesiredState_value d);
     ("phase", RecoveryPhase_value (phase rec)); ("transition_id", str_int (transition_id rec));
     ("restart_attempts", str_int (restart_attempts rec));
     ("retry_window_started_at", opt_time_text (retry_window_started_at rec));
     ("last_restart_at", opt_time_text (last_restart_at rec));
     ("last_healthy_at", opt_time_text (last_healthy_at rec)); ("last_reason", reason);
     ("updated_at", now)]) key 3600 in
  exists h', rewrites r0 r' key h' /\ hash_ok h' /\
    hash_cell h' = (hash_cell h) ⟪ c_transition := transition_id rec ⟫ ⟪ c_phase := phase rec ⟫
                     ⟪ c_desired := d ⟫.
Proof.
  intros Hr Hok. destruct (hash_ok_fields _ Hok) as (f & t & e0 & Hf & Ht & He).
  eexists. split. { apply rewrites_expire; [lia|]. apply rewrites_hset. exact Hr. }
  set (h' := hset_fields _ _).
  assert (forall g, g ∈ ["generation_fence"; "transition_owner"; "transition_expires_at"] ->
    h' !! g = h !! g) as Hg.
  { intros g Hg. unfold h'. rewrite hset_fields_lookup.
    rewrite !elem_of_cons in Hg. destruct Hg as [->|[->|[->|Hg]]]; [done..|].
    by apply not_elem_of_nil in Hg. }
  assert (int_field_is h' "generation_fence" f /\
          time_field_is h' "transition_expires_at" e0) as [Hf' He'].
  { unfold int_field_is, time_field_is in *. by rewrite !Hg by set_solver. }
  assert (h' !! "transition_id" = Some (str_int (transition_id rec))) as Htr.
  { unfold h'. by rewrite hset_fields_lookup. }
  assert (hash_owner h' = hash_owner h) as Hown by (unfold hash_owner; by rewrite Hg by set_solver).
  split.
  - split; [eauto|exists (transition_id rec); by left|eauto|]. rewrite Hown. intros Ho.
    destruct (ok_owner _ Hok Ho) as (? & _ & ?). rewrite Htr, !Hg by set_solver. done.
  - rewrite (hash_cell_is h f t e0), (hash_cell_is h' f (transition_id rec) e0) by (done || by left).
    rewrite Hown. unfold text, h'. rewrite !hset_fields_lookup. simpl.
    rewrite phase_round, desired_round. done.
Qed.
End Scripts.

(** ** The Redis store implements [FencedStore] *)

Section RedisRefinement.
Context {R : Type} `{HL : RedisLaws R} `{HN : !NumTextLaws}.
Context (prefix : string).
Implicit Types (r : R).

Definition redis_hash r (name : string) : gmap string string := hgetall r (_key prefix name).
Definition redis_cell r (name : string) : Cell := hash_cell (redis_hash r name).
Definition redis_wf r : Prop := forall name, hash_ok (redis_hash r name).

Lemma key_inj n m : _key prefix n = _key prefix m -> n = m.
Proof. unfold _key. apply (inj (String.append prefix)). Qed.

Lemma rewrites_cells r r' name h :
  redis_wf r -> rewrites r r' (_key prefix name) h -> hash_ok h ->
  redis_wf r' /\
  forall n, redis_hash r' n = if decide (n = name) then h else redis_hash r n.
Proof.
  intros Hwf Hr Hok.
  assert (forall n, redis_hash r' n = if decide (n = name) then h else redis_hash r n) as Hh.
  { intros n. unfold redis_hash. rewrite Hr.
    destruct (decide (n = name)) as [->|Hne]; [by rewrite decide_True|].
    rewrite decide_False; [done|]. by intros ?%key_inj. }
  split; [|done]. intros n. rewrite Hh. by case_decide.
Qed.

Lemma rewrites_stepped r r' name h :
  redis_wf r -> rewrites r r' (_key prefix name) h -> hash_ok h ->
  redis_wf r' /\ stepped (Some (hash_cell h)) (redis_cell r) (redis_cell r') name.
Proof.
  intros Hwf Hr Hok. destruct (rewrites_cells r r' name h Hwf Hr Hok) as [Hwf' Hh].
  split; [done|]. intros n. unfold redis_cell. rewrite Hh. by case_decide.
Qed.

Lemma redis_begin_refines r name d owner now ttl reason :
  redis_wf r -> str_truthy owner = true ->
  exists att r', redis_begin prefix r name d owner now ttl reason = Some (att, r') /\
  let o := Spec.begin d owner now ttl (redis_cell r name) in
  redis_wf r' /\ stepped o (redis_cell r) (redis_cell r') name /\
  acquired att = bool_decide (is_Some o) /\ attempt_lease att = lease_of name <$> o.
Proof.
  intros Hwf Ho. unfold redis_begin, _BEGIN_SCRIPT, Spec.begin.
  rewrite lua_busy_live by apply Hwf. fold (redis_hash r name). fold (redis_cell r name). simpl.
  destruct (Spec.live (redis_cell r name) now) eqn:Hl; simpl.
  { do 2 eexists. split; [done|]. done. }
  destruct (lua_take_spec r (_key prefix name) owner now ttl name d (str_take 500 reason) (Hwf name))
    as (r' & h & -> & Hr' & Hok & Hc & Hexp). cbn [mbind option_bind].
  destruct (rewrites_cells r r' name h Hwf Hr' Hok) as [Hwf' Hh].
  destruct (rewrites_stepped r r' name h Hwf Hr' Hok) as [_ Hst]. rewrite Hc in Hst.
  do 2 eexists. split; [done|]. split_and!; [done|exact Hst|done|].
  cbn [attempt_lease]. unfold redis_get. fold (redis_hash r' name).
  rewrite Hh, decide_True by done.
  change (number h "transition_expires_at") with (transition_expires_at (from_fields name h)).
  by rewrite Hexp.
Qed.

Lemma redis_renew_refines r l now ttl :
  redis_wf r -> str_truthy (lease_owner l) = true ->
  exists ok r', redis_renew prefix r l now ttl = Some (ok, r') /\
  let o := Spec.renew l now ttl (redis_cell r (lease_bundle_name l)) in
  redis_wf r' /\ ok = bool_decide (is_Some o) /\
  stepped o (redis_cell r) (redis_cell r') (lease_bundle_name l).
Proof.
  intros Hwf Ho. unfold redis_renew, _RENEW_SCRIPT, Spec.renew.
  rewrite lua_holds_spec by (done || apply Hwf). fold (redis_hash r (lease_bundle_name l)).
  fold (redis_cell r (lease_bundle_name l)). simpl.
  destruct (Spec.holds _ _ _) eqn:Hh; simpl; [|by do 2 eexists].
  assert (str_truthy (hash_owner (redis_hash r (lease_bundle_name l))) = true) as Hown.
  { apply holds_spec in Hh as (Hh & _). unfold redis_cell in Hh.
    destruct (hash_ok_fields _ (Hwf (lease_bundle_name l))) as (f & t & e & Hf & Ht & He).
    rewrite (hash_cell_is _ f t e) in Hh by done. simpl in Hh. by rewrite Hh. }
  destruct (lua_renew_spec r r (_key prefix (lease_bundle_name l)) _ (now + renewal_ttl ttl) now ttl
    (rewrites_refl r _) (Hwf (lease_bundle_name l)) Hown) as (h' & Hr' & Hok & _ & Hc).
  destruct (rewrites_stepped _ _ _ _ Hwf Hr' Hok) as [Hwf' Hst]. rewrite Hc in Hst.
  do 2 eexists. split; [done|]. done.
Qed.

Lemma redis_finish_refines r l success now reason e :
  redis_wf r -> str_truthy (lease_owner l) = true ->
  exists ok r', redis_finish prefix r l success now reason e = Some (ok, r') /\
  let o := Spec.finish l success now (redis_cell r (lease_bundle_name l)) in
  redis_wf r' /\ ok = bool_decide (is_Some o) /\
  stepped o (redis_cell r) (redis_cell r') (lease_bundle_name l).
Proof.
  intros Hwf Ho. unfold redis_finish, _FINISH_SCRIPT, Spec.finish.
  rewrite lua_holds_spec by (done || apply Hwf). fold (redis_hash r (lease_bundle_name l)).
  fold (redis_cell r (lease_bundle_name l)). simpl.
  destruct (Spec.holds _ _ _) eqn:Hh; simpl; [|by do 2 eexists].
  destruct (lua_finish_spec r r (_key prefix (lease_bundle_name l)) _ success (str_take 500 reason)
    (str_take 1000 (default "" e)) now (rewrites_refl r _) (Hwf (lease_bundle_name l)))
    as (h' & Hr' & Hok & Hc).
  destruct (rewrites_stepped _ _ _ _ Hwf Hr' Hok) as [Hwf' Hst]. rewrite Hc in Hst.
  do 2 eexists. split; [done|]. done.
Qed.

Lemma redis_record_refines r name d rec now reason :
  redis_wf r ->
  exists ok r', redis_record_recovery prefix r name d rec now reason = Some (ok, r') /\
  let o := Spec.record_recovery d rec now (redis_cell r name) in
  redis_wf r' /\ ok = bool_decide (is_Some o) /\ stepped o (redis_cell r) (redis_cell r') name.
Proof.
  intros Hwf. unfold redis_record_recovery, _RECORD_RECOVERY_SCRIPT, Spec.record_recovery.
  rewrite lua_busy_live by apply Hwf. fold (redis_hash r name). fold (redis_cell r name). simpl.
  destruct (Spec.live _ _) eqn:Hl; simpl; [by do 2 eexists|].
  destruct (hset_record_spec r r (_key prefix name) _ name d rec (str_take 500 reason)
    (repr_float now) (rewrites_refl r _) (Hwf name)) as (h' & Hr' & Hok & Hc).
  destruct (rewrites_stepped _ _ _ _ Hwf Hr' Hok) as [Hwf' Hst]. rewrite Hc in Hst.
  do 2 eexists. split; [done|]. done.
Qed.

(** *** Groups *)

Lemma lua_none_busy_spec r (items : list (string * DesiredState)) now :
  redis_wf r ->
  lua_none_busy r ((fun i => _key prefix i.1) <$> items) (tonumber (repr_float now))
  = Some (forallb (fun i => negb (Spec.live (redis_cell r i.1) now)) items).
Proof.
  intros Hwf. induction items as [|[n d] items IH]; csimpl; [done|].
  rewrite lua_busy_live by apply Hwf. simpl. fold (redis_hash r n). fold (redis_cell r n).
  by destruct (Spec.live _ _).
Qed.

Lemma lua_all_hold_spec r ls owner now :
  redis_wf r -> str_truthy owner = true -> Forall (fun l => lease_owner l = owner) ls ->
  lua_all_hold r (member_args prefix <$> ls) owner (tonumber (repr_float now))
  = Some (all_hold ls now (redis_cell r)).
Proof.
  intros Hwf Ho. induction 1 as [|l ls Hl _ IH]; [done|].
  cbn [fmap list_fmap lua_all_hold member_args]. rewrite <- Hl at 1.
  rewrite lua_holds_spec by (done || by rewrite Hl || apply Hwf).
  fold (redis_hash r (lease_bundle_name l)). fold (redis_cell r (lease_bundle_name l)). simpl.
  destruct (Spec.holds _ _ _) eqn:Hh; [exact IH|done].
Qed.

Lemma lua_take_all_spec r (items : list (string * DesiredState)) owner now ttl reason :
  redis_wf r -> NoDup items.*1 ->
  exists tokens r', lua_take_all r ((fun i => (_key prefix i.1, i.1, DesiredState_value i.2)) <$> items)
      owner (repr_float now) (repr_float (now + ttl)) reason (key_ttl ttl) = Some (tokens, r') /\
    redis_wf r' /\
    (forall n, redis_cell r' n = group_begun items owner now ttl (redis_cell r) n) /\
    zip_with (fun i t => mkBundleTransitionLease i.1 owner t.1 t.2 (now + ttl)) items tokens
    = (fun i => lease_of i.1 (redis_cell r' i.1)) <$> items.
Proof.
  revert r. induction items as [|[n d] items IH]; intros r Hwf Hnd.
  { by do 2 eexists. }
  apply NoDup_cons in Hnd as [Hn Hnd]. cbn [fmap list_fmap lua_take_all].
  destruct (lua_take_spec r (_key prefix n) owner now ttl n d reason (Hwf n))
    as (r1 & h & Htake & Hr1 & Hok & Hc & _). cbn [fst snd]. rewrite Htake.
  cbn [mbind option_bind].
  destruct (rewrites_cells r r1 n h Hwf Hr1 Hok) as [Hwf1 Hh].
  destruct (IH r1 Hwf1 Hnd) as (tokens & r2 & -> & Hwf2 & Hcells & Hleases).
  cbn [mbind option_bind]. do 2 eexists. split; [done|]. split; [done|].
  assert (redis_cell r2 n = hash_cell h) as Hcn.
  { rewrite Hcells. unfold group_begun. rewrite not_elem_of_list_to_map_1 by done.
    unfold redis_cell. by rewrite Hh, decide_True. }
  split.
  - intros m. unfold group_begun. simpl. rewrite lookup_insert. case_decide as Hm.
    + subst m. rewrite Hcn, Hc. done.
    + rewrite Hcells. unfold group_begun.
      assert (redis_cell r1 m = redis_cell r m) as ->; [|done].
      unfold redis_cell. by rewrite Hh, decide_False by congruence.
  - csimpl. rewrite Hleases. f_equal. unfold lease_of. rewrite Hcn, Hc. done.
Qed.

(** A loop over members that rewrites each one's hash by a step that keeps its
    owner and acts on its cell as an idempotent [fc] does. *)
Lemma fold_members r ls (step : R -> string -> R) (fc : Cell -> Cell) (P : gmap string string -> Prop) :
  redis_wf r ->
  (forall c, fc (fc c) = fc c) ->
  (forall r h n, redis_wf r -> redis_hash r n = h -> P h ->
     exists h', rewrites r (step r (_key prefix n)) (_key prefix n) h' /\ hash_ok h' /\ P h' /\
                hash_cell h' = fc (hash_cell h)) ->
  Forall (fun l => P (redis_hash r (lease_bundle_name l))) ls ->
  let r' := fold_left (fun r i => step r i.1.1) (member_args prefix <$> ls) r in
  redis_wf r' /\ forall n, redis_cell r' n = group_updated ls fc (redis_cell r) n.
Proof.
  intros Hwf Hidem Hstep Hall. simpl. revert r Hwf Hall.
  induction ls as [|l ls IH]; intros r Hwf Hall; [done|].
  apply Forall_cons in Hall as [Hl Hall]. cbn [fmap list_fmap fold_left member_args fst].
  destruct (Hstep r _ (lease_bundle_name l) Hwf eq_refl Hl) as (h' & Hr1 & Hok & HP & Hc).
  destruct (rewrites_cells _ _ _ _ Hwf Hr1 Hok) as [Hwf1 Hh].
  set (r1 := step r _) in *.
  destruct (IH r1 Hwf1) as [Hwf' Hcells].
  { eapply Forall_impl; [exact Hall|]. intros m Hm. simpl in Hm. rewrite Hh. by case_decide. }
  split; [done|]. intros n. rewrite Hcells. unfold group_updated, redis_cell. rewrite Hh. csimpl.
  destruct (decide (n = lease_bundle_name l)) as [->|Hne].
  - rewrite (decide_True (P := lease_bundle_name l ∈ lease_bundle_name l :: _)) by set_solver.
    case_decide; by rewrite Hc, ?Hidem.
  - destruct (decide (n ∈ lease_bundle_name <$> ls)) as [Hin|Hin].
    + rewrite decide_True by set_solver. done.
    + rewrite decide_False by set_solver. done.
Qed.

Lemma first_owner_is ls owner :
  ls <> [] -> Forall (fun l => lease_owner l = owner) ls -> first_owner ls = owner.
Proof. intros Hne Hls. destruct Hls; done. Qed.

(** The members of a group that is held have owned hashes. *)
Lemma held_hashes_owned r ls owner now :
  redis_wf r -> str_truthy owner = true -> Forall (fun l => lease_owner l = owner) ls ->
  all_hold ls now (redis_cell r) = true ->
  Forall (fun l => hash_ok (redis_hash r (lease_bundle_name l)) /\
                   str_truthy (hash_owner (redis_hash r (lease_bundle_name l))) = true) ls.
Proof.
  intros Hwf Ho Hls Hall. apply forallb_true_Forall in Hall. rewrite Forall_forall in *.
  intros l Hl. split; [apply Hwf|]. specialize (Hall l Hl). apply holds_spec in Hall as (Hh & _).
  unfold redis_cell in Hh.
  destruct (hash_ok_fields _ (Hwf (lease_bundle_name l))) as (f & t & e & Hf & Ht & He).
  rewrite (hash_cell_is _ f t e) in Hh by done. simpl in Hh. by rewrite Hh, (Hls l Hl).
Qed.

Lemma redis_renew_group_refines r ls owner now ttl :
  redis_wf r -> str_truthy owner = true -> Forall (fun l => lease_owner l = owner) ls ->
  exists ok r', redis_renew_group prefix r ls now ttl = Some (ok, r') /\
  redis_wf r' /\
  ok = (all_hold ls now (redis_cell r) && negb (bool_decide (ls = []))) /\
  forall n, redis_cell r' n =
    if ok then group_updated ls (fun c => c ⟪ c_expires := now + renewal_ttl ttl ⟫) (redis_cell r) n
    else redis_cell r n.
Proof.
  intros Hwf Ho Hls. destruct (decide (ls = [])) as [->|Hne]; [by do 2 eexists|].
  rewrite bool_decide_eq_false_2, andb_true_r by done.
  assert (redis_renew_group prefix r ls now ttl = _RENEW_GROUP_SCRIPT r (member_args prefix <$> ls)
    (first_owner ls) (repr_float (now + renewal_ttl ttl)) (repr_float now) (key_ttl ttl)) as ->
    by by destruct ls.
  unfold _RENEW_GROUP_SCRIPT. rewrite (first_owner_is ls owner), (lua_all_hold_spec r ls owner) by done.
  cbn [mbind option_bind]. destruct (all_hold _ _ _) eqn:Hall; [|by do 2 eexists].
  do 2 eexists. split; [done|].
  destruct (fold_members r ls
    (fun r key => lua_renew r key (repr_float (now + renewal_ttl ttl)) (repr_float now) (key_ttl ttl))
    (fun c => mkCell (c_fence c) (c_transition c) (c_owner c) (now + renewal_ttl ttl) (c_phase c)
                (c_desired c))
    (fun h => hash_ok h /\ str_truthy (hash_owner h) = true)) as [H1 H2].
  - done.
  - done.
  - intros r1 h n Hwf1 Hh [Hok Hown].
    destruct (lua_renew_spec r1 r1 (_key prefix n) (hgetall r1 (_key prefix n))
      (now + renewal_ttl ttl) now ttl (rewrites_refl r1 _)) as (h' & ? & ? & Ho' & ?);
      [by fold (redis_hash r1 n); rewrite Hh..|].
    fold (redis_hash r1 n) in *. rewrite Hh in *. exists h'. split_and!; try done. by rewrite Ho'.
  - by eapply held_hashes_owned.
  - split_and!; [exact H1|done|exact H2].
Qed.

Lemma redis_finish_group_refines r ls owner success now reason e :
  redis_wf r -> str_truthy owner = true -> ls <> [] ->
  Forall (fun l => lease_owner l = owner) ls ->
  exists ok r', redis_finish_group prefix r ls success now reason e = Some (ok, r') /\
  redis_wf r' /\ ok = all_hold ls now (redis_cell r) /\
  forall n, redis_cell r' n =
    if ok then group_updated ls (Spec.released success) (redis_cell r) n else redis_cell r n.
Proof.
  intros Hwf Ho Hne Hls.
  assert (redis_finish_group prefix r ls success now reason e = _FINISH_GROUP_SCRIPT r
    (member_args prefix <$> ls) (first_owner ls) (finish_phase success) (str_take 500 reason)
    (str_take 1000 (default "" e)) (repr_float now) 3600) as -> by by destruct ls.
  unfold _FINISH_GROUP_SCRIPT. rewrite (first_owner_is ls owner), (lua_all_hold_spec r ls owner) by done.
  cbn [mbind option_bind]. destruct (all_hold _ _ _) eqn:Hall; [|by do 2 eexists].
  do 2 eexists. split; [done|].
  destruct (fold_members r ls
    (fun r key => lua_finish r key (finish_phase success) (str_take 500 reason)
                    (str_take 1000 (default "" e)) (repr_float now) 3600)
    (Spec.released success) hash_ok) as [H1 H2].
  - done.
  - done.
  - intros r1 h n Hwf1 Hh Hok.
    destruct (lua_finish_spec r1 r1 (_key prefix n) (hgetall r1 (_key prefix n)) success
      (str_take 500 reason) (str_take 1000 (default "" e)) now (rewrites_refl r1 _) (Hwf1 n))
      as (h' & ? & ? & ?).
    fold (redis_hash r1 n) in *. rewrite Hh in *. by exists h'.
  - apply Forall_forall. intros l _. apply Hwf.
  - split_and!; [exact H1|done|exact H2].
Qed.

Lemma redis_begin_group_refines r ts owner now ttl reason :
  redis_wf r -> str_truthy owner = true ->
  exists res r', redis_begin_group prefix r ts owner now ttl reason = Some (res, r') /\
  redis_wf r' /\
  match _normalize_group_transitions ts with
  | Err e => res = Err e /\ forall n, redis_cell r' n = redis_cell r n
  | Ok items =>
      if forallb (fun i => negb (Spec.live (redis_cell r i.1) now)) items
         && negb (bool_decide (items = []))
      then (exists g, res = Ok g /\ group_acquired g = true /\
              group_lease g = Some ((fun i => lease_of i.1 (redis_cell r' i.1)) <$> items)) /\
           forall n, redis_cell r' n = group_begun items owner now ttl (redis_cell r) n
      else (exists g, res = Ok g /\ group_acquired g = false /\ group_lease g = None) /\
           forall n, redis_cell r' n = redis_cell r n
  end.
Proof.
  intros Hwf Ho. unfold redis_begin_group.
  destruct (_normalize_group_transitions ts) as [items|x] eqn:Hts; [|by do 2 eexists].
  apply normalize_items_NoDup in Hts as Hnd.
  destruct (decide (items = [])) as [->|Hne].
  { do 2 eexists. split; [done|]. split; [done|]. split; [by eexists|done]. }
  rewrite bool_decide_eq_false_2, andb_true_r by done.
  destruct items as [|i0 items0] eqn:Hi; [done|]. rewrite <- Hi in *. clear Hne Hi.
  unfold _BEGIN_GROUP_SCRIPT.
  assert ((fun i : string * string * string => i.1.1) <$>
    ((fun i => (_key prefix i.1, i.1, DesiredState_value i.2)) <$> items)
    = (fun i => _key prefix i.1) <$> items) as -> by (by rewrite <- list_fmap_compose).
  rewrite (lua_none_busy_spec r items now Hwf). cbn [mbind option_bind].
  destruct (forallb _ items); cbn [mbind option_bind].
  - destruct (lua_take_all_spec r items owner now ttl (str_take 500 reason) Hwf Hnd)
      as (tokens & r' & -> & Hwf' & Hc & Hl). cbn [mbind option_bind].
    do 2 eexists. split; [done|]. split; [done|]. split; [|done]. eexists. rewrite Hl. done.
  - do 2 eexists. split; [done|]. split; [done|]. split; [by eexists|done].
Qed.

Context (sha256_hex : string -> string).

#[export] Instance redis_lifecycle_store : LifecycleStore R := redis_store prefix sha256_hex.

#[export] Instance redis_fenced : FencedStore R.
Proof.
  refine (Build_FencedStore R _ redis_cell redis_wf _ _ _ _ _ _ _).
  - intros r name d owner now ttl reason Hwf Ho. simpl.
    destruct (redis_begin_refines r name d owner now ttl reason Hwf Ho) as (? & ? & -> & ?). done.
  - intros r ts owner now ttl reason Hwf Ho. simpl.
    destruct (redis_begin_group_refines r ts owner now ttl reason Hwf Ho) as (? & ? & -> & ?). done.
  - intros r l now ttl Hwf Ho. simpl.
    destruct (redis_renew_refines r l now ttl Hwf Ho) as (? & ? & -> & ?). done.
  - intros r ls owner now ttl Hwf Ho Hls. simpl.
    destruct (redis_renew_group_refines r ls owner now ttl Hwf Ho Hls) as (? & ? & -> & ?). done.
  - intros r name d rec now reason Hwf. simpl.
    destruct (redis_record_refines r name d rec now reason Hwf) as (? & ? & -> & ?). done.
  - intros r l success now reason e Hwf Ho. simpl.
    destruct (redis_finish_refines r l success now reason e Hwf Ho) as (? & ? & -> & ?). done.
  - intros r ls owner success now reason e Hwf Ho Hne Hls. simpl.
    destruct (redis_finish_group_refines r ls owner success now reason e Hwf Ho Hne Hls)
      as (? & ? & -> & ?). done.
Defined.
End RedisRefinement.

(** ** Histories that report whether a script raised *)

Section RedisHistories.
Context {R : Type} `{HL : RedisLaws R} `{HN : !NumTextLaws}.
Context (prefix : string) (sha256_hex : string -> string).
Implicit Types (r : R) (op : StoreOp).

Definition redis_op r op : option R :=
  match op with
  | OpBegin n d o now ttl why => snd <$> redis_begin prefix r n d o now ttl why
  | OpBeginGroup ts o now ttl why => snd <$> redis_begin_group prefix r ts o now ttl why
  | OpRenew l now ttl => snd <$> redis_renew prefix r l now ttl
  | OpRenewGroup ls now ttl => snd <$> redis_renew_group prefix r ls now ttl
  | OpRecord n d rec now why => snd <$> redis_record_recovery prefix r n d rec now why
  | OpFinish l ok now why e => snd <$> redis_finish prefix r l ok now why e
  | OpFinishGroup ls ok now why e => snd <$> redis_finish_group prefix r ls ok now why e
  end.

Fixpoint redis_ops r (ops : list StoreOp) : option R :=
  match ops with
  | [] => Some r
  | op :: ops' => r' ← redis_op r op; redis_ops r' ops'
  end.

Definition redis_run_op r op : R :=
  @run_op R (redis_lifecycle_store prefix sha256_hex) r op.
Definition redis_run_ops r (ops : list StoreOp) : R :=
  @run_ops R (redis_lifecycle_store prefix sha256_hex) r ops.

Lemma redis_op_runs r op :
  redis_wf prefix r -> valid_op op = true -> redis_op r op = Some (redis_run_op r op).
Proof.
  intros Hwf Hv.
  destruct op as [k d o now ttl why|ts o now ttl why|l now ttl|ls now ttl|k d rec now why
    |l ok now why e|ls ok now why e]; cbn [redis_op redis_run_op run_op valid_op] in *.
  - destruct (redis_begin_refines prefix r k d o now ttl why Hwf Hv) as (? & ? & Heq & _).
    unfold redis_run_op. simpl. by rewrite Heq.
  - destruct (redis_begin_group_refines prefix r ts o now ttl why Hwf Hv) as (? & ? & Heq & _).
    unfold redis_run_op. simpl. by rewrite Heq.
  - destruct (redis_renew_refines prefix r l now ttl Hwf Hv) as (? & ? & Heq & _).
    unfold redis_run_op. simpl. by rewrite Heq.
  - apply one_owner_spec in Hv as (Hne & o & Ho & Hls).
    destruct (redis_renew_group_refines prefix r ls o now ttl Hwf Ho Hls) as (? & ? & Heq & _).
    unfold redis_run_op. simpl. by rewrite Heq.
  - destruct (redis_record_refines prefix r k d rec now why Hwf) as (? & ? & Heq & _).
    unfold redis_run_op. simpl. by rewrite Heq.
  - destruct (redis_finish_refines prefix r l ok now why e Hwf Hv) as (? & ? & Heq & _).
    unfold redis_run_op. simpl. by rewrite Heq.
  - apply one_owner_spec in Hv as (Hne & o & Ho & Hls).
    destruct (redis_finish_group_refines prefix r ls o ok now why e Hwf Ho Hne Hls)
      as (? & ? & Heq & _).
    unfold redis_run_op. simpl. by rewrite Heq.
Qed.

Lemma redis_ops_run r ops :
  redis_wf prefix r -> all_valid ops ->
  redis_ops r ops = Some (redis_run_ops r ops) /\ redis_wf prefix (redis_run_ops r ops).
Proof.
  intros Hwf Hops. revert r Hwf. induction Hops as [|op ops Hv _ IH]; intros r Hwf; [done|].
  simpl. rewrite redis_op_runs by done. simpl. apply IH.
  by apply (run_op_cells (HS := redis_fenced prefix sha256_hex)).
Qed.

Lemma empty_keys_wf r : (forall k, hgetall r k = ∅) -> redis_wf prefix r.
Proof.
  intros He n. unfold redis_hash. rewrite He. split.
  - exists 0. by right.
  - exists 0. by right.
  - exists 0. by right.
  - done.
Qed.
End RedisHistories.

(** ** Two stores that implement the interface agree *)

Section Agreement.
Context {S T : Type} `{HS : FencedStore S} `{HT : FencedStore T}.
Implicit Types (op : StoreOp).

(** The leases an operation grants; [Some []] for a plain acceptance. *)
Definition op_outcome {U} `{!LifecycleStore U} (u : U) op : option (list BundleTransitionLease) :=
  match op with
  | OpBegin n d o now ttl why =>
      (fun l => [l]) <$> attempt_lease (store_begin u n d o now ttl why).1
  | OpBeginGroup ts o now ttl why =>
      match (store_begin_group u ts o now ttl why).1 with Ok g => group_lease g | Err _ => None end
  | OpRenew l now ttl => if (store_renew u l now ttl).1 then Some [] else None
  | OpRenewGroup ls now ttl => if (store_renew_group u ls now ttl).1 then Some [] else None
  | OpRecord n d r now why => if (store_record_recovery u n d r now why).1 then Some [] else None
  | OpFinish l ok now why e => if (store_finish u l ok now why e).1 then Some [] else None
  | OpFinishGroup ls ok now why e =>
      if (store_finish_group u ls ok now why e).1 then Some [] else None
  end.

Fixpoint outcomes {U} `{!LifecycleStore U} (u : U) (ops : list StoreOp)
    : list (option (list BundleTransitionLease)) :=
  match ops with
  | [] => []
  | op :: ops' => op_outcome u op :: outcomes (run_op u op) ops'
  end.

Lemma stepped_agree o cs cs' ds ds' k :
  (forall n, cs n = ds n) -> stepped o cs cs' k -> stepped o ds ds' k -> forall n, cs' n = ds' n.
Proof. intros Heq. destruct o; simpl; intros H1 H2 n; rewrite H1, H2; by rewrite ?Heq. Qed.

Lemma all_hold_agree ls now cs ds :
  (forall n, cs n = ds n) -> all_hold ls now cs = all_hold ls now ds.
Proof. intros Heq. unfold all_hold. induction ls; simpl; [done|]. by rewrite Heq, IHls. Qed.

Lemma op_agree (s : S) (t : T) op :
  store_wf s -> store_wf t -> (forall n, cell_of s n = cell_of t n) -> valid_op op = true ->
  op_outcome s op = op_outcome t op /\
  forall n, cell_of (run_op s op) n = cell_of (run_op t op) n.
Proof.
  intros Hs Ht Heq Hv. destruct op as [k d o now ttl why|ts o now ttl why|l now ttl|ls now ttl
    |k d r now why|l ok now why e|ls ok now why e]; cbn [op_outcome run_op valid_op] in *.
  - pose proof (begin_refines s k d o now ttl why Hs Hv) as H1.
    pose proof (begin_refines t k d o now ttl why Ht Hv) as H2.
    destruct (store_begin s _ _ _ _ _ _), (store_begin t _ _ _ _ _ _). rewrite Heq in H1.
    destruct H1 as (_ & S1 & _ & L1), H2 as (_ & S2 & _ & L2). simpl.
    split; [by rewrite L1, L2|]. by eapply stepped_agree.
  - pose proof (begin_group_refines s ts o now ttl why Hs Hv) as H1.
    pose proof (begin_group_refines t ts o now ttl why Ht Hv) as H2.
    destruct (store_begin_group s _ _ _ _ _) as [rs s1], (store_begin_group t _ _ _ _ _) as [rt t1].
    simpl.
    destruct H1 as (_ & H1), H2 as (_ & H2).
    destruct (_normalize_group_transitions ts) as [items|].
    2: { destruct H1 as [-> H1], H2 as [-> H2]. split; [done|]. intros n. by rewrite H1, H2. }
    assert (forallb (fun i => negb (Spec.live (cell_of s i.1) now)) items
            = forallb (fun i => negb (Spec.live (cell_of t i.1) now)) items) as Hf.
    { clear -Heq. induction items; simpl; [done|]. by rewrite Heq, IHitems. }
    rewrite Hf in H1. destruct (_ && _).
    + destruct H1 as [(g1 & -> & _ & L1) H1], H2 as [(g2 & -> & _ & L2) H2].
      assert (forall n, cell_of s1 n = cell_of t1 n) as Hn.
      { intros n. rewrite H1, H2. unfold group_begun. by rewrite Heq. }
      split; [|done]. rewrite L1, L2. f_equal. apply list_fmap_ext. intros. by rewrite Hn.
    + destruct H1 as [(g1 & -> & _ & L1) H1], H2 as [(g2 & -> & _ & L2) H2].
      split; [by rewrite L1, L2|]. intros n. by rewrite H1, H2.
  - pose proof (renew_refines s l now ttl Hs Hv) as H1.
    pose proof (renew_refines t l now ttl Ht Hv) as H2.
    destruct (store_renew s _ _ _), (store_renew t _ _ _). rewrite Heq in H1.
    destruct H1 as (_ & -> & S1), H2 as (_ & -> & S2). split; [done|]. by eapply stepped_agree.
  - apply one_owner_spec in Hv as (Hne & o & Ho & Hls).
    pose proof (renew_group_refines s ls o now ttl Hs Ho Hls) as H1.
    pose proof (renew_group_refines t ls o now ttl Ht Ho Hls) as H2.
    destruct (store_renew_group s _ _ _), (store_renew_group t _ _ _).
    rewrite (all_hold_agree _ _ _ (cell_of t) Heq) in H1.
    destruct H1 as (_ & -> & S1), H2 as (_ & -> & S2). split; [done|]. intros n. simpl.
    rewrite S1, S2. unfold group_updated. by rewrite Heq.
  - pose proof (record_recovery_refines s k d r now why Hs) as H1.
    pose proof (record_recovery_refines t k d r now why Ht) as H2.
    destruct (store_record_recovery s _ _ _ _ _), (store_record_recovery t _ _ _ _ _).
    rewrite Heq in H1. destruct H1 as (_ & -> & S1), H2 as (_ & -> & S2).
    split; [done|]. by eapply stepped_agree.
  - pose proof (finish_refines s l ok now why e Hs Hv) as H1.
    pose proof (finish_refines t l ok now why e Ht Hv) as H2.
    destruct (store_finish s _ _ _ _ _), (store_finish t _ _ _ _ _). rewrite Heq in H1.
    destruct H1 as (_ & -> & S1), H2 as (_ & -> & S2). split; [done|]. by eapply stepped_agree.
  - apply one_owner_spec in Hv as (Hne & o & Ho & Hls).
    pose proof (finish_group_refines s ls o ok now why e Hs Ho Hne Hls) as H1.
    pose proof (finish_group_refines t ls o ok now why e Ht Ho Hne Hls) as H2.
    destruct (store_finish_group s _ _ _ _ _), (store_finish_group t _ _ _ _ _).
    rewrite (all_hold_agree _ _ _ (cell_of t) Heq) in H1.
    destruct H1 as (_ & -> & S1), H2 as (_ & -> & S2). split; [done|]. intros n. simpl.
    rewrite S1, S2. unfold group_updated. by rewrite Heq.
Qed.

Lemma ops_agree ops (s : S) (t : T) :
  store_wf s -> store_wf t -> (forall n, cell_of s n = cell_of t n) ->
  Forall (fun op => valid_op op = true) ops ->
  outcomes s ops = outcomes t ops /\
  forall n, cell_of (run_ops s ops) n = cell_of (run_ops t ops) n.
Proof.
  intros Hs Ht Heq H. revert s t Hs Ht Heq.
  induction H as [|op ops Hv _ IH]; intros s t Hs Ht Heq; [done|].
  destruct (op_agree s t op Hs Ht Heq Hv) as [Ho Hc].
  destruct (IH (run_op s op) (run_op t op)) as [H1 H2]; [by apply run_op_cells..|done|].
  simpl. by rewrite Ho, H1.
Qed.
End Agreement.

(** ** A concrete Redis and concrete number text *)

(** Decimal text; a float is its microseconds with a sign and the exponent
    [e-6], a numeral that [tonumber] and [float] both read. *)
Module Concrete.
Definition decimal (z : Z) : string := DecimalString.NilZero.string_of_int (Z.to_int z).

Definition of_decimal (s : string) : option Z :=
  Z.of_int <$> DecimalString.NilZero.int_of_string s.

Definition micros_text (t : time) : string := String "+"%char (decimal t +:+ "e-6").

Definition number_of (s : string) : option time :=
  match s with
  | String "+"%char rest => of_decimal (String.substring 0 (String.length rest - 3) rest)
  | _ => seconds <$> of_decimal s
  end.

#[export] Instance decimal_text : NumText := {|
  repr_float := micros_text; str_int := decimal;
  tonumber := number_of; py_float_of := number_of; py_int_of := of_decimal |}.

Lemma to_int_not_nil z : Z.to_int z <> Decimal.Pos Decimal.Nil /\ Z.to_int z <> Decimal.Neg Decimal.Nil.
Proof.
  split; intros Hz; pose proof (DecimalZ.of_to z) as H; rewrite Hz in H; subst z; discriminate.
Qed.

Lemma of_decimal_decimal z : of_decimal (decimal z) = Some z.
Proof.
  unfold of_decimal, decimal. destruct (to_int_not_nil z).
  rewrite DecimalString.NilZero.isi by done. simpl. by rewrite DecimalZ.of_to.
Qed.

(** Decimal text is not empty and has no leading [+]. *)
Lemma decimal_head z : exists c s, decimal z = String c s /\ c <> "+"%char.
Proof.
  unfold decimal. destruct (Z.to_int z) as [d|d]; [destruct d|]; simpl; by do 2 eexists.
Qed.

Lemma number_of_decimal z : number_of (decimal z) = Some (seconds z).
Proof.
  pose proof (of_decimal_decimal z) as Hz. destruct (decimal_head z) as (c & s & Hd & Hc).
  rewrite Hd in *. assert (number_of (String c s) = seconds <$> of_decimal (String c s)) as ->.
  { unfold number_of. repeat case_match; congruence. }
  by rewrite Hz.
Qed.

Lemma substring_app (p q : string) :
  String.substring 0 (String.length (p +:+ q) - String.length q) (p +:+ q) = p.
Proof.
  assert (String.length (p +:+ q) = String.length p + String.length q)%nat as ->.
  { induction p as [|c p IH]; [done|]. simpl. by rewrite IH. }
  rewrite Nat.add_sub. induction p as [|c p IH]; [by destruct q|]. simpl. by rewrite IH.
Qed.

Lemma number_of_micros t : number_of (micros_text t) = Some t.
Proof.
  exact (eq_trans (f_equal of_decimal (substring_app (decimal t) "e-6")) (of_decimal_decimal t)).
Qed.

#[export] Instance decimal_text_laws : NumTextLaws.
Proof.
  split; try done.
  - apply number_of_micros.
  - apply number_of_decimal.
  - apply number_of_micros.
  - apply of_decimal_decimal.
  - intros z. simpl. destruct (decimal_head z) as (c & s & -> & _). done.
Qed.

Definition Redis : Type := (gmap string (gmap string string) * gmap string Z)%type.

Definition fields_at (r : Redis) (k : string) : gmap string string := default ∅ (r.1 !! k).

#[export] Instance hashes : RedisOps Redis := {|
  hgetall := fields_at;
  hset r k fs := (<[k := hset_fields (fields_at r k) fs]> r.1, r.2);
  hincrby r k f n :=
    z ← match fields_at r k !! f with Some s => of_decimal s | None => Some 0 end;
    Some (z + n, (<[k := <[f := decimal (z + n)]> (fields_at r k)]> r.1, r.2));
  incr r k :=
    let z := default 0 (r.2 !! k) + 1 in (z, (r.1, <[k := z]> r.2));
  expire r k ttl := if 0 <? ttl then r else (delete k r.1, r.2);
  del r k := (delete k r.1, r.2) |}.

Lemma fields_at_insert (r : Redis) k h k' :
  fields_at (<[k := h]> r.1, r.2) k' = if decide (k' = k) then h else fields_at r k'.
Proof. unfold fields_at. simpl. rewrite lookup_insert. by repeat case_decide; subst. Qed.

#[export] Instance hashes_laws : RedisLaws Redis.
Proof.
  split; intros r k; simpl.
  - intros fs k'. apply fields_at_insert.
  - intros f n ->. simpl. eexists. split; [done|]. apply fields_at_insert.
  - intros f n z ->. simpl. rewrite of_decimal_decimal. simpl. eexists.
    split; [done|]. apply fields_at_insert.
  - intros ttl k' Ht%Z.ltb_lt. by rewrite Ht.
  - intros k'. unfold fields_at. simpl. rewrite lookup_delete. by repeat case_decide; subst.
Qed.

Definition empty_redis : Redis := (∅, ∅).
End Concrete.

(** ** Properties *)

Section RedisProperties.
Context {R : Type} `{HL : RedisLaws R} `{HN : !NumTextLaws}.
Context (prefix : string).
Implicit Types (r : R).

Lemma or_refused_some {A} (a : A) r o x : o = Some x -> or_refused a r o = x.
Proof. by intros ->. Qed.

(** Fencing in the Redis store.  While no key expires, once a later begin
    on a bundle is granted, an earlier lease can never again renew or finish,
    trying to raises nothing and changes no bundle's cell. *)
Theorem redis_fencing r0 name d1 o1 t1 ttl1 w1 att1 r1 l1 ops1 r1' d2 o2 t2 ttl2 w2 att2 r2
    ops2 r3 now ttl success why e :
  redis_wf prefix r0 -> str_truthy o1 = true -> str_truthy o2 = true ->
  all_valid (ops1 ++ ops2) ->
  redis_begin prefix r0 name d1 o1 t1 ttl1 w1 = Some (att1, r1) -> attempt_lease att1 = Some l1 ->
  redis_ops prefix r1 ops1 = Some r1' ->
  redis_begin prefix r1' name d2 o2 t2 ttl2 w2 = Some (att2, r2) -> acquired att2 = true ->
  redis_ops prefix r2 ops2 = Some r3 ->
  exists r4 r5, redis_renew prefix r3 l1 now ttl = Some (false, r4) /\
    redis_finish prefix r3 l1 success now why e = Some (false, r5) /\
    forall n, redis_cell prefix r4 n = redis_cell prefix r3 n /\
              redis_cell prefix r5 n = redis_cell prefix r3 n.
Proof.
  intros Hwf Ho1 Ho2 [Hv1 Hv2]%Forall_app Hb1 Hl1 Hops1 Hb2 Ha2 Hops2.
  set (sha := fun s : string => s).
  pose proof (redis_begin_refines prefix r0 name d1 o1 t1 ttl1 w1 Hwf Ho1) as (? & ? & Heq & Hwf1 & _).
  rewrite Hb1 in Heq. injection Heq as <- <-.
  destruct (redis_ops_run prefix sha r1 ops1 Hwf1 Hv1) as [Hrun Hwf1'].
  rewrite Hops1 in Hrun. injection Hrun as ->.
  pose proof (redis_begin_refines prefix _ name d2 o2 t2 ttl2 w2 Hwf1' Ho2)
    as (? & ? & Heq & Hwf2 & _). rewrite Hb2 in Heq. injection Heq as <- <-.
  destruct (redis_ops_run prefix sha r2 ops2 Hwf2 Hv2) as [Hrun Hwf3].
  rewrite Hops2 in Hrun. injection Hrun as ->.
  set (I := redis_fenced prefix sha).
  destruct (fenced_out (HS := I) r0 name d1 o1 t1 ttl1 w1 att1 r1 l1 ops1 d2 o2 t2 ttl2 w2 att2 r2
    ops2 now ttl success why e Hwf Ho1 Ho2) as [[H1 H2] [H3 H4]];
    [exact (or_refused_some _ _ _ _ Hb1)|done|by apply Forall_app
    |exact (or_refused_some _ _ _ _ Hb2)|done|].
  assert (str_truthy (lease_owner l1) = true) as Hlo.
  { destruct (begin_acquired (HS := I) r0 name d1 o1 t1 ttl1 w1 att1 r1 l1 Hwf Ho1
      (or_refused_some _ _ _ _ Hb1) Hl1) as (_ & _ & _ & _ & -> & _). done. }
  fold (redis_run_ops prefix sha r2 ops2) in H1, H2, H3, H4.
  set (r3 := redis_run_ops prefix sha r2 ops2) in *.
  destruct (redis_renew_refines prefix r3 l1 now ttl Hwf3 Hlo) as (b4 & r4 & Hr & _).
  destruct (redis_finish_refines prefix r3 l1 success now why e Hwf3 Hlo) as (b5 & r5 & Hf & _).
  simpl in H1, H2, H3, H4. rewrite Hr in H1, H2. rewrite Hf in H3, H4. simpl in *. subst b4 b5.
  exists r4, r5. split_and!; [done|done|]. intros n. split; [apply H2|apply H4].
Qed.

(** No script raises.  From a well-formed store every history of valid
    operations runs to the end, in a well-formed store, and no bundle's fence
    moves backward. *)
Theorem redis_never_raises r ops :
  redis_wf prefix r -> all_valid ops ->
  exists r', redis_ops prefix r ops = Some r' /\ redis_wf prefix r' /\
    forall n, c_fence (redis_cell prefix r n) <= c_fence (redis_cell prefix r' n).
Proof.
  intros Hwf Hv. destruct (redis_ops_run prefix (fun s => s) r ops Hwf Hv) as [Hr Hwf'].
  eexists. split_and!; [exact Hr|exact Hwf'|]. intros n.
  by apply (run_ops_fence (HS := redis_fenced prefix (fun s => s))).
Qed.


(** A fence survives only as long as its key.  A lease that expired long
    ago is accepted again when the bundle's key expired after it and the same
    owner began a new transition: the counters restarted, so the old token is
    the new one. *)
Theorem redis_fence_resets r0 name d owner t1 ttl1 w1 att1 r1 l1 t2 ttl2 w2 att2 r2 now success why e :
  redis_wf prefix r0 -> str_truthy owner = true ->
  hgetall r0 (_key prefix name) = ∅ -> 0 <= ttl1 ->
  redis_begin prefix r0 name d owner t1 ttl1 w1 = Some (att1, r1) -> attempt_lease att1 = Some l1 ->
  t1 + seconds (key_ttl ttl1) <= t2 ->
  redis_begin prefix (del r1 (_key prefix name)) name d owner t2 ttl2 w2 = Some (att2, r2) ->
  now < t2 + ttl2 ->
  lease_expires_at l1 < t2 /\
  exists r3, redis_finish prefix r2 l1 success now why e = Some (true, r3) /\
    redis_cell prefix r3 name = Spec.released success (redis_cell prefix r2 name).
Proof.
  intros Hwf Ho He Httl Hb1 Hl1 Ht Hb2 Hnow.
  assert (hash_cell ∅ = mkCell 0 0 "" 0 INTENTIONALLY_OFF IDLE) as Hempty
    by by rewrite (hash_cell_is ∅ 0 0 0) by by right.
  pose proof (redis_begin_refines prefix r0 name d owner t1 ttl1 w1 Hwf Ho)
    as (? & ? & Heq & Hwf1 & _ & _ & Hlease1).
  rewrite Hb1 in Heq. injection Heq as <- <-.
  assert (redis_wf prefix (del r1 (_key prefix name))) as Hwf1'.
  { intros n. unfold redis_hash. rewrite hgetall_del. case_decide; [|apply Hwf1].
    rewrite <- He. apply Hwf. }
  pose proof (redis_begin_refines prefix _ name d owner t2 ttl2 w2 Hwf1' Ho)
    as (? & ? & Heq & Hwf2 & Hst & _). rewrite Hb2 in Heq. injection Heq as <- <-.
  rewrite Hl1 in Hlease1. unfold redis_cell, redis_hash in Hlease1, Hst.
  rewrite He, Hempty in Hlease1. rewrite hgetall_del, decide_True, Hempty in Hst by done.
  cbn in Hlease1. injection Hlease1 as ->.
  pose proof (Hst name) as Hc. rewrite decide_True in Hc by done.
  split; [simpl; unfold key_ttl, seconds, int_seconds in Ht; pose proof (Z.quot_rem' ttl1 1000000);
    pose proof (Z.rem_bound_pos ttl1 1000000); lia|].
  set (l1 := lease_of name _).
  destruct (redis_finish_refines prefix r2 l1 success now why e Hwf2 Ho)
    as (ok & r3 & Hf & _ & Hok & Hs). exists r3.
  assert (Spec.holds l1 now (redis_cell prefix r2 name) = true) as Hh.
  { apply holds_spec. unfold redis_cell, redis_hash. rewrite Hc. done. }
  unfold Spec.finish in Hs, Hok. change (lease_bundle_name l1) with name in *.
  rewrite Hh in Hs, Hok. subst ok. split; [done|]. by rewrite (Hs name), decide_True.
Qed.
End RedisProperties.

(** Record codec.  Reading the fields a record is written as gives back
    the record, for any name, when its owner and its error are not empty
    strings. *)
Theorem record_fields_roundtrip `{NumTextLaws} name (rec : BundleLifecycleRecord) :
  transition_owner rec <> Some "" -> last_error rec <> Some "" ->
  from_fields name (hset_fields ∅ (to_fields rec)) = rec.
Proof.
  intros Ho He. assert (forall f, hset_fields ∅ (to_fields rec) !! f = dict_get (rev (to_fields rec)) f)
    as Hf.
  { intros f. rewrite hset_fields_lookup, lookup_empty. by case_match. }
  set (h := hset_fields ∅ _) in *.
  assert (forall f z, h !! f = Some (str_int z) -> integer h f = z) as Hint.
  { intros f z Hz. apply integer_is. by left. }
  assert (forall f t, h !! f = Some (repr_float t) -> number h f = t) as Hnum.
  { intros f t Ht. by apply number_is, time_text. }
  assert (forall f o, h !! f = Some (opt_time_text o) -> number_or_none h f = o) as Hopt.
  { intros f o Hz. unfold number_or_none, text. rewrite Hz. destruct o as [t|]; simpl; [|done].
    rewrite str_truthy_ne by apply repr_not_empty. apply float_of_repr. }
  assert (forall f o, h !! f = Some (opt_text o) -> o <> Some "" -> or_none (text h f "") = o) as Hor.
  { intros f o Hz Hne. unfold text. rewrite Hz. destruct o as [s|]; [|done]. unfold or_none. simpl.
    rewrite str_truthy_ne; congruence. }
  assert (forall f d v, h !! f = Some v -> text h f d = v) as Htext.
  { intros f d v Hv. unfold text. by rewrite Hv. }
  unfold from_fields.
  rewrite (Htext "bundle_name" _ (bundle_name rec)) by by rewrite Hf.
  rewrite (Htext "desired_state" _ (DesiredState_value (desired_state rec))) by by rewrite Hf.
  rewrite (Htext "phase" _ (RecoveryPhase_value (phase (recovery rec)))) by by rewrite Hf.
  rewrite (Htext "last_reason" _ (last_reason rec)) by by rewrite Hf.
  rewrite desired_round, phase_round.
  rewrite (Hint "transition_id" (transition_id (recovery rec))) by by rewrite Hf.
  rewrite (Hint "restart_attempts" (restart_attempts (recovery rec))) by by rewrite Hf.
  rewrite (Hint "generation_fence" (generation_fence rec)) by by rewrite Hf.
  rewrite (Hopt "retry_window_started_at" (retry_window_started_at (recovery rec))) by by rewrite Hf.
  rewrite (Hopt "last_restart_at" (last_restart_at (recovery rec))) by by rewrite Hf.
  rewrite (Hopt "last_healthy_at" (last_healthy_at (recovery rec))) by by rewrite Hf.
  rewrite (Hor "transition_owner" (transition_owner rec)) by (by rewrite Hf || done).
  rewrite (Hor "last_error" (last_error rec)) by (by rewrite Hf || done).
  rewrite (Hnum "transition_expires_at" (transition_expires_at rec)) by by rewrite Hf.
  rewrite (Hnum "updated_at" (updated_at rec)) by by rewrite Hf.
  by destruct rec as [? ? [] ? ? ? ? ? ?].
Qed.

(** ** Witnesses on the concrete Redis *)

Import Concrete.

(** What a step that did not raise returned. *)
Definition ran {A} (o : option A) (d : A) : A := default d o.

Definition no_attempt : TransitionAttempt * Redis :=
  (mkTransitionAttempt false None "" None, empty_redis).

Lemma empty_redis_wf : redis_wf "b:" empty_redis.
Proof. by apply empty_keys_wf. Defined.

Lemma redis_fencing_witness :
  let b1 := ran (redis_begin "b:" Concrete.empty_redis "chat" RUNNING "w1" 0
              (seconds 5) "up") no_attempt in
  let b2 := ran (redis_begin "b:" b1.2 "chat" RUNNING "w2" (seconds 9)
              (seconds 5) "up") no_attempt in
  exists l1, attempt_lease b1.1 = Some l1 /\ acquired b2.1 = true /\
    exists r4 r5, redis_renew "b:" b2.2 l1 (seconds 10) (seconds 5) = Some (false, r4) /\
      redis_finish "b:" b2.2 l1 true (seconds 10) "" None = Some (false, r5) /\
      forall n, redis_cell "b:" r4 n = redis_cell "b:" b2.2 n /\
                redis_cell "b:" r5 n = redis_cell "b:" b2.2 n.
Proof.
  intros b1 b2. eexists. split; [vm_compute; reflexivity|]. split; [vm_compute; reflexivity|].
  refine (redis_fencing "b:" Concrete.empty_redis "chat" RUNNING "w1" 0 (seconds 5) "up" b1.1 b1.2
    _ [] b1.2 RUNNING "w2" (seconds 9) (seconds 5) "up" b2.1 b2.2 [] b2.2 (seconds 10) (seconds 5)
    true "" None empty_redis_wf _ _ _ _ _ _ _ _ _);
    first [constructor | vm_compute; reflexivity].
Defined.

Lemma redis_never_raises_witness :
  exists r', redis_ops "b:" Concrete.empty_redis
               [OpBegin "chat" RUNNING "w1" 0 (seconds 5) "up";
                OpRecord "chat" IDLE RecoveryState_default (seconds 9) ""] = Some r' /\
    redis_wf "b:" r' /\
    forall n, c_fence (redis_cell "b:" Concrete.empty_redis n) <= c_fence (redis_cell "b:" r' n).
Proof.
  apply redis_never_raises; [exact empty_redis_wf|repeat constructor].
Defined.


Lemma redis_fence_resets_witness :
  let b1 := ran (redis_begin "b:" Concrete.empty_redis "chat" RUNNING "w1" 0
              (seconds 5) "up") no_attempt in
  let b2 := ran (redis_begin "b:" (del b1.2 "b:chat") "chat" RUNNING "w1" (seconds 9)
              (seconds 5) "up") no_attempt in
  exists l1, attempt_lease b1.1 = Some l1 /\ lease_expires_at l1 < seconds 9 /\
    exists r3, redis_finish "b:" b2.2 l1 true (seconds 10) "" None = Some (true, r3) /\
      redis_cell "b:" r3 "chat" = Spec.released true (redis_cell "b:" b2.2 "chat").
Proof.
  intros b1 b2. eexists. split; [vm_compute; reflexivity|].
  refine (redis_fence_resets "b:" Concrete.empty_redis "chat" RUNNING "w1" 0 (seconds 5) "up" b1.1
    b1.2 _ (seconds 9) (seconds 5) "up" b2.1 b2.2 (seconds 10) true "" None
    empty_redis_wf _ _ _ _ _ _ _ _);
    first [vm_compute; reflexivity | vm_compute; discriminate].
Defined.

Lemma record_fields_roundtrip_witness :
  let rec := new_record "chat" (seconds 7) in
  from_fields "other" (hset_fields ∅ (to_fields rec)) = rec.
Proof. intros rec. apply (record_fields_roundtrip "other" rec); discriminate. Defined.
