(* ===== verification/LifecycleController.v ===== *)
(** * LifecycleController: running an operation under a lifecycle lease

    Models [BundleLifecycleController] of [scripts/bundle_lifecycle.py] against
    the [LifecycleStore] interface: the one-line operations, the keepalive task
    as an explicit state machine, and [run_transition] and
    [run_group_transition] as functions of a schedule that says how the
    keepalive's store calls and other actors' operations interleave with the
    operation that runs. *)

From S2P Require Import Prelude Recovery Lifecycle LifecycleMemory.

(** ** The controller *)

Record BundleLifecycleController := mkBundleLifecycleController {
  controller_owner : string;
  transition_ttl_seconds : time }.

(** [owner or f"gpu-manager:{hostname}:{uuid4}"]; [generated] is that text. *)
Definition make_controller (owner : option string) (generated : string) (ttl : time)
    : BundleLifecycleController :=
  mkBundleLifecycleController (if opt_truthy owner then default "" owner else generated) ttl.

Section Operations.
Context {S : Type} `{!LifecycleStore S} (c : BundleLifecycleController).

Definition begin_transition (s : S) (name : string) (d : DesiredState) (now : time)
    (reason : string) : TransitionAttempt * S :=
  store_begin s name d (controller_owner c) now (transition_ttl_seconds c) reason.

Definition ttl_or_default (ttl : option time) : time :=
  match ttl with Some t => t | None => transition_ttl_seconds c end.

Definition acquire_resources (s : S) (resources : PyResources) (now : time) (ttl : option time)
    : result ValueError (option ResourceLease) * S :=
  match canonical_resource_ids resources with
  | Err e => (Err e, s)
  | Ok ids => store_acquire_resources s (ResourceIterable (ResStr <$> ids))
                (controller_owner c) now (ttl_or_default ttl)
  end.

Definition renew_resources (s : S) (lease : ResourceLease) (now : time) (ttl : option time)
    : result ValueError bool * S :=
  store_renew_resources s lease now (ttl_or_default ttl).

Definition release_resources (s : S) (lease : ResourceLease) : result ValueError bool * S :=
  store_release_resources s lease.

Definition begin_group_transition (s : S) (ts : list (string * (DesiredState + string)))
    (now : time) (reason : string) : result ValueError TransitionGroupAttempt * S :=
  store_begin_group s ts (controller_owner c) now (transition_ttl_seconds c) reason.

Definition renew_transition (s : S) (lease : BundleTransitionLease) (now : time)
    (ttl : option time) : bool * S :=
  store_renew s lease now (ttl_or_default ttl).

Definition renew_group_transition (s : S) (lease : BundleTransitionGroupLease) (now : time)
    (ttl : option time) : bool * S :=
  store_renew_group s lease now (ttl_or_default ttl).

Definition finish_transition (s : S) (lease : BundleTransitionLease) (success : bool)
    (now : time) (reason : string) (error : option string) : bool * S :=
  store_finish s lease success now reason error.

Definition finish_group_transition (s : S) (lease : BundleTransitionGroupLease)
    (success : bool) (now : time) (reason : string) (error : option string) : bool * S :=
  store_finish_group s lease success now reason error.

Definition record_recovery_state (s : S) (name : string) (recovery : RecoveryState)
    (d : DesiredState) (now : time) (reason : string) : bool * S :=
  store_record_recovery s name d recovery now reason.

Definition snapshot (clock : time) (s : S) (name : string) : BundleLifecycleRecord :=
  store_get clock s name.
End Operations.

(** ** The keepalive task *)

(** [transition_lease] or [group_lease], whichever the task was given. *)
Inductive FenceLease :=
  | OnTransition (l : BundleTransitionLease)
  | OnGroup (ls : BundleTransitionGroupLease)
  | NoFence.

(** Where the task is: in [wait_for(stop.wait(), interval)], in its renewal
    call, in its resource renewal call with the first result, or returned. *)
Inductive KeepalivePoint :=
  | Waiting | RenewingFence | RenewingResources (renewed : bool) | Returned_.

Record Keepalive := mkKeepalive { at_point : KeepalivePoint; lost : bool }.

(** [max(0.05, min(ttl_seconds / 3.0, 5.0))], the division rounded down to a
    microsecond. *)
Definition keepalive_interval (ttl : time) : time := Z.max 50000 (Z.min (ttl / 3) (seconds 5)).

(** What other actors do to the store. *)
Inductive ForeignOp :=
  | ForeignStore (op : StoreOp)
  | ForeignAcquire (rs : PyResources) (owner : string) (now ttl : time)
  | ForeignRenew (l : ResourceLease) (now ttl : time)
  | ForeignRelease (l : ResourceLease).

(** One event of a schedule: the keepalive's wait times out; the store call it
    waits for is served at clock [now] ([raises]: the call raises instead); or
    another actor's operation is served. *)
Inductive Event :=
  | Timeout_
  | Served (now : time) (raises : bool)
  | Foreign (op : ForeignOp).

Section Keepalive_.
Context {S : Type} `{!LifecycleStore S} (c : BundleLifecycleController).
Context (fence : FenceLease) (resource_lease : option ResourceLease).

Definition run_foreign (s : S) (op : ForeignOp) : S :=
  match op with
  | ForeignStore op => run_op s op
  | ForeignAcquire rs o now ttl => (store_acquire_resources s rs o now ttl).2
  | ForeignRenew l now ttl => (store_renew_resources s l now ttl).2
  | ForeignRelease l => (store_release_resources s l).2
  end.

Definition renew_fence (s : S) (now ttl : time) : bool * S :=
  match fence with
  | OnTransition l => renew_transition c s l now (Some ttl)
  | OnGroup ls => renew_group_transition c s ls now (Some ttl)
  | NoFence => (true, s)
  end.

(** The end of one round: [if not renewed: lost.set(); return]. *)
Definition end_round (renewed : bool) : Keepalive :=
  if renewed then mkKeepalive Waiting false else mkKeepalive Returned_ true.

(** One event; [stopping] says whether [stop] has been set, in which case a
    waiting task returns instead of starting a round. *)
Definition keepalive_event (ttl : time) (stopping : bool) (st : S * Keepalive) (e : Event)
    : S * Keepalive :=
  let '(s, k) := st in
  match e with
  | Foreign op => (run_foreign s op, k)
  | Timeout_ =>
      match at_point k with
      | Waiting => if stopping then st else (s, mkKeepalive RenewingFence (lost k))
      | _ => st
      end
  | Served now raises =>
      match at_point k with
      | RenewingFence =>
          if raises then (s, end_round false)
          else
            let '(renewed, s') := renew_fence s now ttl in
            match resource_lease with
            | None => (s', end_round renewed)
            | Some _ => (s', mkKeepalive (RenewingResources renewed) (lost k))
            end
      | RenewingResources renewed =>
          if raises then (s, end_round false)
          else
            match resource_lease with
            | None => (s, end_round renewed)
            | Some r =>
                let '(ok, s') := renew_resources c s r now (Some ttl) in
                (s', end_round (match ok with Ok b => b && renewed | Err _ => false end))
            end
      | _ => st
      end
  end.

Definition run_events (ttl : time) (stopping : bool) (st : S * Keepalive) (es : list Event)
    : S * Keepalive :=
  fold_left (keepalive_event ttl stopping) es st.

(** [await keepalive] after [stop.set()]: the task has returned, or is
    waiting and returns at once. *)
Definition joined (k : Keepalive) : bool :=
  match at_point k with Waiting | Returned_ => true | _ => false end.
End Keepalive_.

(** ** Running an operation *)

Inductive OperationOutcome :=
  | Returned (success : bool)
  | Raised (text : string)
  | Cancelled.

(** How one run is scheduled: clock readings, the events before the operation
    ends, the events until the keepalive has been joined. *)
Record Schedule := mkSchedule {
  begin_at : time;
  during : list Event;
  outcome : OperationOutcome;
  except_finish_at : time;
  settling : list Event;
  finish_at : time }.

(** What the caller sees; the result value is seen as its truth. *)
Inductive RunResult :=
  | NotAcquired (reason : string)
  | Ran (success : bool) (reason : string)
  | Reraised.

Definition attempt_reason_or (reason : string) : string := py_or reason "transition_in_progress".

Section Run.
Context {S : Type} `{!LifecycleStore S} (c : BundleLifecycleController).

(** The body shared by [run_transition] and [run_group_transition] once
    their lease is acquired.  [None]: the keepalive has not been joined when
    the schedule ends. *)
Definition run_leased (fence : FenceLease)
    (finish : S -> bool -> time -> option string -> bool * S)
    (cancelled_error failed_error : string)
    (resource_lease : option ResourceLease) (sched : Schedule) (s : S)
    : option (RunResult * S) :=
  let ttl := transition_ttl_seconds c in
  let st1 := run_events c fence resource_lease ttl false (s, mkKeepalive Waiting false)
               (during sched) in
  let after_except error := (finish st1.1 false (except_finish_at sched) error).2 in
  let settle s' := run_events c fence resource_lease ttl true (s', st1.2) (settling sched) in
  match outcome sched with
  | Cancelled =>
      let st2 := settle (after_except (Some cancelled_error)) in
      if joined st2.2 then Some (Reraised, st2.1) else None
  | Raised text =>
      let st2 := settle (after_except (Some text)) in
      if joined st2.2 then Some (Reraised, st2.1) else None
  | Returned success =>
      let st2 := settle st1.1 in
      if negb (joined st2.2) then None
      else if lost st2.2 then
        Some (Ran success "stale_transition",
              (finish st2.1 false (finish_at sched) (Some "bundle lease renewal lost")).2)
      else
        let '(finished, s3) :=
          finish st2.1 success (finish_at sched) (if success then None else Some failed_error) in
        if negb finished then Some (Ran success "stale_transition", s3)
        else Some (Ran success (if success then "completed" else "failed"), s3)
  end.

Definition run_transition (s : S) (name : string) (d : DesiredState) (reason : string)
    (resource_lease : option ResourceLease) (sched : Schedule) : option (RunResult * S) :=
  let '(attempt, s1) := begin_transition c s name d (begin_at sched) reason in
  match acquired attempt, attempt_lease attempt with
  | true, Some l =>
      run_leased (OnTransition l)
        (fun s success now error => finish_transition s l success now reason error)
        "bundle operation cancelled" "bundle operation returned false" resource_lease sched s1
  | _, _ => Some (NotAcquired (attempt_reason_or (attempt_reason attempt)), s1)
  end.

(** [Err] is the [ValueError] of [_normalize_group_transitions]. *)
Definition run_group_transition (s : S) (ts : list (string * (DesiredState + string)))
    (reason : string) (resource_lease : option ResourceLease) (sched : Schedule)
    : result ValueError (option (RunResult * S)) :=
  let '(r, s1) := begin_group_transition c s ts (begin_at sched) reason in
  attempt ← r;
  mret match group_acquired attempt, group_lease attempt with
       | true, Some ls =>
           run_leased (OnGroup ls)
             (fun s success now error => finish_group_transition s ls success now reason error)
             "bundle transition group cancelled" "bundle transition group returned false"
             resource_lease sched s1
       | _, _ => Some (NotAcquired (attempt_reason_or (group_reason attempt)), s1)
       end.
End Run.

(** ** What a run preserves *)

(** Resource operations leave every bundle's cell alone. *)
Class ResourceTransparent (S : Type) `{FencedStore S} := {
  acquire_resources_cells s rs o now ttl :
    store_wf s -> let s' := (store_acquire_resources s rs o now ttl).2 in
    store_wf s' /\ forall n, cell_of s' n = cell_of s n;
  renew_resources_cells s l now ttl :
    store_wf s -> let s' := (store_renew_resources s l now ttl).2 in
    store_wf s' /\ forall n, cell_of s' n = cell_of s n;
  release_resources_cells s l :
    store_wf s -> let s' := (store_release_resources s l).2 in
    store_wf s' /\ forall n, cell_of s' n = cell_of s n }.

Definition valid_event (e : Event) : bool :=
  match e with Foreign (ForeignStore op) => valid_op op | _ => true end.

Definition valid_fence (f : FenceLease) : bool :=
  match f with
  | OnTransition l => str_truthy (lease_owner l)
  | OnGroup ls => one_owner ls
  | NoFence => true
  end.

Section RunProofs.
Context {S : Type} `{HR : ResourceTransparent S} (c : BundleLifecycleController).
Context (Howner : str_truthy (controller_owner c) = true).
Context (resource_lease : option ResourceLease).
Implicit Types (s : S) (k : Keepalive) (f : FenceLease).

(** [s'] is well formed and no bundle's fence is lower in it than in [s]. *)
Definition advances s s' : Prop :=
  store_wf s' /\ forall n, c_fence (cell_of s n) <= c_fence (cell_of s' n).

Lemma advances_refl s : store_wf s -> advances s s.
Proof. split; [done|]. intros n. lia. Qed.

Lemma advances_trans s1 s2 s3 : advances s1 s2 -> advances s2 s3 -> advances s1 s3.
Proof. intros [_ H1] [Hwf H2]. split; [done|]. intros n. specialize (H1 n). specialize (H2 n). lia. Qed.

Lemma advances_same s s' : store_wf s' -> (forall n, cell_of s' n = cell_of s n) -> advances s s'.
Proof. intros Hwf Heq. split; [done|]. intros n. rewrite Heq. lia. Qed.

Lemma advances_op s op : store_wf s -> valid_op op = true -> advances s (run_op s op).
Proof.
  intros Hwf Hv. destruct (run_op_cells s op Hwf Hv) as [Hwf' Hc]. split; [done|].
  intros n. by eapply cell_step_fence.
Qed.

Lemma renew_fence_advances f s now ttl :
  store_wf s -> valid_fence f = true -> advances s (renew_fence c f s now ttl).2.
Proof.
  intros Hwf Hf. destruct f as [l|ls|]; [| |by apply advances_refl].
  - by apply (advances_op s (OpRenew l now ttl)).
  - by apply (advances_op s (OpRenewGroup ls now ttl)).
Qed.

Lemma event_advances f ttl stopping s k e :
  store_wf s -> valid_fence f = true -> valid_event e = true ->
  advances s (keepalive_event c f resource_lease ttl stopping (s, k) e).1.
Proof.
  intros Hwf Hf He. pose proof (advances_refl s Hwf) as Hrefl.
  destruct e as [|now raises|op]; simpl.
  - by destruct (at_point k), stopping.
  - destruct (at_point k); try done; destruct raises; try done.
    + pose proof (renew_fence_advances f s now ttl Hwf Hf) as Hx.
      destruct (renew_fence _ _ _ _ _). by destruct resource_lease.
    + destruct resource_lease as [r|]; [|done]. unfold renew_resources. simpl.
      pose proof (renew_resources_cells s r now ttl Hwf) as Hx.
      destruct (store_renew_resources _ _ _ _). destruct Hx. by apply advances_same.
  - destruct op as [op|rs o now ttl'|l now ttl'|l]; simpl.
    + by apply advances_op.
    + apply advances_same; by apply acquire_resources_cells.
    + apply advances_same; by apply renew_resources_cells.
    + apply advances_same; by apply release_resources_cells.
Qed.

#[local] Arguments keepalive_event : simpl never.

Lemma events_advance f ttl stopping s k es :
  store_wf s -> valid_fence f = true -> Forall (fun e => valid_event e = true) es ->
  advances s (run_events c f resource_lease ttl stopping (s, k) es).1.
Proof.
  intros Hwf Hf Hes. revert s k Hwf. induction Hes as [|e es He _ IH]; intros s k Hwf.
  { by apply advances_refl. }
  pose proof (event_advances f ttl stopping s k e Hwf Hf He) as Hx. simpl.
  destruct (keepalive_event _ _ _ _ _ _ _) as [s' k']. eapply advances_trans; [exact Hx|].
  apply IH, Hx.
Qed.

(** A granted foreign begin in a schedule moves the bundle's fence. *)
Lemma granted_begin_moves_fence f ttl stopping s k es1 es2 name d o now' ttl' why :
  store_wf s -> valid_fence f = true ->
  Forall (fun e => valid_event e = true)
    (es1 ++ Foreign (ForeignStore (OpBegin name d o now' ttl' why)) :: es2) ->
  acquired (store_begin (run_events c f resource_lease ttl stopping (s, k) es1).1
              name d o now' ttl' why).1 = true ->
  c_fence (cell_of s name) + 1 <=
  c_fence (cell_of (run_events c f resource_lease ttl stopping (s, k)
    (es1 ++ Foreign (ForeignStore (OpBegin name d o now' ttl' why)) :: es2)).1 name).
Proof.
  intros Hwf Hf [H1 [Hv H2]%Forall_cons]%Forall_app Ha. simpl in Hv.
  destruct (events_advance f ttl stopping s k es1 Hwf Hf H1) as [Hwf1 Hle1].
  unfold run_events in *. rewrite fold_left_app. simpl.
  destruct (fold_left _ es1 (s, k)) as [s1 k1]. simpl in *.
  change (keepalive_event c f resource_lease ttl stopping (s1, k1)
    (Foreign (ForeignStore (OpBegin name d o now' ttl' why))))
    with ((store_begin s1 name d o now' ttl' why).2, k1).
  pose proof (begin_refines s1 name d o now' ttl' why Hwf1 Hv) as Hb.
  destruct (store_begin s1 _ _ _ _ _ _) as [att s2]. simpl in *.
  destruct Hb as (Hwf2 & Hs & Hacq & _). rewrite Ha in Hacq. symmetry in Hacq.
  apply bool_decide_eq_true in Hacq as [cell Hc]. rewrite Hc in Hs. simpl in Hs.
  destruct (events_advance f ttl stopping s2 k1 es2 Hwf2 Hf H2) as [_ Hle2].
  specialize (Hle2 name). rewrite (Hs name), decide_True in Hle2 by done.
  unfold Spec.begin in Hc. case_match; simplify_eq. simpl in Hle2.
  specialize (Hle1 name). unfold run_events in Hle2. lia.
Qed.

(** What [begin_transition] leaves when it is granted. *)
Lemma run_begins s name d now reason l :
  store_wf s -> attempt_lease (begin_transition c s name d now reason).1 = Some l ->
  let s1 := (begin_transition c s name d now reason).2 in
  store_wf s1 /\ valid_fence (OnTransition l) = true /\ lease_bundle_name l = name /\
  lease_owner l = controller_owner c /\
  lease_generation_fence l = c_fence (cell_of s name) + 1 /\
  cell_of s1 name = mkCell (lease_generation_fence l) (lease_transition_id l)
    (controller_owner c) (now + transition_ttl_seconds c) RECOVERING d.
Proof.
  intros Hwf Hl. unfold begin_transition in *.
  destruct (store_begin _ _ _ _ _ _ _) as [att s1] eqn:Hb. simpl in *.
  destruct (begin_acquired _ _ _ _ _ _ _ _ _ _ Hwf Howner Hb Hl)
    as (Hwf1 & _ & Hf & Hn & Ho & _ & ->).
  pose proof (begin_refines s name d (controller_owner c) now (transition_ttl_seconds c) reason
    Hwf Howner) as Hx. rewrite Hb in Hx. destruct Hx as (_ & Hs & _ & Hle). rewrite Hl in Hle.
  unfold Spec.begin in *. destruct (Spec.live _ _); [done|]. simpl in *.
  specialize (Hs name). rewrite decide_True in Hs by done. by rewrite !Hs.
Qed.

(** A finish that succeeds was made by the holder and releases the bundle. *)
Lemma finish_holder s l success now reason e :
  store_wf s -> str_truthy (lease_owner l) = true ->
  let '(ok, s') := finish_transition s l success now reason e in
  ok = Spec.holds l now (cell_of s (lease_bundle_name l)) /\ store_wf s' /\
  forall n, cell_of s' n =
    if decide (n = lease_bundle_name l) then
      if ok then Spec.released success (cell_of s n) else cell_of s n
    else cell_of s n.
Proof.
  intros Hwf Ho. pose proof (finish_refines s l success now reason e Hwf Ho) as Hx.
  unfold finish_transition. destruct (store_finish _ _ _ _ _ _) as [ok s'].
  destruct Hx as (Hwf' & -> & Hs). unfold Spec.finish in *.
  destruct (Spec.holds _ _ _); simpl in *; split_and!; try done; intros n; rewrite Hs;
    case_decide; by subst.
Qed.
End RunProofs.

#[local] Arguments keepalive_event : simpl never.

Section RunProperties.
Context {S : Type} `{HR : ResourceTransparent S} (c : BundleLifecycleController).
Context (Howner : str_truthy (controller_owner c) = true).

(** The run that acquired its lease, unfolded. *)
Lemma run_transition_acquired (s : S) name d reason rl sched l :
  attempt_lease (begin_transition c s name d (begin_at sched) reason).1 = Some l ->
  store_wf s ->
  run_transition c s name d reason rl sched =
  run_leased c (OnTransition l)
    (fun s success now error => finish_transition s l success now reason error)
    "bundle operation cancelled" "bundle operation returned false" rl sched
    (begin_transition c s name d (begin_at sched) reason).2.
Proof.
  intros Hl Hwf. unfold run_transition, begin_transition in *.
  pose proof (begin_refines s name d (controller_owner c) (begin_at sched)
    (transition_ttl_seconds c) reason Hwf Howner) as Hx.
  destruct (store_begin _ _ _ _ _ _ _) as [att s1]. destruct Hx as (_ & _ & Ha & Hle).
  simpl in *. rewrite Hl in Hle. rewrite Hl, Ha. by destruct (Spec.begin _ _ _ _ _).
Qed.

Lemma run_not_acquired (s : S) name d reason rl sched :
  attempt_lease (begin_transition c s name d (begin_at sched) reason).1 = None ->
  exists why, run_transition c s name d reason rl sched
    = Some (NotAcquired why, (begin_transition c s name d (begin_at sched) reason).2).
Proof.
  unfold run_transition. destruct (begin_transition _ _ _ _ _ _) as [att s1]. simpl.
  intros ->. destruct (acquired att); eauto.
Qed.

(** A run reported as completed or failed finished as the holder of its
    lease. *)
Lemma run_finished (s : S) name d reason rl sched success why s' :
  store_wf s -> Forall (fun e => valid_event e = true) (during sched ++ settling sched) ->
  run_transition c s name d reason rl sched = Some (Ran success why, s') ->
  why <> "stale_transition" ->
  exists l, let s1 := (begin_transition c s name d (begin_at sched) reason).2 in
    let run b st es := run_events c (OnTransition l) rl (transition_ttl_seconds c) b st es in
    let st1 := run false (s1, mkKeepalive Waiting false) (during sched) in
    let st2 := run true st1 (settling sched) in
    attempt_lease (begin_transition c s name d (begin_at sched) reason).1 = Some l /\
    outcome sched = Returned success /\ lost st2.2 = false /\
    why = (if success then "completed" else "failed") /\
    lease_generation_fence l = c_fence (cell_of s name) + 1 /\
    Spec.holds l (finish_at sched) (cell_of st2.1 name) = true /\
    cell_of s' name = Spec.released success (cell_of st2.1 name).
Proof.
  intros Hwf Hev Hrun Hwhy.
  destruct (attempt_lease (begin_transition c s name d (begin_at sched) reason).1) as [l|] eqn:Hl.
  2:{ destruct (run_not_acquired s name d reason rl sched Hl) as [w Hw]. congruence. }
  rewrite (run_transition_acquired _ _ _ _ _ _ l) in Hrun by done.
  destruct (run_begins c Howner s name d (begin_at sched) reason l Hwf Hl)
    as (Hwf1 & Hf & Hn & Ho & Hfence & Hc1).
  exists l. unfold run_leased in Hrun. simpl in *.
  apply Forall_app in Hev as [Hev1 Hev2].
  set (st1 := run_events c (OnTransition l) rl _ false _ _) in *.
  pose proof (events_advance c rl (OnTransition l) (transition_ttl_seconds c) false _
    (mkKeepalive Waiting false) (during sched) Hwf1 Hf Hev1) as [Hwf2 _]. fold st1 in Hwf2.
  pose proof (events_advance c rl (OnTransition l) (transition_ttl_seconds c) true st1.1 st1.2
    (settling sched) Hwf2 Hf Hev2) as [Hwf3 _].
  destruct (outcome sched) as [b|text|]; [|by case_match|by case_match].
  rewrite <- surjective_pairing in Hrun, Hwf3.
  set (st2 := run_events c (OnTransition l) rl _ true st1 _) in *.
  destruct (joined st2.2); [|done]. simpl in Hrun.
  destruct (lost st2.2) eqn:Hlost; [congruence|].
  pose proof (finish_holder st2.1 l b (finish_at sched) reason
    (if b then None else Some "bundle operation returned false") Hwf3 Hf) as Hx.
  destruct (finish_transition _ _ _ _ _ _) as [ok s3]. destruct Hx as (Hok & _ & Hs).
  destruct ok; simpl in Hrun; [|congruence]. injection Hrun as <- <- <-.
  specialize (Hs name). rewrite Hn, decide_True in Hs by done.
  rewrite Hn in Hok. split_and!; try done.
Qed.

(** The fence of the bundle when a run finishes as holder. *)
Lemma holder_fence l now cell : Spec.holds l now cell = true ->
  c_fence cell = lease_generation_fence l.
Proof. intros Hx%holds_spec. tauto. Qed.
End RunProperties.

(** ** The in-memory store under the controller *)

Lemma mem_cell_records s s' n : _records s' = _records s -> mem_cell s' n = mem_cell s n.
Proof. unfold mem_cell, current_record. by intros ->. Qed.

Lemma mem_resources_records s :
  (forall rs o now ttl, _records (mem_acquire_resources s rs o now ttl).2 = _records s) /\
  (forall l now ttl, _records (mem_renew_resources s l now ttl).2 = _records s) /\
  (forall l, _records (mem_release_resources s l).2 = _records s).
Proof.
  unfold mem_acquire_resources, mem_renew_resources, mem_release_resources.
  split_and!; intros; repeat (case_match; simplify_eq/=; try done).
Qed.

Lemma same_records_keep_cells (s s' : MemoryStore) :
  _records s' = _records s -> mem_wf s -> mem_wf s' /\ forall n, mem_cell s' n = mem_cell s n.
Proof.
  intros Heq Hwf. split; [|intros n; by apply mem_cell_records]. unfold mem_wf. by rewrite Heq.
Qed.

#[export] Instance MemoryStore_transparent : ResourceTransparent MemoryStore.
Proof.
  split; intros s; intros; destruct (mem_resources_records s) as (H1 & H2 & H3);
    (apply same_records_keep_cells; [|done]); [apply H1|apply H2|apply H3].
Defined.

(** A controller, a schedule in which the keepalive renews once while another
    actor tries to begin, and the same operation cancelled. *)
Definition sample_controller : BundleLifecycleController :=
  make_controller (Some "w1") "generated" (seconds 6).

Definition sample_events : list Event :=
  [Timeout_; Served (seconds 4) false;
   Foreign (ForeignStore (OpBegin "chat" IDLE "w2" (seconds 5) (seconds 6) "steal"))].

Definition sample_schedule (o : OperationOutcome) : Schedule :=
  mkSchedule 0 sample_events o (seconds 5) [] (seconds 8).

(** A schedule whose keepalive is starved until the lease has been taken. *)
Definition starved_schedule : Schedule :=
  mkSchedule 0 [Foreign (ForeignStore (OpBegin "chat" IDLE "w2" (seconds 7) (seconds 6) "steal"))]
    (Returned true) (seconds 8) [] (seconds 8).

(** C15. A run that reports "completed" (or "failed") was alone.  Its bundle
    ends released, at the run's own fence (one above the fence before), READY
    exactly when the operation succeeded, and every begin another actor made
    on the bundle while the operation ran was refused, however the keepalive
    and the other actors were scheduled. *)
Theorem completed_run_was_alone {S} `{HR : ResourceTransparent S} c (s : S) name d reason rl sched
    success why s' :
  store_wf s -> str_truthy (controller_owner c) = true ->
  Forall (fun e => valid_event e = true) (during sched ++ settling sched) ->
  run_transition c s name d reason rl sched = Some (Ran success why, s') ->
  why <> "stale_transition" ->
  c_owner (cell_of s' name) = "" /\
  c_phase (cell_of s' name) = (if success then READY else CRASHED) /\
  c_fence (cell_of s' name) = c_fence (cell_of s name) + 1 /\
  exists l, attempt_lease (begin_transition c s name d (begin_at sched) reason).1 = Some l /\
    forall es1 es2 d2 o2 t2 ttl2 w2,
      during sched = es1 ++ Foreign (ForeignStore (OpBegin name d2 o2 t2 ttl2 w2)) :: es2 ->
      let s1 := (begin_transition c s name d (begin_at sched) reason).2 in
      let st := run_events c (OnTransition l) rl (transition_ttl_seconds c) false
                  (s1, mkKeepalive Waiting false) es1 in
      acquired (store_begin st.1 name d2 o2 t2 ttl2 w2).1 = false.
Proof.
  intros Hwf Ho Hev Hrun Hwhy.
  destruct (run_finished c Ho s name d reason rl sched success why s' Hwf Hev Hrun Hwhy)
    as (l & Hl & _ & _ & _ & Hfence & Hh & Hs').
  apply holder_fence in Hh. rewrite Hs'. simpl. split_and!; [done|done|congruence|].
  exists l. split; [done|]. intros es1 es2 d2 o2 t2 ttl2 w2 Hdur. apply not_true_is_false.
  intros Ha. destruct (run_begins c Ho s name d (begin_at sched) reason l Hwf Hl)
    as (Hwf1 & Hf & _ & _ & _ & Hc1).
  apply Forall_app in Hev as [Hev1 Hev2]. pose proof Hev1 as Hev1'. rewrite Hdur in Hev1.
  pose proof (granted_begin_moves_fence c rl _ _ _ _ _ es1 es2 name d2 o2 t2 ttl2 w2
    Hwf1 Hf Hev1 Ha) as Hm. rewrite Hc1 in Hm. rewrite <- Hdur in Hm. simpl in Hm.
  pose proof (events_advance c rl (OnTransition l) (transition_ttl_seconds c) false _
    (mkKeepalive Waiting false) (during sched) Hwf1 Hf Hev1') as [Hwf2 _].
  pose proof (events_advance c rl (OnTransition l) (transition_ttl_seconds c) true _
    (run_events c (OnTransition l) rl (transition_ttl_seconds c) false
       ((begin_transition c s name d (begin_at sched) reason).2, mkKeepalive Waiting false)
       (during sched)).2
    (settling sched) Hwf2 Hf Hev2) as [_ Hm2].
  specialize (Hm2 name). rewrite <- surjective_pairing in Hm2. lia.
Qed.

Lemma completed_run_was_alone_witness :
  exists s', run_transition sample_controller empty_store "chat" RUNNING "up" None
               (sample_schedule (Returned true)) = Some (Ran true "completed", s') /\
             c_phase (mem_cell s' "chat") = READY.
Proof.
  eexists. split; [vm_compute; reflexivity|].
  refine (proj1 (proj2 (completed_run_was_alone (S := MemoryStore) sample_controller empty_store
    "chat" RUNNING "up" None (sample_schedule (Returned true)) true "completed" _ _ _ _ _ _))).
  - apply empty_store_wf.
  - reflexivity.
  - repeat constructor.
  - vm_compute. reflexivity.
  - discriminate.
Defined.

(** A run that was fenced out publishes nothing.  When another actor's
    begin on the bundle is granted while the operation runs, a run that
    returns reports "stale_transition" and its finish leaves every bundle as
    it found it; the finish of a run that raises or is cancelled also leaves
    every bundle as it found it. *)
Theorem fenced_out_run_is_stale {S} `{HR : ResourceTransparent S} c (s : S) name d reason rl sched
    l es1 es2 d2 o2 t2 ttl2 w2 r s' :
  let s1 := (begin_transition c s name d (begin_at sched) reason).2 in
  let run b st es := run_events c (OnTransition l) rl (transition_ttl_seconds c) b st es in
  let st1 := run false (s1, mkKeepalive Waiting false) (during sched) in
  let st2 := run true st1 (settling sched) in
  store_wf s -> str_truthy (controller_owner c) = true ->
  Forall (fun e => valid_event e = true) (during sched ++ settling sched) ->
  attempt_lease (begin_transition c s name d (begin_at sched) reason).1 = Some l ->
  during sched = es1 ++ Foreign (ForeignStore (OpBegin name d2 o2 t2 ttl2 w2)) :: es2 ->
  acquired (store_begin (run false (s1, mkKeepalive Waiting false) es1).1
              name d2 o2 t2 ttl2 w2).1 = true ->
  run_transition c s name d reason rl sched = Some (r, s') ->
  match outcome sched with
  | Returned success =>
      r = Ran success "stale_transition" /\ forall n, cell_of s' n = cell_of st2.1 n
  | _ =>
      r = Reraised /\
      forall now e n, cell_of (finish_transition st1.1 l false now reason e).2 n = cell_of st1.1 n
  end.
Proof.
  intros s1 run st1 st2 Hwf Ho Hev Hl Hdur Ha Hrun.
  destruct (run_begins c Ho s name d (begin_at sched) reason l Hwf Hl)
    as (Hwf1 & Hf & Hn & _ & _ & Hc1). fold s1 in Hwf1, Hc1.
  rewrite (run_transition_acquired c Ho _ _ _ _ _ _ l) in Hrun by done.
  apply Forall_app in Hev as [Hev1 Hev2].
  pose proof (events_advance c rl (OnTransition l) (transition_ttl_seconds c) false s1
    (mkKeepalive Waiting false) (during sched) Hwf1 Hf Hev1) as [Hwf2 _].
  assert (lease_generation_fence l < c_fence (cell_of st1.1 (lease_bundle_name l))) as Hlt1.
  { rewrite Hdur in Hev1. pose proof (granted_begin_moves_fence c rl _ _ _ _ _ es1 es2 name d2 o2
      t2 ttl2 w2 Hwf1 Hf Hev1 Ha) as Hm. rewrite <- Hdur, Hc1 in Hm. simpl in Hm.
    unfold st1, run. rewrite Hn. lia. }
  pose proof (events_advance c rl (OnTransition l) (transition_ttl_seconds c) true st1.1 st1.2
    (settling sched) Hwf2 Hf Hev2) as [Hwf3 Hm2].
  rewrite <- surjective_pairing in Hwf3, Hm2. fold (run true st1 (settling sched)) in Hwf3, Hm2.
  fold st2 in Hwf3, Hm2. specialize (Hm2 (lease_bundle_name l)).
  unfold run_leased in Hrun. fold s1 in Hrun. fold (run false (s1, mkKeepalive Waiting false)
    (during sched)) in Hrun. fold st1 in Hrun.
  destruct (outcome sched) as [success|text|].
  - rewrite <- surjective_pairing in Hrun. fold (run true st1 (settling sched)) in Hrun.
    fold st2 in Hrun. destruct (joined st2.2); [|done]. simpl in Hrun.
    assert (forall b now e, (finish_transition st2.1 l b now reason e).1 = false /\
      forall n, cell_of (finish_transition st2.1 l b now reason e).2 n = cell_of st2.1 n) as Hfin.
    { intros b now e. apply (behind_is_refused st2.1 l now 0 b reason e); [done|done|lia]. }
    destruct (lost st2.2).
    + injection Hrun as <- <-. split; [done|]. apply Hfin.
    + specialize (Hfin success (finish_at sched)
        (if success then None else Some "bundle operation returned false")).
      destruct (finish_transition st2.1 l _ _ _ _) as [ok s3]. simpl in Hfin.
      destruct Hfin as [-> Hfin]. injection Hrun as <- <-. done.
  - case_match; [|done]. injection Hrun as <- _. split; [done|]. intros now e n.
    by apply (behind_is_refused st1.1 l now 0 false reason e).
  - case_match; [|done]. injection Hrun as <- _. split; [done|]. intros now e n.
    by apply (behind_is_refused st1.1 l now 0 false reason e).
Qed.

Lemma fenced_out_run_is_stale_witness :
  exists l r, attempt_lease (begin_transition sample_controller empty_store "chat" RUNNING 0 "up").1
                = Some l /\ r = Ran true "stale_transition".
Proof.
  do 2 eexists. split; [vm_compute; reflexivity|].
  refine (proj1 (fenced_out_run_is_stale (S := MemoryStore) sample_controller empty_store "chat"
    RUNNING "up" None starved_schedule _ [] [] IDLE "w2" (seconds 7) (seconds 6) "steal" _ _
    _ _ _ _ _ _ _)).
  - apply empty_store_wf.
  - reflexivity.
  - repeat constructor.
  - vm_compute. reflexivity.
  - reflexivity.
  - vm_compute. reflexivity.
  - vm_compute. reflexivity.
Defined.

(** A run that raises or is cancelled does not block its bundle.  If it
    still holds its lease when it reports the failure, the bundle is left
    CRASHED and released, and the next begin by anyone is granted at once. *)
Theorem failed_run_frees_bundle {S} `{HR : ResourceTransparent S} c (s : S) name d reason rl sched
    l text :
  let s1 := (begin_transition c s name d (begin_at sched) reason).2 in
  let st1 := run_events c (OnTransition l) rl (transition_ttl_seconds c) false
               (s1, mkKeepalive Waiting false) (during sched) in
  store_wf s -> str_truthy (controller_owner c) = true ->
  Forall (fun e => valid_event e = true) (during sched) ->
  attempt_lease (begin_transition c s name d (begin_at sched) reason).1 = Some l ->
  outcome sched = Cancelled \/ outcome sched = Raised text ->
  settling sched = [] -> joined st1.2 = true ->
  Spec.holds l (except_finish_at sched) (cell_of st1.1 name) = true ->
  exists s', run_transition c s name d reason rl sched = Some (Reraised, s') /\
    cell_of s' name = Spec.released false (cell_of st1.1 name) /\
    forall d' o now ttl why, str_truthy o = true ->
      acquired (store_begin s' name d' o now ttl why).1 = true.
Proof.
  intros s1 st1 Hwf Ho Hev Hl Hout Hset Hjoin Hh.
  destruct (run_begins c Ho s name d (begin_at sched) reason l Hwf Hl)
    as (Hwf1 & Hf & Hn & _ & _ & _). fold s1 in Hwf1.
  rewrite (run_transition_acquired c Ho _ _ _ _ _ _ l) by done.
  pose proof (events_advance c rl (OnTransition l) (transition_ttl_seconds c) false s1
    (mkKeepalive Waiting false) (during sched) Hwf1 Hf Hev) as [Hwf2 _]. fold st1 in Hwf2.
  assert (forall e, let s' := (finish_transition st1.1 l false (except_finish_at sched) reason e).2 in
    cell_of s' name = Spec.released false (cell_of st1.1 name) /\
    forall d' o now ttl why, str_truthy o = true ->
      acquired (store_begin s' name d' o now ttl why).1 = true) as Hfin.
  { intros e. pose proof (finish_holder st1.1 l false (except_finish_at sched) reason e Hwf2 Hf)
      as Hx. destruct (finish_transition _ _ _ _ _ _) as [ok s']. destruct Hx as (Hok & Hwf' & Hs).
    rewrite Hn, Hh in Hok. subst ok. specialize (Hs name). rewrite Hn, decide_True in Hs by done.
    split; [done|]. intros d' o now ttl why Ho'.
    pose proof (begin_refines s' name d' o now ttl why Hwf' Ho') as Hb. simpl.
    destruct (store_begin s' _ _ _ _ _ _) as [att s'']. destruct Hb as (_ & _ & Hb & _).
    simpl. rewrite Hb, Hs. done. }
  unfold run_leased. fold s1. fold st1. rewrite Hset.
  destruct Hout as [->| ->]; simpl; rewrite Hjoin; eauto.
Qed.

Lemma failed_run_frees_bundle_witness :
  exists s', run_transition sample_controller empty_store "chat" RUNNING "up" None
               (sample_schedule Cancelled) = Some (Reraised, s').
Proof.
  destruct (failed_run_frees_bundle (S := MemoryStore) sample_controller empty_store "chat"
    RUNNING "up" None (sample_schedule Cancelled)
    (lease_of "chat" (mkCell 1 1 "w1" (seconds 6) RECOVERING RUNNING)) "") as (s' & H & _).
  - apply empty_store_wf.
  - reflexivity.
  - repeat constructor.
  - vm_compute. reflexivity.
  - left. reflexivity.
  - reflexivity.
  - vm_compute. reflexivity.
  - vm_compute. reflexivity.
  - exists s'. exact H.
Defined.

(** The keepalive can always be joined: once [stop] is set, serving its
    outstanding store calls (two at most) ends it, whether they succeed, fail
    or raise. *)
Theorem keepalive_joins {S} `{!LifecycleStore S} c f rl ttl (s : S) k now1 r1 now2 r2 :
  joined (run_events c f rl ttl true (s, k) [Served now1 r1; Served now2 r2]).2 = true /\
  forall es, joined k = true -> joined (run_events c f rl ttl true (s, k) es).2 = true /\
    lost (run_events c f rl ttl true (s, k) es).2 = lost k.
Proof.
  split.
  - unfold run_events. simpl. unfold keepalive_event, end_round, joined.
    destruct k as [[| |b|] lo]; simpl; [done| | |done]; repeat (case_match; simplify_eq/=; try done).
  - intros es. revert s k. induction es as [|e es IH]; intros s k Hj; [done|].
    unfold run_events in *. simpl.
    destruct (keepalive_event c f rl ttl true (s, k) e) as [s' k'] eqn:He.
    assert (k' = k) as ->; [|by apply IH].
    unfold keepalive_event, joined in *. destruct e, (at_point k); simpl in *; congruence.
Qed.

Lemma keepalive_joins_witness :
  joined (mkKeepalive Waiting false) = true /\
  lost (run_events sample_controller NoFence None (seconds 6) true
          (empty_store, mkKeepalive Waiting false) sample_events).2 = false.
Proof.
  split; [reflexivity|].
  refine (proj2 (proj2 (keepalive_joins sample_controller NoFence None (seconds 6) empty_store
    (mkKeepalive Waiting false) 0 false 0 false) sample_events _)).
  reflexivity.
Defined.

(** *** Group runs *)

Section GroupProofs.
Context {S : Type} `{HR : ResourceTransparent S} (c : BundleLifecycleController).
Context (Howner : str_truthy (controller_owner c) = true).

Lemma group_begins (s : S) ts now reason g ls s1 :
  store_wf s -> begin_group_transition c s ts now reason = (Ok g, s1) ->
  group_lease g = Some ls ->
  store_wf s1 /\ valid_fence (OnGroup ls) = true /\ group_acquired g = true /\
  Forall (fun l => lease_owner l = controller_owner c) ls /\ ls <> [] /\
  exists items, _normalize_group_transitions ts = Ok items /\
    lease_bundle_name <$> ls = items.*1 /\
    forall l, l ∈ ls -> lease_generation_fence l = c_fence (cell_of s (lease_bundle_name l)) + 1 /\
                        c_fence (cell_of s1 (lease_bundle_name l)) = lease_generation_fence l.
Proof.
  intros Hwf Hb Hls. unfold begin_group_transition in Hb.
  pose proof (begin_group_refines s ts (controller_owner c) now (transition_ttl_seconds c) reason
    Hwf Howner) as Hx. rewrite Hb in Hx. destruct Hx as [Hwf1 Hx].
  destruct (_normalize_group_transitions ts) as [items|e] eqn:Hts; [|by destruct Hx].
  destruct (forallb _ items && _) eqn:Hall; destruct Hx as [(g' & [= <-] & Hg & Hlease) Hc];
    [|congruence].
  rewrite Hls in Hlease. injection Hlease as ->. apply normalize_items_NoDup in Hts as Hnd.
  apply andb_true_iff in Hall as [_ Hne]. apply negb_true_iff, bool_decide_eq_false in Hne.
  assert (forall i, i ∈ items -> cell_of s1 i.1 = mkCell (c_fence (cell_of s i.1) + 1)
    (c_transition (cell_of s i.1) + 1) (controller_owner c) (now + transition_ttl_seconds c)
    RECOVERING i.2) as Hi.
  { intros [n d] Hin. rewrite Hc. unfold group_begun. by rewrite (elem_of_list_to_map_1 _ n d). }
  assert (Forall (fun l => lease_owner l = controller_owner c)
    ((fun i => lease_of i.1 (cell_of s1 i.1)) <$> items)) as Hown.
  { apply Forall_fmap, Forall_forall. intros i Hin. exact (f_equal c_owner (Hi i Hin)). }
  split_and!; [done| |done|done|by destruct items|].
  - simpl. destruct items as [|i items]; [done|]. csimpl in *.
    apply Forall_cons in Hown as [Ho1 Ho2]. unfold one_owner. simpl in *.
    rewrite Ho1, Howner. simpl. apply forallb_true_Forall. eapply Forall_impl; [exact Ho2|].
    intros l Hl. by apply String.eqb_eq.
  - exists items. split_and!; [done|by rewrite <- list_fmap_compose|].
    intros l (i & -> & Hin)%list_elem_of_fmap. split.
    + exact (f_equal c_fence (Hi i Hin)).
    + done.
Qed.

(** A group finish that succeeds was made by the holder of every member. *)
Lemma group_finish_holder (s : S) ls success now reason e s' :
  store_wf s -> Forall (fun l => lease_owner l = controller_owner c) ls -> ls <> [] ->
  finish_group_transition s ls success now reason e = (true, s') ->
  forall l, l ∈ ls ->
    Spec.holds l now (cell_of s (lease_bundle_name l)) = true /\
    cell_of s' (lease_bundle_name l)
      = Spec.released success (cell_of s (lease_bundle_name l)).
Proof.
  intros Hwf Hown Hne Hfin l Hl.
  pose proof (finish_group_refines s ls (controller_owner c) success now reason e Hwf Howner Hne
    Hown) as Hx. unfold finish_group_transition in Hfin. rewrite Hfin in Hx.
  destruct Hx as (_ & Hall & Hs). symmetry in Hall. apply forallb_true_Forall in Hall.
  rewrite Forall_forall in Hall. split; [by apply Hall|].
  rewrite Hs. unfold group_updated. rewrite decide_True; [done|]. set_solver.
Qed.
End GroupProofs.

(** A group run that reports "completed" (or "failed") still held every
    member when it finished: each bundle it names ends released at the fence
    the group took, one above the fence before, so no other begin on any of
    them was granted meanwhile; all are READY, or all CRASHED. *)
Theorem completed_group_run_held_all {S} `{HR : ResourceTransparent S} c (s : S) ts reason rl sched
    success why s' :
  store_wf s -> str_truthy (controller_owner c) = true ->
  Forall (fun e => valid_event e = true) (during sched ++ settling sched) ->
  run_group_transition c s ts reason rl sched = Ok (Some (Ran success why, s')) ->
  why <> "stale_transition" ->
  exists items, _normalize_group_transitions ts = Ok items /\ items <> [] /\
    Forall (fun i => c_owner (cell_of s' i.1) = "" /\
                     c_phase (cell_of s' i.1) = (if success then READY else CRASHED) /\
                     c_fence (cell_of s' i.1) = c_fence (cell_of s i.1) + 1) items.
Proof.
  intros Hwf Ho Hev Hrun Hwhy. unfold run_group_transition in Hrun.
  destruct (begin_group_transition c s ts (begin_at sched) reason) as [[g|e] s1] eqn:Hb; [|done].
  injection Hrun as Hrun. destruct (group_acquired g); [|done].
  destruct (group_lease g) as [ls|] eqn:Hls; [|done].
  destruct (group_begins c Ho s ts (begin_at sched) reason g ls s1 Hwf Hb Hls)
    as (Hwf1 & Hf & _ & Hown & Hne & items & Hts & Hnames & Hfences).
  exists items. split; [done|]. split.
  { intros ->. by destruct ls. }
  apply Forall_app in Hev as [Hev1 Hev2].
  destruct (events_advance c rl (OnGroup ls) (transition_ttl_seconds c) false s1
    (mkKeepalive Waiting false) (during sched) Hwf1 Hf Hev1) as [Hwf2 _].
  unfold run_leased in Hrun. set (st1 := run_events c (OnGroup ls) rl _ false _ _) in *.
  destruct (events_advance c rl (OnGroup ls) (transition_ttl_seconds c) true st1.1 st1.2
    (settling sched) Hwf2 Hf Hev2) as [Hwf3 _].
  destruct (outcome sched) as [b|text|]; [|by case_match|by case_match].
  set (st2 := run_events c (OnGroup ls) rl _ true _ _) in *.
  destruct (joined st2.2); [|done]. simpl in Hrun. destruct (lost st2.2); [congruence|].
  destruct (finish_group_transition _ _ _ _ _ _) as [ok s3] eqn:Hfin.
  destruct ok; simpl in Hrun; [|congruence]. injection Hrun as <- <- <-.
  pose proof (group_finish_holder c Ho st2.1 ls b _ reason _ s3 Hwf3 Hown Hne Hfin) as Hfin'.
  apply Forall_forall. intros i Hin.
  assert (i.1 ∈ lease_bundle_name <$> ls) as (l & Hn & Hl)%list_elem_of_fmap
    by (rewrite Hnames; set_solver).
  destruct (Hfin' l Hl) as [Hh Hs3]. destruct (Hfences l Hl) as [Hf1 _]. rewrite Hn, Hs3.
  apply holds_spec in Hh. simpl. split_and!; [done|done|]. lia.
Qed.

Lemma completed_group_run_held_all_witness :
  exists s', run_group_transition sample_controller empty_store
               [("chat", inl RUNNING); ("asr", inr "idle")] "up" None
               (sample_schedule (Returned true)) = Ok (Some (Ran true "completed", s')) /\
    exists items, _normalize_group_transitions [("chat", inl RUNNING); ("asr", inr "idle")]
                    = Ok items /\ items <> [].
Proof.
  eexists. split; [vm_compute; reflexivity|].
  edestruct (completed_group_run_held_all (S := MemoryStore) sample_controller empty_store
    [("chat", inl RUNNING); ("asr", inr "idle")] "up" None (sample_schedule (Returned true))
    true "completed") as (items & H1 & H2 & _).
  - apply empty_store_wf.
  - reflexivity.
  - repeat constructor.
  - vm_compute. reflexivity.
  - discriminate.
  - exists items. split; [exact H1|exact H2].
Defined.
