(* ===== verification/Graph.v ===== *)
(** * Graph: dependency graphs and Kahn's algorithm

    The loop that [scripts/workflow_contracts.py] (in
    [validate_workflow_definition]) and [scripts/service_pipeline.py] (in
    [_detect_cycle]) both run over their stages, written once over what differs
    between them: which end of the queue is popped, the order in which the
    children of a stage are visited, and the initial in-degrees.  The theorems
    say when the loop removes every node, in terms of cycles of the graph. *)

From S2P Require Import Prelude.

(** ** Acyclicity *)

Section Acyclic.
Context (V : list string) (deps : string -> gset string).

(** [x] depends on [y], both being nodes. *)
Definition depends (x y : string) : Prop := x ∈ V /\ y ∈ V /\ y ∈ deps x.

Definition acyclic : Prop := forall x, ~ tc depends x x.

(** Every node comes after the nodes it depends on. *)
Definition topological (l : list string) : Prop :=
  forall i x, l !! i = Some x ->
  forall y, y ∈ V -> y ∈ deps x -> exists j, (j < i)%nat /\ l !! j = Some y.

Lemma topological_tc l x y :
  topological l -> tc depends x y ->
  forall i, l !! i = Some x -> exists j, (j < i)%nat /\ l !! j = Some y.
Proof.
  intros Ht. induction 1 as [x y (_ & Hy & Hd)|x y z (_ & Hy & Hd) _ IH]; intros i Hi.
  - by apply (Ht i x).
  - destruct (Ht i x Hi y Hy Hd) as (j & Hj & Hly). destruct (IH j Hly) as (k & Hk & Hlz).
    exists k. split; [lia|done].
Qed.

Lemma topological_acyclic l :
  NoDup l -> (forall x, x ∈ V -> x ∈ l) -> topological l -> acyclic.
Proof.
  intros Hnd Hall Ht x Hx.
  assert (forall x y, tc depends x y -> x ∈ V) as Htc.
  { clear. intros x y H. by destruct H as [x y (Hx & _)|x y z (Hx & _) _]. }
  pose proof (Htc _ _ Hx) as HV.
  apply Hall, list_elem_of_lookup in HV as (i & Hi).
  destruct (topological_tc l x x Ht Hx i Hi) as (j & Hj & Hlj).
  pose proof (NoDup_lookup l j i x Hnd Hlj Hi). lia.
Qed.

(** Walking back from a node of a set in which every node has a dependency
    of the set must revisit a node. *)
Lemma stuck_has_cycle (R : list string) x0 :
  x0 ∈ R -> (forall x, x ∈ R -> exists y, y ∈ R /\ depends x y) -> ~ acyclic.
Proof.
  intros Hx0 Hstep Hac.
  assert (exists next : string -> string, forall x, x ∈ R -> next x ∈ R /\ depends x (next x))
    as (next & Hnext).
  { clear Hx0. assert (forall L : list string, (forall x, x ∈ L -> x ∈ R) ->
      exists f : gmap string string, forall x, x ∈ L -> exists y, f !! x = Some y /\ y ∈ R /\ depends x y)
      as Hsel.
    { intros L. induction L as [|x L IH]; intros HL.
      - exists ∅. intros x Hx. by apply not_elem_of_nil in Hx.
      - destruct IH as (f & Hf). { intros y Hy. apply HL. by right. }
        destruct (Hstep x) as (y & Hy & Hd). { apply HL. by left. }
        exists (<[x := y]> f). intros z Hz. destruct (decide (z = x)) as [->|Hne].
        + exists y. by rewrite lookup_insert_eq.
        + rewrite lookup_insert_ne by done. apply Hf. by apply elem_of_cons in Hz as [?|?]. }
    destruct (Hsel R) as (f & Hf); [done|].
    exists (fun x => default "" (f !! x)). intros x Hx.
    destruct (Hf x Hx) as (y & -> & Hy). done. }
  assert (forall i, Nat.iter i next x0 ∈ R) as Hin.
  { intros i. induction i as [|i IH]; simpl; [done|]. by apply Hnext. }
  assert (forall i k, tc depends (Nat.iter i next x0) (Nat.iter (S k + i) next x0)) as Hpath.
  { intros i k. induction k as [|k IH]; simpl.
    - apply tc_once. by apply Hnext.
    - eapply tc_r; [exact IH|]. apply (Hnext (Nat.iter (S k + i) next x0)), Hin. }
  assert (~ NoDup ((fun i => Nat.iter i next x0) <$> seq 0 (S (length R)))) as Hdup.
  { intros Hnd%NoDup_ListNoDup. apply (List.NoDup_incl_length (l' := R)) in Hnd.
    - rewrite length_fmap, length_seq in Hnd. lia.
    - intros y Hy%list_elem_of_In. apply list_elem_of_fmap in Hy as (i & -> & _).
      apply list_elem_of_In, Hin. }
  apply Hdup, NoDup_alt. intros i j y Hi Hj.
  apply list_lookup_fmap_Some in Hi as (i' & -> & [-> _]%lookup_seq).
  apply list_lookup_fmap_Some in Hj as (j' & Heq & [-> _]%lookup_seq).
  simpl in *. destruct (lt_eq_lt_dec i j) as [[Hlt| ->]|Hlt]; [|done|]; exfalso.
  - apply (Hac (Nat.iter i next x0)). rewrite Heq at 2.
    replace j with (S (j - i - 1) + i)%nat by lia. apply Hpath.
  - apply (Hac (Nat.iter j next x0)). rewrite <- Heq at 2.
    replace i with (S (i - j - 1) + j)%nat by lia. apply Hpath.
Qed.
End Acyclic.

(** ** Kahn's algorithm *)

(** Which end of the queue a [pop] takes: [list.pop()] or [list.pop(0)]. *)
Inductive PopEnd := PopLast | PopFirst.

Definition pop_end (p : PopEnd) (q : list string) : option (string * list string) :=
  match p with
  | PopFirst => match q with [] => None | x :: q' => Some (x, q') end
  | PopLast => match rev q with [] => None | x :: q' => Some (x, rev q') end
  end.

Section Kahn.
Context (pop : PopEnd) (children : string -> list string).

(** [indegree[child] -= 1; if indegree[child] == 0: ready.append(child)] *)
Definition relax_child (st : gmap string Z * list string) (child : string)
    : gmap string Z * list string :=
  let '(indegree, ready) := st in
  let d := default 0 (indegree !! child) - 1 in
  (<[child := d]> indegree, if d =? 0 then ready ++ [child] else ready).

(** The [while] loop, with the popped nodes in order; [None]: out of fuel. *)
Fixpoint kahn_loop (fuel : nat) (indegree : gmap string Z) (ready popped : list string)
    : option (list string) :=
  match fuel with
  | O => None
  | S fuel' =>
      match pop_end pop ready with
      | None => Some popped
      | Some (current, rest) =>
          let '(indegree', ready') := fold_left relax_child (children current) (indegree, rest) in
          kahn_loop fuel' indegree' ready' (popped ++ [current])
      end
  end.
End Kahn.

(** The start: a given in-degree per node, the nodes of degree 0 in order. *)
Definition kahn (pop : PopEnd) (children : string -> list string) (nodes : list string)
    (degree : string -> Z) : option (list string) :=
  kahn_loop pop children (S (length nodes))
    (list_to_map ((fun x => (x, degree x)) <$> nodes))
    (List.filter (fun x => degree x =? 0) nodes) [].

Lemma pop_end_some p q x q' : pop_end p q = Some (x, q') -> q ≡ₚ x :: q'.
Proof.
  destruct p; simpl.
  - destruct (rev q) as [|y r] eqn:E; [done|]. intros [= -> <-].
    rewrite <- (rev_involutive q), E. simpl. by rewrite Permutation_app_comm.
  - destruct q; [done|]. by intros [= -> ->].
Qed.

Lemma pop_end_none p q : pop_end p q = None -> q = [].
Proof.
  destruct p; simpl.
  - destruct (rev q) eqn:E; [|done]. intros _. by rewrite <- (rev_involutive q), E.
  - by destruct q.
Qed.

Lemma relax_children cs indegree ready :
  NoDup cs -> (forall c, c ∈ cs -> is_Some (indegree !! c)) ->
  fold_left relax_child cs (indegree, ready) =
    ((fold_left relax_child cs (indegree, ready)).1,
     ready ++ List.filter (fun c => default 0 (indegree !! c) =? 1) cs) /\
  forall x, (fold_left relax_child cs (indegree, ready)).1 !! x =
    if decide (x ∈ cs) then (fun d => d - 1) <$> indegree !! x else indegree !! x.
Proof.
  revert indegree ready. induction cs as [|c cs IH]; intros indegree ready Hnd Hs.
  { simpl. by rewrite app_nil_r. }
  apply NoDup_cons in Hnd as [Hc Hnd]. simpl.
  assert (is_Some (indegree !! c)) as [d Hd] by (apply Hs; set_solver).
  rewrite Hd. simpl.
  edestruct (IH (<[c := d - 1]> indegree) (if d - 1 =? 0 then ready ++ [c] else ready)) as [H1 H2];
    [done| |].
  { intros x Hx. rewrite lookup_insert_ne by set_solver. apply Hs. set_solver. }
  split.
  - rewrite H1 at 1. f_equal.
    replace (List.filter (fun c0 => default 0 (<[c := d - 1]> indegree !! c0) =? 1) cs)
      with (List.filter (fun c0 => default 0 (indegree !! c0) =? 1) cs).
    + replace (d - 1 =? 0) with (d =? 1) by lia. by destruct (d =? 1); rewrite <- ?app_assoc.
    + apply List.filter_ext_in. intros x Hx%list_elem_of_In.
      by rewrite lookup_insert_ne by set_solver.
  - intros x. rewrite H2. destruct (decide (x = c)) as [->|Hne].
    + rewrite decide_False by done. rewrite decide_True by set_solver.
      by rewrite lookup_insert_eq, Hd.
    + rewrite lookup_insert_ne by done. repeat case_decide; set_solver.
Qed.

Section KahnProofs.
Context (pop : PopEnd) (children : string -> list string).
Context (V : list string) (deps : string -> gset string) (degree : string -> Z).
Context (HV : NoDup V).
Context (Hchild_nd : forall x, x ∈ V -> NoDup (children x)).
Context (Hchild : forall x, x ∈ V -> forall y, y ∈ children x <-> y ∈ V /\ x ∈ deps y).
(** The initial degree is at least the number of distinct dependencies. *)
Context (Hdeg : forall x, x ∈ V -> Z.of_nat (size (deps x ∩ list_to_set V)) <= degree x).

Definition removed_deps (popped : list string) (x : string) : Z :=
  Z.of_nat (size (deps x ∩ list_to_set popped)).

Record kahn_inv (indegree : gmap string Z) (ready popped : list string) : Prop := {
  inv_nodup : NoDup (ready ++ popped);
  inv_nodes : forall x, x ∈ ready ++ popped -> x ∈ V;
  inv_degree : forall x, x ∈ V -> indegree !! x = Some (degree x - removed_deps popped x);
  inv_zero : forall x, x ∈ V -> (x ∈ ready ++ popped <-> degree x = removed_deps popped x);
  inv_topo : topological V deps popped }.

Lemma removed_deps_all popped x :
  x ∈ V -> (forall y, y ∈ popped -> y ∈ V) -> degree x = removed_deps popped x ->
  forall y, y ∈ V -> y ∈ deps x -> y ∈ popped.
Proof.
  intros Hx Hp Heq y Hy Hd. apply Hdeg in Hx. unfold removed_deps in Heq.
  assert (deps x ∩ list_to_set popped ≡ deps x ∩ list_to_set V) as Hs.
  { apply set_subseteq_size_equiv; [set_solver|lia]. }
  assert (y ∈ deps x ∩ list_to_set popped) by (rewrite Hs; set_solver). set_solver.
Qed.

Lemma removed_deps_snoc popped c x :
  c ∉ popped -> removed_deps (popped ++ [c]) x
                = removed_deps popped x + (if decide (c ∈ deps x) then 1 else 0).
Proof.
  intros Hc. unfold removed_deps. rewrite list_to_set_app_L. case_decide as Hd.
  - replace (deps x ∩ (list_to_set popped ∪ list_to_set [c]))
      with (deps x ∩ list_to_set popped ∪ {[c]} : gset string) by set_solver.
    rewrite size_union by set_solver. rewrite size_singleton. lia.
  - replace (deps x ∩ (list_to_set popped ∪ list_to_set [c]))
      with (deps x ∩ list_to_set popped : gset string) by set_solver. lia.
Qed.

Lemma kahn_inv_start :
  kahn_inv (list_to_map ((fun x => (x, degree x)) <$> V))
    (List.filter (fun x => degree x =? 0) V) [].
Proof.
  split.
  - rewrite app_nil_r. apply NoDup_ListNoDup, List.NoDup_filter. by apply NoDup_ListNoDup.
  - intros x. rewrite app_nil_r, list_elem_of_In, List.filter_In, <- list_elem_of_In. tauto.
  - intros x Hx. rewrite (elem_of_list_to_map_1 _ x (degree x)).
    + f_equal. unfold removed_deps. simpl. rewrite intersection_empty_r_L, size_empty. lia.
    + rewrite <- list_fmap_compose. by rewrite list_fmap_id.
    + apply list_elem_of_fmap. by exists x.
  - intros x Hx. rewrite app_nil_r, list_elem_of_In, List.filter_In, <- list_elem_of_In, Z.eqb_eq.
    unfold removed_deps. simpl. rewrite intersection_empty_r_L, size_empty. tauto.
  - intros i x Hx. by rewrite lookup_nil in Hx.
Qed.

Lemma kahn_inv_step indegree ready popped current rest :
  kahn_inv indegree ready popped -> pop_end pop ready = Some (current, rest) ->
  let st := fold_left relax_child (children current) (indegree, rest) in
  kahn_inv st.1 st.2 (popped ++ [current]).
Proof.
  intros [Hnd Hin Hd Hz Ht] Hpop%pop_end_some. rewrite Hpop in Hnd. simpl in Hnd.
  assert (current ∈ V) as Hcur by (apply Hin; rewrite Hpop; left).
  apply NoDup_cons in Hnd as [Hcn Hnd].
  assert (current ∉ popped) as Hcp by (intros Hc; apply Hcn; rewrite elem_of_app; tauto).
  edestruct (relax_children (children current) indegree rest) as [H1 H2]; [by apply Hchild_nd| |].
  { intros c Hc%Hchild; [|done]. rewrite Hd by tauto. done. }
  simpl. rewrite H1. simpl. clear H1.
  assert (forall x, x ∈ V -> (fold_left relax_child (children current) (indegree, rest)).1 !! x
    = Some (degree x - removed_deps (popped ++ [current]) x)) as Hd'.
  { intros x Hx. rewrite H2, Hd, removed_deps_snoc by done.
    pose proof (Hchild current Hcur x) as Hc. case_decide as Hx1; case_decide as Hx2; simpl.
    - f_equal. lia.
    - tauto.
    - tauto.
    - f_equal. lia. }
  set (fresh := List.filter _ _).
  assert (forall x, x ∈ fresh <-> x ∈ V /\ current ∈ deps x /\ degree x = removed_deps popped x + 1)
    as Hfresh.
  { intros x. unfold fresh. rewrite list_elem_of_In, List.filter_In, <- list_elem_of_In.
    rewrite Hchild by done. split.
    - intros [[Hx Hdx] Heq]. rewrite Hd in Heq by done. simpl in Heq. bool_prop.
      split_and!; [done|done|lia].
    - intros (Hx & Hdx & Heq). rewrite Hd by done. split; [done|]. simpl. apply Z.eqb_eq. lia. }
  assert (NoDup fresh) as Hfnd.
  { apply NoDup_ListNoDup, List.NoDup_filter, NoDup_ListNoDup. by apply Hchild_nd. }
  assert (forall x, x ∈ fresh -> x ∉ ready ++ popped) as Hnew.
  { intros x (Hx & _ & Heq)%Hfresh. rewrite Hz by done. lia. }
  assert (forall x, x ∈ ready ++ popped <-> x = current \/ x ∈ rest \/ x ∈ popped) as Hrp.
  { intros x. rewrite Hpop. simpl. rewrite elem_of_cons, elem_of_app. tauto. }
  split.
  - rewrite <- app_assoc. apply NoDup_app in Hnd as (Hn1 & Hn2 & Hn3).
    apply NoDup_app. split_and!; [done| |].
    + intros x Hx. specialize (Hnew x). specialize (Hn2 x Hx). rewrite Hrp in Hnew.
      rewrite !elem_of_app, list_elem_of_singleton. intros [?|[?| ->]]; [tauto..|].
      apply Hcn. rewrite elem_of_app. tauto.
    + apply NoDup_app. split_and!; [done| |].
      * intros x Hx. apply Hnew in Hx. rewrite Hrp in Hx.
        rewrite elem_of_app, list_elem_of_singleton. tauto.
      * apply NoDup_app. split_and!; [done| |apply NoDup_singleton].
        intros x Hx. rewrite list_elem_of_singleton. by intros ->.
  - intros x. specialize (Hin x). rewrite Hrp in Hin. specialize (Hfresh x).
    rewrite !elem_of_app, list_elem_of_singleton. tauto.
  - exact Hd'.
  - intros x Hx. rewrite removed_deps_snoc by done. specialize (Hfresh x).
    specialize (Hz x Hx). rewrite Hrp in Hz. rewrite !elem_of_app, list_elem_of_singleton.
    case_decide as Hdx.
    + split; [|intros Heq; tauto].
      intros Hor. assert (x ∈ fresh \/ x = current \/ x ∈ rest \/ x ∈ popped) as [Hx'|Hx'] by tauto.
      * tauto.
      * exfalso. apply Hz in Hx'.
        assert (current ∈ popped); [|done].
        apply (removed_deps_all popped x); [done| |done|done|done].
        intros y Hy. apply Hin. rewrite elem_of_app. tauto.
    + rewrite Z.add_0_r, <- Hz. tauto.
  - intros i x Hi y Hy Hyx. apply lookup_app_Some in Hi as [Hi|[Hlen Hi]].
    + destruct (Ht i x Hi y Hy Hyx) as (j & Hj & Hl). exists j. split; [done|].
      by apply lookup_app_l_Some.
    + apply list_lookup_singleton_Some in Hi as [Hi <-].
      assert (y ∈ popped) as (j & Hj)%list_elem_of_lookup.
      { apply (removed_deps_all popped current); [done| | |done|done].
        - intros z Hz'. apply Hin. rewrite elem_of_app. tauto.
        - apply Hz; [done|]. rewrite Hrp. by left. }
      exists j. split; [apply lookup_lt_Some in Hj; lia|]. by apply lookup_app_l_Some.
Qed.

Lemma kahn_inv_length indegree ready popped :
  kahn_inv indegree ready popped -> (length ready + length popped <= length V)%nat.
Proof.
  intros [Hnd Hin _ _ _]. rewrite <- length_app.
  apply List.NoDup_incl_length; [by apply NoDup_ListNoDup|].
  intros x Hx%list_elem_of_In. by apply list_elem_of_In, Hin.
Qed.

Lemma kahn_loop_spec fuel indegree ready popped :
  kahn_inv indegree ready popped -> (length V < fuel + length popped)%nat ->
  exists order indegree', kahn_loop pop children fuel indegree ready popped = Some order /\
    kahn_inv indegree' [] order.
Proof.
  revert indegree ready popped. induction fuel as [|fuel IH]; intros indegree ready popped Hinv Hf.
  { pose proof (kahn_inv_length _ _ _ Hinv). lia. }
  simpl. destruct (pop_end pop ready) as [[current rest]|] eqn:Hpop.
  - pose proof (kahn_inv_step _ _ _ _ _ Hinv Hpop) as Hstep.
    destruct (fold_left relax_child _ _) as [indegree' ready']. apply IH; [exact Hstep|].
    rewrite length_app. simpl. lia.
  - apply pop_end_none in Hpop as ->. eauto.
Qed.

(** The loop ends, and what it popped is a duplicate-free topological order
    of nodes; a node is left out exactly when its initial degree exceeds its
    popped dependencies. *)
Lemma kahn_spec :
  exists order, kahn pop children V degree = Some order /\
    NoDup order /\ (forall x, x ∈ order -> x ∈ V) /\ topological V deps order /\
    forall x, x ∈ V -> (x ∈ order <-> degree x = removed_deps order x).
Proof.
  destruct (kahn_loop_spec (S (length V)) _ _ _ kahn_inv_start) as (order & indegree & Hk & Hinv).
  { simpl. lia. }
  exists order. split; [exact Hk|]. destruct Hinv. split_and!; done.
Qed.

(** With exact degrees, every node is popped exactly when the graph has no
    cycle. *)
Lemma kahn_complete_iff :
  (forall x, x ∈ V -> degree x = Z.of_nat (size (deps x ∩ list_to_set V))) ->
  exists order, kahn pop children V degree = Some order /\
    NoDup order /\ (forall x, x ∈ order -> x ∈ V) /\
    (length order = length V <-> acyclic V deps).
Proof.
  intros Hexact. destruct kahn_spec as (order & Hk & Hnd & Hsub & Htopo & Hout).
  exists order. split_and!; try done.
  assert (length order = length V <-> forall x, x ∈ V -> x ∈ order) as ->.
  { split.
    - intros Hlen x Hx. apply list_elem_of_In.
      apply (List.NoDup_length_incl (l := order) (l' := V)).
      + by apply NoDup_ListNoDup.
      + lia.
      + intros y Hy%list_elem_of_In. by apply list_elem_of_In, Hsub.
      + by apply list_elem_of_In.
    - intros Hall. apply Nat.le_antisymm.
      + apply List.NoDup_incl_length; [by apply NoDup_ListNoDup|].
        intros y Hy%list_elem_of_In. by apply list_elem_of_In, Hsub.
      + apply List.NoDup_incl_length; [by apply NoDup_ListNoDup|].
        intros y Hy%list_elem_of_In. by apply list_elem_of_In, Hall. }
  split; [intros Hall; by apply topological_acyclic with order|].
  intros Hac. destruct (decide (List.filter (fun x => negb (bool_decide (x ∈ order))) V = []))
    as [Hnil|Hne].
  - intros x Hx. destruct (decide (x ∈ order)) as [|Hn]; [done|]. exfalso.
    assert (x ∈ List.filter (fun x => negb (bool_decide (x ∈ order))) V) as Hxin.
    { apply list_elem_of_In, List.filter_In. split; [by apply list_elem_of_In|].
      by rewrite bool_decide_eq_false_2. }
    rewrite Hnil in Hxin. by apply not_elem_of_nil in Hxin.
  - exfalso. set (left := List.filter _ _) in *.
    assert (forall x, x ∈ left <-> x ∈ V /\ x ∉ order) as Hleft.
    { intros x. unfold left. rewrite list_elem_of_In, List.filter_In, <- list_elem_of_In.
      by rewrite negb_true_iff, bool_decide_eq_false. }
    destruct left as [|x0 l0] eqn:E; [done|].
    apply (stuck_has_cycle V deps (x0 :: l0) x0); [left|..|done].
    intros x [Hx Hn]%Hleft. specialize (Hout x Hx).
    assert (exists y, y ∈ deps x ∩ list_to_set V /\ y ∉ order) as (y & Hy & Hyn).
    { destruct (decide (Forall (fun y => y ∈ order) (elements (deps x ∩ list_to_set V))))
        as [Hs|Hs].
      - exfalso. apply Hn, Hout. rewrite Hexact by done. unfold removed_deps. do 2 f_equal.
        rewrite Forall_forall in Hs. clear -Hs Hsub. set_solver.
      - apply not_Forall_Exists, Exists_exists in Hs as (y & Hy%elem_of_elements & Hyn);
          [eauto|solve_decision]. }
    exists y. rewrite Hleft. unfold depends. clear -Hx Hy Hyn. set_solver.
Qed.
End KahnProofs.
