(* ===== verification/Priority.v ===== *)
(** * Priority: the shared priority contract

    Models the priority part of [scripts/gpu_manager_contracts.py]: the numeric
    conventions, the three classes with their ranks and broker values,
    [priority_envelope] and [apply_priority_contract]. *)

From S2P Require Import Prelude PyValue.

Inductive PriorityConvention :=
  | GENERATION_HIGHER_IS_URGENT | LEGACY_LOWER_IS_URGENT | BROKER_LOWER_IS_URGENT.

Inductive PriorityClass := INTERACTIVE | NORMAL | BACKGROUND.

#[export] Instance PriorityConvention_eq_dec : EqDecision PriorityConvention.
Proof. solve_decision. Defined.
#[export] Instance PriorityClass_eq_dec : EqDecision PriorityClass.
Proof. solve_decision. Defined.

(** Every exception here is a [ValueError], except that [int(inf)] raises
    [OverflowError]. *)
Inductive PriorityError :=
  | UnknownConvention | UnknownPriorityClass | NotAnInteger | InfinityToInt | ElevationRefused.

Definition convention_value (c : PriorityConvention) : string :=
  match c with
  | GENERATION_HIGHER_IS_URGENT => "generation_higher_is_urgent"
  | LEGACY_LOWER_IS_URGENT => "legacy_lower_is_urgent"
  | BROKER_LOWER_IS_URGENT => "broker_lower_is_urgent"
  end.

Definition class_value (c : PriorityClass) : string :=
  match c with INTERACTIVE => "interactive" | NORMAL => "normal" | BACKGROUND => "background" end.

(** [PriorityConvention(v)] *)
Definition convention_of (v : value) : option PriorityConvention :=
  match v with
  | PStr s =>
      if String.eqb s "generation_higher_is_urgent" then Some GENERATION_HIGHER_IS_URGENT
      else if String.eqb s "legacy_lower_is_urgent" then Some LEGACY_LOWER_IS_URGENT
      else if String.eqb s "broker_lower_is_urgent" then Some BROKER_LOWER_IS_URGENT
      else None
  | _ => None
  end.

Definition _PRIORITY_RANK (c : PriorityClass) : Z :=
  match c with INTERACTIVE => 0 | NORMAL => 1 | BACKGROUND => 2 end.

Definition _BROKER_VALUE (c : PriorityClass) : Z :=
  match c with INTERACTIVE => 0 | NORMAL => 10 | BACKGROUND => 20 end.

Definition _PRIORITY_NAMES : list (string * PriorityClass) :=
  [("interactive", INTERACTIVE); ("high", INTERACTIVE); ("urgent", INTERACTIVE);
   ("normal", NORMAL); ("medium", NORMAL); ("med", NORMAL);
   ("background", BACKGROUND); ("low", BACKGROUND)].

Record PriorityEnvelope := mkPriorityEnvelope {
  raw : Z; priority_class : PriorityClass; broker_priority : Z; convention : PriorityConvention }.

Definition envelope_rank (e : PriorityEnvelope) : Z := _PRIORITY_RANK (priority_class e).

Definition to_fields (e : PriorityEnvelope) : list (string * value) :=
  [("priority", PInt (raw e)); ("priority_class", PStr (class_value (priority_class e)));
   ("broker_priority", PInt (broker_priority e));
   ("priority_convention", PStr (convention_value (convention e)))].

Definition _coerce_int (v : value) : result PriorityError Z :=
  match v with
  | PInt n => Ok n
  | PFloat us => if Z.rem us 1000000 =? 0 then Ok (int_seconds us) else Err NotAnInteger
  | PInfinity => Err InfinityToInt
  | PStr s => match int_of_str s with Some n => Ok n | None => Err NotAnInteger end
  | _ => Err NotAnInteger
  end.

Definition _class_for_numeric (n : Z) (c : PriorityConvention) : PriorityClass :=
  match c with
  | GENERATION_HIGHER_IS_URGENT =>
      if 60 <=? n then INTERACTIVE else if 10 <=? n then NORMAL else BACKGROUND
  | LEGACY_LOWER_IS_URGENT | BROKER_LOWER_IS_URGENT =>
      if n <=? 3 then INTERACTIVE else if n <=? 10 then NORMAL else BACKGROUND
  end.

(** The class named by a value that is not [None]. *)
Definition class_named (v : value) : option PriorityClass :=
  match v with PStr s => dict_get _PRIORITY_NAMES (py_lower s) | _ => None end.

Definition priority_envelope (v class conv : value) : result PriorityError PriorityEnvelope :=
  match convention_of conv with
  | None => Err UnknownConvention
  | Some c =>
      match class with
      | PNone =>
          n ← (match v with
               | PNone => Ok match c with GENERATION_HIGHER_IS_URGENT => 50 | _ => 10 end
               | _ => _coerce_int v end);
          let cls := _class_for_numeric n c in
          Ok (mkPriorityEnvelope n cls (_BROKER_VALUE cls) c)
      | _ =>
          match class_named class with
          | None => Err UnknownPriorityClass
          | Some cls =>
              n ← (match v with PNone => Ok (_BROKER_VALUE cls) | _ => _coerce_int v end);
              Ok (mkPriorityEnvelope n cls (_BROKER_VALUE cls) c)
          end
      end
  end.

(** The envelope of the priority fields of a payload. *)
Definition payload_envelope (d : list (string * value)) (conv : value)
    : result PriorityError PriorityEnvelope :=
  priority_envelope (dict_get_or d "priority" PNone) (dict_get_or d "priority_class" PNone)
    (dict_get_or d "priority_convention" conv).

Definition has_key (d : list (string * value)) (k : string) : bool :=
  match dict_get d k with Some _ => true | None => false end.

(** [d.setdefault(k, v)] *)
Definition dict_setdefault (d : list (string * value)) (k : string) (v : value) :=
  if has_key d k then d else dict_set d k v.

Definition apply_priority_contract (payload : list (string * value))
    (parent : list (string * value)) (conv : value) (allow_elevation : bool)
    : result PriorityError (list (string * value)) :=
  parent_env ← (match parent with
                | [] => Ok None
                | _ => Some <$> payload_envelope parent conv
                end);
  match parent_env, has_key payload "priority" || has_key payload "priority_class" with
  | Some penv, false =>
      Ok (dict_set (dict_update payload (to_fields penv)) "priority_source" (PStr "parent"))
  | _, _ =>
      env ← payload_envelope payload conv;
      (if match parent_env with
          | Some penv => (envelope_rank env <? envelope_rank penv) && negb allow_elevation
          | None => false end
       then Err ElevationRefused
       else Ok (dict_setdefault (dict_update payload (to_fields env)) "priority_source"
                  (PStr "request")))
  end.

(** ** Lemmas *)

(** An envelope whose broker value is its class's. *)
Definition envelope_ok (e : PriorityEnvelope) : Prop :=
  broker_priority e = _BROKER_VALUE (priority_class e).

Lemma priority_envelope_ok v class conv e :
  priority_envelope v class conv = Ok e -> envelope_ok e.
Proof.
  unfold priority_envelope. intros H. destruct (convention_of conv); [|done].
  destruct class; try (destruct (class_named _); [|done]);
    (destruct (match v with PNone => _ | _ => _ end); [|done]); by injection H as <-.
Qed.

(** The fields of a dictionary spell out the envelope [e]. *)
Definition carries (d : list (string * value)) (e : PriorityEnvelope) : Prop :=
  forall k v, dict_get (to_fields e) k = Some v -> dict_get d k = Some v.

Lemma carries_envelope d e conv : envelope_ok e -> carries d e -> payload_envelope d conv = Ok e.
Proof.
  intros Hok Hc. unfold payload_envelope, dict_get_or.
  rewrite (Hc "priority" (PInt (raw e))), (Hc "priority_class" (PStr (class_value (priority_class e)))),
    (Hc "priority_convention" (PStr (convention_value (convention e)))) by done. simpl.
  destruct e as [n cls b c]. unfold envelope_ok in Hok. simpl in *. subst b.
  by destruct c, cls.
Qed.

Lemma to_fields_nodup e : NoDup (to_fields e).*1.
Proof. simpl. repeat constructor; set_solver. Qed.

Lemma update_carries d e : carries (dict_update d (to_fields e)) e.
Proof. intros k v Hk. rewrite dict_get_update by apply to_fields_nodup. by rewrite Hk. Qed.

Lemma carries_set d e v : carries d e -> carries (dict_set d "priority_source" v) e.
Proof.
  intros Hc k w Hk. rewrite dict_get_set. case_decide as H; [|by apply Hc].
  subst k. simpl in Hk. done.
Qed.

Lemma carries_setdefault d e v : carries d e -> carries (dict_setdefault d "priority_source" v) e.
Proof. intros Hc. unfold dict_setdefault. destruct (has_key _ _); [done|]. by apply carries_set. Qed.

Lemma dict_set_same {A} (d : list (string * A)) k v : dict_get d k = Some v -> dict_set d k v = d.
Proof.
  induction d as [|[k' v'] d IH]; [done|]. simpl. destruct (String.eqb_spec k' k) as [->|Hne].
  - by intros [= ->].
  - intros H. by rewrite IH.
Qed.

Lemma update_carried d e : carries d e -> dict_update d (to_fields e) = d.
Proof.
  intros Hc. unfold dict_update. simpl.
  do 4 (rewrite (dict_set_same d) by by apply Hc). done.
Qed.

(** What the contract returns: the payload's other keys with the fields of a
    well-formed envelope, and a priority source. *)
Lemma apply_contract_result payload parent conv allow r :
  apply_priority_contract payload parent conv allow = Ok r ->
  exists e, envelope_ok e /\ carries r e /\ has_key r "priority_source" = true /\
    (parent <> [] -> allow = false ->
     exists penv, payload_envelope parent conv = Ok penv /\ envelope_rank penv <= envelope_rank e).
Proof.
  unfold apply_priority_contract. intros H.
  destruct (match parent with [] => _ | _ => _ end) as [penv|] eqn:Hp; [|done].
  cbn [mbind result_bind] in H.
  assert (forall d v, has_key (dict_set d "priority_source" v) "priority_source" = true) as Hs.
  { intros d v. unfold has_key. rewrite dict_get_set. by rewrite decide_True. }
  assert (forall d v, has_key (dict_setdefault d "priority_source" v) "priority_source" = true) as Hsd.
  { intros d v. unfold dict_setdefault. destruct (has_key d "priority_source") eqn:E; [exact E|apply Hs]. }
  assert (penv = None /\ parent = [] \/
          exists pe, penv = Some pe /\ payload_envelope parent conv = Ok pe) as Hpenv.
  { destruct parent as [|i parent]; [by injection Hp as <-; left|].
    destruct (payload_envelope (i :: parent) conv); [|done]. injection Hp as <-. right. eauto. }
  assert (forall env, payload_envelope payload conv = Ok env ->
    (if match penv with Some pe => (envelope_rank env <? envelope_rank pe) && negb allow
        | None => false end then Err ElevationRefused
     else Ok (dict_setdefault (dict_update payload (to_fields env)) "priority_source"
                (PStr "request"))) = Ok r ->
    exists e, envelope_ok e /\ carries r e /\ has_key r "priority_source" = true /\
      (parent <> [] -> allow = false -> exists pe, payload_envelope parent conv = Ok pe /\
         envelope_rank pe <= envelope_rank e)) as Hown.
  { intros env Henv Hr. exists env.
    destruct (match penv with Some pe => (envelope_rank env <? envelope_rank pe) && negb allow
              | None => false end) eqn:Hel; [discriminate Hr|]. injection Hr as <-.
    split_and!; [by eapply priority_envelope_ok| |apply Hsd|].
    - apply carries_setdefault, update_carries.
    - intros Hne ->. destruct Hpenv as [[_ ?]|(pe & -> & Hpe)]; [done|].
      exists pe. split; [done|]. simpl in Hel. rewrite andb_true_r in Hel. by bool_prop. }
  destruct penv as [pe|].
  - destruct (has_key payload "priority" || has_key payload "priority_class").
    + destruct (payload_envelope payload conv) as [env|] eqn:Henv; [|done]. eapply Hown; eauto.
    + injection H as <-. destruct Hpenv as [[? _]|(pe' & [= <-] & Hpe)]; [done|]. exists pe.
      split_and!; [by eapply priority_envelope_ok| |apply Hs|].
      * apply carries_set, update_carries.
      * intros _ _. exists pe. split; [done|lia].
  - destruct (payload_envelope payload conv) as [env|] eqn:Henv; [|done]. eapply Hown; eauto.
Qed.

(** ** Properties *)

(** The contract is stable: applied to its own result, under whatever
    default convention and without the parent, it changes nothing; so a
    priority survives being passed from one boundary to the next. *)
Theorem priority_contract_idempotent payload parent conv allow r conv' allow' :
  apply_priority_contract payload parent conv allow = Ok r ->
  apply_priority_contract r [] conv' allow' = Ok r.
Proof.
  intros H. destruct (apply_contract_result _ _ _ _ _ H) as (e & Hok & Hc & Hsrc & _).
  unfold apply_priority_contract. cbn [mbind result_bind].
  rewrite (carries_envelope r e conv' Hok Hc). cbn [mbind result_bind].
  rewrite update_carried by done. unfold dict_setdefault. by rewrite Hsrc.
Qed.

Lemma priority_contract_idempotent_witness :
  exists r, apply_priority_contract [("priority", PInt 60)] [] (PStr "generation_higher_is_urgent")
              false = Ok r /\
            apply_priority_contract r [] (PStr "broker_lower_is_urgent") true = Ok r.
Proof.
  eexists. split; [vm_compute; reflexivity|].
  apply (priority_contract_idempotent [("priority", PInt 60)] []
    (PStr "generation_higher_is_urgent") false).
  vm_compute. reflexivity.
Defined.

(** No silent elevation.  A child admitted under a parent without
    authorised elevation carries a class no more urgent than its parent's, and
    the broker is given the value of that class. *)
Theorem no_silent_elevation payload parent conv r :
  parent <> [] -> apply_priority_contract payload parent conv false = Ok r ->
  exists penv env, payload_envelope parent conv = Ok penv /\
    (forall conv', payload_envelope r conv' = Ok env) /\
    envelope_rank penv <= envelope_rank env /\
    dict_get r "broker_priority" = Some (PInt (_BROKER_VALUE (priority_class env))).
Proof.
  intros Hne H. destruct (apply_contract_result _ _ _ _ _ H) as (e & Hok & Hc & _ & Hp).
  destruct (Hp Hne eq_refl) as (penv & Hpe & Hle). exists penv, e. split_and!; try done.
  - intros conv'. by apply carries_envelope.
  - rewrite <- Hok. by apply Hc.
Qed.

Lemma no_silent_elevation_witness :
  exists r, apply_priority_contract [("priority_class", PStr "low")] [("priority", PInt 60)]
              (PStr "generation_higher_is_urgent") false = Ok r /\
            dict_get r "broker_priority" = Some (PInt 20).
Proof.
  eexists. split; [vm_compute; reflexivity|].
  edestruct (no_silent_elevation [("priority_class", PStr "low")] [("priority", PInt 60)]
    (PStr "generation_higher_is_urgent")) as (penv & env & _ & He & _ & Hb).
  - discriminate.
  - vm_compute. reflexivity.
  - rewrite Hb. specialize (He PNone). vm_compute in He. injection He as <-. reflexivity.
Defined.
