(* ===== verification/WorkflowContracts.v ===== *)
(** * WorkflowContracts: validation of declarative workflows

    Models [scripts/workflow_contracts.py].  The verdicts are values of
    [WorkflowError] instead of message texts; what the theorems need of a set's
    iteration order is a parameter. *)

From S2P Require Import Prelude PyValue Graph.

Definition WORKFLOW_SCHEMA_VERSION : string := "workflow.v1".

Definition _STAGE_KINDS : list string :=
  ["preparation"; "research"; "validation"; "generation"; "transform"; "qc"; "delivery"].

(** [_ID_RE.fullmatch(s)]: [[A-Za-z0-9][A-Za-z0-9._-]{0,127}]. *)
Definition is_alnum (c : Ascii.ascii) : bool :=
  let n := Ascii.nat_of_ascii c in
  ((48 <=? n) && (n <=? 57) || (65 <=? n) && (n <=? 90) || (97 <=? n) && (n <=? 122))%nat.

Definition is_id_char (c : Ascii.ascii) : bool :=
  is_alnum c || Ascii.eqb c (chr 46) || Ascii.eqb c (chr 95) || Ascii.eqb c (chr 45).

Definition id_fullmatch (s : string) : bool :=
  match String.list_ascii_of_string s with
  | [] => false
  | c :: cs => is_alnum c && forallb is_id_char cs && (length cs <=? 127)%nat
  end.

Definition valid_id (v : value) : bool := match v with PStr s => id_fullmatch s | _ => false end.

Inductive WorkflowError :=
  | WorkflowNotObject | BadSchemaVersion | BadWorkflowId | BadRevision | StagesNotList
  | StageNotObject (index : nat) | BadStageId (index : nat)
  | DuplicateStage (index : nat) (id : string) | BadKind (index : nat) | BadOperation (index : nat)
  | FieldNotString (index : nat) (field : string) | BindingsNotObject (index : nat)
  | EnabledNotBoolean (index : nat) | BadDependsOn (index : nat) | RetryNotObject (index : nat)
  | UnknownDependency (id : string) | DependencyCycle | InputsNotObject | OutputsNotObjects.

#[export] Instance WorkflowError_eq_dec : EqDecision WorkflowError.
Proof. solve_decision. Defined.

(** The [TypeError] of testing membership of an unhashable value in a set. *)
Inductive Unhashable := UnhashableKind.

(** What the loop over the stages accumulates. *)
Record StageScan := mkStageScan {
  scan_errors : list WorkflowError;
  stage_ids : gset string;
  edges : gmap string (gset string) }.

Definition check (ok : bool) (e : WorkflowError) : list WorkflowError := if ok then [] else [e].

(** [kind in _STAGE_KINDS], which hashes [kind]. *)
Definition kind_known (kind : option value) : result Unhashable bool :=
  match kind with
  | Some (PList _) | Some (PDict _) => Err UnhashableKind
  | Some (PStr s) => Ok (bool_decide (s ∈ _STAGE_KINDS))
  | _ => Ok false
  end.

Definition depends_on_list (v : value) : option (list string) :=
  match v with
  | PList l => mapM (fun i => match i with
                              | PStr s => if str_truthy s then Some s else None
                              | _ => None end) l
  | _ => None
  end.

(** The checks on one stage that has an identity. *)
Definition scan_fields (index : nat) (stage : list (string * value)) (known : bool)
    : list WorkflowError :=
  check known (BadKind index)
  ++ check (match dict_get stage "operation" with
            | Some (PStr s) => str_truthy (py_strip s) | _ => false end) (BadOperation index)
  ++ concat ((fun field => check (match dict_get stage field with
                                  | None | Some PNone | Some (PStr _) => true | _ => false end)
                             (FieldNotString index field))
             <$> ["adapter"; "provider"; "service"; "runtime_profile"])
  ++ check (match dict_get stage "bindings" with
            | None | Some PNone => true | Some v => is_mapping v end) (BindingsNotObject index)
  ++ check (match dict_get stage "enabled_by_default" with
            | None => true | Some v => is_bool v end) (EnabledNotBoolean index).

Definition scan_stage (scan : StageScan) (index : nat) (stage : value)
    : result Unhashable StageScan :=
  match stage with
  | PDict d =>
      match dict_get d "id" with
      | Some (PStr id) =>
          if id_fullmatch id then
            known ← kind_known (dict_get d "kind");
            let deps := depends_on_list (dict_get_or d "depends_on" (PList [])) in
            Ok (mkStageScan
                  (scan_errors scan
                   ++ check (negb (bool_decide (id ∈ stage_ids scan))) (DuplicateStage index id)
                   ++ scan_fields index d known
                   ++ check (bool_decide (is_Some deps)) (BadDependsOn index)
                   ++ check (match dict_get d "retry" with
                             | None | Some PNone => true | Some v => is_mapping v end)
                        (RetryNotObject index))
                  ({[id]} ∪ stage_ids scan)
                  (<[id := list_to_set (default [] deps)]> (edges scan)))
          else Ok (mkStageScan (scan_errors scan ++ [BadStageId index]) (stage_ids scan)
                     (edges scan))
      | _ => Ok (mkStageScan (scan_errors scan ++ [BadStageId index]) (stage_ids scan)
                   (edges scan))
      end
  | _ => Ok (mkStageScan (scan_errors scan ++ [StageNotObject index]) (stage_ids scan)
               (edges scan))
  end.

Fixpoint scan_stages (scan : StageScan) (index : nat) (stages : list value)
    : result Unhashable StageScan :=
  match stages with
  | [] => Ok scan
  | stage :: stages' =>
      scan' ← scan_stage scan index stage;
      scan_stages scan' (S index) stages'
  end.

(** [sorted(dependency for ... if dependency not in stage_ids)] *)
Definition unknown_dependencies (scan : StageScan) : list string :=
  py_sorted (concat ((fun e => List.filter (fun d => negb (bool_decide (d ∈ stage_ids scan)))
                                 (elements e.2)) <$> map_to_list (edges scan))).

Section Order.
(** In which order a set is iterated. *)
Context (set_order : gset string -> list string).

Definition stage_deps (scan : StageScan) (x : string) : gset string :=
  default ∅ (edges scan !! x).

(** [children]: for each stage of [stage_ids], the stages that depend on it. *)
Definition stage_children (scan : StageScan) (x : string) : list string :=
  set_order (filter (fun y => x ∈ stage_deps scan y) (stage_ids scan)).

(** [indegree]: one per dependency that is a stage. *)
Definition stage_indegree (scan : StageScan) (x : string) : Z :=
  Z.of_nat (size (stage_deps scan x ∩ stage_ids scan)).

(** [visited != len(stage_ids)]; the loop always ends. *)
Definition has_cycle (scan : StageScan) : bool :=
  match kahn PopLast (stage_children scan) (set_order (stage_ids scan)) (stage_indegree scan) with
  | Some popped => negb (Nat.eqb (length popped) (size (stage_ids scan)))
  | None => false
  end.

Definition validate_header (d : list (string * value)) : list WorkflowError :=
  check (match dict_get d "schema_version" with
         | Some (PStr s) => String.eqb s WORKFLOW_SCHEMA_VERSION | _ => false end)
    BadSchemaVersion
  ++ check (valid_id (dict_get_or d "id" PNone)) BadWorkflowId
  ++ check (match dict_get_or d "revision" (PInt 1) with
            | PInt n => 1 <=? n | _ => false end) BadRevision.

Definition validate_io (d : list (string * value)) : list WorkflowError :=
  check (match dict_get d "inputs" with
         | None | Some PNone => true | Some v => is_mapping v end) InputsNotObject
  ++ check (match dict_get d "outputs" with
            | None | Some PNone => true
            | Some (PList l) => forallb is_mapping l
            | Some _ => false end) OutputsNotObjects.

Definition validate_workflow_definition (definition : value)
    : result Unhashable (list WorkflowError) :=
  match definition with
  | PDict d =>
      match dict_get d "stages" with
      | Some (PList (s :: stages)) =>
          scan ← scan_stages (mkStageScan (validate_header d) ∅ ∅) 0 (s :: stages);
          Ok (scan_errors scan
              ++ (UnknownDependency <$> unknown_dependencies scan)
              ++ check (negb (has_cycle scan)) DependencyCycle
              ++ validate_io d)
      | _ => Ok (validate_header d ++ [StagesNotList])
      end
  | _ => Ok [WorkflowNotObject]
  end.
End Order.

(** ** What the scan collects *)

(** The dependencies a stage object lists. *)
Definition listed_deps (st : list (string * value)) : list string :=
  default [] (depends_on_list (dict_get_or st "depends_on" (PList []))).

(** A stage object the scan accepts under identity [id]. *)
Definition good_stage (st : list (string * value)) (id : string) : Prop :=
  dict_get st "id" = Some (PStr id) /\ id_fullmatch id = true /\
  is_Some (depends_on_list (dict_get_or st "depends_on" (PList []))).

Lemma check_nil b e : check b e = [] <-> b = true.
Proof. by destruct b. Qed.

Lemma scan_stage_ok scan i v scan' :
  scan_stage scan i v = Ok scan' -> scan_errors scan' = [] ->
  exists st id, v = PDict st /\ good_stage st id /\ (id ∉ stage_ids scan) /\
    scan_errors scan = [] /\ stage_ids scan' = {[id]} ∪ stage_ids scan /\
    edges scan' = (<[id := list_to_set (listed_deps st)]> (edges scan)).
Proof.
  intros Hs He.
  assert (forall e, mkStageScan (scan_errors scan ++ [e]) (stage_ids scan) (edges scan) = scan' ->
            False) as Hbad.
  { intros e <-. simpl in He. by apply app_nil in He as [_ ?]. }
  unfold scan_stage in Hs. destruct v; try (injection Hs as Hs; by apply Hbad in Hs).
  destruct (dict_get d "id") as [[]|] eqn:Hid; try (injection Hs as Hs; by apply Hbad in Hs).
  destruct (id_fullmatch s) eqn:Hm; [|injection Hs as Hs; by apply Hbad in Hs]. inv_ok. simpl in *.
  apply app_nil in He as [He1 He]. apply app_nil in He as [He2 He].
  apply app_nil in He as [_ He]. apply app_nil in He as [He3 _].
  rewrite check_nil in He2, He3. bool_prop.
  exists d, s. split_and!; done.
Qed.

Lemma scan_stages_ok vs : forall scan i scan',
  scan_stages scan i vs = Ok scan' -> scan_errors scan' = [] ->
  scan_errors scan = [] /\
  exists sts ids, vs = PDict <$> sts /\ Forall2 good_stage sts ids /\ NoDup ids /\
    (forall x, x ∈ ids -> x ∉ stage_ids scan) /\
    stage_ids scan' = list_to_set ids ∪ stage_ids scan /\
    (forall k st id, sts !! k = Some st -> ids !! k = Some id ->
       stage_deps scan' id = list_to_set (listed_deps st)) /\
    (forall x, x ∉ ids -> stage_deps scan' x = stage_deps scan x).
Proof.
  induction vs as [|v vs IH]; intros scan i scan' Hs He.
  - injection Hs as <-. split; [done|]. exists [], [].
    split_and!; try done; [constructor|set_solver|set_solver].
  - simpl in Hs. destruct (scan_stage scan i v) as [scan1|] eqn:H1; [|done]. simpl in Hs.
    destruct (IH _ _ _ Hs He) as (He1 & sts & ids & -> & Hgood & Hnd & Hdis & Hids & Hdeps & Hrest).
    destruct (scan_stage_ok _ _ _ _ H1 He1) as (st & id & -> & Hst & Hid & He0 & Hi1 & Hed).
    assert (id ∉ ids) as Hnew. { intros Hin. apply (Hdis id Hin). rewrite Hi1. set_solver. }
    split; [done|]. exists (st :: sts), (id :: ids). split_and!; try done.
    + by constructor.
    + by constructor.
    + intros x [->|Hx]%elem_of_cons; [done|]. specialize (Hdis x Hx). set_solver.
    + rewrite Hids, Hi1. simpl. set_solver.
    + intros [|k] st' id' Hk Hk'; simpl in *; [|by apply (Hdeps k)].
      simplify_eq. rewrite Hrest by done. unfold stage_deps. by rewrite Hed, lookup_insert_eq.
    + intros x Hx. rewrite Hrest by set_solver. unfold stage_deps.
      rewrite Hed, lookup_insert_ne by set_solver. done.
Qed.

(** Only the last check reports a cycle. *)
Lemma scan_stage_no_cycle scan i v scan' :
  scan_stage scan i v = Ok scan' -> DependencyCycle ∉ scan_errors scan ->
  DependencyCycle ∉ scan_errors scan'.
Proof.
  assert (forall b e, e <> DependencyCycle -> DependencyCycle ∉ check b e) as Hc.
  { intros [] e He; simpl; set_solver. }
  intros Hs Hn. unfold scan_stage in Hs. destruct v;
    try (injection Hs as <-; simpl; rewrite elem_of_app, list_elem_of_singleton; naive_solver).
  destruct (dict_get d "id") as [[]|];
    try (injection Hs as <-; simpl; rewrite elem_of_app, list_elem_of_singleton; naive_solver).
  destruct (id_fullmatch s);
    [|injection Hs as <-; simpl; rewrite elem_of_app, list_elem_of_singleton; naive_solver].
  inv_ok. simpl. unfold scan_fields. simpl. rewrite !app_nil_r, !not_elem_of_app.
  split_and!; first [done | by apply Hc].
Qed.

Lemma scan_stages_no_cycle vs : forall scan i scan',
  scan_stages scan i vs = Ok scan' -> DependencyCycle ∉ scan_errors scan ->
  DependencyCycle ∉ scan_errors scan'.
Proof.
  induction vs as [|v vs IH]; intros scan i scan' Hs Hn; [by injection Hs as <-|].
  simpl in Hs. destruct (scan_stage scan i v) as [scan1|] eqn:H1; [|done].
  eapply IH; [exact Hs|]. by eapply scan_stage_no_cycle.
Qed.

Section Validation.
Context (set_order : gset string -> list string).
Context (Horder : forall X, set_order X ≡ₚ elements X).

(** The cycle verdict is exact, whatever order sets are iterated in. *)
Lemma has_cycle_iff scan :
  has_cycle set_order scan = true <->
  ~ acyclic (elements (stage_ids scan)) (stage_deps scan).
Proof.
  set (V := set_order (stage_ids scan)).
  assert (forall x, x ∈ V <-> x ∈ stage_ids scan) as HinV.
  { intros x. unfold V. rewrite Horder. apply elem_of_elements. }
  assert (NoDup V) as HndV. { unfold V. rewrite Horder. apply NoDup_elements. }
  assert (forall x, stage_indegree scan x
    = Z.of_nat (size (stage_deps scan x ∩ list_to_set V))) as Hdeg.
  { intros x. unfold stage_indegree. do 3 f_equal. set_solver. }
  destruct (kahn_complete_iff PopLast (stage_children set_order scan) V (stage_deps scan)
    (stage_indegree scan)) as (order & Hk & Hnd & Hsub & Hiff).
  - done.
  - intros x _. unfold stage_children. rewrite Horder. apply NoDup_elements.
  - intros x Hx y. unfold stage_children. rewrite Horder, elem_of_elements, elem_of_filter, HinV.
    tauto.
  - intros x _. by rewrite Hdeg.
  - intros x _. by rewrite Hdeg.
  - unfold has_cycle. fold V. rewrite Hk.
    assert (acyclic V (stage_deps scan) <-> acyclic (elements (stage_ids scan)) (stage_deps scan))
      as Hac.
    { unfold acyclic.
      assert (forall x y, depends V (stage_deps scan) x y <->
                          depends (elements (stage_ids scan)) (stage_deps scan) x y) as Hd.
      { intros x y. unfold depends. rewrite !HinV, !elem_of_elements. done. }
      assert (forall x y, tc (depends V (stage_deps scan)) x y <->
                          tc (depends (elements (stage_ids scan)) (stage_deps scan)) x y) as Ht.
      { intros x y. split; intros H;
          (eapply (tc_congruence id); [|exact H]); intros ? ?; apply Hd. }
      by setoid_rewrite Ht. }
    rewrite <- Hac, <- Hiff, negb_true_iff, Nat.eqb_neq.
    assert (size (stage_ids scan) = length V) as ->; [|done].
    unfold V. rewrite (Permutation_length (Horder _)). done.
Qed.
End Validation.

(** A stage object and a workflow of two stages, the second after the first. *)
Definition sample_stage (id : string) (deps : list string) : value :=
  PDict [("id", PStr id); ("kind", PStr "generation"); ("operation", PStr "run");
         ("depends_on", PList (PStr <$> deps))].

Definition sample_workflow (stages : list value) : list (string * value) :=
  [("schema_version", PStr WORKFLOW_SCHEMA_VERSION); ("id", PStr "wf"); ("revision", PInt 1);
   ("stages", PList stages)].

Definition two_stages : list value := [sample_stage "draft" []; sample_stage "render" ["draft"]].

(** ** Properties *)

(** The stages of an accepted workflow: their objects and identities, no
    identity twice, every dependency an identity, and no dependency cycle. *)
Definition stages_well_formed (sts : list (list (string * value))) (ids : list string)
    (deps : string -> gset string) : Prop :=
  Forall2 good_stage sts ids /\ NoDup ids /\
  (forall k st id, sts !! k = Some st -> ids !! k = Some id ->
     deps id = list_to_set (listed_deps st)) /\
  (forall k st dep, sts !! k = Some st -> dep ∈ listed_deps st -> dep ∈ ids) /\
  acyclic ids deps.

Lemma unknown_dependencies_nil scan x y :
  unknown_dependencies scan = [] -> x ∈ stage_deps scan y -> x ∈ stage_ids scan.
Proof.
  intros Hnil Hx. unfold stage_deps in Hx. destruct (edges scan !! y) as [ds|] eqn:Hy; [|set_solver].
  destruct (decide (x ∈ stage_ids scan)) as [|Hn]; [done|]. exfalso.
  assert (x ∈ unknown_dependencies scan) as H; [|rewrite Hnil in H; by apply not_elem_of_nil in H].
  unfold unknown_dependencies. rewrite py_sorted_perm.
  apply list_elem_of_In, in_concat.
  exists (List.filter (fun d => negb (bool_decide (d ∈ stage_ids scan))) (elements ds)). split.
  - apply list_elem_of_In, list_elem_of_fmap. exists (y, ds). split; [done|].
    by apply elem_of_map_to_list.
  - apply List.filter_In. split; [by apply list_elem_of_In, elem_of_elements|].
    by rewrite bool_decide_eq_false_2.
Qed.

Lemma acyclic_iff V V' deps deps' :
  (forall x, x ∈ V <-> x ∈ V') -> (forall x, x ∈ V -> deps x = deps' x) ->
  acyclic V deps -> acyclic V' deps'.
Proof.
  intros HV Hd Hac x Hx. apply (Hac x).
  eapply (tc_congruence id); [|exact Hx]. intros a b (Ha & Hb & Hab). unfold depends.
  rewrite !HV, Hd by by apply HV. done.
Qed.

(** What [validate_workflow_definition] returning no error guarantees. *)
Lemma validated_stages set_order d :
  (forall X, set_order X ≡ₚ elements X) ->
  validate_workflow_definition set_order (PDict d) = Ok [] ->
  exists sts ids deps, dict_get d "stages" = Some (PList (PDict <$> sts)) /\ sts <> [] /\
    validate_header d = [] /\ stages_well_formed sts ids deps.
Proof.
  intros Ho Hv. cbn [validate_workflow_definition] in Hv. destruct (dict_get d "stages") as [sv|] eqn:Hst.
  2:{ injection Hv as Hv. by apply app_nil in Hv as [_ ?]. }
  destruct sv as [| | | | | | |vs|]; try by (injection Hv as Hv; apply app_nil in Hv as [_ ?]).
  destruct vs as [|v0 vs0]; [by (injection Hv as Hv; apply app_nil in Hv as [_ ?])|].
  destruct (scan_stages _ 0 (v0 :: vs0)) as [scan|] eqn:Hscan; [|done].
  unfold mbind, result_bind in Hv. injection Hv as Hv.
  apply app_nil in Hv as [He Hv]. apply app_nil in Hv as [Hun Hv]. apply app_nil in Hv as [Hcy _].
  apply fmap_nil_inv in Hun. apply check_nil, negb_true_iff in Hcy.
  destruct (scan_stages_ok _ _ _ _ Hscan He)
    as (Hh & sts & ids & Hvs & Hgood & Hnd & _ & Hids & Hdeps & Hrest). simpl in *.
  assert (forall x, x ∈ elements (stage_ids scan) <-> x ∈ ids) as Hin.
  { intros x. rewrite elem_of_elements, Hids. set_solver. }
  exists sts, ids, (stage_deps scan). split_and!; try done; [by rewrite Hvs|by destruct sts|].
  unfold stages_well_formed. split_and!; try done.
  - intros k st dep Hk Hdep.
    destruct (Forall2_lookup_l _ _ _ _ _ Hgood Hk) as (id & Hid & _).
    apply Hin, elem_of_elements, (unknown_dependencies_nil scan dep id Hun).
    rewrite (Hdeps k st id Hk Hid). set_solver.
  - apply (acyclic_iff (elements (stage_ids scan)) _ (stage_deps scan)); [done|done|].
    destruct (decide (has_cycle set_order scan = true)) as [Ht|Hf]; [congruence|].
    rewrite has_cycle_iff in Hf by done. intros x Hx. apply Hf. intros Hac. by apply (Hac x).
Qed.

(** An accepted workflow is a DAG of distinct, known stages.  When
    validation returns no error, every stage is an object with an identity, no
    identity occurs twice, every listed dependency is one of the stages, and
    no stage depends on itself through the others, in whatever order Python
    iterates the sets. *)
Theorem accepted_workflow_is_dag set_order definition :
  (forall X, set_order X ≡ₚ elements X) ->
  validate_workflow_definition set_order definition = Ok [] ->
  exists d sts ids deps, definition = PDict d /\
    dict_get d "stages" = Some (PList (PDict <$> sts)) /\ sts <> [] /\
    stages_well_formed sts ids deps.
Proof.
  intros Ho Hv. destruct definition as [| | | | | | | |d]; try done.
  destruct (validated_stages set_order d Ho Hv) as (sts & ids & deps & H1 & H2 & _ & H3).
  exists d, sts, ids, deps. done.
Qed.

Lemma accepted_workflow_is_dag_witness :
  validate_workflow_definition elements (PDict (sample_workflow two_stages)) = Ok [] /\
  exists d, PDict (sample_workflow two_stages) = PDict d.
Proof.
  split; [vm_compute; reflexivity|].
  destruct (accepted_workflow_is_dag elements (PDict (sample_workflow two_stages)))
    as (d & sts & ids & deps & H & _).
  - intros X. reflexivity.
  - vm_compute. reflexivity.
  - exists d. exact H.
Defined.

(** The cycle verdict is exact: among the errors of a definition whose
    stages could be scanned, "stages contain a dependency cycle" is there
    exactly when the graph the scan collected has one.  In particular Kahn's
    loop always ends. *)
Theorem cycle_error_exact set_order d v vs scan errors :
  (forall X, set_order X ≡ₚ elements X) ->
  dict_get d "stages" = Some (PList (v :: vs)) ->
  scan_stages (mkStageScan (validate_header d) ∅ ∅) 0 (v :: vs) = Ok scan ->
  validate_workflow_definition set_order (PDict d) = Ok errors ->
  DependencyCycle ∈ errors <-> ~ acyclic (elements (stage_ids scan)) (stage_deps scan).
Proof.
  intros Ho Hst Hscan Hv. rewrite <- (has_cycle_iff set_order Ho).
  assert (DependencyCycle ∉ scan_errors scan) as Hn.
  { eapply scan_stages_no_cycle; [exact Hscan|]. simpl. unfold validate_header.
    rewrite !not_elem_of_app. split_and!; unfold check; case_match; set_solver. }
  cbn [validate_workflow_definition] in Hv. rewrite Hst, Hscan in Hv.
  injection Hv as <-. rewrite !elem_of_app. split.
  - intros [H|[H|[H|H]]]; [done| | |].
    + by apply list_elem_of_fmap in H as (x & ? & _).
    + unfold check in H. destruct (has_cycle _ _); [done|]. by apply not_elem_of_nil in H.
    + unfold validate_io, check in H. apply elem_of_app in H.
      destruct H as [H|H]; case_match; set_solver.
  - intros H. rewrite H. simpl. right. right. left. left.
Qed.

Lemma cycle_error_exact_witness :
  exists scan errors,
    scan_stages (mkStageScan (validate_header (sample_workflow [sample_stage "a" ["a"]])) ∅ ∅) 0
      [sample_stage "a" ["a"]] = Ok scan /\
    validate_workflow_definition elements (PDict (sample_workflow [sample_stage "a" ["a"]]))
      = Ok errors /\
    (DependencyCycle ∈ errors <-> ~ acyclic (elements (stage_ids scan)) (stage_deps scan)).
Proof.
  do 2 eexists. split; [reflexivity|]. split; [vm_compute; reflexivity|].
  apply (cycle_error_exact elements (sample_workflow [sample_stage "a" ["a"]])
    (sample_stage "a" ["a"]) []).
  - intros X. reflexivity.
  - reflexivity.
  - reflexivity.
  - vm_compute. reflexivity.
Defined.

(** A stage whose [kind] is a list makes validation raise [TypeError] instead
    of reporting the stage. *)
Lemma unhashable_kind_raises :
  validate_workflow_definition elements
    (PDict (sample_workflow [PDict [("id", PStr "a"); ("kind", PList [PStr "qc"])]]))
  = Err UnhashableKind.
Proof. reflexivity. Qed.
