(* ===== verification/WorkflowRuntime.v ===== *)
(** * WorkflowRuntime: the durable state of typed workflows

    Models the reducers of [scripts/workflow_runtime.py]: admission, the stage
    transitions, cancellation and the derived job status.  [fingerprint] and
    [payload_digest] stand for the SHA-256 of the canonical JSON text; nothing
    is assumed of them. *)

From S2P Require Import Prelude PyValue Graph Priority WorkflowContracts.

(** ** Data *)

Inductive StageStatus :=
  | PENDING | READY_ | SUBMITTED | IN_FLIGHT | SUCCEEDED | STAGE_FAILED | STAGE_CANCELLED
  | STAGE_UNKNOWN | STAGE_REVIEW | SKIPPED.

Inductive WorkflowStatus :=
  | ACCEPTED | WF_RUNNING | COMPLETED | FAILED | CANCELLED | OUTCOME_UNKNOWN | AWAITING_REVIEW.

#[export] Instance StageStatus_eq_dec : EqDecision StageStatus.
Proof. solve_decision. Defined.
#[export] Instance WorkflowStatus_eq_dec : EqDecision WorkflowStatus.
Proof. solve_decision. Defined.

Definition stage_active (s : StageStatus) : bool :=
  match s with READY_ | SUBMITTED | IN_FLIGHT => true | _ => false end.

(** [_TERMINAL_WORKFLOW_STATES] *)
Definition terminal (s : WorkflowStatus) : bool :=
  match s with
  | COMPLETED | FAILED | CANCELLED | OUTCOME_UNKNOWN | AWAITING_REVIEW => true
  | ACCEPTED | WF_RUNNING => false
  end.

Definition stage_done (s : StageStatus) : bool :=
  match s with SUCCEEDED | SKIPPED => true | _ => false end.

Definition workflow_status_value (s : WorkflowStatus) : string :=
  match s with
  | ACCEPTED => "accepted" | WF_RUNNING => "running" | COMPLETED => "completed"
  | FAILED => "failed" | CANCELLED => "cancelled" | OUTCOME_UNKNOWN => "outcome_unknown"
  | AWAITING_REVIEW => "awaiting_review"
  end.

Record StageRecord := mkStageRecord {
  stage_id : string;
  attempt : Z;
  status : StageStatus;
  stage_key : string;
  provider_handle : option string;
  output_refs : list string;
  stage_error : option string;
  stage_updated_at : time }.

#[export] Instance StageRecord_eta : Replaceable StageRecord := fun r =>
  mkStageRecord (stage_id r) (attempt r) (status r) (stage_key r) (provider_handle r)
    (output_refs r) (stage_error r) (stage_updated_at r).

#[export] Instance StageRecord_eq_dec : EqDecision StageRecord.
Proof. solve_decision. Defined.

Record WorkflowJob := mkWorkflowJob {
  job_id : string;
  service_name : string;
  service_revision : string;
  workflow_id : string;
  workflow_revision : Z;
  job_fingerprint : string;
  job_payload_digest : string;
  idempotency_key : string;
  job_priority : Z;
  job_priority_class : string;
  job_broker_priority : Z;
  job_status : WorkflowStatus;
  cancel_requested : bool;
  terminal_reason : option string;
  stages : list StageRecord;
  job_created_at : time;
  job_updated_at : time }.

#[export] Instance WorkflowJob_eta : Replaceable WorkflowJob := fun j =>
  mkWorkflowJob (job_id j) (service_name j) (service_revision j) (workflow_id j)
    (workflow_revision j) (job_fingerprint j) (job_payload_digest j) (idempotency_key j)
    (job_priority j) (job_priority_class j) (job_broker_priority j) (job_status j)
    (cancel_requested j) (terminal_reason j) (stages j) (job_created_at j) (job_updated_at j).

#[export] Instance WorkflowJob_eq_dec : EqDecision WorkflowJob.
Proof. solve_decision. Defined.

Inductive RuntimeError :=
  | InvalidWorkflow (errors : list WorkflowError) | WorkflowTypeError
  | EmptyField (field : string) | InvalidPriority | PriorityOverflow
  | JobTerminal (s : WorkflowStatus) | RevisionChanged | UnknownStage (id : string)
  | MalformedDependencies | NotDependencyReady | StageNotReady | EmptyStageKey
  | StageNotSubmitted | EmptyHandle | NoAcceptedAttempt | NoActiveAttempt | NoAmbiguousAttempt
  | IdempotencyConflict | JobExists | UnknownJob | IdentityChanged (field : string)
  | IndexMismatch | JobKeyError | BadStore | StoreOverflow | UnableToPersist.

#[export] Instance RuntimeError_eq_dec : EqDecision RuntimeError.
Proof. solve_decision. Defined.

(** ** Reading a definition *)

Definition definition_items (definition : value) : list (string * value) :=
  match definition with PDict d => d | _ => [] end.

(** [_stage_map]: a later stage of the same identity replaces an earlier. *)
Definition _stage_map (definition : value) : list (string * list (string * value)) :=
  fold_left (fun m stage =>
    match stage with
    | PDict d => match dict_get d "id" with Some (PStr id) => dict_set m id d | _ => m end
    | _ => m
    end)
    (match dict_get_or (definition_items definition) "stages" (PList []) with
     | PList l => l | _ => [] end) [].

Definition _stage_enabled (stage : list (string * value)) : bool :=
  match dict_get_or stage "enabled_by_default" (PBool true) with
  | PBool false => false
  | _ => true
  end.

(** [_stage_enabled(_stage_map(definition).get(id, {}))] *)
Definition enabled_in (definition : value) (id : string) : bool :=
  _stage_enabled (default [] (dict_get (_stage_map definition) id)).

(** ** Job bookkeeping *)

Definition job_stage (job : WorkflowJob) (id : string) : result RuntimeError StageRecord :=
  match List.find (fun r => String.eqb (stage_id r) id) (stages job) with
  | Some r => Ok r
  | None => Err (UnknownStage id)
  end.

Definition _replace_stage (job : WorkflowJob) (record : StageRecord) (now : time) : WorkflowJob :=
  job ⟪ stages := (fun current => if String.eqb (stage_id current) (stage_id record)
                                  then record else current) <$> stages job ⟫
      ⟪ job_updated_at := now ⟫.

Definition some_stage (p : StageStatus -> bool) (job : WorkflowJob) : bool :=
  existsb (fun r => p (status r)) (stages job).

Definition is_status (s t : StageStatus) : bool := bool_decide (t = s).

Definition _derive_status (job : WorkflowJob) (definition : value) : WorkflowStatus :=
  if some_stage (is_status STAGE_UNKNOWN) job then OUTCOME_UNKNOWN
  else if some_stage (is_status STAGE_REVIEW) job then AWAITING_REVIEW
  else if some_stage (is_status STAGE_FAILED) job then FAILED
  else if cancel_requested job then
    if some_stage stage_active job then WF_RUNNING else CANCELLED
  else
    let enabled := List.filter (fun r => enabled_in definition (stage_id r)) (stages job) in
    if negb (Nat.eqb (length enabled) 0) && forallb (fun r => stage_done (status r)) enabled
    then COMPLETED
    else if some_stage (fun s => stage_active s || is_status SUCCEEDED s) job then WF_RUNNING
    else ACCEPTED.

Definition _with_status (job : WorkflowJob) (definition : value) (now : time) : WorkflowJob :=
  let s := _derive_status job definition in
  job ⟪ job_status := s ⟫
      ⟪ terminal_reason :=
          match terminal_reason job with
          | None => if terminal s then Some (workflow_status_value s) else None
          | Some why => Some why
          end ⟫
      ⟪ job_updated_at := now ⟫.

(** [all(job.stage(dep).status in {SUCCEEDED, SKIPPED} for dep in deps)],
    stopping at the first that is not. *)
Fixpoint deps_done (job : WorkflowJob) (deps : list string) : result RuntimeError bool :=
  match deps with
  | [] => Ok true
  | dep :: deps' =>
      r ← job_stage job dep;
      if stage_done (status r) then deps_done job deps' else Ok false
  end.

Definition record_ready (job : WorkflowJob) (stage_map : list (string * list (string * value)))
    (r : StageRecord) : result RuntimeError bool :=
  match dict_get stage_map (stage_id r) with
  | None => Ok false
  | Some stage =>
      if negb (is_status PENDING (status r)) then Ok false
      else if negb (_stage_enabled stage) then Ok false
      else match depends_on_list (dict_get_or stage "depends_on" (PList [])) with
           | Some deps => deps_done job deps
           | None => Err MalformedDependencies
           end
  end.

Fixpoint ready_loop (job : WorkflowJob) (stage_map : list (string * list (string * value)))
    (rs : list StageRecord) : result RuntimeError (list string) :=
  match rs with
  | [] => Ok []
  | r :: rs' =>
      ready ← record_ready job stage_map r;
      rest ← ready_loop job stage_map rs';
      mret (if ready : bool then stage_id r :: rest else rest)
  end.

Definition ready_stage_ids (job : WorkflowJob) (definition : value)
    : result RuntimeError (list string) :=
  ready_loop job (_stage_map definition) (stages job).

Definition _require_mutable (job : WorkflowJob) : result RuntimeError unit :=
  guard (negb (terminal (job_status job))) (JobTerminal (job_status job)).

(** ** Admission and transitions *)

Section Reducers.
Context (set_order : gset string -> list string).
Context (fingerprint : value -> string) (payload_digest : value -> string).

Definition require_valid (definition : value) : result RuntimeError unit :=
  match validate_workflow_definition set_order definition with
  | Err UnhashableKind => Err WorkflowTypeError
  | Ok [] => Ok tt
  | Ok errors => Err (InvalidWorkflow errors)
  end.

Definition admitted_stage (now : time) (stage : value) : list StageRecord :=
  match stage with
  | PDict d =>
      match dict_get d "id" with
      | Some (PStr id) =>
          [mkStageRecord id 1 (if _stage_enabled d then PENDING else SKIPPED) "" None [] None now]
      | _ => []
      end
  | _ => []
  end.

Definition int_field (d : list (string * value)) (k : string) : Z :=
  match dict_get d k with Some (PInt n) => n | _ => 0 end.

Definition str_field (d : list (string * value)) (k : string) : string :=
  match dict_get d k with Some (PStr s) => s | _ => "" end.

Definition revision_of (definition : value) : Z :=
  match dict_get_or (definition_items definition) "revision" (PInt 1) with
  | PInt n => n | _ => 0 end.

Definition definition_stages (definition : value) : list value :=
  match dict_get (definition_items definition) "stages" with Some (PList l) => l | _ => [] end.

Definition require_text (field v : string) : result RuntimeError unit :=
  guard (str_truthy (py_strip v)) (EmptyField field).

Definition accept_workflow (definition : value) (job service revision : string)
    (payload : value) (key : string) (priority : value) (now : time)
    : result RuntimeError WorkflowJob :=
  _ ← require_valid definition;
  _ ← require_text "job_id" job;
  _ ← require_text "service_name" service;
  _ ← require_text "service_revision" revision;
  _ ← require_text "idempotency_key" key;
  match apply_priority_contract (definition_items priority) []
          (PStr (convention_value GENERATION_HIGHER_IS_URGENT)) false with
  | Err InfinityToInt => Err PriorityOverflow
  | Err _ => Err InvalidPriority
  | Ok contracted =>
      Ok (mkWorkflowJob job service revision
            (str_field (definition_items definition) "id") (revision_of definition)
            (fingerprint definition) (payload_digest payload) key
            (int_field contracted "priority") (str_field contracted "priority_class")
            (int_field contracted "broker_priority") ACCEPTED false None
            (concat (admitted_stage now <$> definition_stages definition)) now now)
  end.

Definition _require_pinned_definition (job : WorkflowJob) (definition : value)
    : result RuntimeError unit :=
  _ ← require_valid definition;
  guard (String.eqb (str_field (definition_items definition) "id") (workflow_id job)
         && (revision_of definition =? workflow_revision job)
         && String.eqb (fingerprint definition) (job_fingerprint job)) RevisionChanged.

(** The checks every stage transition makes first. *)
Definition require_transition (job : WorkflowJob) (definition : value)
    : result RuntimeError unit :=
  _ ← _require_pinned_definition job definition;
  _require_mutable job.

Definition mark_stage_ready (job : WorkflowJob) (definition : value) (id : string) (now : time)
    : result RuntimeError WorkflowJob :=
  _ ← require_transition job definition;
  ready ← ready_stage_ids job definition;
  _ ← guard (bool_decide (id ∈ ready)) NotDependencyReady;
  current ← job_stage job id;
  mret (_with_status (_replace_stage job (current ⟪ status := READY_ ⟫) now) definition now).

Definition submit_stage (job : WorkflowJob) (definition : value) (id key : string) (now : time)
    : result RuntimeError WorkflowJob :=
  _ ← require_transition job definition;
  current ← job_stage job id;
  _ ← guard (is_status READY_ (status current)) StageNotReady;
  _ ← guard (str_truthy (py_strip key)) EmptyStageKey;
  mret (_with_status
          (_replace_stage job
             (current ⟪ status := SUBMITTED ⟫ ⟪ stage_key := key ⟫ ⟪ stage_error := None ⟫) now)
          definition now).

Definition accept_stage (job : WorkflowJob) (definition : value) (id handle : string)
    (now : time) : result RuntimeError WorkflowJob :=
  _ ← require_transition job definition;
  current ← job_stage job id;
  _ ← guard (is_status SUBMITTED (status current)) StageNotSubmitted;
  _ ← guard (str_truthy (py_strip handle)) EmptyHandle;
  mret (_with_status
          (_replace_stage job
             (current ⟪ status := IN_FLIGHT ⟫ ⟪ provider_handle := Some handle ⟫) now)
          definition now).

Definition attempt_running (s : StageStatus) : bool :=
  match s with SUBMITTED | IN_FLIGHT => true | _ => false end.

Definition complete_stage (job : WorkflowJob) (definition : value) (id : string)
    (outputs : list string) (now : time) : result RuntimeError WorkflowJob :=
  _ ← require_transition job definition;
  current ← job_stage job id;
  _ ← guard (attempt_running (status current)) NoAcceptedAttempt;
  mret (_with_status
          (_replace_stage job
             (current ⟪ status := SUCCEEDED ⟫ ⟪ output_refs := outputs ⟫ ⟪ stage_error := None ⟫)
             now)
          definition now).

Definition fail_stage (job : WorkflowJob) (definition : value) (id error : string)
    (retry : bool) (now : time) : result RuntimeError WorkflowJob :=
  _ ← require_transition job definition;
  current ← job_stage job id;
  _ ← guard (attempt_running (status current)) NoActiveAttempt;
  let next_record :=
    if retry
    then mkStageRecord id (attempt current + 1) READY_ "" None [] (Some (str_take 1000 error)) now
    else current ⟪ status := STAGE_FAILED ⟫ ⟪ stage_error := Some (str_take 1000 error) ⟫
           ⟪ stage_updated_at := now ⟫ in
  mret (_with_status (_replace_stage job next_record now) definition now).

Definition mark_outcome_unknown (job : WorkflowJob) (definition : value) (id error : string)
    (now : time) : result RuntimeError WorkflowJob :=
  _ ← require_transition job definition;
  current ← job_stage job id;
  _ ← guard (attempt_running (status current)) NoAmbiguousAttempt;
  mret (_with_status
          (_replace_stage job
             (current ⟪ status := STAGE_UNKNOWN ⟫ ⟪ stage_error := Some (str_take 1000 error) ⟫)
             now)
          definition now).

Definition cancelled_record (reason : string) (now : time) (r : StageRecord) : StageRecord :=
  match status r with
  | PENDING | READY_ =>
      r ⟪ status := STAGE_CANCELLED ⟫ ⟪ stage_error := Some reason ⟫ ⟪ stage_updated_at := now ⟫
  | _ => r
  end.

Definition request_cancel (job : WorkflowJob) (definition : value) (reason : string) (now : time)
    : result RuntimeError WorkflowJob :=
  _ ← _require_pinned_definition job definition;
  if terminal (job_status job) then Ok job
  else
    Ok (_with_status
          (job ⟪ cancel_requested := true ⟫ ⟪ terminal_reason := Some reason ⟫
               ⟪ stages := cancelled_record reason now <$> stages job ⟫)
          definition now).
End Reducers.

(** ** Jobs reached by the reducers *)

Inductive WfOp :=
  | WfReady (id : string) (now : time)
  | WfSubmit (id key : string) (now : time)
  | WfAccept (id handle : string) (now : time)
  | WfComplete (id : string) (outputs : list string) (now : time)
  | WfFail (id error : string) (retry : bool) (now : time)
  | WfUnknown (id error : string) (now : time)
  | WfCancel (reason : string) (now : time).

Section Reachable.
Context (set_order : gset string -> list string).
Context (fingerprint : value -> string) (payload_digest : value -> string).

Definition run_wf (definition : value) (job : WorkflowJob) (op : WfOp)
    : result RuntimeError WorkflowJob :=
  match op with
  | WfReady id now => mark_stage_ready set_order fingerprint job definition id now
  | WfSubmit id key now => submit_stage set_order fingerprint job definition id key now
  | WfAccept id handle now => accept_stage set_order fingerprint job definition id handle now
  | WfComplete id outputs now =>
      complete_stage set_order fingerprint job definition id outputs now
  | WfFail id error retry now =>
      fail_stage set_order fingerprint job definition id error retry now
  | WfUnknown id error now => mark_outcome_unknown set_order fingerprint job definition id error now
  | WfCancel reason now => request_cancel set_order fingerprint job definition reason now
  end.

(** The jobs a definition can give rise to: admitted, then any sequence of
    transitions evaluated against that definition. *)
Inductive reachable (definition : value) : WorkflowJob -> Prop :=
  | reach_accept job service revision payload key priority now j :
      accept_workflow set_order fingerprint payload_digest definition job service revision
        payload key priority now = Ok j ->
      reachable definition j
  | reach_step j op j' :
      reachable definition j -> run_wf definition j op = Ok j' -> reachable definition j'.
End Reachable.

(** What a stage's definition lists as its dependencies. *)
Definition stage_deps_of (definition : value) (id : string) : list string :=
  listed_deps (default [] (dict_get (_stage_map definition) id)).

Definition deps_satisfied (definition : value) (job : WorkflowJob) (id : string) : Prop :=
  forall dep, dep ∈ stage_deps_of definition id ->
  exists r, r ∈ stages job /\ stage_id r = dep /\ stage_done (status r) = true.

(** The moves of one stage record. *)
Inductive stage_move (definition : value) (job : WorkflowJob) (r : StageRecord)
    : StageRecord -> Prop :=
  | move_ready :
      status r = PENDING -> enabled_in definition (stage_id r) = true ->
      deps_satisfied definition job (stage_id r) ->
      stage_move definition job r (r ⟪ status := READY_ ⟫)
  | move_submit key :
      status r = READY_ ->
      stage_move definition job r
        (r ⟪ status := SUBMITTED ⟫ ⟪ stage_key := key ⟫ ⟪ stage_error := None ⟫)
  | move_accept handle :
      status r = SUBMITTED ->
      stage_move definition job r (r ⟪ status := IN_FLIGHT ⟫ ⟪ provider_handle := Some handle ⟫)
  | move_complete outputs :
      attempt_running (status r) = true ->
      stage_move definition job r
        (r ⟪ status := SUCCEEDED ⟫ ⟪ output_refs := outputs ⟫ ⟪ stage_error := None ⟫)
  | move_retry e now :
      attempt_running (status r) = true ->
      stage_move definition job r
        (mkStageRecord (stage_id r) (attempt r + 1) READY_ "" None [] (Some e) now)
  | move_fail e now :
      attempt_running (status r) = true ->
      stage_move definition job r
        (r ⟪ status := STAGE_FAILED ⟫ ⟪ stage_error := Some e ⟫ ⟪ stage_updated_at := now ⟫)
  | move_unknown e :
      attempt_running (status r) = true ->
      stage_move definition job r (r ⟪ status := STAGE_UNKNOWN ⟫ ⟪ stage_error := Some e ⟫).

Lemma job_stage_ok job id r :
  job_stage job id = Ok r -> r ∈ stages job /\ stage_id r = id.
Proof.
  unfold job_stage. destruct (List.find _ _) eqn:Hf; [|done]. intros [= <-].
  apply List.find_some in Hf as [Hin Hid]. split; [by apply list_elem_of_In|].
  by apply String.eqb_eq.
Qed.

Lemma job_stage_in job id r :
  NoDup (stage_id <$> stages job) -> r ∈ stages job -> stage_id r = id -> job_stage job id = Ok r.
Proof.
  unfold job_stage. induction (stages job) as [|r0 rs IH]; intros Hnd Hr Hid; [set_solver|].
  csimpl in *. apply NoDup_cons in Hnd as [Hn Hnd]. apply elem_of_cons in Hr as [->|Hr].
  - by rewrite Hid, String.eqb_refl.
  - destruct (String.eqb_spec (stage_id r0) id) as [He|He].
    + exfalso. apply Hn. rewrite He, <- Hid. by apply list_elem_of_fmap_2.
    + by apply IH.
Qed.

Lemma deps_done_true job deps :
  deps_done job deps = Ok true ->
  forall dep, dep ∈ deps -> exists r, r ∈ stages job /\ stage_id r = dep /\ stage_done (status r) = true.
Proof.
  induction deps as [|d deps IH]; simpl; intros H dep Hdep; [set_solver|].
  destruct (job_stage job d) as [r|] eqn:Hr; [|done]. simpl in H.
  destruct (stage_done (status r)) eqn:Hd; [|done].
  apply elem_of_cons in Hdep as [->|Hdep]; [|by apply IH].
  exists r. by apply job_stage_ok in Hr as [? ?].
Qed.

Lemma record_ready_true job m r :
  record_ready job m r = Ok true ->
  exists stage, dict_get m (stage_id r) = Some stage /\ status r = PENDING /\
    _stage_enabled stage = true /\
    forall dep, dep ∈ listed_deps stage ->
      exists r', r' ∈ stages job /\ stage_id r' = dep /\ stage_done (status r') = true.
Proof.
  unfold record_ready. destruct (dict_get m (stage_id r)) as [stage|]; [|done]. intros H.
  destruct (is_status PENDING (status r)) eqn:Hp; [|done].
  destruct (_stage_enabled stage) eqn:He; [|done]. simpl in H.
  destruct (depends_on_list _) as [deps|] eqn:Hd; [|done].
  exists stage. unfold is_status in Hp. bool_prop. split_and!; try done.
  unfold listed_deps. rewrite Hd. by apply deps_done_true.
Qed.

Lemma ready_loop_in job m rs ready id :
  ready_loop job m rs = Ok ready -> id ∈ ready ->
  exists r, r ∈ rs /\ stage_id r = id /\ record_ready job m r = Ok true.
Proof.
  revert ready. induction rs as [|r rs IH]; simpl; intros ready H Hid.
  { injection H as <-. set_solver. }
  destruct (record_ready job m r) as [b|] eqn:Hb; [|done]. simpl in H.
  destruct (ready_loop job m rs) as [rest|]; [|done]. injection H as <-.
  assert (id ∈ rest -> exists r0, r0 ∈ r :: rs /\ stage_id r0 = id /\
            record_ready job m r0 = Ok true) as Hrest.
  { intros Hin. destruct (IH rest eq_refl Hin) as (r0 & ? & ? & ?). exists r0. set_solver. }
  destruct b; [|by apply Hrest]. apply elem_of_cons in Hid as [->|Hid]; [|by apply Hrest].
  exists r. set_solver.
Qed.

(** The shared start of the stage transitions. *)
Lemma transition_inv {A} set_order fingerprint d job id (k : StageRecord -> result RuntimeError A) a :
  (_ ← require_transition set_order fingerprint job d; current ← job_stage job id; k current) = Ok a ->
  terminal (job_status job) = false /\
  exists r, r ∈ stages job /\ stage_id r = id /\ k r = Ok a.
Proof.
  intros H. unfold require_transition, _require_mutable, guard in H.
  destruct (_require_pinned_definition _ _ _ _); [|done]. cbn [mbind result_bind] in H.
  destruct (terminal (job_status job)); [done|]. split; [done|]. cbn [mbind result_bind negb] in H.
  destruct (job_stage job id) as [r|] eqn:Hr; [|done]. apply job_stage_ok in Hr as [? ?].
  by exists r.
Qed.

Lemma guard_inv {E A} b (e : E) (k : unit -> result E A) a :
  (u ← guard b e; k u) = Ok a -> b = true /\ k tt = Ok a.
Proof. by destruct b. Qed.

(** What a successful transition did: nothing to a job that was already
    terminal (a cancel), the cancel, or one move of one stage. *)
Lemma run_wf_effect set_order fingerprint d job op job' :
  NoDup (stage_id <$> stages job) -> run_wf set_order fingerprint d job op = Ok job' ->
  (job' = job /\ terminal (job_status job) = true) \/
  (terminal (job_status job) = false /\
   ((exists reason now, op = WfCancel reason now /\
       job' = _with_status (job ⟪ cancel_requested := true ⟫ ⟪ terminal_reason := Some reason ⟫
                ⟪ stages := cancelled_record reason now <$> stages job ⟫) d now) \/
    (exists r r' now, r ∈ stages job /\ stage_move d job r r' /\
       job' = _with_status (_replace_stage job r' now) d now))).
Proof.
  intros Hnd H.
  destruct op as [id now|id key now|id handle now|id outputs now|id e retry now|id e now|reason now].
  - simpl in H. unfold mark_stage_ready, require_transition, _require_mutable in H. inv_ok.
    bool_prop. right. split; [done|]. right.
    match goal with Hs : job_stage job id = Ok ?r |- _ =>
      apply job_stage_ok in Hs as [Hin Hid]; exists r end.
    eexists _, now. split; [done|]. split; [|done].
    match goal with Hl : ready_stage_ids job d = Ok _, Hi : id ∈ _ |- _ =>
      destruct (ready_loop_in _ _ _ _ _ Hl Hi) as (r0 & Hr0 & Hid0 & Hready) end.
    destruct (record_ready_true _ _ _ Hready) as (stage & Hst & Hp & Hen & Hdeps).
    pose proof (job_stage_in job id _ Hnd Hr0 Hid0) as E1.
    rewrite (job_stage_in job id _ Hnd Hin Hid) in E1. injection E1 as ->.
    apply move_ready; [done| |].
    + unfold enabled_in. by rewrite Hst.
    + unfold deps_satisfied, stage_deps_of. by rewrite Hst.
  - apply transition_inv in H as [Ht (r & Hin & _ & H)]. right. split; [done|]. right.
    apply guard_inv in H as [Hs H]. apply guard_inv in H as [_ H]. injection H as <-.
    eexists r, _, now. split; [done|]. split; [|done]. apply move_submit. by apply bool_decide_eq_true in Hs.
  - apply transition_inv in H as [Ht (r & Hin & _ & H)]. right. split; [done|]. right.
    apply guard_inv in H as [Hs H]. apply guard_inv in H as [_ H]. injection H as <-.
    eexists r, _, now. split; [done|]. split; [|done]. apply move_accept. by apply bool_decide_eq_true in Hs.
  - apply transition_inv in H as [Ht (r & Hin & _ & H)]. right. split; [done|]. right.
    apply guard_inv in H as [Hs H]. injection H as <-.
    eexists r, _, now. split; [done|]. split; [|done]. by apply move_complete.
  - apply transition_inv in H as [Ht (r & Hin & <- & H)]. right. split; [done|]. right.
    apply guard_inv in H as [Hs H]. injection H as <-.
    eexists r, _, now. split; [done|]. split; [|done].
    destruct retry; [by apply move_retry|by apply move_fail].
  - apply transition_inv in H as [Ht (r & Hin & _ & H)]. right. split; [done|]. right.
    apply guard_inv in H as [Hs H]. injection H as <-.
    eexists r, _, now. split; [done|]. split; [|done]. by apply move_unknown.
  - simpl in H. unfold request_cancel in H.
    destruct (_require_pinned_definition _ _ _ _); [|done]. simpl in H.
    destruct (terminal (job_status job)) eqn:Ht; injection H as <-; [by left|].
    right. split; [done|]. left. eauto.
Qed.

(** ** The invariant of a job *)

(** A stage that has been let go: its dependencies were done. *)
Definition started (s : StageStatus) : bool :=
  match s with PENDING | STAGE_CANCELLED | SKIPPED => false | _ => true end.

Record job_inv (d : value) (ids : list string) (job : WorkflowJob) : Prop := {
  inv_ids : stage_id <$> stages job = ids;
  inv_derived : job_status job = _derive_status job d;
  inv_skipped : forall r, r ∈ stages job -> (status r = SKIPPED <-> enabled_in d (stage_id r) = false);
  inv_deps : forall r, r ∈ stages job -> started (status r) = true ->
    deps_satisfied d job (stage_id r);
  inv_cancelled_stage : forall r, r ∈ stages job -> status r = STAGE_CANCELLED ->
    cancel_requested job = true;
  inv_no_review : forall r, r ∈ stages job -> status r <> STAGE_REVIEW }.

Lemma replace_stage_in job r' now r :
  r ∈ stages (_replace_stage job r' now) ->
  r = r' \/ (r ∈ stages job /\ stage_id r <> stage_id r').
Proof.
  simpl. intros (r0 & -> & Hr0)%list_elem_of_fmap.
  destruct (String.eqb_spec (stage_id r0) (stage_id r')); [by left|by right].
Qed.

Lemma replace_stage_keeps job r' now r :
  r ∈ stages job -> stage_id r <> stage_id r' -> r ∈ stages (_replace_stage job r' now).
Proof.
  intros Hr Hne. simpl. apply list_elem_of_fmap. exists r. split; [|done].
  by destruct (String.eqb_spec (stage_id r) (stage_id r')).
Qed.

Lemma replace_stage_new job r' now r :
  r ∈ stages job -> stage_id r = stage_id r' -> r' ∈ stages (_replace_stage job r' now).
Proof.
  intros Hr He. simpl. apply list_elem_of_fmap. exists r. by rewrite He, String.eqb_refl.
Qed.

Lemma stage_move_id d job r r' : stage_move d job r r' -> stage_id r' = stage_id r.
Proof. by destruct 1. Qed.

Lemma stage_move_from d job r r' : stage_move d job r r' -> stage_done (status r) = false.
Proof. destruct 1 as [H| | | | | |]; destruct (status r); done. Qed.

Lemma replace_stage_ids job r' now : stage_id <$> stages (_replace_stage job r' now) = stage_id <$> stages job.
Proof.
  simpl. rewrite <- list_fmap_compose. apply list_fmap_ext. intros i r _. simpl.
  by destruct (String.eqb_spec (stage_id r) (stage_id r')).
Qed.

Lemma cancelled_ids (rs : list StageRecord) reason now : stage_id <$> (cancelled_record reason now <$> rs) = stage_id <$> rs.
Proof.
  rewrite <- list_fmap_compose. apply list_fmap_ext. intros i r _. simpl.
  unfold cancelled_record. by destruct (status r).
Qed.

(** Dependencies that are done stay done. *)
Lemma deps_satisfied_move d job r r' now id :
  NoDup (stage_id <$> stages job) -> r ∈ stages job -> stage_move d job r r' ->
  deps_satisfied d job id -> deps_satisfied d (_replace_stage job r' now) id.
Proof.
  intros Hnd Hr Hm Hd dep Hdep. destruct (Hd dep Hdep) as (r0 & Hr0 & Hid & Hdone).
  exists r0. split; [|done]. apply replace_stage_keeps; [done|].
  rewrite (stage_move_id _ _ _ _ Hm). intros He.
  pose proof (job_stage_in job _ _ Hnd Hr0 He) as E1.
  rewrite (job_stage_in job _ _ Hnd Hr eq_refl) in E1. injection E1 as ->.
  apply stage_move_from in Hm. congruence.
Qed.

Lemma deps_satisfied_ext d job job' id :
  stages job' = stages job -> deps_satisfied d job id -> deps_satisfied d job' id.
Proof. unfold deps_satisfied. by intros ->. Qed.

Lemma move_inv d ids job r r' now :
  NoDup ids -> job_inv d ids job -> r ∈ stages job -> stage_move d job r r' ->
  job_inv d ids (_with_status (_replace_stage job r' now) d now).
Proof.
  intros Hnd [Hids Hder Hskip Hdeps Hcs Hrev] Hr Hm.
  assert (NoDup (stage_id <$> stages job)) as Hnd' by by rewrite Hids.
  pose proof (stage_move_id _ _ _ _ Hm) as Hid.
  assert (status r' <> SKIPPED /\ status r' <> STAGE_CANCELLED /\ status r' <> STAGE_REVIEW) as Hr'.
  { by destruct Hm. }
  split; try done; unfold _with_status; simpl.
  - exact (eq_trans (replace_stage_ids job r' now) Hids).
  - intros r0 [->|[Hr0 _]]%(replace_stage_in job r' now); [|by apply Hskip].
    rewrite Hid, <- Hskip by done. pose proof (stage_move_from _ _ _ _ Hm).
    split; [tauto|]. intros E. by rewrite E in *.
  - intros r0 [->|[Hr0 _]]%(replace_stage_in job r' now) Hst.
    + apply (deps_satisfied_ext _ (_replace_stage job r' now)); [done|]. rewrite Hid.
      apply (deps_satisfied_move d job r r'); try done.
      destruct Hm as [| | | | | |]; try done; apply Hdeps; try done;
        destruct (status r); done.
    + apply (deps_satisfied_ext _ (_replace_stage job r' now)); [done|].
      apply (deps_satisfied_move d job r r'); try done. by apply Hdeps.
  - intros r0 [->|[Hr0 _]]%(replace_stage_in job r' now) E; [tauto|by apply (Hcs r0)].
  - intros r0 [->|[Hr0 _]]%(replace_stage_in job r' now) E; [tauto|by apply (Hrev r0)].
Qed.

Lemma cancelled_record_status reason now r :
  (status (cancelled_record reason now r) = status r /\ cancelled_record reason now r = r) \/
  (status (cancelled_record reason now r) = STAGE_CANCELLED /\
   (status r = PENDING \/ status r = READY_) /\ stage_id (cancelled_record reason now r) = stage_id r).
Proof. unfold cancelled_record. destruct (status r) eqn:E; simpl; auto 10. Qed.

Lemma cancel_inv d ids job reason now :
  job_inv d ids job ->
  job_inv d ids (_with_status (job ⟪ cancel_requested := true ⟫ ⟪ terminal_reason := Some reason ⟫
                ⟪ stages := cancelled_record reason now <$> stages job ⟫) d now).
Proof.
  intros [Hids Hder Hskip Hdeps Hcs Hrev].
  split; try done; unfold _with_status; simpl.
  - by rewrite cancelled_ids.
  - intros r (r0 & -> & Hr0)%list_elem_of_fmap.
    destruct (cancelled_record_status reason now r0) as [[-> ->]|(-> & Hs & ->)]; [by apply Hskip|].
    rewrite <- Hskip by done. destruct Hs as [-> | ->]; done.
  - intros r (r0 & -> & Hr0)%list_elem_of_fmap Hst dep Hdep.
    destruct (cancelled_record_status reason now r0) as [[_ E]|(E & _)]; rewrite E in *; [|done].
    destruct (Hdeps r0 Hr0 Hst dep Hdep) as (r1 & Hr1 & Hid1 & Hd1).
    exists (cancelled_record reason now r1). simpl. split; [by apply list_elem_of_fmap_2|].
    unfold cancelled_record. by destruct (status r1) eqn:E1; simpl; rewrite ?E1.
  - intros r (r0 & -> & Hr0)%list_elem_of_fmap.
    destruct (cancelled_record_status reason now r0) as [[-> _]|(-> & _)]; [by apply Hrev|done].
Qed.

(** *** Admission *)

Lemma stage_map_fold_lookup (vs : list value) m id :
  (forall st, PDict st ∈ vs -> dict_get st "id" <> Some (PStr id)) ->
  dict_get (fold_left (fun m stage =>
    match stage with
    | PDict d => match dict_get d "id" with Some (PStr id) => dict_set m id d | _ => m end
    | _ => m
    end) vs m) id = dict_get m id.
Proof.
  revert m. induction vs as [|v vs IH]; intros m Hno; [done|]. simpl.
  rewrite IH by (intros st Hst; apply Hno; by right).
  destruct v as [| | | | | | | |st]; try done.
  specialize (Hno st ltac:(left)). destruct (dict_get st "id") as [[]|]; try done.
  rewrite dict_get_set, decide_False by congruence. done.
Qed.

Lemma stage_map_lookup sts (ids : list string) k st id m :
  Forall2 good_stage sts ids -> NoDup ids -> sts !! k = Some st -> ids !! k = Some id ->
  dict_get (fold_left (fun m stage =>
    match stage with
    | PDict d => match dict_get d "id" with Some (PStr id) => dict_set m id d | _ => m end
    | _ => m
    end) (PDict <$> sts) m) id = Some st.
Proof.
  intros Hg. revert k m. induction Hg as [|st0 id0 sts ids Hg0 Hg IH]; intros k m Hnd Hst Hid; [done|].
  apply NoDup_cons in Hnd as [Hn Hnd]. destruct Hg0 as (Hid0 & _). csimpl. rewrite Hid0.
  destruct k as [|k]; simpl in *; simplify_eq; [|by apply (IH k)].
  rewrite stage_map_fold_lookup, dict_get_set; [by rewrite decide_True|].
  intros st' Hst'%list_elem_of_fmap Hid'. destruct Hst' as (st1 & [= ->] & Hst1).
  apply Hn. apply list_elem_of_lookup in Hst1 as (j & Hj).
  destruct (Forall2_lookup_l _ _ _ _ _ Hg Hj) as (id1 & Hj1 & Hgd & _).
  rewrite Hid' in Hgd. injection Hgd as ->. by apply list_elem_of_lookup_2 in Hj1.
Qed.

(** The stages of a definition whose validation succeeded. *)
Record definition_ok (d : value) (sts : list (list (string * value))) (ids : list string)
    (deps : string -> gset string) : Prop := {
  ok_stages : dict_get (definition_items d) "stages" = Some (PList (PDict <$> sts));
  ok_formed : stages_well_formed sts ids deps }.

Lemma definition_stage_map d sts ids deps k st id :
  definition_ok d sts ids deps -> sts !! k = Some st -> ids !! k = Some id ->
  dict_get (_stage_map d) id = Some st.
Proof.
  intros [Hs (Hg & Hnd & _)] Hst Hid. unfold _stage_map, dict_get_or. rewrite Hs. simpl.
  by apply (stage_map_lookup sts ids k).
Qed.

Lemma definition_deps d sts ids deps id :
  definition_ok d sts ids deps -> id ∈ ids ->
  (forall dep, dep ∈ stage_deps_of d id <-> dep ∈ deps id) /\
  (forall dep, dep ∈ stage_deps_of d id -> dep ∈ ids) /\
  exists st, dict_get (_stage_map d) id = Some st /\
    depends_on_list (dict_get_or st "depends_on" (PList [])) = Some (stage_deps_of d id).
Proof.
  intros Hok (k & Hk)%list_elem_of_lookup. pose proof Hok as [Hs (Hg & Hnd & Hd & Hkn & _)].
  destruct (Forall2_lookup_r _ _ _ _ _ Hg Hk) as (st & Hst & _ & _ & [l Hl]).
  pose proof (definition_stage_map _ _ _ _ _ _ _ Hok Hst Hk) as Hm.
  unfold stage_deps_of. rewrite Hm. simpl. split_and!.
  - intros dep. rewrite (Hd k st id Hst Hk). by rewrite elem_of_list_to_set.
  - intros dep. by apply (Hkn k).
  - exists st. split; [done|]. unfold listed_deps. by rewrite Hl.
Qed.

Lemma admitted_stages now sts ids :
  Forall2 good_stage sts ids ->
  stage_id <$> concat (admitted_stage now <$> (PDict <$> sts)) = ids /\
  forall r, r ∈ concat (admitted_stage now <$> (PDict <$> sts)) ->
    exists k st, sts !! k = Some st /\ ids !! k = Some (stage_id r) /\
      status r = if _stage_enabled st then PENDING else SKIPPED.
Proof.
  induction 1 as [|st id sts ids (Hid & _) _ [IH1 IH2]]; [split; [done|]; set_solver|].
  assert (concat (admitted_stage now <$> (PDict <$> st :: sts))
    = mkStageRecord id 1 (if _stage_enabled st then PENDING else SKIPPED) "" None [] None now
      :: concat (admitted_stage now <$> (PDict <$> sts))) as -> by (simpl; by rewrite Hid).
  split; [exact (f_equal (cons id) IH1)|].
  intros r [->|Hr]%elem_of_cons; [by exists 0%nat, st|].
  destruct (IH2 r Hr) as (k & st' & H). by exists (S k), st'.
Qed.

Section Invariants.
Context (set_order : gset string -> list string) (Horder : forall X, set_order X ≡ₚ elements X).
Context (fingerprint : value -> string) (payload_digest : value -> string).

Lemma accept_inv d job service revision payload key priority now j :
  accept_workflow set_order fingerprint payload_digest d job service revision payload key
    priority now = Ok j ->
  exists sts ids deps, definition_ok d sts ids deps /\ job_inv d ids j.
Proof.
  intros H. unfold accept_workflow, require_valid in H.
  destruct (validate_workflow_definition set_order d) as [es|[]] eqn:Hv; [|done].
  destruct es; [|done]. cbn [mbind result_bind] in H. unfold require_text in H.
  do 4 apply guard_inv in H as [_ H].
  destruct (apply_priority_contract _ _ _ _) as [c|[]]; try done. injection H as <-.
  destruct d as [| | | | | | | |dd]; try done.
  destruct (validated_stages set_order dd Horder Hv) as (sts & ids & deps & Hs & Hne & _ & Hwf).
  exists sts, ids, deps. assert (definition_ok (PDict dd) sts ids deps) as Hok by by split.
  split; [done|]. pose proof Hwf as (Hg & Hnd & _).
  destruct (admitted_stages now sts ids Hg) as [Hids Hrec].
  assert (forall r, r ∈ concat (admitted_stage now <$> (PDict <$> sts)) ->
    status r = if enabled_in (PDict dd) (stage_id r) then PENDING else SKIPPED) as Hst.
  { intros r Hr. destruct (Hrec r Hr) as (k & st & Hk & Hi & ->). unfold enabled_in.
    pose proof (definition_stage_map _ _ _ _ _ _ _ Hok Hk Hi) as Hm. by rewrite Hm. }
  unfold definition_stages. simpl. rewrite Hs.
  match goal with |- job_inv _ _ ?J => set (admitted := J) end.
  assert (forall p, p PENDING = false -> p SKIPPED = false -> some_stage p admitted = false)
    as Hnone.
  { intros p Hp1 Hp2. apply existsb_false_Forall, Forall_forall. intros r Hr.
    rewrite (Hst r Hr). by destruct (enabled_in _ _). }
  split; try done.
  - unfold _derive_status. rewrite !Hnone by done. simpl.
    destruct (List.filter _ _) as [|r0 rs] eqn:Hf; [done|]. simpl.
    assert (In r0 (List.filter (fun r => enabled_in (PDict dd) (stage_id r))
      (concat (admitted_stage now <$> (PDict <$> sts))))) as Hin by (rewrite Hf; by left).
    apply List.filter_In in Hin as [Hin He]. apply list_elem_of_In, Hst in Hin.
    by rewrite Hin, He.
  - intros r Hr. rewrite (Hst r Hr). by destruct (enabled_in _ _).
  - intros r Hr. rewrite (Hst r Hr). by destruct (enabled_in _ _).
  - intros r Hr. rewrite (Hst r Hr). by destruct (enabled_in _ _).
  - intros r Hr. rewrite (Hst r Hr). by destruct (enabled_in _ _).
Qed.

Lemma run_wf_inv d sts ids deps job op job' :
  definition_ok d sts ids deps -> job_inv d ids job ->
  run_wf set_order fingerprint d job op = Ok job' -> job_inv d ids job'.
Proof.
  intros [_ (_ & Hnd & _)] Hinv Hrun.
  destruct (run_wf_effect set_order fingerprint d job op job') as
    [[-> _]|[_ [(reason & now & _ & ->)|(r & r' & now & Hr & Hm & ->)]]]; try done.
  - by rewrite (inv_ids _ _ _ Hinv).
  - by apply cancel_inv.
  - by eapply move_inv.
Qed.

Lemma reachable_inv d j :
  reachable set_order fingerprint payload_digest d j ->
  exists sts ids deps, definition_ok d sts ids deps /\ job_inv d ids j.
Proof.
  induction 1 as [job service revision payload key priority now j H|j op j' _ IH H].
  - by eapply accept_inv.
  - destruct IH as (sts & ids & deps & Hok & Hinv). exists sts, ids, deps. split; [done|].
    by eapply run_wf_inv.
Qed.
End Invariants.

(** ** Progress *)

Lemma deps_done_total job deps :
  NoDup (stage_id <$> stages job) ->
  (forall dep, dep ∈ deps -> dep ∈ stage_id <$> stages job) ->
  exists b, deps_done job deps = Ok b /\
    (b = false -> exists r, r ∈ stages job /\ stage_id r ∈ deps /\ stage_done (status r) = false).
Proof.
  intros Hnd. induction deps as [|dep deps IH]; intros Hin; simpl; [by exists true|].
  assert (dep ∈ stage_id <$> stages job) as (r & -> & Hr)%list_elem_of_fmap by (apply Hin; left).
  rewrite (job_stage_in job _ r) by done. cbn [mbind result_bind].
  destruct (stage_done (status r)) eqn:Hd.
  - destruct IH as (b & Hb & Hf). { intros dep' Hdep'. apply Hin. by right. }
    exists b. split; [done|]. intros ->. destruct (Hf eq_refl) as (r' & ? & ? & ?).
    exists r'. split_and!; [done|by right|done].
  - exists false. split; [done|]. intros _. exists r. split_and!; [done|left|done].
Qed.

Lemma ready_loop_total job m rs :
  (forall r, r ∈ rs -> is_ok (record_ready job m r) = true) ->
  exists ready, ready_loop job m rs = Ok ready /\
    forall r, r ∈ rs -> record_ready job m r = Ok true -> stage_id r ∈ ready.
Proof.
  induction rs as [|r rs IH]; intros Hok; simpl.
  { exists []. split; [done|]. set_solver. }
  destruct IH as (rest & Hrest & Hin). { intros r' Hr'. apply Hok. by right. }
  specialize (Hok r ltac:(left)). destruct (record_ready job m r) as [b|] eqn:Hb; [|done].
  simpl. rewrite Hrest. simpl. eexists. split; [done|].
  intros r' [->|Hr']%elem_of_cons Hb'.
  - rewrite Hb' in Hb. injection Hb as <-. left.
  - destruct b; [right|]; by apply Hin.
Qed.

Lemma record_ready_known d sts ids deps job r :
  definition_ok d sts ids deps -> job_inv d ids job -> r ∈ stages job ->
  (exists b, record_ready job (_stage_map d) r = Ok b) /\
  (status r = PENDING -> enabled_in d (stage_id r) = true ->
   record_ready job (_stage_map d) r = deps_done job (stage_deps_of d (stage_id r))).
Proof.
  intros Hok Hinv Hr. pose proof (ok_formed _ _ _ _ Hok) as (_ & Hnd & _).
  assert (stage_id r ∈ ids) as Hid.
  { rewrite <- (inv_ids _ _ _ Hinv). by apply list_elem_of_fmap_2. }
  destruct (definition_deps _ _ _ _ _ Hok Hid) as (_ & Hkn & st & Hst & Hl).
  destruct (deps_done_total job (stage_deps_of d (stage_id r))) as (b & Hb & _).
  { by rewrite (inv_ids _ _ _ Hinv). }
  { by rewrite (inv_ids _ _ _ Hinv). }
  unfold record_ready, enabled_in. rewrite Hst. simpl. rewrite Hl, Hb. split.
  - unfold is_status. case_bool_decide; [|by eauto]. destruct (_stage_enabled st); by eauto.
  - intros -> ->. done.
Qed.

(** The identities of the stages that wait for their dependencies. *)
Definition waiting_ids (d : value) (job : WorkflowJob) : list string :=
  stage_id <$> List.filter (fun r => is_status PENDING (status r) && enabled_in d (stage_id r))
                 (stages job).

Lemma waiting_ids_in d job id :
  id ∈ waiting_ids d job <->
  exists r, r ∈ stages job /\ stage_id r = id /\ status r = PENDING /\ enabled_in d id = true.
Proof.
  unfold waiting_ids. rewrite list_elem_of_fmap. split.
  - intros (r & -> & Hr). apply list_elem_of_In, List.filter_In in Hr as [Hr Hp].
    apply andb_true_iff in Hp as [Hp He]. apply bool_decide_eq_true in Hp.
    exists r. split_and!; try done. by apply list_elem_of_In.
  - intros (r & Hr & <- & Hp & He). exists r. split; [done|].
    apply list_elem_of_In, List.filter_In. split; [by apply list_elem_of_In|].
    rewrite He. unfold is_status. by rewrite bool_decide_eq_true_2.
Qed.

(** While no stage is active and the job is neither cancelled nor settled, a
    stage that is not done waits. *)
Lemma not_done_waits d ids job r :
  job_inv d ids job -> terminal (job_status job) = false -> cancel_requested job = false ->
  some_stage stage_active job = false -> r ∈ stages job -> stage_done (status r) = false ->
  stage_id r ∈ waiting_ids d job.
Proof.
  intros Hinv Ht Hc Hact Hr Hd. apply waiting_ids_in. exists r. split; [done|]. split; [done|].
  assert (forall p, some_stage p job = false -> p (status r) = false) as Hnone.
  { intros p Hp. apply existsb_false_Forall in Hp. rewrite Forall_forall in Hp. by apply Hp. }
  apply Hnone in Hact. rewrite (inv_derived _ _ _ Hinv) in Ht. unfold _derive_status in Ht.
  destruct (some_stage (is_status STAGE_UNKNOWN) job) eqn:H1; [done|].
  destruct (some_stage (is_status STAGE_REVIEW) job) eqn:H2; [done|].
  destruct (some_stage (is_status STAGE_FAILED) job) eqn:H3; [done|].
  apply Hnone in H1, H2, H3.
  pose proof (inv_cancelled_stage _ _ _ Hinv r Hr) as Hcs.
  pose proof (inv_skipped _ _ _ Hinv r Hr) as Hsk.
  destruct (status r) eqn:Hs; try done.
  - split; [done|]. apply not_false_is_true. intros E. by apply Hsk in E.
  - specialize (Hcs eq_refl). congruence.
Qed.

Lemma some_waiting d sts ids deps job r0 :
  definition_ok d sts ids deps -> job_inv d ids job -> terminal (job_status job) = false ->
  cancel_requested job = false -> some_stage stage_active job = false ->
  r0 ∈ stages job -> enabled_in d (stage_id r0) = true ->
  exists x, x ∈ waiting_ids d job.
Proof.
  intros Hok Hinv Ht Hc Hact Hr0 He0.
  destruct (decide (Forall (fun r => stage_done (status r) = true) (stages job))) as [Hall|Hnot].
  - exfalso. rewrite (inv_derived _ _ _ Hinv) in Ht. unfold _derive_status in Ht.
    destruct (some_stage (is_status STAGE_UNKNOWN) job); [done|].
    destruct (some_stage (is_status STAGE_REVIEW) job); [done|].
    destruct (some_stage (is_status STAGE_FAILED) job); [done|]. rewrite Hc in Ht.
    set (enabled := List.filter _ _) in *.
    assert (In r0 enabled) as Hin.
    { apply List.filter_In. split; [by apply list_elem_of_In|done]. }
    assert (forallb (fun r => stage_done (status r)) enabled = true) as Hd.
    { apply forallb_true_Forall, Forall_forall. intros r Hr%list_elem_of_In.
      apply List.filter_In in Hr as [Hr _]. rewrite Forall_forall in Hall.
      by apply Hall, list_elem_of_In. }
    rewrite Hd in Ht. by destruct enabled.
  - apply not_Forall_Exists, Exists_exists in Hnot as (r & Hr & Hd); [|solve_decision].
    apply not_true_is_false in Hd. exists (stage_id r). by eapply not_done_waits.
Qed.

Lemma some_waiting_ready d sts ids deps job x0 :
  definition_ok d sts ids deps -> job_inv d ids job -> terminal (job_status job) = false ->
  cancel_requested job = false -> some_stage stage_active job = false ->
  x0 ∈ waiting_ids d job ->
  exists x, x ∈ waiting_ids d job /\ deps_done job (stage_deps_of d x) = Ok true.
Proof.
  intros Hok Hinv Ht Hc Hact Hx0.
  destruct (decide (Exists (fun x => deps_done job (stage_deps_of d x) = Ok true)
    (waiting_ids d job))) as [Hex|Hno].
  { apply Exists_exists in Hex as (x & ? & ?). eauto. }
  exfalso. pose proof (ok_formed _ _ _ _ Hok) as (_ & Hnd & _ & _ & Hac).
  pose proof (inv_ids _ _ _ Hinv) as Hids.
  apply (stuck_has_cycle ids deps (waiting_ids d job) x0); [done| |done].
  intros x Hx.
  assert (x ∈ ids) as Hxi.
  { apply waiting_ids_in in Hx as (r & Hr & <- & _). rewrite <- Hids. by apply list_elem_of_fmap_2. }
  destruct (definition_deps _ _ _ _ _ Hok Hxi) as (Hdx & Hkn & _).
  destruct (deps_done_total job (stage_deps_of d x)) as (b & Hb & Hf);
    [by rewrite Hids|by rewrite Hids|].
  destruct b. { exfalso. apply Hno, Exists_exists. eauto. }
  destruct (Hf eq_refl) as (r & Hr & Hri & Hnd'). exists (stage_id r). split.
  - by eapply not_done_waits.
  - split_and!; [done|by apply Hkn|by apply Hdx].
Qed.

Section PinnedJobs.
Context (set_order : gset string -> list string) (Horder : forall X, set_order X ≡ₚ elements X).
Context (fingerprint : value -> string) (payload_digest : value -> string).

Lemma reachable_nodup d j :
  reachable set_order fingerprint payload_digest d j -> NoDup (stage_id <$> stages j).
Proof.
  intros (sts & ids & deps & Hok & Hinv)%reachable_inv; [|done].
  rewrite (inv_ids _ _ _ Hinv). by destruct (ok_formed _ _ _ _ Hok) as (_ & ? & _).
Qed.

(** A job stays pinned to the definition it was admitted with. *)
Lemma reachable_pinned d j :
  reachable set_order fingerprint payload_digest d j ->
  _require_pinned_definition set_order fingerprint j d = Ok tt.
Proof.
  induction 1 as [job service revision payload key priority now j H|j op j' Hj IH H].
  - unfold accept_workflow, require_text in H.
    unfold _require_pinned_definition.
    destruct (require_valid set_order d) as [[]|] eqn:Hv; [|done]. cbn [mbind result_bind] in *.
    do 4 apply guard_inv in H as [_ H].
    destruct (apply_priority_contract _ _ _ _) as [c|[]]; try done. injection H as <-. simpl.
    by rewrite !String.eqb_refl, Z.eqb_refl.
  - destruct (run_wf_effect set_order fingerprint d j op j' (reachable_nodup d j Hj) H)
      as [[-> _]|[_ [(reason & now & _ & ->)|(r & r' & now & _ & _ & ->)]]]; done.
Qed.
End PinnedJobs.

Definition settled (s : StageStatus) : bool :=
  match s with
  | SUCCEEDED | STAGE_FAILED | STAGE_CANCELLED | STAGE_UNKNOWN | STAGE_REVIEW | SKIPPED => true
  | PENDING | READY_ | SUBMITTED | IN_FLIGHT => false
  end.

Lemma move_not_settled d job r r' : stage_move d job r r' -> settled (status r) = false.
Proof. destruct 1 as [H| | | | | |]; destruct (status r); done. Qed.

(** *** A sample run *)

Definition sample_definition : value := PDict (sample_workflow two_stages).
Definition const_text (s : string) (_ : value) : string := s.

Definition admit_sample (d : value) : result RuntimeError WorkflowJob :=
  accept_workflow elements (const_text "fp") (const_text "pd") d "job" "svc" "r1" PNone "key"
    PNone 0.

Fixpoint run_wfs (d : value) (job : WorkflowJob) (ops : list WfOp)
    : result RuntimeError WorkflowJob :=
  match ops with
  | [] => Ok job
  | op :: ops' =>
      job' ← run_wf elements (const_text "fp") d job op;
      run_wfs d job' ops'
  end.

Definition sample_run (d : value) (ops : list WfOp) : result RuntimeError WorkflowJob :=
  job ← admit_sample d;
  run_wfs d job ops.

Lemma sample_run_reachable d ops j :
  sample_run d ops = Ok j -> reachable elements (const_text "fp") (const_text "pd") d j.
Proof.
  unfold sample_run. destruct (admit_sample d) as [j0|] eqn:Ha; [|done].
  apply reach_accept in Ha. cbn [mbind result_bind]. revert j0 Ha.
  induction ops as [|op ops IH]; simpl; intros j0 Ha Hrun; [by simplify_eq|].
  destruct (run_wf elements (const_text "fp") d j0 op) as [j1|] eqn:Hop; [|done].
  eapply IH; [|exact Hrun]. by eapply reach_step.
Qed.

(** Two stages run in order, the first retried once. *)
Definition sample_ops : list WfOp :=
  [WfReady "draft" 1; WfSubmit "draft" "k1" 2; WfFail "draft" "boom" true 3;
   WfSubmit "draft" "k2" 4; WfAccept "draft" "h" 5; WfComplete "draft" ["out"] 6].

Lemma sample_run_ok : is_ok (sample_run sample_definition sample_ops) = true.
Proof. vm_compute. reflexivity. Qed.

(** ** Properties *)

(** Dependencies first.  In every job the reducers can reach, a stage that
    has been made ready (whatever became of it since) has every stage it
    depends on SUCCEEDED or SKIPPED. *)
Theorem dependencies_done_first set_order fingerprint payload_digest d j r dep :
  (forall X, set_order X ≡ₚ elements X) ->
  reachable set_order fingerprint payload_digest d j -> r ∈ stages j ->
  started (status r) = true -> dep ∈ stage_deps_of d (stage_id r) ->
  exists r', job_stage j dep = Ok r' /\ stage_done (status r') = true.
Proof.
  intros Ho Hj Hr Hs Hdep.
  destruct (reachable_inv set_order Ho _ _ d j Hj) as (sts & ids & deps & Hok & Hinv).
  destruct (inv_deps _ _ _ Hinv r Hr Hs dep Hdep) as (r' & Hr' & Hid & Hd). exists r'.
  split; [|done]. apply job_stage_in; [|done..]. by eapply reachable_nodup.
Qed.

Lemma dependencies_done_first_witness :
  exists j r, sample_run sample_definition (sample_ops ++ [WfReady "render" 7]) = Ok j /\
    job_stage j "render" = Ok r /\ status r = READY_ /\
    exists r', job_stage j "draft" = Ok r' /\ stage_done (status r') = true.
Proof.
  destruct (sample_run sample_definition (sample_ops ++ [WfReady "render" 7])) as [j|] eqn:Hj;
    [|vm_compute in Hj; discriminate].
  pose proof Hj as Hj'. vm_compute in Hj'. injection Hj' as Hj'.
  exists j. eexists. split; [reflexivity|]. split; [rewrite <- Hj'; reflexivity|].
  split; [reflexivity|].
  apply (dependencies_done_first elements (const_text "fp") (const_text "pd") sample_definition j
    (mkStageRecord "render" 1 READY_ "" None [] None 0)).
  - intros X. reflexivity.
  - exact (sample_run_reachable sample_definition (sample_ops ++ [WfReady "render" 7]) j Hj).
  - rewrite <- Hj'. right. left.
  - reflexivity.
  - vm_compute. left.
Defined.

(** C33. A workflow never deadlocks.  A reachable job that is not terminal and
    whose cancellation was not requested, with at least one enabled stage, has
    an active stage or a stage that [ready_stage_ids] offers and
    [mark_stage_ready] accepts. *)
Theorem workflow_progress set_order fingerprint payload_digest d j r0 :
  (forall X, set_order X ≡ₚ elements X) ->
  reachable set_order fingerprint payload_digest d j ->
  terminal (job_status j) = false -> cancel_requested j = false ->
  r0 ∈ stages j -> enabled_in d (stage_id r0) = true ->
  some_stage stage_active j = true \/
  exists ready id, ready_stage_ids j d = Ok ready /\ id ∈ ready /\
    forall now, is_ok (mark_stage_ready set_order fingerprint j d id now) = true.
Proof.
  intros Ho Hj Ht Hc Hr0 He0.
  destruct (reachable_inv set_order Ho _ _ d j Hj) as (sts & ids & deps & Hok & Hinv).
  destruct (some_stage stage_active j) eqn:Hact; [by left|right].
  destruct (some_waiting d sts ids deps j r0) as (x0 & Hx0); [done..|].
  destruct (some_waiting_ready d sts ids deps j x0) as (x & Hx & Hdone); [done..|].
  apply waiting_ids_in in Hx as (r & Hr & Hid & Hp & He).
  destruct (ready_loop_total j (_stage_map d) (stages j)) as (ready & Hready & Hin).
  { intros r' Hr'. destruct (record_ready_known d sts ids deps j r' Hok Hinv Hr') as [[b ->] _].
    done. }
  destruct (record_ready_known d sts ids deps j r Hok Hinv Hr) as [_ Hrr].
  rewrite Hid in Hrr.
  assert (x ∈ ready) as Hxr by (rewrite <- Hid; apply Hin; [done|]; rewrite Hrr; done).
  exists ready, x. split; [exact Hready|]. split; [done|]. intros now.
  unfold mark_stage_ready, require_transition, _require_mutable, ready_stage_ids.
  rewrite (reachable_pinned set_order Ho fingerprint payload_digest d j Hj), Ht, Hready. simpl.
  rewrite bool_decide_eq_true_2 by done. simpl.
  by rewrite (job_stage_in j x r (reachable_nodup set_order Ho _ _ d j Hj) Hr Hid).
Qed.

Lemma workflow_progress_witness :
  exists j, sample_run sample_definition sample_ops = Ok j /\
    (some_stage stage_active j = true \/
     exists ready id, ready_stage_ids j sample_definition = Ok ready /\ id ∈ ready /\
       forall now, is_ok (mark_stage_ready elements (const_text "fp") j sample_definition id now)
                   = true).
Proof.
  destruct (sample_run sample_definition sample_ops) as [j|] eqn:Hj; [|vm_compute in Hj; discriminate].
  pose proof Hj as Hj'. vm_compute in Hj'. injection Hj' as Hj'.
  exists j. split; [reflexivity|].
  apply (workflow_progress elements (const_text "fp") (const_text "pd") sample_definition j
    (mkStageRecord "render" 1 PENDING "" None [] None 0)).
  - intros X. reflexivity.
  - exact (sample_run_reachable sample_definition sample_ops j Hj).
  - rewrite <- Hj'. reflexivity.
  - rewrite <- Hj'. reflexivity.
  - rewrite <- Hj'. right. left.
  - vm_compute. reflexivity.
Defined.

(** Settled is settled.  No transition of a reachable job changes the
    record of a stage that has succeeded, failed, been cancelled, been skipped
    or whose outcome is unknown, and none changes a job that is terminal: late
    completions are refused and a second cancel returns the job as it is. *)
Theorem settled_stays_settled set_order fingerprint payload_digest d j op j' :
  (forall X, set_order X ≡ₚ elements X) ->
  reachable set_order fingerprint payload_digest d j ->
  run_wf set_order fingerprint d j op = Ok j' ->
  (terminal (job_status j) = true -> j' = j) /\
  forall r, r ∈ stages j -> settled (status r) = true -> job_stage j' (stage_id r) = Ok r.
Proof.
  intros Ho Hj Hrun. pose proof (reachable_nodup set_order Ho _ _ d j Hj) as Hnd.
  pose proof (reachable_nodup set_order Ho fingerprint payload_digest d j'
    (reach_step _ _ _ _ _ _ _ Hj Hrun)) as Hnd'.
  destruct (run_wf_effect set_order fingerprint d j op j' Hnd Hrun)
    as [[-> Ht]|[Ht [(reason & now & _ & ->)|(r' & r'' & now & Hr' & Hm & ->)]]].
  - split; [done|]. intros r Hr _. by apply job_stage_in.
  - split; [congruence|]. intros r Hr Hs. apply job_stage_in; [done| |done].
    simpl. apply list_elem_of_fmap. exists r. split; [|done]. unfold cancelled_record.
    by destruct (status r).
  - split; [congruence|]. intros r Hr Hs. apply job_stage_in; [done| |done].
    apply (replace_stage_keeps j r'' now r Hr). rewrite (stage_move_id _ _ _ _ Hm). intros He.
    pose proof (job_stage_in j _ r Hnd Hr He) as E. rewrite (job_stage_in j _ r' Hnd Hr' eq_refl) in E.
    injection E as ->. apply move_not_settled in Hm. congruence.
Qed.

Lemma settled_stays_settled_witness :
  exists j j', sample_run sample_definition sample_ops = Ok j /\
    run_wf elements (const_text "fp") sample_definition j (WfReady "render" 7) = Ok j' /\
    (terminal (job_status j) = true -> j' = j).
Proof.
  destruct (sample_run sample_definition sample_ops) as [j|] eqn:Hj; [|vm_compute in Hj; discriminate].
  pose proof Hj as Hj'. vm_compute in Hj'. injection Hj' as Hj'.
  destruct (run_wf elements (const_text "fp") sample_definition j (WfReady "render" 7)) as [j'|] eqn:Hs;
    [|rewrite <- Hj' in Hs; vm_compute in Hs; discriminate].
  exists j, j'. split; [reflexivity|]. split; [exact Hs|].
  refine (proj1 (settled_stays_settled elements (const_text "fp") (const_text "pd")
    sample_definition j (WfReady "render" 7) j' _ _ Hs)).
  - intros X. reflexivity.
  - exact (sample_run_reachable sample_definition sample_ops j Hj).
Defined.

(** COMPLETED means done.  The status of a reachable job is always the one
    derived from its stages; it is COMPLETED exactly when some stage is
    enabled, every enabled stage has succeeded, nothing was cancelled and no
    stage failed or is of unknown outcome. *)
Theorem completed_means_done set_order fingerprint payload_digest d j :
  (forall X, set_order X ≡ₚ elements X) ->
  reachable set_order fingerprint payload_digest d j ->
  job_status j = _derive_status j d /\
  (job_status j = COMPLETED <->
   cancel_requested j = false /\
   (forall r, r ∈ stages j -> status r <> STAGE_FAILED /\ status r <> STAGE_UNKNOWN) /\
   (exists r, r ∈ stages j /\ enabled_in d (stage_id r) = true) /\
   forall r, r ∈ stages j -> enabled_in d (stage_id r) = true -> status r = SUCCEEDED).
Proof.
  intros Ho Hj. destruct (reachable_inv set_order Ho _ _ d j Hj) as (sts & ids & deps & Hok & Hinv).
  split; [apply Hinv|]. rewrite (inv_derived _ _ _ Hinv). unfold _derive_status.
  assert (forall s, some_stage (is_status s) j = false <-> forall r, r ∈ stages j -> status r <> s)
    as Hnone.
  { intros s. unfold some_stage, is_status. rewrite existsb_false_Forall, Forall_forall.
    setoid_rewrite bool_decide_eq_false. done. }
  rewrite (proj2 (Hnone STAGE_REVIEW)) by apply (inv_no_review _ _ _ Hinv).
  destruct (some_stage (is_status STAGE_UNKNOWN) j) eqn:Hu.
  { apply not_false_iff_true in Hu. rewrite Hnone in Hu. split; [done|]. intros (_ & H & _).
    exfalso. apply Hu. intros r Hr. by apply H. }
  destruct (some_stage (is_status STAGE_FAILED) j) eqn:Hf.
  { apply not_false_iff_true in Hf. rewrite Hnone in Hf. split; [done|]. intros (_ & H & _).
    exfalso. apply Hf. intros r Hr. by apply H. }
  rewrite Hnone in Hu, Hf. destruct (cancel_requested j).
  { split; [by case_match|by intros []]. }
  set (enabled := List.filter _ _).
  assert (forall r, r ∈ enabled <-> r ∈ stages j /\ enabled_in d (stage_id r) = true) as Hen.
  { intros r. unfold enabled. by rewrite list_elem_of_In, List.filter_In, <- list_elem_of_In. }
  assert (forallb (fun r => stage_done (status r)) enabled = true <->
    forall r, r ∈ stages j -> enabled_in d (stage_id r) = true -> status r = SUCCEEDED) as Hall.
  { rewrite forallb_true_Forall, Forall_forall. setoid_rewrite Hen. split.
    - intros H r Hr He. specialize (H r (conj Hr He)).
      pose proof (inv_skipped _ _ _ Hinv r Hr) as Hs. destruct (status r); try done.
      rewrite (proj1 Hs eq_refl) in He. done.
    - intros H r [Hr He]. by rewrite (H r Hr He). }
  destruct (forallb (fun r => stage_done (status r)) enabled).
  - rewrite andb_true_r. destruct enabled as [|r0 rs]; simpl.
    + split; [by case_match|]. intros (_ & _ & (r & Hr & He) & _).
      assert (r ∈ []) as H; [by apply Hen|by apply not_elem_of_nil in H].
    + split; [|done]. intros _. split_and!; [done| | |tauto].
      * intros r Hr. split; [by apply Hf|by apply Hu].
      * exists r0. apply Hen. left.
  - rewrite andb_false_r. split; [by case_match|]. intros (_ & _ & _ & H). by apply Hall in H.
Qed.

Lemma completed_means_done_witness :
  exists j, sample_run sample_definition
              (sample_ops ++ [WfReady "render" 7; WfSubmit "render" "k3" 8; WfComplete "render" [] 9])
            = Ok j /\ job_status j = _derive_status j sample_definition /\ job_status j = COMPLETED.
Proof.
  destruct (sample_run sample_definition
    (sample_ops ++ [WfReady "render" 7; WfSubmit "render" "k3" 8; WfComplete "render" [] 9]))
    as [j|] eqn:Hj; [|vm_compute in Hj; discriminate].
  pose proof Hj as Hj'. vm_compute in Hj'. injection Hj' as Hj'.
  exists j. split; [reflexivity|]. split; [|rewrite <- Hj'; reflexivity].
  refine (proj1 (completed_means_done elements (const_text "fp") (const_text "pd")
    sample_definition j _ _)).
  - intros X. reflexivity.
  - exact (sample_run_reachable sample_definition _ j Hj).
Defined.

(** ** What modelling showed *)

Definition disabled_workflow : value :=
  PDict (sample_workflow
    [PDict [("id", PStr "only"); ("kind", PStr "qc"); ("operation", PStr "run");
            ("enabled_by_default", PBool false)]]).

(** A workflow all of whose stages are disabled is admitted, and no transition
    ever makes it terminal except a cancel. *)
Lemma disabled_workflow_never_completes :
  exists j, admit_sample disabled_workflow = Ok j /\ job_status j = ACCEPTED /\
    ready_stage_ids j disabled_workflow = Ok [].
Proof. eexists. split; [vm_compute; reflexivity|]. done. Qed.

(** After a cancel was requested, a retried stage is READY again and can be
    submitted to a provider again. *)
Lemma retry_after_cancel_resubmits :
  exists j r, sample_run sample_definition
      [WfReady "draft" 1; WfSubmit "draft" "k1" 2; WfCancel "stop" 3;
       WfFail "draft" "boom" true 4; WfSubmit "draft" "k2" 5] = Ok j /\
    cancel_requested j = true /\ job_stage j "draft" = Ok r /\
    status r = SUBMITTED /\ attempt r = 2.
Proof. do 2 eexists. split; [vm_compute; reflexivity|]. done. Qed.
