(* ===== verification/WorkflowStore.v ===== *)
(** * WorkflowStore: the stores of workflow jobs

    Models [InMemoryWorkflowStore] and [FileWorkflowStore] of
    [scripts/workflow_runtime.py], with the dictionary form of jobs that the
    file store writes and reads back.  A file's JSON text is represented by the
    value it parses to.  [str_of] and [float_of_str] stand for [str()] of a
    value that is not a string and [float()] of a string, which the code only
    meets in a document it did not write. *)

From S2P Require Import Prelude PyValue Graph Priority WorkflowContracts WorkflowRuntime.

Record WorkflowStore := mkWorkflowStore {
  ws_jobs : gmap string WorkflowJob;
  ws_idempotency : gmap (string * string) (string * string) }.

Definition empty_workflow_store : WorkflowStore := mkWorkflowStore ∅ ∅.

(** ** Dictionary form *)

Definition stage_status_value (s : StageStatus) : string :=
  match s with
  | PENDING => "pending" | READY_ => "ready" | SUBMITTED => "submitted"
  | IN_FLIGHT => "in_flight" | SUCCEEDED => "succeeded" | STAGE_FAILED => "failed"
  | STAGE_CANCELLED => "cancelled" | STAGE_UNKNOWN => "outcome_unknown"
  | STAGE_REVIEW => "awaiting_review" | SKIPPED => "skipped"
  end.

Definition all_stage_statuses : list StageStatus :=
  [PENDING; READY_; SUBMITTED; IN_FLIGHT; SUCCEEDED; STAGE_FAILED; STAGE_CANCELLED;
   STAGE_UNKNOWN; STAGE_REVIEW; SKIPPED].

(** [StageStatus(s)] *)
Definition stage_status_of (s : string) : option StageStatus :=
  List.find (fun t => String.eqb (stage_status_value t) s) all_stage_statuses.

Definition all_workflow_statuses : list WorkflowStatus :=
  [ACCEPTED; WF_RUNNING; COMPLETED; FAILED; CANCELLED; OUTCOME_UNKNOWN; AWAITING_REVIEW].

(** [WorkflowStatus(s)] *)
Definition workflow_status_of (s : string) : option WorkflowStatus :=
  List.find (fun t => String.eqb (workflow_status_value t) s) all_workflow_statuses.

Definition opt_str (o : option string) : value := match o with Some s => PStr s | None => PNone end.

Definition _stage_to_dict (r : StageRecord) : value :=
  PDict [("stage_id", PStr (stage_id r)); ("attempt", PInt (attempt r));
         ("status", PStr (stage_status_value (status r)));
         ("idempotency_key", PStr (stage_key r)); ("provider_handle", opt_str (provider_handle r));
         ("output_refs", PList (PStr <$> output_refs r)); ("error", opt_str (stage_error r));
         ("updated_at", PFloat (stage_updated_at r))].

Definition _job_to_dict (j : WorkflowJob) : value :=
  PDict [("job_id", PStr (job_id j)); ("service_name", PStr (service_name j));
         ("service_revision", PStr (service_revision j)); ("workflow_id", PStr (workflow_id j));
         ("workflow_revision", PInt (workflow_revision j));
         ("workflow_fingerprint", PStr (job_fingerprint j));
         ("payload_digest", PStr (job_payload_digest j));
         ("idempotency_key", PStr (idempotency_key j)); ("priority", PInt (job_priority j));
         ("priority_class", PStr (job_priority_class j));
         ("broker_priority", PInt (job_broker_priority j));
         ("status", PStr (workflow_status_value (job_status j)));
         ("cancel_requested", PBool (cancel_requested j));
         ("terminal_reason", opt_str (terminal_reason j));
         ("stages", PList (_stage_to_dict <$> stages j));
         ("created_at", PFloat (job_created_at j)); ("updated_at", PFloat (job_updated_at j))].

(** [int(v)] *)
Definition py_int (v : value) : result RuntimeError Z :=
  match v with
  | PInt n => Ok n
  | PBool b => Ok (Z.b2z b)
  | PFloat us => Ok (int_seconds us)
  | PInfinity => Err StoreOverflow
  | PStr s => match int_of_str s with Some n => Ok n | None => Err BadStore end
  | _ => Err BadStore
  end.

Section Codec.
Context (str_of : value -> string) (float_of_str : string -> option time).

Definition py_str (v : value) : string := match v with PStr s => s | _ => str_of v end.

(** [float(v)], of finite result. *)
Definition py_float (v : value) : result RuntimeError time :=
  match v with
  | PFloat us => Ok us
  | PInt n => Ok (seconds n)
  | PBool b => Ok (seconds (Z.b2z b))
  | PStr s => match float_of_str s with Some t => Ok t | None => Err BadStore end
  | _ => Err BadStore
  end.

Definition _required (d : list (string * value)) (k : string) : result RuntimeError value :=
  match dict_get d k with Some v => Ok v | None => Err BadStore end.

Definition opt_field (d : list (string * value)) (k : string) : option string :=
  match dict_get d k with None | Some PNone => None | Some v => Some (py_str v) end.

(** Iterating a value that must be a sequence; a [str] yields its
    characters, a dict its keys. *)
Definition py_iter (v : value) : result RuntimeError (list value) :=
  match v with
  | PList l => Ok l
  | PStr s => Ok ((fun c => PStr (String.String c String.EmptyString)) <$> String.list_ascii_of_string s)
  | PDict d => Ok ((fun i => PStr i.1) <$> d)
  | _ => Err BadStore
  end.

Definition _stage_from_dict (v : value) : result RuntimeError StageRecord :=
  match v with
  | PDict d =>
      refs ← _required d "output_refs";
      refs ← py_iter refs;
      sid ← _required d "stage_id";
      att ← _required d "attempt";
      att ← py_int att;
      st ← _required d "status";
      st ← (match stage_status_of (py_str st) with Some s => Ok s | None => Err BadStore end);
      key ← _required d "idempotency_key";
      upd ← _required d "updated_at";
      upd ← py_float upd;
      Ok (mkStageRecord (py_str sid) att st (py_str key) (opt_field d "provider_handle")
            (py_str <$> refs) (opt_field d "error") upd)
  | _ => Err BadStore
  end.

Fixpoint map_result {A B} (f : A -> result RuntimeError B) (l : list A)
    : result RuntimeError (list B) :=
  match l with
  | [] => Ok []
  | a :: l' =>
      b ← f a;
      bs ← map_result f l';
      Ok (b :: bs)
  end.

Definition _job_from_dict (v : value) : result RuntimeError WorkflowJob :=
  match v with
  | PDict d =>
      ss ← _required d "stages";
      ss ← py_iter ss;
      ss ← map_result _stage_from_dict ss;
      jid ← _required d "job_id";
      svc ← _required d "service_name";
      rev ← _required d "service_revision";
      wid ← _required d "workflow_id";
      wrev ← _required d "workflow_revision";
      wrev ← py_int wrev;
      fp ← _required d "workflow_fingerprint";
      dig ← _required d "payload_digest";
      key ← _required d "idempotency_key";
      pri ← _required d "priority";
      pri ← py_int pri;
      pcl ← _required d "priority_class";
      bp ← _required d "broker_priority";
      bp ← py_int bp;
      st ← _required d "status";
      st ← (match workflow_status_of (py_str st) with Some s => Ok s | None => Err BadStore end);
      can ← _required d "cancel_requested";
      cre ← _required d "created_at";
      cre ← py_float cre;
      upd ← _required d "updated_at";
      upd ← py_float upd;
      Ok (mkWorkflowJob (py_str jid) (py_str svc) (py_str rev) (py_str wid) wrev (py_str fp)
            (py_str dig) (py_str key) pri (py_str pcl) bp st (py_truthy can)
            (opt_field d "terminal_reason") ss cre upd)
  | _ => Err BadStore
  end.

(** ** The document *)

Definition _STORE_SCHEMA : string := "workflow-runtime-store.v1".

Definition idempotency_item (i : (string * string) * (string * string)) : value :=
  PDict [("service_name", PStr i.1.1); ("idempotency_key", PStr i.1.2);
         ("payload_digest", PStr i.2.1); ("job_id", PStr i.2.2)].

(** The document [_write_locked] dumps. *)
Definition store_document (s : WorkflowStore) : value :=
  PDict [("schema", PStr _STORE_SCHEMA);
         ("jobs", PDict ((fun i => (i.1, _job_to_dict i.2)) <$> map_to_list (ws_jobs s)));
         ("idempotency", PList (idempotency_item <$> map_to_list (ws_idempotency s)))].

Fixpoint read_jobs (items : list (string * value)) (jobs : gmap string WorkflowJob)
    : result RuntimeError (gmap string WorkflowJob) :=
  match items with
  | [] => Ok jobs
  | (id, v) :: items' =>
      j ← _job_from_dict v;
      read_jobs items' (<[id := j]> jobs)
  end.

Fixpoint read_index (jobs : gmap string WorkflowJob) (items : list value)
    (index : gmap (string * string) (string * string))
    : result RuntimeError (gmap (string * string) (string * string)) :=
  match items with
  | [] => Ok index
  | PDict d :: items' =>
      svc ← _required d "service_name";
      key ← _required d "idempotency_key";
      dig ← _required d "payload_digest";
      jid ← _required d "job_id";
      match jobs !! py_str jid with
      | None => Err BadStore
      | Some job =>
          _ ← guard (String.eqb (py_str svc) (service_name job)
                     && String.eqb (py_str key) (idempotency_key job)
                     && String.eqb (py_str dig) (job_payload_digest job)) BadStore;
          _ ← guard (bool_decide (index !! (py_str svc, py_str key) = None)) BadStore;
          read_index jobs items' (<[(py_str svc, py_str key) := (py_str dig, py_str jid)]> index)
      end
  | _ => Err BadStore
  end.

(** The checks and the decoding of [_read_locked] on the parsed text. *)
Definition read_document (raw : value) : result RuntimeError WorkflowStore :=
  match raw with
  | PDict d =>
      _ ← guard (match dict_get d "schema" with
                 | Some (PStr s) => String.eqb s _STORE_SCHEMA | _ => false end) BadStore;
      match dict_get d "jobs", dict_get d "idempotency" with
      | Some (PDict jobs_raw), Some (PList idem_raw) =>
          jobs ← read_jobs jobs_raw ∅;
          _ ← guard (forallb (fun i => String.eqb i.1 (job_id i.2)) (map_to_list jobs)) BadStore;
          index ← read_index jobs idem_raw ∅;
          Ok (mkWorkflowStore jobs index)
      | _, _ => Err BadStore
      end
  | _ => Err BadStore
  end.
End Codec.

(** ** Admission, shared by both stores *)

Record CreateRequest := mkCreateRequest {
  req_definition : value; req_job_id : string; req_service : string; req_revision : string;
  req_payload : value; req_key : string; req_priority : value; req_now : time }.

Section Stores.
Context (set_order : gset string -> list string).
Context (fingerprint : value -> string) (payload_digest : value -> string).

(** What [create] decides from the jobs and the index: the prior job, or the
    job to add, or the exception. *)
Definition decide_create (s : WorkflowStore) (q : CreateRequest)
    : result RuntimeError (WorkflowJob * bool) :=
  let payload_hash := payload_digest (req_payload q) in
  match ws_idempotency s !! (req_service q, req_key q) with
  | Some (prior_hash, prior_job_id) =>
      if negb (String.eqb prior_hash payload_hash) then Err IdempotencyConflict
      else match ws_jobs s !! prior_job_id with
           | Some job => Ok (job, false)
           | None => Err JobKeyError
           end
  | None =>
      match ws_jobs s !! req_job_id q with
      | Some _ => Err JobExists
      | None =>
          job ← accept_workflow set_order fingerprint payload_digest (req_definition q)
                  (req_job_id q) (req_service q) (req_revision q) (req_payload q) (req_key q)
                  (req_priority q) (req_now q);
          Ok (job, true)
      end
  end.

Definition with_job (s : WorkflowStore) (q : CreateRequest) (job : WorkflowJob) : WorkflowStore :=
  mkWorkflowStore (<[req_job_id q := job]> (ws_jobs s))
    (<[(req_service q, req_key q) := (payload_digest (req_payload q), req_job_id q)]>
       (ws_idempotency s)).

(** ** InMemoryWorkflowStore *)

Definition mem_create (s : WorkflowStore) (q : CreateRequest)
    : result RuntimeError (WorkflowJob * bool) * WorkflowStore :=
  match decide_create s q with
  | Ok (job, true) => (Ok (job, true), with_job s q job)
  | r => (r, s)
  end.

Definition mem_get_job (s : WorkflowStore) (id : string) : result RuntimeError WorkflowJob :=
  match ws_jobs s !! id with Some j => Ok j | None => Err UnknownJob end.

Definition mem_put (s : WorkflowStore) (job : WorkflowJob)
    : result RuntimeError WorkflowJob * WorkflowStore :=
  match ws_jobs s !! job_id job with
  | None => (Err UnknownJob, s)
  | Some _ => (Ok job, mkWorkflowStore (<[job_id job := job]> (ws_jobs s)) (ws_idempotency s))
  end.

(** ** FileWorkflowStore *)

Context (str_of : value -> string) (float_of_str : string -> option time).

(** What the path holds. *)
Inductive FileContent :=
  | NoFile
  | Unreadable
  | NotJson
  | Document (v : value).

Record FileStore := mkFileStore { memory : WorkflowStore; loaded : bool; disk : FileContent }.

Definition fresh_file_store (content : FileContent) : FileStore :=
  mkFileStore empty_workflow_store false content.

(** [_read_locked]: [_loaded] is set before the file is read. *)
Definition _read_locked (f : FileStore) : result RuntimeError unit * FileStore :=
  if loaded f then (Ok tt, f)
  else
    let f' := mkFileStore (memory f) true (disk f) in
    match disk f with
    | NoFile => (Ok tt, f')
    | Unreadable | NotJson => (Err BadStore, f')
    | Document v =>
        match read_document str_of float_of_str v with
        | Ok s => (Ok tt, mkFileStore s true (disk f))
        | Err e => (Err e, f')
        end
    end.

(** How a [_write_locked] goes: it succeeds, fails before [os.replace] (the
    file is untouched), or fails after it (in the directory [fsync]). *)
Inductive WriteOutcome := Wrote | FailedBeforeReplace | FailedAfterReplace.

Definition _write_locked (f : FileStore) (s : WorkflowStore) (w : WriteOutcome)
    : result RuntimeError unit * FileStore :=
  match w with
  | Wrote => (Ok tt, mkFileStore (memory f) (loaded f) (Document (store_document s)))
  | FailedBeforeReplace => (Err UnableToPersist, f)
  | FailedAfterReplace =>
      (Err UnableToPersist, mkFileStore (memory f) (loaded f) (Document (store_document s)))
  end.

(** [self._write_locked(...)], then the new state in memory. *)
Definition commit {A} (f : FileStore) (s : WorkflowStore) (w : WriteOutcome) (a : A)
    : result RuntimeError A * FileStore :=
  match _write_locked f s w with
  | (Ok _, f') => (Ok a, mkFileStore s (loaded f') (disk f'))
  | (Err e, f') => (Err e, f')
  end.

Definition file_create (f : FileStore) (q : CreateRequest) (w : WriteOutcome)
    : result RuntimeError (WorkflowJob * bool) * FileStore :=
  match _read_locked f with
  | (Err e, f1) => (Err e, f1)
  | (Ok _, f1) =>
      match decide_create (memory f1) q with
      | Ok (job, true) => commit f1 (with_job (memory f1) q job) w (job, true)
      | r => (r, f1)
      end
  end.

Definition file_get (f : FileStore) (id : string) : result RuntimeError WorkflowJob * FileStore :=
  match _read_locked f with
  | (Err e, f1) => (Err e, f1)
  | (Ok _, f1) => (mem_get_job (memory f1) id, f1)
  end.

(** The identity fields [put] compares, in order. *)
Definition identity_checks (job current : WorkflowJob) : list (string * bool) :=
  [("service_name", String.eqb (service_name job) (service_name current));
   ("service_revision", String.eqb (service_revision job) (service_revision current));
   ("workflow_id", String.eqb (workflow_id job) (workflow_id current));
   ("workflow_revision", workflow_revision job =? workflow_revision current);
   ("workflow_fingerprint", String.eqb (job_fingerprint job) (job_fingerprint current));
   ("payload_digest", String.eqb (job_payload_digest job) (job_payload_digest current));
   ("idempotency_key", String.eqb (idempotency_key job) (idempotency_key current))].

Definition check_put (s : WorkflowStore) (job : WorkflowJob) : result RuntimeError unit :=
  match ws_jobs s !! job_id job with
  | None => Err UnknownJob
  | Some current =>
      match List.find (fun c => negb c.2) (identity_checks job current) with
      | Some c => Err (IdentityChanged c.1)
      | None =>
          match ws_idempotency s !! (service_name job, idempotency_key job) with
          | Some (_, id) => guard (String.eqb id (job_id job)) IndexMismatch
          | None => Err IndexMismatch
          end
      end
  end.

Definition file_put (f : FileStore) (job : WorkflowJob) (w : WriteOutcome)
    : result RuntimeError WorkflowJob * FileStore :=
  match _read_locked f with
  | (Err e, f1) => (Err e, f1)
  | (Ok _, f1) =>
      match check_put (memory f1) job with
      | Err e => (Err e, f1)
      | Ok _ => commit f1 (mkWorkflowStore (<[job_id job := job]> (ws_jobs (memory f1)))
                             (ws_idempotency (memory f1))) w job
      end
  end.
End Stores.

(** ** Round trip *)

(** Jobs are stored under their own identity, and the index names a stored job
    of that service, key and payload. *)
Record store_ok (s : WorkflowStore) : Prop := {
  jobs_named : forall id j, ws_jobs s !! id = Some j -> job_id j = id;
  index_points : forall k v, ws_idempotency s !! k = Some v ->
    exists j, ws_jobs s !! v.2 = Some j /\ service_name j = k.1 /\ idempotency_key j = k.2 /\
              job_payload_digest j = v.1 }.

Lemma stage_status_round s : stage_status_of (stage_status_value s) = Some s.
Proof. by destruct s. Qed.

Lemma workflow_status_round s : workflow_status_of (workflow_status_value s) = Some s.
Proof. by destruct s. Qed.

Section RoundTrip.
Context (str_of : value -> string) (float_of_str : string -> option time).

Lemma map_str (l : list string) : py_str str_of <$> (PStr <$> l) = l.
Proof. induction l as [|x l IH]; csimpl; [done|]. by rewrite IH. Qed.

Lemma stage_dict_round r :
  _stage_from_dict str_of float_of_str (_stage_to_dict r) = Ok r.
Proof.
  destruct r as [sid att st key handle refs err upd].
  unfold _stage_from_dict, _stage_to_dict, _required, opt_field. simpl.
  rewrite stage_status_round. simpl. rewrite map_str. by destruct handle, err.
Qed.

Lemma map_result_round {A B} (f : B -> result RuntimeError A) (g : A -> B) l :
  (forall a, f (g a) = Ok a) -> map_result f (g <$> l) = Ok l.
Proof.
  intros H. induction l as [|a l IH]; csimpl; [done|]. rewrite H. cbn [mbind result_bind].
  by rewrite IH.
Qed.

Lemma job_dict_round j : _job_from_dict str_of float_of_str (_job_to_dict j) = Ok j.
Proof.
  destruct j. unfold _job_from_dict, _job_to_dict, _required, opt_field. simpl.
  rewrite map_result_round by apply stage_dict_round. simpl.
  rewrite workflow_status_round. simpl. match goal with |- context [opt_str ?o] => by destruct o end.
Qed.

#[local] Arguments _job_to_dict : simpl never.
#[local] Arguments _job_from_dict : simpl never.

Lemma read_jobs_round items jobs :
  read_jobs str_of float_of_str ((fun i => (i.1, _job_to_dict i.2)) <$> items) jobs
  = Ok (fold_left (fun m i => <[i.1 := i.2]> m) items jobs).
Proof.
  revert jobs. induction items as [|[id j] items IH]; intros jobs; csimpl; [done|].
  rewrite job_dict_round. cbn [mbind result_bind]. by rewrite IH.
Qed.

Lemma fold_insert_map {K A} `{Countable K} (items : list (K * A)) (m : gmap K A) :
  NoDup items.*1 ->
  fold_left (fun m i => <[i.1 := i.2]> m) items m = list_to_map items ∪ m.
Proof.
  revert m. induction items as [|[k a] items IH]; intros m Hnd; simpl.
  { by rewrite (left_id_L ∅ (∪)). }
  apply NoDup_cons in Hnd as [Hk Hnd]. rewrite IH by done.
  rewrite <- insert_union_r by by apply not_elem_of_list_to_map_1.
  by rewrite insert_union_l.
Qed.

Lemma read_index_round (s : WorkflowStore) items index :
  NoDup items.*1 ->
  (forall i, i ∈ items -> index !! i.1 = None) ->
  (forall i, i ∈ items -> exists j, ws_jobs s !! i.2.2 = Some j /\ service_name j = i.1.1 /\
     idempotency_key j = i.1.2 /\ job_payload_digest j = i.2.1) ->
  read_index str_of (ws_jobs s) (idempotency_item <$> items) index
  = Ok (fold_left (fun m i => <[i.1 := i.2]> m) items index).
Proof.
  revert index. induction items as [|[[svc key] [dig jid]] items IH];
    intros index Hnd Hfresh Hpoint; csimpl; [done|].
  apply NoDup_cons in Hnd as [Hk Hnd].
  destruct (Hpoint ((svc, key), (dig, jid)) ltac:(left)) as (j & Hj & H1 & H2 & H3). simpl in *.
  unfold _required. simpl. rewrite Hj. rewrite H1, H2, H3, !String.eqb_refl. simpl.
  rewrite bool_decide_eq_true_2 by (by apply (Hfresh ((svc, key), (dig, jid)) ltac:(left))).
  simpl. apply IH; [done| |].
  - intros [k v] Hi. simpl. rewrite lookup_insert_ne.
    + apply (Hfresh (k, v)). by right.
    + intros <-. apply Hk. by apply (list_elem_of_fmap_2 fst) in Hi.
  - intros i Hi. apply Hpoint. by right.
Qed.

Lemma store_round s :
  store_ok s -> read_document str_of float_of_str (store_document s) = Ok s.
Proof.
  intros [Hnamed Hindex]. unfold read_document, store_document. simpl.
  rewrite read_jobs_round. cbn [mbind result_bind].
  rewrite fold_insert_map by apply NoDup_fst_map_to_list.
  rewrite list_to_map_to_list, (right_id_L ∅ (∪)).
  assert (forallb (fun i => String.eqb i.1 (job_id i.2)) (map_to_list (ws_jobs s)) = true) as ->.
  { apply forallb_true_Forall, Forall_forall. intros [id j] Hi%elem_of_map_to_list.
    apply String.eqb_eq. symmetry. by apply Hnamed. }
  cbn [guard mbind result_bind].
  rewrite read_index_round.
  - cbn [mbind result_bind]. rewrite fold_insert_map by apply NoDup_fst_map_to_list.
    rewrite list_to_map_to_list, (right_id_L ∅ (∪)). by destruct s.
  - apply NoDup_fst_map_to_list.
  - intros i _. apply lookup_empty.
  - intros [k v] Hi%elem_of_map_to_list. by apply Hindex.
Qed.
End RoundTrip.

(** ** Histories of a file store *)

Inductive FileOp :=
  | FileCreate (q : CreateRequest) (w : WriteOutcome)
  | FilePut (job : WorkflowJob) (w : WriteOutcome)
  | FileGet (id : string)
  | FileRestart.

(** The write of an operation does not fail between replacing the file and
    reporting success. *)
Definition clean_write (op : FileOp) : bool :=
  match op with
  | FileCreate _ FailedAfterReplace | FilePut _ FailedAfterReplace => false
  | _ => true
  end.

(** [s2] has every job and index entry of [s1], the identity of jobs intact. *)
Record extends (s1 s2 : WorkflowStore) : Prop := {
  ext_index : ws_idempotency s1 ⊆ ws_idempotency s2;
  ext_jobs : forall id j, ws_jobs s1 !! id = Some j ->
    exists j', ws_jobs s2 !! id = Some j' /\ service_name j' = service_name j /\
      idempotency_key j' = idempotency_key j /\ job_payload_digest j' = job_payload_digest j }.

Lemma extends_refl s : extends s s.
Proof. split; [done|]. intros id j Hj. by exists j. Qed.

Lemma extends_trans s1 s2 s3 : extends s1 s2 -> extends s2 s3 -> extends s1 s3.
Proof.
  intros [H1 G1] [H2 G2]. split; [by etrans|]. intros id j Hj.
  destruct (G1 id j Hj) as (j' & Hj' & ? & ? & ?).
  destruct (G2 id j' Hj') as (j'' & Hj'' & ? & ? & ?). exists j''. split; [done|].
  split_and!; congruence.
Qed.

Section FileHistories.
Context (set_order : gset string -> list string).
Context (fingerprint : value -> string) (payload_digest : value -> string).
Context (str_of : value -> string) (float_of_str : string -> option time).

Definition run_file (f : FileStore) (op : FileOp) : FileStore :=
  match op with
  | FileCreate q w =>
      (file_create set_order fingerprint payload_digest str_of float_of_str f q w).2
  | FilePut job w => (file_put str_of float_of_str f job w).2
  | FileGet id => (file_get str_of float_of_str f id).2
  | FileRestart => fresh_file_store (disk f)
  end.

Definition run_files (f : FileStore) (ops : list FileOp) : FileStore := fold_left run_file ops f.

(** The file holds the state [s]. *)
Definition holds_state (c : FileContent) (s : WorkflowStore) : Prop :=
  match c with
  | NoFile => s = empty_workflow_store
  | Document v => v = store_document s
  | _ => False
  end.

Record file_inv (f : FileStore) (s : WorkflowStore) : Prop := {
  file_state_ok : store_ok s;
  file_on_disk : holds_state (disk f) s;
  file_in_memory : memory f = if loaded f then s else empty_workflow_store }.

Lemma empty_store_ok : store_ok empty_workflow_store.
Proof. split; intros k v H; simpl in H; by rewrite lookup_empty in H. Qed.

Lemma read_locked_inv f s :
  file_inv f s -> _read_locked str_of float_of_str f = (Ok tt, mkFileStore s true (disk f)).
Proof.
  intros [Hok Hd Hm]. unfold _read_locked. destruct (loaded f) eqn:Hl.
  - destruct f; simpl in *. by subst.
  - destruct (disk f); simpl in *; try done; subst; [by rewrite Hm|]. by rewrite store_round.
Qed.

Lemma accept_fields q job :
  accept_workflow set_order fingerprint payload_digest (req_definition q) (req_job_id q)
    (req_service q) (req_revision q) (req_payload q) (req_key q) (req_priority q) (req_now q)
  = Ok job ->
  job_id job = req_job_id q /\ service_name job = req_service q /\
  idempotency_key job = req_key q /\ job_payload_digest job = payload_digest (req_payload q).
Proof.
  intros H. unfold accept_workflow, require_text in H.
  destruct (require_valid _ _); [|done]. cbn [mbind result_bind] in H.
  do 4 apply guard_inv in H as [_ H].
  destruct (apply_priority_contract _ _ _ _) as [c|[]]; try done. by injection H as <-.
Qed.

Lemma decide_create_spec s q job fresh :
  store_ok s -> decide_create set_order fingerprint payload_digest s q = Ok (job, fresh) ->
  if fresh : bool
  then ws_idempotency s !! (req_service q, req_key q) = None /\ ws_jobs s !! req_job_id q = None /\
       store_ok (with_job payload_digest s q job) /\
       extends s (with_job payload_digest s q job) /\ job_id job = req_job_id q
  else ws_idempotency s !! (req_service q, req_key q)
         = Some (payload_digest (req_payload q), job_id job) /\
       ws_jobs s !! job_id job = Some job.
Proof.
  intros [Hn Hi] H. unfold decide_create in H.
  destruct (ws_idempotency s !! _) as [[h jid]|] eqn:Hx.
  - destruct (String.eqb_spec h (payload_digest (req_payload q))) as [->|]; [|done]. simpl in H.
    destruct (ws_jobs s !! jid) as [j|] eqn:Hj; [|done]. injection H as <- <-.
    by rewrite (Hn _ _ Hj).
  - destruct (ws_jobs s !! req_job_id q) eqn:Hj; [done|].
    destruct (accept_workflow _ _ _ _ _ _ _ _ _ _ _) as [j|] eqn:Ha; [|done].
    injection H as <- <-. apply accept_fields in Ha as (H1 & H2 & H3 & H4).
    split_and!; try done.
    + split; simpl.
      * intros id j'. rewrite lookup_insert. case_decide; [|by apply Hn]. intros [= <-]. congruence.
      * intros k v. rewrite lookup_insert. case_decide as Hk.
        -- intros [= <-]. exists j. simpl. rewrite lookup_insert_eq. subst k. done.
        -- intros (j' & Hj' & ?)%Hi. exists j'. rewrite lookup_insert_ne; [done|]. congruence.
    + split; simpl.
      * by apply insert_subseteq.
      * intros id j' Hj'. exists j'. rewrite lookup_insert_ne; [done|]. congruence.
Qed.

Lemma commit_inv {A} f s s' w (a : A) :
  w <> FailedAfterReplace -> file_inv f s -> loaded f = true -> store_ok s' -> extends s s' ->
  exists s'', file_inv (commit f s' w a).2 s'' /\ extends s s'' /\
    ((commit f s' w a).1 = Ok a -> s'' = s').
Proof.
  intros Hw Hf Hl Hok Hext. destruct w; [| |done]; simpl.
  - exists s'. rewrite Hl. split; [by split|done].
  - exists s. split; [done|]. split; [apply extends_refl|done].
Qed.

Lemma check_put_spec s job :
  store_ok s -> check_put s job = Ok tt ->
  let s' := mkWorkflowStore (<[job_id job := job]> (ws_jobs s)) (ws_idempotency s) in
  store_ok s' /\ extends s s'.
Proof.
  intros [Hn Hi] H. unfold check_put in H.
  destruct (ws_jobs s !! job_id job) as [cur|] eqn:Hc; [|done].
  destruct (List.find _ _) as [c|] eqn:Hf; [done|].
  assert (service_name job = service_name cur /\ idempotency_key job = idempotency_key cur /\
          job_payload_digest job = job_payload_digest cur) as (H1 & H2 & H3).
  { pose proof (List.find_none _ _ Hf) as Hall.
    assert (forall name b, In (name, b) (identity_checks job cur) -> b = true) as Hb.
    { intros name b Hin. specialize (Hall _ Hin). simpl in Hall. by apply negb_false_iff in Hall. }
    split_and!; apply String.eqb_eq.
    - apply (Hb "service_name"). simpl. tauto.
    - apply (Hb "idempotency_key"). simpl. tauto.
    - apply (Hb "payload_digest"). simpl. tauto. }
  split; split; simpl.
  - intros id j. rewrite lookup_insert. case_decide; [|by apply Hn]. intros [= <-]. done.
  - intros k v (j & Hj & ? & ? & ?)%Hi. destruct (decide (job_id job = v.2)) as [E|E].
    + exists job. rewrite E, lookup_insert_eq. rewrite <- E, Hc in Hj. injection Hj as ->.
      split; [done|]. split_and!; congruence.
    + exists j. rewrite lookup_insert_ne by done. done.
  - done.
  - intros id j Hj. destruct (decide (job_id job = id)) as [<-|E].
    + exists job. rewrite lookup_insert_eq. rewrite Hc in Hj. by injection Hj as ->.
    + exists j. by rewrite lookup_insert_ne.
Qed.

Lemma run_file_inv f s op :
  clean_write op = true -> file_inv f s ->
  exists s', file_inv (run_file f op) s' /\ extends s s'.
Proof.
  intros Hc Hf. pose proof (read_locked_inv f s Hf) as Hr. pose proof Hf as [Hok Hd _].
  assert (file_inv (mkFileStore s true (disk f)) s) as Hf' by by split.
  destruct op as [q w|job w|id|]; simpl.
  - unfold file_create. rewrite Hr. simpl.
    destruct (decide_create _ _ _ s q) as [[job fresh]|] eqn:Hdc;
      [|exists s; split; [done|apply extends_refl]].
    pose proof (decide_create_spec s q job fresh Hok Hdc) as Hs.
    destruct fresh; [|exists s; split; [done|apply extends_refl]].
    destruct Hs as (_ & _ & Hok' & Hext & _).
    destruct (commit_inv (mkFileStore s true (disk f)) s (with_job payload_digest s q job) w
      (job, true)) as (s'' & H1 & H2 & _); try done; [by destruct w|eauto].
  - unfold file_put. rewrite Hr. simpl.
    destruct (check_put s job) as [[]|] eqn:Hcp; [|exists s; split; [done|apply extends_refl]].
    destruct (check_put_spec s job Hok Hcp) as [Hok' Hext].
    destruct (commit_inv (mkFileStore s true (disk f)) s
      (mkWorkflowStore (<[job_id job := job]> (ws_jobs s)) (ws_idempotency s)) w job)
      as (s'' & H1 & H2 & _); try done; [by destruct w|eauto].
  - unfold file_get. rewrite Hr. exists s. split; [done|apply extends_refl].
  - exists s. split; [by split|apply extends_refl].
Qed.

Lemma run_files_inv f s ops :
  Forall (fun op => clean_write op = true) ops -> file_inv f s ->
  exists s', file_inv (run_files f ops) s' /\ extends s s'.
Proof.
  intros H. revert f s. induction H as [|op ops Hc _ IH]; intros f s Hf.
  { exists s. split; [done|apply extends_refl]. }
  destruct (run_file_inv f s op Hc Hf) as (s1 & Hf1 & He1).
  destruct (IH _ _ Hf1) as (s2 & Hf2 & He2). exists s2. split; [done|].
  by eapply extends_trans.
Qed.

Lemma fresh_inv : file_inv (fresh_file_store NoFile) empty_workflow_store.
Proof. split; [apply empty_store_ok|done..]. Qed.
End FileHistories.

(** A request that creates the sample workflow's job under a given key. *)
Definition sample_request (id key : string) (payload : value) : CreateRequest :=
  mkCreateRequest sample_definition id "svc" "r1" payload key PNone 0.

Definition no_float (_ : string) : option time := None.

(** The digest used in the samples: the text of a string payload. *)
Definition text_digest (v : value) : string := match v with PStr s => s | _ => "" end.

Definition sample_create (f : FileStore) (id key : string) (payload : value) :=
  file_create elements (const_text "fp") text_digest (const_text "?") no_float f
    (sample_request id key payload) Wrote.

(** ** Properties *)

(** Jobs survive their dictionary form: decoding what [_job_to_dict]
    produced gives back the job, whatever [str] and [float] do on other
    values. *)
Theorem job_dict_roundtrip str_of float_of_str j :
  _job_from_dict str_of float_of_str (_job_to_dict j) = Ok j.
Proof. apply job_dict_round. Qed.

(** Restart and resume.  After any history of creates, puts, gets and
    restarts on a file store that began without a file, in which no write
    failed after the file was replaced, a new store object on the same path
    reads without error, and what it reads is what the old object had in
    memory. *)
Theorem restart_resumes set_order fingerprint payload_digest str_of float_of_str ops :
  Forall (fun op => clean_write op = true) ops ->
  let f := run_files set_order fingerprint payload_digest str_of float_of_str
             (fresh_file_store NoFile) ops in
  let reread := _read_locked str_of float_of_str (fresh_file_store (disk f)) in
  reread.1 = Ok tt /\ store_ok (memory reread.2) /\
  (loaded f = true -> memory reread.2 = memory f).
Proof.
  intros Hops f reread.
  destruct (run_files_inv set_order fingerprint payload_digest str_of float_of_str _ _ ops Hops
    fresh_inv) as (s & Hf & _). fold f in Hf. pose proof Hf as [Hok Hd Hm].
  assert (file_inv (fresh_file_store (disk f)) s) as Hfresh by by split.
  unfold reread. rewrite (read_locked_inv str_of float_of_str _ s Hfresh). simpl.
  split_and!; [done|done|]. intros Hl. by rewrite Hm, Hl.
Qed.

Lemma restart_resumes_witness :
  let f := run_files elements (const_text "fp") text_digest (const_text "?") no_float
             (fresh_file_store NoFile)
             [FileCreate (sample_request "j1" "k" (PStr "p")) Wrote; FileRestart;
              FileGet "j1"] in
  loaded f = true /\
  memory (_read_locked (const_text "?") no_float (fresh_file_store (disk f))).2 = memory f.
Proof.
  intros f. split; [vm_compute; reflexivity|].
  refine (proj2 (proj2 (restart_resumes elements (const_text "fp") text_digest (const_text "?")
    no_float [FileCreate (sample_request "j1" "k" (PStr "p")) Wrote; FileRestart; FileGet "j1"] _)) _).
  - repeat constructor.
  - vm_compute. reflexivity.
Defined.

(** Admission is idempotent for ever.  Once a create has been granted,
    after any later history without a half-failed write (restarts included), a
    create of the same service and key returns the same job and adds nothing
    when the payload is the same, and is a conflict when it is not. *)
Theorem create_idempotent set_order fingerprint payload_digest str_of float_of_str ops0 q w job f1
    ops q' w' :
  let create := file_create set_order fingerprint payload_digest str_of float_of_str in
  let run := run_files set_order fingerprint payload_digest str_of float_of_str in
  Forall (fun op => clean_write op = true) (ops0 ++ ops) ->
  create (run (fresh_file_store NoFile) ops0) q w = (Ok (job, true), f1) ->
  req_service q' = req_service q -> req_key q' = req_key q ->
  let f2 := run f1 ops in
  if String.eqb (payload_digest (req_payload q')) (payload_digest (req_payload q))
  then exists job', (create f2 q' w').1 = Ok (job', false) /\ job_id job' = job_id job /\
         service_name job' = req_service q /\ disk (create f2 q' w').2 = disk f2
  else (create f2 q' w').1 = Err IdempotencyConflict /\ disk (create f2 q' w').2 = disk f2.
Proof.
  intros create run [Hops0 Hops]%Forall_app Hc Hsvc Hkey f2.
  destruct (run_files_inv set_order fingerprint payload_digest str_of float_of_str _ _ ops0 Hops0
    fresh_inv) as (s0 & Hf0 & _). fold run in Hf0.
  unfold create, file_create in Hc. rewrite (read_locked_inv _ _ _ s0 Hf0) in Hc. simpl in Hc.
  destruct (decide_create _ _ _ s0 q) as [[j fresh]|] eqn:Hdc; [|done].
  pose proof (decide_create_spec set_order fingerprint payload_digest s0 q j fresh
    (file_state_ok _ _ Hf0) Hdc) as Hs.
  destruct fresh; [|done]. destruct Hs as (_ & _ & Hok1 & _ & Hid).
  destruct w; simpl in Hc; [|done|done]. injection Hc as -> <-.
  set (s1 := with_job payload_digest s0 q job) in *.
  assert (file_inv (mkFileStore s1 true (Document (store_document s1))) s1) as Hf1 by by split.
  destruct (run_files_inv set_order fingerprint payload_digest str_of float_of_str _ _ ops Hops Hf1)
    as (s2 & Hf2 & Hext). fold run in Hf2. fold f2 in Hf2.
  assert (ws_idempotency s2 !! (req_service q, req_key q)
    = Some (payload_digest (req_payload q), req_job_id q)) as Hix.
  { eapply lookup_weaken; [|apply (ext_index _ _ Hext)]. apply lookup_insert_eq. }
  destruct (index_points _ (file_state_ok _ _ Hf2) _ _ Hix) as (j2 & Hj2 & Hs2 & _). simpl in *.
  pose proof (jobs_named _ (file_state_ok _ _ Hf2) _ _ Hj2) as Hn2.
  unfold create, file_create. rewrite (read_locked_inv _ _ _ s2 Hf2). simpl.
  unfold decide_create. rewrite Hsvc, Hkey, Hix, Hj2.
  rewrite (String.eqb_sym (payload_digest (req_payload q))).
  destruct (String.eqb (payload_digest (req_payload q')) (payload_digest (req_payload q)));
    simpl; [|done].
  exists j2. split_and!; [done|congruence|done|done].
Qed.

Lemma create_idempotent_witness :
  let f1 := (sample_create (fresh_file_store NoFile) "j1" "k" (PStr "p")).2 in
  exists job, (sample_create (fresh_file_store NoFile) "j1" "k" (PStr "p")).1 = Ok (job, true) /\
    (sample_create (fresh_file_store (disk f1)) "j2" "k" (PStr "other")).1
      = Err IdempotencyConflict.
Proof.
  intros f1. destruct (sample_create (fresh_file_store NoFile) "j1" "k" (PStr "p")) as [r f] eqn:Hc.
  destruct r as [[job fresh]|] eqn:Hr; [|vm_compute in Hc; discriminate].
  destruct fresh; [|vm_compute in Hc; discriminate].
  exists job. split; [reflexivity|].
  refine (proj1 (create_idempotent elements (const_text "fp") text_digest (const_text "?") no_float
    [] (sample_request "j1" "k" (PStr "p")) Wrote job f [FileRestart]
    (sample_request "j2" "k" (PStr "other")) Wrote _ Hc _ _)).
  - repeat constructor.
  - reflexivity.
  - reflexivity.
Defined.

(** ** What modelling showed *)

(** After the file could not be read, the same store object treats itself as
    loaded and empty: the next create succeeds and replaces the file, whatever
    jobs it held. *)
Lemma create_after_failed_read_overwrites set_order fingerprint payload_digest str_of float_of_str
    content q job id :
  content = Unreadable \/ content = NotJson ->
  accept_workflow set_order fingerprint payload_digest (req_definition q) (req_job_id q)
    (req_service q) (req_revision q) (req_payload q) (req_key q) (req_priority q) (req_now q)
    = Ok job ->
  let r := file_get str_of float_of_str (fresh_file_store content) id in
  let c := file_create set_order fingerprint payload_digest str_of float_of_str r.2 q Wrote in
  r.1 = Err BadStore /\ c.1 = Ok (job, true) /\
  disk c.2 = Document (store_document (with_job payload_digest empty_workflow_store q job)).
Proof.
  intros Hcontent Ha r c.
  assert (r = (Err BadStore, mkFileStore empty_workflow_store true content)) as Hr.
  { unfold r, file_get, _read_locked. by destruct Hcontent as [-> | ->]. }
  split; [by rewrite Hr|]. unfold c. rewrite Hr. unfold file_create. simpl.
  unfold decide_create. simpl. rewrite !lookup_empty, Ha. done.
Qed.

(** The in-memory store lets [put] change the identity of a job, so that a
    create under its key then returns a job of another service. *)
Lemma memory_put_breaks_index :
  exists s1 job job' s2,
    mem_create elements (const_text "fp") text_digest empty_workflow_store
      (sample_request "j1" "k" (PStr "p")) = (Ok (job, true), s1) /\
    mem_put s1 (job ⟪ service_name := "other" ⟫) = (Ok job', s2) /\
    (mem_create elements (const_text "fp") text_digest s2 (sample_request "j9" "k" (PStr "p"))).1
      = Ok (job', false) /\ service_name job' = "other".
Proof.
  do 4 eexists. split; [vm_compute; reflexivity|]. split; [vm_compute; reflexivity|].
  split; vm_compute; reflexivity.
Qed.
