(* ===== verification/ServicePipeline.v ===== *)
(** * ServicePipeline: the declarative pipeline compiler

    Models [scripts/service_pipeline.py] from [_check_unsafe_value] to
    [resolve_and_compile_pipeline]: reading a pipeline from decoded JSON, the
    structural checks on its stages and loops, and the compiled
    [worker_pipeline].  Error messages are dropped; each exception class is a
    constructor.  A stage or loop identity that is a number, which the code
    accepts, stops the model at [NumericId]. *)

From S2P Require Import Prelude PyValue PyRegex Graph.

(** ** Constants and exceptions *)

Definition SCHEMA_ID : string := "image-pipeline.v1".
Definition CLOSED_KINDS : list string := ["prompt_enhance"; "generate"; "qc"; "correct"; "delegate"].
Definition RETRY_BOUND : Z := 10.
Definition LOOP_BOUND : Z := 5.
Definition VALID_MODES : list string := ["generic"; "legacy_reconcile"].

Definition identifier : re :=
  Seq (Char (fun c => is_letter c || is_char 95 c))
      (Star (Char (fun c => is_letter c || is_digit c || is_char 95 c))).

Definition http_re : re := Seq (word "http") (Seq (Opt (word "s")) (word "://")).
Definition _UNSAFE_URL_RE : re := Seq Begin http_re.

Definition _SHELL_META_RE : re :=
  any_of [Seq (word "$") identifier; Seq (word "%%") identifier;
          Seq (word "{") (Seq (Star (Char (fun c => negb (is_char 125 c))))
            (Seq (one_of "|;`<>") (word "}")))].

Definition api_key_re : re := Seq (word "api") (Seq (Opt (one_of "_-")) (word "key")).

Definition _CREDENTIAL_RE : re :=
  Seq (any_of [api_key_re; word "password"; word "secret"; word "token"; word "auth"; word "bearer"])
      WordEdge.

Definition _SAFE_DOTTED_PATH_RE : re :=
  Seq Begin (Seq (Alt identifier (Plus (Char is_digit)))
    (Seq (Plus (Seq (Char (is_char 46)) identifier)) End)).

Definition _INVALID_PROMPT_TARGET_RE : re :=
  any_of [Seq Begin http_re; one_of "${;`<>|"; api_key_re; word "password"; word "secret";
          word "token"; word "auth"].

Inductive PyError :=
  | PipelineError
  | UnknownProviderError | UnknownStageKindError | CycleError (ids : list string)
  | DuplicateStageIdError | MissingDependencyError | UnsafeFieldError
  | AmbiguousCorrectionLoopError | LoopBoundExceededError | LoopValidationError
  | PipelineValidationError | RetryBoundExceededError | SchemaIdError | UnknownExecutionModeError
  | AttributeError | TypeError | ValueError | OverflowError | KeyError
  | NumericId | OutOfFuel.

(** The subclasses of [PipelineError]. *)
Definition is_pipeline_error (e : PyError) : bool :=
  match e with
  | AttributeError | TypeError | ValueError | OverflowError | KeyError | NumericId | OutOfFuel => false
  | _ => true
  end.

(** ** Data *)

Record Stage := mkStage {
  id : string; kind : string; provider : string; depends_on : list value; retries : value;
  params : list (string * value) }.

Record Loop := mkLoop {
  loop_id : string; trigger_stage_id : string; correction_stage_id : string;
  on_correction : list string; max_iterations : Z }.

Record ServicePipeline := mkServicePipeline {
  schema_id : string; stages : list Stage; max_retries : Z; max_loop_count : Z;
  execution_mode : string; loops : list Loop }.

Definition stage_to_dict (s : Stage) : value :=
  PDict [("id", PStr (id s)); ("kind", PStr (kind s)); ("provider", PStr (provider s));
         ("depends_on", PList (depends_on s)); ("retries", retries s); ("params", PDict (params s))].

Definition loop_to_dict (l : Loop) : value :=
  PDict [("id", PStr (loop_id l)); ("trigger_stage_id", PStr (trigger_stage_id l));
         ("correction_stage_id", PStr (correction_stage_id l));
         ("on_correction", PList (PStr <$> on_correction l));
         ("max_iterations", PInt (max_iterations l))].

(** The stage ids among the [depends_on] entries. *)
Definition dep_names (s : Stage) : list string := omap as_str (depends_on s).

(** [{s.id: s for s in stages}.get(sid)]: the last stage of that id. *)
Definition stage_map (ss : list Stage) (sid : string) : option Stage :=
  List.find (fun s => String.eqb (id s) sid) (rev ss).

(** ** Unsafe content *)

Definition _check_unsafe_value (v : value) : result PyError unit :=
  match v with
  | PStr s =>
      guard (negb (re_match _UNSAFE_URL_RE s)) UnsafeFieldError;;
      guard (negb (re_search _SHELL_META_RE s)) UnsafeFieldError;;
      guard (negb (re_search _CREDENTIAL_RE s)) UnsafeFieldError
  | _ => Ok tt
  end.

(** [_walk_params] of a value that may be a dict; lists are checked one level
    deep, strings only. *)
Fixpoint walk_value (v : value) : result PyError unit :=
  match v with
  | PDict d =>
      (fix walk (items : list (string * value)) : result PyError unit :=
         match items with
         | [] => Ok tt
         | (key, x) :: items' =>
             guard (negb (re_search _CREDENTIAL_RE key)) UnsafeFieldError;;
             guard (negb (String.eqb key "adapter" && is_str x)) UnsafeFieldError;;
             walk_value x;;
             walk items'
         end) d
  | PList l =>
      (fix check (xs : list value) : result PyError unit :=
         match xs with
         | [] => Ok tt
         | x :: xs' => _check_unsafe_value x;; check xs'
         end) l
  | _ => _check_unsafe_value v
  end.

Definition _walk_params (d : list (string * value)) : result PyError unit := walk_value (PDict d).

(** ** Structural checks *)

(** The stages to tell when [sid] is done, in map order. *)
Definition dependents_of (ss : list Stage) (sid : string) : list string :=
  id <$> List.filter (fun s => bool_decide (sid ∈ dep_names s)) ss.

Definition dep_count (ss : list Stage) (sid : string) : Z :=
  match stage_map ss sid with Some s => Z.of_nat (length (depends_on s)) | None => 0 end.

Definition _detect_cycle (ss : list Stage) : result PyError (option (list string)) :=
  match kahn PopFirst (dependents_of ss) (id <$> ss) (dep_count ss) with
  | None => Err OutOfFuel
  | Some ordered =>
      Ok (if (length ordered =? length ss)%nat then None
          else Some (List.filter (fun sid => negb (bool_decide (sid ∈ ordered))) (id <$> ss)))
  end.

Definition _resolve_provider (v : value) (registry : gset string) : result PyError string :=
  guard (hashable v) TypeError;;
  match v with
  | PStr p => guard (bool_decide (p ∈ registry)) UnknownProviderError;; Ok p
  | _ => Err UnknownProviderError
  end.

Section QcWalk.
Context (ss : list Stage) (source : string).

(** The [while] loop of [_has_qc_between]. *)
Fixpoint qc_walk (fuel : nat) (visited queue : list string) : result PyError bool :=
  match fuel with
  | O => Err OutOfFuel
  | S fuel' =>
      match queue with
      | [] => Ok false
      | cur :: rest =>
          if String.eqb cur source then Ok false
          else if decide (cur ∈ visited) then qc_walk fuel' visited rest
          else
            match stage_map ss cur with
            | None => Err KeyError
            | Some s =>
                if String.eqb (kind s) "qc" then Ok true
                else qc_walk fuel' (cur :: visited)
                       (rest ++ List.filter (fun d => negb (bool_decide (d ∈ cur :: visited)))
                                  (dep_names s))
            end
      end
  end.

Definition edge_count : nat := list_sum (length ∘ dep_names <$> ss).

Definition _has_qc_between (target : string) : result PyError bool :=
  qc_walk (S (S edge_count)) [] [target].
End QcWalk.

Fixpoint check_against (ss : list Stage) (a : string) (bs : list string) : result PyError unit :=
  match bs with
  | [] => Ok tt
  | b :: bs' =>
      gated ← _has_qc_between ss a b;
      guard gated AmbiguousCorrectionLoopError;;
      check_against ss a bs'
  end.

Fixpoint check_pairs (ss : list Stage) (correct_ids : list string) : result PyError unit :=
  match correct_ids with
  | [] => Ok tt
  | a :: bs => check_against ss a bs;; check_pairs ss bs
  end.

Definition _check_correction_loop (ss : list Stage) : result PyError unit :=
  check_pairs ss (id <$> List.filter (fun s => String.eqb (kind s) "correct") ss).

(** ** Reading a pipeline *)

(** [v.get], [v.items]: only a dict has them. *)
Definition as_mapping (v : value) : result PyError (list (string * value)) :=
  match v with PDict d => Ok d | _ => Err AttributeError end.

(** [for entry in v]: the keys of a dict, the characters of a string. *)
Definition py_iter (v : value) : result PyError (list value) :=
  match v with
  | PList l => Ok l
  | PDict d => Ok (PStr ∘ fst <$> d)
  | PStr s => Ok ((fun c => PStr (String.String c "")) <$> String.list_ascii_of_string s)
  | _ => Err TypeError
  end.

Definition py_int (v : value) : result PyError Z :=
  match v with
  | PInt n => Ok n
  | PBool b => Ok (Z.b2z b)
  | PFloat us => Ok (int_seconds us)
  | PInfinity => Err OverflowError
  | PNan => Err ValueError
  | PStr s => match int_of_str s with Some n => Ok n | None => Err ValueError end
  | PNone | PList _ | PDict _ => Err TypeError
  end.

(** A truthy identity that is looked up in a set of the ids seen so far. *)
Definition fresh_id (v : value) (seen : list string) (missing duplicate : PyError)
    : result PyError string :=
  guard (py_truthy v) missing;;
  guard (hashable v) TypeError;;
  match v with
  | PStr s => guard (negb (bool_decide (s ∈ seen))) duplicate;; Ok s
  | _ => Err NumericId
  end.

Definition closed_kind (v : value) : result PyError string :=
  guard (hashable v) TypeError;;
  match v with
  | PStr k => guard (bool_decide (k ∈ CLOSED_KINDS)) UnknownStageKindError;; Ok k
  | _ => Err UnknownStageKindError
  end.

Definition as_list (v : value) (e : PyError) : result PyError (list value) :=
  match v with PList l => Ok l | _ => Err e end.

Definition load_stage (registry : gset string) (seen : list string) (entry : value)
    : result PyError Stage :=
  d ← as_mapping entry;
  sid ← fresh_id (dict_get_or d "id" PNone) seen PipelineError DuplicateStageIdError;
  k ← closed_kind (dict_get_or d "kind" PNone);
  p ← _resolve_provider (value_or (dict_get_or d "provider" PNone) (PStr "")) registry;
  deps ← as_list (value_or (dict_get_or d "depends_on" PNone) (PList [])) PipelineError;
  ps ← as_mapping (value_or (dict_get_or d "params" PNone) (PDict []));
  _walk_params ps;;
  Ok (mkStage sid k p deps (dict_get_or d "retries" PNone) ps).

Fixpoint load_stages (registry : gset string) (seen : list string) (entries : list value)
    : result PyError (list Stage) :=
  match entries with
  | [] => Ok []
  | entry :: entries' =>
      s ← load_stage registry seen entry;
      ss ← load_stages registry (id s :: seen) entries';
      Ok (s :: ss)
  end.

(** Every dependency names a stage. *)
Fixpoint check_deps (all_ids : list string) (deps : list value) : result PyError unit :=
  match deps with
  | [] => Ok tt
  | d :: deps' =>
      guard (hashable d) TypeError;;
      guard (match d with PStr s => bool_decide (s ∈ all_ids) | _ => false end)
        MissingDependencyError;;
      check_deps all_ids deps'
  end.

Fixpoint check_all_deps (all_ids : list string) (ss : list Stage) : result PyError unit :=
  match ss with
  | [] => Ok tt
  | s :: ss' => check_deps all_ids (depends_on s);; check_all_deps all_ids ss'
  end.

(** A loop field that must name a stage of a given kind. *)
Definition stage_ref (ss : list Stage) (v : value) (k : string) : result PyError string :=
  guard (py_truthy v) LoopValidationError;;
  guard (hashable v) TypeError;;
  match v with
  | PStr sid =>
      guard (bool_decide (sid ∈ id <$> ss)) LoopValidationError;;
      match stage_map ss sid with
      | None => Err KeyError
      | Some s => guard (String.eqb (kind s) k) LoopValidationError;; Ok sid
      end
  | _ => Err LoopValidationError
  end.

Fixpoint known_stages (all_ids : list string) (vs : list value) : result PyError (list string) :=
  match vs with
  | [] => Ok []
  | PStr sid :: vs' =>
      guard (bool_decide (sid ∈ all_ids)) LoopValidationError;;
      rest ← known_stages all_ids vs';
      Ok (sid :: rest)
  | _ :: _ => Err LoopValidationError
  end.

Definition _validate_loop (ss : list Stage) (seen : list string) (d : list (string * value))
    : result PyError Loop :=
  lid ← fresh_id (dict_get_or d "id" PNone) seen LoopValidationError LoopValidationError;
  trigger ← stage_ref ss (dict_get_or d "trigger_stage_id" PNone) "qc";
  correction ← stage_ref ss (dict_get_or d "correction_stage_id" PNone) "correct";
  raw ← as_list (dict_get_or d "on_correction" (PList [])) LoopValidationError;
  guard (match raw with [] => false | _ => true end) LoopValidationError;;
  on_corr ← known_stages (id <$> ss) raw;
  match dict_get_or d "max_iterations" PNone with
  | PInt n =>
      guard (1 <=? n) LoopValidationError;;
      guard (n <=? LOOP_BOUND) LoopValidationError;;
      Ok (mkLoop lid trigger correction on_corr n)
  | _ => Err LoopValidationError
  end.

Fixpoint validate_loops (ss : list Stage) (seen : list string) (entries : list value)
    : result PyError (list Loop) :=
  match entries with
  | [] => Ok []
  | PDict d :: entries' =>
      l ← _validate_loop ss seen d;
      ls ← validate_loops ss (loop_id l :: seen) entries';
      Ok (l :: ls)
  | _ :: _ => Err LoopValidationError
  end.

Definition read_mode (v : value) : result PyError string :=
  match v with
  | PStr m => guard (bool_decide (m ∈ VALID_MODES)) UnknownExecutionModeError;; Ok m
  | _ => Err UnknownExecutionModeError
  end.

Definition _load_service_pipeline (data : value) (registry : gset string)
    : result PyError ServicePipeline :=
  d ← as_mapping data;
  guard (match value_or (dict_get_or d "schema_id" PNone) (dict_get_or d "schema" PNone) with
         | PStr s => String.eqb s SCHEMA_ID | _ => false end) SchemaIdError;;
  let raw_stages := value_or (dict_get_or d "stages" PNone) (PList []) in
  guard (py_truthy raw_stages) PipelineError;;
  entries ← py_iter raw_stages;
  ss ← load_stages registry [] entries;
  retries ← py_int (dict_get_or d "max_retries" (PInt 3));
  guard (retries <=? RETRY_BOUND) RetryBoundExceededError;;
  guard (0 <=? retries) PipelineError;;
  loop_count ← py_int (dict_get_or d "max_loop_count" (PInt 1));
  guard (loop_count <=? LOOP_BOUND) LoopBoundExceededError;;
  guard (0 <=? loop_count) PipelineError;;
  mode ← read_mode (dict_get_or d "execution_mode" (PStr "generic"));
  check_all_deps (id <$> ss) ss;;
  cycle ← _detect_cycle ss;
  match cycle with
  | Some ids => Err (CycleError ids)
  | None =>
      _check_correction_loop ss;;
      entries ← as_list (value_or (dict_get_or d "loops" PNone) (PList [])) PipelineError;
      ls ← validate_loops ss [] entries;
      guard (match ls with [] => true | _ => negb (loop_count =? 0) end) PipelineValidationError;;
      Ok (mkServicePipeline SCHEMA_ID ss retries loop_count mode ls)
  end.

Fixpoint load_all (registry : gset string) (items : list (string * value))
    : result PyError (list (string * ServicePipeline)) :=
  match items with
  | [] => Ok []
  | (svc, cfg) :: items' =>
      p ← _load_service_pipeline cfg registry;
      ps ← load_all registry items';
      Ok ((svc, p) :: ps)
  end.

Definition load_service_pipelines (data : list (string * value)) (registry : gset string)
    : result PyError (list (string * ServicePipeline)) :=
  raw ← as_mapping (match dict_get data "service_pipelines" with Some v => v | None => PDict data end);
  load_all registry raw.

(** ** Prompt targets *)

Definition _is_safe_prompt_target (s : string) : bool :=
  str_truthy s && negb (re_search _INVALID_PROMPT_TARGET_RE s)
  && re_match _SAFE_DOTTED_PATH_RE s.

(** [dependents.get(sid, [])]: one entry per [depends_on] entry. *)
Definition forward (ss : list Stage) (sid : string) : list string :=
  flat_map (fun s => (fun _ => id s) <$> List.filter (String.eqb sid) (dep_names s)) ss.

Definition visit (st : list string * list string) (x : string) : list string * list string :=
  if decide (x ∈ st.1) then st else (x :: st.1, st.2 ++ [x]).

(** The [while] loop; [queue.pop()] takes the last element. *)
Fixpoint reach (ss : list Stage) (fuel : nat) (reachable queue : list string)
    : option (list string) :=
  match fuel with
  | O => None
  | S fuel' =>
      match pop_end PopLast queue with
      | None => Some reachable
      | Some (sid, rest) =>
          let '(reachable', queue') := fold_left visit (forward ss sid) (reachable, rest) in
          reach ss fuel' reachable' queue'
      end
  end.

Definition _find_downstream_generate_stages (enhance : string) (ss : list Stage)
    : result PyError (list Stage) :=
  match reach ss (S (S (length ss))) [] [enhance] with
  | None => Err OutOfFuel
  | Some reachable =>
      Ok (List.filter (fun s => bool_decide (id s ∈ reachable) && String.eqb (kind s) "generate") ss)
  end.

(** The [prompt_target] text of a stage; the text of a value that is not a
    string is never a dotted path, so it may as well be empty. *)
Definition target_text (s : Stage) : string :=
  match dict_get (params s) "prompt_target" with Some (PStr t) => t | _ => "" end.

Definition is_enhance (s : Stage) : bool := String.eqb (kind s) "prompt_enhance".

Definition _derive_generic_prompt_target (ss : list Stage) : result PyError (option string) :=
  match List.find is_enhance ss with
  | None => Ok None
  | Some e =>
      candidates ← _find_downstream_generate_stages (id e) ss;
      match candidates with
      | [] => Ok None
      | [s] => guard (_is_safe_prompt_target (target_text s)) PipelineError;;
               Ok (Some (target_text s))
      | _ => Err PipelineError
      end
  end.

(** ** Compilation *)

Definition kind_phase (k : string) : string :=
  if String.eqb k "prompt_enhance" then "pre_generate"
  else if String.eqb k "qc" || String.eqb k "correct" then "post_generate"
  else k.

Section Compile.
Context (str_of : value -> string) (revision_hash : value -> string).

Definition text_of (v : value) : string := match v with PStr s => s | _ => str_of v end.

Definition stage_retries (p : ServicePipeline) (s : Stage) : value :=
  match retries s with PNone => PInt (max_retries p) | v => v end.

Definition out_stage (p : ServicePipeline) (s : Stage) : value :=
  PDict [("id", PStr (id s)); ("kind", PStr (kind s)); ("phase", PStr (kind_phase (kind s)));
         ("provider", PStr (provider s)); ("depends_on", PList (depends_on s));
         ("retries", stage_retries p s); ("params", PDict (params s))].

Fixpoint out_stages (registry : gset string) (p : ServicePipeline) (ss : list Stage)
    : result PyError (list value) :=
  match ss with
  | [] => Ok []
  | s :: ss' =>
      _resolve_provider (PStr (provider s)) registry;;
      rest ← out_stages registry p ss';
      Ok (out_stage p s :: rest)
  end.

(** One stage's part of the flattened [prompt_enhance] and [post_generate]. *)
Definition sub_config (p : ServicePipeline)
    (acc : option (list (string * value)) * option (list (string * value))) (s : Stage)
    : option (list (string * value)) * option (list (string * value)) :=
  let bounds := [("max_corrections", PInt (max_loop_count p)); ("retries", stage_retries p s)] in
  if is_enhance s then
    (Some (dict_update [("enabled", PBool true); ("provider", PStr (provider s))] (params s)), acc.2)
  else if String.eqb (kind s) "qc" then
    (acc.1, Some (dict_update (default [] acc.2)
      ([("enabled", PBool true); ("kind", PStr (kind s)); ("provider", PStr (provider s))]
       ++ params s ++ bounds)))
  else if String.eqb (kind s) "correct" then
    (acc.1, Some (dict_update (default [] acc.2)
      ([("enabled", PBool true); ("kind", PStr "correct"); ("correction_provider", PStr (provider s))]
       ++ params s ++ bounds)))
  else acc.

Definition opt_dict (o : option (list (string * value))) : value :=
  match o with Some d => PDict d | None => PNone end.

Definition opt_text (o : option string) : value :=
  match o with Some s => PStr s | None => PNone end.

(** [legacy_reconcile]: the enhance stage's target or the old default. *)
Definition legacy_target (ss : list Stage) : value :=
  match List.find is_enhance ss with
  | Some s => value_or (dict_get_or (params s) "target" PNone) (PStr "prompt_enhance.inputs.prompt")
  | None => PNone
  end.

(** What [_compute_revision_hash] serialises. *)
Definition canonical (p : ServicePipeline) : value :=
  PDict [("schema_id", PStr (schema_id p)); ("stages", PList (stage_to_dict <$> stages p));
         ("max_retries", PInt (max_retries p)); ("max_loop_count", PInt (max_loop_count p));
         ("loops", PList (loop_to_dict <$> loops p)); ("execution_mode", PStr (execution_mode p))].

Definition compile_generation_pipeline (service_id : string) (request_params : value)
    (templates : list (string * value)) (registry : gset string) : result PyError value :=
  guard (bool_decide (service_id ∈ templates.*1) || bool_decide ("service_pipelines" ∈ templates.*1))
    PipelineError;;
  ps ← load_service_pipelines templates registry;
  match dict_get ps service_id with
  | None => Err PipelineError
  | Some p =>
      (if existsb is_enhance (stages p) then
         r ← as_mapping request_params;
         guard (py_truthy (dict_get_or r "prompt" PNone)) PipelineError
       else Ok tt);;
      out ← out_stages registry p (stages p);
      let configs := fold_left (sub_config p) (stages p) (None, None) in
      target ← (if String.eqb (execution_mode p) "generic"
                then opt_text <$> _derive_generic_prompt_target (stages p)
                else Ok (legacy_target (stages p)));
      r ← as_mapping request_params;
      Ok (PDict
        [("schema", PStr SCHEMA_ID); ("service_id", PStr service_id); ("pipeline_id", PStr service_id);
         ("execution_mode", PStr (execution_mode p));
         ("original_prompt", PStr (text_of (value_or (dict_get_or r "prompt" PNone) (PStr ""))));
         ("prompt_target", target); ("prompt_enhance", opt_dict configs.1);
         ("post_generate", opt_dict configs.2); ("max_retries", PInt (max_retries p));
         ("max_loop_count", PInt (max_loop_count p)); ("stages", PList out);
         ("loops", PList (loop_to_dict <$> loops p));
         ("revision_hash", PStr (revision_hash (canonical p)))])
  end.

(** ** Which pipeline a request gets *)

(** [status] and [reason] of an error dict. *)
Record Rejection := mkRejection { status : Z; reason : string }.

Definition dict_or_empty (v : value) : list (string * value) :=
  match v with PDict d => d | _ => [] end.

Definition nonblank (v : value) : option string :=
  match v with PStr s => if str_truthy (py_strip s) then Some (py_strip s) else None | _ => None end.

Definition resolve_generation_pipeline_id (template request_params : value)
    : option string * option Rejection :=
  let invalid_request := (None, Some (mkRejection 400 "invalid_service_pipeline_request")) in
  let requested := dict_get (dict_or_empty request_params) "service_pipeline_id" in
  match dict_get (dict_or_empty template) "service_pipeline_id" with
  | Some PNone => (None, Some (mkRejection 400 "pipeline_disabled"))
  | None =>
      match requested with
      | None => (None, None)
      | Some v => match nonblank v with Some r => (Some r, None) | None => invalid_request end
      end
  | Some dv =>
      match nonblank dv with
      | None => (None, Some (mkRejection 500 "invalid_service_pipeline_link"))
      | Some declared =>
          match requested with
          | None | Some PNone => (Some declared, None)
          | Some rv =>
              match nonblank rv with
              | None => invalid_request
              | Some r =>
                  if String.eqb declared r then (Some declared, None)
                  else (None, Some (mkRejection 409 "service_pipeline_override"))
              end
          end
      end
  end.

Definition resolve_and_compile_pipeline (template request_params templates : value)
    (registry : gset string) : result PyError (option value * option Rejection) :=
  match resolve_generation_pipeline_id template request_params with
  | (_, Some rejection) => Ok (None, Some rejection)
  | (None, None) => Ok (None, None)
  | (Some pipeline_id, None) =>
      container ← as_mapping (dict_get_or (dict_or_empty templates) "service_pipelines" (PDict []));
      if negb (py_truthy (dict_get_or container pipeline_id PNone))
      then Ok (None, Some (mkRejection 500 "pipeline_not_found"))
      else
        match compile_generation_pipeline pipeline_id request_params (dict_or_empty templates)
                registry with
        | Ok compiled => Ok (Some compiled, None)
        | Err e => if is_pipeline_error e then Ok (None, Some (mkRejection 400 "")) else Err e
        end
  end.
End Compile.

(** ** Stages by id *)

Definition ids (ss : list Stage) : list string := id <$> ss.

Lemma stage_map_spec ss sid s :
  NoDup (ids ss) -> stage_map ss sid = Some s <-> s ∈ ss /\ id s = sid.
Proof.
  intros Hnd. unfold stage_map. split.
  - intros Hf. apply List.find_some in Hf as [Hin Heq%String.eqb_eq].
    split; [|done]. apply list_elem_of_In. by apply in_rev.
  - intros [Hin Heq]. destruct (List.find _ (rev ss)) as [s'|] eqn:E.
    + apply List.find_some in E as [Hin' Heq'%String.eqb_eq]. f_equal.
      apply list_elem_of_lookup in Hin as (i & Hi).
      apply in_rev, list_elem_of_In, list_elem_of_lookup in Hin' as (j & Hj).
      assert (i = j) as ->; [|congruence]. apply (NoDup_lookup (ids ss) i j sid); [done|..].
      * unfold ids. rewrite list_lookup_fmap, Hi. simpl. congruence.
      * unfold ids. rewrite list_lookup_fmap, Hj. simpl. congruence.
    + apply (List.find_none _ _) with (x := s) in E; [|by apply in_rev; rewrite rev_involutive; apply list_elem_of_In].
      simpl in E. apply String.eqb_neq in E. done.
Qed.

Lemma stage_map_total ss sid : sid ∈ ids ss -> exists s, stage_map ss sid = Some s /\ s ∈ ss /\ id s = sid.
Proof.
  intros (s & -> & Hs)%list_elem_of_fmap. unfold stage_map.
  destruct (List.find _ (rev ss)) as [s'|] eqn:E.
  - apply List.find_some in E as [Hin Heq%String.eqb_eq]. exists s'.
    split_and!; [done|by apply list_elem_of_In, in_rev|done].
  - apply (List.find_none _ _) with (x := s) in E.
    + simpl in E. apply String.eqb_neq in E. done.
    + apply in_rev. rewrite rev_involutive. by apply list_elem_of_In.
Qed.

(** The dependencies of a stage id, as a set; the graph of a pipeline. *)
Definition dep_set (ss : list Stage) (sid : string) : gset string :=
  match stage_map ss sid with Some s => list_to_set (dep_names s) | None => ∅ end.

Definition needs (ss : list Stage) : string -> string -> Prop := depends (ids ss) (dep_set ss).

(** Every dependency is the id of a stage. *)
Definition deps_known (ss : list Stage) : Prop :=
  Forall (fun s => Forall (fun d => exists sid, d = PStr sid /\ sid ∈ ids ss) (depends_on s)) ss.

Lemma dep_names_known ss s :
  deps_known ss -> s ∈ ss -> PStr <$> dep_names s = depends_on s /\
  forall d, d ∈ dep_names s -> d ∈ ids ss.
Proof.
  unfold deps_known. rewrite Forall_forall. intros Hk Hs%Hk. unfold dep_names.
  induction Hs as [|d ds (sid & -> & Hin) _ [IH1 IH2]]; csimpl; [set_solver|].
  rewrite IH1. set_solver.
Qed.

Lemma needs_spec ss x y :
  NoDup (ids ss) -> deps_known ss ->
  needs ss x y <-> exists s, s ∈ ss /\ id s = x /\ y ∈ dep_names s.
Proof.
  intros Hnd Hk. unfold needs, depends, dep_set. split.
  - intros (Hx & Hy & Hd). apply stage_map_total in Hx as (s & Hm & Hs & Hid).
    rewrite Hm in Hd. exists s. set_solver.
  - intros (s & Hs & <- & Hy).
    assert (stage_map ss (id s) = Some s) as -> by by apply stage_map_spec.
    split_and!; [by apply list_elem_of_fmap_2|by eapply dep_names_known|set_solver].
Qed.

Lemma ids_filter_nodup ss f : NoDup (ids ss) -> NoDup (ids (List.filter f ss)).
Proof.
  unfold ids. induction ss as [|s ss IH]; csimpl; [done|]. intros [Hs Hnd]%NoDup_cons.
  destruct (f s); csimpl; [|auto]. constructor; [|auto].
  intros (t & Ht & Hin)%list_elem_of_fmap. apply Hs. rewrite Ht. apply list_elem_of_fmap_2.
  apply list_elem_of_In, List.filter_In in Hin as [? _]. by apply list_elem_of_In.
Qed.

Lemma size_of_list (l : list string) :
  (size (list_to_set l : gset string) <= length l)%nat /\
  ((length l <= size (list_to_set l : gset string))%nat -> NoDup l).
Proof.
  induction l as [|x l [IH1 IH2]]; [split; [done|constructor]|]. simpl.
  destruct (decide (x ∈ l)) as [Hin|Hin].
  - replace ({[x]} ∪ list_to_set l : gset string) with (list_to_set l : gset string) by set_solver.
    split; [lia|]. intros Hlen. lia.
  - rewrite size_union by set_solver. rewrite size_singleton. split; [lia|].
    intros Hlen. constructor; [done|]. apply IH2. lia.
Qed.

(** ** The cycle check *)

Section CycleCheck.
Context (ss : list Stage) (Hnd : NoDup (ids ss)) (Hk : deps_known ss).

Lemma dep_count_is s : s ∈ ss -> dep_count ss (id s) = Z.of_nat (length (dep_names s)).
Proof.
  intros Hs. unfold dep_count.
  assert (stage_map ss (id s) = Some s) as -> by by apply stage_map_spec.
  destruct (dep_names_known ss s Hk Hs) as [<- _]. by rewrite length_fmap.
Qed.

Lemma dep_set_is s : s ∈ ss -> dep_set ss (id s) = list_to_set (dep_names s).
Proof.
  intros Hs. unfold dep_set. by assert (stage_map ss (id s) = Some s) as -> by by apply stage_map_spec.
Qed.

Lemma dep_set_within s : s ∈ ss -> dep_set ss (id s) ∩ list_to_set (ids ss) = dep_set ss (id s).
Proof.
  intros Hs. rewrite dep_set_is by done. destruct (dep_names_known ss s Hk Hs) as [_ Hin]. set_solver.
Qed.

Lemma dependents_children x y :
  y ∈ dependents_of ss x <-> y ∈ ids ss /\ x ∈ dep_set ss y.
Proof.
  unfold dependents_of. rewrite list_elem_of_fmap. split.
  - intros (s & -> & [Hs Hb%bool_decide_eq_true]%list_elem_of_In%List.filter_In).
    apply list_elem_of_In in Hs. split; [by apply list_elem_of_fmap_2|].
    rewrite dep_set_is by done. set_solver.
  - intros [(s & -> & Hs)%list_elem_of_fmap Hx]. rewrite dep_set_is in Hx by done.
    exists s. split; [done|]. apply list_elem_of_In, List.filter_In.
    split; [by apply list_elem_of_In|]. apply bool_decide_eq_true. set_solver.
Qed.

Lemma kahn_of_stages :
  exists order, kahn PopFirst (dependents_of ss) (ids ss) (dep_count ss) = Some order /\
    NoDup order /\ (forall x, x ∈ order -> x ∈ ids ss) /\ topological (ids ss) (dep_set ss) order /\
    forall x, x ∈ ids ss ->
      (x ∈ order <-> dep_count ss x = removed_deps (dep_set ss) order x).
Proof.
  apply kahn_spec.
  - exact Hnd.
  - intros x _. by apply ids_filter_nodup.
  - intros x _ y. apply dependents_children.
  - intros x (s & -> & Hs)%list_elem_of_fmap.
    rewrite dep_set_within, dep_set_is, dep_count_is by done.
    pose proof (size_of_list (dep_names s)) as [? _]. lia.
Qed.

Lemma all_popped_nodup order s :
  (forall x, x ∈ ids ss -> x ∈ order) -> (forall x, x ∈ order -> x ∈ ids ss) -> s ∈ ss ->
  dep_count ss (id s) = removed_deps (dep_set ss) order (id s) -> NoDup (dep_names s).
Proof.
  intros Hall Hsub Hs Heq. rewrite dep_count_is in Heq by done. unfold removed_deps in Heq.
  replace (dep_set ss (id s) ∩ list_to_set order)
    with (dep_set ss (id s) ∩ list_to_set (ids ss)) in Heq by set_solver.
  rewrite dep_set_within, dep_set_is in Heq by done.
  apply size_of_list. lia.
Qed.

Definition no_repeats : Prop := Forall (fun s => NoDup (dep_names s)) ss.

Lemma same_length_all (order : list string) :
  NoDup order -> (forall x, x ∈ order -> x ∈ ids ss) -> length order = length ss ->
  forall x, x ∈ ids ss -> x ∈ order.
Proof.
  intros Ho Hsub Hlen x Hx. apply list_elem_of_In.
  apply (List.NoDup_length_incl (l := order) (l' := ids ss)).
  - by apply NoDup_ListNoDup.
  - unfold ids. rewrite length_fmap. lia.
  - intros y Hy%list_elem_of_In. by apply list_elem_of_In, Hsub.
  - by apply list_elem_of_In.
Qed.

Lemma detect_cycle_iff :
  exists r, _detect_cycle ss = Ok r /\ (r = None <-> acyclic (ids ss) (dep_set ss) /\ no_repeats).
Proof.
  destruct kahn_of_stages as (order & Hkahn & Ho & Hsub & Htopo & Hout).
  unfold _detect_cycle. fold (ids ss). rewrite Hkahn. eexists. split; [done|].
  destruct (Nat.eqb_spec (length order) (length ss)) as [Hlen|Hlen]; (split; [|intros [Hac Hn]]).
  - intros _. pose proof (same_length_all order Ho Hsub Hlen) as Hall.
    split; [by apply topological_acyclic with order|].
    apply Forall_forall. intros s Hs. apply all_popped_nodup with order; try done.
    apply Hout; [|apply Hall]; by apply list_elem_of_fmap_2.
  - done.
  - done.
  - exfalso. apply Hlen.
    destruct (kahn_complete_iff PopFirst (dependents_of ss) (ids ss) (dep_set ss) (dep_count ss))
      as (order' & Hkahn' & _ & _ & Hiff).
    + exact Hnd.
    + intros x _. by apply ids_filter_nodup.
    + intros x _ y. apply dependents_children.
    + intros x (s & -> & Hs)%list_elem_of_fmap.
      rewrite dep_set_within, dep_set_is, dep_count_is by done.
      pose proof (size_of_list (dep_names s)) as [? _]. lia.
    + intros x (s & -> & Hs)%list_elem_of_fmap.
      rewrite dep_set_within, dep_set_is, dep_count_is by done.
      unfold no_repeats in Hn. rewrite Forall_forall in Hn.
      by rewrite size_list_to_set by by apply Hn.
    + rewrite Hkahn in Hkahn'. injection Hkahn' as <-. apply Hiff in Hac.
      unfold ids in Hac. by rewrite length_fmap in Hac.
Qed.

(** A stage that was not popped waits for another such stage, or names a
    dependency twice. *)
Lemma unpopped_waits bad :
  _detect_cycle ss = Ok (Some bad) ->
  bad <> [] /\ forall x, x ∈ bad -> (exists y, y ∈ bad /\ needs ss x y) \/
                                 (exists s, s ∈ ss /\ id s = x /\ ~ NoDup (dep_names s)).
Proof.
  destruct kahn_of_stages as (order & Hkahn & Ho & Hsub & _ & Hout).
  unfold _detect_cycle. fold (ids ss). rewrite Hkahn.
  destruct (Nat.eqb_spec (length order) (length ss)) as [|Hlen]; [done|]. intros [= <-].
  set (bad := List.filter _ _).
  assert (forall x, x ∈ bad <-> x ∈ ids ss /\ x ∉ order) as Hbad.
  { intros x. unfold bad. rewrite list_elem_of_In, List.filter_In, <- list_elem_of_In.
    by rewrite negb_true_iff, bool_decide_eq_false. }
  split.
  - intros Hnil. apply Hlen. apply Nat.le_antisymm.
    + rewrite <- (length_fmap id ss). apply List.NoDup_incl_length; [by apply NoDup_ListNoDup|].
      intros y Hy%list_elem_of_In. by apply list_elem_of_In, Hsub.
    + rewrite <- (length_fmap id ss). apply List.NoDup_incl_length; [by apply NoDup_ListNoDup|].
      intros y Hy%list_elem_of_In. apply list_elem_of_In. destruct (decide (y ∈ order)); [done|].
      exfalso. apply (not_elem_of_nil (A := string) y). rewrite <- Hnil. by apply Hbad.
  - intros x [Hx Hn]%Hbad. apply list_elem_of_fmap in Hx as (s & -> & Hs).
    destruct (decide (NoDup (dep_names s))) as [Hd|Hd]; [left|right; by exists s].
    destruct (decide (Forall (fun y => y ∈ order) (dep_names s))) as [Hall|Hall].
    + exfalso. apply Hn, Hout; [by apply list_elem_of_fmap_2|].
      rewrite dep_count_is by done. unfold removed_deps. rewrite dep_set_is by done.
      replace (list_to_set (dep_names s) ∩ list_to_set order : gset string)
        with (list_to_set (dep_names s) : gset string).
      * by rewrite size_list_to_set.
      * rewrite Forall_forall in Hall. set_solver.
    + apply not_Forall_Exists, Exists_exists in Hall as (y & Hy & Hyn); [|solve_decision].
      exists y. rewrite Hbad. split.
      * split; [|done]. by eapply dep_names_known.
      * apply needs_spec; [done..|]. eauto.
Qed.
End CycleCheck.

(** ** The correction-loop check ends *)

(** Dependencies still to be queued when [visited] are done. *)
Definition pending (ss : list Stage) (visited : list string) : nat :=
  list_sum ((fun s => if decide (id s ∈ visited) then 0%nat else length (dep_names s)) <$> ss).

Lemma pending_same ss visited x :
  x ∉ ids ss -> pending ss (x :: visited) = pending ss visited.
Proof.
  unfold pending, ids. induction ss as [|s ss IH]; csimpl; [done|]. intros Hx.
  rewrite IH by set_solver. repeat case_decide; set_solver.
Qed.

Lemma pending_visit ss visited s :
  NoDup (ids ss) -> s ∈ ss -> id s ∉ visited ->
  pending ss visited = (length (dep_names s) + pending ss (id s :: visited))%nat.
Proof.
  unfold ids. intros Hnd Hs Hv. induction ss as [|t ss IH]; [by apply not_elem_of_nil in Hs|].
  csimpl in *. apply NoDup_cons in Hnd as [Ht Hnd]. apply elem_of_cons in Hs as [->|Hs].
  - change (pending (t :: ss) ?v) with
      ((if decide (id t ∈ v) then 0%nat else length (dep_names t)) + pending ss v)%nat.
    rewrite decide_False by done. rewrite decide_True by left. by rewrite pending_same.
  - change (pending (t :: ss) ?v) with
      ((if decide (id t ∈ v) then 0%nat else length (dep_names t)) + pending ss v)%nat.
    rewrite (IH Hnd Hs).
    assert (id t <> id s) by (intros Heq; apply Ht; rewrite Heq; by apply list_elem_of_fmap_2).
    destruct (decide (id t ∈ visited)); [rewrite decide_True by (by right); lia|].
    rewrite decide_False by set_solver. lia.
Qed.

Section QcWalkFacts.
Context (ss : list Stage) (source : string) (Hnd : NoDup (ids ss)) (Hk : deps_known ss).

(** The walk ends; when it finds a gate, a [qc] stage is reachable. *)
Lemma qc_walk_spec fuel visited queue (P : string -> Prop) :
  (length queue + pending ss visited < fuel)%nat ->
  (forall x, x ∈ queue -> x ∈ ids ss /\ P x) ->
  (forall x y, P x -> needs ss x y -> P y) ->
  exists b, qc_walk ss source fuel visited queue = Ok b /\
    (b = true -> exists s, s ∈ ss /\ kind s = "qc" /\ P (id s)).
Proof.
  intros Hf HQ Hstep. revert visited queue Hf HQ.
  induction fuel as [|fuel IH]; intros visited queue Hf HQ; [lia|]. simpl.
  destruct queue as [|cur rest]; [by eexists|].
  destruct (String.eqb cur source); [by eexists|].
  destruct (decide (cur ∈ visited)) as [Hv|Hv].
  { apply IH; [simpl in Hf; lia|]. intros x Hx. apply HQ. by right. }
  destruct (HQ cur) as [(s & Hm & Hs & <-)%stage_map_total HP]; [left|]. rewrite Hm.
  destruct (String.eqb_spec (kind s) "qc") as [Hq|Hq].
  { eexists. split; [done|]. intros _. by exists s. }
  apply IH.
  - rewrite length_app. simpl in Hf.
    rewrite (pending_visit ss visited s) in Hf by done.
    pose proof (List.filter_length_le (fun d => negb (bool_decide (d ∈ id s :: visited))) (dep_names s)).
    lia.
  - intros x [Hx|Hx]%elem_of_app; [apply HQ; by right|].
    apply list_elem_of_In, List.filter_In in Hx as [Hx%list_elem_of_In _].
    destruct (dep_names_known ss s Hk Hs) as [_ Hin]. split; [by apply Hin|].
    apply Hstep with (id s); [done|]. apply needs_spec; [done..|]. by exists s.
Qed.

Lemma has_qc_between_spec target :
  target ∈ ids ss ->
  exists b, _has_qc_between ss source target = Ok b /\
    (b = true -> exists q, q ∈ ss /\ kind q = "qc" /\ rtc (needs ss) target (id q)).
Proof.
  intros Ht. unfold _has_qc_between. apply qc_walk_spec.
  - unfold edge_count, pending. simpl. apply le_n_S, le_n_S.
    by apply Nat.eq_le_incl.
  - intros x ->%list_elem_of_singleton. split; [done|constructor].
  - intros x y Hx Hxy. eapply rtc_r; eauto.
Qed.
End QcWalkFacts.

(** Every id of [bs] has a gate somewhere behind it. *)
Definition gated (ss : list Stage) (b : string) : Prop :=
  exists q, q ∈ ss /\ kind q = "qc" /\ rtc (needs ss) b (id q).

Lemma check_against_spec ss a bs :
  NoDup (ids ss) -> deps_known ss -> (forall b, b ∈ bs -> b ∈ ids ss) ->
  (check_against ss a bs = Ok tt \/ check_against ss a bs = Err AmbiguousCorrectionLoopError) /\
  (check_against ss a bs = Ok tt -> forall b, b ∈ bs -> gated ss b).
Proof.
  intros Hnd Hk. induction bs as [|b bs IH]; simpl; intros Hin; [set_solver|].
  destruct (has_qc_between_spec ss a Hnd Hk b) as (g & -> & Hg); [apply Hin; left|]. simpl.
  destruct g; simpl; [|split; [by right|done]].
  destruct IH as [H1 H2]; [set_solver|]. split; [done|].
  intros Hok x [->|Hx]%elem_of_cons; [by apply Hg|by apply H2].
Qed.

Lemma check_pairs_spec ss cs :
  NoDup (ids ss) -> deps_known ss -> (forall b, b ∈ cs -> b ∈ ids ss) ->
  (check_pairs ss cs = Ok tt \/ check_pairs ss cs = Err AmbiguousCorrectionLoopError) /\
  (check_pairs ss cs = Ok tt -> forall b, b ∈ tail cs -> gated ss b).
Proof.
  intros Hnd Hk. induction cs as [|a cs IH]; simpl; intros Hin; [split; [by left|set_solver]|].
  destruct (check_against_spec ss a cs Hnd Hk) as [[Ha|Ha] Hg]; [set_solver| |].
  - rewrite Ha. simpl. destruct IH as [IH _]; [set_solver|]. split; [done|]. intros _. by apply Hg.
  - rewrite Ha. simpl. split; [by right|done].
Qed.

(** ** Downstream stages *)

Lemma visit_all cs r q :
  exists new, fold_left visit cs (r, q) = (rev new ++ r, q ++ new) /\ NoDup new /\
    (forall x, x ∈ new -> x ∈ cs /\ x ∉ r) /\ (forall x, x ∈ cs -> x ∈ new \/ x ∈ r).
Proof.
  revert r q. induction cs as [|c cs IH]; intros r q; simpl.
  { exists []. rewrite app_nil_r. split_and!; [done|constructor|set_solver|set_solver]. }
  unfold visit at 2. simpl. destruct (decide (c ∈ r)) as [Hc|Hc].
  - destruct (IH r q) as (new & -> & H1 & H2 & H3). exists new. set_solver.
  - destruct (IH (c :: r) (q ++ [c])) as (new & -> & H1 & H2 & H3). exists (c :: new).
    simpl. rewrite <- !app_assoc. split_and!; [done| |set_solver|set_solver].
    constructor; [|done]. intros Hn. apply H2 in Hn. set_solver.
Qed.

Section Downstream.
Context (ss : list Stage) (Hnd : NoDup (ids ss)) (Hk : deps_known ss) (e : string).

Lemma forward_spec x y : y ∈ forward ss x <-> needs ss y x.
Proof.
  rewrite needs_spec by done. unfold forward. rewrite list_elem_of_In, in_flat_map. split.
  - intros (s & Hs%list_elem_of_In & Hy%list_elem_of_In).
    apply list_elem_of_fmap in Hy as (d & -> & Hd).
    apply list_elem_of_In, List.filter_In in Hd as [Hd%list_elem_of_In <-%String.eqb_eq]. by exists s.
  - intros (s & Hs & <- & Hx). exists s. split; [by apply list_elem_of_In|].
    apply list_elem_of_In, list_elem_of_fmap. exists x. split; [done|].
    apply list_elem_of_In, List.filter_In. split; [by apply list_elem_of_In|]. by apply String.eqb_eq.
Qed.

(** Invariant of the search: what is reached depends on [e], and everything
    reached and no longer queued has passed the mark on. *)
Record reach_inv (r q : list string) : Prop := {
  reach_nodup : NoDup r;
  reach_below : forall x, x ∈ r -> x ∈ ids ss /\ tc (needs ss) x e;
  reach_queue : forall x, x ∈ q -> x = e \/ x ∈ r;
  reach_closed : forall x, x = e \/ x ∈ r -> x ∈ q \/ forall y, y ∈ forward ss x -> y ∈ r }.

Lemma reach_inv_length r q : reach_inv r q -> (length r <= length ss)%nat.
Proof.
  intros [Hr Hb _ _]. rewrite <- (length_fmap id ss).
  apply List.NoDup_incl_length; [by apply NoDup_ListNoDup|].
  intros x Hx%list_elem_of_In. by apply list_elem_of_In, Hb.
Qed.

Lemma reach_step r q x rest :
  reach_inv r q -> pop_end PopLast q = Some (x, rest) ->
  exists r' q', fold_left visit (forward ss x) (r, rest) = (r', q') /\ reach_inv r' q' /\
    (length q' + length r = length rest + length r')%nat.
Proof.
  intros [Hr Hb Hq Hc] Hpop%pop_end_some.
  destruct (visit_all (forward ss x) r rest) as (new & -> & H1 & H2 & H3).
  do 2 eexists. split; [done|].
  assert (forall y, y ∈ rev new ++ r <-> y ∈ new \/ y ∈ r) as Hin.
  { intros y. rewrite elem_of_app, !list_elem_of_In, <- in_rev. done. }
  assert (forall y, y ∈ q <-> y = x \/ y ∈ rest) as Hq'.
  { intros y. rewrite Hpop. apply elem_of_cons. }
  split; [|rewrite !length_app, length_rev; lia].
  split.
  - apply NoDup_app. split_and!; [apply NoDup_ListNoDup, NoDup_rev; by apply NoDup_ListNoDup| |done].
    intros y Hy%list_elem_of_In%in_rev%list_elem_of_In. by apply H2.
  - intros y [Hy|Hy]%Hin; [|by apply Hb]. apply H2 in Hy as [Hy _]. apply forward_spec in Hy.
    split; [by destruct Hy|]. destruct (Hq x) as [->|Hx]; [apply Hq'; by left| |].
    + by apply tc_once.
    + eapply tc_l; [exact Hy|by apply Hb].
  - intros y [Hy|Hy]%elem_of_app.
    + destruct (Hq y) as [|]; [apply Hq'; by right|by left|right; apply Hin; by right].
    + right. apply Hin. by left.
  - intros y Hy. rewrite elem_of_app.
    assert (y ∈ new \/ (y = e \/ y ∈ r)) as [Hn|Ho] by (rewrite Hin in Hy; tauto); [by left; right|].
    destruct (Hc y Ho) as [[->|Hr']%Hq'|Hall].
    + right. intros z Hz. apply Hin. apply H3 in Hz. tauto.
    + by left; left.
    + right. intros z Hz. apply Hin. right. by apply Hall.
Qed.

Lemma reach_spec fuel r q :
  reach_inv r q -> (length q + length ss < fuel + length r)%nat ->
  exists r', reach ss fuel r q = Some r' /\ forall x, x ∈ r' <-> tc (needs ss) x e.
Proof.
  revert r q. induction fuel as [|fuel IH]; intros r q Hinv Hf.
  { pose proof (reach_inv_length r q Hinv). lia. }
  cbn [reach]. destruct (pop_end PopLast q) as [[x rest]|] eqn:Hpop.
  - destruct (reach_step r q x rest Hinv Hpop) as (r' & q' & -> & Hinv' & Hlen).
    apply IH; [done|]. apply pop_end_some in Hpop. rewrite Hpop in Hf. simpl in Hf. lia.
  - apply pop_end_none in Hpop as ->. eexists. split; [done|].
    destruct Hinv as [_ Hb _ Hc]. intros x. split; [intros Hx; by apply Hb|].
    induction 1 as [x y Hxy|x y z Hxy _ IHt].
    + destruct (Hc y) as [Hq|Hall]; [by left|by apply not_elem_of_nil in Hq|].
      by apply Hall, forward_spec.
    + destruct (Hc y) as [Hq|Hall]; [by right; apply IHt|by apply not_elem_of_nil in Hq|].
      by apply Hall, forward_spec.
Qed.

Lemma downstream_spec :
  exists l, _find_downstream_generate_stages e ss = Ok l /\
    forall s, s ∈ l <-> s ∈ ss /\ kind s = "generate" /\ tc (needs ss) (id s) e.
Proof.
  unfold _find_downstream_generate_stages.
  destruct (reach_spec (S (S (length ss))) [] [e]) as (r & -> & Hr).
  - split; [constructor|set_solver|set_solver|].
    intros x [->|Hx]; [left; by apply list_elem_of_singleton|by apply not_elem_of_nil in Hx].
  - simpl. lia.
  - eexists. split; [done|]. intros s.
    rewrite list_elem_of_In, List.filter_In, <- list_elem_of_In, andb_true_iff, String.eqb_eq.
    rewrite bool_decide_eq_true, Hr. tauto.
Qed.
End Downstream.

(** ** What loading establishes *)

Definition stage_ok (registry : gset string) (s : Stage) : Prop :=
  kind s ∈ CLOSED_KINDS /\ provider s ∈ registry /\ _walk_params (params s) = Ok tt.

Lemma fresh_id_ok v seen e1 e2 sid :
  fresh_id v seen e1 e2 = Ok sid -> v = PStr sid /\ sid ∉ seen /\ sid <> "".
Proof.
  unfold fresh_id. intros H. inv_ok. destruct v; try discriminate. inv_ok. bool_prop.
  split_and!; [done|done|]. intros ->. done.
Qed.

Lemma resolve_provider_ok v registry p : _resolve_provider v registry = Ok p -> v = PStr p /\ p ∈ registry.
Proof. unfold _resolve_provider. intros H. inv_ok. destruct v; try discriminate. inv_ok. by bool_prop. Qed.

Lemma load_stage_ok registry seen entry s :
  load_stage registry seen entry = Ok s -> id s ∉ seen /\ stage_ok registry s.
Proof.
  unfold load_stage. intros H. inv_ok. simpl.
  repeat match goal with
  | H : fresh_id _ _ _ _ = Ok _ |- _ => apply fresh_id_ok in H as (_ & ? & _)
  | H : _resolve_provider _ _ = Ok _ |- _ => apply resolve_provider_ok in H as [_ ?]
  | H : closed_kind ?v = Ok _ |- _ =>
      unfold closed_kind in H; inv_ok; destruct v; try discriminate; inv_ok; bool_prop
  | u : unit |- _ => destruct u
  end.
  done.
Qed.

Lemma load_stages_ok registry seen entries ss :
  load_stages registry seen entries = Ok ss ->
  NoDup (ids ss) /\ (forall x, x ∈ ids ss -> x ∉ seen) /\ Forall (stage_ok registry) ss /\
  length ss = length entries.
Proof.
  revert seen ss. induction entries as [|en entries IH]; intros seen ss; simpl; intros H; inv_ok.
  { split_and!; [constructor|set_solver|constructor|done]. }
  match goal with H : load_stage _ _ _ = Ok _ |- _ => apply load_stage_ok in H as [H1 H2] end.
  match goal with H : load_stages _ _ _ = Ok _ |- _ => apply IH in H as (H3 & H4 & H5 & H6) end.
  unfold ids in *. csimpl. split_and!; [|set_solver|by constructor|by f_equal].
  constructor; [|done]. intros Hin. apply H4 in Hin. set_solver.
Qed.

Lemma check_deps_ok all_ids ds :
  check_deps all_ids ds = Ok tt -> Forall (fun d => exists sid, d = PStr sid /\ sid ∈ all_ids) ds.
Proof.
  induction ds as [|d ds IH]; simpl; intros H; [constructor|]. inv_ok.
  constructor; [|by apply IH]. destruct d; try discriminate. bool_prop. eauto.
Qed.

Lemma check_all_deps_ok all_ids ss :
  check_all_deps all_ids ss = Ok tt ->
  Forall (fun s => Forall (fun d => exists sid, d = PStr sid /\ sid ∈ all_ids) (depends_on s)) ss.
Proof.
  induction ss as [|s ss IH]; simpl; intros H; [constructor|]. inv_ok.
  match goal with u : unit |- _ => destruct u end.
  constructor; [by apply check_deps_ok|by apply IH].
Qed.

(** A loop names stages of the right kinds and is bounded. *)
Definition loop_ok (ss : list Stage) (l : Loop) : Prop :=
  (exists t, t ∈ ss /\ id t = trigger_stage_id l /\ kind t = "qc") /\
  (exists c, c ∈ ss /\ id c = correction_stage_id l /\ kind c = "correct") /\
  on_correction l <> [] /\ (forall x, x ∈ on_correction l -> x ∈ ids ss) /\
  1 <= max_iterations l <= LOOP_BOUND.

Lemma stage_ref_ok ss v k sid :
  stage_ref ss v k = Ok sid -> exists s, s ∈ ss /\ id s = sid /\ kind s = k.
Proof.
  unfold stage_ref. intros H. inv_ok. destruct v; try discriminate. inv_ok. bool_prop.
  match goal with H : _ ∈ _ |- _ => apply stage_map_total in H as (t & Hm & Ht & Hid) end.
  rewrite Hm in *. inv_ok. exists t. split_and!; [done|congruence|by apply String.eqb_eq].
Qed.

Lemma known_stages_ok all_ids vs xs :
  known_stages all_ids vs = Ok xs -> length xs = length vs /\ forall x, x ∈ xs -> x ∈ all_ids.
Proof.
  revert xs. induction vs as [|v vs IH]; intros xs; simpl; intros H; inv_ok; [set_solver|].
  destruct v; try discriminate. inv_ok. bool_prop.
  destruct (IH _ eq_refl) as [H1 H2]. simpl. set_solver.
Qed.

Lemma validate_loop_ok ss seen d l :
  _validate_loop ss seen d = Ok l -> loop_id l ∉ seen /\ loop_ok ss l.
Proof.
  unfold _validate_loop. intros H. inv_ok.
  repeat match goal with
  | H : fresh_id _ _ _ _ = Ok _ |- _ => apply fresh_id_ok in H as (_ & ? & _)
  | H : stage_ref _ _ _ = Ok _ |- _ => apply stage_ref_ok in H
  | H : known_stages _ _ = Ok _ |- _ => apply known_stages_ok in H as [? ?]
  end.
  destruct (dict_get_or d "max_iterations" PNone); try discriminate. inv_ok. bool_prop.
  split; [done|]. unfold loop_ok. simpl. split_and!; try done.
  intros ->. match goal with raw : list value |- _ => by destruct raw end.
Qed.

Lemma validate_loops_ok ss seen entries ls :
  validate_loops ss seen entries = Ok ls ->
  NoDup (loop_id <$> ls) /\ (forall x, x ∈ loop_id <$> ls -> x ∉ seen) /\ Forall (loop_ok ss) ls.
Proof.
  revert seen ls. induction entries as [|en entries IH]; intros seen ls; simpl; intros H; inv_ok.
  { split_and!; [constructor|set_solver|constructor]. }
  destruct en; try discriminate. inv_ok.
  match goal with H : _validate_loop _ _ _ = Ok _ |- _ => apply validate_loop_ok in H as [H1 H2] end.
  match goal with H : validate_loops _ _ _ = Ok _ |- _ => apply IH in H as (H3 & H4 & H5) end.
  csimpl. split_and!; [|set_solver|by constructor].
  constructor; [|done]. intros Hin. apply H4 in Hin. set_solver.
Qed.

(** What a pipeline that loads satisfies. *)
Record valid_pipeline (registry : gset string) (p : ServicePipeline) : Prop := {
  valid_schema : schema_id p = SCHEMA_ID;
  valid_some : stages p <> [];
  valid_ids : NoDup (ids (stages p));
  valid_stages : Forall (stage_ok registry) (stages p);
  valid_deps : deps_known (stages p);
  valid_once : no_repeats (stages p);
  valid_dag : acyclic (ids (stages p)) (dep_set (stages p));
  valid_gates : _check_correction_loop (stages p) = Ok tt;
  valid_retries : 0 <= max_retries p <= RETRY_BOUND;
  valid_loop_count : 0 <= max_loop_count p <= LOOP_BOUND;
  valid_mode : execution_mode p ∈ VALID_MODES;
  valid_loop_ids : NoDup (loop_id <$> loops p);
  valid_loops : Forall (loop_ok (stages p)) (loops p);
  valid_terminal : loops p <> [] -> 1 <= max_loop_count p }.

Lemma py_iter_some v entries : py_truthy v = true -> py_iter v = Ok entries -> entries <> [].
Proof.
  destruct v as [| | | | | |s|l|d]; simpl; intros Ht H; try discriminate; inv_ok.
  - destruct s; [discriminate|]. done.
  - by destruct entries.
  - by destruct d.
Qed.

Lemma load_valid data registry p :
  _load_service_pipeline data registry = Ok p -> valid_pipeline registry p.
Proof.
  unfold _load_service_pipeline. intros H. inv_ok.
  repeat match goal with
  | H : load_stages _ _ _ = Ok _ |- _ =>
      apply load_stages_ok in H as (Hnd & _ & Hst & Hlen)
  | H : check_all_deps _ _ = Ok ?u |- _ => destruct u; apply check_all_deps_ok in H
  end.
  match goal with H : Forall _ ?ss |- _ => match type of ss with list Stage =>
    destruct (detect_cycle_iff ss Hnd) as (r & Hr & Hiff); [done|] end end.
  match goal with H : _detect_cycle _ = Ok _ |- _ => rewrite Hr in H; injection H as <- end.
  destruct r as [bad|]; [discriminate|]. destruct Hiff as [Hiff _].
  destruct Hiff as [Hac Hn]; [done|]. inv_ok.
  match goal with H : validate_loops _ _ _ = Ok _ |- _ =>
    apply validate_loops_ok in H as (Hl1 & _ & Hl2) end.
  match goal with H : read_mode ?v = Ok _ |- _ =>
    unfold read_mode in H; destruct v; try discriminate; inv_ok end.
  bool_prop.
  split; simpl; try done; try lia.
  - intros ->. match goal with H : py_iter _ = Ok _ |- _ => apply py_iter_some in H; [|done] end.
    match goal with ens : list value |- _ => by destruct ens end.
  - match goal with H : _check_correction_loop _ = Ok ?u |- _ => by destruct u end.
  - match goal with |- ?ls <> [] -> _ => destruct ls; [done|]; bool_prop; lia end.
Qed.

(** ** The model never runs out of fuel *)

Definition never_stuck {A} (r : result PyError A) : Prop := r <> Err OutOfFuel /\ r <> Err KeyError.

Lemma never_stuck_ok {A} (a : A) : never_stuck (Ok a).
Proof. done. Qed.

Lemma never_stuck_err {A} e : e <> OutOfFuel -> e <> KeyError -> never_stuck (A := A) (Err e).
Proof. intros H1 H2. split; congruence. Qed.

Lemma never_stuck_bind {A B} (r : result PyError A) (k : A -> result PyError B) :
  never_stuck r -> (forall a, r = Ok a -> never_stuck (k a)) -> never_stuck (r ≫= k).
Proof. intros [H1 H2] Hk. destruct r as [a|e]; simpl; [by apply Hk|split; congruence]. Qed.

Lemma never_stuck_guard b e : e <> OutOfFuel -> e <> KeyError -> never_stuck (guard b e).
Proof. destruct b; simpl; [done|apply never_stuck_err]. Qed.

Create HintDb unstuck.
#[export] Hint Resolve never_stuck_ok : unstuck.
#[export] Hint Extern 2 (never_stuck (Err _)) => apply never_stuck_err; discriminate : unstuck.
#[export] Hint Extern 2 (never_stuck (guard _ _)) => apply never_stuck_guard; discriminate : unstuck.

(** Split the binds and matches of a reader. *)
Ltac unstuck :=
  repeat first
    [ solve [eauto 2 with unstuck]
    | lazymatch goal with |- never_stuck (mbind _ _) => apply never_stuck_bind; [|intros ? ?] end
    | assumption
    | case_match ].

Lemma check_unsafe_unstuck v : never_stuck (_check_unsafe_value v).
Proof. unfold _check_unsafe_value. unstuck. Qed.
#[export] Hint Resolve check_unsafe_unstuck : unstuck.

Lemma walk_value_unstuck v : never_stuck (walk_value v).
Proof.
  revert v. fix IH 1. intros [| | | | | |s|l|d].
  1-7: apply check_unsafe_unstuck.
  - induction l as [|x l IHl]; [apply never_stuck_ok|]. apply never_stuck_bind; [apply check_unsafe_unstuck|].
    intros _ _. exact IHl.
  - induction d as [|[k x] d IHd]; [apply never_stuck_ok|].
    apply never_stuck_bind; [apply never_stuck_guard; discriminate|]. intros _ _.
    apply never_stuck_bind; [apply never_stuck_guard; discriminate|]. intros _ _.
    apply never_stuck_bind; [apply IH|]. intros _ _. exact IHd.
Qed.

Lemma walk_params_unstuck d : never_stuck (_walk_params d).
Proof. apply walk_value_unstuck. Qed.

Lemma as_mapping_unstuck v : never_stuck (as_mapping v).
Proof. destruct v; done. Qed.

Lemma as_list_unstuck v e : e <> OutOfFuel -> e <> KeyError -> never_stuck (as_list v e).
Proof. intros ? ?. destruct v; first [apply never_stuck_ok|by apply never_stuck_err]. Qed.

Lemma py_iter_unstuck v : never_stuck (py_iter v).
Proof. destruct v; done. Qed.

Lemma py_int_unstuck v : never_stuck (py_int v).
Proof. unfold py_int. unstuck. Qed.

Lemma fresh_id_unstuck v seen e1 e2 :
  e1 <> OutOfFuel -> e1 <> KeyError -> e2 <> OutOfFuel -> e2 <> KeyError ->
  never_stuck (fresh_id v seen e1 e2).
Proof.
  intros. unfold fresh_id. unstuck; first [by apply never_stuck_guard|by apply never_stuck_err].
Qed.

Lemma closed_kind_unstuck v : never_stuck (closed_kind v).
Proof. unfold closed_kind. unstuck. Qed.

Lemma resolve_provider_unstuck v registry : never_stuck (_resolve_provider v registry).
Proof. unfold _resolve_provider. unstuck. Qed.

Lemma read_mode_unstuck v : never_stuck (read_mode v).
Proof. unfold read_mode. unstuck. Qed.

#[export] Hint Resolve walk_params_unstuck as_mapping_unstuck py_iter_unstuck py_int_unstuck
  closed_kind_unstuck resolve_provider_unstuck read_mode_unstuck : unstuck.
#[export] Hint Extern 2 (never_stuck (fresh_id _ _ _ _)) =>
  apply fresh_id_unstuck; discriminate : unstuck.
#[export] Hint Extern 2 (never_stuck (as_list _ _)) =>
  apply as_list_unstuck; discriminate : unstuck.

Lemma load_stage_unstuck registry seen entry : never_stuck (load_stage registry seen entry).
Proof. unfold load_stage. unstuck. Qed.
#[export] Hint Resolve load_stage_unstuck : unstuck.

Lemma load_stages_unstuck registry seen entries : never_stuck (load_stages registry seen entries).
Proof. revert seen. induction entries; intros seen; simpl; unstuck. Qed.

Lemma check_deps_unstuck all_ids ds : never_stuck (check_deps all_ids ds).
Proof. induction ds; simpl; unstuck. Qed.
#[export] Hint Resolve load_stages_unstuck check_deps_unstuck : unstuck.

Lemma check_all_deps_unstuck all_ids ss : never_stuck (check_all_deps all_ids ss).
Proof. induction ss; simpl; unstuck. Qed.

Lemma stage_ref_unstuck ss v k : never_stuck (stage_ref ss v k).
Proof.
  unfold stage_ref. apply never_stuck_bind; [by apply never_stuck_guard|intros _ _].
  apply never_stuck_bind; [by apply never_stuck_guard|intros _ _].
  destruct v as [| | | | | |sid|l|d]; try done.
  destruct (decide (sid ∈ id <$> ss)) as [Hin|Hin].
  - destruct (stage_map_total ss sid Hin) as (s & -> & _). unstuck.
  - by rewrite bool_decide_eq_false_2.
Qed.

Lemma known_stages_unstuck all_ids vs : never_stuck (known_stages all_ids vs).
Proof. induction vs as [|v vs IH]; simpl; unstuck. Qed.
#[export] Hint Resolve check_all_deps_unstuck stage_ref_unstuck known_stages_unstuck : unstuck.

Lemma validate_loop_unstuck ss seen d : never_stuck (_validate_loop ss seen d).
Proof. unfold _validate_loop. unstuck. Qed.
#[export] Hint Resolve validate_loop_unstuck : unstuck.

Lemma validate_loops_unstuck ss seen entries : never_stuck (validate_loops ss seen entries).
Proof. revert seen. induction entries; intros seen; simpl; unstuck. Qed.
#[export] Hint Resolve validate_loops_unstuck : unstuck.

Lemma correction_check_unstuck ss :
  NoDup (ids ss) -> deps_known ss -> never_stuck (_check_correction_loop ss).
Proof.
  intros Hnd Hk. unfold _check_correction_loop.
  destruct (check_pairs_spec ss (id <$> List.filter (fun s => String.eqb (kind s) "correct") ss)
    Hnd Hk) as [[-> | ->] _]; [|done|done].
  intros b (s & -> & Hs)%list_elem_of_fmap. apply list_elem_of_fmap_2.
  apply list_elem_of_In, List.filter_In in Hs as [Hs _]. by apply list_elem_of_In.
Qed.

(** The checks that walk the graph, once ids and dependencies are known. *)
Lemma graph_checks_unstuck {A} ss (k : result PyError A) :
  NoDup (ids ss) -> deps_known ss -> never_stuck k ->
  never_stuck (cycle ← _detect_cycle ss;
               match cycle with
               | Some bad => Err (CycleError bad)
               | None => _check_correction_loop ss;; k
               end).
Proof.
  intros Hnd Hk Hrest. destruct (detect_cycle_iff ss Hnd Hk) as (r & -> & _).
  cbn [mbind result_bind]. destruct r; [by apply never_stuck_err|].
  apply never_stuck_bind; [by apply correction_check_unstuck|done].
Qed.

Lemma load_unstuck data registry : never_stuck (_load_service_pipeline data registry).
Proof.
  unfold _load_service_pipeline.
  apply never_stuck_bind; [unstuck|intros d _].
  apply never_stuck_bind; [unstuck|intros _ _].
  apply never_stuck_bind; [unstuck|intros _ _].
  apply never_stuck_bind; [unstuck|intros entries _].
  apply never_stuck_bind; [unstuck|intros ss Hss].
  apply load_stages_ok in Hss as (Hnd & _).
  do 7 (apply never_stuck_bind; [unstuck|intros ? _]).
  apply never_stuck_bind; [unstuck|intros [] Hk%check_all_deps_ok].
  apply graph_checks_unstuck; [done|done|]. unstuck.
Qed.

(** ** Properties *)


(** C36. The cycle check is exact.  On stages with distinct ids and known
    dependencies it passes exactly when the graph has no cycle and no stage
    lists a dependency twice, whatever order Kahn's loop meets them in;
    otherwise it reports a non-empty set of stages each of which waits for
    another of them or repeats a dependency. *)
Theorem pipeline_cycle_check_exact ss :
  NoDup (ids ss) -> deps_known ss ->
  exists r, _detect_cycle ss = Ok r /\
    (r = None <-> acyclic (ids ss) (dep_set ss) /\ no_repeats ss) /\
    forall bad, r = Some bad -> bad <> [] /\ forall x, x ∈ bad ->
      (exists y, y ∈ bad /\ needs ss x y) \/ (exists s, s ∈ ss /\ id s = x /\ ~ NoDup (dep_names s)).
Proof.
  intros Hnd Hk. destruct (detect_cycle_iff ss Hnd Hk) as (r & Hr & Hiff).
  exists r. split_and!; [done|done|]. intros bad ->. by apply unpopped_waits.
Qed.

(** Corrections are gated.  In a pipeline that loads, every [correct] stage
    but the first declared one depends, directly or not, on a [qc] stage. *)
Theorem correct_stages_gated data registry p a bs b :
  _load_service_pipeline data registry = Ok p ->
  id <$> List.filter (fun s => String.eqb (kind s) "correct") (stages p) = a :: bs -> b ∈ bs ->
  exists q, q ∈ stages p /\ kind q = "qc" /\ tc (needs (stages p)) b (id q).
Proof.
  intros Hv%load_valid Hcs Hb. destruct Hv as [_ _ Hnd _ Hk _ _ Hg _ _ _ _ _ _].
  assert (forall x, x ∈ a :: bs -> exists s, s ∈ stages p /\ id s = x /\ kind s = "correct") as Hin.
  { intros x. rewrite <- Hcs. intros (s & -> & Hs)%list_elem_of_fmap.
    apply list_elem_of_In, List.filter_In in Hs as [Hs%list_elem_of_In Hkind%String.eqb_eq]. eauto. }
  unfold _check_correction_loop in Hg. rewrite Hcs in Hg.
  destruct (check_pairs_spec (stages p) (a :: bs) Hnd Hk) as [_ Hgate].
  { intros x (s & Hs & <- & _)%Hin. by apply list_elem_of_fmap_2. }
  destruct (Hgate Hg b Hb) as (q & Hq & Hqc & Hr). exists q. split_and!; [done|done|].
  destruct (Hin b) as (s & Hs & Hid & Hc); [by right|].
  apply rtc_tc in Hr as [Heq|?]; [|done]. exfalso.
  assert (stage_map (stages p) b = Some s /\ stage_map (stages p) b = Some q) as [H1 H2]
    by by split; apply stage_map_spec.
  congruence.
Qed.

(** Loading always ends: no input makes a graph walk run out of steps or
    look up a stage that is not there. *)
Theorem pipeline_load_terminates data registry :
  _load_service_pipeline data registry <> Err OutOfFuel /\
  _load_service_pipeline data registry <> Err KeyError.
Proof. apply load_unstuck. Qed.

(** The generic prompt target.  For a pipeline that loads, the derived
    target is [t] exactly when there is an enhance stage and exactly one
    [generate] stage depends on the first of them, directly or not, and that
    stage declares [t], a safe dotted path; it is absent exactly when no
    [generate] stage depends on an enhance stage. *)
Theorem generic_target_exact data registry p e :
  _load_service_pipeline data registry = Ok p ->
  List.find is_enhance (stages p) = Some e ->
  (forall t, _derive_generic_prompt_target (stages p) = Ok (Some t) <->
     exists s, s ∈ stages p /\ kind s = "generate" /\ tc (needs (stages p)) (id s) (id e) /\
       (forall s', s' ∈ stages p -> kind s' = "generate" -> tc (needs (stages p)) (id s') (id e) ->
          s' = s) /\
       t = target_text s /\ _is_safe_prompt_target t = true) /\
  (_derive_generic_prompt_target (stages p) = Ok None <->
     forall s, s ∈ stages p -> kind s = "generate" -> ~ tc (needs (stages p)) (id s) (id e)).
Proof.
  intros Hv%load_valid He. destruct Hv as [_ _ Hnd _ Hk _ _ _ _ _ _ _ _ _].
  unfold _derive_generic_prompt_target. rewrite He.
  destruct (downstream_spec (stages p) Hnd Hk (id e)) as (l & Hd & Hl). rewrite Hd. simpl.
  assert (NoDup l) as Hln.
  { apply (NoDup_fmap_1 id). revert Hd. unfold _find_downstream_generate_stages.
    destruct (reach _ _ _ _); [|done]. intros [= <-]. by apply ids_filter_nodup. }
  destruct l as [|s [|s2 l]].
  - split.
    + intros t. split; [done|]. intros (s & Hs & Hkind & Ht & _).
      assert (s ∈ []) as []%not_elem_of_nil. by apply Hl.
    + split; [|done]. intros _ s Hs Hkind Ht. assert (s ∈ []) as []%not_elem_of_nil. by apply Hl.
  - assert (s ∈ stages p /\ kind s = "generate" /\ tc (needs (stages p)) (id s) (id e)) as (H1 & H2 & H3).
    { apply Hl. left. }
    unfold guard. destruct (_is_safe_prompt_target (target_text s)) eqn:Hsafe; simpl.
    + split; [|split; [done|intros Hno; by destruct (Hno s)]].
      intros t. split.
      * intros [= <-]. exists s. split_and!; try done.
        intros s' ? ? ?. assert (s' ∈ [s]) as ->%list_elem_of_singleton; [by apply Hl|done].
      * intros (s' & Hs' & Hk' & Ht' & _ & -> & _).
        assert (s' ∈ [s]) as ->%list_elem_of_singleton; [by apply Hl|done].
    + split; [|split; [done|intros Hno; by destruct (Hno s)]].
      intros t. split; [done|]. intros (s' & Hs' & Hk' & Ht' & _ & -> & Hsafe').
      assert (s' ∈ [s]) as ->%list_elem_of_singleton; [by apply Hl|congruence].
  - assert (s ∈ stages p /\ kind s = "generate" /\ tc (needs (stages p)) (id s) (id e)) as (H1 & H2 & H3).
    { apply Hl. left. }
    split; [|split; [done|intros Hno; by destruct (Hno s)]].
    intros t. split; [done|]. intros (s' & Hs' & Hk' & Ht' & Huniq & _).
    assert (s2 ∈ stages p /\ kind s2 = "generate" /\ tc (needs (stages p)) (id s2) (id e)) as (G1 & G2 & G3).
    { apply Hl. right. left. }
    assert (s = s2) as -> by (rewrite (Huniq s), (Huniq s2) by done; done).
    apply NoDup_cons in Hln as [Hln _]. exfalso. apply Hln. left.
Qed.

Lemma nonblank_some v s : nonblank v = Some s -> exists raw, v = PStr raw /\ s = py_strip raw /\ s <> "".
Proof.
  destruct v; simpl; try done. case_match eqn:Ht; [|done]. intros [= <-].
  eexists. split_and!; [done|done|]. intros Heq. by rewrite Heq in Ht.
Qed.

(** A request cannot replace the pipeline its template declares.  When a
    template carries the link, the only pipeline a request can resolve to is
    the declared one, and it resolves exactly when the declared id is a
    non-blank string and the request names none or the same one. *)
Theorem declared_pipeline_wins template request_params dv :
  dict_get (dict_or_empty template) "service_pipeline_id" = Some dv ->
  forall r, resolve_generation_pipeline_id template request_params = (Some r, None) <->
    nonblank dv = Some r /\
    (dict_get_or (dict_or_empty request_params) "service_pipeline_id" PNone = PNone \/
     nonblank (dict_get_or (dict_or_empty request_params) "service_pipeline_id" PNone) = Some r).
Proof.
  intros Hd r. unfold resolve_generation_pipeline_id, dict_get_or. rewrite Hd.
  assert (nonblank PNone = None) as Hnone by done.
  destruct (nonblank dv) as [declared|] eqn:Hdv.
  - assert (match dv with PNone => False | _ => True end) as Hdv'.
    { destruct (nonblank_some _ _ Hdv) as (raw & -> & _). done. }
    destruct (dict_get (dict_or_empty request_params) "service_pipeline_id") as [rv|]; simpl.
    + destruct (nonblank rv) as [q|] eqn:Hq.
      * destruct (nonblank_some _ _ Hq) as (raw & -> & _).
        destruct (String.eqb_spec declared q) as [->|Hne]; destruct dv; naive_solver.
      * destruct rv, dv; naive_solver.
    + destruct dv; naive_solver.
  - destruct dv; naive_solver.
Qed.

(** ** Witnesses *)

Definition demo_registry : gset string := {["qwen"; "krea"; "vision"; "editor"]}.

Definition demo_stage (sid k p : string) (deps : list string) (ps : list (string * value)) : value :=
  PDict [("id", PStr sid); ("kind", PStr k); ("provider", PStr p);
         ("depends_on", PList (PStr <$> deps)); ("params", PDict ps)].

Definition demo_pipeline : value :=
  PDict [("schema_id", PStr SCHEMA_ID);
    ("stages", PList
      [demo_stage "fix0" "correct" "editor" [] [];
       demo_stage "enhance" "prompt_enhance" "qwen" ["fix0"] [];
       demo_stage "draw" "generate" "krea" ["enhance"] [("prompt_target", PStr "6.inputs.text")];
       demo_stage "look" "qc" "vision" ["draw"] [];
       demo_stage "fix" "correct" "editor" ["look"] []]);
    ("loops", PList
      [PDict [("id", PStr "l1"); ("trigger_stage_id", PStr "look"); ("correction_stage_id", PStr "fix");
              ("on_correction", PList [PStr "draw"; PStr "look"]); ("max_iterations", PInt 2)]])].

Definition demo_loaded : ServicePipeline :=
  match _load_service_pipeline demo_pipeline demo_registry with
  | Ok p => p
  | Err _ => mkServicePipeline "" [] 0 0 "" []
  end.

Lemma demo_loads : _load_service_pipeline demo_pipeline demo_registry = Ok demo_loaded.
Proof. vm_compute. reflexivity. Qed.


Lemma pipeline_cycle_check_exact_witness :
  exists r, _detect_cycle (stages demo_loaded) = Ok r /\
    (r = None <-> acyclic (ids (stages demo_loaded)) (dep_set (stages demo_loaded)) /\
                  no_repeats (stages demo_loaded)).
Proof.
  destruct (pipeline_cycle_check_exact (stages demo_loaded)) as (r & H1 & H2 & _).
  - apply (bool_decide_unpack _). vm_compute. exact I.
  - exact (valid_deps _ _ (load_valid _ _ _ demo_loads)).
  - exists r. split; [exact H1|exact H2].
Defined.

Lemma correct_stages_gated_witness :
  exists q, q ∈ stages demo_loaded /\ kind q = "qc" /\ tc (needs (stages demo_loaded)) "fix" (id q).
Proof.
  refine (correct_stages_gated demo_pipeline demo_registry demo_loaded "fix0" ["fix"] "fix" _ _ _);
    [exact demo_loads|vm_compute; reflexivity|left].
Defined.

Lemma generic_target_exact_witness :
  exists e, List.find is_enhance (stages demo_loaded) = Some e /\
    (_derive_generic_prompt_target (stages demo_loaded) = Ok (Some "6.inputs.text")) /\
    exists s, s ∈ stages demo_loaded /\ kind s = "generate" /\ "6.inputs.text" = target_text s.
Proof.
  eexists. split; [vm_compute; reflexivity|]. split; [vm_compute; reflexivity|].
  destruct (proj1 (proj1 (generic_target_exact demo_pipeline demo_registry demo_loaded _
    demo_loads ltac:(vm_compute; reflexivity)) "6.inputs.text"))
    as (s & H1 & H2 & _ & _ & H3 & _); [vm_compute; reflexivity|].
  exists s. split; [exact H1|]. split; [exact H2|exact H3].
Defined.

Lemma declared_pipeline_wins_witness :
  let template := PDict [("service_pipeline_id", PStr " krea-v1 ")] in
  let request := PDict [("service_pipeline_id", PStr "krea-v1")] in
  resolve_generation_pipeline_id template request = (Some "krea-v1", None).
Proof.
  intros template request.
  refine (proj2 (declared_pipeline_wins template request (PStr " krea-v1 ") _ "krea-v1") _).
  - vm_compute. reflexivity.
  - split; [vm_compute; reflexivity|right; vm_compute; reflexivity].
Defined.

(** ** What the code lets through *)

(** Parameters override the checked provider in the flattened configuration. *)
Example compiled_provider_escapes :
  let cfg := PDict [("schema_id", PStr SCHEMA_ID);
    ("stages", PList [demo_stage "look" "qc" "vision" [] [("provider", PStr "unregistered")]])] in
  exists out post, compile_generation_pipeline (fun _ => "") (fun _ => "") "svc" (PDict [])
      [("svc", cfg)] demo_registry = Ok (PDict out) /\
    dict_get out "post_generate" = Some (PDict post) /\
    dict_get post "provider" = Some (PStr "unregistered") /\ "unregistered" ∉ demo_registry.
Proof. do 2 eexists. split_and!; [vm_compute; reflexivity..|]. set_solver. Qed.

(** Two unrelated [correct] stages are refused as a correction loop. *)
Example independent_corrections_refused :
  _load_service_pipeline (PDict [("schema_id", PStr SCHEMA_ID);
    ("stages", PList [demo_stage "a" "correct" "editor" [] []; demo_stage "b" "correct" "editor" [] []])])
    demo_registry = Err AmbiguousCorrectionLoopError.
Proof. vm_compute. reflexivity. Qed.

(** A gate on one branch hides an ungated path between [correct] stages. *)
Example ungated_path_accepted :
  is_ok (_load_service_pipeline (PDict [("schema_id", PStr SCHEMA_ID);
    ("stages", PList [demo_stage "a" "correct" "editor" [] []; demo_stage "q" "qc" "vision" [] [];
                      demo_stage "b" "correct" "editor" ["q"; "a"] []])]) demo_registry) = true.
Proof. vm_compute. reflexivity. Qed.

(** A repeated dependency is reported as a cycle. *)
Example repeated_dependency_is_a_cycle :
  _load_service_pipeline (PDict [("schema_id", PStr SCHEMA_ID);
    ("stages", PList [demo_stage "a" "generate" "krea" [] []; demo_stage "b" "qc" "vision" ["a"; "a"] []])])
    demo_registry = Err (CycleError ["b"]).
Proof. vm_compute. reflexivity. Qed.

(** A dict inside a list is not searched for credentials. *)
Example nested_secret_accepted :
  _walk_params [("items", PList [PDict [("password", PStr "x")]])] = Ok tt.
Proof. vm_compute. reflexivity. Qed.

(** The retries of a stage are not bounded. *)
Example stage_retries_unbounded :
  is_ok (_load_service_pipeline (PDict [("schema_id", PStr SCHEMA_ID);
    ("stages", PList [PDict [("id", PStr "a"); ("kind", PStr "generate"); ("provider", PStr "krea");
                             ("retries", PInt 100000)]])]) demo_registry) = true.
Proof. vm_compute. reflexivity. Qed.
