(* ===== verification/Broker.v ===== *)
(** * Broker: contracts and pure rules of the Gemma broker

    Models [scripts/gemma_broker/contracts.py] (states, the member transition
    table, the member and job records), [compatibility.py] (the verdict on a
    request and a member), [admission.py], and the priority and capacity rules
    of [redis_store.py].  Token counts, slots and versions are integers; times
    are microseconds as everywhere. *)

From S2P Require Import Prelude PyValue.

(** ** Contracts *)

Inductive MemberState :=
  | OFFLINE | JOINING | READY_ACCEPTING | READY_BUSY | DRAINING | UNHEALTHY | MEMBER_FAULTED_STATE.
#[export] Instance MemberState_eq_dec : EqDecision MemberState.
Proof. solve_decision. Defined.

Inductive JobState :=
  | QUEUED | CLAIMED | ACCEPTED | IN_FLIGHT | COMPLETED | FAILED | CANCELLED | OUTCOME_UNKNOWN.
#[export] Instance JobState_eq_dec : EqDecision JobState.
Proof. solve_decision. Defined.

Inductive JobPriority := INTERACTIVE | NORMAL | BACKGROUND.
#[export] Instance JobPriority_eq_dec : EqDecision JobPriority.
Proof. solve_decision. Defined.

(** [int(priority)] *)
Definition priority_value (p : JobPriority) : Z :=
  match p with INTERACTIVE => 0 | NORMAL => 10 | BACKGROUND => 20 end.

(** [MEMBER_FAULTED_STATE] above is [MemberState.FAULTED]. *)
Inductive ReasonCode :=
  | MEMBER_CONFIG_DISABLED | MEMBER_IDLE_SERVICE_NOT_CONFIGURED
  | MEMBER_IDLE_SERVICE_NOT_EFFECTIVE | MEMBER_CONFLICTING_BUNDLE | MEMBER_SYSTEMD_INACTIVE
  | MEMBER_HTTP_UNREADY | MEMBER_PORT_DARK | MEMBER_PROBE_TIMEOUT | MEMBER_PROBE_DISCONNECTED
  | MEMBER_UNHEALTHY_RESPONSE | MEMBER_MODEL_NOT_RESIDENT | MEMBER_DISPATCHER_UNREGISTERED
  | MEMBER_DRAINING | MEMBER_UNHEALTHY | MEMBER_FAULTED | MEMBER_NO_CAPACITY
  | REQUEST_CONTEXT_INCOMPATIBLE | REQUEST_CAPABILITY_INCOMPATIBLE | REDIS_STATE_UNKNOWN
  | TELEMETRY_STALE | RESERVATION_STATE_STALE | PRE_ACCEPTANCE_REQUEUE
  | POST_ACCEPTANCE_OUTCOME_UNKNOWN | CANCELLED_BEFORE_ACCEPTANCE | CANCELLED_AFTER_ACCEPTANCE
  | CANCEL_UNSAFE_AFTER_ACCEPTANCE | IDEMPOTENCY_KEY_REUSED | MIGRATION_PEL_NOT_EMPTY
  | BASELINE_DRIFT | NO_ELIGIBLE_MEMBER | PRIORITY_INVALID | STREAMING_NOT_SUPPORTED
  | CRASH_EVIDENCE_CONFLICT.
#[export] Instance ReasonCode_eq_dec : EqDecision ReasonCode.
Proof. solve_decision. Defined.

Inductive BrokerError :=
  | RepositoryUnavailable | LeadershipLost | ValueError | KeyError
  | ReservationStale (code : string)
  | ContractError (code : string).

Definition _ALLOWED_MEMBER_TRANSITIONS (current : MemberState) : list MemberState :=
  match current with
  | OFFLINE => [JOINING]
  | JOINING => [READY_ACCEPTING; DRAINING; UNHEALTHY; MEMBER_FAULTED_STATE; OFFLINE]
  | READY_ACCEPTING => [READY_BUSY; DRAINING; UNHEALTHY; MEMBER_FAULTED_STATE]
  | READY_BUSY => [READY_ACCEPTING; DRAINING; UNHEALTHY; MEMBER_FAULTED_STATE]
  | DRAINING => [OFFLINE; MEMBER_FAULTED_STATE]
  | UNHEALTHY => [JOINING; DRAINING; OFFLINE; MEMBER_FAULTED_STATE]
  | MEMBER_FAULTED_STATE => [JOINING; OFFLINE]
  end.

Definition validate_member_transition (current target : MemberState) : result BrokerError unit :=
  guard (bool_decide (target ∈ _ALLOWED_MEMBER_TRANSITIONS current))
    (ContractError "ILLEGAL_MEMBER_TRANSITION").

Record MemberSnapshot := mkMemberSnapshot {
  m_name : string; gpu_id : option string; m_state : MemberState; accepting : bool;
  configured_slots : Z; context_per_slot : Z; m_state_version : Z; observed_at : time;
  m_generation_fence : Z; backend_slots_total : option Z; backend_slots_busy : option Z;
  dispatcher_leases : Z; drain_disabled_slots : Z; compatible_free_slots : option Z;
  capabilities : list string; idle_service_configured : option string;
  idle_service_effective : option bool; systemd_active : bool; main_pid : option Z;
  semantic_health : bool; model_resident : option bool; dispatcher_registered : bool;
  snapshot_age_ms : Z; blockers : list string; reason_codes : list ReasonCode }.

#[export] Instance MemberSnapshot_eta : Replaceable MemberSnapshot := fun m =>
  mkMemberSnapshot (m_name m) (gpu_id m) (m_state m) (accepting m) (configured_slots m)
    (context_per_slot m) (m_state_version m) (observed_at m) (m_generation_fence m)
    (backend_slots_total m) (backend_slots_busy m) (dispatcher_leases m)
    (drain_disabled_slots m) (compatible_free_slots m) (capabilities m)
    (idle_service_configured m) (idle_service_effective m) (systemd_active m) (main_pid m)
    (semantic_health m) (model_resident m) (dispatcher_registered m) (snapshot_age_ms m)
    (blockers m) (reason_codes m).
#[export] Instance MemberSnapshot_eq_dec : EqDecision MemberSnapshot.
Proof. solve_decision. Defined.

Record JobRecord := mkJobRecord {
  job_id : string; idempotency_key : string; request_sha256 : string;
  request_body : list (string * value); submitted_at : time; enqueue_sequence : Z;
  base_priority : JobPriority; job_effective_priority : Z; job_state : JobState;
  selected_member : option string; member_state_version : option Z; attempt_count : Z;
  current_attempt_id : option string; accepted_boundary_crossed : bool;
  queue_claimed_at : option time; forward_started_at : option time; completed_at : option time;
  input_tokens_estimate : option Z; max_output_tokens : option Z;
  required_capabilities : list string; job_result : option (list (string * value));
  job_error : option string; reason_code : option ReasonCode; cancel_requested : bool;
  state_version : Z; schema_version : Z }.

#[export] Instance JobRecord_eta : Replaceable JobRecord := fun j =>
  mkJobRecord (job_id j) (idempotency_key j) (request_sha256 j) (request_body j) (submitted_at j)
    (enqueue_sequence j) (base_priority j) (job_effective_priority j) (job_state j)
    (selected_member j) (member_state_version j) (attempt_count j) (current_attempt_id j)
    (accepted_boundary_crossed j) (queue_claimed_at j) (forward_started_at j) (completed_at j)
    (input_tokens_estimate j) (max_output_tokens j) (required_capabilities j) (job_result j)
    (job_error j) (reason_code j) (cancel_requested j) (state_version j) (schema_version j).

(** [x or 0] of an optional integer. *)
Definition int_or_0 (o : option Z) : Z := default 0 o.

(** ** Compatibility *)

Record RequestRequirements := mkRequestRequirements {
  req_input_tokens : Z; req_max_output : Z; req_capabilities : list string;
  estimate_source : string }.

Record CompatibilityResult := mkCompatibilityResult {
  compatible : bool; required_context : Z; compat_reasons : list ReasonCode }.

(** [set(xs).issubset(ys)] *)
Definition subset_of (xs ys : list string) : bool := forallb (fun x => bool_decide (x ∈ ys)) xs.

Definition evaluate (requirements : RequestRequirements) (member : MemberSnapshot) (safety_margin : Z)
    : CompatibilityResult :=
  let needed := req_input_tokens requirements + req_max_output requirements
                + Z.max 0 safety_margin in
  let reasons :=
    (if context_per_slot member <? needed then [REQUEST_CONTEXT_INCOMPATIBLE] else [])
    ++ (if negb (subset_of (req_capabilities requirements) (capabilities member))
        then [REQUEST_CAPABILITY_INCOMPATIBLE] else []) in
  mkCompatibilityResult (match reasons with [] => true | _ => false end) needed reasons.

Definition default_margin : Z := 1024.

(** ** Capacity and priority *)

Definition _derive_compatible_free_slots (configured : Z) (backend_total : option Z)
    (backend_busy live_leases : Z) : Z :=
  let configured := Z.max 0 configured in
  if configured <=? 0 then 0
  else
    let observed_total :=
      match backend_total with
      | None => configured
      | Some total => Z.max 0 (Z.min configured total)
      end in
    let backend_free := Z.max 0 (observed_total - Z.max 0 backend_busy) in
    let dispatcher_free := Z.max 0 (configured - Z.max 0 live_leases) in
    Z.min configured (Z.min backend_free dispatcher_free).

(** [int(wait // aging_seconds)] tiers of ten. *)
Definition effective_priority (base : JobPriority) (submitted now aging : time)
    : result BrokerError Z :=
  guard (0 <? aging) ValueError;;
  let wait := Z.max 0 (now - submitted) in
  Ok (Z.max (priority_value INTERACTIVE) (priority_value base - 10 * (wait / aging))).

(** ** Admission *)

Record AdmissionController := mkAdmissionController {
  queue_cap : Z; token_cap : Z; freshness : time; service_rate : Z; eta_cap : time }.

(** [__init__]; [service_rate] is in jobs per million seconds. *)
Definition admission_init (c : AdmissionController) : result BrokerError AdmissionController :=
  guard (negb ((queue_cap c <=? 0) || (token_cap c <=? 0))) ValueError;;
  guard (negb ((freshness c <=? 0) || (service_rate c <=? 0) || (eta_cap c <=? 0))) ValueError;;
  Ok c.

Inductive Profile := Stale | Eligible | NoCapacity | Incompatible.
#[export] Instance Profile_eq_dec : EqDecision Profile.
Proof. solve_decision. Defined.

Inductive AdmissionReason := queue_depth_cap | queue_token_cap | capacity_stale | no_eligible_member.

Record AdmissionResult := mkAdmissionResult {
  admitted : bool; admission_reasons : list AdmissionReason; eta : option time;
  member_profiles : list (string * Profile) }.

Definition job_requirements (job : JobRecord) : RequestRequirements :=
  mkRequestRequirements (int_or_0 (input_tokens_estimate job)) (int_or_0 (max_output_tokens job))
    (required_capabilities job) "durable_job".

Definition profile (c : AdmissionController) (requirements : RequestRequirements) (now : time)
    (m : MemberSnapshot) : Profile :=
  if negb (now - observed_at m <=? freshness c) then Stale
  else
    let ok := compatible (evaluate requirements m default_margin) in
    let has_capacity := 0 <? int_or_0 (compatible_free_slots m) in
    let ready := bool_decide (m_state m = READY_ACCEPTING) && accepting m in
    if ok && has_capacity && ready then Eligible
    else if ok && ready then NoCapacity
    else Incompatible.

Definition admission_evaluate (c : AdmissionController) (job : JobRecord)
    (members : list MemberSnapshot) (now : time) (queue_depth queued_tokens : Z) : AdmissionResult :=
  let verdicts := profile c (job_requirements job) now <$> members in
  let eligible := bool_decide (Eligible ∈ verdicts) in
  let stale := bool_decide (Stale ∈ verdicts) in
  let fresh := existsb (fun v => negb (bool_decide (v = Stale))) verdicts in
  let profiles := dict_update [] (zip (m_name <$> members) verdicts) in
  let reasons :=
    if queue_cap c <=? queue_depth then [queue_depth_cap]
    else if token_cap c <? queued_tokens + int_or_0 (input_tokens_estimate job)
                           + int_or_0 (max_output_tokens job) then [queue_token_cap]
    else if negb eligible then
      if stale && negb fresh then [capacity_stale] else [no_eligible_member]
    else [] in
  match reasons with
  | [] =>
      mkAdmissionResult true []
        (Some (Z.min ((Z.max 0 queue_depth + 1) * 1000000 * 1000000 / service_rate c) (eta_cap c)))
        profiles
  | _ => mkAdmissionResult false reasons None profiles
  end.

(** ** Requests *)

Definition newline : string := String (Ascii.ascii_of_nat 10) "".

(** [isinstance(v, list)] and every item a [str]. *)
Definition strings_of (v : value) : option (list string) :=
  match v with PList l => mapM as_str l | _ => None end.

Definition user_message (content : string) : value :=
  PList [PDict [("role", PStr "user"); ("content", PStr content)]].

Definition normalize_chat_request (body : list (string * value)) : list (string * value) :=
  match dict_get body "messages" with
  | Some (PList (_ :: _)) => body
  | _ =>
      match dict_get body "prompt" with
      | Some (PStr prompt) =>
          if str_truthy prompt then dict_set body "messages" (user_message prompt) else body
      | Some (PList (_ :: _) as prompt) =>
          match strings_of prompt with
          | Some items => dict_set body "messages" (user_message (String.concat newline items))
          | None => body
          end
      | _ => body
      end
  end.

(** A normalised request stays as it is. *)
Lemma normalize_chat_request_idem body :
  normalize_chat_request (normalize_chat_request body) = normalize_chat_request body.
Proof.
  assert (forall d c, normalize_chat_request (dict_set d "messages" (user_message c))
                      = dict_set d "messages" (user_message c)) as Hset.
  { intros d c. unfold normalize_chat_request at 1. by rewrite dict_get_set. }
  unfold normalize_chat_request at 2 3.
  destruct (dict_get body "messages") as [v|] eqn:Hm; [destruct v as [|b0|n0|f0| | |s0|[|x l]|d0]|];
    try (by unfold normalize_chat_request; rewrite Hm);
    (destruct (dict_get body "prompt") as [p|] eqn:Hp;
       [destruct p as [|b1|n1|f1| | |s|[|y items]|d1]|]);
    try (by unfold normalize_chat_request; rewrite Hm, Hp);
    try (destruct (str_truthy s) eqn:Hs; [apply Hset|by unfold normalize_chat_request; rewrite Hm, Hp, Hs]);
    destruct (strings_of (PList (y :: items))) eqn:Hst; try apply Hset;
    by unfold normalize_chat_request; rewrite Hm, Hp, Hst.
Qed.
