(* ===== verification/BrokerRepo.v ===== *)
(** * BrokerRepo: the in-memory job repository

    Models [InMemoryJobRepository] of [scripts/gemma_broker/redis_store.py]:
    jobs, three priority queues, idempotency, members and their lease sets,
    and leadership, one function per method on an explicit state.  Every
    method runs under the lock, so it is one step; a method that raises
    changes nothing.  [uuid4] is an argument of [reserve_next]. *)

From S2P Require Import Prelude PyValue Broker.

(** ** State *)

Record Repo := mkRepo {
  available : bool;
  aging_seconds : time;
  _jobs : gmap string JobRecord;
  _queues : JobPriority -> list string;
  _idempotency : gmap (string * string) (string * string);
  _members : gmap string MemberSnapshot;
  _leases : gmap string (gset string);
  _leader_owner : option string;
  _leader_token : Z;
  _leader_expires_at : time;
  _notified : list string }.

#[export] Instance Repo_eta : Replaceable Repo := fun r =>
  mkRepo (available r) (aging_seconds r) (_jobs r) (_queues r) (_idempotency r) (_members r)
    (_leases r) (_leader_owner r) (_leader_token r) (_leader_expires_at r) (_notified r).

Definition empty_repo (aging : time) : Repo :=
  mkRepo true aging ∅ (fun _ => []) ∅ ∅ ∅ None 0 0 [].

Implicit Types (r : Repo).

Definition _require_available r : result BrokerError unit := guard (available r) RepositoryUnavailable.

(** [terminal_notifier.notify_terminal], as a log. *)
Definition _notify_terminal r (jid : string) : Repo := r ⟪ _notified := _notified r ++ [jid] ⟫.

Definition all_priorities : list JobPriority := [INTERACTIVE; NORMAL; BACKGROUND].

Definition queue_total r : nat := list_sum ((fun p => length (_queues r p)) <$> all_priorities).

Definition set_queue r (p : JobPriority) (q : list string) : Repo :=
  r ⟪ _queues := fun p' => if decide (p' = p) then q else _queues r p' ⟫.

Definition set_job r (job : JobRecord) : Repo := r ⟪ _jobs := <[job_id job := job]> (_jobs r) ⟫.

Definition set_member r (name : string) (m : MemberSnapshot) : Repo :=
  r ⟪ _members := <[name := m]> (_members r) ⟫.

(** [self._leases.get(name, set())] *)
Definition member_leases r (name : string) : gset string := default ∅ (_leases r !! name).

Definition set_leases r (name : string) (ls : gset string) : Repo :=
  r ⟪ _leases := <[name := ls]> (_leases r) ⟫.

Definition stale {A} : result BrokerError A := Err (ReservationStale "RESERVATION_STATE_STALE").

(** ** Jobs *)

Definition submit r (job : JobRecord) (caller_scope : string) : result BrokerError (JobRecord * Repo) :=
  _require_available r;;
  let key := (caller_scope, idempotency_key job) in
  match _idempotency r !! key with
  | Some (prior_job_id, prior_hash) =>
      guard (String.eqb prior_hash (request_sha256 job)) (ContractError "IDEMPOTENCY_KEY_REUSED");;
      match _jobs r !! prior_job_id with
      | Some prior => Ok (prior, r)
      | None => Err KeyError
      end
  | None =>
      guard (negb (bool_decide (is_Some (_jobs r !! job_id job)))) (ContractError "DUPLICATE_JOB_ID");;
      let stored := job ⟪ job_effective_priority := priority_value (base_priority job) ⟫ in
      let p := base_priority stored in
      Ok (stored, (set_queue (set_job r stored) p (_queues r p ++ [job_id stored]))
                    ⟪ _idempotency := <[key := (job_id stored, request_sha256 stored)]> (_idempotency r) ⟫)
  end.

Definition get_job r (jid : string) : result BrokerError (option JobRecord) :=
  _require_available r;; Ok (_jobs r !! jid).

(** The head of each non-empty queue, in priority order. *)
Fixpoint queue_heads r (ps : list JobPriority) : result BrokerError (list JobRecord) :=
  match ps with
  | [] => Ok []
  | p :: ps' =>
      match _queues r p with
      | [] => queue_heads r ps'
      | jid :: _ =>
          match _jobs r !! jid with
          | None => Err KeyError
          | Some job => rest ← queue_heads r ps'; Ok (job :: rest)
          end
      end
  end.

Definition aged r (now : time) (job : JobRecord) : result BrokerError Z :=
  effective_priority (base_priority job) (submitted_at job) now (aging_seconds r).

(** [(p, n) < (q, m)] *)
Definition key_lt (a b : Z * Z) : bool := (a.1 <? b.1) || ((a.1 =? b.1) && (a.2 <? b.2)).

(** [min] keeps the first of equal keys. *)
Fixpoint min_by_key (key : JobRecord -> Z * Z) (best : JobRecord) (jobs : list JobRecord) : JobRecord :=
  match jobs with
  | [] => best
  | j :: jobs' => min_by_key key (if key_lt (key j) (key best) then j else best) jobs'
  end.

Definition head_key r (now : time) (job : JobRecord) : Z * Z :=
  (match aged r now job with Ok p => p | Err _ => 0 end, enqueue_sequence job).

Definition peek_next r (now : time) : result BrokerError (option JobRecord) :=
  _require_available r;;
  heads ← queue_heads r all_priorities;
  match heads with
  | [] => Ok None
  | j :: js =>
      guard (0 <? aging_seconds r) ValueError;;
      let selected := min_by_key (head_key r now) j js in
      Ok (Some (selected ⟪ job_effective_priority := (head_key r now selected).1 ⟫))
  end.

Definition reservable (requirements : RequestRequirements) (m : MemberSnapshot) : bool :=
  bool_decide (m_state m = READY_ACCEPTING) && accepting m
  && (0 <? int_or_0 (compatible_free_slots m))
  && compatible (evaluate requirements m default_margin).

Record Reservation := mkReservation { res_job : JobRecord; res_member : MemberSnapshot }.

(** The claim of [selected] by [member]. *)
Definition claimed_job (job : JobRecord) (member : MemberSnapshot) (attempt : string) (now : time)
    (priority : Z) : JobRecord :=
  job ⟪ job_state := CLAIMED ⟫ ⟪ selected_member := Some (m_name member) ⟫
      ⟪ member_state_version := Some (m_state_version member) ⟫
      ⟪ attempt_count := attempt_count job + 1 ⟫ ⟪ current_attempt_id := Some attempt ⟫
      ⟪ queue_claimed_at := Some now ⟫ ⟪ job_effective_priority := priority ⟫
      ⟪ state_version := state_version job + 1 ⟫.

Definition reserved_member (current : MemberSnapshot) (live : Z) : MemberSnapshot :=
  current ⟪ dispatcher_leases := live + 1 ⟫
          ⟪ compatible_free_slots :=
              Some (Z.max 0 (Z.min (configured_slots current - live - 1)
                                   (int_or_0 (compatible_free_slots current) - 1))) ⟫.

Definition lease_total r (name : string) : Z := Z.of_nat (size (member_leases r name)).

(** The commit-time view of the chosen member. *)
Definition reread (member_lookup : option (string -> MemberSnapshot)) (member : MemberSnapshot)
    : MemberSnapshot :=
  match member_lookup with Some f => f (m_name member) | None => member end.

Definition reserve_next r (now : time) (ordered_members : list MemberSnapshot)
    (requirements : RequestRequirements) (member_lookup : option (string -> MemberSnapshot))
    (attempt : string) : result BrokerError (option Reservation * Repo) :=
  next ← peek_next r now;
  match next with
  | None => Ok (None, r)
  | Some selected =>
      match List.find (reservable requirements) ordered_members with
      | None => Ok (None, r)
      | Some member =>
          let current := reread member_lookup member in
          let live := lease_total r (m_name current) in
          if (configured_slots current <=? 0) || (configured_slots current <=? live) then stale
          else if negb (m_state_version current =? m_state_version member)
                  || negb (bool_decide (m_state current = READY_ACCEPTING))
                  || negb (accepting current) || (int_or_0 (compatible_free_slots current) <=? 0)
          then stale
          else
            match _queues r (base_priority selected), _jobs r !! job_id selected with
            | head :: rest, Some job =>
                if negb (String.eqb head (job_id selected)) then stale
                else
                  let claimed := claimed_job job member attempt now (job_effective_priority selected) in
                  let reserved := reserved_member current live in
                  let r1 := set_job (set_queue r (base_priority selected) rest) claimed in
                  let r2 := set_leases r1 (m_name member) (member_leases r (m_name member) ∪ {[attempt]}) in
                  Ok (Some (mkReservation claimed reserved), set_member r2 (m_name member) reserved)
            | [], _ => stale
            | _, None => Err KeyError
            end
      end
  end.

Definition is_terminal (s : JobState) : bool :=
  match s with COMPLETED | FAILED | CANCELLED | OUTCOME_UNKNOWN => true | _ => false end.

Definition cancel_queued r (jid : string) (completed : time) : result BrokerError (JobRecord * Repo) :=
  _require_available r;;
  match _jobs r !! jid with
  | None => Err (ContractError "UNKNOWN_JOB_ID")
  | Some current =>
      if negb (bool_decide (job_state current = QUEUED)) then Ok (current, r)
      else
        let p := base_priority current in
        guard (bool_decide (jid ∈ _queues r p)) RepositoryUnavailable;;
        let cancelled :=
          current ⟪ job_state := CANCELLED ⟫ ⟪ completed_at := Some completed ⟫
                  ⟪ reason_code := Some CANCELLED_BEFORE_ACCEPTANCE ⟫
                  ⟪ state_version := state_version current + 1 ⟫ in
        let r1 := set_queue r p (remove_first jid (_queues r p)) in
        Ok (cancelled, _notify_terminal (r1 ⟪ _jobs := <[jid := cancelled]> (_jobs r) ⟫)
                         (job_id cancelled))
  end.

Definition replace_job r (job : JobRecord) : result BrokerError (JobRecord * Repo) :=
  _require_available r;;
  guard (bool_decide (is_Some (_jobs r !! job_id job))) (ContractError "UNKNOWN_JOB_ID");;
  let r1 := set_job r job in
  Ok (job, if is_terminal (job_state job) then _notify_terminal r1 (job_id job) else r1).

Definition requeued_job (current : JobRecord) (reason : ReasonCode) : JobRecord :=
  current ⟪ job_state := QUEUED ⟫ ⟪ selected_member := None ⟫ ⟪ member_state_version := None ⟫
          ⟪ current_attempt_id := None ⟫ ⟪ queue_claimed_at := None ⟫
          ⟪ forward_started_at := None ⟫ ⟪ reason_code := Some reason ⟫ ⟪ job_error := None ⟫
          ⟪ state_version := state_version current + 1 ⟫.

(** What a requeue gives back to the member it was claimed for. *)
Definition unreserved_member (m : MemberSnapshot) : MemberSnapshot :=
  m ⟪ dispatcher_leases := Z.max 0 (dispatcher_leases m - 1) ⟫
    ⟪ compatible_free_slots :=
        Some (Z.min (configured_slots m) (int_or_0 (compatible_free_slots m) + 1)) ⟫
    ⟪ m_state_version := m_state_version m + 1 ⟫.

Definition release_claim r (current : JobRecord) : Repo :=
  match selected_member current, current_attempt_id current with
  | Some name, Some attempt =>
      if str_truthy name && str_truthy attempt then
        let r1 := set_leases r name (member_leases r name ∖ {[attempt]}) in
        match _members r !! name with
        | Some m => set_member r1 name (unreserved_member m)
        | None => r1
        end
      else r
  | _, _ => r
  end.

Definition requeue_claim r (job : JobRecord) (reason : ReasonCode)
    : result BrokerError (JobRecord * Repo) :=
  _require_available r;;
  match _jobs r !! job_id job with
  | None => Err (ContractError "UNKNOWN_JOB_ID")
  | Some current =>
      guard (bool_decide (job_state current ∈ [CLAIMED; ACCEPTED; IN_FLIGHT]))
        (ContractError "REQUEUE_INVALID_STATE");;
      guard (negb (accepted_boundary_crossed current)) (ContractError "CANCEL_UNSAFE_AFTER_ACCEPTANCE");;
      let queued := requeued_job current reason in
      let p := base_priority queued in
      let q := _queues r p in
      let r1 := set_job r queued in
      let r2 := if bool_decide (job_id queued ∈ q) then r1 else set_queue r1 p (job_id queued :: q) in
      Ok (queued, release_claim r2 current)
  end.

(** ** Members *)

(** A published snapshot; a positive free-slot count is kept. *)
Definition merged_member (known : option MemberSnapshot) (member : MemberSnapshot) : MemberSnapshot :=
  match known with
  | Some current =>
      if (0 <? int_or_0 (compatible_free_slots current))
         && (int_or_0 (compatible_free_slots member) <=? 0) && (0 <? configured_slots member)
      then member ⟪ compatible_free_slots := compatible_free_slots current ⟫
      else member
  | None => member
  end.

Definition put_member r (member : MemberSnapshot) : result BrokerError (MemberSnapshot * Repo) :=
  _require_available r;;
  let name := m_name member in
  let member' := merged_member (_members r !! name) member in
  Ok (member', set_leases (set_member r name member') name (member_leases r name)).

Definition get_member r (name : string) : result BrokerError (option MemberSnapshot) :=
  _require_available r;; Ok (_members r !! name).

Definition add_member_lease r (name attempt : string) : result BrokerError Repo :=
  _require_available r;;
  guard (bool_decide (is_Some (_members r !! name))) (ContractError "UNKNOWN_MEMBER");;
  Ok (set_leases r name (member_leases r name ∪ {[attempt]})).

Definition lease_count r (name : string) : result BrokerError Z :=
  _require_available r;; Ok (lease_total r name).

(** The member, when it is known and at the expected version. *)
Definition member_at r (name : string) (expected : Z) : result BrokerError MemberSnapshot :=
  _require_available r;;
  match _members r !! name with
  | None => Err (ContractError "UNKNOWN_MEMBER")
  | Some current => if m_state_version current =? expected then Ok current else stale
  end.

(** [xs] followed by [x], without repeats. *)
Definition with_code {A} `{EqDecision A} (xs : list A) (x : A) : list A := dict_fromkeys (xs ++ [x]).

Definition draining_member (current : MemberSnapshot) : MemberSnapshot :=
  current ⟪ m_state := DRAINING ⟫ ⟪ accepting := false ⟫ ⟪ compatible_free_slots := Some 0 ⟫
          ⟪ m_state_version := m_state_version current + 1 ⟫
          ⟪ blockers := with_code (blockers current) "member_draining" ⟫
          ⟪ reason_codes := with_code (reason_codes current) MEMBER_DRAINING ⟫.

Definition begin_member_drain r (name : string) (expected : Z)
    : result BrokerError (MemberSnapshot * Repo) :=
  current ← member_at r name expected;
  if bool_decide (m_state current = DRAINING) then Ok (current, r)
  else
    validate_member_transition (m_state current) DRAINING;;
    Ok (draining_member current, set_member r name (draining_member current)).

(** The member after a release, with [live] leases left. *)
Definition released_member (current : MemberSnapshot) (live : Z) : MemberSnapshot :=
  if bool_decide (m_state current = DRAINING) then
    current ⟪ dispatcher_leases := live ⟫
            ⟪ drain_disabled_slots := drain_disabled_slots current + 1 ⟫
  else
    let free :=
      if 0 <? configured_slots current then
        _derive_compatible_free_slots (configured_slots current) (backend_slots_total current)
          (int_or_0 (backend_slots_busy current)) live
      else Z.min (configured_slots current) (Z.max 0 (int_or_0 (compatible_free_slots current) + 1)) in
    current ⟪ dispatcher_leases := live ⟫ ⟪ compatible_free_slots := Some free ⟫.

Definition fenced_state (s : MemberState) : bool :=
  match s with DRAINING | JOINING => true | _ => false end.

Definition release_member_lease r (name attempt : string) (claimed_version : Z)
    : result BrokerError (MemberSnapshot * Repo) :=
  _require_available r;;
  match _members r !! name with
  | None => Err (ContractError "UNKNOWN_MEMBER")
  | Some current =>
      guard (bool_decide (attempt ∈ member_leases r name)) (ReservationStale "LEASE_NOT_OWNED");;
      guard (if fenced_state (m_state current) then claimed_version =? m_state_version current
             else claimed_version <=? m_state_version current)
        (ReservationStale "RESERVATION_STATE_STALE");;
      let r1 := set_leases r name (member_leases r name ∖ {[attempt]}) in
      let updated := released_member current (lease_total r1 name) in
      Ok (updated, set_member r1 name updated)
  end.

Definition offline_member (current : MemberSnapshot) : MemberSnapshot :=
  current ⟪ m_state := OFFLINE ⟫ ⟪ accepting := false ⟫ ⟪ compatible_free_slots := Some 0 ⟫
          ⟪ m_state_version := m_state_version current + 1 ⟫.

Definition complete_member_drain r (name : string) (expected : Z)
    : result BrokerError (MemberSnapshot * Repo) :=
  current ← member_at r name expected;
  guard (bool_decide (m_state current = DRAINING)) (ContractError "DRAIN_INVALID_STATE");;
  guard (bool_decide (member_leases r name = ∅)) (ReservationStale "MEMBER_LEASES_REMAIN");;
  validate_member_transition (m_state current) OFFLINE;;
  Ok (offline_member current, set_member r name (offline_member current)).

Definition joining_member (current : MemberSnapshot) (fence : Z) : MemberSnapshot :=
  current ⟪ m_state := JOINING ⟫ ⟪ accepting := false ⟫ ⟪ compatible_free_slots := Some 0 ⟫
          ⟪ m_generation_fence := fence ⟫ ⟪ m_state_version := m_state_version current + 1 ⟫.

Definition begin_member_rejoin r (name : string) (expected fence : Z)
    : result BrokerError (MemberSnapshot * Repo) :=
  current ← member_at r name expected;
  guard (m_generation_fence current <? fence) (ContractError "GENERATION_FENCE_STALE");;
  validate_member_transition (m_state current) JOINING;;
  Ok (joining_member current fence, set_member r name (joining_member current fence)).

Definition rejoined_member (current readiness : MemberSnapshot) : MemberSnapshot :=
  readiness ⟪ m_state := READY_ACCEPTING ⟫ ⟪ accepting := true ⟫
            ⟪ m_generation_fence := m_generation_fence current ⟫
            ⟪ m_state_version := m_state_version current + 1 ⟫
            ⟪ drain_disabled_slots := 0 ⟫ ⟪ dispatcher_leases := 0 ⟫.

Definition complete_member_rejoin r (name : string) (expected : Z) (readiness : MemberSnapshot)
    : result BrokerError (MemberSnapshot * Repo) :=
  current ← member_at r name expected;
  validate_member_transition (m_state current) READY_ACCEPTING;;
  Ok (rejoined_member current readiness, set_member r name (rejoined_member current readiness)).

(** ** Counts *)

Inductive AttemptState :=
  | RESERVED | FORWARDING | ATT_ACCEPTED | ATT_COMPLETED | ATT_FAILED | ATT_CANCELLED | ATT_OUTCOME_UNKNOWN.
#[export] Instance AttemptState_eq_dec : EqDecision AttemptState.
Proof. solve_decision. Defined.

Definition attempt_state_of (s : JobState) : option AttemptState :=
  match s with
  | QUEUED => None
  | CLAIMED => Some RESERVED
  | ACCEPTED => Some ATT_ACCEPTED
  | IN_FLIGHT => Some FORWARDING
  | COMPLETED => Some ATT_COMPLETED
  | FAILED | CANCELLED | OUTCOME_UNKNOWN => Some ATT_FAILED
  end.

Record DurableCounts := mkDurableCounts {
  jobs_total : nat; jobs_by_state : JobState -> nat;
  attempts_total : Z; attempts_by_state : AttemptState -> nat }.

(** The counters; a state that does not occur counts 0. *)
Definition durable_counts r : result BrokerError DurableCounts :=
  _require_available r;;
  let jobs := (map_to_list (_jobs r)).*2 in
  let attempts := List.filter (fun j => opt_truthy (current_attempt_id j)) jobs in
  Ok (mkDurableCounts (size (_jobs r))
        (fun s => length (List.filter (fun j => bool_decide (job_state j = s)) jobs))
        (foldr Z.add 0 (attempt_count <$> jobs))
        (fun a => length (List.filter (fun j => bool_decide (attempt_state_of (job_state j) = Some a)) attempts))).

(** ** Leadership *)

Definition grant_leader r (owner : string) (token : Z) (expires : time) : Repo :=
  r ⟪ _leader_owner := Some owner ⟫ ⟪ _leader_token := token ⟫ ⟪ _leader_expires_at := expires ⟫.

Definition acquire_leadership r (owner : string) (now ttl : time) : result BrokerError (Z * Repo) :=
  guard (str_truthy owner && (0 <? ttl)) ValueError;;
  _require_available r;;
  let token :=
    if bool_decide (_leader_owner r = Some owner) && (0 <? _leader_token r)
       && (now <? _leader_expires_at r)
    then _leader_token r else _leader_token r + 1 in
  Ok (token, grant_leader r owner token (now + ttl)).

Definition renew_leadership r (owner : string) (token : Z) (now ttl : time)
    : result BrokerError (Z * Repo) :=
  guard (str_truthy owner && (0 <? token) && (0 <? ttl)) ValueError;;
  _require_available r;;
  guard (bool_decide (_leader_owner r = Some owner) && (_leader_token r =? token)
         && (now <? _leader_expires_at r)) LeadershipLost;;
  Ok (token, grant_leader r owner token (now + ttl)).

(** ** Histories *)

Inductive RepoOp :=
  | RSubmit (job : JobRecord) (scope : string)
  | RReserve (now : time) (members : list MemberSnapshot) (requirements : RequestRequirements)
      (lookup : option (string -> MemberSnapshot)) (attempt : string)
  | RCancel (jid : string) (completed : time)
  | RReplace (job : JobRecord)
  | RRequeue (job : JobRecord) (reason : ReasonCode)
  | RPut (m : MemberSnapshot)
  | RAddLease (name attempt : string)
  | RBeginDrain (name : string) (expected : Z)
  | RRelease (name attempt : string) (claimed : Z)
  | RCompleteDrain (name : string) (expected : Z)
  | RBeginRejoin (name : string) (expected fence : Z)
  | RCompleteRejoin (name : string) (expected : Z) (readiness : MemberSnapshot)
  | RAcquireLeader (owner : string) (now ttl : time)
  | RRenewLeader (owner : string) (token : Z) (now ttl : time).

Definition apply_repo r (op : RepoOp) : result BrokerError Repo :=
  match op with
  | RSubmit job scope => snd <$> submit r job scope
  | RReserve now ms req lookup attempt => snd <$> reserve_next r now ms req lookup attempt
  | RCancel jid t => snd <$> cancel_queued r jid t
  | RReplace job => snd <$> replace_job r job
  | RRequeue job why => snd <$> requeue_claim r job why
  | RPut m => snd <$> put_member r m
  | RAddLease n a => add_member_lease r n a
  | RBeginDrain n v => snd <$> begin_member_drain r n v
  | RRelease n a v => snd <$> release_member_lease r n a v
  | RCompleteDrain n v => snd <$> complete_member_drain r n v
  | RBeginRejoin n v f => snd <$> begin_member_rejoin r n v f
  | RCompleteRejoin n v m => snd <$> complete_member_rejoin r n v m
  | RAcquireLeader o t ttl => snd <$> acquire_leadership r o t ttl
  | RRenewLeader o k t ttl => snd <$> renew_leadership r o k t ttl
  end.

(** A call that raises leaves the repository as it was. *)
Definition run_repo r (op : RepoOp) : Repo :=
  match apply_repo r op with Ok r' => r' | Err _ => r end.

Definition run_repos r (ops : list RepoOp) : Repo := fold_left run_repo ops r.

(** ** The job invariant *)

Record job_inv r : Prop := {
  inv_keys : forall jid j, _jobs r !! jid = Some j -> job_id j = jid;
  inv_queue : forall p jid, jid ∈ _queues r p <->
    exists j, _jobs r !! jid = Some j /\ job_state j = QUEUED /\ base_priority j = p;
  inv_once : forall p, NoDup (_queues r p);
  inv_fresh : forall jid j, _jobs r !! jid = Some j -> job_state j = QUEUED ->
    accepted_boundary_crossed j = false;
  inv_idem : forall scope key jid h, _idempotency r !! (scope, key) = Some (jid, h) ->
    exists j, _jobs r !! jid = Some j /\ request_sha256 j = h /\ idempotency_key j = key }.

(** What callers keep to: a submitted job is new, and a replaced job was
    claimed before, stays claimed or settled, keeps its identity, and never
    takes back the acceptance boundary. *)
Definition op_ok r (op : RepoOp) : Prop :=
  match op with
  | RSubmit job _ => job_state job = QUEUED /\ accepted_boundary_crossed job = false
  | RReplace job => exists cur, _jobs r !! job_id job = Some cur /\
      job_state cur <> QUEUED /\ job_state job <> QUEUED /\
      base_priority job = base_priority cur /\ request_sha256 job = request_sha256 cur /\
      idempotency_key job = idempotency_key cur /\
      (accepted_boundary_crossed cur = true -> accepted_boundary_crossed job = true)
  | _ => True
  end.

Inductive steps : Repo -> Repo -> Prop :=
  | steps_refl r : steps r r
  | steps_step r op r' : op_ok r op -> steps (run_repo r op) r' -> steps r r'.

Definition reachable_repo r : Prop := exists aging, steps (empty_repo aging) r.

Lemma empty_inv aging : job_inv (empty_repo aging).
Proof.
  split; try by intros; simpl in *; rewrite lookup_empty in *.
  - intros p jid. simpl. split; [by intros ?%not_elem_of_nil|].
    intros (j & Hj & _). by rewrite lookup_empty in Hj.
  - intros p. constructor.
Qed.

(** Two repositories with the same jobs, queues and idempotency. *)
Definition same_jobs r r' : Prop :=
  _jobs r' = _jobs r /\ (forall p, _queues r' p = _queues r p) /\ _idempotency r' = _idempotency r.

Lemma same_jobs_inv r r' : same_jobs r r' -> job_inv r -> job_inv r'.
Proof.
  intros (Hj & Hq & Hi) [H1 H2 H3 H4 H5].
  split; intros *; rewrite ?Hj, ?Hq, ?Hi; eauto.
Qed.

Lemma same_jobs_release r j : same_jobs r (release_claim r j).
Proof. unfold release_claim. repeat case_match; done. Qed.

Lemma elem_of_remove_first {A} `{EqDecision A} (x y : A) xs :
  NoDup xs -> y ∈ remove_first x xs <-> y ∈ xs /\ y <> x.
Proof.
  induction xs as [|z xs IH]; simpl; [set_solver|]. intros [Hz Hnd]%NoDup_cons.
  case_decide as Heq; [subst; set_solver|]. rewrite !elem_of_cons, IH by done. set_solver.
Qed.

Lemma NoDup_remove_first {A} `{EqDecision A} (x : A) xs : NoDup xs -> NoDup (remove_first x xs).
Proof.
  induction xs as [|z xs IH]; simpl; [done|]. intros [Hz Hnd]%NoDup_cons.
  case_decide; [done|]. constructor; [|auto]. rewrite elem_of_remove_first by done. tauto.
Qed.

(** One job changes, and its queue with it. *)
Lemma job_change_inv r r' jid j' :
  job_inv r -> job_id j' = jid ->
  _jobs r' = <[jid := j']> (_jobs r) -> _idempotency r' = _idempotency r ->
  (forall p, NoDup (_queues r' p)) ->
  (forall p x, x ∈ _queues r' p <->
     (x <> jid /\ x ∈ _queues r p) \/ (x = jid /\ job_state j' = QUEUED /\ base_priority j' = p)) ->
  (job_state j' = QUEUED -> accepted_boundary_crossed j' = false) ->
  (forall j, _jobs r !! jid = Some j ->
     request_sha256 j' = request_sha256 j /\ idempotency_key j' = idempotency_key j) ->
  job_inv r'.
Proof.
  intros [H1 H2 H3 H4 H5] Hid Hj Hi Hnd Hq Hfresh Hsame. split.
  - intros k j. rewrite Hj, lookup_insert_Some. intros [[<- <-]|[? ?]]; eauto.
  - intros p x. rewrite Hq, Hj. destruct (decide (x = jid)) as [->|Hne].
    + rewrite lookup_insert_eq. naive_solver.
    + rewrite lookup_insert_ne by done. rewrite H2. naive_solver.
  - done.
  - intros k j. rewrite Hj, lookup_insert_Some. intros [[<- <-]|[? ?]]; eauto.
  - intros scope key k h. rewrite Hi. intros (j & Hk & Hh & Hkey)%H5. rewrite Hj.
    destruct (decide (k = jid)) as [->|Hne].
    + exists j'. rewrite lookup_insert_eq. destruct (Hsame j Hk). split_and!; congruence.
    + exists j. by rewrite lookup_insert_ne.
Qed.

Lemma submit_inv r job scope j r' :
  job_inv r -> op_ok r (RSubmit job scope) -> submit r job scope = Ok (j, r') -> job_inv r'.
Proof.
  intros Hinv [Hq Hacc] H. unfold submit in H. inv_ok.
  destruct (_idempotency r !! (scope, idempotency_key job)) as [[jid h]|] eqn:Hidem.
  { inv_ok. destruct (_jobs r !! jid); by simplify_eq. }
  inv_ok. bool_prop. simplify_eq/=.
  assert (_jobs r !! job_id job = None) as Hnew.
  { destruct (_jobs r !! job_id job) eqn:E; [|done]. exfalso. eauto. }
  set (stored := job ⟪ job_effective_priority := priority_value (base_priority job) ⟫).
  set (r1 := set_queue (set_job r stored) (base_priority job) (_queues r (base_priority job) ++ [job_id job])).
  destruct (inv_queue _ Hinv (base_priority job) (job_id job)) as [Hin _].
  assert (job_inv r1) as Hinv1.
  { apply (job_change_inv r r1 (job_id job) stored); try done.
    - intros p. simpl. case_decide; [subst|apply Hinv]. apply NoDup_app. split_and!.
      + apply Hinv.
      + intros x Hx ->%list_elem_of_singleton. apply Hin in Hx as (? & ? & _). congruence.
      + apply NoDup_singleton.
    - intros p x. simpl. case_decide as Hp; [subst|].
      + rewrite elem_of_app, list_elem_of_singleton. split; [|naive_solver].
        intros [Hx| ->]; [|naive_solver]. left. split; [|done]. intros ->.
        apply Hin in Hx as (? & ? & _). congruence.
      + split; [|naive_solver]. intros Hx. left. split; [|done]. intros ->.
        apply (inv_queue _ Hinv) in Hx as (? & ? & _). congruence.
    - intros ? Hj. congruence. }
  destruct Hinv1 as [H1 H2 H3 H4 H5]. split; try done.
  intros sc key jid h. cbn. rewrite lookup_insert_Some. intros [[Heq Hv]|[_ Hold]].
  - simplify_eq. exists stored. cbn. by rewrite lookup_insert_eq.
  - by apply (H5 sc).
Qed.

Lemma queue_heads_in r ps js :
  queue_heads r ps = Ok js ->
  Forall (fun j => exists p rest, _queues r p = job_id j :: rest /\ _jobs r !! job_id j = Some j)
    js \/ exists jid j, _jobs r !! jid = Some j /\ job_id j <> jid.
Proof.
  revert js. induction ps as [|p ps IH]; intros js; simpl; intros H; [inv_ok; left; constructor|].
  destruct (_queues r p) as [|jid rest] eqn:Hq; [by apply IH|].
  destruct (_jobs r !! jid) as [j|] eqn:Hj; [|done].
  destruct (queue_heads r ps) as [js'|] eqn:Hrest; simpl in H; [|done]. injection H as <-.
  destruct (decide (job_id j = jid)) as [<-|Hne]; [|right; eauto].
  destruct (IH _ eq_refl) as [Hall|?]; [left|by right]. constructor; [by exists p, rest|done].
Qed.

Lemma min_by_key_in key j js : min_by_key key j js ∈ j :: js.
Proof.
  revert j. induction js as [|k js IH]; intros j; simpl; [left|].
  destruct (key_lt _ _).
  - specialize (IH k). set_solver.
  - specialize (IH j). set_solver.
Qed.

(** What [peek_next] selects heads its queue. *)
Lemma peek_next_head r now s :
  job_inv r -> peek_next r now = Ok (Some s) ->
  exists j rest, _jobs r !! job_id s = Some j /\ job_state j = QUEUED /\
    _queues r (base_priority s) = job_id s :: rest /\ base_priority s = base_priority j /\
    job_id s = job_id j.
Proof.
  intros Hinv H. unfold peek_next, _require_available, guard in H.
  destruct (available r); [|done].
  cbn [mbind result_bind] in H.
  destruct (queue_heads r all_priorities) as [[|j js]|] eqn:Hh; [done| |done].
  destruct (0 <? aging_seconds r); [|done]. cbn [mbind result_bind] in H.
  apply queue_heads_in in Hh as [Hall|(jid & k & Hk & Hne)].
  2: { by apply (inv_keys _ Hinv) in Hk. }
  pose proof (min_by_key_in (head_key r now) j js) as Hin.
  set (m := min_by_key _ _ _) in *. rewrite Forall_forall in Hall.
  simplify_eq/=. destruct (Hall m Hin) as (p & rest & Hq & Hm).
  assert (job_id m ∈ _queues r p) as (j' & Hj' & Hs & Hp)%(inv_queue _ Hinv) by (rewrite Hq; left).
  rewrite Hm in Hj'. injection Hj' as <-. exists m, rest. subst p. done.
Qed.

Lemma reserve_next_spec r now ms req lookup attempt res r' :
  job_inv r -> reserve_next r now ms req lookup attempt = Ok (Some res, r') ->
  exists job member rest priority,
    let current := reread lookup member in
    _jobs r !! job_id job = Some job /\ job_state job = QUEUED /\
    _queues r (base_priority job) = job_id job :: rest /\
    member ∈ ms /\ reservable req member = true /\
    0 < configured_slots current /\ lease_total r (m_name current) < configured_slots current /\
    m_state_version current = m_state_version member /\ m_state current = READY_ACCEPTING /\
    accepting current = true /\ 0 < int_or_0 (compatible_free_slots current) /\
    res = mkReservation (claimed_job job member attempt now priority)
            (reserved_member current (lease_total r (m_name current))) /\
    r' = set_member (set_leases (set_job (set_queue r (base_priority job) rest) (res_job res))
           (m_name member) (member_leases r (m_name member) ∪ {[attempt]})) (m_name member) (res_member res).
Proof.
  intros Hinv H. unfold reserve_next in H.
  destruct (peek_next r now) as [[s|]|] eqn:Hpeek; simpl in H; [|done|done].
  destruct (peek_next_head _ _ _ Hinv Hpeek) as (j & rest & Hj & Hs & Hq & Hp & Hid).
  destruct (List.find (reservable req) ms) as [m|] eqn:Hm; [|done].
  apply List.find_some in Hm as [Hm Hres]. rewrite Hq, Hj, String.eqb_refl in H. simpl in H.
  set (current := reread lookup m) in *.
  destruct ((configured_slots current <=? 0) || _) eqn:H1; [done|].
  destruct (negb (m_state_version current =? m_state_version m) || _ || _ || _) eqn:H2; [done|].
  injection H as <- <-. bool_prop. exists j, m, rest, (job_effective_priority s).
  fold current. rewrite <- Hid, <- Hp. split_and!; try done; try lia.
  - by apply list_elem_of_In.
Qed.

Lemma reserve_next_none r now ms req lookup attempt r' :
  reserve_next r now ms req lookup attempt = Ok (None, r') -> r' = r.
Proof.
  unfold reserve_next. destruct (peek_next r now) as [[s|]|]; cbn [mbind result_bind]; [|naive_solver..].
  repeat case_match; naive_solver.
Qed.

Lemma reserve_inv r now ms req lookup attempt o r' :
  job_inv r -> reserve_next r now ms req lookup attempt = Ok (o, r') -> job_inv r'.
Proof.
  intros Hinv H. destruct o as [res|]; [|by apply reserve_next_none in H; subst].
  apply reserve_next_spec in H as (job & m & rest & p & Hj & Hs & Hq & _ & _ & _ & _ & _ & _ & _ & _ & -> & ->);
    [|done].
  pose proof (inv_once _ Hinv (base_priority job)) as Hnd. rewrite Hq in Hnd.
  apply NoDup_cons in Hnd as [Hin Hnd].
  apply (job_change_inv r _ (job_id job) (claimed_job job m attempt now p)); [done..| | | |]; simpl.
  - intros q. case_decide; [by subst|apply Hinv].
  - intros q x. case_decide as Hp; [subst; rewrite Hq; set_solver|].
    split; [|naive_solver]. intros Hx. left. split; [|done]. intros ->.
    apply (inv_queue _ Hinv) in Hx as (j' & Hj' & _ & Hp'). congruence.
  - done.
  - intros ? ?. by simplify_eq.
Qed.

Lemma cancel_queued_inv r jid t j r' : job_inv r -> cancel_queued r jid t = Ok (j, r') -> job_inv r'.
Proof.
  intros Hinv H. unfold cancel_queued in H. inv_ok.
  destruct (_jobs r !! jid) as [cur|] eqn:Hcur; [|done].
  case_bool_decide as Hs; cbn [negb] in H; [|by inv_ok].
  inv_ok. bool_prop. simplify_eq/=.
  pose proof (inv_keys _ Hinv _ _ Hcur) as Hid.
  eapply (job_change_inv r _ jid); [done| |done|done| | | |]; simpl; [exact Hid|..].
  - intros q. case_decide; [subst; apply NoDup_remove_first|]; apply Hinv.
  - intros q x. case_decide as Hp.
    + subst. rewrite elem_of_remove_first by apply Hinv. naive_solver.
    + split; [|naive_solver]. intros Hx. left. split; [|done]. intros ->.
      apply (inv_queue _ Hinv) in Hx as (j' & Hj' & Hs' & Hp'). congruence.
  - done.
  - intros ? ?. by simplify_eq.
Qed.

Lemma replace_spec r job j r' :
  replace_job r job = Ok (j, r') ->
  j = job /\ is_Some (_jobs r !! job_id job) /\ same_jobs (set_job r job) r' /\
  _members r' = _members r /\ _leases r' = _leases r.
Proof.
  unfold replace_job. intros H. inv_ok. inv_ok. bool_prop. by destruct (is_terminal _).
Qed.

Lemma replace_inv r job j r' :
  job_inv r -> op_ok r (RReplace job) -> replace_job r job = Ok (j, r') -> job_inv r'.
Proof.
  intros Hinv (cur & Hcur & Hq & Hq' & Hp & Hh & Hk & _) (-> & _ & Hsame & _)%replace_spec.
  eapply same_jobs_inv; [exact Hsame|].
  apply (job_change_inv r _ (job_id job) job); [done..|apply Hinv| |done|]; simpl.
  - intros q x. split; [|naive_solver]. intros Hx. left. split; [|done]. intros ->.
    apply (inv_queue _ Hinv) in Hx as (j' & Hj' & Hs' & Hp'). congruence.
  - intros ? ?. by simplify_eq.
Qed.

(** What a requeue does: the job is queued again, at the head of its queue. *)
Lemma requeue_spec r job why j r' :
  requeue_claim r job why = Ok (j, r') ->
  exists cur, _jobs r !! job_id job = Some cur /\ job_state cur ∈ [CLAIMED; ACCEPTED; IN_FLIGHT] /\
    accepted_boundary_crossed cur = false /\ j = requeued_job cur why /\
    let q := _queues r (base_priority cur) in
    let r1 := set_job r j in
    r' = release_claim (if bool_decide (job_id cur ∈ q) then r1
                        else set_queue r1 (base_priority cur) (job_id cur :: q)) cur.
Proof.
  unfold requeue_claim. intros H. inv_ok. destruct (_jobs r !! job_id job) as [cur|]; [|done].
  inv_ok. inv_ok. bool_prop. by exists cur.
Qed.

Lemma requeue_inv r job why j r' : job_inv r -> requeue_claim r job why = Ok (j, r') -> job_inv r'.
Proof.
  intros Hinv (cur & Hcur & Hs & Hacc & -> & ->)%requeue_spec.
  eapply same_jobs_inv; [apply same_jobs_release|].
  pose proof (inv_keys _ Hinv _ _ Hcur) as Hid.
  assert (forall p, job_id cur ∉ _queues r p) as Hnot.
  { intros p (j' & Hj' & Hq & _)%(inv_queue _ Hinv). rewrite Hid, Hcur in Hj'.
    injection Hj' as <-. rewrite Hq in Hs. set_solver. }
  rewrite bool_decide_false by done.
  apply (job_change_inv r _ (job_id cur) (requeued_job cur why)); [done..| | | |]; simpl.
  - intros p. case_decide; [subst; constructor; [done|]|]; apply Hinv.
  - intros p x. case_decide as Hp.
    + subst. rewrite elem_of_cons. set_solver.
    + split; [|naive_solver]. intros Hx. left. split; [|done]. intros ->. by apply Hnot in Hx.
  - done.
  - intros ?. rewrite Hid, Hcur. by intros [= <-].
Qed.

(** Every other operation leaves jobs, queues and keys alone. *)
Definition job_op (op : RepoOp) : bool :=
  match op with
  | RSubmit _ _ | RReserve _ _ _ _ _ | RCancel _ _ | RReplace _ | RRequeue _ _ => true
  | _ => false
  end.

Lemma result_fmap_ok {A B} (f : A -> B) (x : result BrokerError A) b :
  f <$> x = Ok b -> exists a, x = Ok a /\ f a = b.
Proof. destruct x; cbn; intros [= <-]; eauto. Qed.

Lemma other_ops_same r op r' : job_op op = false -> apply_repo r op = Ok r' -> same_jobs r r'.
Proof.
  destruct op; cbn [job_op apply_repo]; intros Hop H; try done;
    try apply result_fmap_ok in H as ([? ?] & H & ?); simpl in *; subst.
  - unfold put_member in H. by inv_ok.
  - unfold add_member_lease in H. by inv_ok.
  - unfold begin_member_drain in H. inv_ok. case_bool_decide; by inv_ok.
  - unfold release_member_lease in H. inv_ok. destruct (_members r !! name); [|done]. by inv_ok.
  - unfold complete_member_drain in H. by inv_ok.
  - unfold begin_member_rejoin in H. by inv_ok.
  - unfold complete_member_rejoin in H. by inv_ok.
  - unfold acquire_leadership in H. by inv_ok.
  - unfold renew_leadership in H. by inv_ok.
Qed.

Lemma run_repo_inv r op : op_ok r op -> job_inv r -> job_inv (run_repo r op).
Proof.
  intros Hok Hinv. unfold run_repo. destruct (apply_repo r op) as [r'|] eqn:H; [|done].
  destruct (job_op op) eqn:Hop; [|by eapply same_jobs_inv; [eapply other_ops_same|]].
  destruct op; try done; cbn [apply_repo] in H;
    apply result_fmap_ok in H as ([? ?] & H & ?); simpl in *; subst.
  - by eapply submit_inv.
  - by eapply reserve_inv.
  - by eapply cancel_queued_inv.
  - by eapply replace_inv.
  - by eapply requeue_inv.
Qed.

Lemma steps_inv r r' : steps r r' -> job_inv r -> job_inv r'.
Proof. induction 1; eauto using run_repo_inv. Qed.

Lemma reachable_step r op : reachable_repo r -> op_ok r op -> reachable_repo (run_repo r op).
Proof.
  intros [aging H] Hok. exists aging. induction H as [r|r op' r' Hok' H IH].
  - eapply steps_step; [done|constructor].
  - eapply steps_step; eauto.
Qed.

Lemma reachable_job_inv r : reachable_repo r -> job_inv r.
Proof. intros [aging H]. eapply steps_inv; [done|apply empty_inv]. Qed.

(** Every operation of the history keeps to the callers' contract. *)
Fixpoint ops_ok (r : Repo) (ops : list RepoOp) : Prop :=
  match ops with [] => True | op :: ops' => op_ok r op /\ ops_ok (run_repo r op) ops' end.

Lemma run_repos_inv r ops : job_inv r -> ops_ok r ops -> job_inv (run_repos r ops).
Proof.
  revert r. induction ops as [|op ops IH]; intros r Hinv; simpl; [done|].
  intros [Hok Hops]. apply IH; [by apply run_repo_inv|done].
Qed.

(** ** Scheduling *)

Lemma queue_heads_total r ps :
  job_inv r ->
  exists js, queue_heads r ps = Ok js /\
    forall p jid rest, p ∈ ps -> _queues r p = jid :: rest ->
      exists j, _jobs r !! jid = Some j /\ j ∈ js.
Proof.
  intros Hinv. induction ps as [|p ps (js & Hjs & Hall)]; simpl.
  { exists []. split; [done|]. by intros p jid rest ?%not_elem_of_nil. }
  destruct (_queues r p) as [|jid rest] eqn:Hq.
  - exists js. split; [done|]. intros q k rest [->|Hin]%elem_of_cons Hk; [congruence|eauto].
  - destruct (inv_queue _ Hinv p jid) as [(j & Hj & _) _]; [rewrite Hq; left|].
    rewrite Hj, Hjs. exists (j :: js). split; [done|].
    intros q k rest' [->|Hin]%elem_of_cons Hk.
    + rewrite Hq in Hk. injection Hk as <- <-. exists j. split; [done|left].
    + destruct (Hall q k rest' Hin Hk) as (j' & ? & ?). exists j'. split; [done|by right].
Qed.

Lemma key_lt_true a b : key_lt a b = true <-> a.1 < b.1 \/ (a.1 = b.1 /\ a.2 < b.2).
Proof. unfold key_lt. by rewrite orb_true_iff, andb_true_iff, !Z.ltb_lt, Z.eqb_eq. Qed.

Lemma key_lt_false a b : key_lt a b = false <-> b.1 < a.1 \/ (a.1 = b.1 /\ b.2 <= a.2).
Proof. rewrite <- not_true_iff_false, key_lt_true. lia. Qed.

Lemma key_lt_total a b c : key_lt a b = false -> key_lt b c = false -> key_lt a c = false.
Proof. rewrite !key_lt_false. lia. Qed.

(** Nothing in the list has a smaller key than [min]'s choice. *)
Lemma min_by_key_least key js j k : k ∈ j :: js -> key_lt (key k) (key (min_by_key key j js)) = false.
Proof.
  revert j k. induction js as [|i js IH]; intros j k Hin; simpl.
  - apply list_elem_of_singleton in Hin as ->. apply key_lt_false. lia.
  - rewrite !elem_of_cons in Hin. destruct (key_lt (key i) (key j)) eqn:Hlt.
    + destruct Hin as [->|[->|Hin]].
      * eapply key_lt_total; [|apply (IH i i); left]. rewrite key_lt_true in Hlt. apply key_lt_false. lia.
      * apply IH. left.
      * apply IH. by right.
    + destruct Hin as [->|[->|Hin]].
      * apply IH. left.
      * eapply key_lt_total; [exact Hlt|]. apply IH. left.
      * apply IH. by right.
Qed.

(** Waiting lowers the number, down to the interactive class and no further. *)
Lemma effective_priority_bounds base submitted now aging p :
  effective_priority base submitted now aging = Ok p -> 0 <= p <= priority_value base.
Proof.
  unfold effective_priority, guard. destruct (0 <? aging) eqn:Ha; [|done]. intros [= <-].
  assert (0 <= Z.max 0 (now - submitted) / aging) by (apply Z.div_pos; lia).
  destruct base; simpl; lia.
Qed.

Lemma effective_priority_overdue base submitted now aging :
  0 < aging -> priority_value base * aging <= 10 * (now - submitted) ->
  effective_priority base submitted now aging = Ok 0.
Proof.
  intros Ha Hw. unfold effective_priority, guard. rewrite (proj2 (Z.ltb_lt _ _) Ha). cbn. f_equal.
  assert (priority_value base / 10 <= Z.max 0 (now - submitted) / aging).
  { apply Z.div_le_lower_bound; [done|]. destruct base; cbn [priority_value] in *;
      [change (0 / 10) with 0|change (10 / 10) with 1|change (20 / 10) with 2]; lia. }
  destruct base; cbn [priority_value] in *;
    [change (0 / 10) with 0 in *|change (10 / 10) with 1 in *|change (20 / 10) with 2 in *]; lia.
Qed.

Lemma peek_next_least r now j jid p rest :
  job_inv r -> available r = true -> 0 < aging_seconds r ->
  _queues r p = jid :: rest -> _jobs r !! jid = Some j ->
  exists s m, peek_next r now = Ok (Some s) /\ job_effective_priority s = (head_key r now m).1 /\
    enqueue_sequence s = enqueue_sequence m /\ key_lt (head_key r now j) (head_key r now m) = false.
Proof.
  intros Hinv Hav Hag Hq Hj. unfold peek_next, _require_available, guard. rewrite Hav.
  cbn [mbind result_bind].
  destruct (queue_heads_total r all_priorities Hinv) as (js & Hjs & Hall). rewrite Hjs.
  cbn [mbind result_bind].
  destruct (Hall p jid rest) as (j' & Hj' & Hin); [destruct p; set_solver|done|].
  rewrite Hj in Hj'. injection Hj' as <-. destruct js as [|i js]; [by apply not_elem_of_nil in Hin|].
  rewrite (proj2 (Z.ltb_lt _ _) Hag). cbn [mbind result_bind].
  eexists _, (min_by_key (head_key r now) i js). split_and!; [reflexivity..|].
  by apply min_by_key_least.
Qed.

(** No starvation: once the job at the head of a queue has waited its
    class's number of ageing periods (base / 10), the next reservation takes
    a job of effective priority 0 that was enqueued no later, so no job
    submitted afterwards is taken before it. *)
Theorem overdue_head_not_passed r now jid p rest j :
  reachable_repo r -> available r = true -> 0 < aging_seconds r ->
  _queues r p = jid :: rest -> _jobs r !! jid = Some j ->
  priority_value p * aging_seconds r <= 10 * (now - submitted_at j) ->
  exists s, peek_next r now = Ok (Some s) /\ job_effective_priority s = 0 /\
    enqueue_sequence s <= enqueue_sequence j.
Proof.
  intros Hr%reachable_job_inv Hav Hag Hq Hj Hw.
  destruct (peek_next_least r now j jid p rest) as (s & m & Hs & Hp & Hseq & Hlt); [done..|].
  exists s. split; [done|]. rewrite Hp, Hseq. clear Hp Hseq.
  assert (base_priority j = p) as Hbase.
  { destruct (inv_queue _ Hr p jid) as [(j' & Hj' & _ & Hp) _]; [rewrite Hq; left|]. congruence. }
  subst p. apply key_lt_false in Hlt. unfold head_key, aged in Hlt |- *. cbn [fst snd] in Hlt |- *.
  rewrite (effective_priority_overdue (base_priority j)) in Hlt by done.
  destruct (effective_priority (base_priority m) _ _ _) as [pm|] eqn:Hm.
  - apply effective_priority_bounds in Hm. lia.
  - lia.
Qed.

(** ** A concrete repository *)
Module Demo.

Definition job (jid : string) (p : JobPriority) (submitted : time) (sequence : Z) : JobRecord :=
  mkJobRecord jid ("key-" +:+ jid) ("sha-" +:+ jid) [] submitted sequence p 0 QUEUED None None 0 None
    false None None None (Some 100) (Some 100) [] None None None false 1 1.

Definition member (name : string) (slots : Z) : MemberSnapshot :=
  mkMemberSnapshot name None READY_ACCEPTING true slots 8192 1 0 0 (Some slots) (Some 0) 0 0
    (Some slots) [] None None true (Some 1) true None true 0 [] [].

Definition requirements : RequestRequirements := mkRequestRequirements 100 100 [] "durable_job".

(** Ageing after 300 seconds; two jobs, one member with two slots. *)
Definition start : Repo := empty_repo (seconds 300).
Definition setup : list RepoOp :=
  [RPut (member "m1" 2); RSubmit (job "a" BACKGROUND 0 1) "me"; RSubmit (job "b" INTERACTIVE 5 2) "me"].
Definition ready : Repo := run_repos start setup.

Definition stored_a : JobRecord := (job "a" BACKGROUND 0 1) ⟪ job_effective_priority := 20 ⟫.

Lemma ready_reachable : reachable_repo ready.
Proof.
  unfold ready, setup, run_repos. cbn [fold_left].
  repeat (apply reachable_step; [|done]). exists (seconds 300). constructor.
Qed.

End Demo.

Lemma overdue_head_not_passed_witness :
  exists s, peek_next Demo.ready (seconds 600) = Ok (Some s) /\ job_effective_priority s = 0 /\
    enqueue_sequence s <= enqueue_sequence Demo.stored_a.
Proof.
  apply (overdue_head_not_passed Demo.ready (seconds 600) "a" BACKGROUND []
    Demo.stored_a);
    [apply Demo.ready_reachable|reflexivity|done|reflexivity|reflexivity|done].
Defined.
