(* ===== verification/BrokerBoard.v ===== *)
(** * BrokerBoard: what the job repository promises, and that it keeps it

    A client of the broker sees a board: every job waits, is held by one
    dispatcher, or is settled.  [board_step] is that contract; the theorems
    show that [InMemoryJobRepository] ([BrokerRepo]) refines it call by call,
    and transfer to the repository what the board guarantees. *)

From S2P Require Import Prelude PyValue Broker BrokerRepo.

(** ** The board *)

Inductive Phase := Waiting | Held | Settled.
#[export] Instance Phase_eq_dec : EqDecision Phase.
Proof. solve_decision. Defined.

Record Status := mkStatus { phase : Phase; prio : JobPriority; crossed : bool }.

Abbreviation Board := (gmap string Status) (only parsing).

Inductive Event :=
  | Quiet
  | Submitted (jid : string)
  | Claimed (jid : string)
  | Requeued (jid : string)
  | Cancelled (jid : string)
  | Updated (jid : string).
#[export] Instance Event_eq_dec : EqDecision Event.
Proof. solve_decision. Defined.

Inductive board_step : Board -> Event -> Board -> Prop :=
  | board_quiet b : board_step b Quiet b
  | board_submit b jid p :
      b !! jid = None -> board_step b (Submitted jid) (<[jid := mkStatus Waiting p false]> b)
  | board_claim b jid p :
      b !! jid = Some (mkStatus Waiting p false) ->
      board_step b (Claimed jid) (<[jid := mkStatus Held p false]> b)
  | board_requeue b jid p :
      b !! jid = Some (mkStatus Held p false) ->
      board_step b (Requeued jid) (<[jid := mkStatus Waiting p false]> b)
  | board_cancel b jid p :
      b !! jid = Some (mkStatus Waiting p false) ->
      board_step b (Cancelled jid) (<[jid := mkStatus Settled p false]> b)
  | board_update b jid s s' :
      b !! jid = Some s -> phase s <> Waiting -> phase s' <> Waiting -> prio s' = prio s ->
      (crossed s = true -> crossed s' = true) ->
      board_step b (Updated jid) (<[jid := s']> b).

Inductive board_run : Board -> list Event -> Board -> Prop :=
  | board_done b : board_run b [] b
  | board_more b e b' es b'' : board_step b e b' -> board_run b' es b'' -> board_run b (e :: es) b''.

(** A job that does not wait is not claimed again unless it is requeued. *)
Lemma not_waiting_not_claimed b es b' jid s :
  board_run b es b' -> b !! jid = Some s -> phase s <> Waiting -> Requeued jid ∉ es ->
  Claimed jid ∉ es.
Proof.
  intros Hrun. revert s. induction Hrun as [b|b e b' es b'' Hstep Hrun IH]; intros s Hs Hw Hno;
    [set_solver|]. apply not_elem_of_cons in Hno as [Hno1 Hno2]. apply not_elem_of_cons.
  inversion Hstep; subst.
  - split; [done|by eapply IH].
  - split; [done|]. apply (IH s); [|done..]. rewrite lookup_insert_ne; congruence.
  - destruct (decide (jid = jid0)) as [->|Hne]; [exfalso; naive_solver|].
    split; [congruence|]. apply (IH s); [|done..]. by rewrite lookup_insert_ne.
  - split; [done|]. apply (IH s); [|done..]. rewrite lookup_insert_ne; congruence.
  - split; [done|]. destruct (decide (jid = jid0)) as [->|Hne].
    + eapply IH; [by rewrite lookup_insert_eq|done|done].
    + apply (IH s); [|done..]. by rewrite lookup_insert_ne.
  - split; [done|]. destruct (decide (jid = jid0)) as [->|Hne].
    + eapply IH; [by rewrite lookup_insert_eq|done|done].
    + apply (IH s); [|done..]. by rewrite lookup_insert_ne.
Qed.

Lemma board_run_app b es1 es2 b' :
  board_run b (es1 ++ es2) b' <-> exists m, board_run b es1 m /\ board_run m es2 b'.
Proof.
  revert b. induction es1 as [|e es1 IH]; intros b; simpl.
  - split; [eexists; split; [constructor|done]|]. intros (m & H & ?). by inversion H; subst.
  - split.
    + inversion 1 as [|? ? b1 ? ? Hs Hr]; subst. apply IH in Hr as (m & H1 & H2).
      exists m. split; [by econstructor|done].
    + intros (m & H & H2). inversion H as [|? ? b1 ? ? Hs Hr]; subst. econstructor; [done|].
      apply IH. eauto.
Qed.

(** Between two claims of a job it was requeued. *)
Lemma board_claims_alternate b es1 es2 es3 b' jid :
  board_run b (es1 ++ Claimed jid :: es2 ++ Claimed jid :: es3) b' -> Requeued jid ∈ es2.
Proof.
  intros (m & _ & Hrun)%board_run_app. inversion Hrun as [|? ? b1 ? ? Hs Hr]; subst.
  inversion Hs; subst. destruct (decide (Requeued jid ∈ es2)) as [|Hno]; [done|exfalso].
  rewrite cons_middle, app_assoc in Hr. apply board_run_app in Hr as (m' & Hr & _).
  eapply (not_waiting_not_claimed _ _ _ jid); [done|by rewrite lookup_insert_eq|done| |].
  - set_solver.
  - set_solver.
Qed.

(** Once a job crossed the acceptance boundary it stays crossed and never
    waits, is claimed, is requeued or is cancelled in its queue again. *)
Lemma crossed_stays b es b' jid s :
  board_run b es b' -> b !! jid = Some s -> crossed s = true -> phase s <> Waiting ->
  (exists s', b' !! jid = Some s' /\ crossed s' = true /\ phase s' <> Waiting) /\
  Claimed jid ∉ es /\ Requeued jid ∉ es /\ Cancelled jid ∉ es.
Proof.
  intros Hrun. revert s. induction Hrun as [b|b e b' es b'' Hstep Hrun IH]; intros s Hs Hc Hw.
  { split; [eauto|set_solver]. }
  assert (exists s', b' !! jid = Some s' /\ crossed s' = true /\ phase s' <> Waiting)
    as (s' & Hs' & Hc' & Hw').
  { inversion Hstep; subst; [by exists s|..]; destruct (decide (jid = jid0)) as [->|Hne];
      rewrite ?lookup_insert_eq, ?lookup_insert_ne by done; simplify_eq/=; eauto 6. }
  destruct (IH s' Hs' Hc' Hw') as (Hex & H1 & H2 & H3).
  split; [done|]. rewrite !not_elem_of_cons.
  inversion Hstep; subst; split_and!; try done; intros [= ->]; simplify_eq/=.
Qed.

(** ** The repository as a board *)

Definition phase_of (s : JobState) : Phase :=
  match s with
  | QUEUED => Waiting
  | CLAIMED | ACCEPTED | IN_FLIGHT => Held
  | COMPLETED | FAILED | CANCELLED | OUTCOME_UNKNOWN => Settled
  end.

Definition status_of (j : JobRecord) : Status :=
  mkStatus (phase_of (job_state j)) (base_priority j) (accepted_boundary_crossed j).

Definition board_of (r : Repo) : Board := status_of <$> _jobs r.
Arguments board_of : simpl never.

(** What an operation did, from its result. *)
Definition event_of (r : Repo) (op : RepoOp) : Event :=
  match op with
  | RSubmit job scope =>
      match submit r job scope with
      | Ok (j, _) => if decide (is_Some (_jobs r !! job_id j)) then Quiet else Submitted (job_id j)
      | Err _ => Quiet
      end
  | RReserve now ms req lookup attempt =>
      match reserve_next r now ms req lookup attempt with
      | Ok (Some res, _) => Claimed (job_id (res_job res))
      | _ => Quiet
      end
  | RCancel jid t =>
      match cancel_queued r jid t, _jobs r !! jid with
      | Ok _, Some cur => if decide (job_state cur = QUEUED) then Cancelled jid else Quiet
      | _, _ => Quiet
      end
  | RReplace job => match replace_job r job with Ok _ => Updated (job_id job) | Err _ => Quiet end
  | RRequeue job why =>
      match requeue_claim r job why with Ok (j, _) => Requeued (job_id j) | Err _ => Quiet end
  | _ => Quiet
  end.

Fixpoint trace (r : Repo) (ops : list RepoOp) : list Event :=
  match ops with [] => [] | op :: ops' => event_of r op :: trace (run_repo r op) ops' end.

Lemma board_lookup r jid j : _jobs r !! jid = Some j -> board_of r !! jid = Some (status_of j).
Proof. intros H. unfold board_of. by rewrite lookup_fmap, H. Qed.

Lemma board_same r r' : _jobs r' = _jobs r -> board_of r' = board_of r.
Proof. unfold board_of. by intros ->. Qed.

Lemma board_set r r' jid j :
  _jobs r' = <[jid := j]> (_jobs r) -> board_of r' = <[jid := status_of j]> (board_of r).
Proof. unfold board_of. intros ->. apply fmap_insert. Qed.

(** Read the board after a change of one job. *)
Ltac board_changed r :=
  match goal with |- board_step _ _ (board_of ?r') => erewrite (board_set r r') by reflexivity end;
  unfold status_of at 1; cbn.

Lemma status_queued r jid j :
  job_inv r -> _jobs r !! jid = Some j -> job_state j = QUEUED ->
  status_of j = mkStatus Waiting (base_priority j) false.
Proof. intros Hinv Hj Hq. unfold status_of. by rewrite Hq, (inv_fresh _ Hinv _ _ Hj Hq). Qed.

Lemma submit_refines r job scope :
  job_inv r -> op_ok r (RSubmit job scope) ->
  board_step (board_of r) (event_of r (RSubmit job scope)) (board_of (run_repo r (RSubmit job scope))).
Proof.
  intros Hinv [Hq Hacc]. unfold run_repo. cbn [apply_repo event_of].
  destruct (submit r job scope) as [[j r']|] eqn:H; cbn; [|constructor].
  unfold submit in H. inv_ok.
  destruct (_idempotency r !! (scope, idempotency_key job)) as [[jid h]|] eqn:Hidem.
  { inv_ok. destruct (_jobs r !! jid) as [prior|] eqn:Hp; [|done]. injection H as <- <-.
    rewrite decide_True by (rewrite (inv_keys _ Hinv _ _ Hp); eauto). constructor. }
  inv_ok. bool_prop. rewrite decide_False by done. cbn.
  board_changed r. rewrite Hq, Hacc. cbn.
  apply board_submit. unfold board_of. rewrite lookup_fmap.
  destruct (_jobs r !! job_id job) eqn:E; [exfalso; eauto|done].
Qed.

Lemma reserve_refines r now ms req lookup attempt :
  job_inv r -> let op := RReserve now ms req lookup attempt in
  board_step (board_of r) (event_of r op) (board_of (run_repo r op)).
Proof.
  intros Hinv op. unfold run_repo. cbn [op apply_repo event_of].
  destruct (reserve_next r now ms req lookup attempt) as [[[res|] r']|] eqn:H; cbn; [| |constructor].
  2: { apply reserve_next_none in H as ->. constructor. }
  apply reserve_next_spec in H as (job & m & rest & p & Hj & Hs & _ & _ & _ & _ & _ & _ & _ & _ & _ & -> & ->);
    [|done].
  board_changed r. rewrite (inv_fresh _ Hinv _ _ Hj Hs).
  apply board_claim. by rewrite (board_lookup _ _ _ Hj), (status_queued _ _ _ Hinv Hj).
Qed.

Lemma cancel_refines r jid t :
  job_inv r -> board_step (board_of r) (event_of r (RCancel jid t)) (board_of (run_repo r (RCancel jid t))).
Proof.
  intros Hinv. unfold run_repo. cbn [apply_repo event_of].
  destruct (cancel_queued r jid t) as [[j r']|] eqn:H; cbn; [|constructor].
  unfold cancel_queued in H. inv_ok. destruct (_jobs r !! jid) as [cur|] eqn:Hcur; [|done].
  case_bool_decide as Hs; cbn [negb] in H.
  2: { injection H as <- <-. rewrite decide_False by done. constructor. }
  inv_ok. rewrite decide_True by done.
  board_changed r. rewrite (inv_fresh _ Hinv _ _ Hcur Hs).
  apply board_cancel. by rewrite (board_lookup _ _ _ Hcur), (status_queued _ _ _ Hinv Hcur).
Qed.

Lemma phase_waiting s : phase_of s = Waiting <-> s = QUEUED.
Proof. by destruct s. Qed.

Lemma replace_refines r job :
  job_inv r -> op_ok r (RReplace job) ->
  board_step (board_of r) (event_of r (RReplace job)) (board_of (run_repo r (RReplace job))).
Proof.
  intros Hinv (cur & Hcur & Hq & Hq' & Hp & _ & _ & Hacc). unfold run_repo. cbn [apply_repo event_of].
  destruct (replace_job r job) as [[j r']|] eqn:H; cbn; [|constructor].
  apply replace_spec in H as (-> & _ & (Hj & _) & _). rewrite (board_set r r' _ _ Hj).
  eapply board_update; [by apply board_lookup| | |done|done]; simpl; by rewrite phase_waiting.
Qed.

Lemma requeue_refines r job why :
  job_inv r ->
  board_step (board_of r) (event_of r (RRequeue job why)) (board_of (run_repo r (RRequeue job why))).
Proof.
  intros Hinv. unfold run_repo. cbn [apply_repo event_of].
  destruct (requeue_claim r job why) as [[j r']|] eqn:H; cbn; [|constructor].
  apply requeue_spec in H as (cur & Hcur & Hs & Hacc & -> & ->). cbn zeta.
  rewrite (board_same _ (release_claim _ _)) by apply same_jobs_release.
  match goal with |- board_step _ _ (board_of ?r') =>
    rewrite (board_set r r' (job_id cur) (requeued_job cur why)) by (by case_bool_decide) end.
  unfold status_of at 1. cbn. rewrite Hacc. apply board_requeue.
  rewrite (inv_keys _ Hinv _ _ Hcur), (board_lookup _ _ _ Hcur). unfold status_of. rewrite Hacc.
  do 2 f_equal. rewrite !elem_of_cons in Hs. destruct Hs as [->|[->|[->|?%not_elem_of_nil]]]; done.
Qed.

Lemma run_repo_refines r op :
  job_inv r -> op_ok r op -> board_step (board_of r) (event_of r op) (board_of (run_repo r op)).
Proof.
  intros Hinv Hok. destruct (job_op op) eqn:Hop.
  - destruct op; try done.
    + by apply submit_refines.
    + by apply (reserve_refines r now members requirements lookup attempt).
    + by apply cancel_refines.
    + by apply replace_refines.
    + by apply requeue_refines.
  - assert (event_of r op = Quiet) as -> by (by destruct op).
    unfold run_repo. destruct (apply_repo r op) as [r'|] eqn:H; [|constructor].
    rewrite (board_same r r') by (by eapply other_ops_same). constructor.
Qed.

Lemma trace_refines r ops :
  job_inv r -> ops_ok r ops -> board_run (board_of r) (trace r ops) (board_of (run_repos r ops)).
Proof.
  revert r. induction ops as [|op ops IH]; intros r Hinv; simpl; [constructor|].
  intros [Hok Hops]. econstructor; [by apply run_repo_refines|]. apply IH; [|done].
  by apply run_repo_inv.
Qed.

(** ** The contract, and what follows from it *)

(** C39. The repository refines the board: in every reachable state, each
    call that keeps to the callers' contract is the board step its result
    announces (submit, claim, requeue, cancel, update, or nothing, and
    nothing when it raises), and afterwards each queue lists exactly the
    waiting jobs of its priority, each once. *)
Theorem repo_refines_board r op :
  reachable_repo r -> op_ok r op ->
  board_step (board_of r) (event_of r op) (board_of (run_repo r op)) /\
  forall p, NoDup (_queues (run_repo r op) p) /\
    forall jid, jid ∈ _queues (run_repo r op) p <->
      board_of (run_repo r op) !! jid = Some (mkStatus Waiting p false).
Proof.
  intros Hr%reachable_job_inv Hok. split; [by apply run_repo_refines|]. intros p.
  pose proof (run_repo_inv r op Hok Hr) as Hinv. split; [apply Hinv|]. intros jid.
  rewrite (inv_queue _ Hinv). unfold board_of. rewrite lookup_fmap. split.
  - intros (j & Hj & Hq & <-). rewrite Hj. cbn. by rewrite (status_queued _ _ _ Hinv Hj Hq).
  - destruct (_jobs (run_repo r op) !! jid) as [j|] eqn:Hj; [|done]. cbn. intros [= Hp <- _].
    exists j. by rewrite phase_waiting in Hp.
Qed.

(** No job is handed out twice: between two reservations of the same job,
    in any history of calls that keep to the contract, it was requeued. *)
Theorem claims_exclusive r ops es1 es2 es3 jid :
  reachable_repo r -> ops_ok r ops ->
  trace r ops = es1 ++ Claimed jid :: es2 ++ Claimed jid :: es3 ->
  Requeued jid ∈ es2.
Proof.
  intros Hr%reachable_job_inv Hok Ht. pose proof (trace_refines r ops Hr Hok) as Hrun.
  rewrite Ht in Hrun. by eapply board_claims_alternate.
Qed.

(** The acceptance boundary is final: once a job crossed it, no later
    history of calls requeues, reserves or cancels it as queued; it stays
    crossed, is never QUEUED again and is in no queue. *)
Theorem accepted_never_requeued r ops jid j :
  reachable_repo r -> ops_ok r ops ->
  _jobs r !! jid = Some j -> accepted_boundary_crossed j = true ->
  (exists j', _jobs (run_repos r ops) !! jid = Some j' /\ accepted_boundary_crossed j' = true /\
     job_state j' <> QUEUED) /\
  (Requeued jid ∉ trace r ops /\ Claimed jid ∉ trace r ops /\ Cancelled jid ∉ trace r ops) /\
  forall p, jid ∉ _queues (run_repos r ops) p.
Proof.
  intros Hr%reachable_job_inv Hok Hj Hacc.
  assert (phase (status_of j) <> Waiting) as Hw.
  { simpl. rewrite phase_waiting. intros Hq. by rewrite (inv_fresh _ Hr _ _ Hj Hq) in Hacc. }
  destruct (crossed_stays _ _ _ jid (status_of j) (trace_refines r ops Hr Hok))
    as ((s' & Hs' & Hc' & Hw') & H1 & H2 & H3); [by apply board_lookup|done..|].
  unfold board_of in Hs'. rewrite lookup_fmap in Hs'.
  destruct (_jobs (run_repos r ops) !! jid) as [j'|] eqn:Hj'; [|done]. injection Hs' as <-.
  simpl in Hw', Hc'. rewrite phase_waiting in Hw'. split_and!; [eauto|done..|].
  intros p (k & Hk & Hq & _)%(inv_queue _ (run_repos_inv r ops Hr Hok)). congruence.
Qed.

(** ** Witnesses *)
Module BoardDemo.
Import Demo.

Definition reserve (now : time) (attempt : string) : RepoOp :=
  RReserve now [member "m1" 2] requirements None attempt.

Definition job_at (r : Repo) (jid : string) : JobRecord :=
  default (job jid NORMAL 0 0) (_jobs r !! jid).

Definition held : Repo := run_repo ready (reserve (seconds 1) "att-1").

Lemma held_reachable : reachable_repo held.
Proof. apply reachable_step; [apply ready_reachable|done]. Qed.

(** [b] crosses the boundary. *)
Definition accepted_b : JobRecord :=
  (job_at held "b") ⟪ job_state := ACCEPTED ⟫ ⟪ accepted_boundary_crossed := true ⟫.

Definition accepted : Repo := run_repo held (RReplace accepted_b).

Lemma accept_ok : op_ok held (RReplace accepted_b).
Proof. exists (job_at held "b"). by vm_compute. Qed.

Lemma accepted_reachable : reachable_repo accepted.
Proof. apply reachable_step; [apply held_reachable|apply accept_ok]. Qed.

(** Claim, give back, claim again. *)
Definition again : list RepoOp :=
  [reserve (seconds 1) "att-1"; RRequeue (job "b" INTERACTIVE 5 2) PRE_ACCEPTANCE_REQUEUE;
   reserve (seconds 2) "att-2"].

End BoardDemo.

Lemma repo_refines_board_witness :
  event_of Demo.ready (BoardDemo.reserve (seconds 1) "att-1") = Claimed "b" /\
  board_step (board_of Demo.ready) (Claimed "b") (board_of BoardDemo.held).
Proof.
  split; [reflexivity|].
  apply (repo_refines_board Demo.ready (BoardDemo.reserve (seconds 1) "att-1"));
    [apply Demo.ready_reachable|done].
Defined.

Lemma claims_exclusive_witness :
  trace Demo.ready BoardDemo.again = [Claimed "b"; Requeued "b"; Claimed "b"] /\
  Requeued "b" ∈ [Requeued "b"].
Proof.
  split; [reflexivity|].
  apply (claims_exclusive Demo.ready BoardDemo.again [] [Requeued "b"] [] "b");
    [apply Demo.ready_reachable|done|reflexivity].
Defined.

Lemma accepted_never_requeued_witness :
  Requeued "b" ∉ trace BoardDemo.accepted BoardDemo.again.
Proof.
  apply (accepted_never_requeued BoardDemo.accepted BoardDemo.again "b" BoardDemo.accepted_b);
    [apply BoardDemo.accepted_reachable|done|reflexivity|reflexivity].
Defined.
