(* ===== verification/BrokerMembers.v ===== *)
(** * BrokerMembers: one member of the repository and its leases

    The repository seen from one member: its snapshot and its lease set.
    [member_step] is the machine that view follows, rule by rule; the
    repository of [BrokerRepo] is shown to project onto it, and the capacity
    and drain properties are proved on the machine by case analysis. *)

From S2P Require Import Prelude PyValue Broker BrokerRepo.

(** ** The member machine *)

Record View := mkView { snapshot : option MemberSnapshot; leases : gset string }.

Definition view (r : Repo) (name : string) : View :=
  mkView (_members r !! name) (member_leases r name).

(** The claim a requeue gives back. *)
Definition requeued_claim (r : Repo) (job : JobRecord) : option (string * string) :=
  match _jobs r !! job_id job with
  | Some cur =>
      match selected_member cur, current_attempt_id cur with
      | Some name, Some attempt => Some (name, attempt)
      | _, _ => None
      end
  | None => None
  end.

Inductive member_step (r : Repo) (name : string) : RepoOp -> View -> View -> Prop :=
  | ms_stay op v : member_step r name op v v
  | ms_reserve now ms req lookup attempt m v :
      m ∈ ms -> m_name m = name -> reservable req m = true ->
      let cur := reread lookup m in
      lease_total r (m_name cur) < configured_slots cur -> m_state cur = READY_ACCEPTING ->
      accepting cur = true -> 0 < int_or_0 (compatible_free_slots cur) ->
      m_state_version cur = m_state_version m ->
      member_step r name (RReserve now ms req lookup attempt) v
        (mkView (Some (reserved_member cur (lease_total r (m_name cur)))) (leases v ∪ {[attempt]}))
  | ms_requeue job why attempt v :
      requeued_claim r job = Some (name, attempt) ->
      member_step r name (RRequeue job why) v
        (mkView (unreserved_member <$> snapshot v) (leases v ∖ {[attempt]}))
  | ms_put m v :
      m_name m = name ->
      member_step r name (RPut m) v (mkView (Some (merged_member (snapshot v) m)) (leases v))
  | ms_add attempt v :
      member_step r name (RAddLease name attempt) v (mkView (snapshot v) (leases v ∪ {[attempt]}))
  | ms_drain m ls :
      DRAINING ∈ _ALLOWED_MEMBER_TRANSITIONS (m_state m) -> m_state m <> DRAINING ->
      member_step r name (RBeginDrain name (m_state_version m)) (mkView (Some m) ls)
        (mkView (Some (draining_member m)) ls)
  | ms_release m ls attempt claimed :
      attempt ∈ ls -> claimed <= m_state_version m ->
      (fenced_state (m_state m) = true -> claimed = m_state_version m) ->
      member_step r name (RRelease name attempt claimed) (mkView (Some m) ls)
        (mkView (Some (released_member m (Z.of_nat (size (ls ∖ {[attempt]}))))) (ls ∖ {[attempt]}))
  | ms_offline m :
      m_state m = DRAINING ->
      member_step r name (RCompleteDrain name (m_state_version m)) (mkView (Some m) ∅)
        (mkView (Some (offline_member m)) ∅)
  | ms_joining m ls fence :
      m_generation_fence m < fence -> JOINING ∈ _ALLOWED_MEMBER_TRANSITIONS (m_state m) ->
      member_step r name (RBeginRejoin name (m_state_version m) fence) (mkView (Some m) ls)
        (mkView (Some (joining_member m fence)) ls)
  | ms_ready m ls readiness :
      READY_ACCEPTING ∈ _ALLOWED_MEMBER_TRANSITIONS (m_state m) ->
      member_step r name (RCompleteRejoin name (m_state_version m) readiness) (mkView (Some m) ls)
        (mkView (Some (rejoined_member m readiness)) ls).

(** ** The repository follows it *)

Lemma view_eq r r' name :
  _members r' !! name = _members r !! name -> member_leases r' name = member_leases r name ->
  view r' name = view r name.
Proof. unfold view. by intros -> ->. Qed.

Lemma member_leases_set r name name' ls :
  member_leases (set_leases r name' ls) name = if decide (name = name') then ls else member_leases r name.
Proof.
  unfold member_leases, set_leases. cbn.
  case_decide; subst; by rewrite ?lookup_insert_eq, ?lookup_insert_ne.
Qed.

Lemma members_set r name name' m :
  _members (set_member r name' m) !! name = if decide (name = name') then Some m else _members r !! name.
Proof.
  unfold set_member. cbn. case_decide; subst; by rewrite ?lookup_insert_eq, ?lookup_insert_ne.
Qed.

Lemma validate_ok s t u : validate_member_transition s t = Ok u -> t ∈ _ALLOWED_MEMBER_TRANSITIONS s.
Proof. unfold validate_member_transition, guard. by case_bool_decide. Qed.

Lemma member_at_ok r name v m :
  member_at r name v = Ok m -> _members r !! name = Some m /\ m_state_version m = v.
Proof.
  unfold member_at. intros H. inv_ok. destruct (_members r !! name) as [c|]; [|done].
  destruct (m_state_version c =? v) eqn:E; [|done]. injection H as <-. by bool_prop.
Qed.

Lemma view_set_member r name name' m :
  view (set_member r name' m) name =
    if decide (name = name') then mkView (Some m) (member_leases r name) else view r name.
Proof. unfold view. rewrite members_set. by case_decide. Qed.

Lemma view_set_leases r name name' ls :
  view (set_leases r name' ls) name =
    if decide (name = name') then mkView (_members r !! name) ls else view r name.
Proof. unfold view. rewrite member_leases_set. by case_decide. Qed.

(** Close the cases of an operation on another member. *)
Ltac other_member := 
  repeat (rewrite view_set_member || rewrite view_set_leases || rewrite members_set);
  repeat case_decide; subst; try done; try apply ms_stay.

Lemma reserve_view r name now ms req lookup attempt o r' :
  job_inv r -> reserve_next r now ms req lookup attempt = Ok (o, r') ->
  member_step r name (RReserve now ms req lookup attempt) (view r name) (view r' name).
Proof.
  intros Hinv H. destruct o as [res|]; [|apply reserve_next_none in H as ->; constructor].
  apply reserve_next_spec in H
    as (job & m & rest & p & _ & _ & _ & Hm & Hres & Hpos & Hlive & Hv & Hst & Hacc & Hfree & -> & ->); [|done].
  rewrite view_set_member. case_decide as Hn; [subst name|].
  - rewrite member_leases_set, decide_True by done. cbn [res_member]. by eapply ms_reserve.
  - rewrite view_set_leases, decide_False by done. apply ms_stay.
Qed.

Lemma release_claim_view r r1 name job cur why :
  _jobs r !! job_id job = Some cur -> view r1 name = view r name ->
  member_step r name (RRequeue job why) (view r name) (view (release_claim r1 cur) name).
Proof.
  intros Hcur Hv. rewrite <- Hv. unfold release_claim.
  destruct (selected_member cur) as [n|] eqn:Hn; [|apply ms_stay].
  destruct (current_attempt_id cur) as [a|] eqn:Ha; [|apply ms_stay].
  destruct (str_truthy n && str_truthy a); [|apply ms_stay].
  destruct (decide (n = name)) as [->|Hne].
  - assert (requeued_claim r job = Some (name, a)) as Hc.
    { unfold requeued_claim. by rewrite Hcur, Hn, Ha. }
    pose proof (ms_requeue r name job why a (view r1 name) Hc) as Hstep.
    destruct (_members r1 !! name) as [m|] eqn:Hm.
    + rewrite view_set_member, member_leases_set, !decide_True by done.
      unfold view in Hstep at 2. by rewrite Hm in Hstep.
    + rewrite view_set_leases, decide_True by done. unfold view in Hstep at 2. by rewrite Hm in Hstep |- *.
  - destruct (_members r1 !! n);
      rewrite ?view_set_member, ?view_set_leases, ?decide_False by done; apply ms_stay.
Qed.

Lemma requeue_view r name job why j r' :
  requeue_claim r job why = Ok (j, r') ->
  member_step r name (RRequeue job why) (view r name) (view r' name).
Proof.
  intros (cur & Hcur & _ & _ & -> & ->)%requeue_spec. apply release_claim_view; [done|].
  by case_bool_decide.
Qed.

Lemma release_view r name n attempt claimed m r' :
  release_member_lease r n attempt claimed = Ok (m, r') ->
  member_step r name (RRelease n attempt claimed) (view r name) (view r' name).
Proof.
  unfold release_member_lease. intros H. inv_ok. destruct (_members r !! n) as [cur|] eqn:Hcur; [|done].
  inv_ok. bool_prop. rewrite view_set_member, view_set_leases. case_decide; [subst|apply ms_stay].
  rewrite member_leases_set, decide_True by done. unfold lease_total.
  rewrite member_leases_set, decide_True by done. unfold view. rewrite Hcur. apply ms_release; [done| |].
  - destruct (fenced_state (m_state cur)); bool_prop; lia.
  - intros Hf. rewrite Hf in *. by bool_prop.
Qed.

(** Every call moves each member by its rules. *)
Lemma run_repo_view r name op :
  job_inv r -> member_step r name op (view r name) (view (run_repo r op) name).
Proof.
  intros Hinv. unfold run_repo. destruct (apply_repo r op) as [r'|] eqn:H; [|apply ms_stay].
  destruct op; cbn [apply_repo] in H; try apply result_fmap_ok in H as ([x r1] & H & <-); cbn [snd].
  - unfold submit in H. inv_ok. destruct (_idempotency r !! _) as [[? ?]|].
    + inv_ok. destruct (_jobs r !! _); inv_ok; simplify_eq; apply ms_stay.
    + inv_ok. simplify_eq. apply ms_stay.
  - by eapply reserve_view.
  - unfold cancel_queued in H. inv_ok. destruct (_jobs r !! jid); [|done].
    destruct (negb _); inv_ok; simplify_eq; apply ms_stay.
  - apply replace_spec in H as (_ & _ & _ & Hm & Hl). rewrite (view_eq r r1 name); [apply ms_stay|by rewrite Hm|].
    unfold member_leases. by rewrite Hl.
  - by eapply requeue_view.
  - unfold put_member in H. inv_ok. simplify_eq. other_member. by apply (ms_put r _ m (view r _)).
  - unfold add_member_lease in H. inv_ok. other_member. apply (ms_add r _ attempt (view r _)).
  - unfold begin_member_drain in H.
    destruct (member_at r name0 expected) as [cur|] eqn:Hm; cbn in H; [|done].
    apply member_at_ok in Hm as [Hm <-]. case_bool_decide; [inv_ok; simplify_eq; apply ms_stay|].
    destruct (validate_member_transition _ _) eqn:Hval; cbn in H; [|done]. apply validate_ok in Hval.
    simplify_eq. other_member. unfold view. rewrite Hm. by apply ms_drain.
  - by eapply release_view.
  - unfold complete_member_drain in H.
    destruct (member_at r name0 expected) as [cur|] eqn:Hm; cbn in H; [|done].
    apply member_at_ok in Hm as [Hm <-]. inv_ok. bool_prop. simplify_eq. other_member.
    unfold view. rewrite Hm.
    match goal with H : member_leases r _ = ∅ |- _ => rewrite H end. by apply ms_offline.
  - unfold begin_member_rejoin in H.
    destruct (member_at r name0 expected) as [cur|] eqn:Hm; cbn in H; [|done].
    apply member_at_ok in Hm as [Hm <-]. inv_ok. bool_prop. simplify_eq. other_member.
    unfold view. rewrite Hm. apply ms_joining; [done|by eapply validate_ok].
  - unfold complete_member_rejoin in H.
    destruct (member_at r name0 expected) as [cur|] eqn:Hm; cbn in H; [|done].
    apply member_at_ok in Hm as [Hm <-]. inv_ok. simplify_eq. other_member.
    unfold view. rewrite Hm. apply ms_ready. by eapply validate_ok.
  - unfold acquire_leadership in H. inv_ok. simplify_eq. apply ms_stay.
  - unfold renew_leadership in H. inv_ok. simplify_eq. apply ms_stay.
Qed.

(** Properties of one view that every call of a history keeps. *)
Fixpoint along (P : Repo -> RepoOp -> Prop) (r : Repo) (ops : list RepoOp) : Prop :=
  match ops with [] => True | op :: ops' => P r op /\ along P (run_repo r op) ops' end.

Lemma view_invariant (I : View -> Prop) (P : Repo -> RepoOp -> Prop) name r ops :
  (forall r op v', P r op -> I (view r name) -> member_step r name op (view r name) v' -> I v') ->
  job_inv r -> ops_ok r ops -> along P r ops -> I (view r name) -> I (view (run_repos r ops) name).
Proof.
  intros Hstep. revert r. induction ops as [|op ops IH]; intros r Hinv; simpl; [done|].
  intros [Hok Hops] [HP Hal] HI. apply IH; [by apply run_repo_inv|done..|].
  eapply Hstep; [done..|]. by apply run_repo_view.
Qed.

Lemma lease_total_view r name : lease_total r name = Z.of_nat (size (leases (view r name))).
Proof. done. Qed.

(** ** Capacity *)

(** Reservations see [c] configured slots at most; leases are taken by
    reservations only. *)
Definition keeps_slots (name : string) (c : Z) (_ : Repo) (op : RepoOp) : Prop :=
  match op with
  | RReserve _ ms _ lookup _ => Forall (fun m => m_name m = name ->
      m_name (reread lookup m) = name /\ configured_slots (reread lookup m) <= c) ms
  | RAddLease n _ => n <> name
  | _ => True
  end.

Lemma size_union_le (xs : gset string) x : (size (xs ∪ {[x]}) <= S (size xs))%nat.
Proof. pose proof (size_union_alt xs ({[x]} : gset string)). 
  assert (size (({[x]} : gset string) ∖ xs) <= size ({[x]} : gset string))%nat by (apply subseteq_size; set_solver).
  rewrite size_singleton in *. lia.
Qed.

Lemma size_difference_le (xs : gset string) x : (size (xs ∖ {[x]}) <= size xs)%nat.
Proof. apply subseteq_size. set_solver. Qed.

Lemma slots_step name c r op v' :
  keeps_slots name c r op -> Z.of_nat (size (leases (view r name))) <= c ->
  member_step r name op (view r name) v' -> Z.of_nat (size (leases v')) <= c.
Proof.
  intros Hk Hc Hs. remember (view r name) as v eqn:Hv. destruct Hs; cbn [leases] in *; try done.
  - cbn [keeps_slots] in Hk. rewrite Forall_forall in Hk. subst v.
    destruct (Hk m) as [Hn Hcs]; [done..|]. subst cur. rewrite Hn, lease_total_view in *.
    pose proof (size_union_le (leases (view r name)) attempt). lia.
  - pose proof (size_difference_le (leases v) attempt). lia.
  - pose proof (size_difference_le ls attempt). lia.
Qed.

(** A member never holds more leases than slots: if the reservations of a
    history see at most [c] configured slots for it and nothing else adds
    leases, its lease count stays within [c], whatever releases, requeues,
    drains, publications and rejoins happen in between. *)
Theorem leases_never_exceed_slots r ops name c :
  reachable_repo r -> ops_ok r ops -> along (keeps_slots name c) r ops ->
  lease_total r name <= c -> lease_total (run_repos r ops) name <= c.
Proof.
  intros Hr%reachable_job_inv Hok Hal. rewrite !lease_total_view.
  apply (view_invariant (fun v => Z.of_nat (size (leases v)) <= c) (keeps_slots name c)); [|done..].
  intros. by eapply slots_step.
Qed.

(** The capacity rule, against the slots that are configured and leased. *)
Lemma derive_bounds configured total busy live :
  0 <= _derive_compatible_free_slots configured total busy live /\
  (0 <= live <= configured -> _derive_compatible_free_slots configured total busy live <= configured - live).
Proof.
  unfold _derive_compatible_free_slots. destruct (Z.leb_spec (Z.max 0 configured) 0); [lia|].
  destruct total; lia.
Qed.

(** A granted reservation stays within capacity: the member keeps no more
    leases than its configured slots, the new attempt is among them, and the
    published free-slot count is between 0 and the slots that are left. *)
Theorem reservation_within_capacity r now ms req lookup attempt res r' :
  reachable_repo r -> (forall m, m ∈ ms -> m_name (reread lookup m) = m_name m) ->
  reserve_next r now ms req lookup attempt = Ok (Some res, r') ->
  let m := res_member res in
  let held := lease_total r' (m_name m) in
  _members r' !! m_name m = Some m /\ attempt ∈ member_leases r' (m_name m) /\
  held <= configured_slots m /\
  0 <= int_or_0 (compatible_free_slots m) <= configured_slots m - held.
Proof.
  intros Hr%reachable_job_inv Hn H. apply reserve_next_spec in H
    as (job & c & rest & p & _ & _ & _ & Hm & _ & _ & Hlive & _ & _ & _ & Hfree & -> & ->); [|done].
  cbn [res_member]. pose proof (Hn c Hm) as Hc. set (cur := reread lookup c) in *.
  match goal with |- context [_members ?r' !! _] => set (after := r');
    assert (view after (m_name c) = mkView (Some (reserved_member cur (lease_total r (m_name cur))))
      (member_leases r (m_name c) ∪ {[attempt]})) as Hv end.
  { subst after. by rewrite view_set_member, member_leases_set, !decide_True by done. }
  clearbody after. cbn zeta. change (m_name (reserved_member cur ?l)) with (m_name cur). rewrite Hc in *.
  rewrite (lease_total_view after), Hv. unfold view in Hv. injection Hv as Hm' Hl'.
  split_and!; [exact Hm'|rewrite Hl'; set_solver|..]; cbn -[size union]; rewrite lease_total_view in *;
    pose proof (size_union_le (leases (view r (m_name c))) attempt); unfold view in *; cbn -[size union] in *; lia.
Qed.

(** ** Draining *)

(** Reservations re-read the member at commit time, and no observer publishes
    a snapshot of it. *)
Definition observes (r : Repo) (name : string) (op : RepoOp) : Prop :=
  match op with
  | RReserve _ ms _ lookup _ =>
      forall m, m ∈ ms -> m_name m = name -> _members r !! name = Some (reread lookup m)
  | RPut m => m_name m <> name
  | _ => True
  end.

(** ... and nobody adds a lease by hand or starts a rejoin. *)
Definition stays_out (name : string) (r : Repo) (op : RepoOp) : Prop :=
  observes r name op /\
  match op with RAddLease n _ | RBeginRejoin n _ _ => n <> name | _ => True end.

Definition closed (ls : gset string) (v : View) : Prop :=
  exists m, snapshot v = Some m /\ accepting m = false /\ leases v ⊆ ls /\
    (m_state m = DRAINING \/ (m_state m = OFFLINE /\ leases v = ∅)).

Lemma closed_step name ls r op v' :
  stays_out name r op -> closed ls (view r name) ->
  member_step r name op (view r name) v' -> closed ls v'.
Proof.
  intros [Hobs Hout] Hcl Hs. remember (view r name) as v eqn:Hv.
  destruct Hcl as (m0 & Hm & Hacc & Hsub & Hst). unfold closed.
  destruct Hs as [op v|now ms req lookup attempt m v Hin Hn Hres cur Hlive Hr|job why attempt v Hcl|m v|attempt v
    |m ls' Hd Hnd|m ls' attempt claimed Hin Hle Hf|m Hd|m ls' fence Hf Hj|m ls' readiness Hrd];
    cbn [snapshot leases] in *; simplify_eq; try done.
  - eauto 10.
  - cbn [observes] in Hobs. specialize (Hobs m Hin eq_refl). unfold view in Hm. cbn in Hm.
    subst cur. destruct Hst as [Hst|[Hst _]]; congruence.
  - exists (unreserved_member m0). rewrite Hm. split_and!; [done|done|set_solver|].
    destruct Hst as [?|[? ?]]; [by left|right]. split; [done|set_solver].
  - destruct Hst as [?|[Hst _]]; [done|]. rewrite Hst in Hd. set_solver.
  - exists (released_member m0 (Z.of_nat (size (ls' ∖ {[attempt]})))).
    split_and!; [done|unfold released_member; by case_bool_decide|set_solver|].
    destruct Hst as [Hst|[_ ->]]; [|set_solver]. left. unfold released_member. by case_bool_decide.
  - exists (offline_member m0). split_and!; [done|done|set_solver|]. by right.
  - destruct Hst as [Hst|[Hst _]]; rewrite Hst in Hrd; set_solver.
Qed.

(** A draining member takes no new work: from a granted drain on (of a
    member that, if it was draining already, accepts nothing), while
    reservations re-read members and nobody publishes, rejoins or adds leases
    by hand, the member accepts nothing, its leases are among those it had,
    and it is DRAINING until it goes OFFLINE, which it does only with no
    lease left. *)
Theorem draining_admits_nothing r name v m r1 ops :
  reachable_repo r -> begin_member_drain r name v = Ok (m, r1) ->
  (forall cur, _members r !! name = Some cur -> m_state cur = DRAINING -> accepting cur = false) ->
  ops_ok r1 ops -> along (stays_out name) r1 ops ->
  exists m', _members (run_repos r1 ops) !! name = Some m' /\ accepting m' = false /\
    member_leases (run_repos r1 ops) name ⊆ member_leases r name /\
    (m_state m' = DRAINING \/
     (m_state m' = OFFLINE /\ member_leases (run_repos r1 ops) name = ∅)).
Proof.
  intros Hr H Hacc Hok Hal.
  assert (reachable_repo r1) as Hr1%reachable_job_inv.
  { pose proof (reachable_step r (RBeginDrain name v) Hr I) as Hr1.
    unfold run_repo in Hr1. cbn [apply_repo] in Hr1. by rewrite H in Hr1. }
  apply (view_invariant (closed (member_leases r name)) (stays_out name)); [|done..|].
  { intros. by eapply closed_step. }
  unfold begin_member_drain in H. destruct (member_at r name v) as [cur|] eqn:Hm; cbn in H; [|done].
  apply member_at_ok in Hm as [Hm _]. case_bool_decide as Hst.
  - inv_ok. simplify_eq. exists m. unfold view. cbn. auto 10.
  - destruct (validate_member_transition _ _); cbn in H; [|done]. simplify_eq.
    exists (draining_member cur). rewrite view_set_member, decide_True by done. cbn. auto.
Qed.

(** [attempt] is neither requeued nor released by a claim of [w] or later. *)
Definition old_claims_only (name attempt : string) (w : Z) (r : Repo) (op : RepoOp) : Prop :=
  observes r name op /\
  match op with
  | RRelease n a claimed => n = name -> a = attempt -> claimed < w
  | RRequeue job _ => requeued_claim r job <> Some (name, attempt)
  | _ => True
  end.

Definition stuck (attempt : string) (w : Z) (v : View) : Prop :=
  exists m, snapshot v = Some m /\ m_state m = DRAINING /\ w <= m_state_version m /\ attempt ∈ leases v.

Lemma stuck_step name attempt w r op v' :
  old_claims_only name attempt w r op -> stuck attempt w (view r name) ->
  member_step r name op (view r name) v' -> stuck attempt w v'.
Proof.
  intros [Hobs Hold] Hcl Hs. remember (view r name) as v eqn:Hv.
  destruct Hcl as (m0 & Hm & Hst & Hw & Hin0). unfold stuck.
  destruct Hs as [op v|now ms req lookup a m v Hin Hn Hres cur Hlive Hr|job why a v Hcl|m v|a v
    |m ls' Hd Hnd|m ls' a claimed Hin Hle Hf|m Hd|m ls' fence Hf Hj|m ls' readiness Hrd];
    cbn [snapshot leases] in *; simplify_eq; try done.
  - eauto.
  - cbn [observes] in Hobs. specialize (Hobs m Hin eq_refl). unfold view in Hm. cbn in Hm.
    subst cur. congruence.
  - exists (unreserved_member m0). rewrite Hm. cbn. split_and!; [done|done|lia|set_solver].
  - exists m0. split_and!; [done..|set_solver].
  - exists (released_member m0 (Z.of_nat (size (ls' ∖ {[a]})))). unfold released_member.
    rewrite bool_decide_true by done. split_and!; [done|done|done|]. cbn in Hold.
    destruct (decide (a = attempt)) as [->|Hne]; [|set_solver].
    rewrite Hst in Hf. specialize (Hf eq_refl). specialize (Hold eq_refl eq_refl). lia.
  - rewrite Hst in Hj. set_solver.
  - rewrite Hst in Hrd. set_solver.
Qed.

(** A lease claimed before a drain outlives it: the drain moves the
    member's version on, a release of a draining member must quote the
    current version, so a release with the version of its claim is refused
    for ever; the attempt stays leased and the drain cannot complete unless
    the job is requeued, which an accepted job never is. *)
Theorem predrain_lease_is_stuck r name v m r1 attempt ops :
  reachable_repo r -> begin_member_drain r name v = Ok (m, r1) ->
  attempt ∈ member_leases r name ->
  ops_ok r1 ops -> along (old_claims_only name attempt (m_state_version m)) r1 ops ->
  let last := run_repos r1 ops in
  attempt ∈ member_leases last name /\
  (forall claimed, claimed < m_state_version m -> available last = true ->
     release_member_lease last name attempt claimed = Err (ReservationStale "RESERVATION_STATE_STALE")) /\
  forall w, is_ok (complete_member_drain last name w) = false.
Proof.
  intros Hr H Hatt Hok Hal last.
  assert (reachable_repo r1) as Hr1%reachable_job_inv.
  { pose proof (reachable_step r (RBeginDrain name v) Hr I) as Hr1.
    unfold run_repo in Hr1. cbn [apply_repo] in Hr1. by rewrite H in Hr1. }
  assert (stuck attempt (m_state_version m) (view last name)) as (m' & Hm' & Hst & Hw & Hin).
  { apply (view_invariant (stuck attempt (m_state_version m))
      (old_claims_only name attempt (m_state_version m))); [|done..|].
    { intros. by eapply stuck_step. }
    unfold begin_member_drain in H. destruct (member_at r name v) as [cur|] eqn:Hm; cbn in H; [|done].
    apply member_at_ok in Hm as [Hm _]. case_bool_decide as Hst.
    - inv_ok. simplify_eq. exists m. unfold view. cbn. auto with lia.
    - destruct (validate_member_transition _ _); cbn in H; [|done]. simplify_eq.
      exists (draining_member cur). rewrite view_set_member, decide_True by done. cbn. auto with lia. }
  cbn in Hm', Hin. split_and!; [done| |].
  - intros claimed Hcl Hav. unfold release_member_lease, _require_available, guard. rewrite Hav, Hm'.
    cbn [mbind result_bind]. rewrite bool_decide_true by done. cbn [mbind result_bind].
    rewrite Hst. cbn [fenced_state]. by rewrite (proj2 (Z.eqb_neq claimed (m_state_version m'))) by lia.
  - intros w. unfold complete_member_drain. destruct (member_at last name w) as [cur|] eqn:Hm; [|done].
    apply member_at_ok in Hm as [Hm _]. cbn [mbind result_bind]. unfold guard.
    rewrite (bool_decide_false (member_leases last name = ∅)) by set_solver.
    by case_bool_decide.
Qed.

(** ** Lawful histories *)

Definition allowed (s t : MemberState) : Prop := t ∈ _ALLOWED_MEMBER_TRANSITIONS s.

Definition after_snapshot (m0 : MemberSnapshot) (v : View) : Prop :=
  exists m, snapshot v = Some m /\ rtc allowed (m_state m0) (m_state m) /\
    m_state_version m0 <= m_state_version m /\ m_generation_fence m0 <= m_generation_fence m /\
    (m_state m0 = OFFLINE -> m_state m = OFFLINE \/ m_generation_fence m0 < m_generation_fence m).

Lemma released_keeps m live :
  m_state (released_member m live) = m_state m /\
  m_state_version (released_member m live) = m_state_version m /\
  m_generation_fence (released_member m live) = m_generation_fence m.
Proof. unfold released_member. by case_bool_decide. Qed.

Lemma lawful_step name m0 r op v' :
  observes r name op -> after_snapshot m0 (view r name) ->
  member_step r name op (view r name) v' -> after_snapshot m0 v'.
Proof.
  intros Hobs Hcl Hs. remember (view r name) as v eqn:Hv.
  destruct Hcl as (m1 & Hm & Hst & Hw & Hf & Hoff). unfold after_snapshot.
  assert (forall s, allowed (m_state m1) s -> rtc allowed (m_state m0) s) as Hgo.
  { intros s Hal. eapply rtc_r; eauto. }
  destruct Hs as [op v|now ms req lookup a m v Hin Hn Hres cur Hlive Hr|job why a v Hcl|m v|a v
    |m ls' Hd Hnd|m ls' a claimed Hin Hle Hfe|m Hd|m ls' fence Hfe Hj|m ls' readiness Hrd];
    cbn [snapshot leases] in *; simplify_eq.
  - by exists m1.
  - cbn [observes] in Hobs. specialize (Hobs m Hin eq_refl). unfold view in Hm. cbn in Hm.
    subst cur. rewrite Hobs in Hm. injection Hm as <-.
    by exists (reserved_member (reread lookup m) (lease_total r (m_name (reread lookup m)))).
  - exists (unreserved_member m1). rewrite Hm. cbn. split_and!; [done|done|lia|lia|done].
  - done.
  - by exists m1.
  - exists (draining_member m1). cbn. split_and!; [done|by apply Hgo|lia|lia|].
    intros Ho. destruct (Hoff Ho) as [Ho'|?]; [|by right]. rewrite Ho' in Hd. set_solver.
  - eexists. destruct (released_keeps m1 (Z.of_nat (size (ls' ∖ {[a]})))) as (-> & -> & ->).
    split_and!; [done|done|lia|lia|done].
  - exists (offline_member m1). cbn. split_and!; [done| |lia|lia|by left].
    apply Hgo. unfold allowed. rewrite Hd. cbn. set_solver.
  - exists (joining_member m1 fence). cbn. split_and!; [done|by apply Hgo|lia|lia|].
    intros _. right. lia.
  - exists (rejoined_member m1 readiness). cbn.
    split_and!; [done|by apply Hgo|lia|lia|].
    intros Ho. destruct (Hoff Ho) as [Ho'|?]; [|by right]. rewrite Ho' in Hrd. set_solver.
Qed.

(** While reservations re-read members and nobody publishes a snapshot of
    it, a member moves only along the transition table, its version and its
    generation fence never go back, and once OFFLINE it comes back only under
    a strictly newer generation. *)
Theorem member_history_lawful r name m0 ops :
  reachable_repo r -> _members r !! name = Some m0 ->
  ops_ok r ops -> along (fun r op => observes r name op) r ops ->
  exists m, _members (run_repos r ops) !! name = Some m /\
    rtc allowed (m_state m0) (m_state m) /\
    m_state_version m0 <= m_state_version m /\ m_generation_fence m0 <= m_generation_fence m /\
    (m_state m0 = OFFLINE -> m_state m = OFFLINE \/ m_generation_fence m0 < m_generation_fence m).
Proof.
  intros Hr%reachable_job_inv Hm Hok Hal.
  apply (view_invariant (after_snapshot m0) (fun r op => observes r name op)); [|done..|].
  { intros. by eapply lawful_step. }
  exists m0. cbn. split_and!; [done|constructor|lia|lia|by left].
Qed.

(** ** Witnesses *)
Module MemberDemo.
Import Demo.

Definition reserve (lookup : option (string -> MemberSnapshot)) (attempt : string) : RepoOp :=
  RReserve (seconds 1) [member "m1" 2] requirements lookup attempt.

(** Job [b] is held by [m1], which is then drained. *)
Definition held : Repo := run_repo ready (reserve None "att-1").
Definition draining : Repo := run_repo held (RBeginDrain "m1" 1).

Lemma m1_held_reachable : reachable_repo held.
Proof. apply reachable_step; [apply ready_reachable|done]. Qed.

Definition m1_in (r : Repo) : MemberSnapshot := default (member "m1" 2) (_members r !! "m1").

Definition while_draining : list RepoOp :=
  [reserve (Some (fun _ => m1_in draining)) "att-2"; RRelease "m1" "att-1" 2; RCompleteDrain "m1" 2].

Definition restart : list RepoOp :=
  [RBeginDrain "m1" 1; RCompleteDrain "m1" 2; RBeginRejoin "m1" 3 1].

End MemberDemo.

Lemma leases_never_exceed_slots_witness :
  lease_total (run_repos Demo.ready [MemberDemo.reserve None "att-1"; MemberDemo.reserve None "att-2"]) "m1" <= 2.
Proof.
  apply (leases_never_exceed_slots Demo.ready
    [MemberDemo.reserve None "att-1"; MemberDemo.reserve None "att-2"] "m1" 2);
    [apply Demo.ready_reachable|done| |by vm_compute].
  repeat split; apply Forall_singleton; by vm_compute.
Defined.

Lemma reservation_within_capacity_witness :
  match reserve_next Demo.ready (seconds 1) [Demo.member "m1" 2] Demo.requirements None "att-1" with
  | Ok (Some res, r') => lease_total r' (m_name (res_member res)) <= configured_slots (res_member res)
  | _ => False
  end.
Proof.
  destruct (reserve_next Demo.ready (seconds 1) [Demo.member "m1" 2] Demo.requirements None "att-1")
    as [[[res|] r']|] eqn:H; [|by vm_compute in H..].
  apply (reservation_within_capacity Demo.ready (seconds 1) [Demo.member "m1" 2] Demo.requirements None
    "att-1" res r'); [apply Demo.ready_reachable|done|exact H].
Defined.

Lemma draining_admits_nothing_witness :
  exists m', _members (run_repos MemberDemo.draining MemberDemo.while_draining) !! "m1" = Some m' /\
    accepting m' = false.
Proof.
  destruct (draining_admits_nothing MemberDemo.held "m1" 1 (MemberDemo.m1_in MemberDemo.draining)
    MemberDemo.draining MemberDemo.while_draining) as (m' & Hm & Ha & _);
    [apply MemberDemo.m1_held_reachable|by vm_compute| |repeat split| |exists m'; exact (conj Hm Ha)];
    [by intros cur [= <-]|].
  repeat split; intros m ->%list_elem_of_singleton _; by vm_compute.
Defined.

Lemma predrain_lease_is_stuck_witness :
  "att-1" ∈ member_leases (run_repos MemberDemo.draining
    [RRelease "m1" "att-1" 1; RCompleteDrain "m1" 2]) "m1".
Proof.
  apply (predrain_lease_is_stuck MemberDemo.held "m1" 1 (MemberDemo.m1_in MemberDemo.draining)
    MemberDemo.draining "att-1" [RRelease "m1" "att-1" 1; RCompleteDrain "m1" 2]);
    [apply MemberDemo.m1_held_reachable|by vm_compute|by vm_compute|repeat split|].
  repeat split.
Defined.

Lemma member_history_lawful_witness :
  exists m, _members (run_repos Demo.ready MemberDemo.restart) !! "m1" = Some m /\
    rtc allowed READY_ACCEPTING (m_state m).
Proof.
  destruct (member_history_lawful Demo.ready "m1" (Demo.member "m1" 2) MemberDemo.restart)
    as (m & Hm & Hst & _); [apply Demo.ready_reachable|reflexivity|done|done|by exists m].
Defined.
