(* ===== verification/BrokerDispatch.v ===== *)
(** * BrokerDispatch: one attempt against a member, and repair after a crash

    Models [scripts/gemma_broker/dispatcher.py] and the crash evidence, repair
    fence and [Reconciler] of [scripts/gemma_broker/reconcile.py], on the
    repository of [BrokerRepo].  The transport is a parameter: what it did
    with a request, with the repository calls other tasks made meanwhile. *)

From S2P Require Import Prelude PyValue Broker BrokerRepo BrokerBoard BrokerMembers.

(** ** The dispatcher *)

(** What left [transport.send], or its callback, as an exception. *)
Inductive Failure :=
  | Raised (e : BrokerError)
  | Other (text : string).

Inductive Outcome :=
  | Response (body : list (string * value))
  | Failed (f : Failure).

(** A call of the transport: other tasks' operations before it reports
    acceptance, whether it does (and their operations afterwards), its end. *)
Record Send := mkSend {
  before_accept : list RepoOp; accepts : option (list RepoOp); outcome : Outcome }.

Definition Transport := MemberSnapshot -> list (string * value) -> Send.

(** [except (RepositoryUnavailable, LeadershipLost)] *)
Definition fatal (f : Failure) : bool :=
  match f with Raised RepositoryUnavailable | Raised LeadershipLost => true | _ => false end.

Definition accept_job (current : JobRecord) (t : time) : JobRecord :=
  current ⟪ job_state := ACCEPTED ⟫ ⟪ accepted_boundary_crossed := true ⟫
          ⟪ forward_started_at := Some t ⟫ ⟪ state_version := state_version current + 1 ⟫.

Definition cancelled_job (current : JobRecord) (t : time) (why : ReasonCode) : JobRecord :=
  current ⟪ job_state := CANCELLED ⟫ ⟪ completed_at := Some t ⟫ ⟪ reason_code := Some why ⟫
          ⟪ state_version := state_version current + 1 ⟫.

Definition completed_job (current : JobRecord) (t : time) (body : list (string * value)) : JobRecord :=
  current ⟪ job_state := COMPLETED ⟫ ⟪ completed_at := Some t ⟫ ⟪ job_result := Some body ⟫
          ⟪ job_error := None ⟫ ⟪ reason_code := None ⟫ ⟪ state_version := state_version current + 1 ⟫.

Definition unknown_job (current : JobRecord) (t : time) (text : string) : JobRecord :=
  current ⟪ job_state := OUTCOME_UNKNOWN ⟫ ⟪ completed_at := Some t ⟫
          ⟪ reason_code := Some POST_ACCEPTANCE_OUTCOME_UNKNOWN ⟫ ⟪ job_error := Some text ⟫
          ⟪ state_version := state_version current + 1 ⟫.

Definition _release_reservation_lease (r : Repo) (res : Reservation) : result BrokerError unit * Repo :=
  match current_attempt_id (res_job res), member_state_version (res_job res) with
  | Some attempt, Some claimed =>
      if str_truthy attempt then
        match release_member_lease r (m_name (res_member res)) attempt claimed with
        | Ok (_, r') => (Ok tt, r')
        | Err e => (Err e, r)
        end
      else (Ok tt, r)
  | _, _ => (Ok tt, r)
  end.

(** [replaced = replace_job(job); _release_reservation_lease(...)] *)
Definition settle (r : Repo) (res : Reservation) (job : JobRecord) : result BrokerError JobRecord * Repo :=
  match replace_job r job with
  | Err e => (Err e, r)
  | Ok (j, r1) =>
      match _release_reservation_lease r1 res with
      | (Ok _, r2) => (Ok j, r2)
      | (Err e, r2) => (Err e, r2)
      end
  end.

Section Dispatcher.
(** [f"{type(exc).__name__}:{exc}"], and the clock at acceptance and at the end. *)
Variables (describe : Failure -> string) (t0 t1 : time).

Definition finish (r : Repo) (res : Reservation) (current : JobRecord) (body : list (string * value))
    : result BrokerError JobRecord * Repo :=
  if cancel_requested current then settle r res (cancelled_job current t1 CANCELLED_AFTER_ACCEPTANCE)
  else settle r res (completed_job current t1 body).

(** After [transport.send]; [accepted] is the closure's flag. *)
Definition after_send (r : Repo) (res : Reservation) (current : JobRecord) (accepted : bool) (o : Outcome)
    : result BrokerError JobRecord * Repo :=
  match o with
  | Failed f =>
      match f with
      | Raised RepositoryUnavailable => (Err RepositoryUnavailable, r)
      | Raised LeadershipLost => (Err LeadershipLost, r)
      | _ =>
          if accepted then settle r res (unknown_job current t1 (describe f))
          else
            match requeue_claim r current PRE_ACCEPTANCE_REQUEUE with
            | Ok (j, r') => (Ok j, r')
            | Err e => (Err e, r)
            end
      end
  | Response body =>
      if accepted then finish r res current body
      else
        match replace_job r (accept_job current t0) with
        | Ok (_, r') => finish r' res (accept_job current t0) body
        | Err e => (Err e, r)
        end
  end.

Definition dispatch (r : Repo) (res : Reservation) (transport : Transport)
    : result BrokerError JobRecord * Repo :=
  match get_job r (job_id (res_job res)) with
  | Err e => (Err e, r)
  | Ok o =>
      let current := default (res_job res) o in
      if cancel_requested current && negb (accepted_boundary_crossed current) then
        match replace_job r (cancelled_job current t1 CANCELLED_BEFORE_ACCEPTANCE) with
        | Ok (j, r') => (Ok j, r')
        | Err e => (Err e, r)
        end
      else
        let s := transport (res_member res) (normalize_chat_request (request_body current)) in
        let r1 := run_repos r (before_accept s) in
        match accepts s with
        | None => after_send r1 res current false (outcome s)
        | Some later =>
            let acc := accept_job current t0 in
            match replace_job r1 acc with
            | Ok (_, r2) => after_send (run_repos r2 later) res acc true (outcome s)
            | Err e => after_send r1 res acc true (Failed (Raised e))
            end
        end
  end.

End Dispatcher.

(** ** The dispatcher keeps to the callers' contract *)

(** Another task's call about this job: none. *)
Definition foreign (jid : string) (op : RepoOp) : Prop :=
  match op with
  | RReplace job | RRequeue job _ => job_id job <> jid
  | _ => True
  end.

Lemma foreign_keeps r op jid j :
  job_inv r -> op_ok r op -> foreign jid op -> _jobs r !! jid = Some j -> job_state j <> QUEUED ->
  _jobs (run_repo r op) !! jid = Some j.
Proof.
  intros Hinv Hok Hf Hj Hq. unfold run_repo. destruct (apply_repo r op) as [r'|] eqn:H; [|done].
  destruct (job_op op) eqn:Hop.
  2: { apply other_ops_same in H as (-> & _); done. }
  destruct op; try done; cbn [apply_repo] in H; apply result_fmap_ok in H as ([x r1] & H & <-);
    cbn [snd foreign] in *.
  - unfold submit in H. inv_ok. destruct (_idempotency r !! _) as [[? ?]|].
    + inv_ok. destruct (_jobs r !! s); by simplify_eq.
    + inv_ok. bool_prop. simplify_eq. cbn. rewrite lookup_insert_ne; [done|]. intros Heq.
      match goal with H : ~ is_Some _ |- _ => apply H end. rewrite Heq, Hj. eauto.
  - destruct x as [res|]; [|by apply reserve_next_none in H as ->].
    apply reserve_next_spec in H as (job & m & rest & p & Hk & Hs & _ & _ & _ & _ & _ & _ & _ & _ & _ & -> & ->);
      [|done]. cbn. rewrite lookup_insert_ne; [done|]. intros <-. congruence.
  - unfold cancel_queued in H. inv_ok. destruct (_jobs r !! jid0) as [cur|] eqn:Hcur; [|done].
    case_bool_decide as Hs; cbn [negb] in H; inv_ok; simplify_eq; [|done].
    cbn. rewrite lookup_insert_ne; [done|]. intros ->. congruence.
  - apply replace_spec in H as (_ & _ & (-> & _) & _). cbn. by rewrite lookup_insert_ne.
  - apply requeue_spec in H as (cur & Hcur & _ & _ & -> & ->). cbn zeta.
    destruct (same_jobs_release (if bool_decide (job_id cur ∈ _queues r (base_priority cur))
      then set_job r (requeued_job cur reason)
      else set_queue (set_job r (requeued_job cur reason)) (base_priority cur)
             (job_id cur :: _queues r (base_priority cur))) cur) as (-> & _).
    apply (inv_keys _ Hinv) in Hcur as Hid.
    case_bool_decide; cbn; rewrite lookup_insert_ne; congruence.
Qed.

Lemma foreign_keeps_all r ops jid j :
  job_inv r -> ops_ok r ops -> Forall (foreign jid) ops -> _jobs r !! jid = Some j ->
  job_state j <> QUEUED ->
  job_inv (run_repos r ops) /\ _jobs (run_repos r ops) !! jid = Some j.
Proof.
  revert r. induction ops as [|op ops IH]; intros r Hinv; simpl; [done|].
  intros [Hok Hops] [Hf Hfs]%Forall_cons Hj Hq. apply IH; [by apply run_repo_inv|done|done| |done].
  by apply foreign_keeps.
Qed.

(** [r'] is [r] after a history that keeps to the contract. *)
Definition performs (r r' : Repo) : Prop := exists ops, r' = run_repos r ops /\ ops_ok r ops.

Lemma performs_ops r ops : ops_ok r ops -> performs r (run_repos r ops).
Proof. by exists ops. Qed.

Lemma performs_one r op : op_ok r op -> performs r (run_repo r op).
Proof. intros H. exists [op]. split; [done|]. by split. Qed.

Lemma ops_ok_app r ops ops' : ops_ok r (ops ++ ops') <-> ops_ok r ops /\ ops_ok (run_repos r ops) ops'.
Proof. revert r. induction ops as [|op ops IH]; intros r; simpl; [tauto|]. rewrite IH. tauto. Qed.

Lemma performs_trans r1 r2 r3 : performs r1 r2 -> performs r2 r3 -> performs r1 r3.
Proof.
  intros (ops & -> & H) (ops' & -> & H'). exists (ops ++ ops'). split.
  - unfold run_repos. by rewrite fold_left_app.
  - by apply ops_ok_app.
Qed.

Lemma performs_ok r r' op : op_ok r op -> apply_repo r op = Ok r' -> performs r r'.
Proof. intros Hok H. pose proof (performs_one r op Hok) as Hp. unfold run_repo in Hp. by rewrite H in Hp. Qed.

#[export] Hint Resolve performs_ops : gpum.

(** [job] is a lawful replacement of [cur]. *)
Definition updates (cur job : JobRecord) : Prop :=
  job_id job = job_id cur /\ base_priority job = base_priority cur /\
  request_sha256 job = request_sha256 cur /\ idempotency_key job = idempotency_key cur /\
  job_state cur <> QUEUED /\ job_state job <> QUEUED /\
  (accepted_boundary_crossed cur = true -> accepted_boundary_crossed job = true).

Lemma updates_ok r cur job : job_inv r -> _jobs r !! job_id cur = Some cur -> updates cur job -> op_ok r (RReplace job).
Proof. intros Hinv Hj (Hid & H1 & H2 & H3 & H4 & H5 & H6). exists cur. by rewrite Hid. Qed.

Lemma replace_performs r cur job j r' :
  job_inv r -> _jobs r !! job_id cur = Some cur -> updates cur job -> replace_job r job = Ok (j, r') ->
  performs r r' /\ job_inv r' /\ j = job /\ _jobs r' !! job_id cur = Some job.
Proof.
  intros Hinv Hj Hup H. pose proof (updates_ok r cur job Hinv Hj Hup) as Hok.
  assert (performs r r') as Hp by (apply (performs_ok r r' (RReplace job) Hok); cbn; by rewrite H).
  pose proof (replace_inv r job j r' Hinv Hok H) as Hinv'.
  apply replace_spec in H as (-> & _ & (Hjobs & _) & _). split_and!; [done..|].
  rewrite Hjobs. cbn. destruct Hup as [<- _]. by rewrite lookup_insert_eq.
Qed.

Lemma release_performs r res out r' :
  _release_reservation_lease r res = (out, r') -> performs r r' /\ _jobs r' = _jobs r.
Proof.
  unfold _release_reservation_lease. assert (performs r r) by by exists [].
  destruct (current_attempt_id _) as [a|]; [|by intros [= <- <-]].
  destruct (member_state_version _) as [v|]; [|by intros [= <- <-]].
  destruct (str_truthy a); [|by intros [= <- <-]].
  destruct (release_member_lease r (m_name (res_member res)) a v) as [[m r2]|] eqn:Hr; intros [= <- <-]; [|done].
  assert (apply_repo r (RRelease (m_name (res_member res)) a v) = Ok r2) as Ha by (cbn; by rewrite Hr).
  split; [by apply (performs_ok r r2 (RRelease (m_name (res_member res)) a v) I)|]. by apply other_ops_same in Ha as (-> & _).
Qed.

(** What every exit of the dispatcher leaves behind. *)
Definition left_behind (r r' : Repo) (cur : JobRecord) (out : result BrokerError JobRecord)
    (P : JobRecord -> Prop) : Prop :=
  performs r r' /\ exists j, _jobs r' !! job_id cur = Some j /\ (forall j', out = Ok j' -> j' = j) /\
    (is_ok out = true -> phase_of (job_state j) <> Held) /\ (j = cur \/ P j).

Lemma settle_leaves r res cur job out r' :
  job_inv r -> _jobs r !! job_id cur = Some cur -> updates cur job ->
  phase_of (job_state job) = Settled ->
  settle r res job = (out, r') -> left_behind r r' cur out (fun j => j = job).
Proof.
  intros Hinv Hj Hup Hph. unfold settle.
  destruct (replace_job r job) as [[j r1]|] eqn:Hr.
  - apply (replace_performs r cur job) in Hr as (Hp & _ & -> & Hj1); [|done..].
    destruct (_release_reservation_lease r1 res) as [o r2] eqn:Hrel.
    apply release_performs in Hrel as [Hp2 Hjobs]. intros Heq.
    assert (r' = r2 /\ (forall j', out = Ok j' -> j' = job)) as [-> Hout].
    { destruct o; injection Heq as <- <-; naive_solver. }
    split; [by eapply performs_trans|]. exists job. rewrite Hjobs, Hph. auto.
  - intros [= <- <-]. split; [by exists []|]. exists cur. naive_solver.
Qed.

(** How a job can end: queued only when acceptance never happened and the
    send failed, completed only with the transport's response. *)
Definition verdict (accepted : bool) (cur : JobRecord) (o : Outcome) (j : JobRecord) : Prop :=
  (job_state j = QUEUED ->
     accepted = false /\ accepted_boundary_crossed cur = false /\ exists f, o = Failed f) /\
  (job_state j = COMPLETED -> exists body, o = Response body /\ job_result j = Some body).

Lemma left_weaken r r' cur out P (Q : JobRecord -> Prop) :
  (forall j, P j -> Q j) -> left_behind r r' cur out P -> left_behind r r' cur out Q.
Proof. intros HPQ (Hp & j & H1 & H2 & H3 & H4). split; [done|]. exists j. naive_solver. Qed.

Lemma left_fail r cur e P : _jobs r !! job_id cur = Some cur -> left_behind r r cur (Err e) P.
Proof. intros Hj. split; [by exists []|]. exists cur. naive_solver. Qed.

Lemma finish_leaves t1 r res cur body accepted c0 out r' :
  job_inv r -> _jobs r !! job_id cur = Some cur -> job_state cur <> QUEUED ->
  finish t1 r res cur body = (out, r') ->
  left_behind r r' cur out (verdict accepted c0 (Response body)).
Proof.
  intros Hinv Hj Hq. unfold finish. destruct (cancel_requested cur); intros H;
    apply (settle_leaves r res cur) in H; try done;
    (eapply left_weaken; [|exact H]); intros j ->; split; cbn; intros [=]; eauto.
Qed.

Lemma requeue_leaves r cur why out r' o :
  job_inv r -> _jobs r !! job_id cur = Some cur -> (exists f, o = Failed f) ->
  match requeue_claim r cur why with Ok (j, r1) => (Ok j, r1) | Err e => (Err e, r) end = (out, r') ->
  left_behind r r' cur out (verdict false cur o).
Proof.
  intros Hinv Hj Ho. destruct (requeue_claim r cur why) as [[j r1]|e] eqn:H; intros [= <- <-];
    [|by apply left_fail].
  assert (apply_repo r (RRequeue cur why) = Ok r1) as Ha by (cbn; by rewrite H).
  apply requeue_spec in H as (c & Hc & _ & Hacc & -> & Hr1). rewrite Hj in Hc. injection Hc as <-.
  split; [by apply (performs_ok r r1 (RRequeue cur why) I)|].
  exists (requeued_job cur why). split_and!; [|naive_solver|done|right; split; [auto|done]].
  cbn zeta in Hr1. rewrite Hr1. match goal with |- _jobs (release_claim ?x ?y) !! _ = _ =>
    destruct (same_jobs_release x y) as (-> & _) end.
  case_bool_decide; cbn; by rewrite lookup_insert_eq.
Qed.

(** [c0] is stored; [current] is what the dispatcher holds. *)
Lemma after_send_leaves describe t0 t1 r res c0 current accepted o out r' :
  job_inv r -> _jobs r !! job_id c0 = Some c0 -> updates c0 current ->
  (accepted = false -> current = c0) ->
  after_send describe t0 t1 r res current accepted o = (out, r') ->
  (accepted = true -> forall body, o = Response body -> current = c0) ->
  left_behind r r' c0 out (verdict accepted c0 o).
Proof.
  intros Hinv Hj Hup Hcur Haft Hresp.
  destruct Hup as (Hid & Hp & Hsha & Hkey & Hq & Hq' & Hmono).
  destruct o as [body|f]; cbn [after_send] in Haft.
  - destruct accepted.
    + rewrite (Hresp eq_refl body eq_refl) in Haft. by eapply finish_leaves.
    + rewrite (Hcur eq_refl) in Haft.
      destruct (replace_job r (accept_job c0 t0)) as [[x r1]|e] eqn:Hr;
        [|injection Haft as <- <-; by apply left_fail].
      apply (replace_performs r c0) in Hr as (Hperf & Hinv1 & -> & Hj1); [|done..].
      apply (finish_leaves t1 r1 res _ body false c0) in Haft; [|done..].
      destruct Haft as (Hp2 & j & H1 & H2 & H3 & H4). split; [by eapply performs_trans|].
      exists j. split_and!; [done..|]. right. destruct H4 as [->|H4]; [by split|done].
  - assert (left_behind r r' c0 out (verdict accepted c0 (Failed f))
            \/ (if accepted then settle r res (unknown_job current t1 (describe f))
                else match requeue_claim r current PRE_ACCEPTANCE_REQUEUE with
                     | Ok (j, r1) => (Ok j, r1) | Err e => (Err e, r) end) = (out, r')) as [|Hgo]; [|done|].
    { destruct f as [[]|]; try (by right); left; injection Haft as <- <-; by apply left_fail. }
    destruct accepted.
    + apply (settle_leaves r res c0) in Hgo; [|done..]. eapply left_weaken; [|exact Hgo].
      intros j ->. by split.
    + rewrite (Hcur eq_refl) in Hgo. eapply requeue_leaves; eauto.
Qed.

Lemma accept_updates cur t : job_state cur <> QUEUED -> updates cur (accept_job cur t).
Proof. intros Hq. unfold updates. by split_and!. Qed.

Lemma cancel_updates cur t why : job_state cur <> QUEUED -> updates cur (cancelled_job cur t why).
Proof. intros Hq. unfold updates. by split_and!. Qed.

Lemma updates_refl cur : job_state cur <> QUEUED -> updates cur cur.
Proof. intros Hq. unfold updates. by split_and!. Qed.

Lemma held_not_queued s : phase_of s = Held -> s <> QUEUED /\ s <> COMPLETED.
Proof. by destruct s. Qed.

(** C40. One dispatch of a held job is a history of calls that keeps to the
    repository's contract, whatever other tasks do meanwhile to other jobs:
    the job ends as the dispatcher reports it, settled or queued; it is queued
    again only if the transport failed without reporting acceptance and the
    boundary was never crossed, and COMPLETED only with the response. *)
Theorem dispatch_keeps_contract describe t0 t1 r res transport cur out r' :
  let jid := job_id (res_job res) in
  let s := transport (res_member res) (normalize_chat_request (request_body cur)) in
  let r1 := run_repos r (before_accept s) in
  reachable_repo r -> _jobs r !! jid = Some cur -> phase_of (job_state cur) = Held ->
  ops_ok r (before_accept s) -> Forall (foreign jid) (before_accept s) ->
  (forall later, accepts s = Some later ->
     ops_ok (run_repo r1 (RReplace (accept_job cur t0))) later /\ Forall (foreign jid) later) ->
  dispatch describe t0 t1 r res transport = (out, r') ->
  performs r r' /\
  exists j, _jobs r' !! jid = Some j /\ (forall j', out = Ok j' -> j' = j) /\
    (is_ok out = true -> phase_of (job_state j) <> Held) /\
    (job_state j = QUEUED ->
       accepts s = None /\ accepted_boundary_crossed cur = false /\ exists f, outcome s = Failed f) /\
    (job_state j = COMPLETED -> exists body, outcome s = Response body /\ job_result j = Some body).
Proof.
  intros jid s r1 Hr%reachable_job_inv Hj Hheld Hok1 Hf1 Hlater H.
  destruct (held_not_queued _ Hheld) as [Hq Hnc].
  assert (job_id cur = jid) as Hid by by apply (inv_keys _ Hr) in Hj.
  enough (left_behind r r' cur out (verdict (bool_decide (is_Some (accepts s))) cur (outcome s)))
    as (Hp & j & H1 & H2 & H3 & H4).
  { split; [done|]. exists j. rewrite <- Hid. split_and!; [done..| |].
    - intros Hjq. destruct H4 as [->|[H4 _]]; [done|]. destruct (H4 Hjq) as (Ha & ? & ?).
      apply bool_decide_eq_false in Ha. split; [|done]. destruct (accepts s); [exfalso; eauto|done].
    - intros Hjc. destruct H4 as [->|[_ H4]]; [done|auto]. }
  unfold dispatch in H. unfold get_job, _require_available, guard in H.
  destruct (available r); cbn [mbind result_bind] in H.
  2: { injection H as <- <-. apply left_fail. by rewrite Hid. }
  fold jid in H. rewrite Hj in H. cbn [default id] in H. destruct (cancel_requested cur && _).
  { destruct (replace_job r _) as [[j r2]|] eqn:Hrep; injection H as <- <-.
    - apply (replace_performs r cur) in Hrep as (Hp & _ & -> & Hj1); [|done|by rewrite Hid|by apply cancel_updates].
      split; [done|]. exists (cancelled_job cur t1 CANCELLED_BEFORE_ACCEPTANCE).
      split_and!; [done|by intros ? [= <-]|done|]. right. by split.
    - apply left_fail. by rewrite Hid. }
  fold s in H. fold r1 in H.
  destruct (foreign_keeps_all r (before_accept s) jid cur) as [Hr1 Hj1]; [done..|]. fold r1 in Hr1, Hj1.
  assert (performs r r1) as Hp1 by by apply performs_ops.
  rewrite <- Hid in Hj1.
  destruct (accepts s) as [later|] eqn:Hacc.
  - destruct (Hlater later eq_refl) as [Hok2 Hf2].
    destruct (replace_job r1 (accept_job cur t0)) as [[x r2]|e] eqn:Hrep.
    + assert (run_repo r1 (RReplace (accept_job cur t0)) = r2) as Hrun.
      { unfold run_repo. cbn [apply_repo]. by rewrite Hrep. }
      rewrite Hrun in Hok2.
      apply (replace_performs r1 cur) in Hrep as (Hp2 & Hr2 & -> & Hj2); [|done|done|by apply accept_updates].
      rewrite Hid in Hj2.
      destruct (foreign_keeps_all r2 later jid (accept_job cur t0)) as [Hr3 Hj3]; [done..|].
      rewrite <- Hid in Hj3. apply (after_send_leaves describe t0 t1 _ res (accept_job cur t0)) in H; try done.
      destruct H as (Hp4 & j & H1 & H2 & H3 & H4). split.
      * eapply performs_trans; [exact Hp1|]. eapply performs_trans; [exact Hp2|].
        eapply performs_trans; [by apply performs_ops|exact Hp4].
      * exists j. split_and!; [done..|]. right. rewrite bool_decide_true by eauto.
        destruct H4 as [->|[H4 H5]]; [by split|]. split; [|done]. intros Hjq. by destruct (H4 Hjq).
    + apply (after_send_leaves describe t0 t1 _ res cur) in H; [|done..|by apply accept_updates|done|done].
      destruct H as (Hp4 & j & H1 & H2 & H3 & H4). split; [by eapply performs_trans|].
      exists j. split_and!; [done..|]. destruct H4 as [->|[H4 H5]]; [by left|].
      right. split; [intros Hjq; by destruct (H4 Hjq)|]. intros Hjc. destruct (H5 Hjc) as (? & [=] & _).
  - apply (after_send_leaves describe t0 t1 _ res cur) in H; [|done..|by apply updates_refl|done|done].
    destruct H as (Hp4 & H). split; [by eapply performs_trans|exact H].
Qed.

(** ** Crash evidence *)

Inductive CrashVerdict := ALIVE | UNKNOWN | CONFLICTING | PROVEN_DEAD.
#[export] Instance CrashVerdict_eq_dec : EqDecision CrashVerdict.
Proof. solve_decision. Defined.

Record CrashEvidence := mkCrashEvidence {
  service_name : string; failed_probe_rounds : Z; ev_systemd_active : option bool;
  main_pid_alive : option bool; process_present : option bool;
  gpu_utilization_percent : option Z; cpu_utilization_percent : option Z; oom_exit : bool }.

(** The verdict and its reason codes; the evidence strings are for display. *)
Record CrashAssessment := mkCrashAssessment {
  crash_verdict : CrashVerdict; crash_reasons : list ReasonCode }.

Definition signals (v : CrashEvidence) : list (option bool) :=
  [ev_systemd_active v; main_pid_alive v; process_present v].

Definition all_are (b : bool) (v : CrashEvidence) : bool :=
  forallb (fun s => bool_decide (s = Some b)) (signals v).
Definition any_is (b : bool) (v : CrashEvidence) : bool :=
  existsb (fun s => bool_decide (s = Some b)) (signals v).

Definition reduce_crash_evidence (v : CrashEvidence) : CrashAssessment :=
  if any_is true v && any_is false v then mkCrashAssessment CONFLICTING [CRASH_EVIDENCE_CONFLICT]
  else if all_are true v then mkCrashAssessment ALIVE []
  else if oom_exit v && bool_decide (process_present v = Some false)
          && bool_decide (main_pid_alive v = Some false) then mkCrashAssessment PROVEN_DEAD []
  else if (3 <=? failed_probe_rounds v) && all_are false v then mkCrashAssessment PROVEN_DEAD []
  else mkCrashAssessment UNKNOWN [].

(** ** The repair fence *)

Abbreviation Claims := (gmap string (Z * string * bool)) (only parsing).

Definition fence_acquire (c : Claims) (jid owner : string) (fence : Z) : result BrokerError (bool * Claims) :=
  guard (str_truthy owner && (0 <? fence)) ValueError;;
  match c !! jid with
  | Some (prior_fence, _, completed) =>
      if completed || (fence <=? prior_fence) then Ok (false, c)
      else Ok (true, <[jid := (fence, owner, false)]> c)
  | None => Ok (true, <[jid := (fence, owner, false)]> c)
  end.

Definition fence_complete (c : Claims) (jid owner : string) (fence : Z) : Claims :=
  if bool_decide (c !! jid = Some (fence, owner, false)) then <[jid := (fence, owner, true)]> c else c.

(** ** Repair *)

Definition dead_job (current : JobRecord) : JobRecord :=
  current ⟪ job_state := OUTCOME_UNKNOWN ⟫ ⟪ reason_code := Some POST_ACCEPTANCE_OUTCOME_UNKNOWN ⟫
          ⟪ job_error := Some "proven_dead_after_acceptance" ⟫
          ⟪ state_version := state_version current + 1 ⟫.

Definition crossed_or_sent (current : JobRecord) : bool :=
  accepted_boundary_crossed current
  || match job_state current with ACCEPTED | IN_FLIGHT => true | _ => false end.

(** The repair itself, under the fence. *)
Definition repair_job (r : Repo) (current : JobRecord) : result BrokerError (JobRecord * Repo) :=
  if crossed_or_sent current then replace_job r (dead_job current)
  else requeue_claim r current PRE_ACCEPTANCE_REQUEUE.

(** [repair] on the repository and the fence; a call that raises keeps what
    it had already written. *)
Definition repair (r : Repo) (c : Claims) (jid : string) (evidence : CrashEvidence) (owner : string)
    (fence : Z) : result BrokerError JobRecord * Repo * Claims :=
  match get_job r jid with
  | Err e => (Err e, r, c)
  | Ok None => (Err ValueError, r, c)
  | Ok (Some current) =>
      if negb (bool_decide (crash_verdict (reduce_crash_evidence evidence) = PROVEN_DEAD)) then (Ok current, r, c)
      else
        match phase_of (job_state current) with
        | Waiting | Settled => (Ok current, r, c)
        | Held =>
            match fence_acquire c jid owner fence with
            | Err e => (Err e, r, c)
            | Ok (false, c') => (Ok current, r, c')
            | Ok (true, c') =>
                match repair_job r current with
                | Err e => (Err e, r, c')
                | Ok (repaired, r') => (Ok repaired, r', fence_complete c' jid owner fence)
                end
            end
        end
  end.

(** Proven dead needs two agreeing dead signals and nothing alive. *)
Lemma proven_dead_evidence v :
  crash_verdict (reduce_crash_evidence v) = PROVEN_DEAD ->
  process_present v = Some false /\ main_pid_alive v = Some false /\ ev_systemd_active v <> Some true /\
  (oom_exit v = true \/ (ev_systemd_active v = Some false /\ 3 <= failed_probe_rounds v)).
Proof.
  unfold reduce_crash_evidence, any_is, all_are, signals. cbn [existsb forallb].
  destruct (ev_systemd_active v) as [[]|], (main_pid_alive v) as [[]|], (process_present v) as [[]|],
    (oom_exit v), (Z.leb_spec 3 (failed_probe_rounds v)); cbn; try done; auto 10.
Qed.

Definition completed (c : Claims) (jid : string) : bool :=
  match c !! jid with Some (_, _, b) => b | None => false end.

Lemma acquire_refused c jid owner fence :
  completed c jid = true -> fence_acquire c jid owner fence = Ok (false, c) \/
  fence_acquire c jid owner fence = Err ValueError.
Proof.
  unfold completed, fence_acquire, guard. destruct (str_truthy owner && (0 <? fence)); [|by right].
  cbn [mbind result_bind]. destruct (c !! jid) as [[[f o] b]|]; [|done]. intros ->. by left.
Qed.

Lemma acquire_claims c jid owner fence c' :
  fence_acquire c jid owner fence = Ok (true, c') -> c' = <[jid := (fence, owner, false)]> c.
Proof.
  unfold fence_acquire. intros H. inv_ok. destruct (c !! jid) as [[[f o] b]|]; [|by inv_ok; simplify_eq].
  destruct (b || _); by simplify_eq.
Qed.

(** The outcomes of one attempt. *)
Lemma repair_cases r c jid ev owner fence out r' c' :
  repair r c jid ev owner fence = (out, r', c') ->
  (r' = r /\ c' = c) \/
  exists cur c1, _jobs r !! jid = Some cur /\ phase_of (job_state cur) = Held /\
    crash_verdict (reduce_crash_evidence ev) = PROVEN_DEAD /\
    fence_acquire c jid owner fence = Ok (true, c1) /\
    ((exists e, out = Err e /\ r' = r /\ c' = c1) \/
     (exists j, repair_job r cur = Ok (j, r') /\ out = Ok j /\ c' = fence_complete c1 jid owner fence)).
Proof.
  unfold repair. intros H. unfold get_job, _require_available, guard in H.
  destruct (available r); cbn [mbind result_bind] in H; [|simplify_eq; by left].
  destruct (_jobs r !! jid) as [cur|]; [|simplify_eq; by left].
  case_bool_decide as Hv; cbn [negb] in H; [|simplify_eq; by left].
  destruct (phase_of (job_state cur)) eqn:Hph; [simplify_eq; by left| |simplify_eq; by left].
  destruct (fence_acquire c jid owner fence) as [[[] c1]|] eqn:Ha.
  - right. exists cur, c1. split_and!; [done..|].
    destruct (repair_job r cur) as [[j r1]|] eqn:Hr; simplify_eq; [right|left]; eauto 10.
  - simplify_eq. unfold fence_acquire in Ha. inv_ok. destruct (c !! jid) as [[[f o] b]|]; [|done].
    destruct (b || _); simplify_eq. by left.
  - simplify_eq. by left.
Qed.

Lemma repair_keeps_completed r c jid ev owner fence out r' c' k :
  repair r c jid ev owner fence = (out, r', c') -> completed c k = true -> completed c' k = true.
Proof.
  intros [[_ ->]|(cur & c1 & _ & _ & _ & Ha & H)]%repair_cases Hc; [done|].
  destruct (decide (k = jid)) as [->|Hne].
  { destruct (acquire_refused c jid owner fence Hc); congruence. }
  apply acquire_claims in Ha as ->. unfold completed in *.
  destruct H as [(e & _ & _ & ->)|(j & _ & _ & ->)]; [by rewrite lookup_insert_ne|].
  unfold fence_complete. case_bool_decide; by rewrite !lookup_insert_ne.
Qed.

(** Another attempt, on any job, by anyone, against any repository. *)
Definition claims_step (c c' : Claims) : Prop :=
  exists r jid ev owner fence out r', repair r c jid ev owner fence = (out, r', c').

(** Repair happens on proof and at most once: an attempt that changes the
    repository had proven-dead evidence and a held job, leaves it
    OUTCOME_UNKNOWN when it may have been sent and QUEUED when it was not, and
    is a call that keeps to the contract; after it, no attempt on that job
    changes the repository again, whoever makes it, with whatever fence. *)
Theorem repair_at_most_once r c jid ev owner fence out r' c' :
  reachable_repo r -> repair r c jid ev owner fence = (out, r', c') -> r' <> r ->
  (crash_verdict (reduce_crash_evidence ev) = PROVEN_DEAD /\ performs r r' /\
   exists cur j, _jobs r !! jid = Some cur /\ phase_of (job_state cur) = Held /\
     _jobs r' !! jid = Some j /\ out = Ok j /\
     job_state j = if crossed_or_sent cur then OUTCOME_UNKNOWN else QUEUED) /\
  forall c2, rtc claims_step c' c2 ->
    forall r2 ev2 owner2 fence2, exists out2, repair r2 c2 jid ev2 owner2 fence2 = (out2, r2, c2).
Proof.
  intros Hr%reachable_job_inv H Hne.
  apply repair_cases in H as [[? _]|(cur & c1 & Hcur & Hheld & Hv & Ha & [(e & _ & ? & _)|(j & Hrep & -> & ->)])];
    [done..|].
  destruct (held_not_queued _ Hheld) as [Hq _].
  assert (job_id cur = jid) as Hid by by apply (inv_keys _ Hr) in Hcur.
  split.
  - split; [done|]. unfold repair_job in Hrep. destruct (crossed_or_sent cur) eqn:Hx.
    + apply (replace_performs r cur) in Hrep as (Hp & _ & -> & Hj); [|done|by rewrite Hid|].
      * rewrite Hid in Hj. split; [done|]. exists cur, (dead_job cur). by rewrite Hx.
      * unfold updates. by split_and!.
    + pose proof (requeue_leaves r cur PRE_ACCEPTANCE_REQUEUE (Ok j) r' (Failed (Other ""))) as Hl.
      destruct Hl as (Hp & k & Hk & Hout & _); [done|by rewrite Hid|eauto|by rewrite Hrep|].
      rewrite Hid, <- (Hout j eq_refl) in Hk. split; [done|]. exists cur, j. rewrite Hx.
      apply requeue_spec in Hrep as (c' & _ & _ & _ & -> & _). by split_and!.
  - apply acquire_claims in Ha as ->.
    assert (completed (fence_complete (<[jid := (fence, owner, false)]> c) jid owner fence) jid = true) as Hc.
    { unfold fence_complete, completed. rewrite lookup_insert_eq, bool_decide_true by done.
      by rewrite lookup_insert_eq. }
    intros c2 Hsteps. assert (completed c2 jid = true) as Hc2.
    { induction Hsteps as [|x y z (rr & k & e & o & f & oo & rr' & Hs) Hst IH]; [done|].
      apply IH. by eapply repair_keeps_completed. }
    intros r2 ev2 owner2 fence2.
    destruct (repair r2 c2 jid ev2 owner2 fence2) as [[out2 r2'] c2'] eqn:H2.
    apply repair_cases in H2 as H3. destruct H3 as [[-> ->]|(? & c3 & _ & _ & _ & Ha & _)]; [by eexists|].
    destruct (acquire_refused c2 jid owner2 fence2 Hc2); congruence.
Qed.

(** ** Witnesses and observations *)
Module DispatchDemo.
Import Demo.

(** [b] claimed by [m1]. *)
Definition held : Repo := MemberDemo.held.
Definition b_in (r : Repo) : JobRecord := BoardDemo.job_at r "b".
Definition reservation : Reservation := mkReservation (b_in held) (MemberDemo.m1_in held).

(** Another client submits meanwhile; the backend accepts and answers. *)
Definition answering : Transport := fun _ _ =>
  mkSend [RSubmit (job "c" NORMAL 6 3) "me"] (Some []) (Response [("ok", PBool true)]).

(** The backend fails before accepting. *)
Definition refusing : Transport := fun _ _ => mkSend [] None (Failed (Other "ConnectError")).

(** Meanwhile the member is drained. *)
Definition draining : Transport := fun _ _ =>
  mkSend [] (Some [RBeginDrain "m1" 1]) (Response [("ok", PBool true)]).

Definition describe (f : Failure) : string := match f with Other s => s | Raised _ => "ContractError" end.

Definition go (r : Repo) (transport : Transport) : result BrokerError JobRecord * Repo :=
  dispatch describe (seconds 2) (seconds 3) r reservation transport.

Definition dead : CrashEvidence :=
  mkCrashEvidence "m1" 3 (Some false) (Some false) (Some false) None None false.

End DispatchDemo.

Lemma dispatch_keeps_contract_witness :
  exists j, _jobs (DispatchDemo.go DispatchDemo.held DispatchDemo.answering).2 !! "b" = Some j /\
    phase_of (job_state j) <> Held.
Proof.
  destruct (DispatchDemo.go DispatchDemo.held DispatchDemo.answering) as [out r'] eqn:H.
  destruct (dispatch_keeps_contract DispatchDemo.describe (seconds 2) (seconds 3) DispatchDemo.held
    DispatchDemo.reservation DispatchDemo.answering (DispatchDemo.b_in DispatchDemo.held) out r')
    as (_ & j & Hj & _ & Hp & _).
  - apply MemberDemo.m1_held_reachable.
  - by vm_compute.
  - by vm_compute.
  - repeat split.
  - by apply Forall_singleton.
  - intros later [= <-]. split; [done|constructor].
  - exact H.
  - exists j. split; [exact Hj|]. apply Hp.
    assert (is_ok (DispatchDemo.go DispatchDemo.held DispatchDemo.answering).1 = true) as Hok by by vm_compute.
    by rewrite H in Hok.
Defined.

Lemma repair_at_most_once_witness :
  let '(out, r', c') := repair DispatchDemo.held ∅ "b" DispatchDemo.dead "op" 1 in
  exists out2, repair r' c' "b" DispatchDemo.dead "op" 2 = (out2, r', c').
Proof.
  destruct (repair DispatchDemo.held ∅ "b" DispatchDemo.dead "op" 1) as [[out r'] c'] eqn:H.
  apply (repair_at_most_once DispatchDemo.held ∅ "b" DispatchDemo.dead "op" 1 out r' c').
  - apply MemberDemo.m1_held_reachable.
  - exact H.
  - intros ->.
    assert (job_state (DispatchDemo.b_in (repair DispatchDemo.held ∅ "b" DispatchDemo.dead "op" 1).1.2)
            <> job_state (DispatchDemo.b_in DispatchDemo.held)) as Hd by by vm_compute.
    rewrite H in Hd. by apply Hd.
  - constructor.
Defined.

(** A refused attempt is queued again and its lease is free. *)
Example refused_is_requeued :
  job_state (DispatchDemo.b_in (DispatchDemo.go DispatchDemo.held DispatchDemo.refusing).2) = QUEUED /\
  lease_total (DispatchDemo.go DispatchDemo.held DispatchDemo.refusing).2 "m1" = 0.
Proof. by vm_compute. Qed.

(** The early cancel path replaces the job and keeps the lease. *)
Example early_cancel_leaks_the_lease :
  let r := run_repo DispatchDemo.held
             (RReplace ((DispatchDemo.b_in DispatchDemo.held) ⟪ cancel_requested := true ⟫)) in
  let after := (DispatchDemo.go r DispatchDemo.answering).2 in
  job_state (DispatchDemo.b_in after) = CANCELLED /\ lease_total after "m1" = 1.
Proof. by vm_compute. Qed.

(** A drain during the attempt makes the dispatcher raise although the job
    completed, and the lease stays. *)
Example drain_during_dispatch_raises :
  let after := DispatchDemo.go DispatchDemo.held DispatchDemo.draining in
  after.1 = Err (ReservationStale "RESERVATION_STATE_STALE") /\
  job_state (DispatchDemo.b_in after.2) = COMPLETED /\ lease_total after.2 "m1" = 1.
Proof. by vm_compute. Qed.

(** A job requeued by a repair, claimed again and dead again is not repaired. *)
Example repaired_job_stays_dead :
  let '(_, r1, c1) := repair DispatchDemo.held ∅ "b" DispatchDemo.dead "op" 1 in
  let r2 := run_repo r1 (MemberDemo.reserve None "att-2") in
  let '(_, r3, _) := repair r2 c1 "b" DispatchDemo.dead "op" 2 in
  job_state (DispatchDemo.b_in r1) = QUEUED /\ job_state (DispatchDemo.b_in r2) = CLAIMED /\
  job_state (DispatchDemo.b_in r3) = CLAIMED.
Proof. by vm_compute. Qed.
