(* ===== verification/BrokerReadiness.v ===== *)
(** * BrokerReadiness: when a member may take work

    Models [scripts/gemma_broker/readiness.py] (the fail-closed reducer from
    configuration and probes to a member snapshot) and the coordinators of
    [scripts/gemma_broker/drain.py].  Configuration and probes are read with
    [dict.get]; the fields below are what those reads can give, with [None]
    for an absent key and the types the annotations state. *)

From stdpp Require Import pretty.
From S2P Require Import Prelude PyValue Broker BrokerRepo BrokerMembers.

(** ** Evidence *)

Record MemberConfig := mkMemberConfig {
  c_enabled : bool; c_gpu_id : option string; c_cpu_only : bool;
  c_parallel : option (option Z); c_worker_parallel : option (option Z);
  c_idle_service_configured : option string; c_member_type : option string;
  c_context_per_slot : option Z; c_capabilities : list string }.

Record Probes := mkProbes {
  p_observed_at : option time; p_idle_service_effective : option bool; p_model_resident : option bool;
  p_conflicting_bundle : bool; p_systemd_active : bool; p_main_pid : option Z; p_semantic_health : bool;
  p_probe_error : option string; p_dispatcher_registered : bool; p_backend_slots_total : option Z;
  p_backend_slots_busy : option Z; p_dispatcher_leases : option Z; p_drain_disabled_slots : option Z }.

(** [config.get("parallel", config.get("worker_parallel", 0)) or 0] *)
Definition config_slots (c : MemberConfig) : Z :=
  match c_parallel c with
  | Some n => int_or_0 n
  | None => match c_worker_parallel c with Some n => int_or_0 n | None => 0 end
  end.

Definition cpu_member (c : MemberConfig) : bool := c_cpu_only c || negb (opt_truthy (c_gpu_id c)).

(** [max(0, int((now - observed_at) * 1000))] *)
Definition age_ms (p : Probes) (now : time) : Z :=
  Z.max 0 (Z.quot (now - default 0 (p_observed_at p)) 1000).

(** ** Blocking reasons *)

Definition Finding : Type := option (ReasonCode * string).

Definition when (b : bool) (r : ReasonCode) (detail : string) : Finding :=
  if b then Some (r, detail) else None.

(** [block]: a reason is reported once. *)
Definition block (acc : list (ReasonCode * string)) (f : Finding) : list (ReasonCode * string) :=
  match f with
  | Some (r, detail) => if decide (r ∈ acc.*1) then acc else acc ++ [(r, detail)]
  | None => acc
  end.

Definition is_true (o : option bool) : bool := bool_decide (o = Some true).

(** What a graphics member must prove besides. *)
Definition gpu_findings (c : MemberConfig) (p : Probes) : list Finding :=
  if cpu_member c then []
  else
    [when (negb (opt_truthy (c_idle_service_configured c))) MEMBER_IDLE_SERVICE_NOT_CONFIGURED
       "idle service not configured";
     when (negb (is_true (p_idle_service_effective p))) MEMBER_IDLE_SERVICE_NOT_EFFECTIVE
       "configured idle service is not effective";
     when (p_conflicting_bundle p) MEMBER_CONFLICTING_BUNDLE "conflicting bundle is active";
     when (negb (is_true (p_model_resident p))) MEMBER_MODEL_NOT_RESIDENT "model residency not proved"].

Definition remote_member (c : MemberConfig) : bool :=
  bool_decide (c_member_type c = Some "openai_compatible").

Definition live_pid (p : Probes) : bool := negb (int_or_0 (p_main_pid p) =? 0).

(** The chain on [probe_error]; one that matches no branch falls through to
    the last, as [None] does. *)
Definition probe_finding (p : Probes) : Finding :=
  let unready := when (negb (p_semantic_health p)) MEMBER_HTTP_UNREADY "semantic HTTP health failed" in
  match p_probe_error p with
  | None => unready
  | Some e =>
      if bool_decide (e ∈ ["connection_refused"; "connection_error"]) then
        Some (MEMBER_PORT_DARK, "port unreachable (connection refused)")
      else if String.eqb e "probe_timeout" then Some (MEMBER_PROBE_TIMEOUT, "probe timed out")
      else if String.eqb e "server_disconnected" then
        Some (MEMBER_PROBE_DISCONNECTED, "server disconnected")
      else if String.prefix "http_" e then
        Some (MEMBER_UNHEALTHY_RESPONSE,
          "backend responded " +:+ String.substring 5 (String.length e - 5) e)
      else if String.eqb e "bad_json" then
        Some (MEMBER_UNHEALTHY_RESPONSE, "backend returned invalid JSON")
      else if String.eqb e "systemd_error" then None
      else if String.eqb e "probe_unknown" then
        Some (MEMBER_HTTP_UNREADY, "backend probe result unavailable")
      else unready
  end.

Section Reducer.
Variables (c : MemberConfig) (p : Probes) (now : time) (freshness_ms : Z).

Definition stale_probe : bool := freshness_ms <? age_ms p now.

Definition leases_seen : Z := Z.max 0 (int_or_0 (p_dispatcher_leases p)).

Definition free_slots : option Z :=
  if stale_probe then None
  else
    match p_backend_slots_total p, p_backend_slots_busy p with
    | Some total, Some busy =>
        Some (Z.min (config_slots c) (Z.min (Z.max 0 (total - busy))
                                            (Z.max 0 (config_slots c - leases_seen))))
    | _, _ => None
    end.

Definition findings : list Finding :=
  [when (negb (c_enabled c)) MEMBER_CONFIG_DISABLED "service disabled in config";
   when stale_probe TELEMETRY_STALE
     ("snapshot age " +:+ pretty (age_ms p now) +:+ "ms exceeds " +:+ pretty freshness_ms +:+ "ms")]
  ++ gpu_findings c p
  ++ [when (negb (remote_member c) && (negb (p_systemd_active p) || negb (live_pid p)))
        MEMBER_SYSTEMD_INACTIVE "systemd unit or MainPID is inactive";
      probe_finding p;
      when (negb (p_dispatcher_registered p)) MEMBER_DISPATCHER_UNREGISTERED
        "dispatcher registration is absent";
      when (match free_slots with Some free => free <=? 0 | None => false end) MEMBER_NO_CAPACITY
        "no proved immediate slot"].

Definition blocked : list (ReasonCode * string) := fold_left block findings [].

Definition hard_reasons : list ReasonCode :=
  [MEMBER_SYSTEMD_INACTIVE; MEMBER_HTTP_UNREADY; MEMBER_PORT_DARK; MEMBER_PROBE_TIMEOUT;
   MEMBER_PROBE_DISCONNECTED; MEMBER_UNHEALTHY_RESPONSE; MEMBER_MODEL_NOT_RESIDENT; TELEMETRY_STALE].

Definition accepts_work : bool :=
  match blocked with [] => 0 <? int_or_0 free_slots | _ => false end.

Definition readiness_state : MemberState :=
  let reasons := blocked.*1 in
  if accepts_work then READY_ACCEPTING
  else if bool_decide (MEMBER_NO_CAPACITY ∈ reasons)
          && forallb (fun r => bool_decide (r = MEMBER_NO_CAPACITY)) reasons then READY_BUSY
  else if existsb (fun r => bool_decide (r ∈ reasons)) hard_reasons then UNHEALTHY
  else JOINING.

Definition candidate (name : string) (fence : Z) : MemberSnapshot :=
  let cpu := cpu_member c in
  mkMemberSnapshot name (c_gpu_id c) readiness_state accepts_work (config_slots c)
    (int_or_0 (c_context_per_slot c)) 1 (default 0 (p_observed_at p)) fence
    (p_backend_slots_total p) (p_backend_slots_busy p) leases_seen
    (Z.max 0 (int_or_0 (p_drain_disabled_slots p))) free_slots (c_capabilities c)
    (c_idle_service_configured c) (if cpu then None else p_idle_service_effective p)
    (p_systemd_active p) (if live_pid p then p_main_pid p else None) (p_semantic_health p)
    (if cpu then None else p_model_resident p) (p_dispatcher_registered p) (age_ms p now)
    (blocked.*2) (blocked.*1).

End Reducer.

(** What two snapshots are compared on. *)
Definition _semantic (m : MemberSnapshot) : MemberSnapshot :=
  m ⟪ observed_at := 0 ⟫ ⟪ snapshot_age_ms := 0 ⟫ ⟪ m_state_version := 0 ⟫.

Definition reduce_member_readiness (name : string) (c : MemberConfig) (p : Probes) (now : time)
    (freshness_ms : Z) (previous : option MemberSnapshot) : MemberSnapshot :=
  match previous with
  | None => candidate c p now freshness_ms name 0
  | Some prev =>
      let next := candidate c p now freshness_ms name (m_generation_fence prev) in
      next ⟪ m_state_version := m_state_version prev
                                + (if decide (_semantic prev = _semantic next) then 0 else 1) ⟫
  end.

(** ** Fail-closed *)

Lemma when_none b r d : when b r d = None <-> b = false.
Proof. by destruct b. Qed.

Lemma block_first r d : block [] (Some (r, d)) = [(r, d)].
Proof. unfold block. by rewrite decide_False by apply not_elem_of_nil. Qed.

Lemma block_keeps acc f : acc <> [] -> block acc f <> [].
Proof. destruct f as [[r d]|]; cbn; [|done]. case_decide; [done|]. by destruct acc. Qed.

Lemma block_nonempty acc fs : acc <> [] -> fold_left block fs acc <> [].
Proof.
  revert acc. induction fs as [|f fs IH]; intros acc Hacc; cbn [fold_left]; [done|].
  by apply IH, block_keeps.
Qed.

Lemma blocked_nil fs : fold_left block fs [] = [] <-> Forall (fun f => f = None) fs.
Proof.
  induction fs as [|f fs IH]; [by split|]. rewrite Forall_cons, <- IH. cbn [fold_left].
  destruct f as [[r d]|]; [|cbn [block]; tauto]. rewrite block_first.
  split; [|by intros [[=] _]]. intros H. exfalso. by apply (block_nonempty [(r, d)] fs).
Qed.

(** What the reducer takes as proof that a probe answered. *)
Definition healthy_answer (p : Probes) : Prop := probe_finding p = None.

Lemma healthy_answer_spec p :
  healthy_answer p -> p_probe_error p = Some "systemd_error" \/ p_semantic_health p = true.
Proof.
  unfold healthy_answer, probe_finding. destruct (p_probe_error p) as [e|].
  - case_bool_decide; [done|]. destruct (String.eqb e "probe_timeout"); [done|].
    destruct (String.eqb e "server_disconnected"); [done|]. destruct (String.prefix _ _); [done|].
    destruct (String.eqb e "bad_json"); [done|].
    destruct (String.eqb_spec e "systemd_error") as [->|]; [by left|].
    destruct (String.eqb e "probe_unknown"); [done|]. rewrite when_none. intros Hh. right. by bool_prop.
  - rewrite when_none. intros Hh. right. by bool_prop.
Qed.

Lemma gpu_findings_none c p :
  Forall (fun f => f = None) (gpu_findings c p) <->
  cpu_member c = true \/
  (opt_truthy (c_idle_service_configured c) = true /\ p_idle_service_effective p = Some true /\
   p_conflicting_bundle p = false /\ p_model_resident p = Some true).
Proof.
  unfold gpu_findings. destruct (cpu_member c); [split; [by left|constructor]|].
  rewrite !Forall_cons, Forall_nil, !when_none, !negb_false_iff. unfold is_true.
  rewrite !bool_decide_eq_true. naive_solver.
Qed.

Lemma findings_none c p now fr :
  blocked c p now fr = [] <->
  c_enabled c = true /\ age_ms p now <= fr /\
  (cpu_member c = true \/
   (opt_truthy (c_idle_service_configured c) = true /\ p_idle_service_effective p = Some true /\
    p_conflicting_bundle p = false /\ p_model_resident p = Some true)) /\
  (remote_member c = true \/ (p_systemd_active p = true /\ live_pid p = true)) /\
  healthy_answer p /\ p_dispatcher_registered p = true /\
  (forall free, free_slots c p now fr = Some free -> 0 < free).
Proof.
  unfold blocked. rewrite blocked_nil. unfold findings.
  rewrite !Forall_app, !Forall_cons, !Forall_nil, gpu_findings_none, !when_none, !negb_false_iff.
  assert (stale_probe p now fr = false <-> age_ms p now <= fr) as Hs by apply Z.ltb_ge.
  assert (negb (remote_member c) && (negb (p_systemd_active p) || negb (live_pid p)) = false <->
    remote_member c = true \/ (p_systemd_active p = true /\ live_pid p = true)) as Hd.
  { destruct (remote_member c), (p_systemd_active p), (live_pid p); naive_solver. }
  assert (match free_slots c p now fr with Some free => free <=? 0 | None => false end = false <->
    (forall free, free_slots c p now fr = Some free -> 0 < free)) as Hf.
  { destruct (free_slots c p now fr) as [free|]; [|naive_solver].
    rewrite Z.leb_gt. split; [by intros ? ? [= <-]|auto]. }
  rewrite Hs, Hd, Hf. unfold healthy_answer. tauto.
Qed.

(** A member is published as accepting work exactly when everything is
    proved: enabled, fresh telemetry, for a graphics member an effective idle
    service with the model resident and no conflicting bundle, a live unit
    unless it is remote, a probe answer, a dispatcher registration, and a free
    slot by the configuration, the backend and the leases; READY_ACCEPTING is
    that and nothing else, and a new snapshot keeps the generation fence and
    moves the version by one exactly when something but its time changed. *)
Theorem accepting_exactly_when_proved name c p now fr previous :
  let m := reduce_member_readiness name c p now fr previous in
  (accepting m = true <->
     c_enabled c = true /\ age_ms p now <= fr /\
     (cpu_member c = true \/
      (opt_truthy (c_idle_service_configured c) = true /\ p_idle_service_effective p = Some true /\
       p_conflicting_bundle p = false /\ p_model_resident p = Some true)) /\
     (remote_member c = true \/ (p_systemd_active p = true /\ live_pid p = true)) /\
     healthy_answer p /\ p_dispatcher_registered p = true /\
     exists total busy, p_backend_slots_total p = Some total /\ p_backend_slots_busy p = Some busy /\
       busy < total /\ 0 < config_slots c /\ leases_seen p < config_slots c) /\
  (m_state m = READY_ACCEPTING <-> accepting m = true) /\
  (forall prev, previous = Some prev ->
     m_generation_fence m = m_generation_fence prev /\
     (m_state_version m = m_state_version prev <-> _semantic prev = _semantic m) /\
     (m_state_version m = m_state_version prev \/ m_state_version m = m_state_version prev + 1)).
Proof.
  intros m. assert (accepting m = accepts_work c p now fr) as Ha by by destruct previous.
  assert (m_state m = readiness_state c p now fr) as Hst by by destruct previous.
  rewrite Ha, Hst. split_and!.
  - unfold accepts_work. split.
    + destruct (blocked c p now fr) eqn:Hb; [|done]. apply findings_none in Hb as (? & Hage & ? & ? & ? & ? & _).
      unfold free_slots, stale_probe. rewrite (proj2 (Z.ltb_ge _ _) Hage).
      destruct (p_backend_slots_total p) as [total|], (p_backend_slots_busy p) as [busy|]; try done.
      cbn. intros Hfree%Z.ltb_lt. split_and!; [done..|]. exists total, busy. split_and!; [done|done|lia..].
    + intros (? & Hage & ? & ? & ? & ? & total & busy & Ht & Hb & ? & ? & ?).
      assert (free_slots c p now fr = Some (Z.min (config_slots c)
        (Z.min (Z.max 0 (total - busy)) (Z.max 0 (config_slots c - leases_seen p))))) as Hf.
      { unfold free_slots, stale_probe. by rewrite (proj2 (Z.ltb_ge _ _) Hage), Ht, Hb. }
      assert (blocked c p now fr = []) as ->.
      { apply findings_none. split_and!; try done. rewrite Hf. intros free [= <-]. lia. }
      rewrite Hf. cbn. lia.
  - unfold readiness_state. destruct (accepts_work c p now fr); [done|].
    destruct (bool_decide _ && _); [done|]. by destruct (existsb _ _).
  - intros prev ->. subst m. unfold reduce_member_readiness. cbn -[decide _semantic].
    split_and!; [done| |case_decide; lia].
    case_decide as Hd; [split; [intros _; exact Hd|lia]|]. split; [lia|]. intros Hd'. by destruct Hd.
Qed.

(** An unrelated [systemd_error] hides a failed health probe of a member that
    has no local unit. *)
Example systemd_error_hides_health :
  let c := mkMemberConfig true None true (Some (Some 1)) None None (Some "openai_compatible") None [] in
  let p := mkProbes (Some 0) None None false false None false (Some "systemd_error") true
             (Some 1) (Some 0) None None in
  m_state (reduce_member_readiness "m" c p 0 5000 None) = READY_ACCEPTING.
Proof. reflexivity. Qed.

(** ** Rejoin *)

Definition no_blockers (m : MemberSnapshot) : bool :=
  match blockers m, reason_codes m with [], [] => true | _, _ => false end.

(** [MemberRejoinCoordinator.rejoin]; the repository is kept when it raises. *)
Definition rejoin (r : Repo) (name : string) (expected fence : Z) (readiness : MemberSnapshot)
    : result BrokerError MemberSnapshot * Repo :=
  match
    o ← get_member r name;
    match o with None => Err (ContractError "UNKNOWN_MEMBER") | Some current => Ok current end
  with
  | Err e => (Err e, r)
  | Ok current =>
      if bool_decide (m_state current = READY_ACCEPTING) && accepting current then (Ok current, r)
      else
        match
          guard (bool_decide (m_state current = JOINING) || (m_generation_fence current <? fence))
            (ContractError "GENERATION_FENCE_STALE");;
          guard (String.eqb (m_name readiness) name) (ContractError "READINESS_MEMBER_MISMATCH");;
          guard (negb (opt_truthy (gpu_id readiness)) || is_true (idle_service_effective readiness))
            (ContractError "MEMBER_IDLE_SERVICE_NOT_EFFECTIVE");;
          guard (bool_decide (m_state readiness = READY_ACCEPTING) && accepting readiness)
            (ContractError "MEMBER_NOT_READY");;
          guard (no_blockers readiness) (ContractError "MEMBER_NOT_READY");;
          if bool_decide (m_state current = JOINING) then
            guard (expected =? m_state_version current) (ReservationStale "RESERVATION_STATE_STALE");;
            Ok (current, r)
          else begin_member_rejoin r name expected fence
        with
        | Err e => (Err e, r)
        | Ok (joining, r1) =>
            match complete_member_rejoin r1 name (m_state_version joining) readiness with
            | Ok (ready, r2) => (Ok ready, r2)
            | Err e => (Err e, r1)
            end
        end
  end.

(** ** Drain *)

Record DrainResult := mkDrainResult {
  dr_member : MemberSnapshot; drained : bool; dr_lease_count : Z; dr_blockers : list string }.

Definition lease_blocker (n : Z) : string := "member_leases:" +:+ pretty n.

Definition drainable (s : MemberState) : bool :=
  match s with READY_ACCEPTING | JOINING | UNHEALTHY => true | _ => false end.

(** The bounded rebase on a stale version; [tries] attempts are left. *)
Fixpoint begin_attempts (tries : nat) (r : Repo) (name : string) (version : Z) (retry_stale : bool)
    : result BrokerError (MemberSnapshot * Repo) :=
  match begin_member_drain r name version with
  | Err (ReservationStale code) =>
      match tries with
      | S (S _ as tries') =>
          if retry_stale then
            match _members r !! name with
            | Some current =>
                if drainable (m_state current)
                then begin_attempts tries' r name (m_state_version current) retry_stale
                else Err (ReservationStale code)
            | None => Err (ReservationStale code)
            end
          else Err (ReservationStale code)
      | _ => Err (ReservationStale code)
      end
  | other => other
  end.

Fixpoint complete_attempts (tries : nat) (r : Repo) (name : string) (version : Z) (retry_stale : bool)
    : result BrokerError (MemberSnapshot * Repo) :=
  match complete_member_drain r name version with
  | Err (ReservationStale code) =>
      match tries with
      | S (S _ as tries') =>
          if retry_stale then
            match _members r !! name with
            | Some refreshed =>
                if bool_decide (m_state refreshed = DRAINING) && (lease_total r name =? 0)
                then complete_attempts tries' r name (m_state_version refreshed) retry_stale
                else Err (ReservationStale code)
            | None => Err (ReservationStale code)
            end
          else Err (ReservationStale code)
      | _ => Err (ReservationStale code)
      end
  | other => other
  end.

(** The waiting loop: each element is the clock when the loop looks at it and
    what other tasks do until the next look; [None] is still waiting. *)
Fixpoint drain_wait (r : Repo) (name : string) (draining : MemberSnapshot) (deadline : time)
    (retry_stale : bool) (schedule : list (time * list RepoOp))
    : option (result BrokerError DrainResult * Repo) :=
  match lease_count r name with
  | Err e => Some (Err e, r)
  | Ok n =>
      let current := default draining (_members r !! name) in
      if n =? 0 then
        Some (match complete_attempts 3 r name (m_state_version current) retry_stale with
              | Ok (offline, r') => (Ok (mkDrainResult offline true 0 []), r')
              | Err e => (Err e, r)
              end)
      else
        match schedule with
        | [] => None
        | (now, ops) :: schedule' =>
            if deadline - now <=? 0 then Some (Ok (mkDrainResult current false n [lease_blocker n]), r)
            else drain_wait (run_repos r ops) name draining deadline retry_stale schedule'
        end
  end.

Definition begin_and_wait (r : Repo) (name : string) (expected : Z) (timeout now : time)
    (retry_stale : bool) (schedule : list (time * list RepoOp))
    : option (result BrokerError DrainResult * Repo) :=
  match
    guard (0 <=? timeout) ValueError;;
    o ← get_member r name;
    match o with None => Err (ContractError "UNKNOWN_MEMBER") | Some current => Ok current end
  with
  | Err e => Some (Err e, r)
  | Ok current =>
      if bool_decide (m_state current = OFFLINE) then
        let n := lease_total r name in
        Some (Ok (mkDrainResult current (n =? 0) n (if n =? 0 then [] else [lease_blocker n])), r)
      else
        match begin_attempts 3 r name expected retry_stale with
        | Err e => Some (Err e, r)
        | Ok (draining, r1) => drain_wait r1 name draining (now + timeout) retry_stale schedule
        end
  end.

(** ** What the coordinators guarantee *)

Lemma complete_drain_ok r name v m r' :
  complete_member_drain r name v = Ok (m, r') ->
  m_state m = OFFLINE /\ _members r' !! name = Some m /\ member_leases r' name = ∅.
Proof.
  unfold complete_member_drain. destruct (member_at r name v) as [cur|] eqn:Hm; cbn; [|done].
  intros H. inv_ok. bool_prop. simplify_eq. split_and!; [done| |done].
  by rewrite members_set, decide_True.
Qed.

Lemma complete_attempts_ok tries r name v retry m r' :
  complete_attempts tries r name v retry = Ok (m, r') ->
  m_state m = OFFLINE /\ _members r' !! name = Some m /\ member_leases r' name = ∅.
Proof.
  revert v. induction tries as [|tries IH]; intros v; cbn [complete_attempts];
    (destruct (complete_member_drain r name v) as [[m1 r1]|e] eqn:Hc;
      [intros [= <- <-]; by eapply complete_drain_ok|]); [by destruct e|].
  destruct e; try done. destruct tries as [|tries]; [done|]. destruct retry; [|done].
  destruct (_members r !! name) as [c|]; [|done]. destruct (_ && _); [|done]. apply IH.
Qed.

(** What a result of the wait says of the repository it leaves. *)
Definition result_true (name : string) (res : DrainResult) (r : Repo) : Prop :=
  if drained res then
    m_state (dr_member res) = OFFLINE /\ _members r !! name = Some (dr_member res) /\
    member_leases r name = ∅ /\ dr_lease_count res = 0 /\ dr_blockers res = []
  else
    dr_lease_count res = lease_total r name /\ 0 < dr_lease_count res /\
    dr_blockers res = [lease_blocker (dr_lease_count res)].

Lemma drain_wait_result r name d deadline retry sched res r' :
  drain_wait r name d deadline retry sched = Some (Ok res, r') -> result_true name res r'.
Proof.
  revert r. induction sched as [|[now ops] sched IH]; intros r; cbn [drain_wait];
    unfold lease_count, _require_available, guard; destruct (available r); cbn [mbind result_bind]; try done;
    (destruct (Z.eqb_spec (lease_total r name) 0) as [Hz|Hz];
      [intros H; destruct (complete_attempts _ _ _ _ _) as [[m r1]|e] eqn:Hc; simplify_eq;
       apply complete_attempts_ok in Hc as (? & ? & ?); by split_and!|]); [done|].
  destruct (deadline - now <=? 0); [|apply IH]. intros [= <- <-]. split_and!; [done| |done].
  cbn. unfold lease_total in *. lia.
Qed.

Lemma offline_result r name cur :
  _members r !! name = Some cur -> m_state cur = OFFLINE ->
  let n := lease_total r name in
  result_true name (mkDrainResult cur (n =? 0) n (if n =? 0 then [] else [lease_blocker n])) r.
Proof.
  intros Hm Hoff n. unfold result_true. cbn. destruct (Z.eqb_spec n 0) as [Hn|Hn].
  - split_and!; try done. subst n. unfold lease_total in Hn.
    apply leibniz_equiv, size_empty_inv. lia.
  - split_and!; [done| |done]. subst n. unfold lease_total in *. lia.
Qed.

(** What a drain request reports is so: drained means the member is
    OFFLINE in the repository (or was before) with no lease, and not drained
    comes with the exact positive number of leases still held, whatever other
    tasks did while it waited; and the wait ends, since it reports at the
    latest when its clock passes the deadline. *)
Theorem drain_coordinator_sound r name expected timeout now retry schedule :
  (forall res r', begin_and_wait r name expected timeout now retry schedule = Some (Ok res, r') ->
     result_true name res r') /\
  (forall late ops, (late, ops) ∈ schedule -> now + timeout <= late ->
     is_Some (begin_and_wait r name expected timeout now retry schedule)).
Proof.
  split.
  - intros res r' H. unfold begin_and_wait in H.
    destruct (guard (0 <=? timeout) _) as [[]|]; cbn [mbind result_bind] in H; [|by simplify_eq].
    unfold get_member, _require_available, guard in H.
    destruct (available r); cbn [mbind result_bind] in H; [|by simplify_eq].
    destruct (_members r !! name) as [cur|] eqn:Hcur; [|by simplify_eq].
    case_bool_decide as Hoff.
    { injection H as <- <-. by apply offline_result. }
    destruct (begin_attempts 3 r name expected retry) as [[d r1]|]; [|by simplify_eq].
    by eapply drain_wait_result.
  - intros late ops Hin Hlate. unfold begin_and_wait.
    destruct (guard (0 <=? timeout) _ ≫= _) as [cur|]; [|by eexists].
    case_bool_decide; [by eexists|].
    destruct (begin_attempts 3 r name expected retry) as [[d r1]|]; [|by eexists].
    generalize dependent r1. induction schedule as [|[t ops'] schedule IH]; intros r1;
      [by apply not_elem_of_nil in Hin|]. cbn [drain_wait].
    destruct (lease_count r1 name) as [n|]; [|by eexists]. destruct (n =? 0); [by eexists|].
    destruct (Z.leb_spec (now + timeout - t) 0); [by eexists|].
    apply elem_of_cons in Hin as [Heq|Hin]; [simplify_eq; lia|]. by apply IH.
Qed.

Lemma rejoin_complete_ok r name v readiness m r' :
  complete_member_rejoin r name v readiness = Ok (m, r') ->
  exists cur, _members r !! name = Some cur /\ m = rejoined_member cur readiness /\
    _members r' !! name = Some m.
Proof.
  unfold complete_member_rejoin. destruct (member_at r name v) as [cur|] eqn:Hm; cbn; [|done].
  intros H. inv_ok. simplify_eq. apply member_at_ok in Hm as [Hm _]. exists cur.
  split_and!; [done|done|]. by rewrite members_set, decide_True.
Qed.

Lemma begin_rejoin_ok r name v fence m r' :
  begin_member_rejoin r name v fence = Ok (m, r') ->
  exists cur, _members r !! name = Some cur /\ m_generation_fence cur < fence /\
    m_state_version cur = v /\ m = joining_member cur fence /\ _members r' !! name = Some m.
Proof.
  unfold begin_member_rejoin. destruct (member_at r name v) as [cur|] eqn:Hm; cbn; [|done].
  intros H. inv_ok. bool_prop. simplify_eq. apply member_at_ok in Hm as [Hm <-]. exists cur.
  split_and!; [done..|]. by rewrite members_set, decide_True.
Qed.

(** A member comes back only on proof: a rejoin that is granted either
    found it accepting already and changed nothing, or was given a readiness
    snapshot of that member that accepts work without blockers, with an
    effective idle service if it has a graphics card; then the member is
    READY_ACCEPTING in the repository under a strictly newer generation than
    before, or under the generation of the rejoin it completes. *)
Theorem rejoin_needs_proof r name expected fence readiness m r' :
  rejoin r name expected fence readiness = (Ok m, r') ->
  exists cur, _members r !! name = Some cur /\ _members r' !! name = Some m /\
    m_state m = READY_ACCEPTING /\ accepting m = true /\
    (r' = r \/
     (m_name readiness = name /\ m_state readiness = READY_ACCEPTING /\ accepting readiness = true /\
      blockers readiness = [] /\ reason_codes readiness = [] /\
      (opt_truthy (gpu_id readiness) = true -> idle_service_effective readiness = Some true) /\
      (m_state cur = JOINING /\ expected = m_state_version cur /\
         m_generation_fence m = m_generation_fence cur \/
       m_generation_fence cur < fence /\ m_generation_fence m = fence))).
Proof.
  unfold rejoin, get_member, _require_available, guard.
  destruct (available r); cbn [mbind result_bind]; [|done].
  destruct (_members r !! name) as [cur|] eqn:Hcur; [|done].
  destruct (bool_decide (m_state cur = READY_ACCEPTING) && accepting cur) eqn:Hrdy.
  { intros [= <- <-]. bool_prop. exists cur. split_and!; [done..|by left]. }
  destruct (_ || (m_generation_fence cur <? fence)) eqn:Hg1; cbn [mbind result_bind]; [|done].
  destruct (String.eqb_spec (m_name readiness) name) as [Hn|]; cbn [mbind result_bind]; [|done].
  destruct (negb _ || is_true _) eqn:Hg2; cbn [mbind result_bind]; [|done].
  destruct (bool_decide _ && accepting readiness) eqn:Hg3; cbn [mbind result_bind]; [|done].
  destruct (no_blockers readiness) eqn:Hg4; cbn [mbind result_bind]; [|done].
  assert (opt_truthy (gpu_id readiness) = true -> idle_service_effective readiness = Some true) as Hgpu.
  { intros Hgpu. rewrite Hgpu in Hg2. cbn in Hg2. unfold is_true in Hg2. by bool_prop. }
  assert (blockers readiness = [] /\ reason_codes readiness = []) as [Hb Hrc].
  { unfold no_blockers in Hg4. by destruct (blockers readiness), (reason_codes readiness). }
  bool_prop. case_bool_decide as Hj.
  - destruct (Z.eqb_spec expected (m_state_version cur)) as [->|]; cbn [mbind result_bind]; [|done].
    destruct (complete_member_rejoin r name _ readiness) as [[ready r2]|] eqn:Hc; [|done].
    intros [= <- <-]. apply rejoin_complete_ok in Hc as (cur' & Hcur' & -> & Hm).
    rewrite Hcur in Hcur'. injection Hcur' as <-. exists cur.
    split_and!; [done..|]. right. split_and!; try done. by left.
  - destruct (begin_member_rejoin r name expected fence) as [[joining r1]|] eqn:Hbeg; [|done].
    apply begin_rejoin_ok in Hbeg as (cur' & Hcur' & Hf & Hv & -> & Hm1).
    rewrite Hcur in Hcur'. injection Hcur' as <-.
    destruct (complete_member_rejoin r1 name _ readiness) as [[ready r2]|] eqn:Hc; [|done].
    intros [= <- <-]. apply rejoin_complete_ok in Hc as (cur' & Hcur' & -> & Hm).
    rewrite Hm1 in Hcur'. injection Hcur' as <-. exists cur.
    split_and!; [done..|]. right. split_and!; try done. by right.
Qed.

(** A snapshot the reducer publishes as accepting passes the rejoin checks. *)
Lemma proved_readiness_rejoins r name cur fence c p now fr previous :
  let readiness := reduce_member_readiness name c p now fr previous in
  available r = true -> _members r !! name = Some cur ->
  JOINING ∈ _ALLOWED_MEMBER_TRANSITIONS (m_state cur) -> m_generation_fence cur < fence ->
  accepting readiness = true -> (c_cpu_only c = true -> opt_truthy (c_gpu_id c) = false) ->
  exists m r', rejoin r name (m_state_version cur) fence readiness = (Ok m, r') /\
    m_state m = READY_ACCEPTING /\ m_generation_fence m = fence.
Proof.
  intros readiness Hav Hcur Hjoin Hf Hacc Hcpu.
  destruct (accepting_exactly_when_proved name c p now fr previous) as (Hiff & Hst & _).
  fold readiness in Hiff, Hst. apply Hst in Hacc as Hready. apply Hiff in Hacc as Hall.
  destruct Hall as (_ & _ & Hgpu & _).
  assert (blocked c p now fr = []) as Hb.
  { assert (accepts_work c p now fr = true) as Ha by by (subst readiness; destruct previous).
    unfold accepts_work in Ha. by destruct (blocked c p now fr). }
  assert (m_name readiness = name) as Hn by by (subst readiness; destruct previous).
  assert (no_blockers readiness = true) as Hnb.
  { assert (blockers readiness = (blocked c p now fr).*2) as Hbl by by (subst readiness; destruct previous).
    assert (reason_codes readiness = (blocked c p now fr).*1) as Hrc by by (subst readiness; destruct previous).
    unfold no_blockers. by rewrite Hbl, Hrc, Hb. }
  assert (negb (opt_truthy (gpu_id readiness)) || is_true (idle_service_effective readiness) = true) as Hid.
  { assert (gpu_id readiness = c_gpu_id c) as -> by by (subst readiness; destruct previous).
    assert (idle_service_effective readiness = if cpu_member c then None else p_idle_service_effective p)
      as -> by by (subst readiness; destruct previous).
    destruct (opt_truthy (c_gpu_id c)) eqn:Hg; [|done]. unfold cpu_member in *. rewrite Hg in *.
    destruct (c_cpu_only c); [by specialize (Hcpu eq_refl)|]. cbn in *.
    destruct Hgpu as [?|(_ & -> & _)]; done. }
  unfold rejoin, get_member, _require_available, guard. rewrite Hav, Hcur. cbn [mbind result_bind].
  assert (m_state cur <> READY_ACCEPTING /\ m_state cur <> JOINING) as [Hs1 Hs2].
  { split; intros Hs; rewrite Hs in Hjoin; set_solver. }
  rewrite (bool_decide_false (m_state cur = READY_ACCEPTING)), (bool_decide_false (m_state cur = JOINING)) by done.
  cbn [andb orb]. rewrite (proj2 (Z.ltb_lt _ _) Hf), Hn, String.eqb_refl, Hid, Hnb, Hready, Hacc.
  cbn [mbind result_bind]. rewrite bool_decide_true by done. cbn [andb mbind result_bind].
  unfold begin_member_rejoin, member_at, _require_available, guard. rewrite Hav, Hcur.
  cbn [mbind result_bind]. rewrite Z.eqb_refl. cbn [mbind result_bind].
  rewrite (proj2 (Z.ltb_lt _ _) Hf). cbn [mbind result_bind].
  unfold validate_member_transition, guard. rewrite bool_decide_true by done. cbn [mbind result_bind].
  unfold complete_member_rejoin, member_at, _require_available, guard.
  cbn [available set_member replace_field update_field]. rewrite members_set, decide_True by done.
  eexists _, _. split; [|split].
  - cbn. rewrite Hav. cbn. by rewrite Z.eqb_refl.
  - done.
  - done.
Qed.

(** ** Witnesses *)
Module ReadinessDemo.

Definition config : MemberConfig :=
  mkMemberConfig true (Some "gpu0") false (Some (Some 2)) None (Some "idle.service") None (Some 8192) ["chat"].

Definition probes : Probes :=
  mkProbes (Some (seconds 10)) (Some true) (Some true) false true (Some 42) true None true
    (Some 2) (Some 0) None None.

(** [m1] is offline at version 3. *)
Definition offline : Repo := run_repos Demo.ready [RBeginDrain "m1" 1; RCompleteDrain "m1" 2].

End ReadinessDemo.

Lemma accepting_exactly_when_proved_witness :
  accepting (reduce_member_readiness "m1" ReadinessDemo.config ReadinessDemo.probes (seconds 11) 5000 None) = true.
Proof.
  apply (proj2 (proj1 (accepting_exactly_when_proved "m1" ReadinessDemo.config ReadinessDemo.probes
    (seconds 11) 5000 None))).
  split_and!; try by vm_compute; try (right; by vm_compute).
  exists 2, 0. by vm_compute.
Defined.

Lemma drain_coordinator_sound_witness :
  is_Some (begin_and_wait MemberDemo.held "m1" 1 (seconds 5) 0 false [(seconds 5, [])]).
Proof.
  apply (proj2 (drain_coordinator_sound MemberDemo.held "m1" 1 (seconds 5) 0 false [(seconds 5, [])])
    (seconds 5) []); [by left|done].
Defined.

Lemma rejoin_needs_proof_witness :
  exists cur, _members ReadinessDemo.offline !! "m1" = Some cur /\ m_generation_fence cur < 1.
Proof.
  destruct (rejoin ReadinessDemo.offline "m1" 3 1 (Demo.member "m1" 2)) as [[m|e] r'] eqn:H;
    [|by vm_compute in H].
  destruct (rejoin_needs_proof ReadinessDemo.offline "m1" 3 1 (Demo.member "m1" 2) m r' H)
    as (cur & Hcur & _). exists cur. split; [exact Hcur|].
  assert (m_generation_fence (MemberDemo.m1_in ReadinessDemo.offline) < 1) as Hlt by by vm_compute.
  unfold MemberDemo.m1_in in Hlt. by rewrite Hcur in Hlt.
Defined.
