(* ===== verification/BrokerScripts.v ===== *)
(** * BrokerScripts: the Lua scripts of the Redis job repository

    Models [scripts/gemma_broker/lua/] and the three scripts written out in
    [redis_store.py].  A Redis key holds a typed value: a hash is a record of
    the fields some script or method reads, a sorted set maps its members to
    their scores, and the JSON text of a record is the record.  A script is one
    function of its arguments and the store; a script that answers with an
    error has written nothing.  Numbers travel as canonical decimal texts, so
    comparing the texts compares the numbers. *)

From S2P Require Import Prelude PyValue Broker BrokerRepo.

(** ** The store *)

Record AttemptRecord := mkAttemptRecord {
  att_id : string; att_job : string; att_member : string; reservation_fence : Z;
  backend_url : string; att_state : AttemptState; reserved_at : time;
  att_forward_started_at : option time; att_accepted_at : option time;
  terminal_at : option time; att_crossed : bool; error_category : option ReasonCode;
  transition_history : list string }.

#[export] Instance AttemptRecord_eta : Replaceable AttemptRecord := fun a =>
  mkAttemptRecord (att_id a) (att_job a) (att_member a) (reservation_fence a) (backend_url a)
    (att_state a) (reserved_at a) (att_forward_started_at a) (att_accepted_at a) (terminal_at a)
    (att_crossed a) (error_category a) (transition_history a).

(** The hash of a job; [jh_boundary] is the field [accepted_boundary_crossed]
    that [requeue_claim.lua] reads.  The fields [selected_member],
    [member_state_version], [queue_claimed_at] and [current_attempt_id] are
    written and never read. *)
Record JobHash := mkJobHash {
  jh_record : JobRecord; jh_state : JobState; jh_version : Z; jh_boundary : bool }.

(** The hash of an attempt; [ah_expires] when [EXPIRE] was set on it. *)
Record AttemptHash := mkAttemptHash {
  ah_record : AttemptRecord; ah_state : AttemptState; ah_job : string; ah_expires : bool }.

Record MemberHash := mkMemberHash {
  mh_record : MemberSnapshot; mh_state : MemberState; mh_accepting : bool; mh_version : Z;
  mh_fence : Z; mh_free : Z; mh_configured : Z }.

#[export] Instance MemberHash_eta : Replaceable MemberHash := fun m =>
  mkMemberHash (mh_record m) (mh_state m) (mh_accepting m) (mh_version m) (mh_fence m) (mh_free m)
    (mh_configured m).

Record RepairHash := mkRepairHash { rp_owner : string; rp_fence : Z; rp_completed : bool }.

Record Leader := mkLeader { ld_owner : string; ld_token : Z; ld_expires_at : time }.

Record Redis := mkRedis {
  r_jobs : gmap string JobHash;
  r_queues : JobPriority -> gmap string Z;
  r_idempotency : gmap (string * string) (string * string);
  r_members : gmap string MemberHash;
  r_leases : gmap string (gset string);
  r_attempts : gmap string AttemptHash;
  r_repairs : gmap string RepairHash;
  r_leader : option Leader;
  r_counter : Z }.

#[export] Instance Redis_eta : Replaceable Redis := fun r =>
  mkRedis (r_jobs r) (r_queues r) (r_idempotency r) (r_members r) (r_leases r) (r_attempts r)
    (r_repairs r) (r_leader r) (r_counter r).

Definition empty_redis : Redis := mkRedis ∅ (fun _ => ∅) ∅ ∅ ∅ ∅ ∅ None 0.

(** A reply, or the text of [{err=...}]. *)
Abbreviation reply := (result string) (only parsing).

(** ** Commands *)

Definition on_queue (r : Redis) (p : JobPriority) (q : gmap string Z) : Redis :=
  r ⟪ r_queues := fun p' => if decide (p' = p) then q else r_queues r p' ⟫.
Definition zadd (r : Redis) (p : JobPriority) (jid : string) (score : Z) : Redis :=
  on_queue r p (<[jid := score]> (r_queues r p)).
Definition zrem (r : Redis) (p : JobPriority) (jid : string) : Redis :=
  on_queue r p (delete jid (r_queues r p)).

(** [a] comes before [b] in a sorted set: by score, then by name. *)
Definition before (a b : string * Z) : bool :=
  (a.2 <? b.2) || ((a.2 =? b.2) && String.leb a.1 b.1).

(** [ZRANGE key 0 0] *)
Definition zhead (q : gmap string Z) : option string :=
  match map_to_list q with
  | [] => None
  | x :: xs => Some (fold_left (fun m y => if before m y then m else y) xs x).1
  end.

Definition set_job_hash (r : Redis) (jid : string) (h : JobHash) : Redis :=
  r ⟪ r_jobs := <[jid := h]> (r_jobs r) ⟫.
Definition set_member_hash (r : Redis) (name : string) (h : MemberHash) : Redis :=
  r ⟪ r_members := <[name := h]> (r_members r) ⟫.
Definition set_attempt_hash (r : Redis) (aid : string) (h : AttemptHash) : Redis :=
  r ⟪ r_attempts := <[aid := h]> (r_attempts r) ⟫.
Definition set_repair (r : Redis) (jid : string) (h : RepairHash) : Redis :=
  r ⟪ r_repairs := <[jid := h]> (r_repairs r) ⟫.

Definition lease_set (r : Redis) (name : string) : gset string := default ∅ (r_leases r !! name).
Definition scard (r : Redis) (name : string) : Z := Z.of_nat (size (lease_set r name)).
Definition sadd (r : Redis) (name aid : string) : Redis :=
  r ⟪ r_leases := <[name := lease_set r name ∪ {[aid]}]> (r_leases r) ⟫.
Definition srem (r : Redis) (name aid : string) : Redis :=
  r ⟪ r_leases := <[name := lease_set r name ∖ {[aid]}]> (r_leases r) ⟫.

(** [HSET job record .. state .. state_version ..] of an existing hash. *)
Definition hset_job (h : JobHash) (record : JobRecord) (state : JobState) (version : Z) : JobHash :=
  mkJobHash record state version (jh_boundary h).

(** [HSET attempt record .. state ..], and [EXPIRE] when [expire]. *)
Definition hset_attempt (h : AttemptHash) (record : AttemptRecord) (state : AttemptState) (expire : bool)
    : AttemptHash :=
  mkAttemptHash record state (ah_job h) (ah_expires h || expire).

(** ** Jobs *)

(** [submit_job.lua]; the first argument is the idempotency key. *)
Definition submit_script (r : Redis) (key : string * string) (stored : JobRecord)
    : reply (string * Redis) :=
  match r_idempotency r !! key with
  | Some (prior_job, prior_hash) =>
      guard (String.eqb prior_hash (request_sha256 stored)) "IDEMPOTENCY_KEY_REUSED";;
      Ok (prior_job, r)
  | None =>
      guard (negb (bool_decide (is_Some (r_jobs r !! job_id stored)))) "DUPLICATE_JOB_ID";;
      let r1 := r ⟪ r_idempotency := <[key := (job_id stored, request_sha256 stored)]> (r_idempotency r) ⟫ in
      let r2 := set_job_hash r1 (job_id stored) (mkJobHash stored QUEUED (state_version stored) false) in
      Ok (job_id stored, zadd r2 (base_priority stored) (job_id stored) (enqueue_sequence stored))
  end.

Record ReserveArgs := mkReserveArgs {
  ra_job : string; ra_priority : JobPriority; ra_member : string; ra_member_version : Z;
  ra_attempt : string; ra_claimed : JobRecord; ra_reserved : MemberSnapshot; ra_owner : string;
  ra_token : Z; ra_job_version : Z; ra_attempt_record : AttemptRecord; ra_leadership_now : time }.

Definition leads (r : Redis) (owner : string) (token : Z) (now : time) : bool :=
  match r_leader r with
  | Some l => String.eqb (ld_owner l) owner && (ld_token l =? token) && (now <? ld_expires_at l)
  | None => false
  end.

(** The configured slots of the hash, of its record when they are not positive. *)
Definition slots_of (m : MemberHash) : Z :=
  if mh_configured m <=? 0 then configured_slots (mh_record m) else mh_configured m.

Definition available_member (r : Redis) (name : string) (m : MemberHash) : bool :=
  bool_decide (mh_state m = READY_ACCEPTING) && mh_accepting m && (0 <? mh_free m)
  && (0 <? slots_of m) && (scard r name <? slots_of m).

(** The member after the claim, with [live] leases. *)
Definition claimed_member (m : MemberHash) (reserved : MemberSnapshot) (live : Z) : MemberHash :=
  let new_free := Z.max 0 (Z.min (mh_free m - 1) (slots_of m - live)) in
  m ⟪ mh_record :=
        reserved ⟪ m_state := mh_state m ⟫ ⟪ accepting := mh_accepting m ⟫
                 ⟪ m_state_version := mh_version m ⟫ ⟪ m_generation_fence := mh_fence m ⟫
                 ⟪ dispatcher_leases := live ⟫ ⟪ compatible_free_slots := Some new_free ⟫ ⟫
    ⟪ mh_free := new_free ⟫ ⟪ mh_configured := slots_of m ⟫.

(** [reserve_job.lua] *)
Definition reserve_script (r : Redis) (a : ReserveArgs) : reply Redis :=
  guard (leads r (ra_owner a) (ra_token a) (ra_leadership_now a)) "DISPATCHER_FENCE_STALE";;
  match r_members r !! ra_member a with
  | None => Err "RESERVATION_MEMBER_VERSION_STALE"
  | Some m =>
      guard (mh_version m =? ra_member_version a) "RESERVATION_MEMBER_VERSION_STALE";;
      guard (available_member r (ra_member a) m) "RESERVATION_MEMBER_UNAVAILABLE";;
      match r_jobs r !! ra_job a with
      | None => Err "JOB_NOT_QUEUED"
      | Some h =>
          guard (bool_decide (jh_state h = QUEUED)) "JOB_NOT_QUEUED";;
          guard (jh_version h =? ra_job_version a) "JOB_STATE_VERSION_STALE";;
          guard (bool_decide (zhead (r_queues r (ra_priority a)) = Some (ra_job a))) "QUEUE_HEAD_STALE";;
          guard (negb (bool_decide (is_Some (r_attempts r !! ra_attempt a)))) "ATTEMPT_EXISTS";;
          let r1 := zrem r (ra_priority a) (ra_job a) in
          let r2 := set_job_hash r1 (ra_job a)
                      (hset_job h (ra_claimed a) CLAIMED (ra_job_version a + 1)) in
          let r3 := set_attempt_hash r2 (ra_attempt a)
                      (mkAttemptHash (ra_attempt_record a) RESERVED (ra_job a) false) in
          let r4 := sadd r3 (ra_member a) (ra_attempt a) in
          Ok (set_member_hash r4 (ra_member a)
                (claimed_member m (ra_reserved a) (scard r4 (ra_member a))))
      end
  end.

(** [cancel_queued.lua]; [false] is [already_not_queued]. *)
Definition cancel_script (r : Redis) (jid : string) (p : JobPriority) (expected : Z) (cancelled : JobRecord)
    : reply (bool * Redis) :=
  match r_jobs r !! jid with
  | None => Err "UNKNOWN_JOB_ID"
  | Some h =>
      if negb (bool_decide (jh_state h = QUEUED)) then Ok (false, r)
      else
        guard (jh_version h =? expected) "JOB_STATE_VERSION_STALE";;
        guard (bool_decide (is_Some (r_queues r p !! jid))) "REDIS_STATE_UNKNOWN";;
        Ok (true, set_job_hash (zrem r p jid) jid
                    (hset_job h cancelled CANCELLED (state_version cancelled)))
  end.

(** What [replace_job.lua] does to the attempt it is given. *)
Definition terminal_attempt (s : AttemptState) : bool :=
  match s with ATT_COMPLETED | ATT_FAILED | ATT_CANCELLED | ATT_OUTCOME_UNKNOWN => true | _ => false end.

(** [replace_job.lua]; no attempt is [update_attempt = 0]. *)
Definition replace_script (r : Redis) (job : JobRecord) (expected : Z) (attempt : option AttemptRecord)
    : reply Redis :=
  match r_jobs r !! job_id job with
  | None => Err "UNKNOWN_JOB_ID"
  | Some h =>
      guard (jh_version h =? expected) "JOB_STATE_VERSION_STALE";;
      guard (state_version job =? expected + 1) "JOB_STATE_VERSION_INVALID";;
      let r1 := set_job_hash r (job_id job) (hset_job h job (job_state job) (state_version job)) in
      match attempt with
      | None => Ok r1
      | Some a =>
          match r_attempts r !! att_id a with
          | None => Err "UNKNOWN_ATTEMPT_ID"
          | Some ah =>
              Ok (set_attempt_hash r1 (att_id a)
                    (hset_attempt ah a (att_state a) (terminal_attempt (att_state a))))
          end
      end
  end.

Record RequeueArgs := mkRequeueArgs {
  qa_expected : Z; qa_queued : JobRecord; qa_member : string; qa_expected_member : Z;
  qa_new_member : option MemberSnapshot; qa_attempt : string; qa_failed : AttemptRecord }.

Definition holds_claim (s : JobState) : bool :=
  match s with CLAIMED | ACCEPTED | IN_FLIGHT => true | _ => false end.

(** [HSET member record .. state .. accepting .. compatible_free_slots ..
    state_version .. generation_fence ..] of a snapshot. *)
Definition hset_member (m : MemberHash) (s : MemberSnapshot) (free : Z) : MemberHash :=
  mkMemberHash s (m_state s) (accepting s) (m_state_version s) (m_generation_fence s) free
    (mh_configured m).

(** [EXISTS] and [HGET state_version] of the member key; without a member name
    the key is the leader's, whose hash has no such field. *)
Definition key_version (r : Redis) (name : string) : option (option Z) :=
  if str_truthy name then (fun m => Some (mh_version m)) <$> r_members r !! name
  else (fun _ => None) <$> r_leader r.

(** [requeue_claim.lua].  Member hashes are never deleted, so a member that was
    not there to be read has no hash here either. *)
Definition requeue_script (r : Redis) (a : RequeueArgs) : reply Redis :=
  let jid := job_id (qa_queued a) in
  match r_jobs r !! jid with
  | None => Err "UNKNOWN_JOB_ID"
  | Some h =>
      guard (jh_version h =? qa_expected a) "JOB_STATE_VERSION_STALE";;
      guard (holds_claim (jh_state h)) "REQUEUE_INVALID_STATE";;
      guard (negb (jh_boundary h)) "CANCEL_UNSAFE_AFTER_ACCEPTANCE";;
      guard (match key_version r (qa_member a) with
             | Some v => bool_decide (v = Some (qa_expected_member a))
             | None => true
             end) "RESERVATION_STATE_STALE";;
      match r_attempts r !! qa_attempt a with
      | None => Err "UNKNOWN_ATTEMPT_ID"
      | Some ah =>
          guard (bool_decide (ah_state ah = RESERVED)) "ATTEMPT_STATE_STALE";;
          guard (String.eqb (ah_job ah) jid) "ATTEMPT_STATE_STALE";;
          let p := base_priority (qa_queued a) in
          let r1 := zadd r p jid (enqueue_sequence (qa_queued a)) in
          let r2 := set_job_hash r1 jid (hset_job h (qa_queued a) QUEUED (state_version (qa_queued a))) in
          let r3 :=
            match r_members r !! qa_member a, qa_new_member a with
            | Some m, Some s =>
                set_member_hash (srem r2 (qa_member a) (qa_attempt a)) (qa_member a)
                  (hset_member m s (int_or_0 (compatible_free_slots s)))
            | _, _ => r2
            end in
          Ok (set_attempt_hash r3 (qa_attempt a) (hset_attempt ah (qa_failed a) ATT_FAILED true))
      end
  end.

Record RepairArgs := mkRepairArgs {
  pa_job : string; pa_owner : string; pa_fence : Z; pa_expected : Z; pa_repaired : JobRecord; pa_priority : JobPriority;
  pa_member : string; pa_attempt : AttemptRecord }.

Inductive RepairReply := already_repaired | already_terminal | repaired.

(** [repair_dead_job.lua] *)
Definition repair_script (r : Redis) (a : RepairArgs) : reply (RepairReply * Redis) :=
  let jid := pa_job a in
  match r_jobs r !! jid with
  | None => Err "UNKNOWN_JOB_ID"
  | Some h =>
      if match r_repairs r !! jid with
         | Some p => rp_completed p || (pa_fence a <=? rp_fence p)
         | None => pa_fence a <=? 0
         end
      then Ok (already_repaired, r)
      else
        guard (jh_version h =? pa_expected a) "JOB_STATE_VERSION_STALE";;
        if negb (holds_claim (jh_state h)) then Ok (already_terminal, r)
        else
          let job := pa_repaired a in
          let r1 := set_job_hash r jid (hset_job h job (job_state job) (state_version job)) in
          let r2 := if decide (job_state job = QUEUED)
                    then zadd r1 (pa_priority a) jid (enqueue_sequence job) else r1 in
          let r3 := srem r2 (pa_member a) (att_id (pa_attempt a)) in
          let r4 :=
            match r_attempts r !! att_id (pa_attempt a) with
            | Some ah => set_attempt_hash r3 (att_id (pa_attempt a))
                           (hset_attempt ah (pa_attempt a) (att_state (pa_attempt a)) true)
            | None => r3
            end in
          Ok (repaired, set_repair r4 jid (mkRepairHash (pa_owner a) (pa_fence a) true))
  end.

(** ** Members *)

Inductive DrainMode := begin | release | release_v2 | complete | begin_rejoin | complete_rejoin.
#[export] Instance DrainMode_eq_dec : EqDecision DrainMode.
Proof. solve_decision. Defined.

Record DrainArgs := mkDrainArgs {
  da_mode : DrainMode; da_name : string; da_expected : Z; da_claimed : Z; da_attempt : string;
  da_updated : MemberSnapshot; da_configured : Z; da_backend_busy : Z }.

Definition drainable_state (s : MemberState) : bool :=
  match s with READY_ACCEPTING | READY_BUSY | JOINING | UNHEALTHY => true | _ => false end.

(** The checks of the mode. *)
Definition drain_checks (r : Redis) (a : DrainArgs) (m : MemberHash) : reply unit :=
  match da_mode a with
  | begin => guard (drainable_state (mh_state m)) "DRAIN_INVALID_STATE"
  | release =>
      guard (da_claimed a =? da_expected a) "RESERVATION_STATE_STALE";;
      guard (bool_decide (da_attempt a ∈ lease_set r (da_name a))) "LEASE_NOT_OWNED"
  | release_v2 => guard (bool_decide (da_attempt a ∈ lease_set r (da_name a))) "LEASE_NOT_OWNED"
  | complete =>
      guard (bool_decide (mh_state m = DRAINING)) "DRAIN_INVALID_STATE";;
      guard (scard r (da_name a) =? 0) "MEMBER_LEASES_REMAIN"
  | begin_rejoin =>
      guard (bool_decide (mh_state m = OFFLINE)) "REJOIN_INVALID_STATE";;
      guard (mh_fence m <? m_generation_fence (da_updated a)) "GENERATION_FENCE_STALE"
  | complete_rejoin =>
      guard (bool_decide (mh_state m = JOINING)) "REJOIN_INVALID_STATE";;
      guard (scard r (da_name a) =? 0) "MEMBER_LEASES_REMAIN"
  end.

(** The free slots a release advertises. *)
Definition release_free (a : DrainArgs) (live : Z) : Z :=
  if decide (m_state (da_updated a) = DRAINING) then 0
  else if 0 <? da_configured a then
    Z.min (da_configured a)
      (Z.min (Z.max 0 (da_configured a - da_backend_busy a)) (Z.max 0 (da_configured a - live)))
  else int_or_0 (compatible_free_slots (da_updated a)).

(** [member_drain.lua]; the reply of a release is the lease count and the free
    slots. *)
Definition drain_script (r : Redis) (a : DrainArgs) : reply (option (Z * Z) * Redis) :=
  match r_members r !! da_name a with
  | None => Err "UNKNOWN_MEMBER"
  | Some m =>
      guard (bool_decide (da_mode a = release_v2) || (mh_version m =? da_expected a))
        "RESERVATION_STATE_STALE";;
      guard (m_state_version (da_updated a) =? da_expected a + 1) "MEMBER_STATE_VERSION_INVALID";;
      drain_checks r a m;;
      if bool_decide (da_mode a = release) || bool_decide (da_mode a = release_v2) then
        let r1 := srem r (da_name a) (da_attempt a) in
        let live := scard r1 (da_name a) in
        let free := release_free a live in
        let s := (da_updated a) ⟪ dispatcher_leases := live ⟫ ⟪ compatible_free_slots := Some free ⟫ in
        Ok (Some (live, free), set_member_hash r1 (da_name a) (hset_member m s free))
      else
        Ok (None, set_member_hash r (da_name a)
                    (hset_member m (da_updated a) (int_or_0 (compatible_free_slots (da_updated a)))))
  end.

Record RefreshArgs := mkRefreshArgs {
  fa_record : MemberSnapshot; fa_state : MemberState; fa_accepting : bool; fa_version : Z; fa_fence : Z;
  fa_free : Z }.

(** [REFRESH_MEMBER_MIRROR_LUA] *)
Definition refresh_script (r : Redis) (a : RefreshArgs) : (Z * Z) * Redis :=
  let name := m_name (fa_record a) in
  let live := scard r name in
  let current_free := match r_members r !! name with Some m => mh_free m | None => -1 end in
  let free := if (0 <? live) && (0 <=? current_free) then current_free else fa_free a in
  let s := (fa_record a) ⟪ dispatcher_leases := live ⟫ ⟪ compatible_free_slots := Some free ⟫ in
  ((live, free),
   set_member_hash r name
     (mkMemberHash s (fa_state a) (fa_accepting a) (fa_version a) (fa_fence a) free (configured_slots s))).

(** [MEMBER_RESERVATION_VIEW_LUA] *)
Definition view_script (r : Redis) (name : string) : option (MemberHash * Z) :=
  (fun m => (m, scard r name)) <$> r_members r !! name.

(** ** Leadership *)

(** [acquire_leader.lua] *)
Definition acquire_script (r : Redis) (owner : string) (now ttl : time) : reply (Z * Redis) :=
  let grant :=
    let token := r_counter r + 1 in
    Ok (token, r ⟪ r_counter := token ⟫ ⟪ r_leader := Some (mkLeader owner token (now + ttl)) ⟫) in
  match r_leader r with
  | Some l =>
      if now <? ld_expires_at l then
        guard (String.eqb (ld_owner l) owner) "DISPATCHER_LEASE_HELD";; Ok (ld_token l, r)
      else grant
  | None => grant
  end.

(** [renew_leader.lua] *)
Definition renew_script (r : Redis) (owner : string) (token : Z) (now ttl : time) : reply (Z * Redis) :=
  guard (leads r owner token now) "DISPATCHER_FENCE_STALE";;
  Ok (token, r ⟪ r_leader := Some (mkLeader owner token (now + ttl)) ⟫).
