(* ===== verification/BrokerRedis.v ===== *)
(** * BrokerRedis: the Redis job repository

    Models [RedisJobRepository] of [scripts/gemma_broker/redis_store.py].  A
    method reads, computes, and runs one script; the reads and the script are
    separate round trips, so each method is a plan (a function of the store as
    each read finds it) and a script, and is composed of both on one store
    where nobody else acts in between.  Connection failures are not errors of
    the model: a script either runs or not.  [uuid4] and the clocks are
    arguments. *)

From S2P Require Import Prelude PyValue Broker BrokerRepo BrokerScripts.

(** A refused script, as the exception the method raises. *)
Definition on_error {A} (f : string -> BrokerError) (x : reply A) : result BrokerError A :=
  match x with Ok a => Ok a | Err e => Err (f e) end.

Definition stale_error (e : string) : BrokerError := ReservationStale e.

(** ** Reads *)

Definition get (r : Redis) (jid : string) : option JobRecord := jh_record <$> r_jobs r !! jid.
Definition get_attempt (r : Redis) (aid : string) : option AttemptRecord := ah_record <$> r_attempts r !! aid.
Definition get_member (r : Redis) (name : string) : option MemberSnapshot := mh_record <$> r_members r !! name.
Definition lease_count (r : Redis) (name : string) : Z := scard r name.
Definition queue_total (r : Redis) : Z :=
  foldr Z.add 0 ((fun p => Z.of_nat (size (r_queues r p))) <$> all_priorities).

(** The view the reservation script decides on. *)
Definition get_reservation_member (r : Redis) (name : string)
    : result BrokerError (option MemberSnapshot) :=
  match view_script r name with
  | None => Ok None
  | Some (m, live) =>
      let s := mh_record m in
      guard (String.eqb (m_name s) name && (0 <=? mh_version m) && (0 <=? mh_fence m) && (0 <=? mh_free m)
             && (0 <=? mh_configured m)) RepositoryUnavailable;;
      Ok (Some (s ⟪ m_state := mh_state m ⟫ ⟪ accepting := mh_accepting m ⟫
                  ⟪ m_state_version := mh_version m ⟫ ⟪ m_generation_fence := mh_fence m ⟫
                  ⟪ configured_slots := mh_configured m ⟫ ⟪ compatible_free_slots := Some (mh_free m) ⟫
                  ⟪ dispatcher_leases := live ⟫))
  end.

(** The three reads of [_queue_head]: [ZRANGE], the record, and [ZSCORE] when
    the record is not queued. *)
Definition _queue_head (r_range r_record r_score : Redis) (p : JobPriority)
    : result BrokerError (option JobRecord) :=
  match zhead (r_queues r_range p) with
  | None => Ok None
  | Some jid =>
      match get r_record jid with
      | None => Err RepositoryUnavailable
      | Some job =>
          if bool_decide (job_state job = QUEUED) then Ok (Some job)
          else match r_queues r_score p !! jid with
               | None => Ok None
               | Some _ => Err RepositoryUnavailable
               end
      end
  end.

(** The stores the reads of each queue find. *)
Definition Reads : Type := JobPriority -> Redis * Redis * Redis.
Definition at_once (r : Redis) : Reads := fun _ => (r, r, r).

Fixpoint heads_of (reads : Reads) (ps : list JobPriority) : result BrokerError (list JobRecord) :=
  match ps with
  | [] => Ok []
  | p :: ps' =>
      let '(r1, r2, r3) := reads p in
      head ← _queue_head r1 r2 r3 p;
      rest ← heads_of reads ps';
      Ok (match head with Some job => job :: rest | None => rest end)
  end.

(** The key of [min]; [aging_seconds] is positive from [__init__] on. *)
Definition job_key (aging now : time) (job : JobRecord) : Z * Z :=
  (match effective_priority (base_priority job) (submitted_at job) now aging with
   | Ok p => p | Err _ => 0 end, enqueue_sequence job).

Definition peek_next (aging : time) (reads : Reads) (now : time) : result BrokerError (option JobRecord) :=
  heads ← heads_of reads all_priorities;
  match heads with
  | [] => Ok None
  | j :: js =>
      let selected := min_by_key (job_key aging now) j js in
      Ok (Some (selected ⟪ job_effective_priority := (job_key aging now selected).1 ⟫))
  end.

(** ** Submission *)

Definition stored_job (job : JobRecord) : JobRecord :=
  job ⟪ job_effective_priority := priority_value (base_priority job) ⟫.

Definition submit_error (jid e : string) : BrokerError :=
  if String.eqb e "IDEMPOTENCY_KEY_REUSED" then ContractError e
  else if String.eqb e "DUPLICATE_JOB_ID" then ContractError ("DUPLICATE_JOB_ID:" +:+ jid)
  else RepositoryUnavailable.

Definition submit (r : Redis) (job : JobRecord) (caller_scope : string)
    : result BrokerError (JobRecord * Redis) :=
  let stored := stored_job job in
  let key := (caller_scope, idempotency_key stored) in
  let known := bool_decide (is_Some (r_idempotency r !! key)) in
  answer ← on_error (submit_error (job_id stored)) (submit_script r key stored);
  if known then
    match get answer.2 answer.1 with
    | Some existing => Ok (existing, answer.2)
    | None => Err RepositoryUnavailable
    end
  else Ok (stored, answer.2).

(** ** Reservation *)

(** [AttemptRecord.__post_init__] on the attempt of a reservation. *)
Definition attempt_valid (a : AttemptRecord) : bool :=
  str_truthy (att_id a) && str_truthy (att_job a) && str_truthy (att_member a)
  && str_truthy (backend_url a) && (0 <? reservation_fence a).

Definition claim (selected : JobRecord) (m : MemberSnapshot) (aid : string) (now : time) : JobRecord :=
  selected ⟪ job_state := CLAIMED ⟫ ⟪ selected_member := Some (m_name m) ⟫
           ⟪ member_state_version := Some (m_state_version m) ⟫
           ⟪ attempt_count := attempt_count selected + 1 ⟫ ⟪ current_attempt_id := Some aid ⟫
           ⟪ queue_claimed_at := Some now ⟫ ⟪ state_version := state_version selected + 1 ⟫.

Definition taken_member (m : MemberSnapshot) : MemberSnapshot :=
  m ⟪ dispatcher_leases := dispatcher_leases m + 1 ⟫
    ⟪ compatible_free_slots := Some (Z.max 0 (int_or_0 (compatible_free_slots m) - 1)) ⟫.

Definition new_attempt (selected : JobRecord) (m : MemberSnapshot) (aid url : string) (token : Z)
    (now : time) : AttemptRecord :=
  mkAttemptRecord aid (job_id selected) (m_name m) token url RESERVED now None None None false None ["reserved"].

Definition reserve_args (selected : JobRecord) (m : MemberSnapshot) (aid url owner : string) (token : Z)
    (now leadership_now : time) : ReserveArgs :=
  mkReserveArgs (job_id selected) (base_priority selected) (m_name m) (m_state_version m) aid
    (claim selected m aid now) (taken_member m) owner token (state_version selected)
    (new_attempt selected m aid url token now) leadership_now.

(** What a refused reservation makes of the loop over the candidates. *)
Inductive LoopStep := Continue | ReturnNone | Raise (e : BrokerError).

Definition reserve_refused (e : string) : LoopStep :=
  if String.eqb e "DISPATCHER_FENCE_STALE" then Raise LeadershipLost
  else if String.eqb e "RESERVATION_MEMBER_VERSION_STALE" then Raise (ReservationStale "RESERVATION_STATE_STALE")
  else if String.eqb e "RESERVATION_MEMBER_UNAVAILABLE" then Continue
  else if String.eqb e "QUEUE_HEAD_STALE" then Raise (ReservationStale "QUEUE_HEAD_STALE")
  else if String.eqb e "JOB_STATE_VERSION_STALE" || String.eqb e "ATTEMPT_EXISTS"
       then Raise (ReservationStale "RESERVATION_STATE_STALE")
  else if String.eqb e "JOB_NOT_QUEUED" then ReturnNone
  else Raise RepositoryUnavailable.

Definition candidates (requirements : RequestRequirements) (ms : list MemberSnapshot) : list MemberSnapshot :=
  List.filter (fun m => accepting m && compatible (evaluate requirements m default_margin)) ms.

Record Granted := mkGranted { g_job : JobRecord; g_member : MemberSnapshot; g_attempt : AttemptRecord }.

(** The identities [uuid4] gives, the backend's address and the leadership. *)
Record Dispatcher := mkDispatcher {
  d_owner : string; d_token : Z; d_url : option string; d_uuid : nat -> string; d_now : time }.

Definition url_of (d : Dispatcher) (m : MemberSnapshot) : string :=
  let member_url := "member://" +:+ m_name m in
  match d_url d with Some u => py_or u member_url | None => member_url end.

(** The loop over the candidates; [n] numbers them. *)
Fixpoint reserve_loop (r : Redis) (d : Dispatcher) (selected : JobRecord) (now : time) (n : nat)
    (ms : list MemberSnapshot) (stale_seen : bool) : result BrokerError (option Granted * Redis) :=
  match ms with
  | [] => if stale_seen then Err (ReservationStale "RESERVATION_STATE_STALE") else Ok (None, r)
  | m :: ms' =>
      let a := reserve_args selected m (d_uuid d n) (url_of d m) (d_owner d) (d_token d) now (d_now d) in
      guard (attempt_valid (ra_attempt_record a)) (ContractError "ATTEMPT_INVALID");;
      match reserve_script r a with
      | Ok r' => Ok (Some (mkGranted (ra_claimed a) (ra_reserved a) (ra_attempt_record a)), r')
      | Err e =>
          match reserve_refused e with
          | Continue => reserve_loop r d selected now (S n) ms' true
          | ReturnNone => Ok (None, r)
          | Raise x => Err x
          end
      end
  end.

Definition reserve_next (r : Redis) (aging : time) (now : time) (ordered_members : list MemberSnapshot)
    (requirements : RequestRequirements) (d : Dispatcher) : result BrokerError (option Granted * Redis) :=
  next ← peek_next aging (at_once r) now;
  match next with
  | None => Ok (None, r)
  | Some selected => reserve_loop r d selected now 0 (candidates requirements ordered_members) false
  end.

(** ** Cancelling a queued job *)

Definition cancelled (current : JobRecord) (completed : time) : JobRecord :=
  current ⟪ job_state := CANCELLED ⟫ ⟪ completed_at := Some completed ⟫
          ⟪ reason_code := Some CANCELLED_BEFORE_ACCEPTANCE ⟫
          ⟪ state_version := state_version current + 1 ⟫.

Definition cancel_error (jid e : string) : BrokerError :=
  if String.eqb e "UNKNOWN_JOB_ID" then ContractError ("UNKNOWN_JOB_ID:" +:+ jid)
  else if String.eqb e "JOB_STATE_VERSION_STALE" then stale_error e
  else RepositoryUnavailable.

Definition cancel_queued (r : Redis) (jid : string) (completed : time) : result BrokerError (JobRecord * Redis) :=
  match get r jid with
  | None => Err (ContractError ("UNKNOWN_JOB_ID:" +:+ jid))
  | Some current =>
      if negb (bool_decide (job_state current = QUEUED)) then Ok (current, r)
      else
        answer ← on_error (cancel_error jid)
          (cancel_script r jid (base_priority current) (state_version current) (cancelled current completed));
        Ok (if answer.1 : bool then cancelled current completed else default current (get answer.2 jid), answer.2)
  end.

(** ** Giving a claim back *)

Definition attempt_state_value (s : AttemptState) : string :=
  match s with
  | RESERVED => "reserved" | FORWARDING => "forwarding" | ATT_ACCEPTED => "accepted"
  | ATT_COMPLETED => "completed" | ATT_FAILED => "failed" | ATT_CANCELLED => "cancelled"
  | ATT_OUTCOME_UNKNOWN => "outcome_unknown"
  end.

(** [replace(attempt, state=.., terminal_at=.., error_category=..)] with the
    state appended to the history. *)
Definition ended_attempt (a : AttemptRecord) (s : AttemptState) (terminal : time) (why : ReasonCode)
    : AttemptRecord :=
  a ⟪ att_state := s ⟫ ⟪ terminal_at := Some terminal ⟫ ⟪ error_category := Some why ⟫
    ⟪ transition_history := transition_history a ++ [attempt_state_value s] ⟫.

(** [float(terminal_at if .. else queue_claimed_at or submitted_at)] *)
Definition requeue_time (current : JobRecord) (at_ : option time) : time :=
  match at_ with
  | Some t => t
  | None => match queue_claimed_at current with
            | Some t => if t =? 0 then submitted_at current else t
            | None => submitted_at current
            end
  end.

(** [requeue_claim] up to the script: the reads of the job, of its attempt and
    of its member. *)
Definition requeue_plan (r_job r_attempt r_member : Redis) (jid : string) (reason : ReasonCode)
    (at_ : option time) : result BrokerError RequeueArgs :=
  match get r_job jid with
  | None => Err (ContractError ("UNKNOWN_JOB_ID:" +:+ jid))
  | Some current =>
      guard (holds_claim (job_state current)) (ContractError "REQUEUE_INVALID_STATE");;
      guard (negb (accepted_boundary_crossed current)) (ContractError "CANCEL_UNSAFE_AFTER_ACCEPTANCE");;
      match current_attempt_id current with
      | None => Err RepositoryUnavailable
      | Some aid =>
          guard (str_truthy aid) RepositoryUnavailable;;
          match get_attempt r_attempt aid with
          | None => Err RepositoryUnavailable
          | Some attempt =>
              guard (negb (att_crossed attempt)) RepositoryUnavailable;;
              let name := default "" (selected_member current) in
              let member := if str_truthy name then get_member r_member name else None in
              Ok (mkRequeueArgs (state_version current) (requeued_job current reason) name
                    (match member with Some m => m_state_version m | None => 0 end)
                    (unreserved_member <$> member) aid
                    (ended_attempt attempt ATT_FAILED (requeue_time current at_) reason))
          end
      end
  end.

Definition requeue_error (jid e : string) : BrokerError :=
  if String.eqb e "UNKNOWN_JOB_ID" then ContractError ("UNKNOWN_JOB_ID:" +:+ jid)
  else if String.eqb e "JOB_STATE_VERSION_STALE" || String.eqb e "RESERVATION_STATE_STALE"
       then ReservationStale "RESERVATION_STATE_STALE"
  else if String.eqb e "REQUEUE_INVALID_STATE" || String.eqb e "CANCEL_UNSAFE_AFTER_ACCEPTANCE"
       then ContractError e
  else RepositoryUnavailable.

Definition requeue_claim (r : Redis) (jid : string) (reason : ReasonCode) (at_ : option time)
    : result BrokerError (JobRecord * Redis) :=
  a ← requeue_plan r r r jid reason at_;
  r' ← on_error (requeue_error jid) (requeue_script r a);
  Ok (qa_queued a, r').

(** ** Replacing a job *)

Definition attempt_for (s : JobState) : option AttemptState :=
  match s with
  | ACCEPTED => Some ATT_ACCEPTED
  | IN_FLIGHT => Some FORWARDING
  | COMPLETED => Some ATT_COMPLETED
  | FAILED | CANCELLED => Some ATT_FAILED
  | OUTCOME_UNKNOWN => Some ATT_OUTCOME_UNKNOWN
  | QUEUED | CLAIMED => None
  end.

Definition _attempt_for_job (r_attempt : Redis) (job : JobRecord) : result BrokerError (option AttemptRecord) :=
  match current_attempt_id job with
  | Some aid =>
      if negb (str_truthy aid) then Ok None
      else
        match attempt_for (job_state job) with
        | None => Ok None
        | Some s =>
            match get_attempt r_attempt aid with
            | None => Err RepositoryUnavailable
            | Some a =>
                Ok (Some (a ⟪ att_state := s ⟫
                            ⟪ terminal_at := if is_terminal (job_state job) then completed_at job
                                             else terminal_at a ⟫
                            ⟪ transition_history := transition_history a ++ [attempt_state_value s] ⟫))
            end
        end
  | None => Ok None
  end.

(** The version the script compares with, and the attempt. *)
Definition replace_plan (r_attempt : Redis) (job : JobRecord) : result BrokerError (Z * option AttemptRecord) :=
  let expected := state_version job - 1 in
  guard (1 <=? expected) (ContractError "JOB_STATE_VERSION_INVALID");;
  attempt ← _attempt_for_job r_attempt job;
  Ok (expected, attempt).

Definition replace_error (jid e : string) : BrokerError :=
  if String.eqb e "UNKNOWN_JOB_ID" then ContractError ("UNKNOWN_JOB_ID:" +:+ jid)
  else if String.eqb e "JOB_STATE_VERSION_STALE" then stale_error e
  else if String.eqb e "JOB_STATE_VERSION_INVALID" then ContractError e
  else RepositoryUnavailable.

Definition replace_job (r : Redis) (job : JobRecord) : result BrokerError (JobRecord * Redis) :=
  a ← replace_plan r job;
  r' ← on_error (replace_error (job_id job)) (replace_script r job a.1 a.2);
  Ok (job, r').

(** ** Repairing dead work *)

Definition post_acceptance (current : JobRecord) : bool :=
  accepted_boundary_crossed current || bool_decide (job_state current ∈ [ACCEPTED; IN_FLIGHT]).

Definition unknown_outcome (current : JobRecord) : JobRecord :=
  current ⟪ job_state := OUTCOME_UNKNOWN ⟫ ⟪ reason_code := Some POST_ACCEPTANCE_OUTCOME_UNKNOWN ⟫
          ⟪ job_error := Some "proven_dead_after_acceptance" ⟫
          ⟪ state_version := state_version current + 1 ⟫.

(** [reconcile_dead_job] up to the script: the job it read, and the script's
    arguments when there is something to repair. *)
Definition repair_plan (r_job r_attempt : Redis) (jid owner : string) (fence : Z)
    : result BrokerError (JobRecord * option RepairArgs) :=
  guard (str_truthy owner && (0 <? fence)) ValueError;;
  match get r_job jid with
  | None => Err (ContractError ("UNKNOWN_JOB_ID:" +:+ jid))
  | Some current =>
      if negb (holds_claim (job_state current)) then Ok (current, None)
      else
        let name := default "" (selected_member current) in
        let aid := default "" (current_attempt_id current) in
        guard (str_truthy name && str_truthy aid) RepositoryUnavailable;;
        match get_attempt r_attempt aid with
        | None => Err RepositoryUnavailable
        | Some attempt =>
            let post := post_acceptance current in
            Ok (current, Some (mkRepairArgs jid owner fence (state_version current)
              (if post then unknown_outcome current else requeued_job current PRE_ACCEPTANCE_REQUEUE)
              (base_priority current) name
              (if post then ended_attempt attempt ATT_OUTCOME_UNKNOWN 0 POST_ACCEPTANCE_OUTCOME_UNKNOWN
               else ended_attempt attempt ATT_FAILED 0 PRE_ACCEPTANCE_REQUEUE)))
        end
  end.

Definition repair_error (jid e : string) : BrokerError :=
  if String.eqb e "UNKNOWN_JOB_ID" then ContractError ("UNKNOWN_JOB_ID:" +:+ jid)
  else if String.eqb e "JOB_STATE_VERSION_STALE" then stale_error e
  else RepositoryUnavailable.

Definition reconcile_dead_job (r : Redis) (jid owner : string) (fence : Z)
    : result BrokerError (JobRecord * Redis) :=
  plan ← repair_plan r r jid owner fence;
  match plan.2 with
  | None => Ok (plan.1, r)
  | Some a =>
      answer ← on_error (repair_error jid) (repair_script r a);
      Ok (match answer.1 with
          | repaired => pa_repaired a
          | _ => default plan.1 (get answer.2 jid)
          end, answer.2)
  end.

(** A claim abandoned before the backend took it. *)
Definition abandoned (now max_age : time) (current : JobRecord) : bool :=
  bool_decide (job_state current = CLAIMED) && negb (accepted_boundary_crossed current)
  && negb (bool_decide (is_Some (forward_started_at current))) && opt_truthy (current_attempt_id current)
  && match queue_claimed_at current with Some t => max_age <=? now - t | None => false end.

(** [recover_stale_pre_acceptance_claims]; [keys] are the jobs [SCAN] yields.
    A refused requeue is skipped when it is stale or out of contract. *)
Fixpoint recover_claims (r : Redis) (now max_age : time) (limit : nat) (keys : list string)
    : result BrokerError (list JobRecord * Redis) :=
  match keys, limit with
  | jid :: keys', S limit' =>
      match get r jid with
      | Some current =>
          if abandoned now max_age current then
            match requeue_claim r (job_id current) PRE_ACCEPTANCE_REQUEUE (Some now) with
            | Ok (job, r') => rest ← recover_claims r' now max_age limit' keys'; Ok (job :: rest.1, rest.2)
            | Err (ReservationStale _) | Err (ContractError _) => recover_claims r now max_age limit keys'
            | Err e => Err e
            end
          else recover_claims r now max_age limit keys'
      | None => recover_claims r now max_age limit keys'
      end
  | _, _ => Ok ([], r)
  end.

Definition recover_stale_pre_acceptance_claims (r : Redis) (now max_age : time) (limit : Z) (keys : list string)
    : result BrokerError (list JobRecord * Redis) :=
  guard ((0 <? max_age) && (0 <? limit)) ValueError;;
  recover_claims r now max_age (Z.to_nat limit) keys.

(** Accepted work of an earlier dispatcher. *)
Definition orphaned (r : Redis) (fence : Z) (current : JobRecord) : bool :=
  bool_decide (job_state current ∈ [ACCEPTED; IN_FLIGHT]) && accepted_boundary_crossed current
  && opt_truthy (selected_member current) && opt_truthy (current_attempt_id current)
  && match get_attempt r (default "" (current_attempt_id current)) with
     | Some a => bool_decide (att_state a ∈ [ATT_ACCEPTED; FORWARDING]) && (reservation_fence a <? fence)
     | None => false
     end.

Fixpoint reconcile_jobs (r : Redis) (owner : string) (fence : Z) (limit : nat) (keys : list string)
    : result BrokerError (list JobRecord * Redis) :=
  match keys with
  | [] => Ok ([], r)
  | jid :: keys' =>
      match get r jid with
      | Some current =>
          if str_truthy jid && orphaned r fence current then
            one ← reconcile_dead_job r jid owner fence;
            let recovered := bool_decide (job_state one.1 = OUTCOME_UNKNOWN) in
            let left := if recovered then Nat.pred limit else limit in
            if Nat.eqb left 0 then Ok (if recovered then [one.1] else [], one.2)
            else
              rest ← reconcile_jobs one.2 owner fence left keys';
              Ok ((if recovered then [one.1] else []) ++ rest.1, rest.2)
          else reconcile_jobs r owner fence limit keys'
      | None => reconcile_jobs r owner fence limit keys'
      end
  end.

Definition reconcile_stale_post_acceptance_jobs (r : Redis) (owner : string) (fence limit : Z)
    (keys : list string) : result BrokerError (list JobRecord * Redis) :=
  guard (str_truthy owner && (0 <? fence)) ValueError;;
  guard (0 <? limit) ValueError;;
  reconcile_jobs r owner fence (Z.to_nat limit) keys.

(** ** Members *)

(** The five reads of [put_member]. *)
Record PutReads := mkPutReads {
  pr_free : Redis; pr_version : Redis; pr_leases : Redis; pr_state : Redis; pr_accepting : Redis }.

Definition put_at_once (r : Redis) : PutReads := mkPutReads r r r r r.

(** Whether the stored state is kept: a drain with a newer version, or a
    quarantine. *)
Definition preserved (k : PutReads) (member : MemberSnapshot) : option MemberState :=
  let name := m_name member in
  let state := mh_state <$> r_members (pr_state k) !! name in
  let drain := match r_members (pr_version k) !! name with
               | Some m => (m_state_version member <? Z.max (mh_version m) (m_state_version member))
                           && bool_decide (state = Some DRAINING)
               | None => false
               end in
  let fault := bool_decide (state = Some MEMBER_FAULTED_STATE)
               && match r_members (pr_accepting k) !! name with
                  | Some m => negb (mh_accepting m)
                  | None => false
                  end in
  if drain || fault then state else None.

(** [configured_slots or 0], or the backend's total when it is not positive. *)
Definition put_configured (member : MemberSnapshot) : Z :=
  if configured_slots member <=? 0 then default (configured_slots member) (backend_slots_total member)
  else configured_slots member.

(** The free slots the refresh asks for. *)
Definition initial_free (k : PutReads) (member : MemberSnapshot) : Z :=
  let name := m_name member in
  let live := scard (pr_leases k) name in
  let configured := put_configured member in
  let known_busy := (0 <? configured) && bool_decide (is_Some (backend_slots_busy member)) in
  let runtime_free :=
    match backend_slots_busy member with
    | Some busy =>
        if 0 <? configured
        then _derive_compatible_free_slots configured (backend_slots_total member) busy live
        else Z.max 0 (int_or_0 (compatible_free_slots member))
    | None => Z.max 0 (int_or_0 (compatible_free_slots member))
    end in
  match mh_free <$> r_members (pr_free k) !! name with
  | None => runtime_free
  | Some current =>
      if (live =? 0) && accepting member && known_busy then runtime_free
      else if (current <=? 0) && accepting member && known_busy then runtime_free
      else current
  end.

Definition put_plan (k : PutReads) (member : MemberSnapshot) : RefreshArgs :=
  let name := m_name member in
  let version := Z.max (match r_members (pr_version k) !! name with Some m => mh_version m | None => 0 end)
                       (m_state_version member) in
  let state := default (m_state member) (preserved k member) in
  let accepts := match preserved k member with Some _ => false | None => accepting member end in
  let free := initial_free k member in
  mkRefreshArgs
    (member ⟪ m_state := state ⟫ ⟪ accepting := accepts ⟫ ⟪ m_state_version := version ⟫
            ⟪ dispatcher_leases := scard (pr_leases k) name ⟫ ⟪ compatible_free_slots := Some free ⟫)
    state accepts version (m_generation_fence member) free.

Definition put_member (r : Redis) (member : MemberSnapshot) : MemberSnapshot * Redis :=
  let a := put_plan (put_at_once r) member in
  let '((live, free), r') := refresh_script r a in
  ((fa_record a) ⟪ dispatcher_leases := live ⟫ ⟪ compatible_free_slots := Some free ⟫, r').

Definition add_member_lease (r : Redis) (name aid : string) : result BrokerError Redis :=
  guard (bool_decide (is_Some (get_member r name))) (ContractError ("UNKNOWN_MEMBER:" +:+ name));;
  Ok (sadd r name aid).

Definition drain_error (name e : string) : BrokerError :=
  if String.eqb e "UNKNOWN_MEMBER" then ContractError ("UNKNOWN_MEMBER:" +:+ name)
  else if String.eqb e "RESERVATION_STATE_STALE" || String.eqb e "LEASE_NOT_OWNED"
          || String.eqb e "MEMBER_LEASES_REMAIN" then ReservationStale e
  else ContractError e.

(** [_commit_member_drain] up to the script. *)
Definition drain_args (mode : DrainMode) (current updated : MemberSnapshot) (claimed : Z) (aid : string)
    : DrainArgs :=
  mkDrainArgs mode (m_name current) (m_state_version current) claimed aid updated
    (configured_slots current) (int_or_0 (backend_slots_busy current)).

Definition _commit_member_drain (r : Redis) (a : DrainArgs) : result BrokerError (MemberSnapshot * Redis) :=
  answer ← on_error (drain_error (da_name a)) (drain_script r a);
  Ok (match answer.1 with
      | Some (live, free) => (da_updated a) ⟪ dispatcher_leases := live ⟫ ⟪ compatible_free_slots := Some free ⟫
      | None => da_updated a
      end, answer.2).

(** The member as read, at the expected version. *)
Definition member_read (r : Redis) (name : string) (expected : Z) : result BrokerError MemberSnapshot :=
  match get_member r name with
  | None => Err (ContractError ("UNKNOWN_MEMBER:" +:+ name))
  | Some current =>
      guard (m_state_version current =? expected) (ReservationStale "RESERVATION_STATE_STALE");;
      Ok current
  end.

(** [None]: already draining. *)
Definition begin_drain_plan (r : Redis) (name : string) (expected : Z)
    : result BrokerError (MemberSnapshot * option DrainArgs) :=
  current ← member_read r name expected;
  if bool_decide (m_state current = DRAINING) then Ok (current, None)
  else
    validate_member_transition (m_state current) DRAINING;;
    Ok (current, Some (drain_args begin current (draining_member current) 0 "")).

Definition begin_member_drain (r : Redis) (name : string) (expected : Z)
    : result BrokerError (MemberSnapshot * Redis) :=
  plan ← begin_drain_plan r name expected;
  match plan.2 with None => Ok (plan.1, r) | Some a => _commit_member_drain r a end.

Definition freed_member (current : MemberSnapshot) : MemberSnapshot :=
  let m := current ⟪ dispatcher_leases := 0 ⟫ ⟪ compatible_free_slots := Some 0 ⟫
                   ⟪ m_state_version := m_state_version current + 1 ⟫ in
  if bool_decide (m_state current = DRAINING)
  then m ⟪ drain_disabled_slots := drain_disabled_slots current + 1 ⟫ else m.

Definition release_plan (r : Redis) (name aid : string) (claimed : Z) (enforce : bool)
    : result BrokerError DrainArgs :=
  match get_member r name with
  | None => Err (ContractError ("UNKNOWN_MEMBER:" +:+ name))
  | Some current =>
      Ok (drain_args (if enforce then release else release_v2) current (freed_member current) claimed aid)
  end.

Definition release_member_lease (r : Redis) (name aid : string) (claimed : Z) (enforce : bool)
    : result BrokerError (MemberSnapshot * Redis) :=
  a ← release_plan r name aid claimed enforce; _commit_member_drain r a.

Definition complete_drain_plan (r : Redis) (name : string) (expected : Z) : result BrokerError DrainArgs :=
  current ← member_read r name expected;
  validate_member_transition (m_state current) OFFLINE;;
  Ok (drain_args complete current (offline_member current) 0 "").

Definition complete_member_drain (r : Redis) (name : string) (expected : Z)
    : result BrokerError (MemberSnapshot * Redis) :=
  a ← complete_drain_plan r name expected; _commit_member_drain r a.

Definition begin_rejoin_plan (r : Redis) (name : string) (expected fence : Z) : result BrokerError DrainArgs :=
  current ← member_read r name expected;
  guard (m_generation_fence current <? fence) (ContractError "GENERATION_FENCE_STALE");;
  validate_member_transition (m_state current) JOINING;;
  Ok (drain_args begin_rejoin current (joining_member current fence) 0 "").

Definition begin_member_rejoin (r : Redis) (name : string) (expected fence : Z)
    : result BrokerError (MemberSnapshot * Redis) :=
  a ← begin_rejoin_plan r name expected fence; _commit_member_drain r a.

Definition nothing_open (m : MemberSnapshot) : bool :=
  match blockers m, reason_codes m with [], [] => true | _, _ => false end.

Definition complete_rejoin_plan (r : Redis) (name : string) (expected : Z) (readiness : MemberSnapshot)
    : result BrokerError DrainArgs :=
  current ← member_read r name expected;
  guard (String.eqb (m_name readiness) name) (ContractError "READINESS_MEMBER_MISMATCH");;
  guard (bool_decide (m_state readiness = READY_ACCEPTING) && accepting readiness)
    (ContractError "MEMBER_NOT_READY");;
  guard (nothing_open readiness) (ContractError "MEMBER_NOT_READY");;
  validate_member_transition (m_state current) READY_ACCEPTING;;
  Ok (drain_args complete_rejoin current (rejoined_member current readiness) 0 "").

Definition complete_member_rejoin (r : Redis) (name : string) (expected : Z) (readiness : MemberSnapshot)
    : result BrokerError (MemberSnapshot * Redis) :=
  a ← complete_rejoin_plan r name expected readiness; _commit_member_drain r a.

(** ** Leadership *)

Definition acquire_error (e : string) : BrokerError :=
  if String.eqb e "DISPATCHER_LEASE_HELD" then LeadershipLost else RepositoryUnavailable.

Definition acquire_leadership (r : Redis) (owner : string) (now ttl : time) : result BrokerError (Z * Redis) :=
  guard (str_truthy owner && (0 <? ttl)) ValueError;;
  on_error acquire_error (acquire_script r owner now ttl).

Definition renew_error (e : string) : BrokerError :=
  if String.eqb e "DISPATCHER_FENCE_STALE" then LeadershipLost else RepositoryUnavailable.

Definition renew_leadership (r : Redis) (owner : string) (token : Z) (now ttl : time)
    : result BrokerError (Z * Redis) :=
  guard (str_truthy owner && (0 <? token) && (0 <? ttl)) ValueError;;
  on_error renew_error (renew_script r owner token now ttl).

(** ** Counts *)

(** The states of the records [SCAN] finds; none is missing, as every hash has
    a record. *)
Record RedisCounts := mkRedisCounts {
  c_jobs_total : nat; c_jobs_by_state : JobState -> nat;
  c_attempts_total : nat; c_attempts_by_state : AttemptState -> nat }.

Definition durable_counts (r : Redis) : RedisCounts :=
  let jobs := (fun kv => jh_record kv.2) <$> map_to_list (r_jobs r) in
  let attempts := (fun kv => ah_record kv.2) <$> map_to_list (r_attempts r) in
  mkRedisCounts (length jobs)
    (fun s => length (List.filter (fun j => bool_decide (job_state j = s)) jobs))
    (length attempts)
    (fun s => length (List.filter (fun a => bool_decide (att_state a = s)) attempts)).
