(* ===== verification/BrokerRedisBoard.v ===== *)
(** * BrokerRedisBoard: concurrent clients of the Redis repository

    Any number of processes call [RedisJobRepository] at once.  A history is a
    list of scripts, each with arguments some method computed from what its
    reads found in earlier stores of the history, however old and mixed; the
    scripts themselves are atomic.  The version of a job is what holds this
    together: a version names one record for ever, so a script that finds the
    version it was prepared for finds the record it was prepared from.  From
    that follow the refinement of the job board of [BrokerBoard] under every
    interleaving and what the board guarantees. *)

From S2P Require Import Prelude PyValue Broker BrokerRepo BrokerBoard BrokerScripts BrokerRedis.

Abbreviation get_member := BrokerRedis.get_member.

(** ** Commands *)

Inductive Command :=
  | KSubmit (key : string * string) (stored : JobRecord)
  | KReserve (a : ReserveArgs)
  | KCancel (jid : string) (p : JobPriority) (expected : Z) (record : JobRecord)
  | KReplace (job : JobRecord) (expected : Z) (attempt : option AttemptRecord)
  | KRequeue (a : RequeueArgs)
  | KRepair (a : RepairArgs)
  | KDrain (a : DrainArgs)
  | KRefresh (a : RefreshArgs)
  | KLease (name aid : string)
  | KAcquire (owner : string) (now ttl : time)
  | KRenew (owner : string) (token : Z) (now ttl : time)
  | KExpire (aid : string).

(** [EXPIRE] runs out: the hash of an ended attempt goes. *)
Definition expire_attempt (r : Redis) (aid : string) : Redis :=
  match r_attempts r !! aid with
  | Some ah => if ah_expires ah then r ⟪ r_attempts := delete aid (r_attempts r) ⟫ else r
  | None => r
  end.

(** The store after the script; an error leaves it. *)
Definition after (r : Redis) (x : reply Redis) : Redis := match x with Ok r' => r' | Err _ => r end.

Definition exec (r : Redis) (k : Command) : Redis :=
  match k with
  | KSubmit key stored => after r (snd <$> submit_script r key stored)
  | KReserve a => after r (reserve_script r a)
  | KCancel jid p v rec => after r (snd <$> cancel_script r jid p v rec)
  | KReplace job v att => after r (replace_script r job v att)
  | KRequeue a => after r (requeue_script r a)
  | KRepair a => after r (snd <$> repair_script r a)
  | KDrain a => after r (snd <$> drain_script r a)
  | KRefresh a => (refresh_script r a).2
  | KLease name aid => sadd r name aid
  | KAcquire o now ttl => after r (snd <$> acquire_script r o now ttl)
  | KRenew o t now ttl => after r (snd <$> renew_script r o t now ttl)
  | KExpire aid => expire_attempt r aid
  end.

(** ** What callers issue *)

(** A replaced record: the next version of a claimed job, that keeps its
    identity and never takes back the acceptance boundary. *)
Definition update_ok (cur job : JobRecord) : Prop :=
  state_version job = state_version cur + 1 /\ job_state cur <> QUEUED /\ job_state job <> QUEUED /\
  base_priority job = base_priority cur /\ request_sha256 job = request_sha256 cur /\
  idempotency_key job = idempotency_key cur /\
  (accepted_boundary_crossed cur = true -> accepted_boundary_crossed job = true).

Definition read_in (past : list Redis) (k : Reads) : Prop :=
  forall p, (k p).1.1 ∈ past /\ (k p).1.2 ∈ past /\ (k p).2 ∈ past.

(** The plans of the methods that change a member. *)
Inductive drain_plan (r : Redis) : DrainArgs -> Prop :=
  | plan_begin name v c a : begin_drain_plan r name v = Ok (c, Some a) -> drain_plan r a
  | plan_release name aid v enforce a : release_plan r name aid v enforce = Ok a -> drain_plan r a
  | plan_complete name v a : complete_drain_plan r name v = Ok a -> drain_plan r a
  | plan_begin_rejoin name v f a : begin_rejoin_plan r name v f = Ok a -> drain_plan r a
  | plan_complete_rejoin name v m a : complete_rejoin_plan r name v m = Ok a -> drain_plan r a.

(** The scripts a method may send after reads in [past]. *)
Definition issued (past : list Redis) (k : Command) : Prop :=
  match k with
  | KSubmit key stored => exists job scope,
      stored = stored_job job /\ key = (scope, idempotency_key job) /\
      job_state job = QUEUED /\ accepted_boundary_crossed job = false
  | KReserve a => exists reads aging now selected m aid url owner token leadership_now,
      read_in past reads /\ peek_next aging reads now = Ok (Some selected) /\
      a = reserve_args selected m aid url owner token now leadership_now
  | KCancel jid p v rec => exists r0 cur t,
      r0 ∈ past /\ get r0 jid = Some cur /\ job_state cur = QUEUED /\
      p = base_priority cur /\ v = state_version cur /\ rec = cancelled cur t
  | KReplace job v att => exists r0 r1 cur,
      r0 ∈ past /\ r1 ∈ past /\ get r0 (job_id job) = Some cur /\ update_ok cur job /\
      replace_plan r1 job = Ok (v, att)
  | KRequeue a => exists r1 r2 r3 jid why t,
      r1 ∈ past /\ r2 ∈ past /\ r3 ∈ past /\ requeue_plan r1 r2 r3 jid why t = Ok a
  | KRepair a => exists r1 r2 jid owner fence cur,
      r1 ∈ past /\ r2 ∈ past /\ repair_plan r1 r2 jid owner fence = Ok (cur, Some a)
  | KDrain a => exists r0, r0 ∈ past /\ drain_plan r0 a
  | KRefresh a => exists k m,
      pr_free k ∈ past /\ pr_version k ∈ past /\ pr_leases k ∈ past /\ pr_state k ∈ past /\
      pr_accepting k ∈ past /\ a = put_plan k m
  | KLease name _ => exists r0, r0 ∈ past /\ is_Some (get_member r0 name)
  | KAcquire owner _ ttl => str_truthy owner = true /\ 0 < ttl
  | KRenew owner token _ ttl => str_truthy owner = true /\ 0 < token /\ 0 < ttl
  | KExpire _ => True
  end.

(** A history: the stores so far, newest first, and the present one. *)
Inductive reach : list Redis -> Redis -> Prop :=
  | reach_start : reach [empty_redis] empty_redis
  | reach_next past r k : reach past r -> issued past k -> reach (exec r k :: past) (exec r k).

Fixpoint issued_all (past : list Redis) (r : Redis) (ks : list Command) : Prop :=
  match ks with
  | [] => True
  | k :: ks' => issued past k /\ issued_all (exec r k :: past) (exec r k) ks'
  end.

Fixpoint exec_all (r : Redis) (ks : list Command) : Redis :=
  match ks with [] => r | k :: ks' => exec_all (exec r k) ks' end.

(** ** The invariant *)

(** Every hash says what its record says. *)
Record hash_ok (jid : string) (h : JobHash) : Prop := {
  ok_key : job_id (jh_record h) = jid;
  ok_state : jh_state h = job_state (jh_record h);
  ok_version : jh_version h = state_version (jh_record h);
  ok_boundary : jh_boundary h = false;
  ok_fresh : jh_state h = QUEUED -> accepted_boundary_crossed (jh_record h) = false }.

Definition queued_as (r : Redis) (p : JobPriority) (jid : string) (score : Z) : Prop :=
  exists h, r_jobs r !! jid = Some h /\ jh_state h = QUEUED /\ base_priority (jh_record h) = p /\
    enqueue_sequence (jh_record h) = score.

Record redis_inv (r : Redis) : Prop := {
  inv_hash : forall jid h, r_jobs r !! jid = Some h -> hash_ok jid h;
  inv_zset : forall p jid score, r_queues r p !! jid = Some score <-> queued_as r p jid score;
  inv_keyed : forall key jid sha, r_idempotency r !! key = Some (jid, sha) ->
    exists h, r_jobs r !! jid = Some h /\ request_sha256 (jh_record h) = sha }.

(** [r0] is an earlier store than [r]: every job it has is still there, the
    same or at a later version. *)
Definition earlier (r0 r : Redis) : Prop :=
  forall jid h0, r_jobs r0 !! jid = Some h0 ->
    exists h, r_jobs r !! jid = Some h /\ (h = h0 \/ jh_version h0 < jh_version h).

Lemma earlier_refl r : earlier r r.
Proof. intros jid h H. eauto. Qed.

Lemma earlier_trans r0 r1 r2 : earlier r0 r1 -> earlier r1 r2 -> earlier r0 r2.
Proof.
  intros H1 H2 jid h0 H. destruct (H1 jid h0 H) as (h1 & Hh1 & Hv1).
  destruct (H2 jid h1 Hh1) as (h2 & Hh2 & Hv2). exists h2. split; [done|].
  destruct Hv1 as [->|?]; [done|]. right. destruct Hv2 as [->|?]; [done|lia].
Qed.

(** What the compare-and-set of a script proves: the record read is the record
    that is there. *)
Lemma cas_current r0 r jid cur h v :
  redis_inv r0 -> earlier r0 r -> get r0 jid = Some cur -> r_jobs r !! jid = Some h ->
  jh_version h = v -> v = state_version cur -> jh_record h = cur.
Proof.
  intros Hinv He Hg Hh <- Hv. unfold get in Hg. destruct (r_jobs r0 !! jid) as [h0|] eqn:H0; [|done].
  cbn in Hg. injection Hg as <-. destruct (He jid h0 H0) as (h' & Hh' & [->|Hlt]); simplify_eq; [done|].
  rewrite (ok_version _ _ (inv_hash _ Hinv _ _ H0)) in Hlt. lia.
Qed.

(** Changes of one job, with its queue. *)
Record job_change (r r' : Redis) (jid : string) (h' : JobHash) : Prop := {
  ch_jobs : r_jobs r' = <[jid := h']> (r_jobs r);
  ch_queues : forall p x, r_queues r' p !! x =
    if decide (x = jid)
    then if decide (jh_state h' = QUEUED /\ base_priority (jh_record h') = p)
         then Some (enqueue_sequence (jh_record h')) else None
    else r_queues r p !! x;
  ch_idem : r_idempotency r' = r_idempotency r }.

Lemma job_change_redis_inv r r' jid h' :
  redis_inv r -> job_change r r' jid h' -> hash_ok jid h' ->
  (forall h, r_jobs r !! jid = Some h -> request_sha256 (jh_record h') = request_sha256 (jh_record h)) ->
  redis_inv r'.
Proof.
  intros [H1 H2 H3] [Hj Hq Hi] Hok Hsha. split.
  - intros x h. rewrite Hj, lookup_insert_Some. intros [[<- <-]|[_ ?]]; eauto.
  - intros p x score. rewrite Hq. unfold queued_as. rewrite Hj. destruct (decide (x = jid)) as [->|Hx].
    + rewrite lookup_insert_eq.
      destruct (decide (jh_state h' = QUEUED /\ base_priority (jh_record h') = p)) as [[Hd1 Hd2]|Hd];
        [|naive_solver].
      split; [intros [= Hs]; by exists h'|intros (? & [= <-] & _ & _ & <-); done].
    + rewrite lookup_insert_ne by done. apply H2.
  - intros key x sha. rewrite Hi. intros (h & Hh & Hs)%H3. rewrite Hj.
    destruct (decide (x = jid)) as [->|Hne].
    + exists h'. rewrite lookup_insert_eq. by rewrite (Hsha h Hh).
    + exists h. by rewrite lookup_insert_ne.
Qed.

Lemma job_change_earlier r r' jid h' :
  job_change r r' jid h' -> (forall h, r_jobs r !! jid = Some h -> jh_version h < jh_version h') ->
  earlier r r'.
Proof.
  intros [Hj _ _] Hv x h0 H0. rewrite Hj. destruct (decide (x = jid)) as [->|Hne].
  - exists h'. rewrite lookup_insert_eq. eauto.
  - exists h0. rewrite lookup_insert_ne by done. eauto.
Qed.

(** Nothing changes for the jobs. *)
Definition same_job_side (r r' : Redis) : Prop :=
  r_jobs r' = r_jobs r /\ (forall p, r_queues r' p = r_queues r p) /\ r_idempotency r' = r_idempotency r.

Lemma same_side_inv r r' : same_job_side r r' -> redis_inv r -> redis_inv r'.
Proof.
  intros (Hj & Hq & Hi) [H1 H2 H3]. split; intros *; rewrite ?Hj, ?Hq, ?Hi; eauto.
  unfold queued_as. rewrite Hj. apply H2.
Qed.

Lemma same_side_earlier r r' : same_job_side r r' -> earlier r r'.
Proof. intros (Hj & _) jid h. rewrite Hj. eauto. Qed.

(** ** What one script does to the jobs *)

(** How the hash of one job changes. *)
Inductive change (jid : string) (h h' : JobHash) : Event -> Prop :=
  | change_claim :
      jh_state h = QUEUED -> jh_state h' = CLAIMED ->
      accepted_boundary_crossed (jh_record h') = false -> change jid h h' (Claimed jid)
  | change_cancel :
      jh_state h = QUEUED -> jh_state h' = CANCELLED ->
      accepted_boundary_crossed (jh_record h') = false -> change jid h h' (Cancelled jid)
  | change_requeue :
      holds_claim (jh_state h) = true -> accepted_boundary_crossed (jh_record h) = false ->
      jh_state h' = QUEUED -> accepted_boundary_crossed (jh_record h') = false ->
      change jid h h' (Requeued jid)
  | change_update :
      jh_state h <> QUEUED -> jh_state h' <> QUEUED ->
      (accepted_boundary_crossed (jh_record h) = true -> accepted_boundary_crossed (jh_record h') = true) ->
      change jid h h' (Updated jid).

(** The records a method derives from the record it read. *)
Inductive derived (j : JobRecord) : JobRecord -> Prop :=
  | derived_claim n m aid now : derived j (claim (j ⟪ job_effective_priority := n ⟫) m aid now)
  | derived_cancel t : derived j (cancelled j t)
  | derived_requeue why : derived j (requeued_job j why)
  | derived_unknown : derived j (unknown_outcome j)
  | derived_update j' : update_ok j j' -> derived j j'.

Inductive outcome (r r' : Redis) : Event -> Prop :=
  | outcome_same : same_job_side r r' -> outcome r r' Quiet
  | outcome_submit stored key :
      r_jobs r !! job_id stored = None -> job_state stored = QUEUED ->
      accepted_boundary_crossed stored = false ->
      job_change (r ⟪ r_idempotency := <[key := (job_id stored, request_sha256 stored)]> (r_idempotency r) ⟫)
        r' (job_id stored) (mkJobHash stored QUEUED (state_version stored) false) ->
      outcome r r' (Submitted (job_id stored))
  | outcome_change jid h h' ev :
      r_jobs r !! jid = Some h -> job_change r r' jid h' -> hash_ok jid h' ->
      jh_version h' = jh_version h + 1 -> derived (jh_record h) (jh_record h') -> base_priority (jh_record h') = base_priority (jh_record h) ->
      request_sha256 (jh_record h') = request_sha256 (jh_record h) ->
      change jid h h' ev -> outcome r r' ev.

(** What a script did, from its answer. *)
Definition kevent (r : Redis) (k : Command) : Event :=
  match k with
  | KSubmit key stored =>
      match submit_script r key stored with
      | Ok _ => if decide (is_Some (r_idempotency r !! key)) then Quiet else Submitted (job_id stored)
      | Err _ => Quiet
      end
  | KReserve a => match reserve_script r a with Ok _ => Claimed (ra_job a) | Err _ => Quiet end
  | KCancel jid p v rec => match cancel_script r jid p v rec with Ok (true, _) => Cancelled jid | _ => Quiet end
  | KReplace job v att => match replace_script r job v att with Ok _ => Updated (job_id job) | Err _ => Quiet end
  | KRequeue a => match requeue_script r a with Ok _ => Requeued (job_id (qa_queued a)) | Err _ => Quiet end
  | KRepair a =>
      match repair_script r a with
      | Ok (repaired, _) =>
          if decide (job_state (pa_repaired a) = QUEUED) then Requeued (pa_job a) else Updated (pa_job a)
      | _ => Quiet
      end
  | _ => Quiet
  end.

Lemma outcome_refl r : outcome r r Quiet.
Proof. by apply outcome_same. Qed.

(** What a history has been so far: its stores are sound and in order. *)
Definition sound (past : list Redis) (r : Redis) : Prop :=
  redis_inv r /\ forall r0, r0 ∈ past -> redis_inv r0 /\ earlier r0 r.

Lemma sound_cas past r r0 jid cur h v :
  sound past r -> r0 ∈ past -> get r0 jid = Some cur -> r_jobs r !! jid = Some h ->
  jh_version h = v -> v = state_version cur -> jh_record h = cur.
Proof. intros [_ Hp] Hin. destruct (Hp r0 Hin). by eapply cas_current. Qed.

Lemma sound_hash past r jid h : sound past r -> r_jobs r !! jid = Some h -> hash_ok jid h.
Proof. intros [[H _ _] _]. apply H. Qed.

Lemma get_key past r r0 jid cur : sound past r -> r0 ∈ past -> get r0 jid = Some cur -> job_id cur = jid.
Proof.
  intros [_ Hp] Hin. destruct (Hp r0 Hin) as [[H _ _] _]. unfold get.
  destruct (r_jobs r0 !! jid) as [h0|] eqn:H0; [|done]. cbn. intros [= <-]. by apply (H jid h0).
Qed.

(** The change a script makes when its record is the next version of the one
    it read, and the compare-and-set let it through. *)
Lemma cas_outcome past r r' r0 jid cur h rec ev :
  sound past r -> r0 ∈ past -> get r0 jid = Some cur -> r_jobs r !! jid = Some h ->
  jh_version h = state_version cur ->
  job_id rec = job_id cur -> state_version rec = state_version cur + 1 ->
  base_priority rec = base_priority cur -> request_sha256 rec = request_sha256 cur ->
  (job_state rec = QUEUED -> accepted_boundary_crossed rec = false) ->
  job_change r r' jid (hset_job h rec (job_state rec) (state_version rec)) -> derived cur rec ->
  (jh_record h = cur -> hash_ok jid h ->
   change jid h (hset_job h rec (job_state rec) (state_version rec)) ev) ->
  outcome r r' ev.
Proof.
  intros Hs Hin Hg Hh Hv Hid Hver Hp Hsha Hq Hch Hder Hev.
  pose proof (sound_cas past r r0 jid cur h _ Hs Hin Hg Hh Hv eq_refl) as Hcur.
  pose proof (sound_hash past r jid h Hs Hh) as Hok.
  eapply outcome_change; [exact Hh|exact Hch| | | | | |by apply Hev]; cbn; try (by subst).
  - split; cbn; [|done..|apply Hok|exact Hq]. rewrite Hid. by rewrite (get_key past r r0 jid cur).
  - lia.
Qed.

(** A job that is not queued is in no queue; a queued one in its own only. *)
Lemma not_in_queue past r jid h p :
  sound past r -> r_jobs r !! jid = Some h -> jh_state h <> QUEUED \/ base_priority (jh_record h) <> p ->
  r_queues r p !! jid = None.
Proof.
  intros [[_ H _] _] Hh Hn. destruct (r_queues r p !! jid) as [sc|] eqn:E; [|done].
  apply H in E as (h' & Hh' & ? & ? & _). rewrite Hh in Hh'. injection Hh' as <-. naive_solver.
Qed.

(** Taking a queued job out of its queue. *)
Lemma dequeue_change past r r' jid h rec :
  sound past r -> r_jobs r !! jid = Some h -> jh_state (rec : JobHash) <> QUEUED ->
  r_jobs r' = <[jid := rec]> (r_jobs r) -> r_idempotency r' = r_idempotency r ->
  r_queues r' = r_queues (zrem r (base_priority (jh_record h)) jid) ->
  job_change r r' jid rec.
Proof.
  intros Hs Hh Hn Hj Hi Hq. split; [done| |done]. intros p x. rewrite Hq. cbn.
  destruct (decide (x = jid)) as [->|Hne].
  - rewrite (decide_False (P := jh_state rec = QUEUED /\ _)) by naive_solver.
    case_decide; subst; [by rewrite lookup_delete_eq|]. eapply not_in_queue; naive_solver.
  - case_decide; subst; [by rewrite lookup_delete_ne|done].
Qed.

(** A job that is in no queue, and stays out. *)
Lemma outside_change past r r' jid h rec :
  sound past r -> r_jobs r !! jid = Some h -> jh_state h <> QUEUED -> jh_state (rec : JobHash) <> QUEUED ->
  r_jobs r' = <[jid := rec]> (r_jobs r) -> r_idempotency r' = r_idempotency r ->
  (forall p, r_queues r' p = r_queues r p) -> job_change r r' jid rec.
Proof.
  intros Hs Hh H1 H2 Hj Hi Hq. split; [done| |done]. intros p x. rewrite Hq. case_decide; [subst|done].
  rewrite decide_False by naive_solver. eapply not_in_queue; eauto.
Qed.

(** A job that goes back to its queue. *)
Lemma enqueue_change past r r' jid h rec :
  sound past r -> r_jobs r !! jid = Some h -> jh_state h <> QUEUED -> jh_state (rec : JobHash) = QUEUED ->
  r_jobs r' = <[jid := rec]> (r_jobs r) -> r_idempotency r' = r_idempotency r ->
  r_queues r' = r_queues (zadd r (base_priority (jh_record rec)) jid (enqueue_sequence (jh_record rec))) ->
  job_change r r' jid rec.
Proof.
  intros Hs Hh H1 H2 Hj Hi Hq. split; [done| |done]. intros p x. rewrite Hq. cbn.
  destruct (decide (x = jid)) as [->|Hne].
  - case_decide as Hp; subst; [by rewrite lookup_insert_eq, decide_True|].
    rewrite decide_False by naive_solver. eapply not_in_queue; eauto.
  - case_decide; subst; [by rewrite lookup_insert_ne|done].
Qed.

(** ** Each script *)

Lemma heads_read past reads ps js :
  read_in past reads -> heads_of reads ps = Ok js ->
  Forall (fun j => job_state j = QUEUED /\ exists r0 jid, r0 ∈ past /\ get r0 jid = Some j) js.
Proof.
  intros Hin. revert js. induction ps as [|p ps IH]; intros js H; cbn in H; [by injection H as <-|].
  destruct (Hin p) as (_ & Hrec & _). destruct (reads p) as [[r1 r2] r3]. cbn in *.
  destruct (_queue_head r1 r2 r3 p) as [head|] eqn:Hh; cbn [mbind result_bind] in H; [|done].
  destruct (heads_of reads ps) as [rest|]; cbn [mbind result_bind] in H; [|done].
  injection H as <-. specialize (IH rest eq_refl). destruct head as [job|]; [|done].
  constructor; [|done]. unfold _queue_head in Hh. destruct (zhead _) as [jid|]; [|done].
  destruct (get r2 jid) as [j|] eqn:Hg; [|done]. destruct (bool_decide _) eqn:Hs; bool_prop.
  - injection Hh as <-. eauto.
  - by destruct (r_queues r3 p !! jid).
Qed.

Lemma peek_read past aging reads now selected :
  read_in past reads -> peek_next aging reads now = Ok (Some selected) ->
  exists r0 jid job n, r0 ∈ past /\ get r0 jid = Some job /\ job_state job = QUEUED /\
    selected = job ⟪ job_effective_priority := n ⟫.
Proof.
  unfold peek_next. intros Hin H. destruct (heads_of reads all_priorities) as [[|j js]|] eqn:Hh; [done| |done].
  cbn [mbind result_bind] in H. injection H as <-. apply (heads_read past) in Hh; [|done].
  rewrite Forall_forall in Hh. destruct (Hh _ (min_by_key_in (job_key aging now) j js)) as (Hq & r0 & jid & H1 & H2).
  by eexists r0, jid, _, _.
Qed.

(** Split a script that answered into its checks. *)
Ltac script_ok H :=
  repeat match type of H with
  | Ok (_, _) = Ok (_, _) => let H' := fresh in injection H as H' H; subst
  | Ok _ = Ok _ => injection H as H; subst
  | Err _ = Ok _ => discriminate H
  | mbind _ (guard ?b ?e) = Ok _ =>
      destruct b eqn:?; [change (guard true e) with (Ok (E:=string) tt) in H; cbn [mbind result_bind] in H
                        |discriminate H]
  | (match ?x with Some _ => _ | None => _ end) = Ok _ => destruct x eqn:?; [|discriminate H]
  end.

Lemma reserve_ok r a r' :
  reserve_script r a = Ok r' ->
  exists h m, r_jobs r !! ra_job a = Some h /\ r_members r !! ra_member a = Some m /\
    leads r (ra_owner a) (ra_token a) (ra_leadership_now a) = true /\
    jh_state h = QUEUED /\ jh_version h = ra_job_version a /\ mh_version m = ra_member_version a /\
    available_member r (ra_member a) m = true /\
    zhead (r_queues r (ra_priority a)) = Some (ra_job a) /\ r_attempts r !! ra_attempt a = None /\
    r_jobs r' = <[ra_job a := hset_job h (ra_claimed a) CLAIMED (ra_job_version a + 1)]> (r_jobs r) /\
    r_queues r' = r_queues (zrem r (ra_priority a) (ra_job a)) /\ r_idempotency r' = r_idempotency r /\
    r_leases r' = <[ra_member a := lease_set r (ra_member a) ∪ {[ra_attempt a]}]> (r_leases r) /\
    r_members r' = <[ra_member a := claimed_member m (ra_reserved a)
                       (Z.of_nat (size (lease_set r (ra_member a) ∪ {[ra_attempt a]})))]> (r_members r) /\
    r_leader r' = r_leader r /\ r_counter r' = r_counter r.
Proof.
  unfold reserve_script. intros H. script_ok H. bool_prop.
  match goal with Hm : r_members _ !! _ = Some ?m, Hh : r_jobs _ !! _ = Some ?h |- _ => exists h, m end. cbn. unfold scard, lease_set. cbn.
  rewrite lookup_insert_eq. cbn. split_and!; try done.
  destruct (r_attempts r !! ra_attempt a); [exfalso; eauto|done].
Qed.

Lemma submit_outcome past r key stored :
  sound past r -> issued past (KSubmit key stored) ->
  outcome r (exec r (KSubmit key stored)) (kevent r (KSubmit key stored)).
Proof.
  intros Hs (job & scope & -> & -> & Hq & Hc). cbn [exec kevent].
  destruct (submit_script r _ _) as [[x r']|] eqn:H; cbn; [|apply outcome_refl].
  unfold submit_script in H. destruct (r_idempotency r !! _) as [[pj ph]|] eqn:Hi.
  { rewrite decide_True by eauto. script_ok H. subst. apply outcome_refl. }
  rewrite decide_False by (by intros [? ?]). script_ok H. bool_prop. subst.
  assert (r_jobs r !! job_id job = None) as Hn.
  { destruct (r_jobs r !! job_id job) eqn:E; [exfalso; cbn in *; rewrite E in *; eauto|done]. }
  apply (outcome_submit r _ (stored_job job) (scope, idempotency_key job)); [exact Hn|exact Hq|exact Hc|]. split; [done| |done]. intros p x. cbn.
  destruct (decide (x = job_id job)) as [->|Hne].
  - case_decide as Hp; subst; [by rewrite lookup_insert_eq, decide_True|].
    rewrite decide_False by naive_solver. destruct (r_queues r p !! job_id job) as [sc|] eqn:E; [|done].
    destruct Hs as [[_ Hz _] _]. apply Hz in E as (h & Hh & _). congruence.
  - case_decide; subst; [by rewrite lookup_insert_ne|done].
Qed.

Lemma reserve_outcome past r a :
  sound past r -> issued past (KReserve a) -> outcome r (exec r (KReserve a)) (kevent r (KReserve a)).
Proof.
  intros Hs (reads & aging & now & sel & m & aid & url & owner & token & ln & Hin & Hpeek & ->).
  cbn [exec kevent]. destruct (reserve_script r _) as [r'|] eqn:H; cbn [after]; [|apply outcome_refl].
  apply reserve_ok in H as (h & mh & Hh & _ & _ & Hst & Hv & _ & _ & Hz & _ & Hj & Hq & Hi & _).
  destruct (peek_read past aging reads now sel Hin Hpeek) as (r0 & jid & job & n & H0 & Hg & Hjq & ->).
  cbn in *. pose proof (get_key past r r0 jid job Hs H0 Hg) as Hid. subst jid.
  pose proof (sound_cas past r r0 _ job h _ Hs H0 Hg Hh Hv eq_refl) as Hcur.
  eapply (cas_outcome past r r' r0 (job_id job) job h
    (claim (job ⟪ job_effective_priority := n ⟫) m aid now)); try done.
  - eapply dequeue_change; [exact Hs|exact Hh|done|exact Hj|exact Hi|]. by rewrite Hcur.
  - apply derived_claim.
  - intros _ Hok. apply change_claim; [done|done|]. cbn. rewrite <- Hcur. by apply Hok.
Qed.

Lemma cancel_outcome past r jid p v rec :
  sound past r -> issued past (KCancel jid p v rec) ->
  outcome r (exec r (KCancel jid p v rec)) (kevent r (KCancel jid p v rec)).
Proof.
  intros Hs (r0 & cur & t & H0 & Hg & Hq & -> & -> & ->). cbn [exec kevent].
  destruct (cancel_script r jid _ _ _) as [[[] r']|] eqn:H; cbn; [| |apply outcome_refl].
  - unfold cancel_script in H. destruct (r_jobs r !! jid) as [h|] eqn:Hh; [|done].
    destruct (bool_decide (jh_state h = QUEUED)) eqn:Hst; cbn [negb] in H; [|done].
    script_ok H. bool_prop.
    pose proof (sound_cas past r r0 _ cur h _ Hs H0 Hg Hh ltac:(done) eq_refl) as Hcur.
    eapply (cas_outcome past r _ r0 jid cur h (cancelled cur t)); try done.
    + eapply dequeue_change; [exact Hs|exact Hh|done|done|done|]. by rewrite Hcur.
    + apply derived_cancel.
    + intros _ Hok. apply change_cancel; [done|done|]. cbn. rewrite <- Hcur. by apply Hok.
  - unfold cancel_script in H. destruct (r_jobs r !! jid) as [h|] eqn:Hh; [|done].
    destruct (bool_decide (jh_state h = QUEUED)); cbn [negb] in H; [by script_ok H|].
    injection H as <-. apply outcome_refl.
Qed.

Lemma replace_outcome past r job v att :
  sound past r -> issued past (KReplace job v att) ->
  outcome r (exec r (KReplace job v att)) (kevent r (KReplace job v att)).
Proof.
  intros Hs (r0 & r1 & cur & H0 & _ & Hg & Hup & Hplan). cbn [exec kevent].
  destruct (replace_script r job v att) as [r'|] eqn:H; cbn [after]; [|apply outcome_refl].
  pose proof Hup as (Hver & Hq & Hq' & Hp & Hsha & _ & Hc).
  assert (v = state_version cur) as ->.
  { unfold replace_plan in Hplan. destruct (1 <=? state_version job - 1); [|done].
    cbn [guard mbind result_bind] in Hplan.
    destruct (_attempt_for_job r1 job); [|done]. cbn [mbind result_bind] in Hplan. injection Hplan as <- _. lia. }
  assert (exists h, r_jobs r !! job_id job = Some h /\ jh_version h = state_version cur /\
    r_jobs r' = <[job_id job := hset_job h job (job_state job) (state_version job)]> (r_jobs r) /\
    r_idempotency r' = r_idempotency r /\ r_queues r' = r_queues r) as (h & Hh & Hv & Hj & Hi & Hqs).
  { unfold replace_script in H. script_ok H. bool_prop. eexists. split; [done|]. split; [done|].
    destruct att as [a|]; [|by injection H as <-].
    destruct (r_attempts r !! att_id a); [|done]. by injection H as <-. }
  pose proof (sound_cas past r r0 _ cur h _ Hs H0 Hg Hh Hv eq_refl) as Hcur.
  pose proof (sound_hash past r _ h Hs Hh) as Hok.
  assert (jh_state h <> QUEUED) as Hst by (by rewrite (ok_state _ _ Hok), Hcur).
  eapply (cas_outcome past r r' r0 (job_id job) cur h job); try done.
  - symmetry. eapply get_key; [exact Hs|exact H0|exact Hg].
  - eapply outside_change; [exact Hs|exact Hh|done|done|done|done|]. intros p. by rewrite Hqs.
  - by apply derived_update.
  - intros _ _. apply change_update; [done|done|]. cbn. by rewrite Hcur.
Qed.

(** What a plan for a requeue read. *)
Lemma requeue_plan_ok r1 r2 r3 jid why t a :
  requeue_plan r1 r2 r3 jid why t = Ok a ->
  exists cur, get r1 jid = Some cur /\ holds_claim (job_state cur) = true /\
    accepted_boundary_crossed cur = false /\ qa_expected a = state_version cur /\
    qa_queued a = requeued_job cur why.
Proof.
  unfold requeue_plan. intros H. destruct (get r1 jid) as [cur|]; [|done].
  destruct (holds_claim (job_state cur)) eqn:Hh; [|done]. cbn [guard mbind result_bind] in H.
  destruct (accepted_boundary_crossed cur) eqn:Hc; [done|]. cbn [negb guard mbind result_bind] in H.
  destruct (current_attempt_id cur) as [aid|]; [|done].
  destruct (str_truthy aid); [|done]. cbn [guard mbind result_bind] in H.
  destruct (get_attempt r2 aid) as [att|]; [|done].
  destruct (negb (att_crossed att)); [|done]. cbn [guard mbind result_bind] in H.
  injection H as <-. by exists cur.
Qed.

Lemma claim_not_queued s : holds_claim s = true -> s <> QUEUED.
Proof. by destruct s. Qed.

Lemma requeue_ok r a r' :
  requeue_script r a = Ok r' ->
  exists h, r_jobs r !! job_id (qa_queued a) = Some h /\ jh_version h = qa_expected a /\
    holds_claim (jh_state h) = true /\
    r_jobs r' = <[job_id (qa_queued a) :=
                   hset_job h (qa_queued a) QUEUED (state_version (qa_queued a))]> (r_jobs r) /\
    r_idempotency r' = r_idempotency r /\
    r_queues r' = r_queues (zadd r (base_priority (qa_queued a)) (job_id (qa_queued a))
                              (enqueue_sequence (qa_queued a))).
Proof.
  unfold requeue_script. intros H. script_ok H. bool_prop.
  match goal with Hh : r_jobs _ !! _ = Some ?h |- _ => exists h end.
  split_and!; try done; cbn; destruct (r_members r !! qa_member a), (qa_new_member a); done.
Qed.

Lemma requeue_outcome past r a :
  sound past r -> issued past (KRequeue a) -> outcome r (exec r (KRequeue a)) (kevent r (KRequeue a)).
Proof.
  intros Hs (r1 & r2 & r3 & jid & why & t & H1 & _ & _ & Hplan). cbn [exec kevent].
  destruct (requeue_script r a) as [r'|] eqn:H; cbn [after]; [|apply outcome_refl].
  apply requeue_plan_ok in Hplan as (cur & Hg & Hst & Hc & He & Hqd).
  apply requeue_ok in H as (h & Hh & Hv & Hheld & Hj & Hi & Hq). rewrite He in Hv.
  pose proof (get_key past r r1 jid cur Hs H1 Hg) as Hid. rewrite Hqd in Hh, Hj, Hq |- *. cbn in Hh, Hj, Hq |- *.
  subst jid. pose proof (sound_cas past r r1 _ cur h _ Hs H1 Hg Hh Hv eq_refl) as Hcur.
  eapply (cas_outcome past r r' r1 (job_id cur) cur h (requeued_job cur why)); try done.
  - eapply enqueue_change; [exact Hs|exact Hh|by apply claim_not_queued|done|done|done|done].
  - apply derived_requeue.
  - intros _ _. apply change_requeue; try done. by rewrite Hcur.
Qed.

Lemma repair_plan_ok r1 r2 jid owner fence cur a :
  repair_plan r1 r2 jid owner fence = Ok (cur, Some a) ->
  get r1 jid = Some cur /\ holds_claim (job_state cur) = true /\ pa_job a = jid /\
  pa_expected a = state_version cur /\ pa_priority a = base_priority cur /\ pa_fence a = fence /\
  pa_repaired a = (if post_acceptance cur then unknown_outcome cur else requeued_job cur PRE_ACCEPTANCE_REQUEUE).
Proof.
  unfold repair_plan. intros H. destruct (str_truthy owner && (0 <? fence)); [|done].
  cbn [guard mbind result_bind] in H. destruct (get r1 jid) as [c|]; [|done].
  destruct (holds_claim (job_state c)) eqn:Hh; cbn [negb] in H; [|done].
  destruct (_ && _); [|done]. cbn [guard mbind result_bind] in H.
  destruct (get_attempt r2 _) as [att|]; [|done]. injection H as <- <-. done.
Qed.

Lemma repair_ok r a r' :
  repair_script r a = Ok (repaired, r') ->
  exists h, r_jobs r !! pa_job a = Some h /\ jh_version h = pa_expected a /\ holds_claim (jh_state h) = true /\
    r_jobs r' = <[pa_job a := hset_job h (pa_repaired a) (job_state (pa_repaired a))
                                (state_version (pa_repaired a))]> (r_jobs r) /\
    r_idempotency r' = r_idempotency r /\
    r_queues r' = (if decide (job_state (pa_repaired a) = QUEUED)
                   then r_queues (zadd r (pa_priority a) (pa_job a) (enqueue_sequence (pa_repaired a)))
                   else r_queues r).
Proof.
  unfold repair_script. intros H. destruct (r_jobs r !! pa_job a) as [h|] eqn:Hh; [|done].
  destruct (match r_repairs r !! pa_job a with Some _ => _ | None => _ end); [done|].
  script_ok H. bool_prop. destruct (holds_claim (jh_state h)) eqn:Hc; cbn [negb] in H; [|done].
  injection H as <-. exists h.
  split_and!; try done; cbn; destruct (r_attempts r !! att_id (pa_attempt a)); cbn; by case_decide.
Qed.

Lemma repair_quiet r a x r' : repair_script r a = Ok (x, r') -> x <> repaired -> r' = r.
Proof.
  unfold repair_script. intros H Hx. destruct (r_jobs r !! pa_job a) as [h|] eqn:Hh; [|done].
  destruct (match r_repairs r !! pa_job a with Some _ => _ | None => _ end); [by injection H|].
  destruct (jh_version h =? pa_expected a); [|done]. cbn [guard mbind result_bind] in H.
  destruct (holds_claim (jh_state h)); cbn [negb] in H; injection H; [|by intros <-]. by intros _ <-.
Qed.

Lemma repair_outcome past r a :
  sound past r -> issued past (KRepair a) -> outcome r (exec r (KRepair a)) (kevent r (KRepair a)).
Proof.
  intros Hs (r1 & r2 & jid & owner & fence & cur & H1 & _ & Hplan). cbn [exec kevent].
  destruct (repair_script r a) as [[x r']|] eqn:H; cbn; [|apply outcome_refl].
  destruct x; [apply repair_quiet in H; [subst|]; try done; apply outcome_refl ..|].
  apply repair_plan_ok in Hplan as (Hg & Hst & <- & He & Hp & _ & Hrep).
  apply repair_ok in H as (h & Hh & Hv & Hheld & Hj & Hi & Hq). rewrite He in Hv.
  pose proof (get_key past r r1 _ cur Hs H1 Hg) as Hid.
  pose proof (sound_cas past r r1 _ cur h _ Hs H1 Hg Hh Hv eq_refl) as Hcur.
  rewrite Hrep in Hj, Hq |- *. rewrite Hp in Hq. destruct (post_acceptance cur) eqn:Hpost; cbn in Hj, Hq |- *.
  - eapply (cas_outcome past r r' r1 (pa_job a) cur h (unknown_outcome cur)); try done.
    + eapply outside_change; [exact Hs|exact Hh|by apply claim_not_queued|done|done|done|]. intros p. by rewrite Hq.
    + apply derived_unknown.
    + intros _ _. apply change_update; [by apply claim_not_queued|done|]. cbn. by rewrite Hcur.
  - unfold post_acceptance in Hpost. apply orb_false_iff in Hpost as [Hc _].
    eapply (cas_outcome past r r' r1 (pa_job a) cur h (requeued_job cur PRE_ACCEPTANCE_REQUEUE)); try done.
    + eapply enqueue_change; [exact Hs|exact Hh|by apply claim_not_queued|done|done|done|done].
    + apply derived_requeue.
    + intros _ _. apply change_requeue; try done. by rewrite Hcur.
Qed.

(** The scripts of members, leases, attempts and leadership leave the jobs. *)
Lemma drain_side r a x r' : drain_script r a = Ok (x, r') -> same_job_side r r'.
Proof.
  unfold drain_script. intros H. script_ok H.
  destruct (bool_decide (da_mode a = release) || bool_decide (da_mode a = release_v2));
    destruct (drain_checks r a _); cbn [mbind result_bind] in H; try discriminate H; by injection H as _ <-.
Qed.

Lemma acquire_side r owner now ttl x r' : acquire_script r owner now ttl = Ok (x, r') -> same_job_side r r'.
Proof.
  unfold acquire_script. intros H. destruct (r_leader r) as [l|]; [|by injection H as _ <-].
  destruct (now <? ld_expires_at l); [|by injection H as _ <-].
  destruct (String.eqb _ _); [|done]. by injection H as _ <-.
Qed.

Lemma renew_side r owner token now ttl x r' :
  renew_script r owner token now ttl = Ok (x, r') -> same_job_side r r'.
Proof. unfold renew_script. intros H. script_ok H. done. Qed.

Lemma expire_side r aid : same_job_side r (expire_attempt r aid).
Proof. unfold expire_attempt. destruct (r_attempts r !! aid) as [ah|]; [|done]. by destruct (ah_expires ah). Qed.

Lemma step_outcome past r k : sound past r -> issued past k -> outcome r (exec r k) (kevent r k).
Proof.
  intros Hs Hk. destruct k.
  - by apply (submit_outcome past).
  - by apply (reserve_outcome past).
  - by apply (cancel_outcome past).
  - by apply (replace_outcome past).
  - by apply (requeue_outcome past).
  - by apply (repair_outcome past).
  - cbn [exec kevent]. destruct (drain_script r a) as [[x r']|] eqn:H; cbn; [|apply outcome_refl].
    apply outcome_same. by eapply drain_side.
  - by apply outcome_same.
  - by apply outcome_same.
  - cbn [exec kevent]. destruct (acquire_script r owner now ttl) as [[x r']|] eqn:H; cbn; [|apply outcome_refl].
    apply outcome_same. by eapply acquire_side.
  - cbn [exec kevent]. destruct (renew_script r owner token now ttl) as [[x r']|] eqn:H; cbn; [|apply outcome_refl].
    apply outcome_same. by eapply renew_side.
  - apply outcome_same, expire_side.
Qed.

Lemma outcome_sound r r' ev : redis_inv r -> outcome r r' ev -> redis_inv r' /\ earlier r r'.
Proof.
  intros Hinv [Hsame|stored key Hn Hq Hc Hch|jid h h' e Hh Hch Hok Hv _ _ Hsha _].
  - split; [by eapply same_side_inv|by apply same_side_earlier].
  - set (rk := r ⟪ r_idempotency := <[key := (job_id stored, request_sha256 stored)]> (r_idempotency r) ⟫) in *.
    split.
    + destruct Hinv as [H1 H2 H3]. destruct Hch as [Hj Hqs Hi].
      assert (forall x h, r_jobs r' !! x = Some h -> x <> job_id stored -> r_jobs r !! x = Some h) as Hold.
      { intros x h. rewrite Hj. intros Hx Hne. by rewrite lookup_insert_ne in Hx. }
      split.
      * intros x h Hx. destruct (decide (x = job_id stored)) as [->|Hne]; [|by apply H1, Hold].
        rewrite Hj, lookup_insert_eq in Hx. injection Hx as <-. by split.
      * intros p x sc. rewrite Hqs. unfold queued_as. rewrite Hj.
        destruct (decide (x = job_id stored)) as [->|Hne].
        -- rewrite lookup_insert_eq. cbn [jh_state jh_record].
           destruct (decide (QUEUED = QUEUED /\ base_priority stored = p)) as [[_ Hp]|Hd].
           ++ split; [intros [= Hs]; by eexists|by intros (? & [= <-] & _ & _ & <-)].
           ++ split; [done|]. intros (? & [= <-] & _ & Hp & _). naive_solver.
        -- rewrite lookup_insert_ne by done. apply H2.
      * intros k x sha. rewrite Hi. cbn. rewrite lookup_insert_Some. intros [[_ [= <- <-]]|[_ Hk]].
        -- rewrite Hj, lookup_insert_eq. eauto.
        -- destruct (H3 k x sha Hk) as (h & Hh & Hs). exists h. split; [|done].
           rewrite Hj, lookup_insert_ne; [done|]. intros <-. cbn in Hn. congruence.
    + intros x h0 Hx. destruct Hch as [Hj _ _]. exists h0. rewrite Hj, lookup_insert_ne; [eauto|congruence].
  - split.
    + eapply job_change_redis_inv; [done|exact Hch|done|]. intros g Hg. congruence.
    + eapply job_change_earlier; [exact Hch|]. intros g Hg. rewrite Hh in Hg. injection Hg as <-. lia.
Qed.

Lemma sound_step past r k : sound past r -> issued past k -> sound (exec r k :: past) (exec r k).
Proof.
  intros Hs Hk. pose proof (step_outcome past r k Hs Hk) as Ho. destruct Hs as [Hinv Hpast].
  destruct (outcome_sound _ _ _ Hinv Ho) as [Hinv' He]. split; [done|]. intros r0 [->|Hin]%elem_of_cons.
  - split; [done|apply earlier_refl].
  - destruct (Hpast r0 Hin) as [? ?]. split; [done|]. by eapply earlier_trans.
Qed.

Lemma empty_redis_inv : redis_inv empty_redis.
Proof.
  split; intros *; cbn; rewrite ?lookup_empty; [done| |done].
  split; [done|]. intros (h & Hh & _). cbn in Hh. by rewrite lookup_empty in Hh.
Qed.

Lemma reach_sound past r : reach past r -> sound past r.
Proof.
  induction 1 as [|past r k _ IH Hk]; [|by apply sound_step].
  split; [apply empty_redis_inv|]. intros r0 ->%list_elem_of_singleton.
  split; [apply empty_redis_inv|apply earlier_refl].
Qed.

(** ** The board under concurrency *)

Definition redis_board (r : Redis) : gmap string Status := (fun h => status_of (jh_record h)) <$> r_jobs r.

Lemma redis_board_lookup r jid h :
  r_jobs r !! jid = Some h -> redis_board r !! jid = Some (status_of (jh_record h)).
Proof. intros H. unfold redis_board. by rewrite lookup_fmap, H. Qed.

Lemma redis_board_set r r' jid h :
  r_jobs r' = <[jid := h]> (r_jobs r) -> redis_board r' = <[jid := status_of (jh_record h)]> (redis_board r).
Proof. unfold redis_board. intros ->. apply (fmap_insert (fun h => status_of (jh_record h))). Qed.

Lemma phase_held s : holds_claim s = true -> phase_of s = Held.
Proof. by destruct s. Qed.

Lemma outcome_board r r' ev : redis_inv r -> outcome r r' ev -> board_step (redis_board r) ev (redis_board r').
Proof.
  intros Hinv [[Hj _]|stored key Hn Hq Hc [Hj _ _]|jid h h' e Hh [Hj _ _] Hok _ _ Hp _ Hch].
  - unfold redis_board. rewrite Hj. constructor.
  - rewrite (redis_board_set r r' _ _ Hj). unfold status_of. cbn. rewrite Hq, Hc. apply board_submit.
    unfold redis_board. by rewrite lookup_fmap, Hn.
  - rewrite (redis_board_set r r' _ _ Hj). pose proof (redis_board_lookup r jid h Hh) as Hb.
    pose proof (inv_hash _ Hinv _ _ Hh) as Hok0. unfold status_of in *. rewrite Hp.
    rewrite <- (ok_state _ _ Hok). rewrite <- (ok_state _ _ Hok0) in Hb.
    destruct Hch as [H1 H2 Hc|H1 H2 Hc|H1 H2 H3 Hc|H1 H2 Hc].
    + rewrite H2, Hc. apply board_claim. by rewrite Hb, H1, (ok_fresh _ _ Hok0 H1).
    + rewrite H2, Hc. apply board_cancel. by rewrite Hb, H1, (ok_fresh _ _ Hok0 H1).
    + rewrite H3, Hc. apply board_requeue. by rewrite Hb, H2, (phase_held _ H1).
    + eapply board_update; [exact Hb| | |done|exact Hc]; cbn; by rewrite phase_waiting.
Qed.

Fixpoint ktrace (r : Redis) (ks : list Command) : list Event :=
  match ks with [] => [] | k :: ks' => kevent r k :: ktrace (exec r k) ks' end.

Lemma ktrace_board past r ks :
  sound past r -> issued_all past r ks ->
  board_run (redis_board r) (ktrace r ks) (redis_board (exec_all r ks)).
Proof.
  revert past r. induction ks as [|k ks IH]; intros past r Hs; cbn; [constructor|].
  intros [Hk Hks]. econstructor.
  - apply outcome_board; [by destruct Hs|]. by eapply step_outcome.
  - eapply IH; [|exact Hks]. by apply sound_step.
Qed.

(** ** What concurrent clients can rely on *)

Lemma queue_waiting r p jid :
  redis_inv r -> is_Some (r_queues r p !! jid) <-> redis_board r !! jid = Some (mkStatus Waiting p false).
Proof.
  intros Hinv. split.
  - intros [sc Hsc]. apply (inv_zset _ Hinv) in Hsc as (h & Hh & Hq & Hp & _).
    pose proof (inv_hash _ Hinv _ _ Hh) as Hok. rewrite (redis_board_lookup r jid h Hh). unfold status_of.
    by rewrite <- (ok_state _ _ Hok), Hq, Hp, (ok_fresh _ _ Hok Hq).
  - unfold redis_board. rewrite lookup_fmap. destruct (r_jobs r !! jid) as [h|] eqn:Hh; [|done].
    cbn. intros [= Hq Hp _]. pose proof (inv_hash _ Hinv _ _ Hh) as Hok.
    exists (enqueue_sequence (jh_record h)). apply (inv_zset _ Hinv). exists h.
    by rewrite (ok_state _ _ Hok), <- phase_waiting.
Qed.



(** No job is handed to two dispatchers, whoever else calls at the same
    time: in any history, between two granted reservations of the same job it
    was requeued. *)
Theorem redis_claims_exclusive past r ks es1 es2 es3 jid :
  reach past r -> issued_all past r ks ->
  ktrace r ks = es1 ++ Claimed jid :: es2 ++ Claimed jid :: es3 -> Requeued jid ∈ es2.
Proof.
  intros Hr%reach_sound Hk Ht. pose proof (ktrace_board past r ks Hr Hk) as Hrun. rewrite Ht in Hrun.
  by eapply board_claims_alternate.
Qed.

(** The acceptance boundary is final under concurrency, although the check
    of the boundary inside the requeue script never fires (no script writes
    the field it reads): once the record of a job says the boundary is
    crossed, no later script requeues, reserves or cancels the job, whatever
    it was prepared from; it stays crossed and in no queue. *)
Theorem redis_accepted_final past r ks jid j :
  reach past r -> issued_all past r ks -> get r jid = Some j -> accepted_boundary_crossed j = true ->
  (exists h, r_jobs r !! jid = Some h /\ jh_boundary h = false) /\
  (exists j', get (exec_all r ks) jid = Some j' /\ accepted_boundary_crossed j' = true /\ job_state j' <> QUEUED) /\
  Requeued jid ∉ ktrace r ks /\ Claimed jid ∉ ktrace r ks /\ Cancelled jid ∉ ktrace r ks.
Proof.
  intros Hr%reach_sound Hk Hj Hc. unfold get in Hj. destruct (r_jobs r !! jid) as [h|] eqn:Hh; [|done].
  injection Hj as <-. pose proof (sound_hash _ _ _ _ Hr Hh) as Hok.
  assert (phase (status_of (jh_record h)) <> Waiting) as Hw.
  { cbn. rewrite phase_waiting, <- (ok_state _ _ Hok). intros Hq. by rewrite (ok_fresh _ _ Hok Hq) in Hc. }
  destruct (crossed_stays _ _ _ jid _ (ktrace_board _ _ _ Hr Hk) (redis_board_lookup _ _ _ Hh) Hc Hw)
    as ((s' & Hs' & Hc' & Hw') & H1 & H2 & H3).
  split; [exists h; split; [done|apply Hok]|]. split; [|done].
  unfold redis_board in Hs'. rewrite lookup_fmap in Hs'. unfold get.
  destruct (r_jobs (exec_all r ks) !! jid) as [h'|]; [|done]. injection Hs' as <-.
  exists (jh_record h'). cbn in *. by rewrite phase_waiting in Hw'.
Qed.

(** ** Leadership *)

Definition leader_inv (r : Redis) : Prop := forall l, r_leader r = Some l -> ld_token l <= r_counter r.

(** A script either leaves the leader and the counter, or grants the next
    token, or renews the lease of the current one. *)
Inductive leader_step (r r' : Redis) : Prop :=
  | leader_same : r_leader r' = r_leader r -> r_counter r' = r_counter r -> leader_step r r'
  | leader_grant l : r_leader r' = Some l -> ld_token l = r_counter r + 1 -> r_counter r' = r_counter r + 1 ->
      leader_step r r'
  | leader_renew l l' : r_leader r = Some l -> r_leader r' = Some l' -> ld_token l' = ld_token l ->
      ld_owner l' = ld_owner l -> r_counter r' = r_counter r -> leader_step r r'.

Lemma drain_leader r a x r' : drain_script r a = Ok (x, r') -> r_leader r' = r_leader r /\ r_counter r' = r_counter r.
Proof.
  unfold drain_script. intros H. script_ok H.
  destruct (bool_decide (da_mode a = release) || bool_decide (da_mode a = release_v2));
    destruct (drain_checks r a _); cbn [mbind result_bind] in H; try discriminate H; by injection H as _ <-.
Qed.

Lemma leader_steps r k : leader_step r (exec r k).
Proof.
  destruct k; cbn [exec].
  - apply leader_same; destruct (submit_script r key stored) as [[x r']|] eqn:H; cbn; try done;
      unfold submit_script in H; destruct (r_idempotency r !! key) as [[? ?]|]; by script_ok H.
  - destruct (reserve_script r a) as [r'|] eqn:H; [|by apply leader_same].
    apply reserve_ok in H as (h & m & H). cbn [after]. apply leader_same; naive_solver.
  - apply leader_same; destruct (cancel_script r jid p expected record) as [[x r']|] eqn:H; cbn; try done;
      unfold cancel_script in H; destruct (r_jobs r !! jid); try done;
      destruct (bool_decide _); cbn [negb] in H; by script_ok H.
  - apply leader_same; destruct (replace_script r job expected attempt) as [r'|] eqn:H; cbn; try done;
      unfold replace_script in H; script_ok H; destruct attempt as [t|]; try (by injection H as <-);
      destruct (r_attempts r !! att_id t); try done; by injection H as <-.
  - apply leader_same; destruct (requeue_script r a) as [r'|] eqn:H; cbn; try done;
      unfold requeue_script in H; script_ok H; cbn; destruct (r_members r !! qa_member a), (qa_new_member a); done.
  - apply leader_same; destruct (repair_script r a) as [[[] r']|] eqn:H; cbn; try done;
      try (by apply repair_quiet in H as ->); unfold repair_script in H;
      destruct (r_jobs r !! pa_job a); try done;
      (destruct (match r_repairs r !! pa_job a with Some _ => _ | None => _ end); [done|]); script_ok H;
      destruct (holds_claim _); cbn [negb] in H; try done; injection H as <-;
      cbn; destruct (r_attempts r !! att_id (pa_attempt a)); cbn; by case_decide.
  - destruct (drain_script r a) as [[x r']|] eqn:H; cbn; [|by apply leader_same].
    apply drain_leader in H as [? ?]. by apply leader_same.
  - by apply leader_same.
  - by apply leader_same.
  - destruct (acquire_script r owner now ttl) as [[t r']|] eqn:H; cbn; [|by apply leader_same].
    unfold acquire_script in H. destruct (r_leader r) as [l|] eqn:Hl.
    + destruct (now <? ld_expires_at l); [|by injection H as _ <-; eapply leader_grant].
      destruct (String.eqb _ _); [|done]. injection H as _ <-. by apply leader_same.
    + by injection H as _ <-; eapply leader_grant.
  - destruct (renew_script r owner token now ttl) as [[t r']|] eqn:H; cbn; [|by apply leader_same].
    unfold renew_script in H. destruct (leads r owner token now) eqn:Hl; [|done].
    cbn [guard mbind result_bind] in H. injection H as _ <-. unfold leads in Hl.
    destruct (r_leader r) as [l|] eqn:Hr; [|done]. bool_prop. apply String.eqb_eq in H.
    by eapply leader_renew.
  - apply leader_same; unfold expire_attempt; destruct (r_attempts r !! aid) as [ah|]; try done;
      by destruct (ah_expires ah).
Qed.

Lemma leader_inv_step r r' : leader_inv r -> leader_step r r' -> leader_inv r'.
Proof.
  intros Hinv [Hl Hc|l Hl Ht Hc|l l' Hl Hl' Ht _ Hc] x Hx; [rewrite Hl in Hx; rewrite Hc; by apply Hinv|..].
  - rewrite Hl in Hx. injection Hx as <-. lia.
  - rewrite Hl' in Hx. injection Hx as <-. rewrite Ht, Hc. by apply Hinv.
Qed.

(** Later leaders have the same token and owner, or a greater token. *)
Definition follows (l : Leader) (r : Redis) : Prop :=
  leader_inv r /\ exists l', r_leader r = Some l' /\
    (ld_token l' = ld_token l /\ ld_owner l' = ld_owner l \/ ld_token l < ld_token l').

Lemma follows_step l r r' : follows l r -> leader_step r r' -> follows l r'.
Proof.
  intros [Hinv (l1 & Hl1 & H1)] Hstep. split; [by eapply leader_inv_step|].
  destruct Hstep as [Hl Hc|l2 Hl Ht Hc|l2 l' Hl Hl' Ht Ho Hc].
  - rewrite Hl. eauto.
  - exists l2. split; [done|]. right. specialize (Hinv l1 Hl1). destruct H1 as [[? _]|?]; lia.
  - exists l'. split; [done|]. rewrite Hl in Hl1. injection Hl1 as <-. rewrite Ht, Ho. done.
Qed.

Lemma follows_all l r ks : follows l r -> follows l (exec_all r ks).
Proof.
  revert r. induction ks as [|k ks IH]; intros r Hf; cbn; [done|]. apply IH. eapply follows_step; [done|].
  apply leader_steps.
Qed.

Lemma reach_leader past r : reach past r -> leader_inv r.
Proof.
  induction 1 as [|past r k _ IH _]; [by intros l ?|]. eapply leader_inv_step; [done|]. apply leader_steps.
Qed.

Lemma leads_leader r owner token now :
  leads r owner token now = true ->
  exists l, r_leader r = Some l /\ ld_owner l = owner /\ ld_token l = token /\ now < ld_expires_at l.
Proof.
  unfold leads. destruct (r_leader r) as [l|]; [|done]. intros H. bool_prop. exists l.
  match goal with H : String.eqb _ _ = true |- _ => apply String.eqb_eq in H end. done.
Qed.

(** Fencing tokens order the dispatchers: a reservation is granted only to
    the owner and token of the current leader while its lease lasts; over any
    later scripts whatever, a granted reservation never carries a smaller
    token than an earlier one, and the same token only for the same owner, so
    a dispatcher that lost the leadership can reserve nothing any more. *)
Theorem reservations_fenced past r ks a1 a2 r1 r2 :
  reach past r -> reserve_script r a1 = Ok r1 -> reserve_script (exec_all r ks) a2 = Ok r2 ->
  leads r (ra_owner a1) (ra_token a1) (ra_leadership_now a1) = true /\
  (ra_token a1 < ra_token a2 \/ (ra_token a1 = ra_token a2 /\ ra_owner a1 = ra_owner a2)).
Proof.
  intros Hr H1 H2. apply reserve_ok in H1 as (_ & _ & _ & _ & Hl1 & _).
  apply reserve_ok in H2 as (_ & _ & _ & _ & Hl2 & _). split; [done|].
  apply leads_leader in Hl1 as (l1 & Hr1 & <- & <- & _). apply leads_leader in Hl2 as (l2 & Hr2 & <- & <- & _).
  assert (follows l1 (exec_all r ks)) as [_ (l' & Hl' & Hf)].
  { apply follows_all. split; [by eapply reach_leader|]. exists l1. auto. }
  rewrite Hr2 in Hl'. injection Hl' as <-. destruct Hf as [[-> ->]|?]; auto.
Qed.

(** ** A release that races a drain *)

Lemma begin_plan_ok r name v c a :
  begin_drain_plan r name v = Ok (c, Some a) ->
  get_member r name = Some c /\ m_state_version c = v /\ m_state c <> DRAINING /\
  a = drain_args begin c (draining_member c) 0 "".
Proof.
  unfold begin_drain_plan, member_read. intros H. destruct (get_member r name) as [m|]; [|done].
  destruct (m_state_version m =? v) eqn:Hv; [|done]. cbn [guard mbind result_bind] in H.
  destruct (bool_decide (m_state m = DRAINING)) eqn:Hd; [done|].
  destruct (validate_member_transition (m_state m) DRAINING); [|done]. cbn [mbind result_bind] in H.
  injection H as <- <-. by bool_prop.
Qed.

Lemma release_race r name v aid claimed c a b b' x r1 :
  begin_drain_plan r name v = Ok (c, Some a) -> m_name c = name ->
  release_plan r name aid claimed false = Ok b -> release_plan r name aid claimed true = Ok b' ->
  aid ∈ lease_set r name -> drain_script r a = Ok (x, r1) ->
  (exists m1, r_members r1 !! name = Some m1 /\ mh_state m1 = DRAINING /\ mh_accepting m1 = false /\
     exists y r2 m2, drain_script r1 b = Ok (y, r2) /\ r_members r2 !! name = Some m2 /\
       mh_state m2 = m_state c /\ m_state c <> DRAINING /\ mh_accepting m2 = accepting c /\
       mh_version m2 = mh_version m1) /\
  drain_script r1 b' = Err "RESERVATION_STATE_STALE".
Proof.
  intros Hb Hname Hr Hr' Hlease Hd. apply begin_plan_ok in Hb as (Hm & Hv & Hs & ->).
  unfold release_plan in Hr, Hr'. rewrite Hm in Hr, Hr'. injection Hr as <-. injection Hr' as <-.
  unfold drain_script in Hd. cbn in Hd. rewrite Hname in Hd.
  destruct (r_members r !! name) as [m|] eqn:Hmem; [|done].
  destruct (mh_version m =? m_state_version c) eqn:Hver; [|done]. cbn [guard mbind result_bind] in Hd.
  rewrite Z.eqb_refl in Hd. cbn in Hd. destruct (drainable_state (mh_state m)); [|done]. cbn in Hd.
  injection Hd as <- <-. split.
  - eexists. cbn. rewrite lookup_insert_eq. split_and!; [done..|].
    assert (freed : m_state (freed_member c) = m_state c /\ accepting (freed_member c) = accepting c /\
      m_state_version (freed_member c) = m_state_version c + 1).
    { unfold freed_member. by case_match. }
    destruct freed as (Hf1 & Hf2 & Hf3).
    unfold drain_script. cbn. rewrite Hname, lookup_insert_eq. cbn [guard mbind result_bind].
    rewrite Hf3, Z.eqb_refl. cbn [guard mbind result_bind].
    unfold drain_checks. cbn [da_mode da_attempt da_name drain_args].
    change (lease_set (set_member_hash _ _ _) ?n) with (lease_set r n).
    rewrite (bool_decide_eq_true_2 (aid ∈ lease_set r name)) by done. cbn. eexists _, _, _. split; [done|]. cbn.
    rewrite lookup_insert_eq. split_and!; [done|exact Hf1|done|exact Hf2|done].
  - unfold drain_script. cbn. rewrite Hname, lookup_insert_eq. cbn.
    by destruct (m_state_version c + 1 =? m_state_version c) eqn:E; [lia|].
Qed.

(** A release undoes a drain that came between its read and its script: the
    dispatcher's release skips the version check and writes back the state it
    read, so a member that was set DRAINING accepts again, under the very
    version the drain announced; the fenced release is refused there. *)
Theorem release_undoes_drain r name v aid claimed c a b b' x r1 :
  begin_drain_plan r name v = Ok (c, Some a) -> m_name c = name ->
  release_plan r name aid claimed false = Ok b -> release_plan r name aid claimed true = Ok b' ->
  aid ∈ lease_set r name -> drain_script r a = Ok (x, r1) ->
  (exists m1 m2, r_members (exec r (KDrain a)) !! name = Some m1 /\
     mh_state m1 = DRAINING /\ mh_accepting m1 = false /\
     r_members (exec r1 (KDrain b)) !! name = Some m2 /\
     mh_state m2 = m_state c /\ m_state c <> DRAINING /\ mh_accepting m2 = accepting c /\
     mh_version m2 = mh_version m1) /\
  drain_script r1 b' = Err "RESERVATION_STATE_STALE".
Proof.
  intros Hb Hn Hr Hr' Hl Hd.
  destruct (release_race r name v aid claimed c a b b' x r1 Hb Hn Hr Hr' Hl Hd)
    as [(m1 & H1 & H2 & H3 & y & r2 & m2 & H4 & H5 & H6) H7].
  split; [|done]. exists m1, m2. cbn [exec]. rewrite Hd, H4. cbn. done.
Qed.

(** ** Witnesses *)

Module RedisDemo.

Definition aging : time := seconds 300.
Definition member : MemberSnapshot := BrokerRepo.Demo.member "m1" 2.
Definition job (jid : string) (sequence : Z) : JobRecord := BrokerRepo.Demo.job jid NORMAL 0 sequence.

(** A member is published, two jobs are submitted, a dispatcher leads. *)
Definition setup : list Command :=
  [KRefresh (put_plan (put_at_once empty_redis) member);
   KSubmit ("me", "key-a") (stored_job (job "a" 1)); KSubmit ("me", "key-b") (stored_job (job "b" 2));
   KAcquire "d1" 0 (seconds 60)].

Fixpoint stores (past : list Redis) (r : Redis) (ks : list Command) : list Redis :=
  match ks with [] => past | k :: ks' => stores (exec r k :: past) (exec r k) ks' end.

Definition ready : Redis := exec_all empty_redis setup.
Definition ready_past : list Redis := stores [empty_redis] empty_redis setup.

Lemma reach_all past r ks : reach past r -> issued_all past r ks -> reach (stores past r ks) (exec_all r ks).
Proof.
  revert past r. induction ks as [|k ks IH]; intros past r Hr; cbn; [done|].
  intros [Hk Hks]. apply IH; [by apply reach_next|done].
Qed.

Lemma ready_reach : reach ready_past ready.
Proof.
  apply reach_all; [constructor|]. cbn [setup issued_all]. split_and!; try done.
  - exists (put_at_once empty_redis), member. cbn. split_and!; try (by left). done.
  - by exists (job "a" 1), "me".
  - by exists (job "b" 2), "me".
Qed.

(** The head as read in a store, and its reservation. *)
Definition head_of (r : Redis) : JobRecord :=
  match peek_next aging (at_once r) (seconds 1) with Ok (Some j) => j | _ => job "none" 0 end.

Definition claim_args (r : Redis) (aid : string) : ReserveArgs :=
  reserve_args (head_of r) (default member (BrokerRedis.get_member r "m1")) aid "http://m1" "d1" 1
    (seconds 1) (seconds 1).

Definition reserve (r : Redis) (aid : string) : Command := KReserve (claim_args r aid).

Lemma reserve_issued past r aid :
  r ∈ past -> peek_next aging (at_once r) (seconds 1) = Ok (Some (head_of r)) -> issued past (reserve r aid).
Proof. intros Hr Hp. repeat eexists; [..|exact Hp]; done. Qed.

Definition held : Redis := exec ready (reserve ready "t1").
Definition held_past : list Redis := held :: ready_past.

Lemma ready_in : ready ∈ ready_past.
Proof. by left. Qed.

Lemma held_reach : reach held_past held.
Proof.
  apply reach_next; [apply ready_reach|]. apply reserve_issued; [apply ready_in|]. by vm_compute.
Qed.

(** The requeue of [a], as planned in a store. *)
Definition requeue (r : Redis) (jid : string) : Command :=
  match requeue_plan r r r jid PRE_ACCEPTANCE_REQUEUE None with
  | Ok a => KRequeue a
  | Err _ => KExpire ""
  end.

Lemma requeue_issued past r jid : r ∈ past -> issued past (requeue r jid).
Proof.
  intros Hr. unfold requeue. destruct (requeue_plan r r r jid _ None) as [a|] eqn:H; [|done].
  by exists r, r, r, jid, PRE_ACCEPTANCE_REQUEUE, None.
Qed.

Definition back : Redis := exec held (requeue held "a").

(** Claim, give back, claim again. *)
Definition again : list Command := [reserve ready "t1"; requeue held "a"; reserve back "t2"].

Lemma again_issued : issued_all ready_past ready again.
Proof.
  unfold again. cbn [issued_all]. split_and!; [|apply requeue_issued; by left| |done].
  - apply reserve_issued; [apply ready_in|]. by vm_compute.
  - apply reserve_issued; [by left|]. by vm_compute.
Qed.

(** [a] crosses the boundary. *)
Definition accepted_a : JobRecord :=
  (default (job "a" 1) (get held "a")) ⟪ job_state := ACCEPTED ⟫ ⟪ accepted_boundary_crossed := true ⟫
    ⟪ state_version := 3 ⟫.

Definition accept : Command :=
  match replace_plan held accepted_a with Ok (v, att) => KReplace accepted_a v att | Err _ => KExpire "" end.

Definition accepted : Redis := exec held accept.

Lemma accepted_reach : reach (accepted :: held_past) accepted.
Proof.
  apply reach_next; [apply held_reach|]. unfold accept.
  destruct (replace_plan held accepted_a) as [[v att]|] eqn:H; [|done].
  exists held, held, (default (job "a" 1) (get held "a")).
  split; [by left|]. split; [by left|]. split; [by vm_compute|]. split; [by vm_compute; split_and!|exact H].
Qed.

(** The drain and the release of the claim, as planned in [held]. *)
Definition drain : DrainArgs :=
  match begin_drain_plan held "m1" 1 with
  | Ok (_, Some a) => a
  | _ => drain_args begin member member 0 ""
  end.

Definition give_back (enforce : bool) : DrainArgs :=
  match release_plan held "m1" "t1" 0 enforce with Ok a => a | Err _ => drain_args begin member member 0 "" end.

Definition draining : Redis := exec held (KDrain drain).

End RedisDemo.



Lemma redis_claims_exclusive_witness :
  ktrace RedisDemo.ready RedisDemo.again = [Claimed "a"; Requeued "a"; Claimed "a"] /\
  Requeued "a" ∈ [Requeued "a"].
Proof.
  assert (ktrace RedisDemo.ready RedisDemo.again = [Claimed "a"; Requeued "a"; Claimed "a"]) as Ht
    by (by vm_compute).
  split; [exact Ht|].
  apply (redis_claims_exclusive RedisDemo.ready_past RedisDemo.ready RedisDemo.again [] [Requeued "a"] [] "a");
    [apply RedisDemo.ready_reach|apply RedisDemo.again_issued|exact Ht].
Defined.

(** A requeue planned before the acceptance comes too late. *)
Lemma redis_accepted_final_witness :
  ktrace RedisDemo.accepted [RedisDemo.requeue RedisDemo.held "a"] = [Quiet] /\
  Requeued "a" ∉ ktrace RedisDemo.accepted [RedisDemo.requeue RedisDemo.held "a"].
Proof.
  split; [by vm_compute|].
  apply (redis_accepted_final (RedisDemo.accepted :: RedisDemo.held_past) RedisDemo.accepted
    [RedisDemo.requeue RedisDemo.held "a"] "a" RedisDemo.accepted_a).
  - apply RedisDemo.accepted_reach.
  - split; [|done]. apply RedisDemo.requeue_issued. right. by left.
  - by vm_compute.
  - by vm_compute.
Defined.

Lemma reservations_fenced_witness :
  let later := exec_all RedisDemo.ready [RedisDemo.reserve RedisDemo.ready "t1"; RedisDemo.requeue RedisDemo.held "a"] in
  let a1 := RedisDemo.claim_args RedisDemo.ready "t1" in
  let a2 := RedisDemo.claim_args RedisDemo.back "t2" in
  exists r1 r2, reserve_script RedisDemo.ready a1 = Ok r1 /\ reserve_script later a2 = Ok r2 /\
    (ra_token a1 < ra_token a2 \/ (ra_token a1 = ra_token a2 /\ ra_owner a1 = ra_owner a2)).
Proof.
  intros later a1 a2.
  destruct (reserve_script RedisDemo.ready a1) as [r1|] eqn:H1; [|by vm_compute in H1].
  destruct (reserve_script later a2) as [r2|] eqn:H2; [|by vm_compute in H2].
  exists r1, r2. split; [done|]. split; [done|].
  apply (reservations_fenced RedisDemo.ready_past RedisDemo.ready
    [RedisDemo.reserve RedisDemo.ready "t1"; RedisDemo.requeue RedisDemo.held "a"] a1 a2 r1 r2
    RedisDemo.ready_reach H1 H2).
Defined.

Lemma release_undoes_drain_witness :
  (mh_state <$> r_members RedisDemo.draining !! "m1") = Some DRAINING /\
  drain_script RedisDemo.draining (RedisDemo.give_back true) = Err "RESERVATION_STATE_STALE" /\
  exists m2, r_members (exec RedisDemo.draining (KDrain (RedisDemo.give_back false))) !! "m1" = Some m2 /\
    mh_state m2 = READY_ACCEPTING /\ mh_accepting m2 = true.
Proof.
  split; [by vm_compute|].
  destruct (BrokerRedis.get_member RedisDemo.held "m1") as [c|] eqn:Hc; [|by vm_compute in Hc].
  assert (m_name c = "m1" /\ m_state c = READY_ACCEPTING /\ accepting c = true) as (Hn & Hs & Ha)
    by (vm_compute in Hc; injection Hc as <-; done).
  destruct (drain_script RedisDemo.held RedisDemo.drain) as [[x r1]|] eqn:Hd; [|by vm_compute in Hd].
  assert (RedisDemo.draining = r1) as Hr by (unfold RedisDemo.draining; cbn [exec]; by rewrite Hd).
  destruct (release_undoes_drain RedisDemo.held "m1" 1 "t1" 0 c RedisDemo.drain (RedisDemo.give_back false)
    (RedisDemo.give_back true) x r1) as [(m1 & m2 & _ & _ & _ & H2 & H3 & _ & H4 & _) H5].
  - vm_compute in Hc. injection Hc as <-. by vm_compute.
  - exact Hn.
  - by vm_compute.
  - by vm_compute.
  - apply (bool_decide_unpack _). by vm_compute.
  - exact Hd.
  - rewrite Hr. split; [exact H5|]. exists m2. split; [exact H2|].
    split; [by rewrite H3|by rewrite H4].
Defined.

(** The in-memory repository hands the leadership over while its holder's lease
    lasts; the Redis repository refuses. *)
Example leadership_differs :
  let memory := run_repo BrokerRepo.Demo.start (RAcquireLeader "d1" 0 (seconds 60)) in
  fst <$> BrokerRepo.acquire_leadership memory "d2" (seconds 1) (seconds 60) = Ok 2 /\
  fst <$> acquire_leadership RedisDemo.ready "d2" (seconds 1) (seconds 60) = Err LeadershipLost.
Proof. by vm_compute. Qed.

(** Two claims given back in the order of their submission: the in-memory queue
    has the second first, the sorted set keeps the order of submission. *)
Example requeue_order_differs :
  let claim r aid := run_repo r (RReserve (seconds 1) [RedisDemo.member] BrokerRepo.Demo.requirements None aid) in
  let memory := run_repos BrokerRepo.Demo.start
    [RPut RedisDemo.member; RSubmit (RedisDemo.job "a" 1) "me"; RSubmit (RedisDemo.job "b" 2) "me"] in
  let given r jid := run_repo r (RRequeue (RedisDemo.job jid 0) PRE_ACCEPTANCE_REQUEUE) in
  _queues (given (given (claim (claim memory "t1") "t2") "a") "b") NORMAL = ["b"; "a"] /\
  let claimed := exec RedisDemo.held (RedisDemo.reserve RedisDemo.held "t2") in
  let first := exec claimed (RedisDemo.requeue claimed "a") in
  let both := exec first (RedisDemo.requeue first "b") in
  zhead (r_queues both NORMAL) = Some "a" /\ size (r_queues both NORMAL) = 2%nat.
Proof. by vm_compute. Qed.
