(* ===== verification/StageDispatch.v ===== *)
(** * StageDispatch: executing the stages of a pipeline

    Models [scripts/stage_dispatch.py]: the result of a stage, the context
    threaded through a pipeline, the synchronous [PipelineExecutor.execute] and
    the asynchronous [KreaPipelineExecutor.dispatch].  The provider call is a
    parameter with a state of its own, and an exception it raises other than
    [DispatchProviderError] ends the run.  Stages are the dicts the pipeline
    compiler emits, so their keys are fields here. *)

From stdpp Require Import pretty.
From S2P Require Import Prelude PyValue.

(** ** Data *)

Inductive StageStatus := ok | failed | skipped.
#[export] Instance StageStatus_eq_dec : EqDecision StageStatus.
Proof. solve_decision. Defined.

Record StageResult := mkStageResult {
  stage_id : string; kind : string; provider : string; status : StageStatus;
  result_data : data; error : string; retries : Z }.

Definition is_ok (r : StageResult) : bool := bool_decide (status r = ok).

Record StageDef := mkStageDef {
  sd_id : string; sd_kind : string; sd_provider : string; sd_params : data;
  sd_depends_on : list string; sd_retries : option Z }.

Record StageContext := mkStageContext {
  original_prompt : string; prompt_target : string;
  enhanced_prompts : list (string * value); artifacts : list (string * data);
  qc_results : list (string * data); retry_count : list (string * Z);
  correction_loop_count : Z; errors : list string; delegate_depth : Z;
  nested_contexts : list (string * data) }.

#[export] Instance StageContext_eta : Replaceable StageContext := fun c =>
  mkStageContext (original_prompt c) (prompt_target c) (enhanced_prompts c) (artifacts c)
    (qc_results c) (retry_count c) (correction_loop_count c) (errors c) (delegate_depth c)
    (nested_contexts c).

Definition new_context (prompt : string) : StageContext :=
  mkStageContext prompt "prompt_enhance.inputs.prompt" [] [] [] [] 0 [] 0 [].

Definition with_prompt (c : StageContext) (sid : string) (prompt : value) : StageContext :=
  c ⟪ enhanced_prompts := dict_set (enhanced_prompts c) sid prompt ⟫.
Definition with_artifact (c : StageContext) (sid : string) (d : data) : StageContext :=
  c ⟪ artifacts := dict_set (artifacts c) sid d ⟫.
Definition with_qc (c : StageContext) (sid : string) (d : data) : StageContext :=
  c ⟪ qc_results := dict_set (qc_results c) sid d ⟫.
Definition with_retry (c : StageContext) (sid : string) (consumed : Z) : StageContext :=
  c ⟪ retry_count := dict_set (retry_count c) sid consumed ⟫.
Definition with_loop_increment (c : StageContext) : StageContext :=
  c ⟪ correction_loop_count := correction_loop_count c + 1 ⟫.
Definition with_error (c : StageContext) (text : string) : StageContext :=
  c ⟪ errors := errors c ++ [text] ⟫.
Definition with_delegate_depth (c : StageContext) (depth : Z) : StageContext :=
  c ⟪ delegate_depth := depth ⟫.
Definition with_nested_context (c : StageContext) (sid : string) (nested : data) : StageContext :=
  c ⟪ nested_contexts := dict_set (nested_contexts c) sid nested ⟫.

Definition _update_context (sid k : string) (r : StageResult) (c : StageContext) : StageContext :=
  if String.eqb k "prompt_enhance" then with_prompt c sid (dict_get_or (result_data r) "prompt" (PStr ""))
  else if String.eqb k "generate" || String.eqb k "delegate" then with_artifact c sid (result_data r)
  else if String.eqb k "qc" then with_qc c sid (result_data r)
  else if String.eqb k "correct" then with_artifact (with_loop_increment c) sid (result_data r)
  else c.

(** What a provider call does, and what ends a run. *)
Inductive DispatchError :=
  | DispatchKindError | DispatchContextError (sid dep : string) | OtherError (text : string).

Inductive CallResult :=
  | Returned (r : StageResult)
  | ProviderFailed (text : string)
  | Raised (e : DispatchError).

Definition quoted (s : string) : string := "'" +:+ s +:+ "'".

Definition attempt_error (sid : string) (attempt : Z) (text : string) : string :=
  "stage " +:+ quoted sid +:+ " attempt " +:+ pretty attempt +:+ " failed: " +:+ text.

Definition status_text (s : StageStatus) : string :=
  match s with ok => "ok" | failed => "failed" | skipped => "skipped" end.

Definition returned_error (sid : string) (r : StageResult) : string :=
  "stage " +:+ quoted sid +:+ " returned status=" +:+ status_text (status r) +:+ ": " +:+ error r.

Definition exhausted_error (bound : Z) (text : string) : string :=
  "retries exhausted (" +:+ pretty bound +:+ "): " +:+ text.

Definition permanent_error (sid text : string) : string :=
  "stage " +:+ quoted sid +:+ " failed permanently: " +:+ text.

(** ** The fan-in gate *)

Inductive Gate := Clear | Blocked (dep : string) | Missing (dep : string).

(** The first dependency without a result, or with a failed one. *)
Fixpoint check_deps (map : list (string * StageResult)) (deps : list string) : Gate :=
  match deps with
  | [] => Clear
  | d :: deps' =>
      match dict_get map d with
      | None => Missing d
      | Some r => if decide (status r = failed) then Blocked d else check_deps map deps'
      end
  end.

Definition skip_result (s : StageDef) (text : string) : StageResult :=
  mkStageResult (sd_id s) (sd_kind s) (sd_provider s) skipped [] text 0.

Definition failed_result (s : StageDef) (text : string) (consumed : Z) : StageResult :=
  mkStageResult (sd_id s) (sd_kind s) (sd_provider s) failed [] text consumed.

Definition retries_of (s : StageDef) (max_retries : Z) : Z := default max_retries (sd_retries s).

(** ** Attempts *)

Section Executor.
Context {W : Type}.
(** The world the provider acts on, and the call. *)
Variable _call_provider : W -> StageDef -> StageContext -> W * CallResult.
Variables (max_corrections max_retries : Z).

Inductive Attempted :=
  | Got (r : StageResult) (c : StageContext)
  | Exhausted (c : StageContext) (last_error : string)
  | Propagates (e : DispatchError).

(** [execute]: [while attempt <= stage_retries]; [left] is the number of
    rounds that condition still allows. *)
Fixpoint try_sync (left : nat) (w : W) (s : StageDef) (c : StageContext) (attempt consumed : Z)
    (last_error : string) : W * Attempted :=
  match left with
  | O => (w, Exhausted c last_error)
  | S left' =>
      let c1 := with_retry c (sd_id s) consumed in
      match _call_provider w s c1 with
      | (w', Returned r) => (w', Got r c1)
      | (w', Raised e) => (w', Propagates e)
      | (w', ProviderFailed text) =>
          try_sync left' w' s
            (with_error (with_retry c1 (sd_id s) (consumed + 1)) (attempt_error (sd_id s) (attempt + 1) text))
            (attempt + 1) (consumed + 1) text
      end
  end.

Definition sync_rounds (bound : Z) : nat := Z.to_nat (bound + 1).

Definition consumed_of (c : StageContext) (sid : string) : Z := default 0 (dict_get (retry_count c) sid).

(** [dispatch]: [while True], left once [attempt > stage_retries]; [left] is
    the number of failures still forgiven. *)
Fixpoint try_async (left : nat) (w : W) (s : StageDef) (c : StageContext) (attempt : Z)
    : W * Attempted :=
  let consumed := consumed_of c (sd_id s) in
  let c1 := with_retry c (sd_id s) consumed in
  match _call_provider w s c1 with
  | (w', Returned r) => (w', Got r c1)
  | (w', Raised e) => (w', Propagates e)
  | (w', ProviderFailed text) =>
      let c2 := with_error (with_retry c1 (sd_id s) (consumed + 1))
                  (attempt_error (sd_id s) (attempt + 1) text) in
      match left with
      | O => (w', Exhausted c2 text)
      | S left' => try_async left' w' s c2 (attempt + 1)
      end
  end.

Definition async_rounds (bound : Z) : nat := Z.to_nat bound.

(** ** One stage *)

Record Progress := mkProgress {
  world : W; context : StageContext; stage_map : list (string * StageResult);
  results : list StageResult }.

Definition record (p : Progress) (sid : string) (r : StageResult) (c : StageContext) : Progress :=
  mkProgress (world p) c (dict_set (stage_map p) sid r) (results p ++ [r]).

Definition in_world (p : Progress) (w : W) : Progress :=
  mkProgress w (context p) (stage_map p) (results p).

Definition got (p : Progress) (s : StageDef) (r : StageResult) (c : StageContext) : Progress :=
  record p (sd_id s) r
    (if is_ok r then _update_context (sd_id s) (sd_kind s) r c
     else with_error c (returned_error (sd_id s) r)).

Definition exhausted (p : Progress) (s : StageDef) (c : StageContext) (text : string) : Progress :=
  record p (sd_id s)
    (failed_result s (exhausted_error (retries_of s max_retries) text) (consumed_of c (sd_id s)))
    (with_error c (permanent_error (sd_id s) text)).

(** The correction gate. *)
Definition correction_bound (p : Progress) (s : StageDef) : bool :=
  String.eqb (sd_kind s) "correct" && (max_corrections <=? correction_loop_count (context p)).

(** A stage that does not run: a failed dependency, or the loop bound. *)
Definition gated (p : Progress) (s : StageDef) : result DispatchError (option Progress) :=
  match check_deps (stage_map p) (sd_depends_on s) with
  | Missing d => Err (DispatchContextError (sd_id s) d)
  | Blocked d =>
      Ok (Some (record p (sd_id s) (skip_result s ("depends_on stage " +:+ quoted d +:+ " failed"))
        (with_error (context p)
          ("stage " +:+ quoted (sd_id s) +:+ " skipped: dependency " +:+ quoted d +:+ " failed"))))
  | Clear =>
      if correction_bound p s then
        Ok (Some (record p (sd_id s)
          (skip_result s ("max_loop_count " +:+ pretty max_corrections +:+ " reached"))
          (with_error (context p)
            ("stage " +:+ quoted (sd_id s) +:+ " skipped: loop bound " +:+ pretty max_corrections
             +:+ " reached"))))
      else Ok None
  end.

Definition sync_stage (p : Progress) (s : StageDef) : result DispatchError Progress :=
  g ← gated p s;
  match g with
  | Some p' => Ok p'
  | None =>
      match try_sync (sync_rounds (retries_of s max_retries)) (world p) s (context p) 0 0 "" with
      | (w, Got r c) => Ok (got (in_world p w) s r c)
      | (_, Propagates e) => Err e
      | (w, Exhausted c text) =>
          match dict_get (stage_map p) (sd_id s) with
          | None => Ok (exhausted (in_world p w) s c text)
          | Some _ => Ok (mkProgress w c (stage_map p) (results p))
          end
      end
  end.

Definition async_stage (p : Progress) (s : StageDef) : result DispatchError Progress :=
  g ← gated p s;
  match g with
  | Some p' => Ok p'
  | None =>
      match try_async (async_rounds (retries_of s max_retries)) (world p) s (context p) 0 with
      | (w, Got r c) => Ok (got (in_world p w) s r c)
      | (_, Propagates e) => Err e
      | (w, Exhausted c text) => Ok (exhausted (in_world p w) s c text)
      end
  end.

(** ** A pipeline *)

Fixpoint run_stages (run : Progress -> StageDef -> result DispatchError Progress) (p : Progress)
    (stages : list StageDef) : result DispatchError Progress :=
  match stages with
  | [] => Ok p
  | s :: stages' => p' ← run p s; run_stages run p' stages'
  end.

Definition start (w : W) (c : StageContext) : Progress := mkProgress w c [] [].

Definition execute (w : W) (stages : list StageDef) (c : StageContext) : result DispatchError Progress :=
  run_stages sync_stage (start w c) stages.

Definition dispatch (w : W) (stages : list StageDef) (c : StageContext) : result DispatchError Progress :=
  run_stages async_stage (start w c) stages.

End Executor.

(** ** The two executors agree *)

Section Agreement.
Context {W : Type}.
Variable call : W -> StageDef -> StageContext -> W * CallResult.
Variables (max_corrections max_retries : Z).

Abbreviation sync_stage := (sync_stage call max_corrections max_retries).
Abbreviation async_stage := (async_stage call max_corrections max_retries).

Lemma consumed_of_retry c sid n text :
  consumed_of (with_error (with_retry c sid n) text) sid = n.
Proof. unfold consumed_of. cbn. by rewrite dict_get_set, decide_True. Qed.

Lemma try_agree left w s c attempt last :
  try_sync call (S left) w s c attempt (consumed_of c (sd_id s)) last =
  try_async call left w s c attempt.
Proof.
  revert w c attempt last. induction left as [|left IH]; intros w c attempt last.
  - cbn. by destruct (call w s _) as [w' [r|text|e]].
  - cbn [try_async]. remember (S left) as n eqn:Hn. cbn [try_sync].
    destruct (call w s _) as [w' [r|text|e]]; [done| |done].
    rewrite <- (IH _ _ _ text), consumed_of_retry. by subst n.
Qed.

Definition retried (p : Progress (W := W)) (sid : string) : Prop :=
  dict_get (retry_count (context p)) sid <> None.

Lemma stage_agree p s :
  dict_get (retry_count (context p)) (sd_id s) = None -> dict_get (stage_map p) (sd_id s) = None ->
  0 <= retries_of s max_retries -> sync_stage p s = async_stage p s.
Proof.
  intros Hretry Hmap Hb. unfold StageDispatch.sync_stage, StageDispatch.async_stage.
  destruct (gated max_corrections p s) as [[p'|]|]; cbn [mbind result_bind]; [done| |done].
  replace (sync_rounds (retries_of s max_retries)) with (S (async_rounds (retries_of s max_retries)))
    by (unfold sync_rounds, async_rounds; lia).
  replace 0 with (consumed_of (context p) (sd_id s)) at 2 by (unfold consumed_of; by rewrite Hretry).
  rewrite try_agree. destruct (try_async _ _ _ _ _ _) as [w [r c|c text|e]]; [done| |done].
  by rewrite Hmap.
Qed.

(** What a stage may add to the maps of a run. *)
Definition touches (p p' : Progress (W := W)) (sid : string) : Prop :=
  (forall k, k <> sid -> dict_get (stage_map p') k = dict_get (stage_map p) k) /\
  (forall k, k <> sid -> dict_get (retry_count (context p')) k = dict_get (retry_count (context p)) k).

Lemma update_retry sid k r c : retry_count (_update_context sid k r c) = retry_count c.
Proof. unfold _update_context. repeat (case_match; try done). Qed.

Lemma try_async_retry left w s c attempt w' a k :
  try_async call left w s c attempt = (w', a) -> k <> sd_id s ->
  match a with
  | Got _ c' | Exhausted c' _ => dict_get (retry_count c') k = dict_get (retry_count c) k
  | Propagates _ => True
  end.
Proof.
  intros H Hk. revert w c attempt H. induction left as [|left IH]; intros w c attempt; cbn [try_async];
    destruct (call w s _) as [w1 [r|text|e]]; try (intros [= <- <-]; cbn; rewrite ?dict_get_set;
    rewrite ?decide_False by done; done).
  intros H%IH. destruct a; try done; rewrite H; cbn; by rewrite !dict_get_set, !decide_False.
Qed.

Lemma record_touches p sid r c :
  (forall k, k <> sid -> dict_get (retry_count c) k = dict_get (retry_count (context p)) k) ->
  touches p (record p sid r c) sid.
Proof. intros Hc. split; [|done]. intros k Hk. cbn. by rewrite dict_get_set, decide_False. Qed.

Lemma gated_touches p s p' : gated max_corrections p s = Ok (Some p') -> touches p p' (sd_id s).
Proof.
  unfold gated. destruct (check_deps _ _); [|intros [= <-]; by apply record_touches|done].
  destruct (correction_bound _ _ _); [|done]. intros [= <-]. by apply record_touches.
Qed.

Lemma async_touches p s p' : async_stage p s = Ok p' -> touches p p' (sd_id s).
Proof.
  unfold StageDispatch.async_stage. destruct (gated max_corrections p s) as [[q|]|] eqn:Hg;
    cbn [mbind result_bind]; [|  |done].
  - intros [= <-]. by eapply gated_touches.
  - destruct (try_async _ _ _ _ _ _) as [w a] eqn:Ht.
    assert (forall k, k <> sd_id s -> match a with
      | Got _ c' | Exhausted c' _ => dict_get (retry_count c') k = dict_get (retry_count (context p)) k
      | Propagates _ => True end) as Hretry by (intros k Hk; by eapply try_async_retry).
    destruct a as [r c|c text|e]; [| |done]; intros [= <-];
      refine (record_touches (in_world p w) (sd_id s) _ _ _).
    + intros k Hk. specialize (Hretry k Hk). destruct (is_ok r); cbn; by rewrite ?update_retry.
    + intros k Hk. apply (Hretry k Hk).
Qed.

(** The synchronous and the asynchronous executor do the same: on stages
    with identities of their own, bounds that are not negative and a context
    that has no retry counters for them, the runs end in the same world, with
    the same context and results, or raise the same exception. *)
Theorem executors_agree w stages c :
  NoDup (sd_id <$> stages) ->
  Forall (fun s => 0 <= retries_of s max_retries /\ dict_get (retry_count c) (sd_id s) = None) stages ->
  execute call max_corrections max_retries w stages c =
  dispatch call max_corrections max_retries w stages c.
Proof.
  intros Hnd Hall. unfold execute, dispatch.
  assert (Forall (fun s => 0 <= retries_of s max_retries /\
    dict_get (retry_count (context (start w c))) (sd_id s) = None /\
    dict_get (stage_map (start w c)) (sd_id s) = None) stages) as Hp.
  { eapply Forall_impl; [exact Hall|]. by intros s [? ?]. }
  clear Hall. generalize dependent (start w c). induction stages as [|s stages IH]; intros p Hp; [done|].
  apply Forall_cons in Hp as [(Hb & Hr & Hm) Hp]. apply NoDup_cons in Hnd as [Hs Hnd].
  cbn [run_stages]. rewrite stage_agree by done.
  destruct (async_stage p s) as [p'|e] eqn:Hrun; cbn [mbind result_bind]; [|done].
  apply IH; [done|]. apply async_touches in Hrun as [H1 H2].
  rewrite Forall_forall in Hp |- *. intros x Hx. destruct (Hp x Hx) as (? & ? & ?).
  assert (sd_id x <> sd_id s) by (intros Heq; apply Hs; rewrite <- Heq; by apply list_elem_of_fmap_2).
  rewrite H1, H2 by done. done.
Qed.

End Agreement.

(** ** What a run gives *)

Section Runs.
Context {W : Type}.
Variable call : W -> StageDef -> StageContext -> W * CallResult.
Variables (max_corrections max_retries : Z).

Abbreviation async_stage := (async_stage call max_corrections max_retries).

(** A result other than [skipped] has every dependency settled and not failed. *)
Definition fan_in (map : list (string * StageResult)) (s : StageDef) (r : StageResult) : Prop :=
  status r <> skipped ->
  forall d, d ∈ sd_depends_on s -> exists rd, dict_get map d = Some rd /\ status rd <> failed.

Lemma check_deps_clear map deps :
  check_deps map deps = Clear ->
  forall d, d ∈ deps -> exists rd, dict_get map d = Some rd /\ status rd <> failed.
Proof.
  induction deps as [|d deps IH]; simpl; [by intros _ d ?%not_elem_of_nil|].
  destruct (dict_get map d) as [r|] eqn:Hd; [|done]. case_decide; [done|].
  intros Hc x [->|Hx]%elem_of_cons; eauto.
Qed.

(** One stage appends one result and records it under the stage's name. *)
Lemma stage_step p s p' :
  (forall w c w' r, call w s c = (w', Returned r) -> stage_id r = sd_id s) ->
  async_stage p s = Ok p' ->
  exists r, results p' = results p ++ [r] /\ stage_map p' = dict_set (stage_map p) (sd_id s) r /\
    stage_id r = sd_id s /\ fan_in (stage_map p) s r.
Proof.
  intros Hh. unfold StageDispatch.async_stage, gated.
  destruct (check_deps _ _) eqn:Hd; cbn [mbind result_bind]; [| |done].
  2: { intros [= <-]. eexists. split_and!; try done. by intros ?. }
  pose proof (check_deps_clear _ _ Hd) as Hdeps.
  destruct (correction_bound _ _ _); cbn [mbind result_bind].
  { intros [= <-]. eexists. split_and!; try done. by intros ?. }
  assert (forall left w c a w' r c', try_async call left w s c a = (w', Got r c') -> stage_id r = sd_id s) as Hgot.
  { intros left. induction left as [|left IH]; intros w c a w' r c'; cbn [try_async];
      destruct (call w s _) as [w1 [r1|text|e]] eqn:Hc; try done;
      try (intros [= <- <- <-]; by eapply Hh). apply IH. }
  destruct (try_async _ _ _ _ _ _) as [w [r c|c text|e]] eqn:Ht; [| |done]; intros [= <-].
  - exists r. split_and!; [done..|by eapply Hgot|by intros _].
  - eexists. split_and!; [done..|by intros _].
Qed.

Definition run_inv (p : Progress (W := W)) (done : list StageDef) : Prop :=
  Forall2 (fun s r => stage_id r = sd_id s /\ dict_get (stage_map p) (sd_id s) = Some r /\
                      fan_in (stage_map p) s r) done (results p) /\
  forall k r, dict_get (stage_map p) k = Some r -> k ∈ sd_id <$> done.

Lemma run_inv_step p done s p' :
  (forall w c w' r, call w s c = (w', Returned r) -> stage_id r = sd_id s) ->
  run_inv p done -> sd_id s ∉ sd_id <$> done -> async_stage p s = Ok p' -> run_inv p' (done ++ [s]).
Proof.
  intros Hh [Hall Hkeys] Hnew H. apply stage_step in H as (r & Hres & Hmap & Hid & Hfan); [|done].
  assert (forall k rk, dict_get (stage_map p) k = Some rk -> dict_get (stage_map p') k = Some rk) as Hkeep.
  { intros k rk Hk. rewrite Hmap, dict_get_set, decide_False; [done|]. intros ->. eauto. }
  assert (forall x y, fan_in (stage_map p) x y -> fan_in (stage_map p') x y) as Hfans.
  { intros x y Hxy Hs d Hd. destruct (Hxy Hs d Hd) as (rd & ? & ?). eauto. }
  split.
  - rewrite Hres. apply Forall2_app.
    + eapply Forall2_impl; [exact Hall|]. intros x y (? & ? & ?). split_and!; eauto.
    + constructor; [|constructor]. split_and!; [done| |eauto].
      by rewrite Hmap, dict_get_set, decide_True.
  - intros k rk. rewrite Hmap, dict_get_set, fmap_app, elem_of_app. case_decide as Hk.
    + subst. intros _. right. by left.
    + intros Hin. left. eauto.
Qed.

Lemma dispatch_runs w stages c p :
  (forall s w c w' r, s ∈ stages -> call w s c = (w', Returned r) -> stage_id r = sd_id s) ->
  NoDup (sd_id <$> stages) ->
  dispatch call max_corrections max_retries w stages c = Ok p -> run_inv p stages.
Proof.
  intros Hh Hnd. unfold dispatch.
  assert (run_inv (start w c) []) as Hinv.
  { split; [constructor|]. by intros k r [=]. }
  enough (forall done p0, run_inv p0 done -> NoDup (sd_id <$> done ++ stages) ->
    run_stages async_stage p0 stages = Ok p -> run_inv p (done ++ stages)) as Hgo.
  { intros H. by apply (Hgo [] (start w c)). }
  clear Hnd Hinv. induction stages as [|s stages IH]; intros done p0 Hinv Hnd; cbn [run_stages].
  - intros [= <-]. by rewrite app_nil_r.
  - destruct (async_stage p0 s) as [p1|] eqn:Hrun; cbn [mbind result_bind]; [|done]. intros H.
    rewrite cons_middle, app_assoc. rewrite cons_middle, app_assoc in Hnd.
    apply IH with (p0 := p1); [|eapply run_inv_step; [|done|..|exact Hrun]|done|done].
    + intros x w0 c0 w1 r Hx. apply Hh. by right.
    + intros. eapply Hh; [by left|done].
    + rewrite !fmap_app in Hnd. apply NoDup_app in Hnd as [Hnd _].
      apply NoDup_app in Hnd as (_ & Hnot & _). intros Hin. apply (Hnot _ Hin). by left.
Qed.

(** A run that ends has one result per stage, in declaration order, each
    under its stage's name; a stage whose result is not [skipped] had every
    dependency settled before and none of them failed, so a failure is never
    built upon. *)
Theorem run_results_exact w stages c p :
  (forall s w c w' r, s ∈ stages -> call w s c = (w', Returned r) -> stage_id r = sd_id s) ->
  NoDup (sd_id <$> stages) ->
  dispatch call max_corrections max_retries w stages c = Ok p ->
  Forall2 (fun s r => stage_id r = sd_id s /\ dict_get (stage_map p) (sd_id s) = Some r /\
                      fan_in (stage_map p) s r) stages (results p).
Proof. intros Hh Hnd H. by destruct (dispatch_runs w stages c p Hh Hnd H). Qed.

End Runs.

(** ** How often the provider is called *)

Section Calls.
Context {W : Type}.
Variable call : W -> StageDef -> StageContext -> W * CallResult.
Variables (max_corrections max_retries : Z).

(** The same provider, with the identities of the stages it was called for. *)
Definition logged (w : W * list string) (s : StageDef) (c : StageContext) : (W * list string) * CallResult :=
  let '(w', r) := call w.1 s c in ((w', w.2 ++ [sd_id s]), r).

Lemma try_async_log left w s c a w' o :
  try_async logged left w s c a = (w', o) ->
  exists n, w'.2 = w.2 ++ replicate n (sd_id s) /\ (n <= S left)%nat /\
    match o with
    | Got _ c' | Exhausted c' _ => correction_loop_count c' = correction_loop_count c
    | Propagates _ => True
    end.
Proof.
  revert w c a. induction left as [|left IH]; intros w c a; cbn [try_async]; unfold logged at 1;
    destruct (call w.1 s _) as [w1 [r|text|e]];
    try (intros [= <- <-]; exists 1%nat; split_and!; [done|lia|done]).
  intros (n & Hlog & Hn & Ho)%IH. exists (S n). cbn in Hlog. rewrite <- app_assoc in Hlog.
  split_and!; [done|lia|]. by destruct o.
Qed.

Lemma update_count sid k r c :
  correction_loop_count (_update_context sid k r c) =
    if String.eqb k "correct" then correction_loop_count c + 1 else correction_loop_count c.
Proof.
  unfold _update_context. destruct (String.eqb_spec k "prompt_enhance") as [->|]; [done|].
  destruct (String.eqb_spec k "generate") as [->|]; [done|].
  destruct (String.eqb_spec k "delegate") as [->|]; [done|].
  destruct (String.eqb_spec k "qc") as [->|]; [done|]. by destruct (String.eqb k "correct").
Qed.

Lemma stage_calls p s p' :
  async_stage logged max_corrections max_retries p s = Ok p' ->
  exists n, (world p').2 = (world p).2 ++ replicate n (sd_id s) /\
    (n <= S (async_rounds (retries_of s max_retries)))%nat /\
    (correction_loop_count (context p) <= correction_loop_count (context p') <=
       Z.max (correction_loop_count (context p)) max_corrections).
Proof.
  unfold async_stage, gated. destruct (check_deps _ _); cbn [mbind result_bind]; [| |done].
  2: { intros [= <-]. exists 0%nat. cbn. rewrite app_nil_r. split_and!; [done|lia..]. }
  destruct (correction_bound _ _ _) eqn:Hb; cbn [mbind result_bind].
  { intros [= <-]. exists 0%nat. cbn. rewrite app_nil_r. split_and!; [done|lia..]. }
  destruct (try_async _ _ _ _ _ _) as [w o] eqn:Ht. apply try_async_log in Ht as (n & Hlog & Hn & Ho).
  destruct o as [r c|c text|e]; [| |done]; intros [= <-]; exists n; split_and!; try done; cbn.
  - destruct (is_ok r); cbn; [|lia]. rewrite update_count. case_match; lia.
  - unfold correction_bound in Hb. destruct (is_ok r); cbn; [|lia]. rewrite update_count.
    destruct (String.eqb (sd_kind s) "correct"); cbn in Hb; [bool_prop|]; lia.
  - lia.
  - lia.
Qed.

(** Work is bounded: a run calls the provider for the stages in
    declaration order, for each at most once more than its retry bound, and
    the correction count never passes the bound (nor falls). *)
Theorem run_calls_bounded w stages c p :
  dispatch logged max_corrections max_retries (w, []) stages c = Ok p ->
  (exists ns, (world p).2 = concat (zip_with replicate ns (sd_id <$> stages)) /\
     Forall2 (fun s n => (n <= S (async_rounds (retries_of s max_retries)))%nat) stages ns) /\
  correction_loop_count c <= correction_loop_count (context p) <=
    Z.max (correction_loop_count c) max_corrections.
Proof.
  unfold dispatch. intros H.
  enough (forall p0, run_stages (async_stage logged max_corrections max_retries) p0 stages = Ok p ->
    (exists ns, (world p).2 = (world p0).2 ++ concat (zip_with replicate ns (sd_id <$> stages)) /\
       Forall2 (fun s n => (n <= S (async_rounds (retries_of s max_retries)))%nat) stages ns) /\
    correction_loop_count (context p0) <= correction_loop_count (context p) <=
      Z.max (correction_loop_count (context p0)) max_corrections) as Hgo by by apply (Hgo (start (w, []) c)).
  clear H. induction stages as [|s stages IH]; intros p0; cbn [run_stages].
  - intros [= <-]. split; [|lia]. exists []. cbn. by rewrite app_nil_r.
  - destruct (async_stage _ _ _ p0 s) as [p1|] eqn:Hrun; cbn [mbind result_bind]; [|done].
    intros ((ns & Hlog & Hns) & Hc)%IH. apply stage_calls in Hrun as (n & Hlog1 & Hn & Hc1).
    split; [|lia]. exists (n :: ns). split; [|by constructor].
    rewrite Hlog, Hlog1. cbn. by rewrite app_assoc.
Qed.

End Calls.

(** ** Witnesses *)
Module StageDemo.

(** The world counts calls; the first call of a run fails, the others
    succeed. *)
Definition call (w : nat) (s : StageDef) (c : StageContext) : nat * CallResult :=
  (S w, match w with
        | O => ProviderFailed "ConnectError"
        | _ => Returned (mkStageResult (sd_id s) (sd_kind s) (sd_provider s) ok [("n", PInt 1)] "" 0)
        end).

Definition stages : list StageDef :=
  [mkStageDef "enhance" "prompt_enhance" "od" [] [] None;
   mkStageDef "generate" "generate" "comfy" [] ["enhance"] (Some 1);
   mkStageDef "fix" "correct" "comfy" [] ["generate"] None].

Definition ends : Progress := match dispatch call 1 3 0%nat stages (new_context "a horse") with
  | Ok p => p | Err _ => start 0%nat (new_context "") end.

End StageDemo.

Lemma executors_agree_witness :
  execute StageDemo.call 1 3 0%nat StageDemo.stages (new_context "a horse") =
  dispatch StageDemo.call 1 3 0%nat StageDemo.stages (new_context "a horse").
Proof.
  apply (executors_agree StageDemo.call 1 3 0%nat StageDemo.stages (new_context "a horse")).
  - apply (bool_decide_unpack _). by vm_compute.
  - repeat constructor; cbn; lia.
Defined.

Lemma run_results_exact_witness :
  Forall2 (fun s r => stage_id r = sd_id s) StageDemo.stages (results StageDemo.ends).
Proof.
  eapply Forall2_impl.
  - apply (run_results_exact StageDemo.call 1 3 0%nat StageDemo.stages (new_context "a horse") StageDemo.ends).
    + intros s w c w' r _. unfold StageDemo.call. destruct w; [done|]. by intros [= <- <-].
    + apply (bool_decide_unpack _). by vm_compute.
    + by vm_compute.
  - by intros s r [? _].
Defined.

Lemma run_calls_bounded_witness :
  match dispatch (logged StageDemo.call) 1 3 (0%nat, []) StageDemo.stages (new_context "a horse") with
  | Ok p => (world p).2 = ["enhance"; "enhance"; "generate"; "fix"] /\ correction_loop_count (context p) <= 1
  | Err _ => False
  end.
Proof.
  destruct (dispatch (logged StageDemo.call) 1 3 (0%nat, []) StageDemo.stages (new_context "a horse"))
    as [p|] eqn:H; [|by vm_compute in H].
  destruct (run_calls_bounded StageDemo.call 1 3 0%nat StageDemo.stages (new_context "a horse") p H) as [_ Hc].
  split; [|exact (proj2 Hc)]. vm_compute in H. by injection H as <-.
Defined.

(** A negative retry bound: the asynchronous loop still calls once. *)
Example negative_bound_differs :
  let s := [mkStageDef "s" "qc" "p" [] [] (Some (-1))] in
  (fun p => status <$> results p) <$> execute StageDemo.call 1 3 1%nat s (new_context "") = Ok [failed] /\
  (fun p => status <$> results p) <$> dispatch StageDemo.call 1 3 1%nat s (new_context "") = Ok [ok].
Proof. by vm_compute. Qed.
