(* ===== verification/StageRuntime.v ===== *)
(** * StageRuntime: providers of pipeline stages and the executors over HTTP

    Models the configuration half of [scripts/pipeline_provider_runtime.py]:
    the provider registry, endpoint resolution, timing bounds, the JSON
    provider's request and its reading of the response, and the retrying HTTP
    executor.  Configuration entries are the dicts of services.json.  The HTTP
    transport and the address check of an endpoint (URL and address parsing)
    are parameters; waiting between retries only lets time pass. *)

From stdpp Require Import pretty.
From S2P Require Import Prelude PyValue PyText StageDispatch.

(** ** Effects: a world and exceptions *)

Inductive ErrorClass :=
  | UnknownProviderError | DisabledProviderError | EndpointResolutionError | KindCapabilityError
  | HttpFlowOperationError | ProviderRuntimeError | DispatchProviderError | DispatchKindError
  | DispatchContextError | MissingExecutorFactoryError
  | LookupTypeOrValueError (** [KeyError], [TypeError], [ValueError] *)
  | OtherException.
#[export] Instance ErrorClass_eq_dec : EqDecision ErrorClass.
Proof. solve_decision. Defined.

Record Exn := mkExn { exn_class : ErrorClass; exn_text : string }.

(** Subclasses of [DispatchProviderError] and of [DispatchError]. *)
Definition is_provider_error (e : Exn) : bool :=
  match exn_class e with
  | UnknownProviderError | DisabledProviderError | EndpointResolutionError | KindCapabilityError
  | HttpFlowOperationError | ProviderRuntimeError | DispatchProviderError => true
  | _ => false
  end.

Definition is_dispatch_error (e : Exn) : bool :=
  is_provider_error e ||
  match exn_class e with
  | DispatchKindError | DispatchContextError | MissingExecutorFactoryError => true
  | _ => false
  end.

Definition eff (W A : Type) : Type := W -> W * result Exn A.

#[export] Instance eff_ret {W} : MRet (eff W) := fun _ a w => (w, Ok a).
#[export] Instance eff_bind {W} : MBind (eff W) := fun _ _ k m w =>
  match m w with (w', Ok a) => k a w' | (w', Err e) => (w', Err e) end.

Definition lift {W A} (r : result Exn A) : eff W A := fun w => (w, r).
Definition throw {W A} (c : ErrorClass) (text : string) : eff W A := lift (Err (mkExn c text)).

(** [try: m except classes as exc: handler] *)
Definition catch {W A} (caught : Exn -> bool) (m : eff W A) (handler : Exn -> eff W A) : eff W A :=
  fun w => match m w with
           | (w', Err e) => if caught e then handler e w' else (w', Err e)
           | r => r
           end.

(** ** Contracts *)

Record Loop := mkLoop {
  loop_id : string; trigger_stage_id : string; correction_stage_id : string;
  on_correction : list string; max_iterations : Z }.

(** A pipeline contract; [None] stages are absent or not a list. *)
Record Contract := mkContract {
  ct_schema : value; ct_stages : option (list StageDef); ct_loops : list Loop;
  ct_max_corrections : option Z; ct_max_loop_count : option Z }.

(** [contract.get("stages", [])] *)
Definition stages_of (ct : Contract) : list StageDef := default [] (ct_stages ct).

(** [{s["id"]: s for s in stages}] *)
Definition defs_of (stages : list StageDef) : list (string * StageDef) :=
  fold_left (fun d s => dict_set d (sd_id s) s) stages [].

(** ** The registry *)

Record Runtime := mkRuntime {
  _services : list (string * value);
  _providers : list (string * data);
  _pipelines : list (string * option Contract);  (** [None]: not an object *)
  _registry : list string }.

Definition py_repr_list (xs : list string) : string :=
  "[" +:+ String.concat ", " (py_repr_str <$> xs) +:+ "]".

(** [__init__]: the pipelines come from service_pipelines, or from the legacy
    key when that one is empty; an identity under both keys is refused. *)
Definition new_runtime (services : list (string * value)) (providers : list (string * data))
    (canonical legacy : list (string * option Contract)) (registry : list string)
    : result Exn Runtime :=
  let overlap := filter (fun k => k ∈ canonical.*1) (dict_fromkeys legacy.*1) in
  match overlap with
  | _ :: _ => Err (mkExn ProviderRuntimeError
      ("pipeline IDs appear under both 'pipelines' and 'service_pipelines': "
       +:+ py_repr_list (py_sorted overlap) +:+ "; remove the duplicate key(s) from 'pipelines'"))
  | [] => Ok (mkRuntime services providers (match canonical with [] => legacy | _ => canonical end) registry)
  end.

Definition _resolve_provider_config (rt : Runtime) (provider_id : string) : result Exn data :=
  _ ← guard (bool_decide (provider_id ∈ _registry rt))
        (mkExn UnknownProviderError ("provider " +:+ py_repr_str provider_id
          +:+ " not in provider registry; known providers: " +:+ py_repr_list (py_sorted (_registry rt))));
  match dict_get (_providers rt) provider_id with
  | None => Err (mkExn UnknownProviderError ("provider " +:+ py_repr_str provider_id
                   +:+ " not found in pipeline_providers config"))
  | Some cfg =>
      _ ← guard (py_truthy (dict_get_or cfg "enabled" (PBool true)))
            (mkExn DisabledProviderError ("provider " +:+ py_repr_str provider_id +:+ " is disabled"));
      Ok cfg
  end.

(** [capabilities], or no capability when the entry is not a list. *)
Definition capabilities (cfg : data) : list value :=
  match dict_get_or cfg "capabilities" (PList []) with PList l => l | _ => [] end.

Definition is_text (s : string) (v : value) : bool :=
  match v with PStr t => String.eqb t s | _ => false end.

Definition _check_capabilities (cfg : data) (stage_kind provider_id : string) : result Exn unit :=
  guard (existsb (is_text stage_kind) (capabilities cfg))
    (mkExn KindCapabilityError ("stage kind " +:+ py_repr_str stage_kind +:+ " not in provider "
       +:+ py_repr_str provider_id +:+ " capabilities: " +:+ py_repr (PList (capabilities cfg)))).

Definition validate_stage_kind (rt : Runtime) (provider_id stage_kind : string) : result Exn unit :=
  cfg ← _resolve_provider_config rt provider_id; _check_capabilities cfg stage_kind provider_id.

Definition CLOSED_KINDS : list string := ["prompt_enhance"; "generate"; "qc"; "correct"; "delegate"].

Fixpoint check_stage_kinds (cfg : data) (provider_id : string) (stages : list StageDef) : result Exn unit :=
  match stages with
  | [] => Ok tt
  | s :: stages' =>
      _ ← guard (bool_decide (sd_kind s ∈ CLOSED_KINDS))
            (mkExn DispatchKindError ("unknown stage kind " +:+ py_repr_str (sd_kind s)));
      _ ← _check_capabilities cfg (sd_kind s) provider_id;
      check_stage_kinds cfg provider_id stages'
  end.

Definition validate_pipeline_stages (rt : Runtime) (provider_id : string) (stages : list StageDef)
    : result Exn unit :=
  cfg ← _resolve_provider_config rt provider_id; check_stage_kinds cfg provider_id stages.

(** [cfg.get("adapter", "")], compared with an adapter's name. *)
Definition has_adapter (cfg : data) (name : string) : bool := is_text name (dict_get_or cfg "adapter" (PStr "")).

(** The adapter of a provider at dispatch time: [_providers.get(provider, {})]. *)
Definition adapter_of (rt : Runtime) (provider : string) (name : string) : bool :=
  has_adapter (default [] (dict_get (_providers rt) provider)) name.

(** ** Endpoints *)

Section Endpoints.
(** [_validate_service_endpoint endpoint_ref base_url service] *)
Variable _validate_service_endpoint : string -> string -> data -> result Exn unit.

Definition endpoint_error (ref : string) (text : string) : Exn :=
  mkExn EndpointResolutionError ("service " +:+ py_repr_str ref +:+ text).

Definition is_slash (c : Ascii.ascii) : bool := Ascii.eqb c (chr 47).

Fixpoint drop_slashes (cs : list Ascii.ascii) : list Ascii.ascii :=
  match cs with c :: cs' => if is_slash c then drop_slashes cs' else cs | [] => [] end.

(** [s.rstrip("/")] *)
Definition rstrip_slash (s : string) : string :=
  String.string_of_list_ascii (rev (drop_slashes (rev (String.list_ascii_of_string s)))).

Definition port_in_range (v : value) : option Z :=
  match v with PInt n => if (1 <=? n) && (n <=? 65535) then Some n else None | _ => None end.

Definition port_error (ref : string) : Exn := endpoint_error ref " port is outside 1..65535".

Definition bracketed_host (host : string) : string :=
  let cs := String.list_ascii_of_string host in
  if existsb (Ascii.eqb (chr 58)) cs && negb (starts_with [chr 91] cs)
  then "[" +:+ host +:+ "]" else host.

(** The URL a service entry declares: its endpoint, its host and port, or a
    local port. *)
Definition service_url (ref : string) (svc : data) : result Exn string :=
  let endpoint := dict_get_or svc "endpoint" PNone in
  let host := dict_get_or svc "host" PNone in
  let port := dict_get_or svc "port" PNone in
  match endpoint with
  | PNone =>
      if py_truthy host && py_truthy port then
        match host, port with
        | PStr h, PInt _ =>
            match port_in_range port with
            | Some n =>
                let scheme := if py_truthy (dict_get_or svc "tls" PNone) then "https" else "http" in
                Ok (scheme +:+ "://" +:+ bracketed_host h +:+ ":" +:+ pretty n)
            | None => Err (port_error ref)
            end
        | _, _ => Err (endpoint_error ref " host/port has invalid types")
        end
      else if py_truthy port then
        match port_in_range port with
        | Some n => Ok ("http://127.0.0.1:" +:+ pretty n)
        | None => Err (port_error ref)
        end
      else Err (endpoint_error ref " has no 'endpoint', 'host', or 'port' — cannot construct URL")
  | PStr s => if str_truthy s then Ok (rstrip_slash s)
              else Err (endpoint_error ref " endpoint must be a non-empty string")
  | _ => Err (endpoint_error ref " endpoint must be a non-empty string")
  end.

(** The URL and the port of a service. *)
Definition _resolve_service_endpoint (services : list (string * value)) (ref : string)
    : result Exn (string * option Z) :=
  match dict_get services ref with
  | None | Some PNone =>
      Err (mkExn EndpointResolutionError ("endpoint_ref " +:+ py_repr_str ref
        +:+ " not found in services config; available services: " +:+ py_repr_list (py_sorted services.*1)))
  | Some (PDict svc) =>
      _ ← guard (py_truthy (dict_get_or svc "enabled" (PBool true)))
            (mkExn DisabledProviderError ("service " +:+ py_repr_str ref +:+ " is disabled in services config"));
      url ← service_url ref svc;
      _ ← _validate_service_endpoint ref url svc;
      Ok (url, match dict_get_or svc "port" PNone with PInt n => Some n | _ => None end)
  | Some _ => Err (endpoint_error ref " is not a dict")
  end.

(** [request_path], a string. *)
Definition request_path (cfg : data) : string :=
  let path := default "" (as_str (dict_get_or cfg "request_path" (PStr "/"))) in
  if starts_with [chr 47] (String.list_ascii_of_string path) then path else "/" +:+ path.

(** [endpoint_ref] is a string where it is set. *)
Definition _build_provider_url (services : list (string * value)) (cfg : data) : result Exn string :=
  match dict_get_or cfg "endpoint_ref" PNone with
  | PStr ref =>
      _ ← guard (str_truthy ref)
            (mkExn EndpointResolutionError ("provider config is missing 'endpoint_ref': " +:+ py_repr (PDict cfg)));
      '(base_url, _) ← _resolve_service_endpoint services ref;
      Ok (rstrip_slash base_url +:+ request_path cfg)
  | _ => Err (mkExn EndpointResolutionError ("provider config is missing 'endpoint_ref': " +:+ py_repr (PDict cfg)))
  end.

(** The full URL of a provider; the two adapters that make no request of
    their own have none, but a declared endpoint must still resolve. *)
Definition _resolve_url (rt : Runtime) (cfg : data) : result Exn string :=
  _ ← match dict_get_or cfg "endpoint_ref" (PStr "") with
      | PStr ref => if str_truthy ref then _ ← _resolve_service_endpoint (_services rt) ref; Ok tt else Ok tt
      | _ => Ok tt
      end;
  if has_adapter cfg "gpu_manager_generation" || has_adapter cfg "local_pipeline" then Ok ""
  else _build_provider_url (_services rt) cfg.

End Endpoints.

(** ** Timing *)

Record Timing := mkTiming { request_timeout : Z; retry_delay : Z; retry_backoff : Z; retry_max_delay : Z }.

Section Timing.
(** [float] of a [str]; [None] is [ValueError]. *)
Variable float_of_str : string -> option Z.

(** Beyond every bound below, as [nan] and [inf] are. *)
Definition out_of_range : Z := seconds (10 ^ 9).

(** [float] of a value, as microseconds (for the multiplier: millionths). *)
Definition micros (v : value) : option Z :=
  match v with
  | PInt n => Some (seconds n)
  | PFloat us => Some us
  | PBool b => Some (if b then seconds 1 else 0)
  | PStr s => float_of_str s
  | PNan | PInfinity => Some out_of_range
  | PNone | PList _ | PDict _ => None
  end.

Definition timing_error (text : string) : Exn := mkExn ProviderRuntimeError text.

Definition timing_number (cfg : data) (key : string) (dflt : Z) : result Exn Z :=
  match micros (dict_get_or cfg key (PFloat dflt)) with
  | Some n => Ok n
  | None => Err (timing_error "invalid HTTP provider timing value")
  end.

Definition within (lo n hi : Z) : bool := (lo <=? n) && (n <=? hi).

Definition _resolve_http_provider_timing (cfg : data) : result Exn Timing :=
  timeout ← timing_number cfg "request_timeout_seconds" (seconds 30);
  delay ← timing_number cfg "retry_delay_seconds" 0;
  backoff ← timing_number cfg "retry_backoff_multiplier" (seconds 1);
  max_delay ← timing_number cfg "retry_max_delay_seconds" delay;
  _ ← guard (within (seconds 1) timeout (seconds 900)) (timing_error "request_timeout_seconds must be within [1, 900]");
  _ ← guard (within 0 delay (seconds 300)) (timing_error "retry_delay_seconds must be within [0, 300]");
  _ ← guard (within (seconds 1) backoff (seconds 10)) (timing_error "retry_backoff_multiplier must be within [1, 10]");
  _ ← guard (within delay max_delay (seconds 300))
        (timing_error "retry_max_delay_seconds must be within [retry_delay_seconds, 300]");
  Ok (mkTiming timeout delay backoff max_delay).

End Timing.

(** ** The JSON provider *)

Record Request := mkRequest { method : string; url : string; body : value; timeout : Z }.

(** [body] of a response is [None] when it is not JSON. *)
Record Response := mkResponse { http_status : Z; response_body : option value; reason : string }.

(** Parameters of a stage that address the transport, not the provider. *)
Definition http_keys : list string := ["endpoint"; "allow_http"; "timeout"; "headers"; "auth_header"].

Definition clean_params (params : data) : data := filter (fun i => i.1 ∉ http_keys) params.

Definition dict_of_dicts (d : list (string * data)) : value := PDict ((fun i => (i.1, PDict i.2)) <$> d).

Definition context_payload (c : StageContext) : value :=
  PDict [("original_prompt", PStr (original_prompt c)); ("enhanced_prompts", PDict (enhanced_prompts c));
         ("artifacts", dict_of_dicts (artifacts c)); ("qc_results", dict_of_dicts (qc_results c))].

Definition optional_int (o : option Z) : value := match o with Some n => PInt n | None => PNone end.

Definition stage_payload (ct : Contract) (declared s : StageDef) (c : StageContext) : value :=
  PDict [("pipeline", PDict [("schema", ct_schema ct); ("original_prompt", PStr (original_prompt c))]);
         ("stage", PDict [("id", PStr (sd_id s)); ("kind", PStr (sd_kind s)); ("provider", PStr (sd_provider s));
                          ("params", PDict (clean_params (sd_params s)));
                          ("depends_on", PList (PStr <$> sd_depends_on declared));
                          ("retries", optional_int (sd_retries declared))]);
         ("context", context_payload c)].

Definition http_error_text (r : Response) : string :=
  let code := "HTTP " +:+ pretty (http_status r) in
  match response_body r with
  | Some (PDict d) => py_str (dict_get_or d "error" (PStr code))
  | Some (PStr s) => str_take 500 s
  | _ => code +:+ " " +:+ reason r
  end.

Definition http_ok (r : Response) : bool := (200 <=? http_status r) && (http_status r <? 300).

(** The terminal statuses and their aliases; any other one is an error. *)
Definition status_word (v : value) : string := py_lower (py_strip (py_str (value_or v (PStr "ok")))).

Definition terminal_status (s : string) : option StageStatus :=
  if bool_decide (s ∈ ["completed"; "success"; "succeeded"; "ok"]) then Some ok
  else if String.eqb s "failed" then Some failed
  else if String.eqb s "skipped" then Some skipped
  else None.

Definition is_true (v : option value) : bool := match v with Some (PBool true) => true | _ => false end.
Definition is_false (v : option value) : bool := match v with Some (PBool false) => true | _ => false end.

Definition provider_error {A} (text : string) : result Exn A := Err (mkExn DispatchProviderError text).

(** What the JSON provider makes of a response. *)
Definition read_response (endpoint : string) (s : StageDef) (r : Response) : result Exn StageResult :=
  let sid := py_repr_str (sd_id s) in
  if negb (http_ok r) then
    provider_error ("provider HTTP error for stage " +:+ sid +:+ " at " +:+ endpoint +:+ ": "
      +:+ _redact_secrets (http_error_text r))
  else
    match response_body r with
    | Some (PDict d) =>
        match dict_get_or d "data" (PDict []) with
        | PDict items =>
            let word := status_word (dict_get_or d "status" (PStr "ok")) in
            match terminal_status word with
            | None =>
                provider_error ("provider returned nonterminal status " +:+ py_repr_str word
                  +:+ " for stage " +:+ sid +:+ "; declare a bounded poll/fetch flow")
            | Some st =>
                let err := _redact_secrets (py_str (dict_get_or d "error" (PStr ""))) in
                if String.eqb (sd_kind s) "qc" && bool_decide (st = ok) && is_false (dict_get items "qc_pass")
                then Ok (mkStageResult (sd_id s) (sd_kind s) (sd_provider s) failed items
                           (py_or err "quality gate returned qc_pass=false") 0)
                else Ok (mkStageResult (sd_id s) (sd_kind s) (sd_provider s) st items err 0)
            end
        | _ => provider_error ("provider returned non-object data for stage " +:+ sid)
        end
    | _ => provider_error ("provider returned 2xx for stage " +:+ sid +:+ " but response is not JSON dict")
    end.

Section JsonProvider.
Context {W : Type}.
(** The transport may raise. *)
Variable request : Request -> eff W Response.

(** [_HttpPipelineProviderWrapper.dispatch] *)
Definition json_dispatch (ct : Contract) (endpoint_url : string) (request_timeout_seconds : Z)
    (s : StageDef) (c : StageContext) : eff W StageResult :=
  match dict_get (defs_of (stages_of ct)) (sd_id s) with
  | None => throw EndpointResolutionError ("stage " +:+ py_repr_str (sd_id s) +:+ " not found in pipeline contract")
  | Some declared =>
      if negb (str_truthy endpoint_url) then
        throw EndpointResolutionError
          "provider has no resolved URL (gpu_manager_generation adapter? use build_gpu_adapter() instead)"
      else
        r ← request (mkRequest "POST" endpoint_url (stage_payload ct declared s c) request_timeout_seconds);
        lift (read_response endpoint_url s r)
  end.

End JsonProvider.

(** ** The retrying HTTP executor *)

Definition _result_has_artifact (r : StageResult) : bool :=
  existsb (fun k => match dict_get (result_data r) k with Some _ => true | None => false end)
    ["artifact_path"; "artifact_url"; "file_path"].

Definition _qc_result_is_failing (r : StageResult) : bool :=
  String.eqb (kind r) "qc" && is_false (dict_get (result_data r) "qc_pass").

Definition _update_context_from_result : string -> string -> StageResult -> StageContext -> StageContext :=
  _update_context.

Definition param_is_true (s : StageDef) (key : string) : bool := is_true (dict_get (sd_params s) key).
Definition param_truthy (s : StageDef) (key : string) : bool := py_truthy (dict_get_or (sd_params s) key PNone).

(** The fan-in gate both executors share: the first dependency that has no
    result, or whose result is failed or skipped and is not a failing quality
    verdict the stage may consume. *)
Fixpoint fan_in_gate (consumes : bool) (map : list (string * StageResult)) (deps : list string)
    : Gate * option StageResult :=
  match deps with
  | [] => (Clear, None)
  | d :: deps' =>
      match dict_get map d with
      | None => (Missing d, None)
      | Some r =>
          if bool_decide (status r = ok) || consumes && _qc_result_is_failing r
          then fan_in_gate consumes map deps'
          else (Blocked d, Some r)
      end
  end.

Definition no_result_error (s : StageDef) (dep : string) : Exn :=
  mkExn DispatchContextError
    ("stage " +:+ py_repr_str (sd_id s) +:+ " depends on " +:+ py_repr_str dep +:+ " which has no result").

Definition blocked_result (s : StageDef) (dep : string) (r : StageResult) : StageResult :=
  skip_result s ("depends_on stage " +:+ py_repr_str dep +:+ " is " +:+ status_text (status r)).

(** The quality stages a stage depends on, one of which passed. *)
Definition qc_passed (map : list (string * StageResult)) (s : StageDef) : bool :=
  existsb (fun d => match dict_get map d with
                    | Some r => String.eqb (kind r) "qc" && is_true (dict_get (result_data r) "qc_pass")
                    | None => false
                    end) (sd_depends_on s).

Definition not_needed (s : StageDef) : StageResult := skip_result s "QC passed; correction not needed".

Section HttpExecutor.
Context {W : Type}.
(** The wrapped provider: the JSON one, or a declared flow. *)
Variable provider_dispatch : StageDef -> StageContext -> eff W StageResult.

Definition with_retries (r : StageResult) (n : Z) : StageResult :=
  mkStageResult (stage_id r) (kind r) (provider r) (status r) (result_data r) (error r) n.

(** The retry loop: [left] failures are still forgiven after [consumed].  The
    result, and whether the provider returned it. *)
Fixpoint http_attempts (left : nat) (bound : Z) (s : StageDef) (c : StageContext) (consumed : Z)
    : eff W (bool * StageResult) :=
  catch is_provider_error
    (r ← provider_dispatch s c; mret (true, with_retries r consumed))
    (fun e =>
       match left with
       | O => mret (false, failed_result s
                ("retries exhausted (" +:+ pretty bound +:+ "): " +:+ _redact_secrets (exn_text e)) (consumed + 1))
       | S left' => http_attempts left' bound s c (consumed + 1)
       end).

(** What a returned result does to the context: a failed quality verdict is
    recorded as evidence too. *)
Definition http_context (s : StageDef) (r : StageResult) (c : StageContext) : StageContext :=
  if is_ok r then _update_context_from_result (sd_id s) (sd_kind s) r c
  else if String.eqb (sd_kind s) "qc" then with_qc c (sd_id s) (result_data r)
  else c.

Definition http_retries (s : StageDef) : Z := default 3 (sd_retries s).

Record Dispatched := mkDispatched {
  d_context : StageContext; d_map : list (string * StageResult); d_results : list StageResult }.

Definition add_result (d : Dispatched) (sid : string) (r : StageResult) : Dispatched :=
  mkDispatched (d_context d) (dict_set (d_map d) sid r) (d_results d ++ [r]).

(** One stage of [_HttpExecutorWrapper.dispatch]. *)
Definition http_stage (d : Dispatched) (s : StageDef) : eff W Dispatched :=
  match fan_in_gate (String.eqb (sd_kind s) "correct" && param_is_true s "run_on_qc_fail")
          (d_map d) (sd_depends_on s) with
  | (Missing dep, _) => lift (Err (no_result_error s dep))
  | (Blocked dep, Some r) => mret (add_result d (sd_id s) (blocked_result s dep r))
  | _ =>
      '(returned, r) ← http_attempts (async_rounds (http_retries s)) (http_retries s) s (d_context d) 0;
      let c := if returned : bool then http_context s r (d_context d) else d_context d in
      let d' := add_result (mkDispatched c (d_map d) (d_results d)) (sd_id s) r in
      if returned && String.eqb (sd_kind s) "correct" && is_ok r && param_is_true s "run_on_qc_fail"
         && qc_passed (d_map d') s
      then mret (add_result d' (sd_id s) (not_needed s))
      else mret d'
  end.

Fixpoint http_stages (d : Dispatched) (stages : list StageDef) : eff W Dispatched :=
  match stages with
  | [] => mret d
  | s :: stages' => d' ← http_stage d s; http_stages d' stages'
  end.

(** [_HttpExecutorWrapper.dispatch] *)
Definition http_dispatch (stages : list StageDef) (c : StageContext) (map : list (string * StageResult))
    : eff W Dispatched :=
  http_stages (mkDispatched c map []) stages.

End HttpExecutor.
