(* ===== verification/StageComposite.v ===== *)
(** * StageComposite: one pipeline over several providers

    Models [CompositeProviderExecutor] and its construction
    ([scripts/pipeline_provider_runtime.py]): the gates in front of a stage,
    the dispatch to HTTP, GPU and local-pipeline providers, delegation to
    child pipelines, seeded worker results and the bounded correction loops.
    The provider behind an HTTP executor and the GPU executors are effectful
    parameters.  Delegation recurses under the depth the context carries;
    the recursion is cut by fuel, which [delegation_bounded] shows is never
    used up. *)

From stdpp Require Import pretty infinite.
From S2P Require Import Prelude PyValue PyText StageDispatch StageRuntime.

(** ** The executor *)

Record HttpBinding := mkHttpBinding { hb_provider : string; hb_url : string; hb_timing : Timing }.

Record Composite := mkComposite {
  cx_contract : Contract; _executors : list (string * HttpBinding); _gpu_executors : list string;
  _max_corrections : Z; _loops : list Loop; _max_delegate_depth : Z;
  _transport_map : list string; _has_factory : bool }.

(** [_loop_by_trigger], where the last entry of a trigger counts. *)
Definition _loop_by_trigger (ex : Composite) (sid : string) : option Loop :=
  dict_get (fold_left (fun d lp => dict_set d (trigger_stage_id lp) lp) (_loops ex) []) sid.

Definition is_loop_correction (ex : Composite) (sid : string) : bool :=
  existsb (fun lp => String.eqb (correction_stage_id lp) sid) (_loops ex).

Definition missing_factory (provider_id : string) : Exn :=
  mkExn MissingExecutorFactoryError
    ("provider " +:+ py_repr_str provider_id +:+ " uses gpu_manager_generation adapter but "
     +:+ "stage_executor_factory was not provided; pass stage_executor_factory to allow "
     +:+ "gpu_manager_generation stages").

Definition bounded_0_5 (name : string) (n : Z) : result Exn unit :=
  guard (within 0 n 5) (mkExn ProviderRuntimeError
    (name +:+ " " +:+ pretty n +:+ " is outside the bounded range 0..5")).

Section Building.
Variable rt : Runtime.
Variable _validate_service_endpoint : string -> string -> data -> result Exn unit.
Variable float_of_str : string -> option Z.

(** One entry of the transport map: an executor over HTTP, a GPU executor, or
    none (a local pipeline, an HTTP provider without an endpoint). *)
Definition add_transport (factory : bool) (acc : list (string * HttpBinding) * list string)
    (provider_id : string) : result Exn (list (string * HttpBinding) * list string) :=
  cfg ← _resolve_provider_config rt provider_id;
  if has_adapter cfg "gpu_manager_generation" then
    _ ← guard factory (missing_factory provider_id); Ok (acc.1, acc.2 ++ [provider_id])
  else if has_adapter cfg "local_pipeline" then Ok acc
  else
    match _resolve_url _validate_service_endpoint rt cfg with
    | Err e => if decide (exn_class e = EndpointResolutionError) then Ok acc else Err e
    | Ok url =>
        timing ← _resolve_http_provider_timing float_of_str cfg;
        Ok (acc.1 ++ [(provider_id, mkHttpBinding provider_id url timing)], acc.2)
    end.

Fixpoint add_transports (factory : bool) (acc : list (string * HttpBinding) * list string)
    (ids : list string) : result Exn (list (string * HttpBinding) * list string) :=
  match ids with
  | [] => Ok acc
  | pid :: ids' => acc' ← add_transport factory acc pid; add_transports factory acc' ids'
  end.

(** The GPU executors of stages outside the transport map. *)
Fixpoint add_stage_executors (factory : bool) (gpu : list string) (stages : list StageDef)
    : result Exn (list string) :=
  match stages with
  | [] => Ok gpu
  | s :: stages' =>
      let pid := sd_provider s in
      if negb (str_truthy pid) || bool_decide (pid ∈ gpu) then add_stage_executors factory gpu stages'
      else
        match _resolve_provider_config rt pid with
        | Err _ => add_stage_executors factory gpu stages'
        | Ok cfg =>
            if has_adapter cfg "gpu_manager_generation" then
              _ ← guard factory (missing_factory pid);
              add_stage_executors factory (gpu ++ [pid]) stages'
            else add_stage_executors factory gpu stages'
        end
  end.

(** [build_multi_provider_executor], with the checks of the constructor. *)
Definition build_multi_provider_executor (ct : Contract) (transport_map : list string)
    (factory : bool) (max_delegate_depth : Z) (max_corrections : option Z) : result Exn Composite :=
  '(http, gpu) ← add_transports factory ([], []) transport_map;
  gpu' ← add_stage_executors factory gpu (stages_of ct);
  let bound := default (default (default 1 (ct_max_loop_count ct)) (ct_max_corrections ct)) max_corrections in
  _ ← bounded_0_5 "max_corrections" bound;
  _ ← bounded_0_5 "max_delegate_depth" max_delegate_depth;
  Ok (mkComposite ct http gpu' bound (ct_loops ct) max_delegate_depth transport_map factory).

End Building.

(** ** The gates of a stage *)

Definition loop_bound_text (bound : Z) : string :=
  "correction loop bound: max_corrections " +:+ pretty bound +:+ " reached; max_loop_count "
  +:+ pretty bound +:+ " reached".

(** A generate stage needs the artifact of every generate stage before it. *)
Definition missing_artifact (map : list (string * StageResult)) (s : StageDef) : option string :=
  if String.eqb (sd_kind s) "generate" then
    List.find (fun d => match dict_get map d with
                        | Some r => String.eqb (kind r) "generate" && negb (_result_has_artifact r)
                        | None => false
                        end) (sd_depends_on s)
  else None.

Definition no_artifact_result (s : StageDef) (dep : string) : StageResult :=
  failed_result s ("depends_on stage '" +:+ dep +:+ "' produced no artifact; generate stage cannot proceed") 0.

(** A correction may consume a failing quality verdict. *)
Definition consumes_verdict (ex : Composite) (s : StageDef) : bool :=
  String.eqb (sd_kind s) "correct" &&
  (param_is_true s "run_on_qc_fail" || is_loop_correction ex (sd_id s)).

(** The result of a stage that settles without a provider, if it does. *)
Definition settled (ex : Composite) (map : list (string * StageResult)) (c : StageContext) (s : StageDef)
    : result Exn (option StageResult) :=
  if String.eqb (sd_kind s) "correct" && (_max_corrections ex <=? correction_loop_count c)
  then Ok (Some (skip_result s (loop_bound_text (_max_corrections ex))))
  else
    match fan_in_gate (consumes_verdict ex s) map (sd_depends_on s) with
    | (Missing dep, _) => Err (no_result_error s dep)
    | (Blocked dep, Some r) => Ok (Some (blocked_result s dep r))
    | _ =>
        if String.eqb (sd_kind s) "correct" && param_truthy s "run_on_qc_fail" && qc_passed map s
        then Ok (Some (not_needed s))
        else
          match missing_artifact map s with
          | Some dep => Ok (Some (no_artifact_result s dep))
          | None => Ok None
          end
    end.

(** ** Child contexts *)

Definition result_value (r : StageResult) : value :=
  PDict [("stage_id", PStr (stage_id r)); ("kind", PStr (kind r)); ("provider", PStr (provider r));
         ("status", PStr (status_text (status r))); ("data", PDict (result_data r));
         ("error", PStr (error r)); ("retries", PInt (retries r))].

(** [dataclasses.asdict(child_context)] with the results of the child. *)
Definition child_payload (c : StageContext) (rs : list StageResult) : data :=
  [("original_prompt", PStr (original_prompt c)); ("prompt_target", PStr (prompt_target c));
   ("enhanced_prompts", PDict (enhanced_prompts c)); ("artifacts", dict_of_dicts (artifacts c));
   ("qc_results", dict_of_dicts (qc_results c));
   ("retry_count", PDict ((fun i => (i.1, PInt i.2)) <$> retry_count c));
   ("correction_loop_count", PInt (correction_loop_count c)); ("errors", PList (PStr <$> errors c));
   ("delegate_depth", PInt (delegate_depth c)); ("nested_contexts", dict_of_dicts (nested_contexts c));
   ("results", PList (result_value <$> rs))].

(** The items of a nested dict; the payload of a child only holds dicts where
    one is expected. *)
Definition items_of (v : value) : list (string * value) := match v with PDict d => d | _ => [] end.

Definition namespaced (sid child : string) : string := sid +:+ "." +:+ child.

Definition merge_items {A} (sid : string) (f : value -> A) (own : list (string * A)) (nested : value)
    : list (string * A) :=
  fold_left (fun d i => dict_set d (namespaced sid i.1) (f i.2)) (items_of nested) own.

Definition _merge_nested_context (sid : string) (r : StageResult) (c : StageContext) : StageContext :=
  let c1 := with_artifact c sid (result_data r) in
  match dict_get (result_data r) "child_context" with
  | Some (PDict nested) =>
      with_nested_context
        (c1 ⟪ artifacts := merge_items sid items_of (artifacts c1) (dict_get_or nested "artifacts" (PDict [])) ⟫
            ⟪ enhanced_prompts := merge_items sid (fun v => PStr (py_str v)) (enhanced_prompts c1)
                                    (dict_get_or nested "enhanced_prompts" (PDict [])) ⟫
            ⟪ qc_results := merge_items sid items_of (qc_results c1) (dict_get_or nested "qc_results" (PDict [])) ⟫)
        sid nested
  | _ => c1
  end.

(** ** Dispatching *)

Section Dispatching.
Context {W : Type}.
Variable rt : Runtime.
Variable _validate_service_endpoint : string -> string -> data -> result Exn unit.
Variable float_of_str : string -> option Z.
(** The provider an HTTP executor wraps, built for a contract; the executor
    the factory made for a GPU provider. *)
Variable http_provider : Contract -> HttpBinding -> StageDef -> StageContext -> eff W StageResult.
Variable gpu_provider : string -> StageDef -> StageContext -> eff W StageResult.

Definition delegate_failed (s : StageDef) (text : string) : StageResult :=
  mkStageResult (sd_id s) "delegate" (sd_provider s) failed [] text 0.

(** [params.get("pipeline_id", params.get("delegate_pipeline_id"))], a string
    that is not blank. *)
Definition delegated_id (params : data) : option string :=
  match dict_get_or params "pipeline_id" (dict_get_or params "delegate_pipeline_id" PNone) with
  | PStr id => if str_truthy (py_strip id) then Some id else None
  | _ => None
  end.

Definition unsuccessful (r : StageResult) : bool := negb (is_ok r).

Definition delegated_result (s : StageDef) (id : string) (c : StageContext) (rs : list StageResult)
    : StageResult :=
  let payload := [("pipeline_id", PStr id); ("child_context", PDict (child_payload c rs))] in
  match List.find unsuccessful rs with
  | Some r =>
      mkStageResult (sd_id s) "delegate" (sd_provider s) failed payload
        ("delegated pipeline stage " +:+ py_repr_str (stage_id r) +:+ " was " +:+ status_text (status r)) 0
  | None => mkStageResult (sd_id s) "delegate" (sd_provider s) ok payload "" 0
  end.

(** [except (DispatchError, KeyError, TypeError, ValueError)] *)
Definition delegation_catches (e : Exn) : bool :=
  is_dispatch_error e || bool_decide (exn_class e = LookupTypeOrValueError).

Section OneLevel.
(** The dispatch of a child pipeline, one level down. *)
Variable dispatch_child : Composite -> list StageDef -> StageContext -> eff W (StageContext * list StageResult).
Variable ex : Composite.

Definition _dispatch_local_pipeline (s : StageDef) (c : StageContext) : eff W StageResult :=
  match delegated_id (sd_params s) with
  | None => mret (delegate_failed s "delegate stage requires a non-empty pipeline_id")
  | Some id =>
      if _max_delegate_depth ex <=? delegate_depth c then
        mret (delegate_failed s ("delegate depth " +:+ pretty (delegate_depth c)
          +:+ " reached max_delegate_depth " +:+ pretty (_max_delegate_depth ex)))
      else
        match dict_get (_pipelines rt) id with
        | None | Some None => mret (delegate_failed s ("unknown delegated pipeline " +:+ py_repr_str id))
        | Some (Some child) =>
            match stages_of child with
            | [] => mret (delegate_failed s ("delegated pipeline " +:+ py_repr_str id +:+ " has no stages"))
            | child_stages =>
                catch delegation_catches
                  (child_ex ← lift (build_multi_provider_executor rt _validate_service_endpoint float_of_str
                     child (_transport_map ex) (_has_factory ex) (_max_delegate_depth ex)
                     (Some (_max_corrections ex)));
                   '(child_c, rs) ← dispatch_child child_ex child_stages
                     (with_delegate_depth c (delegate_depth c + 1));
                   mret (delegated_result s id child_c rs))
                  (fun e => mret (delegate_failed s
                     (_redact_secrets ("delegated pipeline failed: " +:+ exn_text e))))
            end
        end
  end.

(** The context after a result that no executor has applied yet. *)
Definition noted (s : StageDef) (r : StageResult) (ok_context c : StageContext) : StageContext :=
  if is_ok r then ok_context else with_error c (returned_error (sd_id s) r).

Definition run_local (d : Dispatched) (s : StageDef) : eff W (Dispatched * StageResult) :=
  _ ← lift (validate_stage_kind rt (sd_provider s) (sd_kind s));
  r ← _dispatch_local_pipeline s (d_context d);
  mret (mkDispatched (noted s r (_merge_nested_context (sd_id s) r (d_context d)) (d_context d))
          (d_map d) (d_results d), r).

Definition run_gpu (d : Dispatched) (s : StageDef) : eff W (Dispatched * StageResult) :=
  if decide (sd_provider s ∈ _gpu_executors ex) then
    r ← catch is_provider_error (gpu_provider (sd_provider s) s (d_context d))
          (fun e => mret (failed_result s (exn_text e) 0));
    let c := noted s r (_update_context (sd_id s) (sd_kind s) r (d_context d)) (d_context d) in
    let c' := if String.eqb (sd_kind s) "qc" then with_qc c (sd_id s) (result_data r) else c in
    mret (mkDispatched c' (d_map d) (d_results d), r)
  else throw MissingExecutorFactoryError
    ("stage " +:+ py_repr_str (sd_id s) +:+ " uses provider " +:+ py_repr_str (sd_provider s)
     +:+ " (gpu_manager_generation) but no executor was provided").

Definition run_http (d : Dispatched) (s : StageDef) : eff W (Dispatched * StageResult) :=
  match dict_get (_executors ex) (sd_provider s) with
  | None => throw UnknownProviderError
      ("stage " +:+ py_repr_str (sd_id s) +:+ " references provider " +:+ py_repr_str (sd_provider s)
       +:+ " which is not in the transport map; available providers: "
       +:+ py_repr_list (py_sorted (_executors ex).*1))
  | Some binding =>
      _ ← lift (validate_stage_kind rt (sd_provider s) (sd_kind s));
      d' ← http_dispatch (http_provider (cx_contract ex) binding) [s] (d_context d) (d_map d);
      let r := default (failed_result s "no result from executor" 0) (head (d_results d')) in
      let c := d_context d' in
      let c1 := if String.eqb (sd_kind s) "qc" then with_qc c (sd_id s) (result_data r) else c in
      let c2 := if is_ok r then c1 else with_error c1 (returned_error (sd_id s) r) in
      mret (mkDispatched c2 (d_map d') (d_results d), r)
  end.

(** [_dispatch_single_stage]; the results are the caller's to record. *)
Definition _dispatch_single_stage (d : Dispatched) (s : StageDef) : eff W (Dispatched * StageResult) :=
  early ← lift (settled ex (d_map d) (d_context d) s);
  match early with
  | Some r => mret (d, r)
  | None =>
      if adapter_of rt (sd_provider s) "local_pipeline" then run_local d s
      else if adapter_of rt (sd_provider s) "gpu_manager_generation" then run_gpu d s
      else run_http d s
  end.

(** A dispatch and its record ([_record_stage_result]). *)
Definition run_stage (d : Dispatched) (s : StageDef) : eff W (Dispatched * StageResult) :=
  '(d', r) ← _dispatch_single_stage d s; mret (add_result d' (sd_id s) r, r).

(** ** Correction loops *)

Definition in_context (d : Dispatched) (f : StageContext -> StageContext) : Dispatched :=
  mkDispatched (f (d_context d)) (d_map d) (d_results d).

Definition loop_text (lp : Loop) (text : string) : string := "loop " +:+ loop_id lp +:+ ": " +:+ text.

(** The terminal result of a loop whose bound is used up. *)
Definition terminal_result (s : StageDef) (lp : Loop) (iteration : Z) : StageResult :=
  mkStageResult (sd_id s) "qc" (sd_provider s) skipped
    [("qc_pass", PBool false);
     ("loop_evidence", PDict
        [("loop_id", PStr (loop_id lp)); ("iteration", PInt iteration);
         ("reason", PStr (loop_text lp ("max_iterations " +:+ pretty (max_iterations lp)
            +:+ " exhausted; qc_pass=false persisted in qc_results")))])]
    (loop_text lp ("max_iterations " +:+ pretty (max_iterations lp)
       +:+ " reached (max_loop_count bound); qc_pass=false; correction loop bound exhausted")) 0.

(** [results[-1] = r] when the last result is the stage's, else an append. *)
Definition replace_last (rs : list StageResult) (r : StageResult) : list StageResult :=
  match last rs with
  | Some r' => if String.eqb (stage_id r') (stage_id r) then take (length rs - 1) rs ++ [r] else rs ++ [r]
  | None => [r]
  end.

Definition close_loop (d : Dispatched) (s : StageDef) (r : StageResult) (rs : list StageResult) : Dispatched :=
  mkDispatched (with_qc (d_context d) (sd_id s) (result_data r)) (dict_set (d_map d) (sd_id s) r) rs.

Section Loops.
Variable _defs : list (string * StageDef).

(** Step 2: the stages of [on_correction], up to the first that failed; the
    last result of the trigger among them. *)
Fixpoint reenter (lp : Loop) (s : StageDef) (ids : list string) (d : Dispatched)
    (verdict : option StageResult) : eff W (Dispatched * option StageResult) :=
  match ids with
  | [] => mret (d, verdict)
  | id :: ids' =>
      match dict_get _defs id with
      | None =>
          reenter lp s ids'
            (in_context d (fun c => with_error c
               (loop_text lp ("on_correction stage " +:+ py_repr_str id +:+ " not found in pipeline")))) verdict
      | Some st =>
          '(d', r) ← run_stage d st;
          let verdict' := if String.eqb id (sd_id s) && String.eqb (kind r) "qc" then Some r else verdict in
          if decide (status r = failed) then
            mret (in_context d' (fun c => with_error c
              (loop_text lp ("on_correction stage " +:+ py_repr_str id +:+ " failed: " +:+ error r))), verdict')
          else reenter lp s ids' d' verdict'
      end
  end.

(** The verdict of an iteration: the trigger re-entered, or run again. *)
Definition rerun_verdict (s : StageDef) (d : Dispatched) (verdict : option StageResult)
    : eff W (Dispatched * StageResult) :=
  match verdict with
  | Some r => mret (d, r)
  | None =>
      '(d', r) ← run_stage d s;
      mret (in_context d' (fun c => with_qc c (sd_id s) (result_data r)), r)
  end.

(** The loop: [left] iterations remain, the next one is number [iteration]. *)
Fixpoint correction_loop (left : nat) (iteration : Z) (lp : Loop) (s : StageDef) (d : Dispatched)
    : eff W Dispatched :=
  match left with
  | O =>
      let r := terminal_result s lp (iteration - 1) in
      mret (close_loop d s r (d_results d ++ [r]))
  | S left' =>
      match dict_get _defs (correction_stage_id lp) with
      | None =>
          mret (in_context d (fun c => with_error c
            (loop_text lp ("correction stage " +:+ py_repr_str (correction_stage_id lp)
               +:+ " not found in pipeline"))))
      | Some cs =>
          '(d1, rc) ← run_stage d cs;
          if decide (status rc = failed) then
            mret (in_context d1 (fun c => with_error c
              (loop_text lp ("correction stage " +:+ py_repr_str (correction_stage_id lp)
                 +:+ " failed: " +:+ error rc))))
          else
            '(d2, verdict) ← reenter lp s (on_correction lp) d1 None;
            '(d3, rq) ← rerun_verdict s d2 verdict;
            if String.eqb (kind rq) "qc" && is_true (dict_get (result_data rq) "qc_pass") then mret d3
            else if max_iterations lp <=? iteration then
              let r := terminal_result s lp iteration in
              mret (close_loop d3 s r (replace_last (d_results d3) r))
            else correction_loop left' (iteration + 1) lp s d3
      end
  end.

(** ** The pipeline *)

Definition seeded_correction (s : StageDef) : StageResult :=
  skip_result s ("non-loop correct stage seeded from worker handoff; "
    +:+ "correction was applied by worker and is not re-executed").

(** A loop's correction whose quality stage passed leaves no trace. *)
Definition omitted (d : Dispatched) (s : StageDef) : bool :=
  String.eqb (sd_kind s) "correct" && param_truthy s "run_on_qc_fail"
  && is_loop_correction ex (sd_id s) && qc_passed (d_map d) s.

(** The result of a stage whose turn it is: its seeded one, or a dispatch. *)
Definition own_result (d : Dispatched) (s : StageDef) : eff W (Dispatched * StageResult) :=
  match dict_get (d_map d) (sd_id s) with
  | Some r =>
      if String.eqb (sd_kind s) "qc" && bool_decide (is_Some (_loop_by_trigger ex (sd_id s)))
         && is_true (dict_get (result_data r) "qc_pass")
      then mret (add_result d (sd_id s) r, r)
      else mret (d, r)
  | None => run_stage d s
  end.

Definition is_seeded (d : Dispatched) (s : StageDef) : bool :=
  match dict_get (d_map d) (sd_id s) with Some _ => true | None => false end.

(** One round of the loop over the stages. *)
Definition dispatch_stage (d : Dispatched) (s : StageDef) : eff W Dispatched :=
  if omitted d s then mret d
  else if String.eqb (sd_kind s) "correct" && is_seeded d s && negb (is_loop_correction ex (sd_id s))
  then mret (add_result d (sd_id s) (seeded_correction s))
  else
    '(d1, r) ← own_result d s;
    match _loop_by_trigger ex (sd_id s) with
    | Some lp =>
        if String.eqb (sd_kind s) "qc" && String.eqb (kind r) "qc" && is_false (dict_get (result_data r) "qc_pass")
        then correction_loop (Z.to_nat (max_iterations lp)) 1 lp s d1
        else mret d1
    | None => mret d1
    end.

Fixpoint dispatch_stages (d : Dispatched) (stages : list StageDef) : eff W Dispatched :=
  match stages with
  | [] => mret d
  | s :: stages' => d' ← dispatch_stage d s; dispatch_stages d' stages'
  end.

End Loops.

(** A worker's results before the first stage; the first of an identity
    counts. *)
Definition seed (d : Dispatched) (r : StageResult) : Dispatched :=
  match dict_get (d_map d) (stage_id r) with
  | Some _ => d
  | None =>
      let c := if is_ok r then _update_context (stage_id r) (kind r) r (d_context d) else d_context d in
      let c' := if String.eqb (kind r) "qc" then with_qc c (stage_id r) (result_data r) else c in
      mkDispatched c' (dict_set (d_map d) (stage_id r) r) (d_results d)
  end.

(** [stage_defs] defaults to the stages themselves. *)
Definition dispatch_level (stages : list StageDef) (stage_defs : option (list (string * StageDef)))
    (c : StageContext) (seeded_results : list StageResult) : eff W Dispatched :=
  dispatch_stages (default (defs_of stages) stage_defs)
    (fold_left seed seeded_results (mkDispatched c [] []))
    stages.

End OneLevel.

(** What ends a delegation deeper than the fuel; never reached. *)
Variable out_of_fuel : Exn.

Fixpoint dispatch_fuel (fuel : nat) (ex : Composite) (stages : list StageDef)
    (stage_defs : option (list (string * StageDef))) (c : StageContext)
    (seeded_results : list StageResult) : eff W (StageContext * list StageResult) :=
  d ← dispatch_level
        (match fuel with
         | O => fun _ _ _ => lift (Err out_of_fuel)
         | S fuel' => fun child_ex child_stages child_c => dispatch_fuel fuel' child_ex child_stages None child_c []
         end) ex stages stage_defs c seeded_results;
  mret (d_context d, d_results d).

(** The levels of delegation the depth of the context still allows. *)
Definition levels (ex : Composite) (c : StageContext) : nat :=
  Z.to_nat (_max_delegate_depth ex - delegate_depth c).

(** [CompositeProviderExecutor.dispatch] *)
Definition composite_dispatch (ex : Composite) (stages : list StageDef)
    (stage_defs : option (list (string * StageDef))) (c : StageContext)
    (seeded_results : list StageResult) : eff W (StageContext * list StageResult) :=
  dispatch_fuel (levels ex c) ex stages stage_defs c seeded_results.

End Dispatching.

(** ** A logic for effects *)

(** [spec m1 m2 k P]: the two computations do the same, at a cost of at most
    [k] in the measure [R] of how the world moved, and a value they return
    satisfies [P]. *)
Section Logic.
Context {W : Type}.
Variable R : nat -> W -> W -> Prop.
Hypothesis R_refl : forall w, R 0 w w.
Hypothesis R_trans : forall a b w1 w2 w3, R a w1 w2 -> R b w2 w3 -> R (a + b) w1 w3.
Hypothesis R_mono : forall a b w w', R a w w' -> (a <= b)%nat -> R b w w'.

Definition spec {A} (m1 m2 : eff W A) (k : nat) (P : A -> Prop) : Prop :=
  forall w, m1 w = m2 w /\ R k w (m1 w).1 /\ forall a, (m1 w).2 = Ok a -> P a.

Lemma spec_weaken {A} (m1 m2 : eff W A) k k' (P P' : A -> Prop) :
  spec m1 m2 k P -> (k <= k')%nat -> (forall a, P a -> P' a) -> spec m1 m2 k' P'.
Proof. intros H Hk HP w. destruct (H w) as (He & HR & Hp). split_and!; eauto. Qed.

Lemma spec_more {A} (m1 m2 : eff W A) k k' P :
  spec m1 m2 k P -> (k <= k')%nat -> spec m1 m2 k' P.
Proof. intros H Hk. by eapply spec_weaken. Qed.

Lemma spec_ret {A} (a : A) k (P : A -> Prop) : P a -> spec (mret a) (mret a) k P.
Proof. intros HP w. split_and!; [done|eapply R_mono; [apply R_refl|lia]|]. by intros ? [= <-]. Qed.

Lemma spec_lift {A} (r : result Exn A) k (P : A -> Prop) :
  (forall a, r = Ok a -> P a) -> spec (lift r) (lift r) k P.
Proof. intros HP w. split_and!; [done|eapply R_mono; [apply R_refl|lia]|apply HP]. Qed.

Lemma spec_bind {A B} (m1 m2 : eff W A) (f1 f2 : A -> eff W B) k1 k2 P Q :
  spec m1 m2 k1 P -> (forall a, P a -> spec (f1 a) (f2 a) k2 Q) ->
  spec (a ← m1; f1 a) (a ← m2; f2 a) (k1 + k2) Q.
Proof.
  intros Hm Hf w. destruct (Hm w) as (He & HR & Hp). unfold mbind, eff_bind.
  destruct (m1 w) as [w1 [a|e]] eqn:H1; rewrite <- He.
  - destruct (Hf a (Hp a eq_refl) w1) as (He2 & HR2 & Hp2). split_and!; eauto.
  - cbn. split_and!; [done|eapply R_mono; [exact HR|lia]|done].
Qed.

(** The rest of a computation whose cost is its first step's. *)
Lemma spec_then {A B} (m1 m2 : eff W A) (f1 f2 : A -> eff W B) k P Q :
  spec m1 m2 k P -> (forall a, P a -> spec (f1 a) (f2 a) 0 Q) ->
  spec (a ← m1; f1 a) (a ← m2; f2 a) k Q.
Proof. intros Hm Hf. replace k with (k + 0)%nat by lia. by eapply spec_bind. Qed.

Lemma spec_catch {A} caught (m1 m2 : eff W A) (h1 h2 : Exn -> eff W A) k1 k2 P :
  spec m1 m2 k1 P -> (forall e, caught e = true -> spec (h1 e) (h2 e) k2 P) ->
  spec (catch caught m1 h1) (catch caught m2 h2) (k1 + k2) P.
Proof.
  intros Hm Hh w. destruct (Hm w) as (He & HR & Hp). unfold catch.
  destruct (m1 w) as [w1 [a|e]]; rewrite <- He.
  - cbn in *. split_and!; [done|eapply R_mono; [exact HR|lia]|done].
  - destruct (caught e) eqn:Hc.
    + destruct (Hh e Hc w1) as (He2 & HR2 & Hp2). split_and!; eauto.
    + cbn in *. split_and!; [done|eapply R_mono; [exact HR|lia]|done].
Qed.

End Logic.

(** ** How a run moves *)

Definition corrections (d : Dispatched) : Z := correction_loop_count (d_context d).

(** From [d] to [d']: the depth stays, results of stages are never forgotten,
    the correction count does not fall and never passes [bound] by growing,
    and at most [m] results are added. *)
Definition grows (bound : Z) (m : nat) (d d' : Dispatched) : Prop :=
  delegate_depth (d_context d') = delegate_depth (d_context d) /\
  (forall k, is_Some (dict_get (d_map d) k) -> is_Some (dict_get (d_map d') k)) /\
  corrections d <= corrections d' <= Z.max (corrections d) bound /\
  (length (d_results d') <= length (d_results d) + m)%nat.

(** What one stage may do to the context. *)
Definition stage_moves (s : StageDef) (c c' : StageContext) : Prop :=
  delegate_depth c' = delegate_depth c /\
  correction_loop_count c <= correction_loop_count c' <=
    correction_loop_count c + (if String.eqb (sd_kind s) "correct" then 1 else 0).

Lemma grows_refl bound d : grows bound 0 d d.
Proof. split_and!; [done|done|lia|lia|lia]. Qed.

Lemma grows_trans bound m m' d1 d2 d3 :
  grows bound m d1 d2 -> grows bound m' d2 d3 -> grows bound (m + m') d1 d3.
Proof.
  intros (Hd1 & Hm1 & Hc1 & Hl1) (Hd2 & Hm2 & Hc2 & Hl2).
  split_and!; [congruence|eauto|lia|lia|lia].
Qed.

Lemma grows_weaken bound m m' d d' : grows bound m d d' -> (m <= m')%nat -> grows bound m' d d'.
Proof. intros (? & ? & ? & ?) ?. split_and!; [done|done|lia|lia|lia]. Qed.

Lemma dict_set_some {A} (m : list (string * A)) sid a k :
  is_Some (dict_get m k) \/ k = sid -> is_Some (dict_get (dict_set m sid a) k).
Proof. rewrite dict_get_set. case_decide; [by eexists|]. by intros [|]. Qed.

Lemma add_result_some d sid r k :
  is_Some (dict_get (d_map d) k) \/ k = sid -> is_Some (dict_get (d_map (add_result d sid r)) k).
Proof. apply dict_set_some. Qed.

Lemma grows_add bound m d d' sid r : grows bound m d d' -> grows bound (S m) d (add_result d' sid r).
Proof.
  intros (? & Hm & ? & ?). split_and!; [done| |unfold corrections in *; cbn; lia..|].
  - intros k Hk. apply add_result_some. auto.
  - cbn. rewrite length_app. cbn. lia.
Qed.

Lemma grows_context bound m d d' f :
  grows bound m d d' ->
  (forall c, delegate_depth (f c) = delegate_depth c /\ correction_loop_count (f c) = correction_loop_count c) ->
  grows bound m d (in_context d' f).
Proof.
  intros (Hd & Hm & Hc & Hl) Hf. destruct (Hf (d_context d')) as [Hf1 Hf2].
  unfold grows, corrections in *. split_and!; cbn; rewrite ?Hf1, ?Hf2; try done; lia.
Qed.

Lemma update_moves s r c : stage_moves s c (_update_context (sd_id s) (sd_kind s) r c).
Proof.
  split; [unfold _update_context; by repeat case_match|]. rewrite update_count.
  destruct (String.eqb (sd_kind s) "correct"); lia.
Qed.

Lemma moves_refl s c : stage_moves s c c.
Proof. split; [done|]. case_match; lia. Qed.

Lemma merge_moves s sid r c : stage_moves s c (_merge_nested_context sid r c).
Proof.
  unfold _merge_nested_context. split; [by repeat case_match|].
  destruct (dict_get _ _) as [[]|]; cbn; case_match; lia.
Qed.

Lemma moves_trace s c c' f :
  stage_moves s c c' ->
  (forall x, delegate_depth (f x) = delegate_depth x /\ correction_loop_count (f x) = correction_loop_count x) ->
  stage_moves s c (f c').
Proof. intros [H1 H2] Hf. destruct (Hf c') as [Hd Hc]. split; [congruence|]. rewrite Hc. lia. Qed.

Lemma http_context_moves s r c : stage_moves s c (http_context s r c).
Proof.
  unfold http_context. case_match; [apply update_moves|]. case_match; [|apply moves_refl].
  by apply (moves_trace s c c (fun x => with_qc x (sd_id s) (result_data r))); [apply moves_refl|].
Qed.

(** A stage that is not settled early has room for a correction. *)
Lemma unsettled_has_room ex map c s :
  settled ex map c s = Ok None -> sd_kind s = "correct" -> correction_loop_count c < _max_corrections ex.
Proof.
  unfold settled. intros H Hk. rewrite Hk in H. cbn [String.eqb andb Ascii.eqb Bool.eqb] in H.
  destruct (_max_corrections ex <=? correction_loop_count c) eqn:Hb; [by cbn in H|]. by apply Z.leb_gt.
Qed.

Lemma moves_grows ex d s c map :
  settled ex (d_map d) (d_context d) s = Ok None -> stage_moves s (d_context d) c ->
  (forall k, is_Some (dict_get (d_map d) k) -> is_Some (dict_get map k)) ->
  grows (_max_corrections ex) 0 d (mkDispatched c map (d_results d)).
Proof.
  intros Hs [Hd Hc] Hm. split_and!; cbn; try done; unfold corrections; cbn.
  - lia.
  - pose proof (unsettled_has_room _ _ _ _ Hs) as Hroom.
    destruct (String.eqb_spec (sd_kind s) "correct") as [Heq|]; [specialize (Hroom Heq)|]; lia.
  - lia.
Qed.

Section Progress.
Context {W : Type}.
Variable rt : Runtime.
Variable _validate_service_endpoint : string -> string -> data -> result Exn unit.
Variable float_of_str : string -> option Z.
Variable http_provider : Contract -> HttpBinding -> StageDef -> StageContext -> eff W StageResult.
Variable gpu_provider : string -> StageDef -> StageContext -> eff W StageResult.

Variable R : nat -> W -> W -> Prop.
Hypothesis R_refl : forall w, R 0 w w.
Hypothesis R_trans : forall a b w1 w2 w3, R a w1 w2 -> R b w2 w3 -> R (a + b) w1 w3.
Hypothesis R_mono : forall a b w w', R a w w' -> (a <= b)%nat -> R b w w'.

(** The depth of this level, the stage whose provider calls are counted, and
    two ways to run a child pipeline that agree one level down. *)
Variables (n : Z) (sid : string) (ex : Composite).
Variables child1 child2 : Composite -> list StageDef -> StageContext -> eff W (StageContext * list StageResult).

Definition cost (s : StageDef) : nat := if decide (sd_id s = sid) then 1 else 0.
Definition calls (s : StageDef) : nat := cost s * S (async_rounds (http_retries s)).

Hypothesis http_ok : forall ct b s c, delegate_depth c = n ->
  spec R (http_provider ct b s c) (http_provider ct b s c) (cost s) (fun _ => True).
Hypothesis gpu_ok : forall p s c, delegate_depth c = n ->
  spec R (gpu_provider p s c) (gpu_provider p s c) (cost s) (fun _ => True).
Hypothesis child_ok : forall ex' stages c,
  _max_delegate_depth ex' = _max_delegate_depth ex -> n < _max_delegate_depth ex ->
  delegate_depth c = n + 1 ->
  spec R (child1 ex' stages c) (child2 ex' stages c) 0 (fun _ => True).

Abbreviation local ch := (run_local rt _validate_service_endpoint float_of_str ch ex).
Abbreviation single ch :=
  (_dispatch_single_stage rt _validate_service_endpoint float_of_str http_provider gpu_provider ch ex).
Abbreviation run ch :=
  (run_stage rt _validate_service_endpoint float_of_str http_provider gpu_provider ch ex).
Abbreviation reenters ch :=
  (reenter rt _validate_service_endpoint float_of_str http_provider gpu_provider ch ex).
Abbreviation loops ch :=
  (correction_loop rt _validate_service_endpoint float_of_str http_provider gpu_provider ch ex).
Abbreviation grows := (grows (_max_corrections ex)).
Abbreviation at_depth d := (delegate_depth (d_context d) = n).

Lemma attempts_spec (pd : StageDef -> StageContext -> eff W StageResult) left bound s c consumed :
  spec R (pd s c) (pd s c) (cost s) (fun _ => True) ->
  spec R (http_attempts pd left bound s c consumed) (http_attempts pd left bound s c consumed)
    (cost s * S left) (fun _ => True).
Proof.
  intros Hp.
  assert (forall r, spec R (r' ← pd s c; mret (true, with_retries r' r)) (r' ← pd s c; mret (true, with_retries r' r))
    (cost s) (fun _ => True)) as Hcall.
  { intros r. eapply spec_then; eauto. intros r' _. by apply spec_ret. }
  revert consumed. induction left as [|left IH]; intros consumed; cbn [http_attempts].
  - replace (cost s * 1)%nat with (cost s + 0)%nat by lia.
    eapply spec_catch; eauto. intros e _. by apply spec_ret.
  - replace (cost s * S (S left))%nat with (cost s + cost s * S left)%nat by lia.
    eapply spec_catch; eauto.
Qed.

Lemma http_stage_spec (pd : StageDef -> StageContext -> eff W StageResult) d s :
  spec R (pd s (d_context d)) (pd s (d_context d)) (cost s) (fun _ => True) ->
  spec R (http_stage pd d s) (http_stage pd d s) (calls s)
    (fun d' => stage_moves s (d_context d) (d_context d') /\
               forall k, is_Some (dict_get (d_map d) k) -> is_Some (dict_get (d_map d') k)).
Proof.
  intros Hp. unfold http_stage.
  destruct (fan_in_gate _ _ _) as [[|dep|dep] [r|]]; cbv beta iota; try by apply spec_lift.
  3: { apply spec_ret; try done. split; [apply moves_refl|]. intros k Hk. apply dict_set_some. auto. }
  all: eapply (spec_then R R_trans R_mono); [by apply attempts_spec|].
  all: intros [returned r'] _; case_match; apply spec_ret; try done.
  all: split; [destruct returned; [apply http_context_moves|apply moves_refl]|].
  all: intros k Hk; repeat (apply dict_set_some; left); auto.
Qed.

Ltac then_spec := eapply (spec_then R R_trans R_mono).
Ltac costs m := apply (spec_more R R_mono _ _ m); [|unfold calls; lia].

Lemma delegate_spec s c :
  delegate_depth c = n ->
  spec R (_dispatch_local_pipeline rt _validate_service_endpoint float_of_str child1 ex s c)
    (_dispatch_local_pipeline rt _validate_service_endpoint float_of_str child2 ex s c) 0 (fun _ => True).
Proof.
  intros Hn. unfold _dispatch_local_pipeline. destruct (delegated_id _); [|by apply spec_ret].
  destruct (_max_delegate_depth ex <=? delegate_depth c) eqn:Hd; [by apply spec_ret|]. bool_prop.
  destruct (dict_get _ _) as [[child|]|]; [|by apply spec_ret..].
  destruct (stages_of child); [by apply spec_ret|].
  eapply (spec_catch R R_trans R_mono _ _ _ _ _ 0 0); [|intros; by apply spec_ret].
  then_spec; [apply (spec_lift R R_refl R_mono _ _
    (fun cx => _max_delegate_depth cx = _max_delegate_depth ex))|].
  - intros cx. unfold build_multi_provider_executor. intros H. inv_ok.
    destruct a as [http gpu]. cbn in H. inv_ok. by cbn.
  - intros cx Hcx. then_spec; [apply child_ok; cbn; lia || done|].
    intros [child_c rs] _. by apply spec_ret.
Qed.

Lemma noted_moves s r okc c : stage_moves s c okc -> stage_moves s c (noted s r okc c).
Proof.
  intros Ho. unfold noted. case_match; [done|].
  by apply (moves_trace s c c (fun x => with_error x _)); [apply moves_refl|].
Qed.

Lemma single_spec d s :
  at_depth d ->
  spec R (single child1 d s) (single child2 d s) (calls s) (fun x => grows 0 d x.1).
Proof.
  intros Hn. unfold _dispatch_single_stage.
  replace (calls s) with (0 + calls s)%nat by lia.
  eapply (spec_bind R R_trans R_mono); [apply (spec_lift R R_refl R_mono _ _
    (fun o => settled ex (d_map d) (d_context d) s = Ok o)); auto|].
  intros [r|] Hs; [apply spec_ret; auto; apply grows_refl|].
  assert (forall c m, stage_moves s (d_context d) c ->
    (forall k, is_Some (dict_get (d_map d) k) -> is_Some (dict_get m k)) ->
    grows 0 d (mkDispatched c m (d_results d))) as Hg by (intros; by apply moves_grows with s).
  case_match; [|case_match].
  - unfold run_local. costs 0%nat.
    then_spec; [by apply (spec_lift R R_refl R_mono _ _ (fun _ => True))|]. intros _ _.
    then_spec; [by apply delegate_spec|]. intros r _. apply spec_ret; auto. cbn.
    apply Hg; [apply noted_moves, merge_moves|done].
  - unfold run_gpu. case_decide; [|by apply spec_lift].
    costs (cost s).
    then_spec; [replace (cost s) with (cost s + 0)%nat by lia;
      eapply (spec_catch R R_trans R_mono); [by apply gpu_ok|intros; by apply spec_ret]|].
    intros r _. apply spec_ret; auto. cbn. apply Hg; [|done]. case_match.
    + by apply (moves_trace s _ _ (fun x => with_qc x (sd_id s) (result_data r)));
        [apply noted_moves, update_moves|].
    + apply noted_moves, update_moves.
  - unfold run_http. destruct (dict_get _ _) as [b|]; [|by apply spec_lift].
    replace (calls s) with (0 + calls s)%nat by lia.
    eapply (spec_bind R R_trans R_mono); [by apply (spec_lift R R_refl R_mono _ _ (fun _ => True))|].
    intros _ _. then_spec.
    + unfold http_dispatch. cbn [http_stages].
      then_spec; [apply (http_stage_spec _ (mkDispatched (d_context d) (d_map d) []) s); by apply http_ok|].
      intros d' Hd'. apply spec_ret; auto. exact Hd'.
    + intros d' [Hmv Hmap]. apply spec_ret; auto. cbn. apply Hg; [|done].
      assert (stage_moves s (d_context d) (if String.eqb (sd_kind s) "qc"
        then with_qc (d_context d') (sd_id s) (result_data (default (failed_result s "no result from executor" 0)
               (head (d_results d')))) else d_context d')) as Hq.
      { case_match; [|done]. by apply (moves_trace s _ _ (fun x => with_qc x _ _)). }
      destruct (is_ok _); [exact Hq|]. by apply (moves_trace s _ _ (fun x => with_error x _)).
Qed.

(** A dispatched and recorded stage. *)
Definition recorded (m : nat) (d : Dispatched) (s : StageDef) (d' : Dispatched) : Prop :=
  grows m d d' /\ is_Some (dict_get (d_map d') (sd_id s)).

Lemma run_spec d s :
  at_depth d ->
  spec R (run child1 d s) (run child2 d s) (calls s) (fun x => recorded 1 d s x.1).
Proof.
  intros Hn. unfold run_stage. then_spec; [by apply single_spec|]. intros [d' r] Hg.
  apply spec_ret; auto. split; [by apply grows_add|]. apply add_result_some. auto.
Qed.

Lemma grows_depth m d d' : grows m d d' -> at_depth d -> at_depth d'.
Proof. intros (Hd & _) <-. done. Qed.

(** The stages a loop runs are not the counted one. *)
Definition outside (lp : Loop) : Prop :=
  sid <> correction_stage_id lp /\ sid <> trigger_stage_id lp /\ sid ∉ on_correction lp.

Variable _defs : list (string * StageDef).
Hypothesis defs_named : forall k s, dict_get _defs k = Some s -> sid <> k -> sd_id s <> sid.

Lemma calls_other s : sd_id s <> sid -> calls s = 0%nat.
Proof. intros Hne. unfold calls, cost. by rewrite decide_False. Qed.

Lemma run_other d s :
  sd_id s <> sid -> at_depth d ->
  spec R (run child1 d s) (run child2 d s) 0 (fun x => recorded 1 d s x.1).
Proof. intros Hs Hn. pose proof (run_spec d s Hn) as H. by rewrite calls_other in H. Qed.

Lemma named_other k s : dict_get _defs k = Some s -> sid <> k -> sd_id s <> sid.
Proof. apply defs_named. Qed.

Lemma reenter_spec lp s ids d v :
  sid ∉ ids -> at_depth d ->
  spec R (reenters child1 _defs lp s ids d v) (reenters child2 _defs lp s ids d v) 0
    (fun x => grows (length ids) d x.1).
Proof.
  revert d v. induction ids as [|id ids IH]; intros d v Hout Hn; cbn [reenter].
  { apply spec_ret; auto. apply grows_refl. }
  apply not_elem_of_cons in Hout as [Hid Hout].
  destruct (dict_get _defs id) as [st|] eqn:Hst.
  - then_spec; [apply run_other; [by apply (named_other id)|done]|].
    intros [d1 r] [Hg _]. cbn in Hg. cbv beta iota zeta. case_decide.
    + apply spec_ret; auto. cbn. apply grows_context; [|done].
      eapply grows_weaken; [exact Hg|cbn; lia].
    + eapply (spec_weaken R R_mono); [apply IH; [done|by eapply grows_depth]|done|].
      intros [d2 v2] Hg2. cbn in *. by apply (grows_trans _ 1 (length ids) d d1 d2).
  - eapply (spec_weaken R R_mono); [apply IH; [done|done]|done|].
    intros [d2 v2] Hg2. cbn in *. eapply grows_weaken; [|by apply Nat.le_succ_diag_r].
    eapply (grows_trans _ 0); [|exact Hg2]. by apply grows_context; [apply grows_refl|].
Qed.

Lemma verdict_spec s d v :
  sd_id s <> sid -> at_depth d ->
  spec R (rerun_verdict rt _validate_service_endpoint float_of_str http_provider gpu_provider child1 ex s d v)
    (rerun_verdict rt _validate_service_endpoint float_of_str http_provider gpu_provider child2 ex s d v) 0
    (fun x => grows 1 d x.1).
Proof.
  intros Hs Hn. unfold rerun_verdict. destruct v as [r|].
  - apply spec_ret; auto. cbn. eapply grows_weaken; [apply grows_refl|lia].
  - then_spec; [by apply run_other|].
    intros [d' r] [Hg _]. apply spec_ret; [done..|]. by apply grows_context.
Qed.

Lemma close_grows m d d' s r rs :
  grows m d d' -> (length rs <= length (d_results d') + 1)%nat ->
  grows (S m) d (close_loop d' s r rs).
Proof.
  intros (Hd & Hm & Hc & Hl) Hr. unfold grows, corrections in *. cbn. split_and!; try done; try lia.
  intros k Hk. apply dict_set_some. auto.
Qed.

Lemma replace_last_length rs r : (length (replace_last rs r) <= length rs + 1)%nat.
Proof.
  unfold replace_last. destruct (last rs); [|cbn; lia]. case_match; rewrite length_app; cbn; [|done].
  rewrite length_take. lia.
Qed.

(** The results one iteration records. *)
Definition iteration_budget (lp : Loop) : nat := 2 + length (on_correction lp).

Lemma loop_spec left iteration lp s d :
  outside lp -> sd_id s <> sid -> at_depth d ->
  spec R (loops child1 _defs left iteration lp s d) (loops child2 _defs left iteration lp s d) 0
    (fun d' => grows (S (left * iteration_budget lp)) d d').
Proof.
  intros (Hc & Ht & Ho) Hs. revert iteration d.
  induction left as [|left IH]; intros iteration d Hn; cbn [correction_loop].
  { apply spec_ret; auto. apply close_grows; [apply grows_refl|]. rewrite length_app. cbn. lia. }
  destruct (dict_get _defs (correction_stage_id lp)) as [cs|] eqn:Hcs.
  2: { apply spec_ret; auto. apply grows_context; [|done]. eapply grows_weaken; [apply grows_refl|lia]. }
  then_spec; [apply run_other; [by apply (named_other (correction_stage_id lp))|done]|].
  intros [d1 rc] [Hg1 _]. cbn in Hg1. cbv beta iota. case_decide.
  { apply spec_ret; auto. apply grows_context; [|done]. eapply grows_weaken; [exact Hg1|lia]. }
  assert (at_depth d1) as Hn1 by by eapply grows_depth.
  then_spec; [by apply reenter_spec|]. intros [d2 v] Hg2. cbn in Hg2.
  then_spec; [apply verdict_spec; [done|by eapply grows_depth]|]. intros [d3 rq] Hg3. cbn in Hg3.
  pose proof (grows_trans _ _ _ _ _ _ (grows_trans _ _ _ _ _ _ Hg1 Hg2) Hg3) as Hg.
  cbv beta iota zeta. unfold iteration_budget in *. case_match; [|case_match].
  - apply spec_ret; auto. eapply grows_weaken; [exact Hg|lia].
  - apply spec_ret; auto. eapply grows_weaken; [apply close_grows; [exact Hg|apply replace_last_length]|lia].
  - eapply (spec_weaken R R_mono); [apply IH; by eapply grows_depth|done|].
    intros d4 Hg4. eapply grows_weaken; [eapply grows_trans; [exact Hg|exact Hg4]|lia].
Qed.

(** The results the round of a stage records. *)
Definition stage_budget (s : StageDef) : nat :=
  1 + match _loop_by_trigger ex (sd_id s) with
      | Some lp => S (Z.to_nat (max_iterations lp) * iteration_budget lp)
      | None => 0
      end.

Definition budget (stages : list StageDef) : nat := sum_list (stage_budget <$> stages).

Hypothesis all_outside : forall lp, lp ∈ _loops ex -> outside lp.

Lemma loop_by_trigger_spec k lp :
  _loop_by_trigger ex k = Some lp -> lp ∈ _loops ex /\ trigger_stage_id lp = k.
Proof.
  unfold _loop_by_trigger.
  enough (forall ls d, (forall x, dict_get d k = Some x -> x ∈ _loops ex /\ trigger_stage_id x = k) ->
    (forall x, x ∈ ls -> x ∈ _loops ex) ->
    dict_get (fold_left (fun d lp => dict_set d (trigger_stage_id lp) lp) ls d) k = Some lp ->
    lp ∈ _loops ex /\ trigger_stage_id lp = k) as Hgo by by apply Hgo.
  induction ls as [|l ls IH]; intros d Hd Hls; cbn [fold_left]; [apply Hd|].
  apply IH; [|intros x Hx; apply Hls; by right].
  intros x. rewrite dict_get_set. case_decide; [|apply Hd].
  intros [= <-]. split; [apply Hls; by left|done].
Qed.

Abbreviation stage_round ch :=
  (dispatch_stage rt _validate_service_endpoint float_of_str http_provider gpu_provider ch ex _defs).

Lemma own_result_spec d s :
  at_depth d ->
  spec R
    (own_result rt _validate_service_endpoint float_of_str http_provider gpu_provider child1 ex d s)
    (own_result rt _validate_service_endpoint float_of_str http_provider gpu_provider child2 ex d s)
    (if is_seeded d s then 0 else calls s) (fun x => recorded 1 d s x.1).
Proof.
  intros Hn. unfold own_result, is_seeded. destruct (dict_get (d_map d) (sd_id s)) as [r|] eqn:Hr.
  - case_match; apply spec_ret; try done; cbn.
    + split; [apply grows_add, grows_refl|]. apply add_result_some. auto.
    + split; [eapply grows_weaken; [apply grows_refl|lia]|]. by rewrite Hr.
  - by apply run_spec.
Qed.

Lemma recorded_grows m m' d s d1 d2 :
  recorded m d s d1 -> grows m' d1 d2 -> recorded (m + m') d s d2.
Proof. intros [Hg Hs] Hg'. split; [by eapply grows_trans|]. by apply Hg'. Qed.

Lemma recorded_weaken m m' d s d' : recorded m d s d' -> (m <= m')%nat -> recorded m' d s d'.
Proof. intros [Hg Hs] Hm. split; [by eapply grows_weaken|done]. Qed.

Lemma round_spec d s :
  at_depth d -> omitted ex d s = false ->
  spec R (stage_round child1 d s) (stage_round child2 d s) (if is_seeded d s then 0 else calls s)
    (recorded (stage_budget s) d s).
Proof.
  intros Hn Ho. unfold dispatch_stage. rewrite Ho. unfold stage_budget. case_match.
  - apply spec_ret; [done..|]. split; [|apply add_result_some; auto].
    eapply grows_weaken; [apply grows_add, grows_refl|lia].
  - then_spec; [by apply own_result_spec|]. intros [d1 r] Hg. cbn in Hg. cbv beta iota.
    destruct (_loop_by_trigger ex (sd_id s)) as [lp|] eqn:Hlp.
    + apply loop_by_trigger_spec in Hlp as [Hin Ht]. pose proof (all_outside _ Hin) as Hout.
      case_match.
      * eapply (spec_weaken R R_mono); [apply loop_spec| |].
        { done. }
        { intros Heq. destruct Hout as (_ & Hne & _). congruence. }
        { destruct Hg as [Hg _]. by eapply grows_depth. }
        { done. }
        { intros d2 Hg2. by eapply recorded_grows. }
      * apply spec_ret; [done..|]. eapply recorded_weaken; [exact Hg|lia].
    + apply spec_ret; [done..|]. eapply recorded_weaken; [exact Hg|lia].
Qed.

(** The calls still allowed for the counted stage. *)
Definition remaining (d : Dispatched) (K : nat) : nat :=
  match dict_get (d_map d) sid with Some _ => 0 | None => K end.

Lemma remaining_settled d K : is_Some (dict_get (d_map d) sid) -> remaining d K = 0%nat.
Proof. intros [r Hr]. unfold remaining. by rewrite Hr. Qed.

Lemma remaining_bound d K : (remaining d K <= K)%nat.
Proof. unfold remaining. case_match; lia. Qed.

Lemma grows_some m d d' k :
  grows m d d' -> is_Some (dict_get (d_map d) k) -> is_Some (dict_get (d_map d') k).
Proof. intros (_ & Hm & _). apply Hm. Qed.

(** What is left for the counted stage after a round covers what it used. *)
Lemma remaining_step m d s d' K :
  recorded m d s d' -> (sd_id s = sid -> (calls s <= K)%nat) ->
  ((if is_seeded d s then 0 else calls s) + remaining d' K <= remaining d K)%nat.
Proof.
  intros [Hg Hs] HK. destruct (decide (sd_id s = sid)) as [Heq|Hne].
  - rewrite (remaining_settled d') by congruence. specialize (HK Heq). unfold remaining, is_seeded.
    rewrite Heq. destruct (dict_get (d_map d) sid); lia.
  - rewrite calls_other by done. destruct (dict_get (d_map d) sid) eqn:Hd.
    + rewrite (remaining_settled d') by (eapply grows_some; [done|by rewrite Hd]). case_match; lia.
    + unfold remaining at 2. rewrite Hd. pose proof (remaining_bound d' K). case_match; lia.
Qed.

Abbreviation rounds ch :=
  (dispatch_stages rt _validate_service_endpoint float_of_str http_provider gpu_provider ch ex _defs).

Lemma rounds_spec stages K d :
  at_depth d -> (forall s, s ∈ stages -> sd_id s = sid -> (calls s <= K)%nat) ->
  spec R (rounds child1 d stages) (rounds child2 d stages) (remaining d K) (grows (budget stages) d).
Proof.
  revert d. induction stages as [|s stages IH]; intros d Hn HK; cbn [dispatch_stages].
  { apply spec_ret; [done..|]. apply grows_refl. }
  assert (forall d', at_depth d' -> spec R (rounds child1 d' stages) (rounds child2 d' stages)
    (remaining d' K) (grows (budget stages) d')) as Hrest.
  { intros d' Hd'. apply IH; [done|]. intros x Hx. apply HK. by right. }
  destruct (omitted ex d s) eqn:Ho.
  - unfold dispatch_stage. rewrite Ho. replace (remaining d K) with (0 + remaining d K)%nat by lia.
    eapply (spec_bind R R_trans R_mono); [by apply (spec_ret R R_refl R_mono d 0 (eq d))|].
    intros ? <-. eapply (spec_weaken R R_mono); [by apply Hrest|done|]. intros d' Hg.
    eapply grows_weaken; [exact Hg|]. unfold budget. cbn. lia.
  - intros w. destruct (round_spec d s Hn Ho w) as (He & HR & Hp).
    unfold mbind, eff_bind. destruct (stage_round child1 d s w) as [w1 [d1|e]]; rewrite <- He; cbn [fst snd] in *.
    + specialize (Hp d1 eq_refl). destruct (Hrest d1 ltac:(eapply grows_depth; [apply Hp|done]) w1) as (He2 & HR2 & Hp2).
      split_and!; [done| |].
      * eapply R_mono; [eapply R_trans; [exact HR|exact HR2]|].
        eapply remaining_step; [exact Hp|]. intros ?. apply HK; [by left|done].
      * intros d2 Hd2. apply (grows_trans _ (stage_budget s) (budget stages) d d1 d2); [apply Hp|by apply Hp2].
    + split_and!; [done| |done]. eapply R_mono; [exact HR|].
      unfold remaining, is_seeded. destruct (decide (sd_id s = sid)) as [Heq|Hne].
      * rewrite Heq. destruct (dict_get (d_map d) sid); [lia|]. apply HK; [by left|done].
      * rewrite calls_other by done. case_match; case_match; lia.
Qed.

End Progress.

(** ** Delegation ends and work is bounded *)

(** The context and the map the stages start from. *)
Definition seeded_start (c : StageContext) (seeded_results : list StageResult) : Dispatched :=
  fold_left seed seeded_results (mkDispatched c [] []).

Lemma seed_depth rs d : delegate_depth (d_context (fold_left seed rs d)) = delegate_depth (d_context d).
Proof.
  revert d. induction rs as [|r rs IH]; intros d; cbn [fold_left]; [done|]. rewrite IH.
  unfold seed. case_match; [done|]. cbn.
  assert (forall k c', delegate_depth (_update_context (stage_id r) k r c') = delegate_depth c') as Hu
    by (intros; unfold _update_context; by repeat case_match).
  repeat case_match; cbn; by rewrite ?Hu.
Qed.

Lemma seed_results rs d : d_results (fold_left seed rs d) = d_results d.
Proof.
  revert d. induction rs as [|r rs IH]; intros d; cbn [fold_left]; [done|]. rewrite IH.
  unfold seed. by case_match.
Qed.

Lemma seed_map rs d k :
  is_Some (dict_get (d_map (fold_left seed rs d)) k) <->
  is_Some (dict_get (d_map d) k) \/ k ∈ stage_id <$> rs.
Proof.
  revert d. induction rs as [|r rs IH]; intros d; cbn [fold_left fmap list_fmap].
  { rewrite elem_of_nil. tauto. }
  rewrite IH, elem_of_cons. unfold seed. case_match eqn:Hr; cbn; [|rewrite dict_get_set; case_decide].
  - assert (is_Some (dict_get (d_map d) (stage_id r))) by by eexists. naive_solver.
  - split; [naive_solver|]. intros _. left. by eexists.
  - naive_solver.
Qed.

Lemma calls_le_sum sid stages s : s ∈ stages -> (calls sid s <= sum_list (calls sid <$> stages))%nat.
Proof.
  induction stages as [|x stages IH]; [by intros ?%elem_of_nil|]. cbn.
  intros [->|Hs]%elem_of_cons; [lia|]. specialize (IH Hs). lia.
Qed.

Section Bounds.
Context {W : Type}.
Variable rt : Runtime.
Variable _validate_service_endpoint : string -> string -> data -> result Exn unit.
Variable float_of_str : string -> option Z.
Variable http_provider : Contract -> HttpBinding -> StageDef -> StageContext -> eff W StageResult.
Variable gpu_provider : string -> StageDef -> StageContext -> eff W StageResult.

Abbreviation level ch :=
  (dispatch_level rt _validate_service_endpoint float_of_str http_provider gpu_provider ch).
Abbreviation dispatched out :=
  (dispatch_fuel rt _validate_service_endpoint float_of_str http_provider gpu_provider out).

(** An identity no loop and no definition uses. *)
Definition unused (ex : Composite) (defs : list (string * StageDef)) : string :=
  fresh ((sd_id <$> defs.*2) ++
         concat ((fun lp => correction_stage_id lp :: trigger_stage_id lp :: on_correction lp) <$> _loops ex)).

Lemma unused_loops ex defs lp : lp ∈ _loops ex -> outside (unused ex defs) lp.
Proof.
  intros Hlp.
  assert (forall x, x ∈ correction_stage_id lp :: trigger_stage_id lp :: on_correction lp ->
    unused ex defs <> x) as Hne.
  { intros x Hx Heq. unfold unused in Heq.
    match type of Heq with fresh ?l = _ => pose proof (infinite_is_fresh l) as Hf end.
    apply Hf. rewrite Heq. apply elem_of_app. right. apply list_elem_of_In, in_concat.
    eexists. split; [|by apply list_elem_of_In].
    apply list_elem_of_In. by apply (list_elem_of_fmap_2 (fun lp => correction_stage_id lp ::
      trigger_stage_id lp :: on_correction lp)). }
  split_and!; [apply Hne; by left|apply Hne; right; by left|].
  intros Hin. by apply (Hne (unused ex defs)); [do 2 right|].
Qed.

Lemma unused_defs ex defs k s :
  dict_get defs k = Some s -> unused ex defs <> k -> sd_id s <> unused ex defs.
Proof.
  intros Hs _ Heq. unfold unused in Heq.
  match type of Heq with _ = fresh ?l => pose proof (infinite_is_fresh l) as Hf end.
  apply Hf. rewrite <- Heq. apply elem_of_app. left. apply list_elem_of_fmap_2.
  clear -Hs. induction defs as [|[k' v] defs IH]; [done|]. cbn in *. case_match.
  - injection Hs as ->. by left.
  - right. auto.
Qed.

(** One level: children that agree make levels that agree, and what a level
    returns has grown within its bounds. *)
Lemma level_agrees ex ch1 ch2 stages stage_defs c seeds w :
  (forall ex' st c', _max_delegate_depth ex' = _max_delegate_depth ex ->
     delegate_depth c < _max_delegate_depth ex -> delegate_depth c' = delegate_depth c + 1 ->
     forall w', ch1 ex' st c' w' = ch2 ex' st c' w') ->
  level ch1 ex stages stage_defs c seeds w = level ch2 ex stages stage_defs c seeds w /\
  forall d, (level ch1 ex stages stage_defs c seeds w).2 = Ok d ->
    grows (_max_corrections ex) (budget ex stages) (seeded_start c seeds) d.
Proof.
  intros Hch. unfold dispatch_level. set (defs := default (defs_of stages) stage_defs).
  assert (forall A (m : eff W A) (P : A -> Prop) k, (forall a, P a) -> spec (fun _ _ _ => True) m m k P) as Hany.
  { intros A m P k HP w0. auto. }
  destruct (rounds_spec rt _validate_service_endpoint float_of_str http_provider gpu_provider
    (fun _ _ _ => True) (fun _ => I) (fun _ _ _ _ _ _ _ => I) (fun _ _ _ _ _ _ => I)
    (delegate_depth c) (unused ex defs) ex ch1 ch2
    ltac:(intros; by apply Hany) ltac:(intros; by apply Hany)) with (_defs := defs) (stages := stages)
    (K := (sum_list (calls (unused ex defs) <$> stages))) (d := seeded_start c seeds) (w := w)
    as (He & _ & Hp).
  - intros ex' st c' Hex Hlt Hc w'. split_and!; [by apply Hch|done|done].
  - apply unused_defs.
  - intros lp. apply unused_loops.
  - apply seed_depth.
  - intros s Hs _. by apply calls_le_sum.
  - split; [exact He|exact Hp].
Qed.

(** The answer does not depend on what the fuel would do: it is never used
    up when it is at least the levels the context still allows. *)
Lemma fuel_irrelevant out1 out2 fuel1 fuel2 ex stages stage_defs c seeds w :
  (levels ex c <= fuel1)%nat -> (levels ex c <= fuel2)%nat ->
  dispatched out1 fuel1 ex stages stage_defs c seeds w = dispatched out2 fuel2 ex stages stage_defs c seeds w.
Proof.
  revert fuel2 ex stages stage_defs c seeds w.
  induction fuel1 as [|fuel1 IH]; intros fuel2 ex stages stage_defs c seeds w H1 H2;
    destruct fuel2 as [|fuel2]; cbn [dispatch_fuel]; unfold mbind, eff_bind;
    (match goal with |- match ?a with _ => _ end = match ?b with _ => _ end =>
       assert (a = b) as ->; [apply level_agrees|done] end);
    intros ex' st c' Hex Hlt Hc w'; unfold levels in *; try lia.
  apply IH; unfold levels; lia.
Qed.

Variable out_of_fuel : Exn.

Abbreviation composite_dispatch :=
  (composite_dispatch rt _validate_service_endpoint float_of_str http_provider gpu_provider out_of_fuel).


End Bounds.

(** ** Who is called *)

Section Calls.
Context {W : Type}.
Variable rt : Runtime.
Variable _validate_service_endpoint : string -> string -> data -> result Exn unit.
Variable float_of_str : string -> option Z.
Variable http_provider : Contract -> HttpBinding -> StageDef -> StageContext -> eff W StageResult.
Variable gpu_provider : string -> StageDef -> StageContext -> eff W StageResult.
Variable out_of_fuel : Exn.

(** The same provider, with a log of the depth and the stage of each call. *)
Abbreviation log := (list (Z * string)) (only parsing).

Definition logging (call : StageDef -> StageContext -> eff W StageResult) (s : StageDef) (c : StageContext)
    : eff (W * log) StageResult :=
  fun w => let '(w', r) := call s c w.1 in ((w', w.2 ++ [(delegate_depth c, sd_id s)]), r).

Definition http_logged (ct : Contract) (b : HttpBinding) := logging (http_provider ct b).
Definition gpu_logged (p : string) := logging (gpu_provider p).

(** Calls of one stage at one depth. *)
Definition count (n : Z) (sid : string) (l : log) : nat := length (filter (fun e => e = (n, sid)) l).

(** The log grew by calls no shallower than [n], at most [k] of them the
    counted one. *)
Definition logs (n : Z) (sid : string) (k : nat) (w w' : W * log) : Prop :=
  exists new, w'.2 = w.2 ++ new /\ Forall (fun e => n <= e.1) new /\ (count n sid new <= k)%nat.

Lemma logs_refl n sid w : logs n sid 0 w w.
Proof. exists []. by rewrite app_nil_r. Qed.

Lemma count_app n sid l l' : count n sid (l ++ l') = (count n sid l + count n sid l')%nat.
Proof. unfold count. by rewrite filter_app, length_app. Qed.

Lemma logs_trans n sid a b w1 w2 w3 :
  logs n sid a w1 w2 -> logs n sid b w2 w3 -> logs n sid (a + b) w1 w3.
Proof.
  intros (l1 & H1 & Hd1 & Hc1) (l2 & H2 & Hd2 & Hc2). exists (l1 ++ l2).
  rewrite H2, H1, count_app, app_assoc. split_and!; [done|by apply Forall_app|lia].
Qed.

Lemma logs_mono n sid a b w w' : logs n sid a w w' -> (a <= b)%nat -> logs n sid b w w'.
Proof. intros (l & H & Hd & Hc) Hab. exists l. split_and!; [done|done|lia]. Qed.

Lemma logging_logs n sid call s c :
  delegate_depth c = n ->
  spec (logs n sid) (logging call s c) (logging call s c) (cost sid s) (fun _ => True).
Proof.
  intros Hn w. unfold logging. destruct (call s c w.1) as [w' r]. split_and!; [done| |done].
  exists [(delegate_depth c, sd_id s)]. split_and!; [done|repeat constructor; cbn; lia|].
  rewrite Hn. unfold count, cost. rewrite filter_cons, filter_nil.
  case_decide as H1; case_decide as H2; cbn; try lia. injection H1. congruence.
Qed.

(** Deeper calls are not calls at this depth. *)
Lemma logs_deeper n sid sid' k w w' : logs (n + 1) sid' k w w' -> logs n sid 0 w w'.
Proof.
  intros (l & H & Hd & _). exists l. split_and!; [done| |].
  - eapply Forall_impl; [exact Hd|]. cbn. intros. lia.
  - unfold count. clear H. induction Hd as [|e l He _ IH]; [done|].
    rewrite filter_cons, decide_False; [done|]. intros ->. cbn in He. lia.
Qed.

Abbreviation dispatched :=
  (dispatch_fuel rt _validate_service_endpoint float_of_str http_logged gpu_logged out_of_fuel).

Definition well_named (defs : list (string * StageDef)) : Prop :=
  forall k s, dict_get defs k = Some s -> sd_id s = k.

Lemma defs_of_named stages : well_named (defs_of stages).
Proof.
  unfold defs_of. enough (forall d, well_named d -> well_named (fold_left
    (fun d s => dict_set d (sd_id s) s) stages d)) as Hgo by by apply Hgo.
  induction stages as [|s stages IH]; intros d Hd; cbn [fold_left]; [done|]. apply IH.
  intros k x. rewrite dict_get_set. case_decide; [by intros [= <-]|apply Hd].
Qed.

(** What a dispatch logs for a stage outside every loop. *)
Lemma dispatched_logs sid fuel ex stages stage_defs c seeds K :
  well_named (default (defs_of stages) stage_defs) ->
  (forall lp, lp ∈ _loops ex -> outside sid lp) ->
  (forall s, s ∈ stages -> sd_id s = sid -> (calls sid s <= K)%nat) ->
  (forall ex' st c', delegate_depth c' = delegate_depth c + 1 ->
     match fuel with
     | O => True
     | S fuel' => spec (logs (delegate_depth c) sid) (dispatched fuel' ex' st None c' [])
                    (dispatched fuel' ex' st None c' []) 0 (fun _ => True)
     end) ->
  spec (logs (delegate_depth c) sid) (dispatched fuel ex stages stage_defs c seeds)
    (dispatched fuel ex stages stage_defs c seeds) (remaining sid (seeded_start c seeds) K) (fun _ => True).
Proof.
  intros Hnamed Hout HK Hch. set (n := delegate_depth c) in *.
  destruct fuel as [|fuel]; cbn [dispatch_fuel];
    (eapply (spec_then (logs n sid) (logs_trans n sid) (logs_mono n sid));
      [|intros d _; by apply (spec_ret _ (logs_refl n sid) (logs_mono n sid))]);
    (apply (rounds_spec rt _validate_service_endpoint float_of_str http_logged gpu_logged (logs n sid)
       (logs_refl n sid) (logs_trans n sid) (logs_mono n sid) n sid ex);
     [intros; by apply logging_logs|intros; by apply logging_logs| |
      intros k s Hk Hne Heq; apply Hne; rewrite <- Heq; by apply Hnamed|done|by apply seed_depth|done]).
  - intros. by apply (spec_lift _ (logs_refl n sid) (logs_mono n sid)).
  - intros ex' st c' _ _ Hc'. by apply Hch.
Qed.

(** A child only calls below its parent. *)
Lemma child_logs fuel ex stages c n sid :
  delegate_depth c = n + 1 ->
  spec (logs n sid) (dispatched fuel ex stages None c []) (dispatched fuel ex stages None c []) 0
    (fun _ => True).
Proof.
  revert ex stages c n sid. induction fuel as [|fuel IH]; intros ex stages c n sid Hn;
    set (other := unused ex (defs_of stages)); intros w; split_and!; try done;
    refine (logs_deeper n sid other _ _ _ _); rewrite <- Hn;
    (apply (dispatched_logs other _ ex stages None c [] (sum_list (calls other <$> stages)));
      [apply defs_of_named|intros lp; apply unused_loops|intros s Hs _; by apply calls_le_sum|]);
    intros ex' st c' Hc'; [done|by apply IH].
Qed.

(** A worker's results are never recomputed.  Whether the dispatch returns
    or raises, and whatever the providers do: it makes no call above its own
    depth, and for a stage that no correction loop names it makes at most one
    round of attempts, none at all when a result of that stage was seeded. *)
Theorem seeded_never_repeated ex stages stage_defs c seeds w sid K :
  well_named (default (defs_of stages) stage_defs) ->
  (forall lp, lp ∈ _loops ex -> outside sid lp) ->
  (forall s, s ∈ stages -> sd_id s = sid -> (S (async_rounds (http_retries s)) <= K)%nat) ->
  exists new,
    (composite_dispatch rt _validate_service_endpoint float_of_str http_logged gpu_logged out_of_fuel
       ex stages stage_defs c seeds (w, [])).1.2 = new /\
    Forall (fun e => delegate_depth c <= e.1) new /\
    (count (delegate_depth c) sid new <= if decide (sid ∈ stage_id <$> seeds) then 0 else K)%nat.
Proof.
  intros Hnamed Hout HK.
  destruct (dispatched_logs sid (levels ex c) ex stages stage_defs c seeds K Hnamed Hout) with (w := (w, @nil (Z * string)))
    as (_ & (new & Hl & Hd & Hc) & _).
  - intros s Hs Heq. unfold calls, cost. rewrite decide_True by done. specialize (HK s Hs Heq). lia.
  - intros ex' st c' Hc'. destruct (levels ex c); [done|]. by apply child_logs.
  - exists new. split_and!; [exact Hl|done|]. case_decide as Hseed.
    + rewrite remaining_settled in Hc; [done|]. apply seed_map. by right.
    + pose proof (remaining_bound sid (seeded_start c seeds) K). lia.
Qed.

End Calls.

(** ** The gate *)

(** What a stage needs before its provider is called. *)
Record admissible (ex : Composite) (map : list (string * StageResult)) (c : StageContext) (s : StageDef)
    : Prop := {
  room : sd_kind s = "correct" -> correction_loop_count c < _max_corrections ex;
  inputs : forall d, d ∈ sd_depends_on s -> exists r, dict_get map d = Some r /\
    (status r = ok \/ consumes_verdict ex s = true /\ _qc_result_is_failing r = true);
  needed : sd_kind s = "correct" -> param_truthy s "run_on_qc_fail" = true ->
    forall d r, d ∈ sd_depends_on s -> dict_get map d = Some r -> kind r = "qc" ->
    is_true (dict_get (result_data r) "qc_pass") = false;
  sources : sd_kind s = "generate" -> forall d r, d ∈ sd_depends_on s -> dict_get map d = Some r ->
    kind r = "generate" -> _result_has_artifact r = true }.

Lemma fan_in_gate_clear consumes map deps :
  (forall o, fan_in_gate consumes map deps = (Clear, o) -> o = None) /\
  (fan_in_gate consumes map deps = (Clear, None) <->
   forall d, d ∈ deps -> exists r, dict_get map d = Some r /\
     (status r = ok \/ consumes = true /\ _qc_result_is_failing r = true)).
Proof.
  induction deps as [|d deps IH]; cbn [fan_in_gate].
  { split; [by intros o [= <-]|]. split; [|done]. by intros _ d ?%not_elem_of_nil. }
  destruct (dict_get map d) as [r|] eqn:Hr.
  2: { split; [done|]. split; [done|]. intros H. destruct (H d) as (r & Hd & _); [by left|congruence]. }
  case_match eqn:Hb.
  - split; [apply IH|]. rewrite (proj2 IH). split.
    + intros H x [->|Hx]%elem_of_cons; [|auto]. exists r. split; [done|].
      apply orb_true_iff in Hb as [Hb|Hb]; bool_prop; auto.
    + intros H x Hx. apply H. by right.
  - split; [done|]. split; [done|]. intros H. destruct (H d) as (x & Hd & Hx); [by left|].
    rewrite Hr in Hd. injection Hd as <-. bool_prop. destruct Hx as [?|[-> Hf]]; [done|]. by rewrite Hf in *.
Qed.

Lemma fan_in_gate_blocked consumes map deps d r :
  fan_in_gate consumes map deps = (Blocked d, r) -> is_Some r.
Proof.
  induction deps as [|x deps IH]; cbn [fan_in_gate]; [done|].
  destruct (dict_get map x); [|done]. case_match; [apply IH|]. by intros [= _ <-].
Qed.

Lemma qc_passed_false map s :
  qc_passed map s = false <-> forall d r, d ∈ sd_depends_on s -> dict_get map d = Some r -> kind r = "qc" ->
    is_true (dict_get (result_data r) "qc_pass") = false.
Proof.
  unfold qc_passed. rewrite existsb_false_Forall, Forall_forall. split.
  - intros H d r Hd Hr Hk. specialize (H d Hd). rewrite Hr, Hk in H. cbn in H. exact H.
  - intros H d Hd. destruct (dict_get map d) as [r|] eqn:Hr; [|done].
    destruct (String.eqb_spec (kind r) "qc"); [cbn; eauto|done].
Qed.

Lemma missing_artifact_none map s :
  missing_artifact map s = None <-> (sd_kind s = "generate" -> forall d r, d ∈ sd_depends_on s ->
    dict_get map d = Some r -> kind r = "generate" -> _result_has_artifact r = true).
Proof.
  unfold missing_artifact. destruct (String.eqb_spec (sd_kind s) "generate") as [Hk|]; [|split; [done|by intros]].
  split.
  - intros H _ d r Hd Hr Hg. pose proof (find_none _ _ H d (proj1 (list_elem_of_In _ _) Hd)) as Hn.
    cbn in Hn. rewrite Hr, Hg in Hn. cbn in Hn. by bool_prop.
  - intros H. destruct (List.find _ _) as [d|] eqn:Hf; [|done]. apply find_some in Hf as [Hd Hr].
    apply list_elem_of_In in Hd. destruct (dict_get map d) as [r|] eqn:Hm; [|done].
    apply andb_true_iff in Hr as [Hg Ha]. apply String.eqb_eq in Hg. by rewrite (H Hk d r Hd Hm Hg) in Ha.
Qed.

Lemma settled_exact ex map c s : settled ex map c s = Ok None <-> admissible ex map c s.
Proof.
  unfold settled.
  destruct (fan_in_gate_clear (consumes_verdict ex s) map (sd_depends_on s)) as [Hnone Hclear].
  destruct (String.eqb (sd_kind s) "correct" && (_max_corrections ex <=? correction_loop_count c)) eqn:Hroom.
  { apply andb_true_iff in Hroom as [Hk%String.eqb_eq Hb%Z.leb_le].
    split; [done|]. intros [Hr _ _ _]. specialize (Hr Hk). lia. }
  assert (sd_kind s = "correct" -> correction_loop_count c < _max_corrections ex) as Hr.
  { intros Hk. rewrite Hk in Hroom. cbn in Hroom. by apply Z.leb_gt. }
  destruct (fan_in_gate _ _ _) as [[|d|d] o] eqn:Hg.
  2: { destruct (fan_in_gate_blocked _ _ _ _ _ Hg) as [r ->]. split; [done|]. intros [_ Hi _ _].
       by apply Hclear in Hi. }
  2: { destruct o; split; try done; intros [_ Hi _ _]; by apply Hclear in Hi. }
  rewrite (Hnone o eq_refl) in *.
  assert (forall d, d ∈ sd_depends_on s -> exists r, dict_get map d = Some r /\
    (status r = ok \/ consumes_verdict ex s = true /\ _qc_result_is_failing r = true)) as Hi by by apply Hclear.
  destruct (String.eqb (sd_kind s) "correct" && param_truthy s "run_on_qc_fail" && qc_passed map s) eqn:Hq.
  - bool_prop. match goal with H : String.eqb _ _ = true |- _ => apply String.eqb_eq in H end.
    split; [done|]. intros [_ _ Hn _]. assert (qc_passed map s = false) by by apply qc_passed_false, Hn. congruence.
  - destruct (missing_artifact map s) as [d|] eqn:Hm.
    + split; [done|]. intros [_ _ _ Hs]. apply missing_artifact_none in Hs. congruence.
    + split; [|done]. intros _. split; [done|done| |by apply missing_artifact_none].
      intros Hk Ht. apply qc_passed_false. rewrite Hk, Ht in Hq. by cbn in Hq.
Qed.

(** A stage that settles early is not ok. *)
Lemma settled_not_ok ex map c s r : settled ex map c s = Ok (Some r) -> status r <> ok.
Proof.
  unfold settled. intros H. case_match; [by injection H as <-|].
  destruct (fan_in_gate _ _ _) as [[|d|d] o] eqn:Hg; [|destruct o; [by injection H as <-|]|by destruct o].
  - case_match; [by injection H as <-|]. case_match; [by injection H as <-|done].
  - destruct (fan_in_gate_blocked _ _ _ _ _ Hg) as [? [=]].
Qed.

Section Verdicts.
Context {W : Type}.
Variable rt : Runtime.
Variable _validate_service_endpoint : string -> string -> data -> result Exn unit.
Variable float_of_str : string -> option Z.
Variable http_provider : Contract -> HttpBinding -> StageDef -> StageContext -> eff W StageResult.
Variable gpu_provider : string -> StageDef -> StageContext -> eff W StageResult.
Variable dispatch_child : Composite -> list StageDef -> StageContext -> eff W (StageContext * list StageResult).
Variable ex : Composite.

Abbreviation single :=
  (_dispatch_single_stage rt _validate_service_endpoint float_of_str http_provider gpu_provider dispatch_child ex).
Abbreviation run :=
  (run_stage rt _validate_service_endpoint float_of_str http_provider gpu_provider dispatch_child ex).
Abbreviation reenters :=
  (reenter rt _validate_service_endpoint float_of_str http_provider gpu_provider dispatch_child ex).
Abbreviation loops :=
  (correction_loop rt _validate_service_endpoint float_of_str http_provider gpu_provider dispatch_child ex).

(** The gate is exact: a stage goes to its provider exactly when a
    correction has room, every dependency is ok (or is a failing quality
    verdict that the stage may consume), no quality stage before an opted-in
    correction passed and every generate stage before a generate has an
    artifact.  Otherwise nothing outside is touched: the world, the context
    and the results stay, and the stage is not ok or the dispatch raises. *)
Theorem stage_gate_exact d s :
  (settled ex (d_map d) (d_context d) s = Ok None <-> admissible ex (d_map d) (d_context d) s) /\
  (~ admissible ex (d_map d) (d_context d) s ->
   forall w, exists o, single d s w = (w, o) /\
     match o with Ok (d', r) => d' = d /\ status r <> ok | Err e => exn_class e = DispatchContextError end).
Proof.
  split; [apply settled_exact|]. intros Hna w. rewrite <- settled_exact in Hna.
  unfold _dispatch_single_stage, mbind, eff_bind, lift.
  destruct (settled ex (d_map d) (d_context d) s) as [[r|]|e] eqn:Hs; [|done|].
  - exists (Ok (d, r)). split_and!; [done|done|]. by eapply settled_not_ok.
  - exists (Err e). split; [done|]. unfold settled in Hs. case_match; [done|].
    destruct (fan_in_gate _ _ _) as [[|x|x] o] eqn:Hg.
    + case_match; [done|]. by case_match.
    + by destruct (fan_in_gate_blocked _ _ _ _ _ Hg) as [? ->].
    + destruct o; by injection Hs as <-.
Qed.

(** A computation whose results satisfy [P]. *)
Definition ensures {A} (m : eff W A) (P : A -> Prop) : Prop := forall w w' a, m w = (w', Ok a) -> P a.

Lemma ensures_bind {A B} (m : eff W A) (f : A -> eff W B) P Q :
  ensures m P -> (forall a, P a -> ensures (f a) Q) -> ensures (a ← m; f a) Q.
Proof.
  intros Hm Hf w w' b. unfold mbind, eff_bind. destruct (m w) as [w1 [a|e]] eqn:H; [|done].
  apply Hf. by eapply Hm.
Qed.

Lemma ensures_ret {A} (a : A) (P : A -> Prop) : P a -> ensures (mret a) P.
Proof. by intros HP w w' b [= _ <-]. Qed.

Lemma ensures_any {A} (m : eff W A) : ensures m (fun _ => True).
Proof. by intros w w' a _. Qed.

Lemma ensures_throw {A} c text (P : A -> Prop) : ensures (throw c text) P.
Proof. done. Qed.

(** A dispatch changes the map at its own stage only. *)
Definition others_kept (sid : string) (d d' : Dispatched) : Prop :=
  forall k, k <> sid -> dict_get (d_map d') k = dict_get (d_map d) k.

Lemma single_keeps d s : ensures (single d s) (fun x => others_kept (sd_id s) d x.1).
Proof.
  unfold _dispatch_single_stage. eapply ensures_bind; [apply ensures_any|]. intros [r|] _; [by apply ensures_ret|].
  case_match; [|case_match].
  - unfold run_local. repeat (eapply ensures_bind; [apply ensures_any|]; intros ? _). by apply ensures_ret.
  - unfold run_gpu. case_decide; [|apply ensures_throw].
    repeat (eapply ensures_bind; [apply ensures_any|]; intros ? _). by apply ensures_ret.
  - unfold run_http. destruct (dict_get _ _); [|apply ensures_throw].
    eapply ensures_bind; [apply ensures_any|]. intros _ _.
    apply (ensures_bind _ _ (others_kept (sd_id s) (mkDispatched (d_context d) (d_map d) [])));
      [|intros d' Hd'; by apply ensures_ret].
    unfold http_dispatch. cbn [http_stages].
    apply (ensures_bind _ _ (others_kept (sd_id s) (mkDispatched (d_context d) (d_map d) [])));
      [|intros d' Hd'; by apply ensures_ret].
    unfold http_stage.
    assert (forall dx r, others_kept (sd_id s) d dx -> others_kept (sd_id s) d (add_result dx (sd_id s) r)) as Hadd.
    { intros dx r Hx k Hk. cbn. rewrite dict_get_set, decide_False by done. by apply Hx. }
    destruct (fan_in_gate _ _ _) as [[|x|x] [r|]]; cbv beta iota; try done.
    3: { apply ensures_ret. by apply (Hadd (mkDispatched (d_context d) (d_map d) [])). }
    all: eapply ensures_bind; [apply ensures_any|]; intros [returned r'] _; case_match; apply ensures_ret;
      repeat apply Hadd; done.
Qed.

Lemma run_records d s :
  ensures (run d s) (fun x => others_kept (sd_id s) d x.1 /\ dict_get (d_map x.1) (sd_id s) = Some x.2).
Proof.
  unfold run_stage. eapply ensures_bind; [apply single_keeps|]. intros [d' r] Hk. apply ensures_ret. cbn.
  split; [|by rewrite dict_get_set, decide_True].
  intros k Hne. cbn. rewrite dict_get_set, decide_False by done. by apply Hk.
Qed.

Section Loop.
Variable _defs : list (string * StageDef).
Hypothesis named : forall k s, dict_get _defs k = Some s -> sd_id s = k.
Variables (lp : Loop) (s : StageDef).

(** A verdict taken from the stages run again is the trigger's latest result. *)
Lemma reenter_verdict ids d v :
  NoDup ids -> (forall r, v = Some r -> sd_id s ∉ ids /\ dict_get (d_map d) (sd_id s) = Some r) ->
  ensures (reenters _defs lp s ids d v)
    (fun x => forall r, x.2 = Some r -> dict_get (d_map x.1) (sd_id s) = Some r).
Proof.
  revert d v. induction ids as [|id ids IH]; intros d v Hnd Hv; cbn [reenter].
  { apply ensures_ret. intros r Hr. by apply Hv. }
  apply NoDup_cons in Hnd as [Hid Hnd].
  destruct (dict_get _defs id) as [st|] eqn:Hst.
  2: { apply IH; [done|]. intros r Hr. destruct (Hv r Hr) as [Hn Hm]. split; [|done].
       intros Hin. apply Hn. by right. }
  eapply ensures_bind; [apply run_records|]. intros [d1 r] [Hk Hr]. cbn in Hk, Hr. rewrite (named _ _ Hst) in *.
  set (v' := if _ && _ then Some r else v).
  assert (forall x, v' = Some x -> sd_id s ∉ ids /\ dict_get (d_map d1) (sd_id s) = Some x) as Hv'.
  { intros x. unfold v'. destruct (String.eqb_spec id (sd_id s)) as [->|Hne]; cbn.
    - case_match; [by intros [= <-]|]. intros Hx. destruct (Hv x Hx) as [Hn _]. exfalso. apply Hn. by left.
    - intros Hx. destruct (Hv x Hx) as [Hn Hm]. rewrite Hk by congruence. split; [|done].
      intros Hin. apply Hn. by right. }
  cbv beta iota zeta. case_decide; [apply ensures_ret; intros x Hx; by apply Hv'|by apply IH].
Qed.

Lemma verdict_recorded d v :
  (forall r, v = Some r -> dict_get (d_map d) (sd_id s) = Some r) ->
  ensures (rerun_verdict rt _validate_service_endpoint float_of_str http_provider gpu_provider dispatch_child ex s d v)
    (fun x => dict_get (d_map x.1) (sd_id s) = Some x.2).
Proof.
  intros Hv. unfold rerun_verdict. destruct v as [r|]; [apply ensures_ret; by apply Hv|].
  eapply ensures_bind; [apply run_records|]. intros [d' r] [_ Hr]. by apply ensures_ret.
Qed.

(** How a loop may end. *)
Inductive loop_end (d : Dispatched) : Prop :=
  | Passed r : dict_get (d_map d) (sd_id s) = Some r -> kind r = "qc" ->
      is_true (dict_get (result_data r) "qc_pass") = true -> loop_end d
  | UsedUp : dict_get (d_map d) (sd_id s) = Some (terminal_result s lp (Z.max 0 (max_iterations lp))) ->
      dict_get (qc_results (d_context d)) (sd_id s) =
        Some (result_data (terminal_result s lp (Z.max 0 (max_iterations lp)))) -> loop_end d
  | Broken text : last (errors (d_context d)) = Some (loop_text lp text) -> loop_end d.

Lemma close_ends d rs i :
  i = Z.max 0 (max_iterations lp) -> loop_end (close_loop d s (terminal_result s lp i) rs).
Proof. intros ->. apply UsedUp; cbn; by rewrite dict_get_set, decide_True. Qed.

Lemma error_ends d text : loop_end (in_context d (fun c => with_error c (loop_text lp text))).
Proof. apply (Broken _ text). cbn. apply last_snoc. Qed.

Lemma loop_ends left iteration d :
  NoDup (on_correction lp) -> iteration = 1 \/ 1 <= iteration <= max_iterations lp ->
  left = Z.to_nat (max_iterations lp - iteration + 1) ->
  ensures (loops _defs left iteration lp s d) loop_end.
Proof.
  intros Hnd. revert iteration d. induction left as [|left IH]; intros iteration d Hi Hleft; cbn [correction_loop].
  { apply ensures_ret, close_ends. lia. }
  destruct (dict_get _defs (correction_stage_id lp)); [|apply ensures_ret, error_ends].
  eapply ensures_bind; [apply ensures_any|]. intros [d1 rc] _. cbv beta iota.
  case_decide; [apply ensures_ret, error_ends|].
  eapply ensures_bind; [by apply reenter_verdict|]. intros [d2 v] Hv. cbn in Hv.
  eapply ensures_bind; [by apply verdict_recorded|]. intros [d3 rq] Hrq. cbn in Hrq. cbv beta iota zeta.
  case_match eqn:Hpass; [|case_match].
  - apply andb_true_iff in Hpass as [Hk%String.eqb_eq Hp]. apply ensures_ret. by apply (Passed _ rq).
  - bool_prop. apply ensures_ret, close_ends. lia.
  - bool_prop. apply IH; lia.
Qed.

End Loop.

(** A correction loop never ends silently.  When it returns, the trigger's
    result is a passing quality verdict, or the terminal skipped result that
    says how many iterations were used, in the stage map and in the quality
    evidence, or the last error of the context is the loop's own, for a
    correction that failed or is not declared. *)
Theorem loop_never_silent _defs lp s d w w' d' :
  well_named _defs -> NoDup (on_correction lp) ->
  loops _defs (Z.to_nat (max_iterations lp)) 1 lp s d w = (w', Ok d') ->
  loop_end lp s d'.
Proof.
  intros Hnamed Hnd H. eapply (loop_ends _defs Hnamed lp s _ 1 d Hnd); [by left| |exact H]. f_equal. lia.
Qed.

End Verdicts.

(** ** Witnesses and examples *)
Module CompositeDemo.

Definition provider (adapter : string) (kinds : list string) : data :=
  [("adapter", PStr adapter); ("capabilities", PList (PStr <$> kinds)); ("endpoint_ref", PStr "svc")].

Definition image_stages : list StageDef :=
  [mkStageDef "gen" "generate" "img" [] [] None;
   mkStageDef "check" "qc" "img" [] ["gen"] None;
   mkStageDef "fix" "correct" "img" [("run_on_qc_fail", PBool true)] ["check"] None;
   mkStageDef "publish" "generate" "img" [] ["check"] None].

Definition image_loop : Loop := mkLoop "retry" "check" "fix" ["gen"; "check"] 2.

Definition image_contract : Contract :=
  mkContract (PStr "v1") (Some image_stages) [image_loop] None (Some 2).

Definition runtime : Runtime := mkRuntime
  [("svc", PDict [("port", PInt 8000)])]
  [("img", provider "http_json" ["generate"; "qc"; "correct"]); ("sub", provider "local_pipeline" ["delegate"]);
   ("gpu", provider "gpu_manager_generation" ["generate"])]
  [("image", Some image_contract)] ["img"; "sub"; "gpu"].

Definition no_check : string -> string -> data -> result Exn unit := fun _ _ _ => Ok tt.
Definition no_float : string -> option Z := fun _ => None.
Definition stuck : Exn := mkExn OtherException "".

(** The world is the list of stages called; the check passes once a fix was
    made, or at once when [good]. *)
Definition reply (good : bool) (s : StageDef) : eff (list string) StageResult := fun w =>
  let pass := good || bool_decide ("fix" ∈ w) in
  let r st d := (w ++ [sd_id s], Ok (mkStageResult (sd_id s) (sd_kind s) (sd_provider s) st d "" 0)) in
  if String.eqb (sd_kind s) "qc" then r (if pass then ok else failed) [("qc_pass", PBool pass)]
  else r ok [("artifact_path", PStr "a.png")].

Definition http (good : bool) : Contract -> HttpBinding -> StageDef -> StageContext -> eff (list string) StageResult :=
  fun _ _ s _ => reply good s.

(** A GPU check that reports its verdict in the data only. *)
Definition gpu : string -> StageDef -> StageContext -> eff (list string) StageResult := fun _ s _ w =>
  (w ++ [sd_id s],
   Ok (mkStageResult (sd_id s) (sd_kind s) (sd_provider s) ok [("qc_pass", PBool false)] "" 0)).

Definition executor (ct : Contract) (ids : list string) : Composite :=
  match build_multi_provider_executor runtime no_check no_float ct ids true 3 None with
  | Ok ex => ex | Err _ => mkComposite ct [] [] 0 [] 0 [] false end.

Definition run (good : bool) (ct : Contract) (seeds : list StageResult) (c : StageContext)
    : list string * result Exn (StageContext * list StageResult) :=
  composite_dispatch runtime no_check no_float (http good) gpu stuck (executor ct ["img"; "sub"])
    (stages_of ct) None c seeds [].

Definition trace (r : list string * result Exn (StageContext * list StageResult))
    : list string * result ErrorClass (list (string * StageStatus)) :=
  (r.1, match r.2 with
        | Ok (_, rs) => Ok ((fun x => (stage_id x, status x)) <$> rs)
        | Err e => Err (exn_class e)
        end).

Definition plain (stages : list StageDef) : Contract := mkContract (PStr "v1") (Some stages) [] None (Some 2).

End CompositeDemo.

Import CompositeDemo.

(** The check fails, the loop fixes the image and the check passes. *)
Example loop_recovers :
  trace (run false image_contract [] (new_context "")) =
    (["gen"; "check"; "fix"; "gen"; "check"; "publish"],
     Ok [("gen", ok); ("check", failed); ("fix", ok); ("gen", ok); ("check", ok); ("publish", ok)]).
Proof. by vm_compute. Qed.

(** The same pipeline, delegated, counts as failed: the superseded verdict is
    still among the results of the child. *)
Example recovered_child_reported_failed :
  trace (run false (plain
    [mkStageDef "outer" "delegate" "sub" [("pipeline_id", PStr "image")] [] None;
     mkStageDef "after" "generate" "img" [] ["outer"] None]) [] (new_context "")) =
    (["gen"; "check"; "fix"; "gen"; "check"; "publish"], Ok [("outer", failed); ("after", skipped)]).
Proof. by vm_compute. Qed.

(** When the check passes at once its correction is omitted without a trace,
    and a stage after the correction makes the whole dispatch raise. *)
Example omitted_correction_breaks_dependents :
  let stages := image_stages ++ [mkStageDef "after" "generate" "img" [] ["fix"] None] in
  let ct := mkContract (PStr "v1") (Some stages) [image_loop] None (Some 2) in
  trace (run true ct [] (new_context "")) = (["gen"; "check"; "publish"], Err DispatchContextError) /\
  trace (run false ct [] (new_context "")) =
    (["gen"; "check"; "fix"; "gen"; "check"; "publish"; "after"],
     Ok [("gen", ok); ("check", failed); ("fix", ok); ("gen", ok); ("check", ok); ("publish", ok); ("after", ok)]).
Proof. by vm_compute. Qed.

(** A GPU provider is not asked for its capabilities, and its failing verdict
    with status ok lets the stages after it run. *)
Example gpu_verdict_ignored :
  trace (run true (plain
    [mkStageDef "check" "qc" "gpu" [] [] None; mkStageDef "publish" "generate" "img" [] ["check"] None])
    [] (new_context "")) = (["check"; "publish"], Ok [("check", ok); ("publish", ok)]) /\
  validate_stage_kind runtime "gpu" "qc" <> Ok tt.
Proof. split; by vm_compute. Qed.

(** A loop's correction that does not opt in passes the composite's gate and
    is stopped by the HTTP executor's own: the loop repeats the stages without
    correcting anything. *)
Example loop_without_correction :
  let stages := [mkStageDef "gen" "generate" "img" [] [] None; mkStageDef "check" "qc" "img" [] ["gen"] None;
                 mkStageDef "fix" "correct" "img" [] ["check"] None] in
  trace (run false (mkContract (PStr "v1") (Some stages) [image_loop] None (Some 2)) [] (new_context "")) =
    (["gen"; "check"; "gen"; "check"; "gen"; "check"],
     Ok [("gen", ok); ("check", failed); ("fix", skipped); ("gen", ok); ("check", failed); ("fix", skipped);
         ("gen", ok); ("check", skipped)]).
Proof. by vm_compute. Qed.

(** A worker's correction that its context already counts is counted again. *)
Example seeded_correction_counted_twice :
  let c := with_loop_increment (new_context "") in
  let fixed := mkStageResult "fix" "correct" "img" ok [] "" 0 in
  correction_loop_count c = 1 /\
  correction_loop_count (d_context (seeded_start c [fixed])) = 2.
Proof. by vm_compute. Qed.

Abbreviation image_executor := (executor image_contract ["img"; "sub"]).
Abbreviation image_run :=
  (composite_dispatch runtime no_check no_float (http false) gpu stuck image_executor image_stages None
     (new_context "") [] []).


Lemma seeded_never_repeated_witness :
  exists new,
    (composite_dispatch runtime no_check no_float (http_logged (http false)) (gpu_logged gpu) stuck
       image_executor image_stages None (new_context "")
       [mkStageResult "publish" "generate" "img" ok [] "" 0] ([], [])).1.2 = new /\
    Forall (fun e => 0 <= e.1) new /\ (count 0 "publish" new <= 0)%nat.
Proof.
  apply (seeded_never_repeated runtime no_check no_float (http false) gpu stuck
    image_executor image_stages None (new_context "")
    [mkStageResult "publish" "generate" "img" ok [] "" 0] [] "publish" 4).
  - apply defs_of_named.
  - intros lp Hlp. vm_compute in Hlp. apply elem_of_cons in Hlp as [->|Hlp]; [|by apply elem_of_nil in Hlp].
    split_and!; [done|done|]. apply (bool_decide_unpack _). by vm_compute.
  - intros s Hs _. apply Forall_forall with (x := s) (P := fun s => (S (async_rounds (http_retries s)) <= 4)%nat)
      in Hs; [done|]. repeat constructor.
Defined.

(** The state before the loop of the run above: the failed check recorded. *)
Definition failed_check : Dispatched :=
  mkDispatched (new_context "")
    [("gen", mkStageResult "gen" "generate" "img" ok [("artifact_path", PStr "a.png")] "" 0);
     ("check", mkStageResult "check" "qc" "img" failed [("qc_pass", PBool false)] "" 0)] [].

Definition demo_loop : list string * result Exn Dispatched :=
  correction_loop runtime no_check no_float (http false) gpu (fun _ _ _ => lift (Err stuck))
    image_executor (defs_of image_stages) 2 1 image_loop
    (mkStageDef "check" "qc" "img" [] ["gen"] None) failed_check [].

Lemma loop_never_silent_witness :
  match demo_loop with
  | (_, Ok d) => loop_end image_loop (mkStageDef "check" "qc" "img" [] ["gen"] None) d
  | _ => False
  end.
Proof.
  destruct demo_loop as [w [d|e]] eqn:H; [|by vm_compute in H].
  apply (loop_never_silent runtime no_check no_float (http false) gpu (fun _ _ _ => lift (Err stuck))
    image_executor (defs_of image_stages) image_loop
    (mkStageDef "check" "qc" "img" [] ["gen"] None) failed_check [] w d).
  - apply defs_of_named.
  - apply (bool_decide_unpack _). by vm_compute.
  - exact H.
Defined.
