(* ===== verification/Coordinator.v ===== *)
(** * Coordinator: the durable parent-pipeline coordinator

    Models [PipelineCoordinator] of [scripts/pipeline_coordinator.py]: the run
    state, the sanitizer, the trusted leaf configuration, input bindings, one
    [advance] step with its quality loop, retries and cancellation cascade.
    The store, the authority resolver, the external executor and the leaf
    client are operations of an effect; a step is a program over them, so it
    can be stopped between any two operations.  Compiled stages and loops are
    the dicts of the plan.  Timestamps other than an artifact's are left out:
    nothing reads them.  Values are JSON values ([bytes] cannot occur) and a
    string's length is its number of bytes. *)

From stdpp Require Import pretty.
From S2P Require Import Prelude PyValue PyText Programs.

(** ** The run state *)

Inductive TerminalCode :=
  | SUCCESS | QC_EXHAUSTED | PROVIDER_TIMEOUT | PROVIDER_ERROR | LEAF_ERROR | COORDINATOR_ERROR
  | COORDINATOR_CANCELLED | UNSAFE_RESUME | NO_ARTIFACT.
#[export] Instance TerminalCode_eq_dec : EqDecision TerminalCode.
Proof. solve_decision. Defined.

Inductive StageStatus := PENDING | RUNNING | COMPLETED | FAILED | SKIPPED.
#[export] Instance StageStatus_eq_dec : EqDecision StageStatus.
Proof. solve_decision. Defined.

(** The [status] of a run. *)
Inductive RunStatus := Run_running | Run_completed | Run_failed | Run_cancelled.
#[export] Instance RunStatus_eq_dec : EqDecision RunStatus.
Proof. solve_decision. Defined.

Record ArtifactRef := mkArtifactRef {
  path_or_url : string; sha256 : string; producer_stage_id : string; produced_at : string }.
#[export] Instance ArtifactRef_eq_dec : EqDecision ArtifactRef.
Proof. solve_decision. Defined.

Record QCVerdict := mkQCVerdict {
  v_stage_id : string; passed : bool; report : string; raw_data : option string; scored_at : string }.

Record ChildJobRef := mkChildJobRef {
  child_job_id : string; c_stage_id : string; c_idempotency_key : string; c_status : string;
  c_cancelled : bool }.

Record StageAttempt := mkStageAttempt {
  attempt : Z; at_status : StageStatus; at_error : option string; output : data;
  qc_verdict : option QCVerdict; idempotency_key : string; provider_handle : option string }.

Record PipelineRunState := mkRunState {
  parent_job_id : string; run_id : string; pipeline_id : string; revision_hash : string;
  status : RunStatus; current_stage_id : option string; cursor_note : option string;
  request_params : data; compiled_pipeline : data; child_jobs : list ChildJobRef;
  stage_attempts : list (string * list StageAttempt);
  stage_qc_verdicts : list (string * list QCVerdict);
  correction_count : Z; max_corrections : Z; loop_iterations : list (string * Z);
  pending_stage_ids : list string; artifact : option ArtifactRef;
  initial_artifact : option ArtifactRef; last_good_artifact : option ArtifactRef;
  cancelled : bool; cancellation_intent : bool; cancelled_children : list string;
  terminal_code : option TerminalCode; terminal_reason : option string; resume_count : Z }.

#[export] Instance PipelineRunState_eta : Replaceable PipelineRunState := fun s =>
  mkRunState (parent_job_id s) (run_id s) (pipeline_id s) (revision_hash s) (status s)
    (current_stage_id s) (cursor_note s) (request_params s) (compiled_pipeline s) (child_jobs s)
    (stage_attempts s) (stage_qc_verdicts s) (correction_count s) (max_corrections s)
    (loop_iterations s) (pending_stage_ids s) (artifact s) (initial_artifact s)
    (last_good_artifact s) (cancelled s) (cancellation_intent s) (cancelled_children s)
    (terminal_code s) (terminal_reason s) (resume_count s).

Definition is_terminal (s : PipelineRunState) : bool :=
  match status s with Run_running => false | _ => true end.

(** ** The sanitizer *)

Definition MAX_STR_LEN : nat := Z.to_nat 10000.
Definition MAX_COLLECTION_ITEMS : nat := Z.to_nat 1000.

Definition SANITIZE_REJECT_KEYS : list string :=
  ["base64"; "blob"; "bytes"; "password"; "api_key"; "authorization"; "secret"; "private_key"].
Definition SANITIZE_REJECT_SUFFIXES : list string := ["_base64"; "_blob"; "_bytes"].

Definition ends_with (suffix s : string) : bool :=
  starts_with (rev (String.list_ascii_of_string suffix)) (rev (String.list_ascii_of_string s)).

(** A byte count under a key that ends in [_bytes] is metadata. *)
Definition byte_count (k : string) (v : value) : bool :=
  ends_with "_bytes" k && match v with PInt n => (0 <=? n) && (n <=? 2 ^ 63 - 1) | _ => false end.

Definition rejected_key (k : string) : bool := bool_decide (k ∈ SANITIZE_REJECT_KEYS).

Definition rejected_item (i : string * value) : bool :=
  existsb (fun s => ends_with s i.1) SANITIZE_REJECT_SUFFIXES && negb (byte_count i.1 i.2).

Definition too_long_text (path : string) : string :=
  path +:+ ": string value exceeds 10000 chars (truncated for persistence safety)".

(** [_deep_sanitize]; [Err] is [ValueError]. *)
Fixpoint _deep_sanitize (path : string) (v : value) : result string value :=
  match v with
  | PStr s => Ok (PStr (if (MAX_STR_LEN <? String.length s)%nat then too_long_text path else s))
  | PDict d =>
      match List.find (fun i => rejected_key i.1) d, List.find rejected_item d with
      | Some (k, _), _ =>
          Err (path +:+ "." +:+ k +:+ ": rejected key '" +:+ k +:+ "' for persistence safety")
      | None, Some (k, _) => Err (path +:+ "." +:+ k +:+ ": key suffix rejected for persistence safety")
      | None, None =>
          items ← (fix go d := match d with
            | [] => Ok []
            | (k, x) :: d' =>
                x' ← _deep_sanitize (path +:+ "." +:+ k) x; r ← go d'; Ok ((k, x') :: r)
            end) d;
          Ok (PDict items)
      end
  | PList l =>
      if (MAX_COLLECTION_ITEMS <? length l)%nat then
        Err (path +:+ ": collection exceeds 1000 items for persistence safety")
      else
        items ← (fix go (i : Z) l := match l with
          | [] => Ok []
          | x :: l' =>
              x' ← _deep_sanitize (path +:+ "[" +:+ pretty i +:+ "]") x; r ← go (i + 1) l'; Ok (x' :: r)
          end) 0 l;
        Ok (PList items)
  | _ => Ok v
  end.

(** [_deep_sanitize] of a dict. *)
Definition sanitize_dict (path : string) (d : data) : result string data :=
  v ← _deep_sanitize path (PDict d); Ok match v with PDict d' => d' | _ => [] end.

(** ** Compiled stages *)

Definition get_str (d : data) (k : string) : string := default "" (dict_get d k ≫= as_str).
Definition as_dict (v : value) : data := match v with PDict d => d | _ => [] end.
Definition as_list (v : value) : list value := match v with PList l => l | _ => [] end.

Definition stages (p : data) : list data := as_dict <$> as_list (dict_get_or p "stages" (PList [])).
Definition loops (p : data) : list data := as_dict <$> as_list (dict_get_or p "loops" (PList [])).

Definition stage_id (st : data) : string := get_str st "id".
Definition stage_kind (st : data) : string := get_str st "kind".

(** [enabled_by_default] is true unless it is [False]. *)
Definition enabled (st : data) : bool :=
  match dict_get st "enabled_by_default" with Some (PBool false) => false | _ => true end.

Definition depends_on (st : data) : list string := py_str <$> as_list (dict_get_or st "depends_on" (PList [])).

(** [{s["id"]: s for s in stages}] *)
Definition stage_map_of (p : data) : list (string * data) :=
  fold_left (fun m st => dict_set m (stage_id st) st) (stages p) [].

Definition attempts_of (s : PipelineRunState) (sid : string) : list StageAttempt :=
  default [] (dict_get (stage_attempts s) sid).

Definition _latest_stage_status (s : PipelineRunState) (sid : string) : option StageStatus :=
  at_status <$> last (attempts_of s sid).

Definition is_done (st : option StageStatus) : bool :=
  match st with Some COMPLETED | Some SKIPPED => true | _ => false end.

Definition dependency_met (s : PipelineRunState) (map : list (string * data)) (dep : string) : bool :=
  match dict_get map dep with
  | None => false
  | Some st => negb (enabled st) || is_done (_latest_stage_status s dep)
  end.

Definition _stage_ready (s : PipelineRunState) (st : data) (map : list (string * data)) : bool :=
  enabled st && str_truthy (stage_id st) && negb (is_done (_latest_stage_status s (stage_id st)))
  && forallb (dependency_met s map) (depends_on st).

Definition _first_ready_stage_id (s : PipelineRunState) (map : list (string * data)) : option string :=
  stage_id <$> List.find (fun st => negb (String.eqb (stage_kind st) "correct") && _stage_ready s st map) map.*2.

(** ** Operations *)

(** What an executor reports: the keys of its result dict; an empty artifact
    is none. *)
Record Outcome := mkOutcome {
  o_status : string; o_output : value; o_error : option string; o_verdict : option QCVerdict;
  o_handle : value; o_artifact : data }.

(** [l_error] is [None] when the key is absent. *)
Record LeafReport := mkLeafReport {
  l_status : string; l_output : value; l_error : option (option string); l_verdict : option QCVerdict;
  l_artifact : data }.

(** The calls a step makes; [Err] is an exception. *)
Inductive op : Type -> Type :=
  | Load (run : string) : op (result string (option PipelineRunState))
  | Save (s : PipelineRunState) : op bool
  | Event (run type : string) (payload : data) : op bool
  | Now : op string
  | Resolve (st : data) : op (result string string)
  | Execute (st : data) (s : PipelineRunState) (key : string) : op (result string Outcome)
  | Poll (st : data) (s : PipelineRunState) (key handle : string) : op (result string Outcome)
  | ExternalCancel (run sid : string) : op (result string bool)
  | LeafSubmit (st : data) (run : string) (s : PipelineRunState) (key : string) (config : data)
      : op (result string string)
  | LeafPoll (child : string) : op (result string LeafReport)
  | LeafCancel (child : string) : op (result string bool)
  | Requeue (s : PipelineRunState) : op bool
  | SubmitParent (s : PipelineRunState) : op bool.

Abbreviation prog := (program op).

Definition save (s : PipelineRunState) : prog unit := Vis (Save s) (fun _ => Ret ()).
Definition event (s : PipelineRunState) (type : string) (payload : data) : prog unit :=
  Vis (Event (run_id s) type payload) (fun _ => Ret ()).

(** ** Keys *)

Definition colon (a b : string) : string := a +:+ ":" +:+ b.

(** The text whose digest is the idempotency key. *)
Definition key_text (run sid : string) (n : Z) : string := colon (colon run sid) (pretty n).

Section Coordinator.
(** [hashlib.sha256(...).hexdigest()] *)
Variable sha256_hex : string -> string.

Definition _stage_idempotency_key (run sid : string) (n : Z) : string := sha256_hex (key_text run sid n).

(** One bounded opaque provider handle; [Err] is [ValueError]. *)
Definition _provider_handle (v : value) : result string string :=
  match v with
  | PStr s =>
      let handle := py_strip s in
      if negb (str_truthy handle) then Err "provider_handle must be a non-empty string"
      else if (1024 <? Z.of_nat (String.length handle)) then Err "provider_handle exceeds 1024 characters"
      else Ok handle
  | _ => Err "provider_handle must be a non-empty string"
  end.

(** ** Input bindings *)

Abbreviation chars := String.list_ascii_of_string (only parsing).
Abbreviation of_chars := String.string_of_list_ascii (only parsing).

(** [s.removeprefix(p)], when [s] has it. *)
Definition strip_prefix (p s : string) : option string :=
  if starts_with (chars p) (chars s) then Some (of_chars (drop (String.length p) (chars s))) else None.

(** The text before and after the first dot. *)
Definition split_dot (s : string) : option (string * string) :=
  let '(a, b) := span (fun c => negb (Ascii.eqb c (chr 46))) (chars s) in
  match b with [] => None | _ :: b' => Some (of_chars a, of_chars b') end.

(** Where a binding's value comes from; [Err] is [ValueError], [None] a value
    that is not there. *)
Definition binding_value (s : PipelineRunState) (source : value) : result string (option value) :=
  match source with
  | PStr src =>
      match strip_prefix "workflow." src with
      | Some name =>
          match dict_get (request_params s) name with
          | Some v => Ok (Some v)
          | None =>
              Ok (match dict_get (as_dict (dict_get_or (compiled_pipeline s) "inputs" (PDict []))) name with
                  | Some (PDict def) => dict_get def "default"
                  | _ => None
                  end)
          end
      | None =>
          match strip_prefix "stage." src with
          | Some rest =>
              match split_dot rest with
              | None => Err ("invalid stage binding source " +:+ py_repr source)
              | Some (sid, name) =>
                  Ok (match last (attempts_of s sid) with
                      | None => None
                      | Some a => dict_get (output a) name
                      end)
              end
          | None => Err ("unsupported binding source " +:+ py_repr source)
          end
      end
  | _ => Err ("unsupported binding source " +:+ py_repr source)
  end.

Fixpoint resolve_bindings (s : PipelineRunState) (bindings resolved : data) : result string data :=
  match bindings with
  | [] => Ok resolved
  | (name, PDict b) :: bindings' =>
      let source := dict_get_or b "source" PNone in
      v ← binding_value s source;
      match v with
      | None =>
          match dict_get b "optional" with
          | Some (PBool true) => resolve_bindings s bindings' resolved
          | _ => Err ("required input " +:+ py_repr_str name +:+ " has no resolved value from " +:+ py_repr source)
          end
      | Some x => x' ← _deep_sanitize "$" x; resolve_bindings s bindings' (dict_set resolved name x')
      end
  | (name, _) :: _ => Err ("input binding " +:+ py_repr_str name +:+ " is not an object")
  end.

Definition _materialize_stage_inputs (st : data) (s : PipelineRunState) : result string data :=
  match dict_get st "params" with
  | Some (PDict params) =>
      match dict_get params "bindings" with
      | Some (PDict bindings) =>
          match dict_get bindings "inputs" with
          | Some (PDict inputs) =>
              resolved ← resolve_bindings s inputs []; Ok (dict_set st "resolved_inputs" (PDict resolved))
          | _ => Ok st
          end
      | _ => Ok st
      end
  | _ => Ok st
  end.

(** ** The trusted configuration of a leaf *)

Definition LEAF_STRIP_PREFIXES : list string :=
  ["endpoint"; "unit"; "command"; "routing_group"; "bypass"; "skip_pipeline"; "internal_leaf"].
Definition LEAF_STRIP_KEYS : list string := LEAF_STRIP_PREFIXES ++ ["routing"; "url"; "host"].
Definition strip_suffixes : list string := ["_base64"; "_blob"; "_bytes"; "_data"].

(** Keys a caller could use to redirect the work. *)
Definition caller_key (k : string) : bool :=
  bool_decide (k ∈ LEAF_STRIP_KEYS) || existsb (fun p => starts_with (chars p) (chars k)) LEAF_STRIP_PREFIXES.

Definition stripped_key (k : string) : bool :=
  caller_key k || existsb (fun s => ends_with s k) strip_suffixes.

Fixpoint _deep_strip (v : value) : value :=
  match v with
  | PDict d =>
      PDict ((fix go d := match d with
        | [] => []
        | (k, x) :: d' => if stripped_key k then go d' else (k, _deep_strip x) :: go d'
        end) d)
  | PList l => PList (map _deep_strip l)
  | _ => v
  end.

Definition artifact_dict (a : ArtifactRef) : data :=
  [("path_or_url", PStr (path_or_url a)); ("sha256", PStr (sha256 a));
   ("producer_stage_id", PStr (producer_stage_id a)); ("produced_at", PStr (produced_at a))].

Definition optional_str (o : option string) : value := match o with Some s => PStr s | None => PNone end.

Definition verdict_dict (v : QCVerdict) : data :=
  [("stage_id", PStr (v_stage_id v)); ("passed", PBool (passed v)); ("report", PStr (report v));
   ("raw_data", optional_str (raw_data v)); ("scored_at", PStr (scored_at v))].

Definition optional_dict {A} (f : A -> data) (o : option A) : value :=
  match o with Some a => PDict (f a) | None => PNone end.

(** The text a finished prompt stage wrote, if any. *)
Definition enhanced_text (a : StageAttempt) : option string :=
  if decide (at_status a = COMPLETED) then
    let v := value_or (dict_get_or (output a) "enhanced_prompt" PNone) (dict_get_or (output a) "prompt" PNone) in
    if py_truthy v then Some (py_str v) else None
  else None.

Definition effective_prompt (s : PipelineRunState) : string :=
  fold_left (fun prompt i =>
      if String.eqb (stage_kind (default [] (dict_get (stage_map_of (compiled_pipeline s)) i.1))) "prompt_enhance"
      then default prompt (head (omap enhanced_text (rev i.2))) else prompt)
    (stage_attempts s)
    (py_str (value_or (dict_get_or (request_params s) "prompt" PNone) (PStr ""))).

Definition latest_qc (s : PipelineRunState) : option QCVerdict :=
  fold_left (fun acc i => match last i.2 with Some v => Some v | None => acc end) (stage_qc_verdicts s) None.

Definition leaf_context (s : PipelineRunState) : value :=
  PDict [("request_params", PDict (request_params s)); ("effective_prompt", PStr (effective_prompt s));
         ("artifact", optional_dict artifact_dict (artifact s));
         ("qc_verdict", optional_dict verdict_dict (latest_qc s))].

Fixpoint strip_stage (st : data) : data :=
  match st with
  | [] => []
  | (k, v) :: st' => if caller_key k then strip_stage st' else (k, _deep_strip v) :: strip_stage st'
  end.

Definition _build_trusted_config (st : data) (s : PipelineRunState) : data :=
  dict_set (strip_stage st) "context" (_deep_strip (leaf_context s)).

(** ** Leaf execution *)

Definition with_attempts (s : PipelineRunState) (sid : string) (l : list StageAttempt) : PipelineRunState :=
  s ⟪ stage_attempts := dict_set (stage_attempts s) sid l ⟫.

(** The child jobs with their places, the latest first. *)
Definition newest_first (l : list ChildJobRef) : list (nat * ChildJobRef) := rev (imap pair l).

Definition live_child_of (sid : string) (c : ChildJobRef) : bool :=
  String.eqb (c_stage_id c) sid && negb (c_cancelled c).

Definition set_child (s : PipelineRunState) (i : nat) (f : ChildJobRef -> ChildJobRef) : PipelineRunState :=
  s ⟪ child_jobs := alter f i (child_jobs s) ⟫.

Definition child_status (st : string) (c : ChildJobRef) : ChildJobRef :=
  mkChildJobRef (child_job_id c) (c_stage_id c) (c_idempotency_key c) st (c_cancelled c).

(** The most recent earlier child that is not lost or failed. *)
Fixpoint reusable_child (candidates : list (nat * ChildJobRef)) : prog (option (nat * ChildJobRef)) :=
  match candidates with
  | [] => Ret None
  | (i, c) :: rest =>
      r ← perform (LeafPoll (child_job_id c));
      match r with
      | Ok rep =>
          if bool_decide (l_status rep ∈ ["queued"; "in_flight"; "completed"]) then Ret (Some (i, c))
          else reusable_child rest
      | Err _ => reusable_child rest
      end
  end.

Definition no_outcome (status : string) (err : option string) : Outcome :=
  mkOutcome status (PDict []) err None PNone [].

Definition leaf_outcome (r : LeafReport) : Outcome :=
  if String.eqb (l_status r) "completed" then
    let out := as_dict (l_output r) in
    let out' := match l_artifact r with [] => out | a => dict_set out "artifact" (PDict a) end in
    mkOutcome "completed" (PDict out') None (l_verdict r) PNone (l_artifact r)
  else if String.eqb (l_status r) "failed" then
    no_outcome "failed" (default (Some "leaf generation failed") (l_error r))
  else if bool_decide (l_status r ∈ ["queued"; "in_flight"]) then no_outcome (l_status r) None
  else no_outcome "failed" (Some ("Unknown child status: " +:+ l_status r)).

Definition _execute_leaf (s : PipelineRunState) (st : data) (key : string) : prog (PipelineRunState * Outcome) :=
  let sid := stage_id st in
  let config := _build_trusted_config st s in
  let own := List.find (fun ic => live_child_of sid ic.2 && String.eqb (c_idempotency_key ic.2) key)
               (newest_first (child_jobs s)) in
  found ← match own with
          | Some ic => Ret (Some ic)
          | None => reusable_child (List.filter (fun ic => live_child_of sid ic.2) (newest_first (child_jobs s)))
          end;
  '(s1, i, child) ← match found with
        | Some (i, c) => Ret (s, i, child_job_id c)
        | None =>
            child ← require (LeafSubmit st (run_id s) s key config);
            let s' := s ⟪ child_jobs := child_jobs s ++ [mkChildJobRef child sid key "queued" false] ⟫ in
            save s';;
            Ret (s', length (child_jobs s), child)
        end;
  rep ← require (LeafPoll child);
  let s2 := set_child s1 i (child_status (l_status rep)) in
  save s2;;
  Ret (s2, leaf_outcome rep).

(** ** Ending a run *)

Definition TerminalCode_value (c : TerminalCode) : string :=
  match c with
  | SUCCESS => "success" | QC_EXHAUSTED => "qc_exhausted" | PROVIDER_TIMEOUT => "provider_timeout"
  | PROVIDER_ERROR => "provider_error" | LEAF_ERROR => "leaf_error"
  | COORDINATOR_ERROR => "coordinator_error" | COORDINATOR_CANCELLED => "coordinator_cancelled"
  | UNSAFE_RESUME => "unsafe_resume" | NO_ARTIFACT => "no_artifact"
  end.

Definition status_of (c : TerminalCode) : RunStatus :=
  match c with SUCCESS => Run_completed | COORDINATOR_CANCELLED => Run_cancelled | _ => Run_failed end.

(** The artifact of a run that did not succeed: never the rejected one when a
    better one is known. *)
Definition safest_artifact (s : PipelineRunState) : option ArtifactRef :=
  match last_good_artifact s with Some a => Some a | None => initial_artifact s end.

Definition settle_artifact (s : PipelineRunState) (c : TerminalCode) (reason : string)
    : PipelineRunState * string :=
  if decide (c = SUCCESS) then (s, reason)
  else match safest_artifact s with
       | Some a =>
           if decide (artifact s = Some a) then (s, reason)
           else (s ⟪ artifact := Some a ⟫, reason +:+ "; fallback_artifact=" +:+ producer_stage_id a)
       | None => (s, reason)
       end.

Definition terminalized (s : PipelineRunState) (c : TerminalCode) (reason : string) : PipelineRunState :=
  let '(s1, reason1) := settle_artifact s c reason in
  s1 ⟪ status := status_of c ⟫ ⟪ terminal_code := Some c ⟫ ⟪ terminal_reason := Some reason1 ⟫.

Definition _terminalize (s : PipelineRunState) (c : TerminalCode) (reason : string) : prog PipelineRunState :=
  if is_terminal s then Ret s
  else
    let s' := terminalized s c reason in
    save s';;
    event s' "terminalized" [("code", PStr (TerminalCode_value c)); ("reason", optional_str (terminal_reason s'));
                             ("artifact", optional_dict artifact_dict (artifact s'))];;
    Ret s'.

(** ** Moving on *)

Definition all_done (s : PipelineRunState) : bool :=
  forallb (fun st => is_done (_latest_stage_status s (stage_id st)))
    (List.filter (fun st => enabled st && negb (String.eqb (stage_kind st) "correct"))
       (stages (compiled_pipeline s))).

Definition _advance_to_next_stage (s : PipelineRunState) (map : list (string * data)) : prog PipelineRunState :=
  match pending_stage_ids s with
  | _ :: _ => let s' := s ⟪ current_stage_id := None ⟫ in save s';; Ret s'
  | [] =>
      match _first_ready_stage_id s map with
      | None =>
          if all_done s then _terminalize s SUCCESS "All stages completed"
          else _terminalize s COORDINATOR_ERROR
                 "no dependency-ready stage remains; workflow state is inconsistent"
      | Some next =>
          if decide (Some next = current_stage_id s) then save s;; Ret s
          else match dict_get map next with
               | None => _terminalize s SUCCESS "All stages completed"
               | Some _ =>
                   let s' := s ⟪ current_stage_id := Some next ⟫ ⟪ cursor_note := None ⟫ in
                   save s';;
                   event s' "stage_advanced" [("to", PStr next); ("from", optional_str (current_stage_id s))];;
                   Ret s'
               end
      end
  end.

Definition get_int (d : data) (k : string) (dflt : Z) : Z :=
  match dict_get d k with Some (PInt n) => n | _ => dflt end.

(** The loop a failed verdict enters: its id, its bound, and the stages to run. *)
Definition correction_plan (s : PipelineRunState) (sid : string) : option (string * Z * list string) :=
  match List.find (fun lp => String.eqb (get_str lp "trigger_stage_id") sid) (loops (compiled_pipeline s)) with
  | Some lp =>
      Some (get_str lp "id", get_int lp "max_iterations" 0,
            get_str lp "correction_stage_id" :: (py_str <$> as_list (dict_get_or lp "on_correction" (PList []))))
  | None =>
      match List.find (fun st => String.eqb (stage_kind st) "correct") (stages (compiled_pipeline s)) with
      | Some st => Some (stage_id st, max_corrections s, [stage_id st])
      | None => None
      end
  end.

Definition iterations (s : PipelineRunState) (loop : string) : Z := default 0 (dict_get (loop_iterations s) loop).

Definition _handle_qc_result (s : PipelineRunState) (v : QCVerdict) (map : list (string * data))
    : prog PipelineRunState :=
  event s "qc_result" [("stage_id", PStr (v_stage_id v)); ("passed", PBool (passed v)); ("report", PStr (report v))];;
  if passed v then
    match artifact s with
    | Some a => let s' := s ⟪ last_good_artifact := Some a ⟫ in save s';; _advance_to_next_stage s' map
    | None => _advance_to_next_stage s map
    end
  else
    match correction_plan s (v_stage_id v) with
    | None => _terminalize s QC_EXHAUSTED "QC failed but no correct stage defined"
    | Some (loop, bound, queue) =>
        let n := iterations s loop in
        if bound <=? n then
          _terminalize s QC_EXHAUSTED
            ("QC failed after " +:+ pretty n +:+ "/" +:+ pretty bound +:+ " correction iterations")
        else
          let s' := s ⟪ loop_iterations := dict_set (loop_iterations s) loop (n + 1) ⟫
                      ⟪ correction_count := correction_count s + 1 ⟫
                      ⟪ pending_stage_ids := queue ⟫ ⟪ current_stage_id := None ⟫
                      ⟪ cursor_note := Some ("correction iteration " +:+ pretty (n + 1)) ⟫ in
          save s';;
          event s' "correction_started"
            [("correction_stage_id", PStr (default "" (head queue))); ("loop_id", PStr loop);
             ("iteration", PInt (n + 1)); ("on_correction", PList (PStr <$> tail queue))];;
          Ret s'
    end.

(** ** Retries *)

(** [int(max_attempts)]: [None] is 1 after [TypeError] or [ValueError]; the
    infinite float raises. *)
Definition int_or_one (v : value) : result string Z :=
  match v with
  | PInt n => Ok n
  | PBool b => Ok (if b then 1 else 0)
  | PFloat us => Ok (Z.quot us 1000000)
  | PStr s => Ok (default 1 (int_of_str s))
  | PInfinity => Err "cannot convert float infinity to integer"
  | _ => Ok 1
  end.

Definition max_attempts (st : data) : result string Z :=
  let raw := match dict_get st "retry" with
             | Some (PDict retry) => dict_get_or retry "max_attempts" (PInt 1)
             | _ => match dict_get_or st "retries" (PInt 0) with
                    | PInt n => PInt (n + 1)
                    | PBool b => PInt (if b then 2 else 1)
                    | _ => PInt 1
                    end
             end in
  n ← int_or_one raw; Ok (Z.max 1 (Z.min n 11)).

(** [retry["reconcile_before_retry"]] *)
Definition reconcile_first (st : data) : bool :=
  match dict_get st "retry" with
  | Some (PDict retry) => py_truthy (dict_get_or retry "reconcile_before_retry" (PBool false))
  | _ => false
  end.

Definition mentions (word text : string) : bool := contained (chars word) (chars text).

Definition is_generation (st : data) : bool := bool_decide (stage_kind st ∈ ["generate"; "generation"]).

Definition failure_code (st : data) (err : string) : TerminalCode :=
  if is_generation st then LEAF_ERROR
  else if mentions "timeout" (py_lower err) then PROVIDER_TIMEOUT else PROVIDER_ERROR.

Definition _handle_stage_failure (s : PipelineRunState) (st : data) (o : Outcome) : prog PipelineRunState :=
  let err := match o_error o with Some e => if str_truthy e then e else "unknown" | None => "unknown" end in
  if mentions "unsafe_external_resume" err then
    _terminalize s UNSAFE_RESUME ("Stage " +:+ stage_id st +:+ " outcome is unknown: " +:+ err)
  else
    bound ← raising (max_attempts st);
    let current := match last (attempts_of s (stage_id st)) with Some a => attempt a | None => 1 end in
    if current <? bound then
      let s' := s ⟪ current_stage_id := Some (stage_id st) ⟫
                  ⟪ cursor_note := Some ("retry attempt " +:+ pretty (current + 1) +:+ "/" +:+ pretty bound) ⟫ in
      save s';;
      event s' "stage_retry_scheduled" [("stage_id", PStr (stage_id st)); ("attempt", PInt (current + 1));
                                        ("max_attempts", PInt bound);
                                        ("reconcile_before_retry", PBool (reconcile_first st))];;
      Ret s'
    else _terminalize s (failure_code st err) ("Stage " +:+ stage_id st +:+ " failed: " +:+ err).

(** ** Cancellation *)

Definition finished_child (c : ChildJobRef) : bool :=
  c_cancelled c || bool_decide (c_status c ∈ ["completed"; "failed"; "cancelled"]).

Definition cancelled_child (c : ChildJobRef) : ChildJobRef :=
  mkChildJobRef (child_job_id c) (c_stage_id c) (c_idempotency_key c) "cancelled" true.

Definition is_running (s : PipelineRunState) (sid : string) : bool :=
  bool_decide (_latest_stage_status s sid = Some RUNNING).

(** The external operation of the current stage, when one is active. *)
Definition cancel_external (s : PipelineRunState) : prog (list string) :=
  match current_stage_id s with
  | None => Ret []
  | Some sid =>
      match dict_get (stage_map_of (compiled_pipeline s)) sid with
      | Some st =>
          if str_truthy sid && is_running s sid then
            r ← perform (Resolve st);
            match r with
            | Err t =>
                event s "cancellation_error"
                  [("stage_id", PStr sid);
                   ("error", PStr ("authority resolution failed: " +:+ str_take MAX_STR_LEN t))];;
                Ret ["unknown:" +:+ sid]
            | Ok authority =>
                if String.eqb authority "external" then
                  c ← perform (ExternalCancel (run_id s) sid);
                  match c with
                  | Ok true => Ret []
                  | Ok false => Ret ["external:" +:+ sid]
                  | Err t =>
                      event s "cancellation_error" [("stage_id", PStr sid); ("error", PStr (str_take MAX_STR_LEN t))];;
                      Ret ["external:" +:+ sid]
                  end
                else Ret []
            end
          else Ret []
      | None => Ret []
      end
  end.

(** The leaf children from place [i] on; the state holds what was stopped. *)
Fixpoint cancel_children (i : nat) (children : list ChildJobRef) (s : PipelineRunState) (unresolved : list string)
    : prog (PipelineRunState * list string) :=
  match children with
  | [] => Ret (s, unresolved)
  | c :: rest =>
      if finished_child c then cancel_children (S i) rest s unresolved
      else
        r ← perform (LeafCancel (child_job_id c));
        match r with
        | Ok true =>
            cancel_children (S i) rest
              ((set_child s i cancelled_child)
                 ⟪ cancelled_children := cancelled_children s ++ [child_job_id c] ⟫) unresolved
        | Ok false => cancel_children (S i) rest s (unresolved ++ ["leaf:" +:+ child_job_id c])
        | Err t =>
            event s "cancellation_error" [("child_job_id", PStr (child_job_id c)); ("error", PStr (str_take MAX_STR_LEN t))];;
            cancel_children (S i) rest s (unresolved ++ ["leaf:" +:+ child_job_id c])
        end
  end.

Definition _cascade_cancellation (s : PipelineRunState) : prog PipelineRunState :=
  event s "cancellation_cascade" [("child_jobs", PList (PStr ∘ child_job_id <$> child_jobs s));
                                  ("current_stage_id", optional_str (current_stage_id s))];;
  unresolved ← cancel_external s;
  '(s1, unresolved') ← cancel_children 0 (child_jobs s) s unresolved;
  let s2 := s1 ⟪ cancelled := true ⟫ ⟪ cancellation_intent := false ⟫ in
  match unresolved' with
  | _ :: _ =>
      _terminalize s2 UNSAFE_RESUME
        ("Cancellation requested but provider stop is unresolved: " +:+ String.concat ", " (take 32 unresolved'))
  | [] => _terminalize s2 COORDINATOR_CANCELLED "Cancelled by request"
  end.

(** ** One step *)

(** A missing key is added with no attempts ([setdefault]). *)
Definition ensure_attempts (s : PipelineRunState) (sid : string) : PipelineRunState :=
  match dict_get (stage_attempts s) sid with Some _ => s | None => with_attempts s sid [] end.

(** The last attempt of a stage, replaced. *)
Definition set_last_attempt (s : PipelineRunState) (sid : string) (f : StageAttempt -> StageAttempt)
    : PipelineRunState :=
  let l := attempts_of s sid in with_attempts s sid (alter f (length l - 1)%nat l).

Definition new_attempt (n : Z) (key : string) : StageAttempt := mkStageAttempt n RUNNING None [] None key None.

Definition keyed (key : string) (a : StageAttempt) : StageAttempt :=
  mkStageAttempt (attempt a) (at_status a) (at_error a) (output a) (qc_verdict a) key (provider_handle a).
Definition handled (handle : string) (a : StageAttempt) : StageAttempt :=
  mkStageAttempt (attempt a) (at_status a) (at_error a) (output a) (qc_verdict a) (idempotency_key a) (Some handle).
Definition settled (st : StageStatus) (err : option string) (out : data) (a : StageAttempt) : StageAttempt :=
  mkStageAttempt (attempt a) st err out (qc_verdict a) (idempotency_key a) (provider_handle a).
Definition judged (v : QCVerdict) (a : StageAttempt) : StageAttempt :=
  mkStageAttempt (attempt a) (at_status a) (at_error a) (output a) (Some v) (idempotency_key a) (provider_handle a).

(** A completed stage that is not run again: its verdict did not fail and the
    cursor is not inside a correction loop. *)
Definition settled_before (s : PipelineRunState) (sid : string) : bool :=
  match last (attempts_of s sid) with
  | Some a =>
      bool_decide (at_status a = COMPLETED)
      && negb (match qc_verdict a with Some v => negb (passed v) | None => false end)
      && negb ((0 <? correction_count s) && opt_truthy (cursor_note s))
  | None => false
  end.

Definition is_waiting (o : Outcome) : bool := bool_decide (o_status o ∈ ["queued"; "in_flight"; "pending"]).

(** An exception of the external executor ends the attempt. *)
Definition guarded (o : op (result string Outcome)) : prog Outcome :=
  Vis o (fun r => Ret match r with
                      | Ok x => x
                      | Err t => no_outcome "failed" (Some ("external_adapter_failed: " +:+ str_take 1000 t))
                      end).

Definition unsafe_resume (sid : string) : Outcome :=
  no_outcome "failed" (Some ("unsafe_external_resume: prior delivery outcome is unknown for stage " +:+ sid)).

(** The call of an attempt: a resumed one is polled or given up, a new one is
    executed. *)
Definition run_attempt (s : PipelineRunState) (sid authority key : string) (st : data) (resuming : bool)
    (handle : option string) : prog (PipelineRunState * Outcome) :=
  if String.eqb authority "external" then
    o ← (if resuming then
           match handle with
           | Some h => if str_truthy h then guarded (Poll st s key h) else Ret (unsafe_resume sid)
           | None => Ret (unsafe_resume sid)
           end
         else guarded (Execute st s key));
    Ret (s, o)
  else if String.eqb authority "leaf" then _execute_leaf s st key
  else Ret (s, no_outcome "failed" (Some ("Unknown authority: " +:+ authority))).

(** A key of a reported artifact; a missing one raises [KeyError].  A value that
    is not text is outside the model. *)
Definition artifact_text (a : data) (k : string) : result string string :=
  match dict_get a k with Some (PStr s) => Ok s | _ => Err (py_repr_str k) end.

Definition reported_artifact (a : data) : result string (option (string * string)) :=
  match a with
  | [] => Ok None
  | _ => path ← artifact_text a "path_or_url"; digest ← artifact_text a "sha256"; Ok (Some (path, digest))
  end.

(** The terminal result of an attempt, recorded: the state, and the outcome
    as the rest of the step sees it. *)
Definition record_result (s : PipelineRunState) (sid : string) (st : data) (now : string) (o : Outcome)
    : result string (PipelineRunState * Outcome) :=
  out ← sanitize_dict "$" (as_dict (o_output o));
  let st1 := if String.eqb (o_status o) "completed" then COMPLETED else FAILED in
  let s1 := set_last_attempt s sid (settled st1 (o_error o) out) in
  let '(s2, o2) :=
    match o_handle o with
    | PNone => (s1, o)
    | h =>
        match _provider_handle h with
        | Ok text => (set_last_attempt s1 sid (handled text), o)
        | Err t =>
            let err := "invalid provider_handle: " +:+ t in
            (set_last_attempt s1 sid (settled FAILED (Some err) out),
             mkOutcome "failed" (o_output o) (Some err) (o_verdict o) (o_handle o) (o_artifact o))
        end
    end in
  let s3 := match o_verdict o2 with
            | Some v =>
                set_last_attempt
                  (s2 ⟪ stage_qc_verdicts := dict_set (stage_qc_verdicts s2) sid
                          (default [] (dict_get (stage_qc_verdicts s2) sid) ++ [v]) ⟫) sid (judged v)
            | None => s2
            end in
  reported ← reported_artifact (o_artifact o2);
  let s4 := match reported with
            | Some (path, digest) =>
                let a := mkArtifactRef path digest sid now in
                let s' := s3 ⟪ artifact := Some a ⟫ in
                if is_generation st && bool_decide (initial_artifact s3 = None)
                then s' ⟪ initial_artifact := Some a ⟫ else s'
            | None => s3
            end in
  Ok (s4, o2).

(** What follows a recorded result. *)
Definition after_result (s : PipelineRunState) (st : data) (map : list (string * data)) (o : Outcome)
    : prog PipelineRunState :=
  if String.eqb (o_status o) "failed" then _handle_stage_failure s st o
  else match o_verdict o with
       | Some v => if String.eqb (stage_kind st) "qc" then _handle_qc_result s v map
                   else _advance_to_next_stage s map
       | None => _advance_to_next_stage s map
       end.

Definition finish_attempt (s : PipelineRunState) (sid : string) (st : data) (map : list (string * data))
    (o : Outcome) : prog PipelineRunState :=
  now ← perform Now;
  '(s', o') ← raising (record_result s sid st now o);
  save s';;
  after_result s' st map o'.

(** An outcome that is not terminal: an external one needs a durable handle. *)
Definition finish_waiting (s : PipelineRunState) (sid authority : string) (st : data)
    (map : list (string * data)) (o : Outcome) : prog PipelineRunState :=
  if String.eqb authority "external" then
    match _provider_handle (o_handle o) with
    | Err t =>
        finish_attempt s sid st map (no_outcome "failed" (Some ("unsafe_external_resume: " +:+ t)))
    | Ok handle =>
        let s' := set_last_attempt s sid (handled handle) in
        save s';;
        event s' "external_handle_saved"
          [("stage_id", PStr sid); ("attempt", PInt (default 0 (attempt <$> last (attempts_of s sid))))];;
        Ret s'
    end
  else save s;; Ret s.

Definition is_external (authority : string) : bool := String.eqb authority "external".

(** The stage at the cursor: begin or resume its attempt and see it through. *)
Definition run_stage (s : PipelineRunState) (sid : string) (st : data) (map : list (string * data))
    (authority : string) : prog PipelineRunState :=
  let resuming := is_running s sid in
  let prior := last (attempts_of s sid) in
  let n := match prior with
           | Some a => if resuming then attempt a else Z.of_nat (length (attempts_of s sid)) + 1
           | None => 1
           end in
  let saved_key := match prior with Some a => if resuming then idempotency_key a else "" | None => "" end in
  let key := py_or saved_key (_stage_idempotency_key (run_id s) sid n) in
  let s1 := if resuming then set_last_attempt s sid (keyed key)
            else with_attempts s sid (attempts_of s sid ++ [new_attempt n key]) in
  (if resuming then Ret ()
   else save s1;;
        event s1 "stage_started" [("stage_id", PStr sid); ("authority", PStr authority); ("attempt", PInt n);
                                  ("idempotency_key", PStr key)]);;
  '(s2, o) ← match _materialize_stage_inputs st s1 with
             | Err t => Ret (s1, no_outcome "failed" (Some ("binding_resolution_failed: " +:+ t)))
             | Ok st' => run_attempt s1 sid authority key st' resuming (prior ≫= provider_handle)
             end;
  if is_waiting o then finish_waiting s2 sid authority st map o
  else finish_attempt s2 sid st map o.

(** The stage the cursor names. *)
Definition run_current (s : PipelineRunState) (map : list (string * data)) : prog PipelineRunState :=
  match current_stage_id s with
  | None => _terminalize s SUCCESS "All stages completed"
  | Some sid =>
      match dict_get map sid with
      | None => _terminalize s SUCCESS "All stages completed"
      | Some st =>
          authority ← require (Resolve st);
          let s1 := ensure_attempts s sid in
          if settled_before s1 sid then _advance_to_next_stage s1 map
          else run_stage s1 sid st map authority
      end
  end.

Definition correction_note (s : PipelineRunState) : option string :=
  if correction_count s =? 0 then None else Some ("correction iteration " +:+ pretty (correction_count s)).

(** The step of a live run: the next stage of the correction queue is taken,
    unless the one at the cursor is in flight. *)
Definition advance_live (s : PipelineRunState) : prog PipelineRunState :=
  let map := stage_map_of (compiled_pipeline s) in
  match pending_stage_ids s with
  | next :: rest =>
      if is_running s (default "" (current_stage_id s)) then run_current s map
      else match dict_get map next with
           | None => let s' := s ⟪ pending_stage_ids := rest ⟫ in save s';; Ret s'
           | Some _ =>
               let s' := s ⟪ current_stage_id := Some next ⟫ ⟪ pending_stage_ids := rest ⟫
                           ⟪ cursor_note := correction_note s ⟫ in
               save s';; run_current s' map
           end
  | [] => run_current s map
  end.

(** [advance] *)
Definition advance (s0 : PipelineRunState) : prog PipelineRunState :=
  loaded ← require (Load (run_id s0));
  let s := default s0 loaded in
  if cancellation_intent s && negb (cancelled s) then _cascade_cancellation s
  else if is_terminal s then Ret s
  else advance_live s.

(** ** Admission and cancellation requests *)

(** [compiled.get(a, compiled.get(b, default))] *)
Definition get_or_else (d : data) (a b dflt : string) : string :=
  match dict_get d a with
  | Some v => default "" (as_str v)
  | None => match dict_get d b with Some v => default "" (as_str v) | None => dflt end
  end.

Definition submitted_state (parent run : string) (compiled params : data) : result string PipelineRunState :=
  params' ← sanitize_dict "$" params;
  compiled' ← sanitize_dict "$" compiled;
  let s := mkRunState parent run (get_or_else compiled "pipeline_id" "service_id" "?")
             (get_or_else compiled "revision_hash" "workflow_fingerprint" "") Run_running None None
             params' compiled' [] [] [] 0 (get_int compiled "max_loop_count" 0) [] [] None None None
             false false [] None None 0 in
  let map := filter (fun i => i.1 <> "") (stage_map_of compiled) in
  Ok (s ⟪ current_stage_id := _first_ready_stage_id s map ⟫).

Definition submit (parent run : string) (compiled params : data) : prog bool :=
  s ← raising (submitted_state parent run compiled params);
  perform (SubmitParent s).

Definition request_cancellation (run : string) : prog bool :=
  loaded ← require (Load run);
  match loaded with
  | None => Ret false
  | Some s =>
      if is_terminal s then Ret false
      else
        let s' := s ⟪ cancellation_intent := true ⟫ in
        saved ← perform (Save s');
        if negb saved then Ret false
        else
          woken ← perform (Requeue s');
          if negb woken then Ret false
          else event s' "cancellation_requested" [];; Ret true
  end.

End Coordinator.
