(* ===== verification/CoordinatorMachine.v ===== *)
(** * CoordinatorMachine: what one save of the coordinator may change

    The abstract machine of one durable run: each [move] is what one save of
    [PipelineCoordinator] may do to the state, by the parts of the state it
    changes.  [CoordinatorRuns] shows that every save of every history is a
    move; the invariants of the machine are proved here. *)

From S2P Require Import Prelude PyValue PyText Programs Coordinator.

(** ** The abstract machine *)

Definition live (s : PipelineRunState) : Prop := is_terminal s = false.

Definition fixed (s : PipelineRunState) : string * data * Z * data * (string * string * string) :=
  (run_id s, compiled_pipeline s, max_corrections s, request_params s,
   (parent_job_id s, pipeline_id s, revision_hash s)).

Definition cursor (s : PipelineRunState) : option string * list string :=
  (current_stage_id s, pending_stage_ids s).

Definition loopst (s : PipelineRunState) : Z * list (string * Z) := (correction_count s, loop_iterations s).

Definition arts (s : PipelineRunState) : option ArtifactRef * option ArtifactRef * option ArtifactRef :=
  (artifact s, initial_artifact s, last_good_artifact s).

Definition ending (s : PipelineRunState) : RunStatus * option TerminalCode := (status s, terminal_code s).

Definition cancels (s : PipelineRunState) : bool * bool := (cancelled s, cancellation_intent s).

(** The attempts of a stage: their numbers, statuses and verdicts. *)
Definition att (a : StageAttempt) : Z * StageStatus * option (string * bool) :=
  (attempt a, at_status a, (fun v => (v_stage_id v, passed v)) <$> qc_verdict a).
Definition atts (s : PipelineRunState) (sid : string) : list (Z * StageStatus * option (string * bool)) :=
  att <$> attempts_of s sid.

Inductive part := PCursor | PLoops | PArts | PEnding | PCancels | PChildren | PAttempts.
#[export] Instance part_eq_dec : EqDecision part.
Proof. solve_decision. Defined.

Definition same (p : part) (s s' : PipelineRunState) : Prop :=
  match p with
  | PCursor => cursor s = cursor s'
  | PLoops => loopst s = loopst s'
  | PArts => arts s = arts s'
  | PEnding => ending s = ending s'
  | PCancels => cancels s = cancels s'
  | PChildren => child_jobs s = child_jobs s'
  | PAttempts => forall sid, atts s sid = atts s' sid
  end.

(** [s'] differs from [s] in the named parts at most. *)
Definition only (ps : list part) (s s' : PipelineRunState) : Prop :=
  fixed s = fixed s' /\ forall p, p ∉ ps -> same p s s'.

Abbreviation like := (only []).

Definition known (s : PipelineRunState) (sid : string) : Prop :=
  is_Some (dict_get (stage_map_of (compiled_pipeline s)) sid).

Definition qc (s : PipelineRunState) (sid : string) : Prop :=
  exists st, dict_get (stage_map_of (compiled_pipeline s)) sid = Some st /\ stage_kind st = "qc".

(** The last attempt of a stage completed with a failing verdict. *)
Definition rejected (s : PipelineRunState) (sid : string) : Prop :=
  exists n x, last (atts s sid) = Some (n, COMPLETED, Some (x, false)).

(** The cursor is not at a quality stage whose verdict failed. *)
Definition accepted (s : PipelineRunState) : Prop :=
  forall sid, current_stage_id s = Some sid -> qc s sid -> ~ rejected s sid.

(** What must hold for a run to succeed: all is done, or the cursor is lost. *)
Definition success_ok (s : PipelineRunState) : Prop :=
  pending_stage_ids s = [] /\ accepted s /\ all_done s = true \/
  (pending_stage_ids s = [] \/ is_running s (default "" (current_stage_id s)) = true) /\
  match current_stage_id s with Some sid => ~ known s sid | None => True end.

(** What must hold for a run to end with a code, and the artifact it ends
    with. *)
Definition end_ok (c : TerminalCode) (s s' : PipelineRunState) : Prop :=
  match c with
  | SUCCESS =>
      arts s' = arts s /\ success_ok s
  | _ =>
      arts s' = (match safest_artifact s with Some a => Some a | None => artifact s end,
                 initial_artifact s, last_good_artifact s) /\
      (c = COORDINATOR_CANCELLED -> cancelled s' = true /\
         Forall (fun ch => finished_child ch = true) (child_jobs s'))
  end.

(** The attempt at the cursor is over. *)
Definition idle (s : PipelineRunState) : Prop :=
  forall sid, current_stage_id s = Some sid -> is_running s sid = false.

Inductive move (s s' : PipelineRunState) : Prop :=
  | Begin sid :
      only [PAttempts] s s' -> live s -> known s sid -> current_stage_id s = Some sid -> is_running s sid = false ->
      atts s' sid = atts s sid ++ [(Z.of_nat (length (atts s sid)) + 1, RUNNING, None)] ->
      (forall o, o <> sid -> atts s' o = atts s o) -> move s s'
  | Touch : only [PChildren] s s' -> live s -> move s s'
  | Record sid l n st v :
      only [PAttempts; PArts] s s' -> live s -> current_stage_id s = Some sid -> atts s sid = l ++ [(n, RUNNING, None)] ->
      atts s' sid = l ++ [(n, st, v)] -> st = COMPLETED \/ st = FAILED ->
      (forall o, o <> sid -> atts s' o = atts s o) ->
      last_good_artifact s' = last_good_artifact s ->
      (is_Some (initial_artifact s) -> initial_artifact s' = initial_artifact s) ->
      (artifact s' = artifact s \/ exists a, artifact s' = Some a /\ producer_stage_id a = sid) -> move s s'
  | Pop next rest :
      only [PCursor] s s' -> live s -> idle s -> pending_stage_ids s = next :: rest ->
      pending_stage_ids s' = rest ->
      (known s next /\ current_stage_id s' = Some next \/
       ~ known s next /\ current_stage_id s' = current_stage_id s) -> move s s'
  | Leave :
      only [PCursor] s s' -> live s -> idle s -> accepted s -> pending_stage_ids s <> [] ->
      cursor s' = (None, pending_stage_ids s) -> move s s'
  | Next sid st :
      only [PCursor] s s' -> live s -> idle s -> accepted s -> pending_stage_ids s = [] ->
      dict_get (stage_map_of (compiled_pipeline s)) sid = Some st -> stage_kind st <> "correct" ->
      _stage_ready s st (stage_map_of (compiled_pipeline s)) = true -> cursor s' = (Some sid, []) -> move s s'
  | Good a :
      only [PArts] s s' -> live s -> artifact s = Some a ->
      arts s' = (Some a, initial_artifact s, Some a) -> move s s'
  | Loop cur n st sid loop bound queue :
      only [PCursor; PLoops] s s' -> live s -> idle s -> current_stage_id s = Some cur -> qc s cur ->
      last (atts s cur) = Some (n, st, Some (sid, false)) -> correction_plan s sid = Some (loop, bound, queue) ->
      iterations s loop < bound ->
      loopst s' = (correction_count s + 1, dict_set (loop_iterations s) loop (iterations s loop + 1)) ->
      cursor s' = (None, queue) -> move s s'
  | End c :
      only [PArts; PEnding; PCancels; PChildren] s s' -> live s ->
      ending s' = (status_of c, Some c) -> end_ok c s s' -> move s s'
  | Ask : only [PCancels] s s' -> live s -> cancels s' = (cancelled s, true) -> move s s'.

(** ** Facts about parts *)

Lemma only_refl ps s : only ps s s.
Proof. split; [done|]. by intros []. Qed.

Lemma same_trans p s1 s2 s3 : same p s1 s2 -> same p s2 s3 -> same p s1 s3.
Proof. destruct p; cbn; try congruence; intros H1 H2 sid; by rewrite H1. Qed.

Lemma same_sym p s1 s2 : same p s1 s2 -> same p s2 s1.
Proof. destruct p; cbn; try congruence; intros H sid; by rewrite H. Qed.

Lemma only_trans ps qs s1 s2 s3 : only ps s1 s2 -> only qs s2 s3 -> only (ps ++ qs) s1 s3.
Proof.
  intros [Hf Hp] [Hf' Hq]. split; [congruence|]. intros p [Hn1 Hn2]%not_elem_of_app.
  eapply same_trans; eauto.
Qed.

Lemma only_sym ps s s' : only ps s s' -> only ps s' s.
Proof. intros [Hf Hp]. split; [done|]. intros p Hn. apply same_sym. auto. Qed.

Lemma only_weaken ps qs s s' : only ps s s' -> ps ⊆ qs -> only qs s s'.
Proof. intros [Hf Hp] Hsub. split; [done|]. intros p Hn. apply Hp. set_solver. Qed.

Lemma only_like_l ps s0 s s' : like s0 s -> only ps s s' -> only ps s0 s'.
Proof. apply (only_trans [] ps). Qed.

Lemma only_same ps p s s' : only ps s s' -> p ∉ ps -> same p s s'.
Proof. intros [_ H]. apply H. Qed.

(** The parts a move reads are the same in alike states. *)
Lemma like_same p s0 s : like s0 s -> same p s0 s.
Proof. intros [_ H]. apply H, not_elem_of_nil. Qed.

Lemma like_live s0 s : like s0 s -> live s -> live s0.
Proof.
  intros H%(like_same PEnding). cbn in H. unfold live, is_terminal, ending in *.
  by injection H as -> _.
Qed.

Lemma like_atts s0 s sid : like s0 s -> atts s0 sid = atts s sid.
Proof. intros H. apply (like_same PAttempts _ _ H). Qed.

Lemma latest_atts s sid : _latest_stage_status s sid = (fun a => a.1.2) <$> last (atts s sid).
Proof. unfold _latest_stage_status, atts. rewrite fmap_last. by destruct (last (attempts_of s sid)). Qed.

Lemma like_latest s0 s sid : (forall o, atts s0 o = atts s o) -> _latest_stage_status s0 sid = _latest_stage_status s sid.
Proof. intros H. by rewrite !latest_atts, H. Qed.

Lemma like_pipeline ps s0 s : only ps s0 s -> compiled_pipeline s0 = compiled_pipeline s.
Proof. intros [H _]. unfold fixed in H. congruence. Qed.

Lemma like_all_done s0 s : like s0 s -> all_done s0 = all_done s.
Proof.
  intros H. unfold all_done. rewrite (like_pipeline _ _ _ H).
  assert (forall l, forallb (fun st => is_done (_latest_stage_status s0 (stage_id st))) l =
                    forallb (fun st => is_done (_latest_stage_status s (stage_id st))) l) as Hl; [|apply Hl].
  induction l as [|st l IH]; cbn; [done|]. rewrite IH, (like_latest s0 s); [done|]. intros o. by apply like_atts.
Qed.

Lemma like_ready s0 s st map : like s0 s -> _stage_ready s0 st map = _stage_ready s st map.
Proof.
  intros H. unfold _stage_ready. rewrite (like_latest s0 s) by (intros; by apply like_atts). f_equal.
  induction (depends_on st) as [|d l IH]; cbn; [done|]. rewrite IH. unfold dependency_met.
  by rewrite (like_latest s0 s) by (intros; by apply like_atts).
Qed.

Lemma like_fields s0 s : like s0 s ->
  cursor s0 = cursor s /\ loopst s0 = loopst s /\ arts s0 = arts s /\ cancels s0 = cancels s /\
  child_jobs s0 = child_jobs s.
Proof.
  intros H. split_and!.
  - apply (like_same PCursor _ _ H).
  - apply (like_same PLoops _ _ H).
  - apply (like_same PArts _ _ H).
  - apply (like_same PCancels _ _ H).
  - apply (like_same PChildren _ _ H).
Qed.

Lemma like_idle s0 s : like s0 s -> idle s -> idle s0.
Proof.
  intros H Hi sid Hc. unfold is_running. rewrite (like_latest s0 s) by (intros; by apply like_atts).
  apply Hi. apply (like_same PCursor) in H. cbn in H. unfold cursor in H. congruence.
Qed.

Lemma only_terminal ps s s' : only ps s s' -> PEnding ∉ ps -> is_terminal s' = is_terminal s.
Proof.
  intros Ho Hn. pose proof (only_same ps PEnding s s' Ho Hn) as He. cbn in He. unfold ending in He.
  unfold is_terminal. by injection He as -> _.
Qed.

Lemma like_accepted s0 s : like s0 s -> accepted s -> accepted s0.
Proof.
  intros H Ha sid Hc. pose proof (like_same PCursor _ _ H) as Hcur. cbn in Hcur. unfold cursor in Hcur.
  unfold qc, rejected. rewrite (like_atts _ _ _ H), (like_pipeline _ _ _ H). apply Ha. congruence.
Qed.

Lemma like_running s0 s sid : like s0 s -> is_running s0 sid = is_running s sid.
Proof. intros H. unfold is_running. by rewrite (like_latest s0 s) by (intros; by apply like_atts). Qed.

Lemma like_success_ok s0 s : like s0 s -> success_ok s -> success_ok s0.
Proof.
  intros H. pose proof (like_same PCursor _ _ H) as Hcur. cbn in Hcur. unfold cursor in Hcur.
  assert (current_stage_id s0 = current_stage_id s) as Hc by congruence.
  assert (pending_stage_ids s0 = pending_stage_ids s) as Hp by congruence.
  unfold success_ok, known. rewrite Hc, Hp, (like_running _ _ _ H), (like_all_done _ _ H), (like_pipeline _ _ _ H).
  intros [(? & ? & ?)|?]; [left|by right]. split_and!; auto. by eapply like_accepted.
Qed.

(** A move may start from any alike state. *)
Lemma move_like s0 s s' : like s0 s -> move s s' -> move s0 s'.
Proof.
  intros Hl Hm.
  pose proof (like_fields _ _ Hl) as (Hcur & Hloop & Harts & Hcan & Hch).
  pose proof (like_pipeline _ _ _ Hl) as Hpipe.
  assert (forall ps, only ps s s' -> only ps s0 s') as Ho by (intros ps; by apply only_like_l).
  assert (live s -> live s0) as Hlive by by apply like_live.
  assert (idle s -> idle s0) as Hidle by by apply like_idle.
  assert (accepted s -> accepted s0) as Hacc by by apply like_accepted.
  assert (forall o, atts s0 o = atts s o) as Hatts by (intros; by apply like_atts).
  assert (max_corrections s0 = max_corrections s) as Hmax by (destruct Hl as [Hf _]; unfold fixed in Hf; congruence).
  unfold cursor, loopst, arts, cancels in *. simplify_eq.
  destruct Hm.
  - apply (Begin _ _ sid); rewrite ?Hatts; unfold known, is_running in *; rewrite ?Hpipe; auto; try congruence.
    + by rewrite (like_latest s0 s).
    + intros. rewrite Hatts. auto.
  - apply Touch; auto.
  - apply (Record _ _ sid l n st v); rewrite ?Hatts; auto; try congruence.
    + intros. rewrite Hatts. auto.
    + intros. transitivity (initial_artifact s); [|congruence]. match goal with H : is_Some _ -> _ |- _ => apply H end.
      congruence.
  - apply (Pop _ _ next rest); unfold known in *; rewrite ?Hpipe; auto; naive_solver congruence.
  - apply Leave; auto; congruence.
  - apply (Next _ _ sid st); rewrite ?Hpipe, ?(like_ready s0 s); auto; congruence.
  - apply (Good _ _ a); auto; congruence.
  - apply (Loop _ _ cur n st sid loop bound queue); rewrite ?Hatts; auto; unfold correction_plan, iterations, qc in *;
      rewrite ?Hpipe, ?Hmax; congruence.
  - assert (success_ok s -> success_ok s0) as Hsuc by by apply like_success_ok.
    assert (safest_artifact s0 = safest_artifact s) as Hsafe by (unfold safest_artifact; repeat case_match; congruence).
    assert (arts s0 = arts s) as Harts by (unfold arts; congruence).
    match goal with H : end_ok c s s' |- _ => rename H into Hend end.
    apply (End _ _ c); auto. unfold end_ok in *. rewrite Harts, Hsafe.
    destruct c; destruct Hend as [He Hok]; (split; [rewrite He; unfold arts; repeat case_match; congruence|auto]).
  - apply Ask; auto. congruence.
Qed.

(** ** Runs of the machine *)

Lemma only_atts_refl s s' : stage_attempts s' = stage_attempts s -> forall sid, atts s sid = atts s' sid.
Proof. intros H sid. unfold atts, attempts_of. by rewrite H. Qed.

(** A state that differs in the named parts, by evaluation. *)
Ltac solve_only :=
  split; [reflexivity|let p := fresh "p" in let Hp := fresh "Hp" in
    intros p Hp; destruct p;
    try solve [exfalso; apply Hp; repeat first [apply list_elem_of_here|apply list_elem_of_further]];
    first [reflexivity | intros ?; reflexivity]].

(** [s] is, but for what no part holds, a state the machine reaches from [d]. *)
Definition track (d s : PipelineRunState) : Prop := exists s0, rtc move d s0 /\ like s0 s.

Lemma track_refl s : track s s.
Proof. exists s. split; [done|apply only_refl]. Qed.

Lemma track_like d s s' : track d s -> like s s' -> track d s'.
Proof. intros (s0 & Hr & Hl) Hl'. exists s0. split; [done|]. apply (only_trans [] [] _ _ _ Hl Hl'). Qed.

Lemma track_move d s s' : track d s -> move s s' -> track d s'.
Proof.
  intros (s0 & Hr & Hl) Hm. exists s'. split; [|apply only_refl]. eapply rtc_r; [exact Hr|].
  by apply (move_like _ s).
Qed.

Lemma track_trans d s s' : track d s -> track s s' -> track d s'.
Proof.
  intros Hd (s1 & Hr & Hl). eapply track_like; [|exact Hl]. clear Hl. induction Hr as [|x y z Hm Hr IH]; [done|].
  apply IH. by eapply track_move.
Qed.

Definition count (s : PipelineRunState) (sid : string) : nat := length (atts s sid).

Lemma count_attempts s sid : count s sid = length (attempts_of s sid).
Proof. apply length_fmap. Qed.

Lemma only_atts ps s s' sid : only ps s s' -> PAttempts ∉ ps -> atts s sid = atts s' sid.
Proof. intros Ho Hn. by apply (only_same ps PAttempts s s' Ho Hn). Qed.

Lemma move_atts s s' sid : move s s' ->
  atts s' sid = atts s sid \/
  (exists n, atts s' sid = atts s sid ++ [(n, RUNNING, None)] /\ n = Z.of_nat (count s sid) + 1 /\
             current_stage_id s = Some sid /\ is_running s sid = false) \/
  (exists l n st v, atts s sid = l ++ [(n, RUNNING, None)] /\ atts s' sid = l ++ [(n, st, v)] /\
     (st = COMPLETED \/ st = FAILED) /\ current_stage_id s = Some sid).
Proof.
  intros Hm. destruct Hm;
    try (left; symmetry; eapply only_atts; [eassumption|set_solver]).
  - destruct (decide (sid = sid0)) as [->|]; [|left; auto]. right; left. eexists; eauto.
  - destruct (decide (sid = sid0)) as [->|]; [|left; auto]. right; right. exists l, n, st, v. auto.
Qed.

Lemma move_count s s' sid : move s s' -> (count s sid <= count s' sid)%nat.
Proof.
  unfold count. intros [->|[(n & -> & _)|(l & n & st & v & -> & -> & _)]]%(move_atts _ _ sid);
    rewrite ?length_app; cbn; lia.
Qed.

Lemma track_count d s sid : track d s -> (count d sid <= count s sid)%nat.
Proof.
  intros (s0 & Hr & Hl). unfold count at 2. rewrite <- (like_atts s0 s) by done. fold (count s0 sid).
  clear Hl. induction Hr as [|x y z Hm Hr IH]; [done|]. pose proof (move_count _ _ sid Hm). lia.
Qed.

(** ** The stages by id *)

Lemma dict_set_keys {A} (d : list (string * A)) k v :
  NoDup d.*1 -> NoDup (dict_set d k v).*1.
Proof.
  intros Hd. assert (forall x, x ∈ (dict_set d k v).*1 <-> x = k \/ x ∈ d.*1) as Hel.
  { clear Hd. intros x. induction d as [|[k0 v0] d IH]; cbn; [set_solver|].
    destruct (String.eqb_spec k0 k) as [->|]; cbn; set_solver. }
  clear Hel. induction d as [|[k0 v0] d IH]; cbn in *; [constructor; [set_solver|constructor]|].
  apply NoDup_cons in Hd as [Hk Hd]. destruct (String.eqb_spec k0 k) as [->|Hne]; cbn; constructor; auto.
  clear -Hk Hne. intros Hx. apply Hk. clear Hk. induction d as [|[k1 v1] d IH]; cbn in *; [set_solver|].
  destruct (String.eqb_spec k1 k) as [->|]; cbn in *; set_solver.
Qed.

Lemma dict_get_in {A} (d : list (string * A)) k v : NoDup d.*1 -> (k, v) ∈ d -> dict_get d k = Some v.
Proof.
  induction d as [|[k0 v0] d IH]; cbn; intros Hd Hin; [set_solver|].
  apply NoDup_cons in Hd as [Hk Hd]. apply elem_of_cons in Hin as [[= -> ->]|Hin]; [by rewrite String.eqb_refl|].
  destruct (String.eqb_spec k0 k) as [->|]; [|auto]. exfalso. apply Hk. apply list_elem_of_fmap. by exists (k, v).
Qed.

Lemma dict_set_in {A} (d : list (string * A)) k v i : i ∈ dict_set d k v -> i = (k, v) \/ i ∈ d.
Proof.
  induction d as [|[k0 v0] d IH]; cbn; [set_solver|]. destruct (String.eqb k0 k); cbn; set_solver.
Qed.

Lemma dict_in_get {A} (d : list (string * A)) k v : dict_get d k = Some v -> (k, v) ∈ d.
Proof.
  induction d as [|[k0 v0] d IH]; cbn; [done|]. destruct (String.eqb_spec k0 k) as [->|]; [|set_solver].
  intros [= ->]. by left.
Qed.

Lemma stage_map_keyed p :
  NoDup (stage_map_of p).*1 /\ forall i, i ∈ stage_map_of p -> stage_id i.2 = i.1.
Proof.
  unfold stage_map_of.
  assert (forall l (m : list (string * data)), NoDup m.*1 -> (forall i, i ∈ m -> stage_id i.2 = i.1) ->
    NoDup (fold_left (fun m st => dict_set m (stage_id st) st) l m).*1 /\
    forall i, i ∈ fold_left (fun m st => dict_set m (stage_id st) st) l m -> stage_id i.2 = i.1) as H.
  { induction l as [|st l IH]; intros m Hn Hm; [done|]. apply IH; [by apply dict_set_keys|].
    intros i [->|Hi]%dict_set_in; auto. }
  apply H; [constructor|set_solver].
Qed.

Lemma stage_map_id p sid st : dict_get (stage_map_of p) sid = Some st -> stage_id st = sid.
Proof. intros H%dict_in_get. apply (proj2 (stage_map_keyed p)) in H. done. Qed.

Lemma stage_map_get p st : st ∈ (stage_map_of p).*2 -> dict_get (stage_map_of p) (stage_id st) = Some st.
Proof.
  intros ([k st'] & -> & Hin)%list_elem_of_fmap. destruct (stage_map_keyed p) as [Hn Hk].
  pose proof (Hk _ Hin) as Hid. cbn in *. rewrite Hid. by apply dict_get_in.
Qed.

(** The stage that is moved to is ready, and not a correction. *)
Lemma first_ready_some s sid :
  _first_ready_stage_id s (stage_map_of (compiled_pipeline s)) = Some sid ->
  exists st, dict_get (stage_map_of (compiled_pipeline s)) sid = Some st /\ stage_kind st <> "correct" /\
    _stage_ready s st (stage_map_of (compiled_pipeline s)) = true.
Proof.
  unfold _first_ready_stage_id. destruct (List.find _ _) as [st|] eqn:Hf; intros [= <-].
  apply List.find_some in Hf as [Hin Hst]. apply andb_true_iff in Hst as [Hk Hr].
  exists st. split_and!; [|by apply negb_true_iff, String.eqb_neq in Hk|done].
  apply stage_map_get. by apply list_elem_of_In.
Qed.

(** ** Attempts of a state *)

Lemma attempts_with s sid l o :
  attempts_of (with_attempts s sid l) o = if decide (o = sid) then l else attempts_of s o.
Proof. unfold attempts_of, with_attempts. cbn. rewrite dict_get_set. by case_decide. Qed.

Lemma with_attempts_only s sid l : only [PAttempts] s (with_attempts s sid l).
Proof. solve_only. Qed.

Lemma attempts_last s sid f la a o :
  attempts_of s sid = la ++ [a] ->
  attempts_of (set_last_attempt s sid f) o = if decide (o = sid) then la ++ [f a] else attempts_of s o.
Proof.
  intros Ha. unfold set_last_attempt. rewrite attempts_with. case_decide; [|done]. rewrite Ha, length_app. cbn.
  rewrite alter_app_r_alt by lia. by replace (length la + 1 - 1 - length la)%nat with 0%nat by lia.
Qed.

Lemma last_app {A} (l : list A) a : last l = Some a -> exists la, l = la ++ [a].
Proof. intros [la ->]%last_Some. by exists la. Qed.

(** A change of the last attempt that keeps its number and status. *)
Lemma set_last_like s sid f :
  (forall a, att (f a) = att a) -> like s (set_last_attempt s sid f).
Proof.
  intros Hf. split; [done|]. enough (forall o, atts s o = atts (set_last_attempt s sid f) o) by (by intros [] _).
  intros o. unfold atts. destruct (last (attempts_of s sid)) as [a|] eqn:Hl.
  - apply last_app in Hl as [la Hl]. rewrite (attempts_last _ _ _ _ _ _ Hl). case_decide; subst; [|done].
    rewrite Hl, !fmap_app. cbn. by rewrite Hf.
  - apply last_None in Hl. unfold set_last_attempt. rewrite attempts_with. case_decide; subst; [|done]. by rewrite Hl.
Qed.

Lemma ensure_like s sid : like s (ensure_attempts s sid).
Proof.
  unfold ensure_attempts. destruct (dict_get _ _) eqn:Hg; [apply only_refl|].
  split; [done|]. enough (forall o, atts s o = atts (with_attempts s sid []) o) by (by intros [] _).
  intros o. unfold atts. rewrite attempts_with. case_decide; subst; [|done]. unfold attempts_of. by rewrite Hg.
Qed.

Lemma running_last s sid : is_running s sid = true -> exists la a,
  attempts_of s sid = la ++ [a] /\ at_status a = RUNNING.
Proof.
  unfold is_running, _latest_stage_status. intros H%bool_decide_eq_true.
  destruct (last (attempts_of s sid)) as [a|] eqn:Hl; [|done]. apply last_app in Hl as [la Hl].
  exists la, a. cbn in H. by simplify_eq.
Qed.

Lemma latest_of s sid la a : attempts_of s sid = la ++ [a] -> _latest_stage_status s sid = Some (at_status a).
Proof. unfold _latest_stage_status. intros ->. by rewrite last_snoc. Qed.

(** *** The recorded result *)

(** What a result changes of a state whose last attempt of a stage is over
    the attempts [la], as that attempt becomes [a]. *)
Record recorded (sid : string) (la : list StageAttempt) (s s' : PipelineRunState) (a : StageAttempt) : Prop := {
  rec_only : only [PAttempts; PArts] s s';
  rec_attempts : attempts_of s' sid = la ++ [a];
  rec_others o : o <> sid -> attempts_of s' o = attempts_of s o;
  rec_good : last_good_artifact s' = last_good_artifact s;
  rec_initial : is_Some (initial_artifact s) -> initial_artifact s' = initial_artifact s;
  rec_artifact : artifact s' = artifact s \/ exists r, artifact s' = Some r /\ producer_stage_id r = sid }.

Lemma rec_refl sid la s a : attempts_of s sid = la ++ [a] -> recorded sid la s s a.
Proof. split; auto. apply only_refl. Qed.

Lemma rec_step sid la s s1 s2 a b : recorded sid la s s1 a -> only [PAttempts] s1 s2 ->
  attempts_of s2 sid = la ++ [b] -> (forall o, o <> sid -> attempts_of s2 o = attempts_of s1 o) ->
  recorded sid la s s2 b.
Proof.
  intros [Ho Ha Hx Hg Hi Hr] Ho2 Hb Hx2.
  assert (arts s1 = arts s2) as He by (apply (only_same _ PArts _ _ Ho2); set_solver).
  unfold arts in He. split; [|done| | | |]; try (intros; rewrite ?Hx2, ?Hx by done; congruence || naive_solver congruence).
  - eapply only_weaken; [apply (only_trans _ _ _ _ _ Ho Ho2)|set_solver].
  - destruct Hr as [Hr|(r & Hr & Hp)]; [left; congruence|right; exists r; split; congruence].
Qed.

Lemma rec_last sid la s s1 a f : recorded sid la s s1 a -> recorded sid la s (set_last_attempt s1 sid f) (f a).
Proof.
  intros Hr. pose proof (rec_attempts _ _ _ _ _ Hr) as Ha.
  eapply rec_step; [exact Hr|apply with_attempts_only| |]; intros; rewrite (attempts_last _ _ _ _ _ _ Ha);
    by case_decide.
Qed.

Lemma rec_arts sid la s s1 s2 a : recorded sid la s s1 a -> only [PArts] s1 s2 ->
  stage_attempts s2 = stage_attempts s1 -> last_good_artifact s2 = last_good_artifact s1 ->
  (is_Some (initial_artifact s1) -> initial_artifact s2 = initial_artifact s1) ->
  (exists r, artifact s2 = Some r /\ producer_stage_id r = sid) -> recorded sid la s s2 a.
Proof.
  intros [Ho Ha Hx Hg Hi Hr] Ho2 Hat Hg2 Hi2 Hr2.
  split; auto; try congruence.
  - eapply only_weaken; [apply (only_trans _ _ _ _ _ Ho Ho2)|set_solver].
  - unfold attempts_of in *. by rewrite Hat.
  - intros x Hne. unfold attempts_of in *. rewrite Hat. auto.
  - intros Hsome. rewrite Hi2; [auto|]. by rewrite Hi.
Qed.

Definition settled_as (o : Outcome) (a a' : StageAttempt) : Prop :=
  attempt a' = attempt a /\ (qc_verdict a' = qc_verdict a \/ qc_verdict a' = o_verdict o) /\
  (at_status a' = COMPLETED /\ o_status o = "completed" \/ at_status a' = FAILED /\ o_status o <> "completed").

Lemma record_result_recorded s sid st now o s' o' la a :
  record_result s sid st now o = Ok (s', o') -> attempts_of s sid = la ++ [a] ->
  exists a', recorded sid la s s' a' /\ settled_as o' a a' /\
    (is_Some (o_verdict o') -> qc_verdict a' = o_verdict o').
Proof.
  unfold record_result. intros H Ha. destruct (sanitize_dict _ _) as [out|]; [|done]. cbn in H.
  set (st1 := if String.eqb (o_status o) "completed" then COMPLETED else FAILED) in *.
  assert (settled_as o a (settled st1 (o_error o) out a)) as H1.
  { split; [done|]. split; [by left|]. unfold st1. destruct (String.eqb_spec (o_status o) "completed"); auto. }
  pose proof (rec_last _ _ _ _ _ (settled st1 (o_error o) out) (rec_refl sid la s a Ha)) as R1.
  match type of H with context [let '(_, _) := ?x in _] => set (p2 := x) in H end.
  assert (exists a2, recorded sid la s p2.1 a2 /\ settled_as p2.2 a a2) as (a2 & R2 & H2).
  { clear H. assert (exists h, p2 = match h with
      | None => (set_last_attempt s sid (settled st1 (o_error o) out), o)
      | Some (Ok text) => (set_last_attempt (set_last_attempt s sid (settled st1 (o_error o) out)) sid (handled text), o)
      | Some (Err t) => (set_last_attempt (set_last_attempt s sid (settled st1 (o_error o) out)) sid
           (settled FAILED (Some ("invalid provider_handle: " +:+ t)) out),
         mkOutcome "failed" (o_output o) (Some ("invalid provider_handle: " +:+ t)) (o_verdict o) (o_handle o)
           (o_artifact o))
      end) as [h ->].
    { exists (match o_handle o with PNone => None | h => Some (_provider_handle h) end).
      unfold p2, _provider_handle. by destruct (o_handle o); repeat case_match. }
    destruct h as [[text|t]|]; cbn [fst snd].
    - exists (handled text (settled st1 (o_error o) out a)). split; [by apply rec_last|done].
    - eexists. split; [by apply rec_last|]. split; [done|]. split; [by left|]. right. split; [done|]. cbn. congruence.
    - by eexists. }
  clearbody p2. destruct p2 as [s2 o2]. cbn in R2, H2.
  set (s3 := match o_verdict o2 with Some v => _ | None => s2 end) in *.
  assert (exists a3, recorded sid la s s3 a3 /\ settled_as o2 a a3 /\ (is_Some (o_verdict o2) -> qc_verdict a3 = o_verdict o2))
    as (a3 & R3 & H3).
  { unfold s3. destruct (o_verdict o2) as [v|] eqn:Hv;
      [|exists a2; split_and!; [exact R2|exact H2|by intros [? [=]]]].
    exists (judged v a2). split; [|by split; [destruct H2 as (? & _ & ?); split_and!; [|right|]|]]. apply rec_last.
    eapply rec_step; [exact R2|solve_only|apply R2|done]. }
  clearbody s3. exists a3. destruct (reported_artifact (o_artifact o2)) as [reported|]; [|done]. cbn in H.
  destruct reported as [[path digest]|]; simplify_eq; [|done].
  split; [|done]. case_match; (eapply rec_arts; [exact R3|solve_only|done|done| |exact (ex_intro _ _ (conj eq_refl eq_refl))]).
  - bool_prop. intros [? Hs]. cbn in Hs. bool_prop. congruence.
  - done.
Qed.

(** ** Invariants *)

(** *** Attempts *)

Definition running (l : list (Z * StageStatus * option (string * bool))) : Prop :=
  exists i n v, l !! i = Some (n, RUNNING, v).

(** A stage's attempts are numbered from 1; all but the last are over, and one
    in flight has no verdict. *)
Definition orderly (l : list (Z * StageStatus * option (string * bool))) : Prop :=
  (fun a => a.1.1) <$> l = seqZ 1 (Z.of_nat (length l)) /\
  (forall i a, l !! i = Some a ->
     a.1.2 = RUNNING /\ S i = length l /\ a.2 = None \/ a.1.2 = COMPLETED \/ a.1.2 = FAILED).

(** Only the stage at the cursor may be in flight. *)
Definition wf (s : PipelineRunState) : Prop :=
  forall sid, orderly (atts s sid) /\ (running (atts s sid) -> current_stage_id s = Some sid).

Lemma orderly_snoc l n st v : orderly l -> ~ running l -> n = Z.of_nat (length l) + 1 ->
  st = RUNNING /\ v = None \/ st = COMPLETED \/ st = FAILED -> orderly (l ++ [(n, st, v)]).
Proof.
  intros [Hn Hs] Hr -> Hst. split.
  - rewrite fmap_app, Hn, length_app. cbn.
    replace (Z.of_nat (length l + 1)) with (Z.of_nat (length l) + 1) by lia.
    rewrite seqZ_app by lia. cbn. by replace (1 + Z.of_nat (length l)) with (Z.of_nat (length l) + 1) by lia.
  - intros i a [Hi|[Hlen Hi]]%lookup_app_Some.
    + destruct (Hs i a Hi) as [(Ha & _)|?]; [|auto]. exfalso. apply Hr. destruct a as [[n' st'] v'].
      cbn in Ha. subst. by exists i, n', v'.
    + rewrite length_app. destruct (i - length l)%nat eqn:Hz; [|done]. cbn in *. simplify_eq. cbn.
      destruct Hst as [[-> ->]|?]; [left|by right]. split_and!; [done|lia|done].
Qed.

Lemma orderly_replace l n v st v' : orderly (l ++ [(n, RUNNING, v)]) -> st = COMPLETED \/ st = FAILED ->
  orderly (l ++ [(n, st, v')]) /\ ~ running (l ++ [(n, st, v')]).
Proof.
  intros [Hn Hs] Hst.
  assert (forall i a, l !! i = Some a -> a.1.2 = COMPLETED \/ a.1.2 = FAILED) as Hl.
  { intros i a Hi. destruct (Hs i a) as [(_ & Hlen & _)|?]; [by apply lookup_app_l_Some| |done].
    apply lookup_lt_Some in Hi. rewrite length_app in Hlen. cbn in Hlen. lia. }
  split; [split|].
  - rewrite fmap_app, !length_app in *. exact Hn.
  - intros i a [Hi|[Hlen Hi]]%lookup_app_Some; [right; eauto|].
    destruct (i - length l)%nat; [|done]. cbn in Hi. simplify_eq. by right.
  - intros (i & m & u & [Hi|[Hlen Hi]]%lookup_app_Some); [by destruct (Hl i _ Hi)|].
    destruct (i - length l)%nat; [|done]. cbn in Hi. simplify_eq. by destruct Hst.
Qed.

Lemma running_is s sid : wf s -> running (atts s sid) -> is_running s sid = true.
Proof.
  intros Hwf (i & n & v & Hi). destruct (Hwf sid) as [[_ Hs] _].
  destruct (Hs i _ Hi) as [(_ & Hlen & _)|[?|?]]; [|done..].
  unfold is_running. apply bool_decide_eq_true. rewrite latest_atts, last_lookup, <- Hlen. cbn. by rewrite Hi.
Qed.

Lemma idle_quiet s sid : wf s -> idle s -> ~ running (atts s sid).
Proof.
  intros Hwf Hidle Hr. pose proof (proj2 (Hwf sid) Hr) as Hc. apply Hidle in Hc.
  by rewrite running_is in Hc.
Qed.

Lemma only_wf ps s s' : only ps s s' -> PAttempts ∉ ps -> PCursor ∉ ps \/ idle s -> wf s -> wf s'.
Proof.
  intros Ho Hp Hc Hwf sid. rewrite <- (only_atts ps s s' sid Ho Hp). destruct (Hwf sid) as [Hs Hr].
  split; [done|]. intros Hrun. destruct Hc as [Hc|Hc]; [|by apply idle_quiet in Hrun].
  specialize (Hr Hrun). pose proof (only_same ps PCursor s s' Ho Hc) as He. cbn in He. unfold cursor in He. congruence.
Qed.

Lemma move_wf s s' : move s s' -> wf s -> wf s'.
Proof.
  intros Hm Hwf. destruct Hm; try by (eapply only_wf; [eassumption|set_solver|first [by right|left; set_solver]|done]).
  - assert (current_stage_id s' = current_stage_id s) as Hc'.
    { pose proof (only_same _ PCursor s s' H ltac:(set_solver)) as He. cbn in He. unfold cursor in He. congruence. }
    assert (forall o, ~ running (atts s o)) as Hq.
    { intros o Hr. pose proof (proj2 (Hwf o) Hr) as Hcur. apply running_is in Hr; [|done]. congruence. }
    intros o. destruct (decide (o = sid)) as [->|Hne].
    + split; [|congruence]. rewrite H4. apply orderly_snoc; auto. apply Hwf.
    + rewrite H5 by done. split; [apply Hwf|]. intros Hr. by apply Hq in Hr.
  - intros o. destruct (decide (o = sid)) as [->|Hne].
    + rewrite H3. pose proof (proj1 (Hwf sid)) as Ho. rewrite H2 in Ho.
      destruct (orderly_replace _ _ _ st v Ho H4) as [? Hr]. split; [done|]. intros ?. done.
    + rewrite H5 by done. split; [apply Hwf|]. intros Hr. pose proof (proj2 (Hwf o) Hr) as Hcur. congruence.
Qed.

Lemma track_wf d s : track d s -> wf d -> wf s.
Proof.
  intros (s0 & Hr & Hl) Hwf. assert (wf s0) as H0; [|by eapply only_wf; [exact Hl|set_solver|left; set_solver|]].
  clear Hl. induction Hr as [|x y z Hm Hr IH]; [done|]. apply IH. by eapply move_wf.
Qed.

Lemma wf_running_last s sid la a : wf s -> attempts_of s sid = la ++ [a] -> at_status a = RUNNING -> qc_verdict a = None.
Proof.
  intros Hwf Ha Hr. destruct (Hwf sid) as [[_ Hs] _].
  destruct (Hs (length la) (att a)) as [(_ & _ & Hv)|[Hv|Hv]].
  - unfold atts. rewrite Ha, fmap_app, lookup_app_r; rewrite length_fmap; [|done]. by rewrite Nat.sub_diag.
  - cbn in Hv. by destruct (qc_verdict a).
  - cbn in Hv. congruence.
  - cbn in Hv. congruence.
Qed.

(** A stage that is not run again is over, and not rejected. *)
Lemma settled_before_ok s sid : settled_before s sid = true -> current_stage_id s = Some sid -> idle s /\ accepted s.
Proof.
  unfold settled_before. intros Hs Hc. destruct (last (attempts_of s sid)) as [a|] eqn:Hl; [|done].
  apply andb_true_iff in Hs as [[Hs%bool_decide_eq_true Hv]%andb_true_iff _].
  split; intros sid' Hsid'; rewrite Hc in Hsid'; simplify_eq.
  - unfold is_running, _latest_stage_status. rewrite Hl. cbn. by rewrite Hs.
  - intros _ (n & x & Hr). unfold atts in Hr. rewrite fmap_last, Hl in Hr. cbn in Hr. unfold att in Hr.
    destruct (qc_verdict a) as [v|]; cbn in Hr; [|done]. simplify_eq. by destruct (passed v).
Qed.

(** *** Corrections *)

Definition total (l : list (string * Z)) : Z := foldr Z.add 0 l.*2.

Lemma total_set l k : NoDup l.*1 -> total (dict_set l k (default 0 (dict_get l k) + 1)) = total l + 1.
Proof.
  unfold total. induction l as [|[k0 v0] l IH]; cbn; intros Hn; [lia|]. apply NoDup_cons in Hn as [Hk Hn].
  destruct (String.eqb_spec k0 k) as [->|Hne]; cbn; [lia|]. rewrite IH by done. lia.
Qed.

(** Every correction is one round of a planned loop, within its bound. *)
Record loops_ok (s : PipelineRunState) : Prop := {
  lo_keys : NoDup (loop_iterations s).*1;
  lo_count : correction_count s = total (loop_iterations s);
  lo_bound loop : iterations s loop = 0 \/ exists sid bound queue,
    correction_plan s sid = Some (loop, bound, queue) /\ 0 < iterations s loop <= bound }.

Lemma same_plan s s' sid : fixed s = fixed s' -> correction_plan s' sid = correction_plan s sid.
Proof. unfold fixed, correction_plan. intros [= _ -> -> _ _ _ _]. done. Qed.

Lemma only_loops ps s s' : only ps s s' -> PLoops ∉ ps -> loops_ok s -> loops_ok s'.
Proof.
  intros Ho Hp [Hk Hc Hb]. pose proof (only_same ps PLoops s s' Ho Hp) as He. cbn in He. unfold loopst in He.
  simplify_eq. split; [congruence..|]. intros loop. unfold iterations in *.
  match goal with H : loop_iterations s = loop_iterations s' |- _ => rewrite <- H end.
  destruct (Hb loop) as [?|(sid & bound & queue & Hplan & ?)]; [by left|right].
  exists sid, bound, queue. by rewrite (same_plan s s' sid (proj1 Ho)).
Qed.

Lemma move_loops s s' : move s s' -> loops_ok s -> loops_ok s'.
Proof.
  intros Hm Hl. destruct Hm as [| | | | | | |cur n st sid loop bound queue Ho _ _ _ _ _ Hplan Hlt Hloop _| |];
    try by (eapply only_loops; [eassumption|set_solver|done]).
  destruct Hl as [Hk Hc Hb]. unfold loopst in Hloop. injection Hloop as Hcc Hli. split.
  - rewrite Hli. by apply dict_set_keys.
  - rewrite Hcc, Hli. unfold iterations. rewrite total_set by done. lia.
  - intros x. unfold iterations. rewrite Hli, dict_get_set. case_decide as Hx.
    + subst x. right. exists sid, bound, queue. rewrite (same_plan s s' sid (proj1 Ho)). split; [done|]. cbn.
      assert (0 <= iterations s loop) by (destruct (Hb loop) as [->|(? & ? & ? & ? & ?)]; lia). lia.
    + destruct (Hb x) as [?|(sid' & b & q & Hp & ?)]; [by left|right]. exists sid', b, q.
      by rewrite (same_plan s s' sid' (proj1 Ho)).
Qed.

(** *** Endings *)

(** A run that has ended has one code, with the status that goes with it; it
    ends cancelled only when every child was stopped, and shows the best
    artifact it knows unless it succeeded. *)
Definition ended_ok (s : PipelineRunState) : Prop :=
  match terminal_code s with
  | None => status s = Run_running
  | Some c =>
      status s = status_of c /\
      (c = COORDINATOR_CANCELLED -> cancelled s = true /\ Forall (fun ch => finished_child ch = true) (child_jobs s)) /\
      (c <> SUCCESS -> forall a, safest_artifact s = Some a -> artifact s = Some a)
  end.

Lemma live_code s : ended_ok s -> live s -> terminal_code s = None.
Proof.
  unfold ended_ok, live, is_terminal. destruct (terminal_code s) as [c|]; [|done]. intros [-> _]. by destruct c.
Qed.

Lemma move_ended s s' : move s s' -> ended_ok s -> ended_ok s'.
Proof.
  intros Hm He.
  assert (forall ps, only ps s s' -> PEnding ∉ ps -> live s -> ended_ok s') as Hsame.
  { intros ps Ho Hp Hl. pose proof (only_same ps PEnding s s' Ho Hp) as Hs. cbn in Hs. unfold ending in Hs.
    injection Hs as Hst Hc. pose proof (live_code _ He Hl) as Hn. unfold ended_ok. rewrite <- Hc, Hn, <- Hst.
    unfold live, is_terminal in Hl. by destruct (status s). }
  destruct Hm as [| | | | | | | |c Ho Hl Hend Hok|]; try (eapply Hsame; [eassumption|set_solver|done]).
  unfold ending in Hend. injection Hend as Hst Hc. unfold ended_ok. rewrite Hc, Hst. unfold end_ok, arts in Hok.
  split; [done|]. split.
  - intros ->. by apply Hok.
  - intros Hns a Ha. destruct c; try done;
      (destruct Hok as [[= Harts Hi Hg] _]; unfold safest_artifact in *; rewrite Hi, Hg in Ha; rewrite Harts;
       by rewrite Ha).
Qed.

Lemma like_ended s s' : like s s' -> ended_ok s -> ended_ok s'.
Proof.
  intros Hl. pose proof (like_fields _ _ Hl) as (_ & _ & Ha & Hc & Hch). pose proof (like_same PEnding _ _ Hl) as He.
  unfold ending, arts, cancels, ended_ok, safest_artifact in *. cbn in He. unfold ending in He. simplify_eq.
  repeat match goal with H : _ s = _ s' |- _ => rewrite H; clear H end. done.
Qed.

(** *** Success *)

(** Every quality stage's loop runs known stages, itself last, and no other
    quality stage. *)
Definition plans_ok (s : PipelineRunState) : Prop :=
  forall sid loop bound queue, qc s sid -> correction_plan s sid = Some (loop, bound, queue) ->
    Forall (known s) queue /\ exists l, queue = l ++ [sid] /\ Forall (fun x => ~ qc s x) l.

(** The verdicts of a stage's attempts name that stage. *)
Definition named (s : PipelineRunState) : Prop :=
  forall sid i n st x b, atts s sid !! i = Some (n, st, Some (x, b)) -> x = sid.

(** A live run knows its cursor, and has every rejected quality stage ahead. *)
Record ahead (s : PipelineRunState) : Prop := {
  ah_cursor : match current_stage_id s with None => pending_stage_ids s <> [] | Some c => known s c end;
  ah_queue : pending_stage_ids s = [] \/ exists sid loop bound pre,
    qc s sid /\ correction_plan s sid = Some (loop, bound, pre ++ pending_stage_ids s);
  ah_at c : pending_stage_ids s <> [] -> current_stage_id s = Some c -> ~ qc s c;
  ah_rejected sid : qc s sid -> rejected s sid ->
    current_stage_id s = Some sid /\ pending_stage_ids s = [] \/ last (pending_stage_ids s) = Some sid }.

(** Nothing is left to do, and no quality stage's last verdict failed. *)
Definition accomplished (s : PipelineRunState) : Prop :=
  all_done s = true /\ forall sid, qc s sid -> ~ rejected s sid.

Definition progress_ok (s : PipelineRunState) : Prop :=
  match terminal_code s with Some SUCCESS => accomplished s | Some _ => True | None => ahead s end.

Lemma move_named s s' : move s s' -> named s' -> named s.
Proof.
  intros Hm Hn sid i n st x b Hi. apply (Hn sid i n st x b). destruct (move_atts _ _ sid Hm)
    as [->|[(m & -> & _)|(l & m & st' & v & Hs & -> & _)]]; [done|by apply lookup_app_l_Some|].
  rewrite Hs in Hi. apply lookup_app_Some in Hi as [Hi|[_ Hi]]; [by apply lookup_app_l_Some|].
  destruct (i - length l)%nat; done.
Qed.

(** What [ahead] reads. *)
Lemma only_reads ps s s' : only ps s s' ->
  (forall sid, qc s' sid <-> qc s sid) /\ (forall sid, known s' sid <-> known s sid) /\
  (forall sid, correction_plan s' sid = correction_plan s sid) /\
  (PAttempts ∉ ps -> (forall sid, rejected s' sid <-> rejected s sid) /\ all_done s' = all_done s) /\
  (PCursor ∉ ps -> current_stage_id s' = current_stage_id s /\ pending_stage_ids s' = pending_stage_ids s).
Proof.
  intros Ho. pose proof (like_pipeline _ _ _ Ho) as Hp. unfold qc, known, rejected. rewrite Hp. split_and!; try done.
  - intros sid. by apply same_plan, Ho.
  - intros Hn. assert (forall sid, atts s sid = atts s' sid) as Ha by (intros; by eapply only_atts). split.
    + intros sid. by rewrite Ha.
    + unfold all_done. rewrite <- Hp. induction (List.filter _ _) as [|st l IH]; cbn; [done|].
      by rewrite IH, (like_latest s s').
  - intros Hn. pose proof (only_same ps PCursor s s' Ho Hn) as Hs. cbn in Hs. unfold cursor in Hs. split; congruence.
Qed.

Lemma only_ahead ps s s' : only ps s s' -> PAttempts ∉ ps -> PCursor ∉ ps -> ahead s -> ahead s'.
Proof.
  intros Ho Ha Hc [H1 H2 H3 H4]. pose proof (only_reads _ _ _ Ho) as (Hq & Hk & Hp & Hr & Hcur).
  destruct (Hr Ha) as [Hrej _]. destruct (Hcur Hc) as [Hc1 Hc2]. split; rewrite ?Hc1, ?Hc2.
  - destruct (current_stage_id s); [by apply Hk|done].
  - destruct H2 as [?|(sid & loop & bound & pre & ? & ?)]; [by left|right].
    exists sid, loop, bound, pre. rewrite Hq, Hp. done.
  - intros c. rewrite Hq. auto.
  - intros sid. rewrite Hq, Hrej. auto.
Qed.

(** Before the last of a queue no quality stage is run. *)
Lemma queue_split s x loop bound pre next rest : plans_ok s -> qc s x ->
  correction_plan s x = Some (loop, bound, pre ++ next :: rest) ->
  known s next /\ (rest <> [] -> ~ qc s next).
Proof.
  intros Hplans Hx Hp. destruct (Hplans _ _ _ _ Hx Hp) as [Hk (l & Hl & Hq)]. split.
  - rewrite Forall_forall in Hk. apply Hk. set_solver.
  - intros Hr. destruct rest as [|r rest _] using rev_ind; [done|].
    rewrite app_comm_cons, app_assoc in Hl. apply app_inj_tail in Hl as [<- _].
    rewrite Forall_forall in Hq. apply Hq. set_solver.
Qed.

Lemma ahead_none_rejected s : ahead s -> pending_stage_ids s = [] -> accepted s -> forall sid, qc s sid -> ~ rejected s sid.
Proof.
  intros [_ _ _ Hr] Hp Ha sid Hq Hrej. destruct (Hr sid Hq Hrej) as [[Hc _]|Hl]; [by apply (Ha sid)|].
  by rewrite Hp in Hl.
Qed.

Lemma ahead_begin ps s s' sid : only ps s s' -> PCursor ∉ ps -> current_stage_id s = Some sid ->
  (rejected s' sid -> qc s sid -> pending_stage_ids s = []) ->
  (forall o, o <> sid -> atts s' o = atts s o) -> ahead s -> ahead s'.
Proof.
  intros Ho Hps Hc Hrej Hx [H1 H2 H3 H4].
  pose proof (only_reads _ _ _ Ho) as (Hq & Hk & Hp & _ & Hcur). destruct (Hcur Hps) as [Hc1 Hc2].
  rewrite Hc in H1, H3, H4. split; rewrite ?Hc1, ?Hc2, ?Hc; [by apply Hk| |intros c; rewrite Hq; auto|].
  - destruct H2 as [?|(x & loop & bound & pre & ? & ?)]; [by left|right].
    exists x, loop, bound, pre. by rewrite Hq, Hp.
  - intros x Hqx Hr. rewrite Hq in Hqx. destruct (decide (x = sid)) as [->|Hne]; [left; auto|].
    apply H4; [done|]. unfold rejected in *. by rewrite <- (Hx x Hne).
Qed.

Lemma ahead_pop s s' next rest : only [PCursor] s s' -> plans_ok s -> pending_stage_ids s = next :: rest ->
  pending_stage_ids s' = rest -> (known s next -> current_stage_id s' = Some next) -> ahead s -> ahead s'.
Proof.
  intros Ho Hplans Hp Hp' Hn [H1 H2 H3 H4].
  pose proof (only_reads _ _ _ Ho) as (Hq & Hk & Hpl & Hr & _). destruct (Hr ltac:(set_solver)) as [Hrej _].
  rewrite Hp in *. destruct H2 as [?|(x & loop & bound & pre & Hx & Hplan)]; [done|].
  destruct (queue_split _ _ _ _ _ _ _ Hplans Hx Hplan) as [Hknown Hnq].
  split; rewrite ?Hp', ?(Hn Hknown).
  - by apply Hk.
  - right. exists x, loop, bound, (pre ++ [next]). rewrite Hq, Hpl. by rewrite <- app_assoc.
  - intros c Hne [= <-]. rewrite Hq. auto.
  - intros y Hqy Hry. rewrite Hq in Hqy. rewrite Hrej in Hry. destruct (H4 y Hqy Hry) as [[_ ?]|Hl]; [done|].
    destruct rest as [|r rest]; [left; by simplify_eq/=|right; exact Hl].
Qed.

(** No quality stage is rejected when the cursor is accepted and the queue is
    empty, so the cursor may go anywhere known. *)
Lemma ahead_next s s' sid : only [PCursor] s s' -> accepted s -> pending_stage_ids s = [] -> known s sid ->
  cursor s' = (Some sid, []) -> ahead s -> ahead s'.
Proof.
  intros Ho Hacc Hp Hk Hc Hah. pose proof (ahead_none_rejected s Hah Hp Hacc) as Hnone.
  pose proof (only_reads _ _ _ Ho) as (Hq & Hkn & _ & Hr & _). destruct (Hr ltac:(set_solver)) as [Hrej _].
  unfold cursor in Hc. injection Hc as Hc1 Hc2. split; rewrite ?Hc1, ?Hc2; [by apply Hkn|by left|done|].
  intros x Hqx Hrx. rewrite Hq in Hqx. rewrite Hrej in Hrx. by apply Hnone in Hrx.
Qed.

Lemma ahead_loop s s' cur loop bound queue : only [PCursor; PLoops] s s' -> plans_ok s ->
  current_stage_id s = Some cur -> qc s cur -> correction_plan s cur = Some (loop, bound, queue) ->
  cursor s' = (None, queue) -> ahead s -> ahead s'.
Proof.
  intros Ho Hplans Hc Hq Hplan Hc' [H1 H2 H3 H4]. destruct (Hplans _ _ _ _ Hq Hplan) as [_ (l & Hl & _)].
  assert (pending_stage_ids s = []) as Hp.
  { destruct (pending_stage_ids s) eqn:Hp; [done|]. exfalso. by apply (H3 cur). }
  pose proof (only_reads _ _ _ Ho) as (Hqq & _ & Hpl & Hr & _). destruct (Hr ltac:(set_solver)) as [Hrej _].
  unfold cursor in Hc'. injection Hc' as Hc1 Hc2. split; rewrite ?Hc1, ?Hc2; [|right|done|].
  - rewrite Hl. by destruct l.
  - exists cur, loop, bound, []. by rewrite Hqq, Hpl.
  - intros x Hqx Hrx. rewrite Hqq in Hqx. rewrite Hrej in Hrx. rewrite Hp in H4.
    destruct (H4 x Hqx Hrx) as [[Hx _]|?]; [|done]. right. rewrite Hl, last_snoc. congruence.
Qed.

Lemma move_ahead s s' : move s s' -> plans_ok s -> named s -> ahead s -> ahead s'.
Proof.
  intros Hm Hplans Hnamed Hah.
  destruct Hm as [sid Ho Hl Hk Hc Hrun Ha Hx|Ho Hl|sid l n st v Ho Hl Hc Ha Ha' Hst Hx _ _ _
    |next rest Ho Hl Hi Hp Hp' Hn|Ho Hl Hi Hacc Hp Hc|sid st Ho Hl Hi Hacc Hp Hst Hk _ Hc|a Ho Hl _ _
    |cur n st sid loop bound queue Ho Hl Hi Hc Hq Hv Hplan _ _ Hc'|c Ho Hl Hend Hok|Ho Hl _];
    try by (eapply only_ahead; [eassumption|set_solver|set_solver|done]).
  - apply (ahead_begin _ _ _ sid Ho ltac:(set_solver)); auto. intros (m & x & Hr). by rewrite Ha, last_snoc in Hr.
  - apply (ahead_begin _ _ _ sid Ho ltac:(set_solver)); auto. intros _ Hq. destruct (pending_stage_ids s) eqn:Hp; [done|]. exfalso.
    apply (ah_at _ Hah sid); [by rewrite Hp|done|done].
  - eapply ahead_pop; eauto. intros Hk. naive_solver.
  - destruct Hah as [H1 H2 H3 H4]. pose proof (only_reads _ _ _ Ho) as (Hq & Hk & Hpl & Hr & _).
    destruct (Hr ltac:(set_solver)) as [Hrej _]. unfold cursor in Hc. injection Hc as Hc1 Hc2.
    split; rewrite ?Hc1, ?Hc2; [done| |done|].
    + destruct H2 as [?|(x & loop & bound & pre & ? & ?)]; [done|right].
      exists x, loop, bound, pre. by rewrite Hq, Hpl.
    + intros x Hqx Hrx. rewrite Hq in Hqx. rewrite Hrej in Hrx. destruct (H4 x Hqx Hrx) as [[_ ?]|?]; [done|by right].
  - eapply ahead_next; eauto. by exists st.
  - assert (sid = cur) as ->.
    { rewrite last_lookup in Hv. eapply Hnamed, Hv. }
    eapply ahead_loop; eauto.
Qed.

(** A run that succeeds has accomplished its work. *)
Lemma end_accomplished s s' : only [PArts; PEnding; PCancels; PChildren] s s' -> wf s -> ahead s ->
  success_ok s -> accomplished s'.
Proof.
  intros Ho Hwf Hah Hs. pose proof (only_reads _ _ _ Ho) as (Hq & _ & _ & Hr & _).
  destruct (Hr ltac:(set_solver)) as [Hrej Hdone]. destruct Hs as [(Hp & Hacc & Had)|[Hp Hcur]].
  - split; [by rewrite Hdone|]. intros sid. rewrite Hq, Hrej. by apply ahead_none_rejected.
  - exfalso. pose proof (ah_cursor _ Hah) as Hc. destruct (current_stage_id s) as [c|] eqn:Hcs; [by apply Hcur|].
    destruct Hp as [?|Hrun]; [done|]. cbn in Hrun. unfold is_running in Hrun. apply bool_decide_eq_true in Hrun.
    rewrite latest_atts in Hrun. destruct (last (atts s "")) as [[[n st] v]|] eqn:Hl; [|done].
    cbn in Hrun. simplify_eq. rewrite last_lookup in Hl. pose proof (proj2 (Hwf "")) as Hw.
    rewrite Hcs in Hw. assert (running (atts s "")) as Hrr by (eexists _, n, v; exact Hl). by apply Hw in Hrr.
Qed.

Lemma plans_same s s' : fixed s = fixed s' -> plans_ok s -> plans_ok s'.
Proof.
  intros Hf Hp sid loop bound queue. pose proof (fun x => same_plan s s' x Hf) as Hplan.
  assert (compiled_pipeline s = compiled_pipeline s') as Hc by (unfold fixed in Hf; congruence).
  unfold qc, known in *. rewrite Hplan, <- Hc. apply Hp.
Qed.

Lemma move_fixed s s' : move s s' -> fixed s = fixed s'.
Proof. by intros [? [? _]|[? _]|? ? ? ? ? [? _]|? ? [? _]|[? _]|? ? [? _]|? [? _]|? ? ? ? ? ? ? [? _]|? [? _]|[? _]]. Qed.

Lemma move_live s s' : move s s' -> live s.
Proof. by intros []. Qed.

Lemma move_progress s s' : move s s' -> plans_ok s -> wf s -> named s -> ended_ok s -> progress_ok s -> progress_ok s'.
Proof.
  intros Hm Hplans Hwf Hnamed He Hpr. pose proof (live_code _ He (move_live _ _ Hm)) as Hc.
  unfold progress_ok in *. rewrite Hc in Hpr. pose proof (move_ahead _ _ Hm Hplans Hnamed Hpr) as Hah.
  assert (forall ps, only ps s s' -> PEnding ∉ ps -> terminal_code s' = None) as Hsame.
  { intros ps Ho Hp. pose proof (only_same ps PEnding s s' Ho Hp) as Hs. cbn in Hs. unfold ending in Hs. congruence. }
  destruct Hm as [| | | | | | | |c Ho Hl Hend Hok|];
    try by (erewrite Hsame; [exact Hah|eassumption|set_solver]).
  unfold ending in Hend. injection Hend as _ ->. destruct c; try done. destruct Hok as [_ Hok].
  by eapply end_accomplished.
Qed.

(** What moves and likeness keep holds of every state tracked. *)
Lemma track_ind (P : PipelineRunState -> Prop) d s :
  (forall x y, move x y -> P x -> P y) -> (forall x y, like x y -> P x -> P y) -> track d s -> P d -> P s.
Proof.
  intros Hm Hl (s1 & Hr & Hs) Hd. eapply Hl; [exact Hs|]. clear Hs. induction Hr; eauto.
Qed.

Lemma track_fixed d s : track d s -> fixed d = fixed s.
Proof.
  intros Ht. apply (track_ind (fun x => fixed d = fixed x) d s); [| |done|done].
  - intros x y Hm ->. by apply move_fixed.
  - by intros x y [Hf _] ->.
Qed.

Lemma like_named s s' : like s s' -> named s' -> named s.
Proof. intros Hl Hn sid i n st x b. rewrite (like_atts _ _ _ Hl). apply Hn. Qed.

Lemma like_progress s s' : like s s' -> progress_ok s -> progress_ok s'.
Proof.
  intros Hl. pose proof (like_same PEnding _ _ Hl) as He. cbn in He. unfold ending in He. injection He as _ He.
  unfold progress_ok. rewrite <- He. pose proof (only_reads _ _ _ Hl) as (Hq & _ & _ & Hr & _).
  destruct (Hr ltac:(set_solver)) as [Hrej Hd].
  destruct (terminal_code s) as [[]|]; try done; [|apply (only_ahead _ _ _ Hl); set_solver].
  intros [Ha Hn]. split; [by rewrite Hd|]. intros sid. rewrite Hq, Hrej. apply Hn.
Qed.

(** The invariants of a run whose plans are sound. *)
Definition sound (s : PipelineRunState) : Prop :=
  plans_ok s /\ wf s /\ ended_ok s /\ (named s -> progress_ok s).

Lemma move_sound s s' : move s s' -> sound s -> sound s'.
Proof.
  intros Hm (Hp & Hw & He & Hpr). split_and!.
  - by apply (plans_same s); [apply move_fixed|].
  - by eapply move_wf.
  - by eapply move_ended.
  - intros Hn. pose proof (move_named _ _ Hm Hn). eapply move_progress; eauto.
Qed.

Lemma like_sound s s' : like s s' -> sound s -> sound s'.
Proof.
  intros Hl (Hp & Hw & He & Hpr). split_and!.
  - by apply (plans_same s); [apply Hl|].
  - eapply only_wf; [exact Hl|set_solver|left; set_solver|done].
  - by eapply like_ended.
  - intros Hn. eapply like_progress; [exact Hl|]. apply Hpr. by eapply like_named.
Qed.
