(* ===== verification/CoordinatorRuns.v ===== *)
(** * CoordinatorRuns: what a run of the coordinator can do

    The histories of one durable run: ticks ([advance]) and cancellation
    requests ([request_cancellation]), one after the other, each stopped after
    any number of its operations, as a crash of the process stops it.  The
    store keeps the state last saved; a load or a save may fail; the executors,
    the resolver and the leaf client answer anything.  Every save of every
    history is a move of the abstract machine ([tracked]), and the properties
    of runs follow from the machine's. *)

From S2P Require Import Prelude PyValue PyText Programs Coordinator CoordinatorMachine.

(** ** Histories *)

Section Histories.
Variable sha256_hex : string -> string.
(** The answers of everything outside, from a state of its own. *)
Context {E : Type} (provider : forall X, op X -> E -> X * E).

(** The store's state, the attempts handed to an executor (a stage and the
    number of its attempts), and the outside. *)
Record World := mkWorld { durable : PipelineRunState; executed : list (string * Z); outside : E }.

Definition load_answer (run : string) (r : result string (option PipelineRunState)) (d : PipelineRunState)
    : result string (option PipelineRunState) :=
  match r with Ok (Some _) => if String.eqb run (run_id d) then Ok (Some d) else r | _ => r end.

Definition attempt_id (st : data) (s : PipelineRunState) : string * Z :=
  (stage_id st, Z.of_nat (length (attempts_of s (stage_id st)))).

Definition handle X (o : op X) (w : World) : X * World :=
  let keep x d ex := (x, mkWorld d ex (provider X o (outside w)).2) in
  match o in op X return (X -> PipelineRunState -> list (string * Z) -> X * World) -> X -> X * World with
  | Load run => fun keep r => keep (load_answer run r (durable w)) (durable w) (executed w)
  | Save s => fun keep b => keep b (if b then s else durable w) (executed w)
  | Execute st s _ => fun keep r => keep r (durable w) (executed w ++ [attempt_id st s])
  | _ => fun keep r => keep r (durable w) (executed w)
  end keep (provider X o (outside w)).1.

Inductive act := Tick (n : nat) | Cancel (n : nat).

Definition do_act (a : act) (w : World) : World :=
  match a with
  | Tick n => run_upto handle n (advance sha256_hex (durable w)) w
  | Cancel n => run_upto handle n (request_cancellation (run_id (durable w))) w
  end.

Definition play (acts : list act) (w : World) : World := fold_left (fun w a => do_act a w) acts w.

(** No save fails. *)
Definition reliable : Prop := forall s e, (provider bool (Save s) e).1 = true.

(** ** A logic for the saves of a program *)

Section Logic.
Variable Inv : PipelineRunState -> list (string * Z) -> Prop.

(** [Q] holds of the result, and [Inv] all along, from a durable state and
    what was executed, whatever the state of the outside. *)
Definition ok {A} (p : prog A) (d : PipelineRunState) (ex : list (string * Z))
    (Q : A -> PipelineRunState -> list (string * Z) -> Prop) : Prop :=
  forall e, wp handle (fun w => Inv (durable w) (executed w)) p (fun a w => Q a (durable w) (executed w))
    (mkWorld d ex e).

Lemma ok_sound {A} (p : prog A) d ex Q e n : ok p d ex Q ->
  Inv (durable (run_upto handle n p (mkWorld d ex e))) (executed (run_upto handle n p (mkWorld d ex e))).
Proof. intros H. exact (wp_sound _ _ _ _ _ n (H e)). Qed.

Lemma ok_ret {A} (a : A) d ex (Q : A -> _) : Inv d ex -> Q a d ex -> ok (Ret a) d ex Q.
Proof. by intros ? ? e. Qed.

Lemma ok_raise {A} t d ex (Q : A -> _) : Inv d ex -> ok (Raise t) d ex Q.
Proof. by intros ? e. Qed.

Lemma ok_bind {A B} (p : prog A) (k : A -> prog B) d ex Q :
  ok p d ex (fun a d' ex' => ok (k a) d' ex' Q) -> ok (p ≫= k) d ex Q.
Proof.
  intros H e. apply wp_bind. eapply wp_mono; [|exact (H e)]. intros a [d' ex' e'] Hk. apply Hk.
Qed.

Lemma ok_mono {A} (p : prog A) d ex Q Q' :
  (forall a d' ex', Q a d' ex' -> Q' a d' ex') -> ok p d ex Q -> ok p d ex Q'.
Proof. intros HQ H e. eapply wp_mono; [|exact (H e)]. intros a w. apply HQ. Qed.

(** An operation that neither saves nor executes nor loads. *)
Definition neutral {X} (o : op X) : bool :=
  match o with Load _ | Save _ | Execute _ _ _ => false | _ => true end.

Lemma ok_ask {A X} (o : op X) (k : X -> prog A) d ex Q :
  neutral o = true -> Inv d ex -> (forall x, ok (k x) d ex Q) -> ok (Vis o k) d ex Q.
Proof. intros Ho Hi Hk e. split; [done|]. destruct o; try done; apply Hk. Qed.

Lemma ok_load {A} (k : _ -> prog A) d ex Q :
  Inv d ex -> (forall t, ok (k (Err t)) d ex Q) -> ok (k (Ok None)) d ex Q -> ok (k (Ok (Some d))) d ex Q ->
  ok (Vis (Load (run_id d)) k) d ex Q.
Proof.
  intros Hi H1 H2 H3 e. split; [done|]. cbn. unfold load_answer. rewrite String.eqb_refl. destruct (provider _ _ _) as [[[s|]|t] e']; cbn; [apply H3|apply H2|apply H1].
Qed.

Lemma ok_save {A} s (k : bool -> prog A) d ex Q :
  Inv d ex -> ok (k true) s ex Q -> (~ reliable -> ok (k false) d ex Q) -> ok (Vis (Save s) k) d ex Q.
Proof.
  intros Hi Ht Hf e. split; [done|]. cbn. destruct (provider _ _ _) as [[] e'] eqn:Hp; cbn; [apply Ht|].
  apply Hf. intros Hr. specialize (Hr s e). by rewrite Hp in Hr.
Qed.

Lemma ok_execute {A} st s key (k : _ -> prog A) d ex Q :
  Inv d ex -> (forall x, ok (k x) d (ex ++ [attempt_id st s]) Q) -> ok (Vis (Execute st s key) k) d ex Q.
Proof. intros Hi Hk e. split; [done|]. apply Hk. Qed.

End Logic.

Ltac steps :=
  cbn [mbind program_mbind program_bind mret program_mret]; unfold save, event, perform, require, raising;
  cbn [mbind program_mbind program_bind mret program_mret].
(** What was saved is what is returned. *)
Ltac told := let Hr := fresh in intros Hr; match goal with H : _ -> ?d = _ |- context [?d] => by rewrite (H Hr) end.
Ltac asks := repeat (first
  [apply ok_ask; [reflexivity|eassumption|intros ?]; steps
  |apply ok_ret; [eassumption|first [done|told]]|apply ok_raise; eassumption]).

(** *** Stopping what is under way *)

Ltac asks_q := repeat (first
  [apply ok_ask; [reflexivity|eassumption|intros ?]; steps
  |apply ok_ret; [eassumption|by eauto]|apply ok_raise; eassumption|progress repeat case_match]).

Lemma cancel_external_ok (I : _ -> _ -> Prop) s d ex :
  I d ex -> ok I (cancel_external s) d ex (fun _ d' ex' => d' = d /\ ex' = ex).
Proof. intros Hi. unfold cancel_external. steps. asks_q. Qed.

Abbreviation done_child := (fun ch => finished_child ch = true).

Lemma cancel_children_ok (I : _ -> _ -> Prop) children : forall i s un d ex pre,
  I d ex -> child_jobs s = pre ++ children -> length pre = i -> (un = [] -> Forall done_child pre) ->
  ok I (cancel_children i children s un) d ex (fun r d' ex' =>
    d' = d /\ ex' = ex /\ only [PChildren] s r.1 /\ (r.2 = [] -> Forall done_child (child_jobs r.1))).
Proof.
  induction children as [|c rest IH]; intros i s un d ex pre Hi Hch Hlen Hun; cbn [cancel_children].
  { apply ok_ret; [done|]. rewrite app_nil_r in Hch. subst pre. cbn. by eauto using only_refl. }
  assert (forall c' s' un', only [PChildren] s s' -> child_jobs s' = (pre ++ [c']) ++ rest ->
    (un' = [] -> un = [] /\ done_child c') ->
    ok I (cancel_children (S i) rest s' un') d ex (fun r d' ex' =>
      d' = d /\ ex' = ex /\ only [PChildren] s r.1 /\ (r.2 = [] -> Forall done_child (child_jobs r.1)))) as Hnext.
  { intros c' s' un' Ho Hs' Hu. eapply ok_mono; [|apply (IH (S i) s' un' d ex (pre ++ [c']))]; [|done|done| |].
    - intros r d' ex' (-> & -> & Ho' & Hr). split_and!; try done.
      eapply only_weaken; [apply (only_trans _ _ _ _ _ Ho Ho')|set_solver].
    - rewrite length_app. cbn. lia.
    - intros [? ?]%Hu. apply Forall_app. split; [auto|]. by constructor. }
  destruct (finished_child c) eqn:Hf.
  { apply (Hnext c); [apply only_refl|by rewrite Hch, <- app_assoc|done]. }
  steps. apply ok_ask; [done|done|]. intros r. destruct r as [[]|t].
  - apply (Hnext (cancelled_child c)); [solve_only| |done]. cbn. rewrite Hch, <- Hlen.
    rewrite alter_app_r_alt by lia. rewrite Nat.sub_diag. cbn. by rewrite <- app_assoc.
  - apply (Hnext c); [apply only_refl|by rewrite Hch, <- app_assoc|by destruct un].
  - steps. apply ok_ask; [done|done|intros _]. steps.
    apply (Hnext c); [apply only_refl|by rewrite Hch, <- app_assoc|by destruct un].
Qed.

Lemma terminal_terminalize (I : _ -> _ -> Prop) s c reason d ex :
  I d ex -> is_terminal s = true -> ok I (_terminalize s c reason) d ex (fun s' d' _ => s' = s /\ d' = d).
Proof. intros Hi Hl. unfold _terminalize. rewrite Hl. by apply ok_ret. Qed.

(** *** Ended runs *)

Definition unchanged (d : PipelineRunState) (ex : list (string * Z)) (d' : PipelineRunState)
    (ex' : list (string * Z)) : Prop := d' = d /\ ex' = ex.

Lemma ended_cascade d ex : is_terminal d = true ->
  ok (unchanged d ex) (_cascade_cancellation d) d ex (fun _ _ _ => True).
Proof.
  intros Hd. assert (unchanged d ex d ex) as Hi by done. unfold _cascade_cancellation. steps.
  apply ok_ask; [done|done|intros _]. steps. apply ok_bind.
  eapply ok_mono; [|by apply cancel_external_ok]. cbn. intros un d' ex' [-> ->]. apply ok_bind.
  eapply ok_mono; [|apply (cancel_children_ok _ _ _ _ _ _ _ []); done].
  cbn. intros [s1 un'] d' ex' (-> & -> & Ho & _). cbn in *.
  pose proof (only_terminal _ _ _ Ho ltac:(set_solver)) as Hs1.
  destruct un'; (eapply ok_mono; [|apply terminal_terminalize; [done|by rewrite <- Hd]]); done.
Qed.

Lemma ended_act a w : is_terminal (durable w) = true ->
  unchanged (durable w) (executed w) (durable (do_act a w)) (executed (do_act a w)).
Proof.
  intros Hd. destruct w as [d ex e]. cbn in *. assert (unchanged d ex d ex) as Hi by done.
  destruct a as [n|n]; cbn; apply (ok_sound (unchanged d ex) _ _ _ (fun _ _ _ => True)).
  - unfold advance. steps. apply ok_load; [done|intros; asks| |]; steps; cbn [from_option]; unfold id;
      (destruct (cancellation_intent d && negb (cancelled d)); [by apply ended_cascade|]); rewrite Hd; asks.
  - unfold request_cancellation. steps. apply ok_load; [done|intros; asks|asks|]. steps. rewrite Hd. asks.
Qed.

(** An ended run is final: once the durable state is terminal, no tick and
    no cancellation request changes it or executes anything again. *)
Theorem ended_is_final acts w :
  is_terminal (durable w) = true ->
  durable (play acts w) = durable w /\ executed (play acts w) = executed w.
Proof.
  revert w. induction acts as [|a acts IH]; intros w Hd; [done|]. cbn.
  destruct (ended_act a w Hd) as [Hd1 He1]. fold (play acts (do_act a w)).
  destruct (IH (do_act a w)) as [H1 H2]; [by rewrite Hd1|]. by rewrite H1, H2.
Qed.

(** *** Cancellation takes effect *)

(** The durable state at the end of a program. *)
Definition leads {A} (p : prog A) (d : PipelineRunState) (Q : PipelineRunState -> Prop) : Prop :=
  forall ex e, Q (durable (run_all handle p (mkWorld d ex e)).2).

(** A program that returns, and saves, loads and executes nothing. *)
Fixpoint calm {A} (P : A -> Prop) (p : prog A) : Prop :=
  match p with
  | Ret a => P a
  | Raise _ => False
  | Vis o k => neutral o = true /\ forall x, calm P (k x)
  end.

Lemma leads_ask {A X} (o : op X) (k : X -> prog A) d Q :
  neutral o = true -> (forall x, leads (k x) d Q) -> leads (Vis o k) d Q.
Proof. intros Ho Hk ex e. destruct o; try done; apply Hk. Qed.

Lemma leads_bind {A B} (P : A -> Prop) (p : prog A) (k : A -> prog B) d Q :
  calm P p -> (forall a, P a -> leads (k a) d Q) -> leads (p ≫= k) d Q.
Proof.
  intros Hp Hk. induction p as [a|t|X o c IH]; cbn in *; [by apply Hk|done|].
  destruct Hp as [Ho Hc]. apply leads_ask; [done|]. intros x. by apply IH.
Qed.

Lemma cancel_external_calm s : calm (fun _ => True) (cancel_external s).
Proof.
  unfold cancel_external. steps. repeat first [done|split; [done|intros ?]; steps|progress repeat case_match].
Qed.

Lemma cancel_children_calm children : forall i s un,
  calm (fun r => ending r.1 = ending s) (cancel_children i children s un).
Proof.
  induction children as [|c rest IH]; intros i s un; cbn [cancel_children]; [done|].
  destruct (finished_child c); [apply IH|]. steps. split; [done|]. intros [[]|t]; [|apply IH|].
  - pose proof (IH (S i) ((set_child s i cancelled_child) ⟪ cancelled_children := cancelled_children s ++ [child_job_id c] ⟫) un) as H.
    exact H.
  - steps. split; [done|]. intros _. apply IH.
Qed.

(** C5. A cancellation takes effect: once the durable state of a live run asks
    for it, a tick that runs to its end, with a store that answers, ends the
    run, as cancelled or, when something could not be stopped, as unsafe to
    resume, whatever the outside answers. *)
Theorem cancellation_takes_effect d ex e :
  reliable -> (forall run e', exists s, (provider _ (Load run) e').1 = Ok (Some s)) ->
  is_terminal d = false -> cancellation_intent d = true -> cancelled d = false ->
  let d' := durable (run_all handle (advance sha256_hex d) (mkWorld d ex e)).2 in
  terminal_code d' = Some COORDINATOR_CANCELLED \/ terminal_code d' = Some UNSAFE_RESUME.
Proof.
  intros Hrel Hload Hlive Hint Hcan. cbn.
  destruct (Hload (run_id d) e) as [s0 Hs0]. rewrite Hs0. cbn. rewrite String.eqb_refl. cbn. rewrite Hint, Hcan. cbn [andb negb].
  match goal with |- context [mkWorld d ex ?e'] => generalize e' end. revert ex.
  change (leads (_cascade_cancellation d) d
    (fun d' => terminal_code d' = Some COORDINATOR_CANCELLED \/ terminal_code d' = Some UNSAFE_RESUME)).
  unfold _cascade_cancellation. steps. apply leads_ask; [done|intros _]. steps.
  apply (leads_bind _ _ _ _ _ (cancel_external_calm d)). intros un _.
  apply (leads_bind _ _ _ _ _ (cancel_children_calm _ 0 d un)). cbn. intros [s1 un'] Hend. cbn in Hend.
  unfold ending in Hend. injection Hend as Hst _.
  set (s2 := s1 ⟪ cancelled := true ⟫ ⟪ cancellation_intent := false ⟫).
  assert (is_terminal s2 = false) as Ht by (unfold is_terminal, s2 in *; cbn; by rewrite Hst).
  assert (forall c reason, leads (_terminalize s2 c reason) d (fun d' => terminal_code d' = Some c)) as Hterm.
  { intros c reason ex e'. unfold _terminalize. rewrite Ht. steps. unfold terminalized.
    destruct (settle_artifact s2 c reason) as [s3 r3]. cbn. by rewrite Hrel. }
  destruct un'; intros ex e'; [left|right]; apply Hterm.
Qed.

(** ** Every save is a move *)

(** [d0] is the state the history started with. *)
Variable d0 : PipelineRunState.
Hypothesis Hwf0 : wf d0.

(** What was executed is one of the attempts begun, and no attempt twice. *)
Definition fresh (d : PipelineRunState) (ex : list (string * Z)) : Prop :=
  NoDup ex /\ forall sid n, (sid, n) ∈ ex -> n <= Z.of_nat (count d sid).

Definition Inv (d : PipelineRunState) (ex : list (string * Z)) : Prop :=
  track d0 d /\ (reliable -> fresh d ex).

(** What a step returns and what is durable agree on the run and on whether it
    is over. *)
Definition fate (s : PipelineRunState) : string * bool := (run_id s, is_terminal s).
Definition truthful (s : PipelineRunState) (d : PipelineRunState) (_ : list (string * Z)) : Prop :=
  reliable -> fate d = fate s.

Lemma only_fate ps s s' : only ps s s' -> PEnding ∉ ps -> fate s' = fate s.
Proof.
  intros Ho Hn. unfold fate. rewrite (only_terminal _ _ _ Ho Hn). destruct Ho as [Hf _]. unfold fixed in Hf. congruence.
Qed.

Abbreviation safe p d ex := (ok Inv p d ex truthful).

Lemma fresh_track d d' ex : fresh d ex -> track d d' -> fresh d' ex.
Proof.
  intros [Hn Hc] Ht. split; [done|]. intros sid n Hin. pose proof (track_count _ _ sid Ht).
  specialize (Hc _ _ Hin). lia.
Qed.

Lemma inv_track d d' ex : Inv d ex -> track d d' -> Inv d' ex.
Proof. intros [Ht Hf] Hd. split; [by eapply track_trans|]. intros Hr. eapply fresh_track; eauto. Qed.

Lemma inv_wf d ex s : Inv d ex -> track d s -> wf s.
Proof. intros [Ht _] Hd. apply (track_wf d0); [|done]. by eapply track_trans. Qed.

Section Walk.
Context (d : PipelineRunState) (ex : list (string * Z)).
Hypothesis Hinv : Inv d ex.

(** A save of a state the run may reach. *)
Lemma ok_saves {A} s (p : prog A) Q :
  track d s ->
  (forall d', track d' s -> Inv d' ex -> (reliable -> d' = s) -> ok Inv p d' ex Q) ->
  ok Inv (Vis (Save s) (fun _ => p)) d ex Q.
Proof.
  intros Ht Hp. apply ok_save; [done| |].
  - apply Hp; [apply track_refl|by eapply inv_track|done].
  - intros Hr. by apply Hp.
Qed.

End Walk.

Lemma settle_arts s c reason s' r : settle_artifact s c reason = (s', r) ->
  only [PArts] s s' /\
  arts s' = (if decide (c = SUCCESS) then artifact s else match safest_artifact s with Some a => Some a | None => artifact s end,
             initial_artifact s, last_good_artifact s).
Proof.
  unfold settle_artifact. intros H. repeat case_match; simplify_eq;
    (split; [first [apply only_refl|solve_only]|unfold arts; cbn; congruence]).
Qed.

Lemma terminalize_ok s0 s c reason d ex :
  Inv d ex -> track d s0 -> live s0 -> only [PCancels; PChildren] s0 s ->
  (c = COORDINATOR_CANCELLED -> cancelled s = true /\ Forall (fun ch => finished_child ch = true) (child_jobs s)) ->
  (c = SUCCESS -> success_ok s0) -> safe (_terminalize s c reason) d ex.
Proof.
  intros Hi Ht Hlive Ho Hcan Hsuc. unfold _terminalize.
  rewrite (only_terminal _ _ _ Ho) by set_solver. unfold live in Hlive. rewrite Hlive.
  unfold terminalized. destruct (settle_artifact s c reason) as [s1 r1] eqn:Hs. apply settle_arts in Hs as [Hs Ha].
  steps. apply ok_saves; [done| |intros d' Ht' Hi' Hd; asks].
  eapply track_move; [exact Ht|]. match goal with |- move _ ?x => set (s' := x) end.
  assert (only [PEnding] s1 s') as He by solve_only.
  pose proof (only_trans _ _ _ _ _ (only_trans _ _ _ _ _ Ho Hs) He) as Hall.
  apply (End _ _ c); [by eapply only_weaken; [exact Hall|set_solver]|done|done|].
  assert (arts s0 = arts s) as Hsame by (apply (only_same _ PArts _ _ Ho); set_solver).
  assert (arts s' = arts s1) as Ha' by done. assert (cancelled s' = cancelled s1 /\ child_jobs s' = child_jobs s1)
    as [Hc' Hch'] by done.
  assert (cancels s = cancels s1) as Hcs by (apply (only_same _ PCancels _ _ Hs); set_solver).
  assert (child_jobs s = child_jobs s1) as Hchs by (apply (only_same _ PChildren _ _ Hs); set_solver).
  clear Hall He Ho Hs. clearbody s'. unfold cancels, arts, safest_artifact in *. simplify_eq.
  unfold end_ok, safest_artifact, arts. destruct c; rewrite ?Hc', ?Hch', <- ?Hchs; cbn in *;
    (split; [|naive_solver congruence]); simplify_eq/=; repeat case_match; congruence.
Qed.

(** *** Moving on *)

Definition smap (s : PipelineRunState) : list (string * data) := stage_map_of (compiled_pipeline s).

Lemma advance_next_ok s map d ex :
  map = smap s -> Inv d ex -> track d s -> live s -> idle s -> accepted s ->
  safe (_advance_to_next_stage s map) d ex.
Proof.
  intros -> Hi Ht Hlive Hidle Hacc. unfold _advance_to_next_stage.
  destruct (pending_stage_ids s) as [|next rest] eqn:Hp; steps.
  2: { apply ok_saves; [done| |intros; asks]. eapply track_move; [exact Ht|].
       apply Leave; [solve_only|done|done|done|congruence|done]. }
  destruct (_first_ready_stage_id s (smap s)) as [next|] eqn:Hf.
  2: { destruct (all_done s) eqn:Had; eapply terminalize_ok; eauto using only_refl; try done.
       intros _. left. by split_and!. }
  destruct (decide _) as [Hc|Hc]; steps.
  { apply ok_saves; [done|done|intros; asks]. }
  pose proof (first_ready_some _ _ Hf) as (st & Hst & Hk & Hr). unfold smap. rewrite Hst.
  apply ok_saves; [done| |intros; asks]. eapply track_move; [exact Ht|].
  apply (Next _ _ next st); [solve_only|done..|]. unfold cursor. cbn. congruence.
Qed.

Lemma handle_qc_ok s sid n st v map d ex :
  map = smap s -> Inv d ex -> track d s -> live s -> idle s -> current_stage_id s = Some sid -> qc s sid ->
  last (atts s sid) = Some (n, st, Some (v_stage_id v, passed v)) -> safe (_handle_qc_result s v map) d ex.
Proof.
  intros -> Hi Ht Hlive Hidle Hc Hqc Hv. unfold _handle_qc_result. steps. apply ok_ask; [done|done|intros _]. steps.
  destruct (passed v) eqn:Hpass.
  - assert (accepted s) as Hacc.
    { intros sid' Hs' _ (n' & x & Hr). rewrite Hc in Hs'. by simplify_eq. }
    destruct (artifact s) as [a|] eqn:Ha; [|by apply advance_next_ok]. steps.
    apply ok_saves; [done| |].
    + eapply track_move; [exact Ht|]. apply (Good _ _ a); [solve_only|done|done|]. unfold arts. cbn. congruence.
    + intros d' Ht' Hi' _. by apply (advance_next_ok (s ⟪ last_good_artifact := Some a ⟫)).
  - destruct (correction_plan s (v_stage_id v)) as [[[loop bound] queue]|] eqn:Hplan.
    2: by eapply terminalize_ok; eauto using only_refl.
    destruct (bound <=? iterations s loop) eqn:Hb; bool_prop; [by eapply terminalize_ok; eauto using only_refl|].
    steps. apply ok_saves; [done| |intros; asks]. eapply track_move; [exact Ht|].
    apply (Loop _ _ sid n st (v_stage_id v) loop bound queue); [solve_only|done..].
Qed.

Lemma handle_failure_ok s st o d ex :
  Inv d ex -> track d s -> live s -> current_stage_id s = Some (stage_id st) ->
  safe (_handle_stage_failure s st o) d ex.
Proof.
  intros Hi Ht Hlive Hc. unfold _handle_stage_failure.
  destruct (mentions _ _); [by eapply terminalize_ok; eauto using only_refl|].
  destruct (max_attempts st) as [bound|t]; steps; [|asks].
  destruct (_ <? bound); [|eapply terminalize_ok; eauto using only_refl; unfold failure_code; by repeat case_match].
  steps. apply ok_saves; [done| |intros; asks]. eapply track_like; [exact Ht|].
  split; [done|]. intros []; try done. cbn. unfold cursor. cbn. congruence.
Qed.

(** *** Cancellation *)

Lemma cascade_ok s d ex : Inv d ex -> track d s -> fate d = fate s -> safe (_cascade_cancellation s) d ex.
Proof.
  intros Hi Ht Hsame. unfold _cascade_cancellation. steps. apply ok_ask; [done|done|intros _]. steps.
  apply ok_bind. eapply ok_mono; [|by apply cancel_external_ok]. cbn. intros un d' ex' [-> ->].
  apply ok_bind. eapply ok_mono; [|apply (cancel_children_ok _ _ _ _ _ _ _ []); try done].
  cbn. intros [s1 un'] d' ex' (-> & -> & Ho & Hun). cbn in *.
  set (s2 := s1 ⟪ cancelled := true ⟫ ⟪ cancellation_intent := false ⟫).
  assert (only [PCancels; PChildren] s s2) as Ho2.
  { eapply only_weaken; [apply (only_trans [PChildren] [PCancels] s s1 s2 Ho); solve_only|set_solver]. }
  pose proof (only_fate _ _ _ Ho2 ltac:(set_solver)) as Hs2.
  destruct (is_terminal s) eqn:Hterm.
  - injection Hs2 as Hrun2 Hterm2. rewrite Hterm in Hterm2.
    destruct un'; (eapply ok_mono; [|by apply terminal_terminalize]); cbn; intros s' d' ex' [-> ->] Hr;
      (etrans; [exact Hsame|]); unfold fate; by rewrite Hterm, <- Hrun2, <- Hterm2.
  - destruct un'; eapply terminalize_ok; eauto; done.
Qed.

Lemma request_ok d ex : Inv d ex -> ok Inv (request_cancellation (run_id d)) d ex (fun _ _ _ => True).
Proof.
  intros Hi. unfold request_cancellation. steps. apply ok_load; [done|intros; asks|asks|].
  steps. destruct (is_terminal d) eqn:Hterm; [asks|]. steps.
  apply ok_save; [done| |intros _; asks].
  assert (Inv (d ⟪ cancellation_intent := true ⟫) ex) as Hi'.
  { apply (inv_track d); [done|]. apply (track_move d d); [apply track_refl|].
    apply Ask; [solve_only|done|done]. }
  cbn. apply ok_ask; [done|done|]. intros []; cbn; asks.
Qed.

(** *** One attempt *)

Lemma reusable_child_ok l d ex :
  Inv d ex -> ok Inv (reusable_child l) d ex (fun _ d' ex' => d' = d /\ ex' = ex).
Proof.
  intros Hi. induction l as [|[i c] l IH]; cbn [reusable_child]; [by apply ok_ret|]. steps.
  apply ok_ask; [done|done|]. intros [rep|t]; [|exact IH]. case_match; [by apply ok_ret|exact IH].
Qed.

(** The result of a call made for an attempt. *)
Definition called (s : PipelineRunState) (r : PipelineRunState * Outcome) (d' : PipelineRunState)
    (ex' : list (string * Z)) : Prop :=
  Inv d' ex' /\ track d' r.1 /\ only [PChildren] s r.1.

Lemma execute_leaf_ok s st key d ex :
  Inv d ex -> track d s -> live s -> ok Inv (_execute_leaf s st key) d ex (called s).
Proof.
  intros Hi Ht Hlive. unfold _execute_leaf. apply ok_bind.
  eapply ok_mono; [|instantiate (1 := fun _ d' ex' => d' = d /\ ex' = ex)].
  2: { destruct (List.find _ _) as [ic|]; [by apply ok_ret|by apply reusable_child_ok]. }
  cbn. intros found d' ex' [-> ->]. apply ok_bind.
  eapply ok_mono; [|instantiate (1 := fun r d' ex' => Inv d' ex' /\ track d' r.1.1 /\ only [PChildren] s r.1.1)].
  2: { destruct found as [[i c]|]; [apply ok_ret; [done|]; split_and!; auto using only_refl|].
       steps. apply ok_ask; [done|done|]. intros [child|t]; [|asks]. cbn.
       apply ok_saves; [done| |].
       - eapply track_move; [exact Ht|]. apply Touch; [solve_only|done].
       - intros d' Ht' Hi' _. apply ok_ret; [done|]. split_and!; [done|done|solve_only]. }
  cbn. intros [[s1 i] child] d' ex' (Hi1 & Ht1 & Ho1). cbn in *. steps.
  apply ok_ask; [done|done|]. intros [rep|t]; [|asks]. cbn. steps.
  apply ok_saves; [done| |].
  - eapply track_move; [exact Ht1|]. apply Touch; [solve_only|].
    assert (ending s = ending s1) as He by (apply (only_same _ PEnding _ _ Ho1); set_solver).
    unfold live, is_terminal, ending in *. by injection He as <- _.
  - intros d'' Ht' Hi' _. apply ok_ret; [done|]. split_and!; [done|done|].
    eapply only_weaken; [apply (only_trans [PChildren] [PChildren] s s1); [done|solve_only]|set_solver].
Qed.

Lemma run_attempt_ok s sid authority key st resuming h d ex :
  Inv d ex -> track d s -> live s ->
  (resuming = false -> reliable -> fresh d (ex ++ [attempt_id st s])) ->
  ok Inv (run_attempt s sid authority key st resuming h) d ex (called s).
Proof.
  intros Hi Ht Hlive Hfr. unfold run_attempt, guarded.
  assert (forall o, called s (s, o) d ex) as Hs by (intros o; split_and!; auto using only_refl).
  destruct (String.eqb authority "external"); [destruct resuming|].
  - destruct h as [h|]; [destruct (str_truthy h)|]; steps; asks_q.
  - steps. apply ok_execute; [done|]. intros x. steps. apply ok_ret; [destruct Hi; split; auto|].
    split_and!; auto using only_refl; destruct Hi; split; auto.
  - destruct (String.eqb authority "leaf"); [by apply execute_leaf_ok|]. steps. asks_q.
Qed.

Lemma finish_attempt_ok s sid st map o d ex :
  map = smap s -> dict_get map sid = Some st -> current_stage_id s = Some sid ->
  is_running s sid = true -> Inv d ex -> track d s -> live s ->
  safe (finish_attempt s sid st map o) d ex.
Proof.
  intros -> Hst Hc Hrun Hi Ht Hlive. apply stage_map_id in Hst as Hid. unfold finish_attempt. steps.
  apply ok_ask; [done|done|]. intros now. steps.
  destruct (record_result s sid st now o) as [[s' o']|t] eqn:Hrec; [|asks]. steps.
  apply running_last in Hrun as (la & a & Ha & Har).
  pose proof (wf_running_last _ _ _ _ (inv_wf _ _ _ Hi Ht) Ha Har) as Hnone.
  pose proof (record_result_recorded _ _ _ _ _ _ _ _ _ Hrec Ha) as (a' & R & (Hnum & Hvor & Hst') & Hverd).
  pose proof (rec_only _ _ _ _ _ R) as Ho.
  assert (move s s') as Hm.
  { apply (Record _ _ sid (att <$> la) (attempt a) (at_status a') (att a').2); try done.
    - unfold atts. rewrite Ha, fmap_app. cbn. unfold att. by rewrite Har, Hnone.
    - unfold atts. rewrite (rec_attempts _ _ _ _ _ R), fmap_app. cbn. unfold att. by rewrite Hnum.
    - naive_solver.
    - intros x Hne. unfold atts. by rewrite (rec_others _ _ _ _ _ R).
    - apply R.
    - apply R.
    - apply R. }
  assert (live s') as Hlive'.
  { assert (ending s = ending s') as He by (apply (only_same _ PEnding _ _ Ho); set_solver).
    unfold live, is_terminal, ending in *. by injection He as <- _. }
  assert (current_stage_id s' = Some sid) as Hc'.
  { assert (cursor s = cursor s') as He by (apply (only_same _ PCursor _ _ Ho); set_solver).
    unfold cursor in He. congruence. }
  assert (smap s = smap s') as Hmap by (unfold smap; by rewrite (like_pipeline _ _ _ Ho)).
  assert (idle s') as Hidle.
  { intros sid' Hsid'. rewrite Hc' in Hsid'. simplify_eq. unfold is_running.
    rewrite (latest_of _ _ _ _ (rec_attempts _ _ _ _ _ R)).
    by destruct Hst' as [[-> _]|[-> _]]. }
  apply ok_saves; [done|by eapply track_move|]. intros d' Ht' Hi' _. unfold after_result.
  assert (last (atts s' sid) = Some (att a')) as Hlast.
  { unfold atts. by rewrite fmap_last, (rec_attempts _ _ _ _ _ R), last_snoc. }
  destruct (String.eqb (o_status o') "failed"); [by apply handle_failure_ok; rewrite ?Hid|].
  destruct (o_verdict o') as [v|] eqn:Hv; [destruct (String.eqb_spec (stage_kind st) "qc") as [Hk|Hk]|].
  - eapply (handle_qc_ok s' sid); auto; [exists st; split; [|done]; by rewrite Hmap in Hst|].
    rewrite Hlast. unfold att. by rewrite Hverd.
  - apply advance_next_ok; auto. intros x Hx [st' [Hqc Hk']]. rewrite Hc' in Hx. simplify_eq.
    unfold smap in *. congruence.
  - apply advance_next_ok; auto. intros x Hx _ (n & y & Hr). rewrite Hc' in Hx. injection Hx as <-.
    rewrite Hlast in Hr. unfold att in Hr. destruct Hvor as [Hvor|Hvor]; rewrite Hvor, ?Hnone in Hr; done.
Qed.

Lemma finish_waiting_ok s sid authority st map o d ex :
  map = smap s -> dict_get map sid = Some st -> current_stage_id s = Some sid ->
  is_running s sid = true -> Inv d ex -> track d s -> live s ->
  safe (finish_waiting s sid authority st map o) d ex.
Proof.
  intros -> Hst Hc Hrun Hi Ht Hlive. unfold finish_waiting. destruct (String.eqb authority "external").
  - destruct (_provider_handle (o_handle o)) as [handle|t]; [|by apply finish_attempt_ok]. steps.
    apply ok_saves; [done| |intros; asks]. eapply track_like; [exact Ht|]. by apply set_last_like.
  - steps. apply ok_saves; [done|done|intros; asks].
Qed.

(** *** One step *)

Lemma materialized_id st s st' : _materialize_stage_inputs st s = Ok st' -> stage_id st' = stage_id st.
Proof.
  unfold _materialize_stage_inputs. intros H. repeat case_match; simplify_eq; try done.
  destruct (resolve_bindings s _ _); [|done]. cbn in H. simplify_eq. unfold stage_id, get_str.
  by rewrite dict_get_set.
Qed.

(** The attempt just begun was not executed before. *)
Lemma begun_fresh d s s1 st sid ex :
  fresh d ex -> track d s -> count s1 sid = S (count s sid) -> stage_id st = sid ->
  track d s1 -> fresh s1 (ex ++ [attempt_id st s1]).
Proof.
  intros Hf Ht Hcount <- Ht1. pose proof (fresh_track _ _ _ Hf Ht) as [Hn Hle].
  pose proof (fresh_track _ _ _ Hf Ht1) as [_ Hle1]. unfold attempt_id. rewrite <- count_attempts. split.
  - apply NoDup_app. split_and!; [done| |apply NoDup_singleton].
    intros [x n] Hin ?%list_elem_of_singleton. simplify_eq. specialize (Hle _ _ Hin). lia.
  - intros x n [Hin|?%list_elem_of_singleton]%elem_of_app; [auto|]. by simplify_eq.
Qed.

(** A state whose children alone changed. *)
Lemma only_children s s' : only [PChildren] s s' ->
  smap s' = smap s /\ current_stage_id s' = current_stage_id s /\
  (forall sid, is_running s' sid = is_running s sid) /\ (live s -> live s').
Proof.
  intros Ho. assert (forall p, p <> PChildren -> same p s s') as H.
  { intros p Hp. apply (only_same _ _ _ _ Ho). set_solver. }
  pose proof (H PCursor ltac:(done)) as Hc. pose proof (H PEnding ltac:(done)) as He.
  pose proof (H PAttempts ltac:(done)) as Ha. cbn in *. unfold cursor, ending in *. split_and!.
  - unfold smap. by rewrite (like_pipeline _ _ _ Ho).
  - congruence.
  - intros sid. unfold is_running. by rewrite (like_latest s s').
  - unfold live, is_terminal. by injection He as -> _.
Qed.

Lemma call_ok s sid authority key st map resuming h d ex :
  map = smap s -> dict_get map sid = Some st -> current_stage_id s = Some sid -> is_running s sid = true ->
  Inv d ex -> track d s -> live s ->
  (forall st', stage_id st' = sid -> resuming = false -> reliable -> fresh d (ex ++ [attempt_id st' s])) ->
  safe ('(s2, o) ← match _materialize_stage_inputs st s with
                   | Err t => Ret (s, no_outcome "failed" (Some ("binding_resolution_failed: " +:+ t)))
                   | Ok st' => run_attempt s sid authority key st' resuming h
                   end;
        if is_waiting o then finish_waiting s2 sid authority st map o
        else finish_attempt s2 sid st map o) d ex.
Proof.
  intros -> Hst Hc Hrun Hi Ht Hlive Hfr. apply ok_bind.
  apply (ok_mono _ _ _ _ (called s)).
  - intros [s2 o] d' ex' (Hi' & Ht' & Ho). pose proof (only_children _ _ Ho) as (Hm & Hcur & Hr & Hl).
    cbn in *. destruct (is_waiting o); [apply finish_waiting_ok|apply finish_attempt_ok];
      rewrite ?Hcur, ?Hr; auto.
  - destruct (_materialize_stage_inputs st s) as [st'|t] eqn:Hmat.
    + apply run_attempt_ok; auto. intros Hres. apply Hfr; [|done]. rewrite (materialized_id _ _ _ Hmat).
      by apply stage_map_id in Hst.
    + apply ok_ret; [done|]. split_and!; auto using only_refl; destruct Hi; done.
Qed.

Lemma run_stage_ok s sid st map authority d ex :
  map = smap s -> dict_get map sid = Some st -> current_stage_id s = Some sid ->
  Inv d ex -> track d s -> live s -> safe (run_stage sha256_hex s sid st map authority) d ex.
Proof.
  intros Hmap Hst Hc Hi Ht Hlive. unfold run_stage. destruct (is_running s sid) eqn:Hrun.
  - set (s1 := set_last_attempt s sid _).
    assert (like s s1) as Hl by by apply set_last_like.
    pose proof (only_children _ _ (only_weaken _ _ _ _ Hl (list_subseteq_nil _))) as (Hm & Hcur & Hr & Hl').
    steps. apply (call_ok s1); rewrite ?Hcur, ?Hr, ?Hm; auto; [by eapply track_like|done].
  - set (n := match last _ with Some _ => _ | None => 1 end). set (key := py_or _ _). clearbody key.
    set (s1 := with_attempts s sid _).
    assert (count s1 sid = S (count s sid)) as Hcount.
    { rewrite !count_attempts. unfold s1. rewrite attempts_with, decide_True, length_app by done. cbn. lia. }
    assert (n = Z.of_nat (count s sid) + 1) as Hn.
    { unfold n. rewrite count_attempts. destruct (last (attempts_of s sid)) eqn:Hl; [done|].
      apply last_None in Hl. by rewrite Hl. }
    assert (atts s1 sid = atts s sid ++ [(n, RUNNING, None)]) as Hatts.
    { unfold atts, s1. by rewrite attempts_with, decide_True, fmap_app by done. }
    assert (track d s1) as Ht1.
    { eapply track_move; [exact Ht|]. apply (Begin _ _ sid); [apply with_attempts_only|done| |done|done| |].
      - subst map. by exists st.
      - rewrite Hatts, Hn. done.
      - intros o Ho. unfold atts, s1. by rewrite attempts_with, decide_False by done. }
    assert (is_running s1 sid = true) as Hrun1.
    { unfold is_running. rewrite latest_atts, Hatts, last_snoc. done. }
    assert (live s1) as Hlive1 by done. assert (smap s1 = smap s) as Hm by done.
    assert (current_stage_id s1 = Some sid) as Hc1 by done. clearbody s1. steps.
    apply ok_saves; [done|done|]. intros d' Ht' Hi' Hd'. apply ok_ask; [done|done|intros _].
    apply (call_ok s1); auto; [congruence|]. intros st' Hid _ Hrel. rewrite Hd' by done.
    destruct Hi as [_ Hf]. by eapply (begun_fresh d s s1 st' sid ex (Hf Hrel)).
Qed.

Lemma run_current_ok s d ex :
  Inv d ex -> track d s -> live s ->
  pending_stage_ids s = [] \/ is_running s (default "" (current_stage_id s)) = true \/
    (exists sid, current_stage_id s = Some sid /\ known s sid) ->
  safe (run_current sha256_hex s (smap s)) d ex.
Proof.
  intros Hi Ht Hlive Hp. unfold run_current.
  destruct (current_stage_id s) as [sid|] eqn:Hc.
  2: { eapply terminalize_ok; eauto using only_refl; [done|]. intros _. right. rewrite Hc in *.
       naive_solver. }
  destruct (dict_get (smap s) sid) as [st|] eqn:Hst.
  2: { eapply terminalize_ok; eauto using only_refl; [done|]. intros _. right. rewrite Hc in *.
       assert (~ known s sid) as Hk by (intros [st' Hst']; unfold smap in Hst; congruence). naive_solver. }
  steps. apply ok_ask; [done|done|]. intros [authority|t]; [|asks].
  pose proof (ensure_like s sid) as Hl. set (s1 := ensure_attempts s sid) in *.
  pose proof (only_children _ _ (only_weaken _ _ _ _ Hl (list_subseteq_nil _))) as (Hm & Hcur & Hr & Hl').
  assert (track d s1) as Ht1 by by eapply track_like. clearbody s1. steps.
  destruct (settled_before s1 sid) eqn:Hs.
  - destruct (settled_before_ok s1 sid Hs) as [? ?]; [congruence|]. apply advance_next_ok; auto.
  - apply run_stage_ok; rewrite ?Hcur; auto.
Qed.

Lemma advance_live_ok s d ex :
  Inv d ex -> track d s -> live s -> safe (advance_live sha256_hex s) d ex.
Proof.
  intros Hi Ht Hlive. unfold advance_live.
  destruct (pending_stage_ids s) as [|next rest] eqn:Hp; [by apply run_current_ok; auto|].
  destruct (is_running s (default "" (current_stage_id s))) eqn:Hrun; [by apply run_current_ok; auto|].
  assert (idle s) as Hidle by (intros sid Hsid; by rewrite Hsid in Hrun).
  destruct (dict_get _ next) as [st|] eqn:Hst.
  - set (s' := s ⟪ current_stage_id := Some next ⟫ ⟪ pending_stage_ids := rest ⟫ ⟪ cursor_note := correction_note s ⟫).
    apply (ok_saves d ex Hi s' (run_current sha256_hex s' (smap s'))).
    + eapply track_move; [exact Ht|]. apply (Pop _ _ next rest); [solve_only|done..|]. left. split; [by exists st|done].
    + intros d' Ht' Hi' _. apply run_current_ok; try done. right; right. exists next. by split; [|exists st].
  - steps. apply ok_saves; [done| |intros; asks]. eapply track_move; [exact Ht|].
    apply (Pop _ _ next rest); [solve_only|done..|]. right. split; [|done]. intros [st Hst']. congruence.
Qed.

Lemma advance_ok d ex : Inv d ex -> safe (advance sha256_hex d) d ex.
Proof.
  intros Hi. unfold advance. steps. apply ok_load; [done|intros; asks| |]; steps; cbn [from_option]; unfold id;
    (destruct (cancellation_intent d && negb (cancelled d)); [by apply cascade_ok; auto using track_refl|]);
    (destruct (is_terminal d) eqn:Hterm; [asks|]); apply advance_live_ok; auto using track_refl.
Qed.

(** ** Histories are runs of the machine *)

Lemma act_inv a w : Inv (durable w) (executed w) -> Inv (durable (do_act a w)) (executed (do_act a w)).
Proof.
  intros Hi. destruct w as [d ex e], a as [n|n]; cbn;
    (eapply (ok_sound Inv); first [by apply advance_ok|by apply request_ok]).
Qed.

Lemma play_inv acts w : Inv (durable w) (executed w) -> Inv (durable (play acts w)) (executed (play acts w)).
Proof. revert w. induction acts as [|a acts IH]; intros w Hi; [done|]. cbn. by apply IH, act_inv. Qed.

End Histories.

(** ** The properties of histories *)

Section Properties.
Context (sha256_hex : string -> string) {E : Type} (provider : forall X, op X -> E -> X * E).
Context (parent run : string) (compiled params : data) (s0 : PipelineRunState).
Hypothesis Hsubmitted : submitted_state parent run compiled params = Ok s0.

(** The world after a history of the submitted run. *)
Definition after (acts : list act) (e : E) : World := play sha256_hex provider acts (mkWorld s0 [] e).

Lemma submitted_start : stage_attempts s0 = [] /\ loop_iterations s0 = [] /\ correction_count s0 = 0 /\
  terminal_code s0 = None /\ status s0 = Run_running /\ pending_stage_ids s0 = [].
Proof.
  unfold submitted_state in Hsubmitted. destruct (sanitize_dict "$" params); [|done].
  destruct (sanitize_dict "$" compiled); [|done]. cbn in Hsubmitted. by simplify_eq.
Qed.

Lemma submitted_atts sid : atts s0 sid = [].
Proof. destruct submitted_start as [Ha _]. unfold atts, attempts_of. by rewrite Ha. Qed.

Lemma submitted_wf : wf s0.
Proof.
  intros sid. rewrite submitted_atts. split; [by split|]. by intros (i & n & v & Hi).
Qed.

Lemma submitted_ended : ended_ok s0.
Proof. destruct submitted_start as (_ & _ & _ & Ht & Hs & _). unfold ended_ok. by rewrite Ht. Qed.

(** What the run can become. *)
Lemma lawful_wf s : track s0 s -> wf s.
Proof. intros Ht. eapply track_wf; [exact Ht|apply submitted_wf]. Qed.

Lemma lawful_loops s : track s0 s -> loops_ok s.
Proof.
  intros Ht. apply (track_ind loops_ok s0); [apply move_loops| |exact Ht|].
  - intros x y Hl. by apply (only_loops [] x y Hl), not_elem_of_nil.
  - destruct submitted_start as (_ & Hl0 & Hc & _). split; unfold iterations; rewrite ?Hl0; cbn;
      [constructor|done|by left].
Qed.

Lemma lawful_ended s : track s0 s -> ended_ok s.
Proof. intros Ht. apply (track_ind ended_ok s0); [apply move_ended|apply like_ended|exact Ht|apply submitted_ended]. Qed.

Lemma after_inv acts e : Inv provider s0 (durable (after acts e)) (executed (after acts e)).
Proof.
  apply play_inv; [apply submitted_wf|]. split; [apply track_refl|]. intros _. split; [constructor|set_solver].
Qed.

Lemma after_track acts e : track s0 (durable (after acts e)).
Proof. apply after_inv. Qed.


(** In every durable state of every history the attempts of each stage are
    numbered 1, 2, ... in order, all but the last are over, one in flight has
    no verdict, and the only stage that may be in flight is the one at the
    cursor. *)
Theorem one_attempt_in_flight acts e : wf (durable (after acts e)).
Proof. apply lawful_wf, after_track. Qed.

(** C11. The quality loop is bounded: in every history each loop's rounds stay
    within the bound its plan declares, a loop no plan names is never entered,
    and the correction count is the sum of the rounds. *)
Theorem corrections_bounded acts e : loops_ok (durable (after acts e)).
Proof. apply lawful_loops, after_track. Qed.

(** C10. How a run ends: it has a terminal code exactly when its status is not
    running, with the status that goes with the code; it ends as cancelled
    only when every child job was stopped or had finished; and a run that ends
    otherwise than in success shows the last artifact that passed its quality
    check, or else the first one generated, when it has one. *)
Theorem endings_truthful acts e : ended_ok (durable (after acts e)).
Proof. apply lawful_ended, after_track. Qed.


End Properties.

(** ** A pipeline *)

Module Demo.

Definition stage (id kind : string) (deps : list string) : value :=
  PDict [("id", PStr id); ("kind", PStr kind); ("depends_on", PList (PStr <$> deps))].

Definition loop (queue : list string) : value :=
  PDict [("id", PStr "loop"); ("trigger_stage_id", PStr "q"); ("correction_stage_id", PStr "fix");
         ("max_iterations", PInt 2); ("on_correction", PList (PStr <$> queue))].

(** Generate, judge, and correct what is rejected. *)
Definition plan (queue : list string) : data :=
  [("pipeline_id", PStr "p"); ("revision_hash", PStr "r");
   ("stages", PList [stage "g" "generate" []; stage "q" "qc" ["g"]; stage "fix" "correct" []]);
   ("loops", PList [loop queue])].

Definition started (queue : list string) : PipelineRunState :=
  match submitted_state "job" "run" (plan queue) [] with Ok s => s | Err _ => mkRunState "" "" "" ""
    Run_failed None None [] [] [] [] [] 0 0 [] [] None None None false false [] None None 0 end.

(** The outside: stages run externally and end as [f] says, and what is not
    asked of it fails; its state is what executors have run. *)
Definition answers (f : string -> nat -> Outcome) {X} (o : op X) : X :=
  match o in op X return X with
  | Load _ => Ok (Some (started []))
  | Save _ => true
  | Event _ _ _ => true
  | Now => "now"
  | Resolve _ => Ok "external"
  | Execute st s _ => Ok (f (stage_id st) (length (attempts_of s (stage_id st))))
  | Poll _ _ _ _ => Err "no poll"
  | ExternalCancel _ _ => Ok true
  | LeafSubmit _ _ _ _ _ => Err "no leaf"
  | LeafPoll _ => Err "no leaf"
  | LeafCancel _ => Ok true
  | Requeue _ => true
  | SubmitParent _ => true
  end.

Definition outside_of (f : string -> nat -> Outcome) : forall X, op X -> unit -> X * unit :=
  fun X o e => (answers f o, e).

Definition produced : Outcome := mkOutcome "completed" (PDict []) None None PNone
  [("path_or_url", PStr "/out"); ("sha256", PStr "00")].
Definition judged_as (b : bool) : Outcome :=
  mkOutcome "completed" (PDict []) None (Some (mkQCVerdict "q" b "" None "now")) PNone [].

(** The first image is rejected. *)
Definition second_passes (sid : string) (n : nat) : Outcome :=
  if String.eqb sid "q" then judged_as (1 <? n)%nat else produced.

Definition history (queue : list string) (f : string -> nat -> Outcome) (acts : list act) : World :=
  after (fun s => s) (outside_of f) (started queue) acts ().

Definition ticks (n : nat) : list act := repeat (Tick 100) n.

(** A rejected image is corrected and judged again, and the run succeeds. *)
Example corrected_and_accepted :
  let w := history ["g"; "q"] second_passes (ticks 9) in
  terminal_code (durable w) = Some SUCCESS /\ correction_count (durable w) = 1 /\
  executed w = [("g", 1); ("q", 1); ("fix", 1); ("g", 2); ("q", 2)].
Proof. vm_compute. done. Qed.

Lemma demo_reliable f : reliable (outside_of f).
Proof. done. Qed.

(** The demonstration's plan satisfies the conditions of [success_is_earned]. *)
Lemma demo_plans : plans_ok (started ["g"; "q"]).
Proof.
  intros sid loop bound queue (st & Hst & Hk) Hp.
  assert (sid = "q") as ->.
  { apply dict_in_get in Hst. revert Hst. vm_compute. intros Hst.
    repeat (apply elem_of_cons in Hst as [[= -> ->]|Hst]; [by vm_compute in Hk|]). set_solver. }
  vm_compute in Hp. simplify_eq. split.
  - repeat constructor; by eexists.
  - exists ["fix"; "g"]. split; [done|].
    repeat constructor; intros (st' & Hst' & Hk'); vm_compute in Hst'; simplify_eq; by vm_compute in Hk'.
Qed.

Lemma demo_named :
  named (durable (after (fun s => s) (outside_of second_passes) (started ["g"; "q"]) (ticks 9) ())).
Proof.
  intros sid i n st x b. destruct (decide (sid = "q")) as [->|Hne].
  - vm_compute (atts _ _). intros Hi. do 2 (destruct i as [|i]; [by simplify_eq/=|]). done.
  - intros Hi. exfalso. revert Hi. unfold atts, attempts_of.
    destruct (dict_get (stage_attempts _) sid) as [l|] eqn:Hg; [|done]. apply dict_in_get in Hg.
    revert Hg. vm_compute (stage_attempts _). intros Hg Hi.
    repeat (apply elem_of_cons in Hg as [[= -> ->]|Hg]; [try done; do 2 (destruct i as [|i]; [done|]); done|]). set_solver.
Qed.


Theorem one_attempt_in_flight_witness :
  wf (durable (history ["g"; "q"] second_passes (ticks 3))).
Proof.
  apply (one_attempt_in_flight (fun s => s) (outside_of second_passes) "job" "run" (plan ["g"; "q"]) []
    (started ["g"; "q"]) ltac:(by vm_compute) (ticks 3) ()).
Defined.

(** A loop that never satisfies its judge stops at its bound. *)
Theorem corrections_bounded_witness :
  loops_ok (durable (history ["g"; "q"] (fun sid n => if String.eqb sid "q" then judged_as false else produced) (ticks 30))) /\
  correction_count (durable (history ["g"; "q"] (fun sid n => if String.eqb sid "q" then judged_as false else produced)
    (ticks 30))) = 2.
Proof.
  split; [|by vm_compute].
  apply (corrections_bounded (fun s => s) (outside_of _) "job" "run" (plan ["g"; "q"]) []
    (started ["g"; "q"]) ltac:(by vm_compute) (ticks 30) ()).
Defined.

Theorem endings_truthful_witness :
  ended_ok (durable (history ["g"; "q"] second_passes [Tick 100; Cancel 4; Tick 100])) /\
  terminal_code (durable (history ["g"; "q"] second_passes [Tick 100; Cancel 4; Tick 100])) = Some COORDINATOR_CANCELLED.
Proof.
  split; [|by vm_compute].
  apply (endings_truthful (fun s => s) (outside_of second_passes) "job" "run" (plan ["g"; "q"]) []
    (started ["g"; "q"]) ltac:(by vm_compute) [Tick 100; Cancel 4; Tick 100] ()).
Defined.


Theorem ended_is_final_witness :
  durable (play (fun s => s) (outside_of second_passes) [Cancel 5; Tick 100; Tick 7]
    (history ["g"; "q"] second_passes (ticks 9))) = durable (history ["g"; "q"] second_passes (ticks 9)) /\
  executed (play (fun s => s) (outside_of second_passes) [Cancel 5; Tick 100; Tick 7]
    (history ["g"; "q"] second_passes (ticks 9))) = executed (history ["g"; "q"] second_passes (ticks 9)).
Proof.
  apply (ended_is_final (fun s => s) (outside_of second_passes)). by vm_compute.
Defined.

Definition asked : PipelineRunState := durable (history ["g"; "q"] second_passes [Tick 100; Cancel 4]).

Theorem cancellation_takes_effect_witness :
  let d' := durable (run_all (handle (outside_of second_passes)) (advance (fun s => s) asked) (mkWorld asked [] ())).2 in
  terminal_code d' = Some COORDINATOR_CANCELLED \/ terminal_code d' = Some UNSAFE_RESUME.
Proof.
  apply (cancellation_takes_effect (fun s => s) (outside_of second_passes) asked [] ());
    [done|by intros; eexists|by vm_compute..].
Defined.

(** *** What the conditions are for *)

(** A correction that does not judge again ends in success, and keeps the
    failing verdict. *)
Example rejected_but_successful :
  let w := history ["g"] (fun sid n => if String.eqb sid "q" then judged_as false else produced) (ticks 9) in
  terminal_code (durable w) = Some SUCCESS /\
  (qc_verdict <$> last (attempts_of (durable w) "q")) = Some (Some (mkQCVerdict "q" false "" None "now")) /\
  executed w = [("g", 1); ("q", 1); ("fix", 1); ("g", 2)].
Proof. by vm_compute. Qed.

(** A status that is neither completed, failed nor waiting is retried for
    ever, whatever the bound on attempts. *)
Example unknown_status_never_ends :
  let w := history ["g"] (fun _ _ => no_outcome "cancelled" None) (ticks 40) in
  is_terminal (durable w) = false /\ executed w = (fun n => ("g", Z.of_nat n)) <$> seq 1 40.
Proof. by vm_compute. Qed.

(** When saves fail unnoticed, an attempt is executed again. *)
Definition unsaved : forall X, op X -> unit -> X * unit :=
  fun X o e => match o in op X return X * unit with Save _ => (false, e) | o' => (answers second_passes o', e) end.

Example executed_again_when_unsaved :
  executed (after (fun s => s) unsaved (started ["g"; "q"]) (ticks 2) ()) = [("g", 1); ("g", 1)].
Proof. by vm_compute. Qed.

(** An outcome that cannot be persisted, from a leaf: every tick raises and
    none changes the run. *)
Definition leaf_blob : forall X, op X -> unit -> X * unit :=
  fun X o e => match o in op X return X * unit with
  | Resolve _ => (Ok "leaf", e)
  | LeafSubmit _ _ _ _ _ => (Ok "child", e)
  | LeafPoll _ => (Ok (mkLeafReport "completed" (PDict [("base64", PStr "")]) None None []), e)
  | o' => (answers second_passes o', e)
  end.

Definition stuck (n : nat) : PipelineRunState :=
  durable (after (fun s => s) leaf_blob (started ["g"; "q"]) (ticks n) ()).

Example unsaved_output_stuck : stuck 40 = stuck 2 /\ is_terminal (stuck 2) = false.
Proof. split; by vm_compute. Qed.

(** *** A request during a tick *)

(** The first save of a tick, after the request's, takes the request back: it
    was acknowledged, and the run goes on to succeed. *)
Example request_lost_in_a_tick :
  let tick := advance (fun s => s) (started ["g"; "q"]) in
  let '(_, answer, w) := both (handle (outside_of second_passes)) ([true; true] ++ repeat false 4 ++ repeat true 100)
                        tick (request_cancellation "run") (mkWorld (started ["g"; "q"]) [] ()) in
  answer = Ret true /\
  terminal_code (durable (play (fun s => s) (outside_of second_passes) (ticks 9) w)) = Some SUCCESS.
Proof. by vm_compute. Qed.

(** A request that loaded before a tick, and saves after it, takes the tick's
    progress back: the attempt is executed again. *)
Example tick_lost_in_a_request :
  let tick := advance (fun s => s) (started ["g"; "q"]) in
  let '(_, answer, w) := both (handle (outside_of second_passes)) ([false] ++ repeat true 100 ++ repeat false 4)
                        tick (request_cancellation "run") (mkWorld (started ["g"; "q"]) [] ()) in
  answer = Ret true /\ executed w = [("g", 1)] /\ attempts_of (durable w) "g" = [].
Proof. by vm_compute. Qed.

End Demo.
