(* ===== verification/CoordinatorStore.v ===== *)
(** * CoordinatorStore: the durable queue of parent runs

    Models [RedisCoordinatorStore] of [scripts/pipeline_coordinator.py] and
    [ControllerPipelineRuntime] of [scripts/gpu_manager_pipeline_runtime.py]:
    state hashes, the parent stream with its consumer group and pending list,
    the process's memory of what it claimed, and the loop body [process_one].
    Redis streams are a parameter with laws ([Streams], [StreamLaws]).  Each
    Redis command is one operation, so a method can be cut between two of
    them; a command may be refused, or take effect unheard.  Hashes hold run
    states (the field codec is left out). *)

From S2P Require Import Prelude PyValue PyText Programs Coordinator.

(** ** Streams *)

(** A stream entry id: milliseconds and sequence number. *)
Abbreviation eid := (Z * Z)%type.

Definition eid_leb (a b : eid) : bool := (a.1 <? b.1) || ((a.1 =? b.1) && (a.2 <=? b.2)).
Definition eid_le (a b : eid) : Prop := eid_leb a b = true.
#[export] Instance eid_le_dec : RelDecision eid_le.
Proof. intros a b. unfold eid_le. apply _. Defined.

(** One stream and its consumer group.  An entry carries the text of its
    [run_id] field; [waiting] are the entries not delivered yet, [pending] the
    delivered ones that were not acknowledged, with their owners. *)
Class Streams (S : Type) := {
  entries : S -> list (eid * string);
  waiting : S -> list (eid * string);
  pending : S -> list (eid * string);
  xadd : S -> string -> eid * S;
  xreadgroup : S -> string -> option (eid * string) * S;
  xpending : S -> list (eid * string * Z);
  xrange : S -> eid -> list (eid * string);
  xclaim : S -> string -> eid -> Z -> list (eid * string) * S;
  xack : S -> list eid -> Z * S;
  elapse : S -> Z -> S }.

(** What the commands do, as documented. *)
Class StreamLaws (S : Type) `{Streams S} := {
  entries_nodup s : NoDup (entries s).*1;
  waiting_entries s x : x ∈ waiting s -> x ∈ entries s;
  pending_entries s i c : (i, c) ∈ pending s -> i ∈ (entries s).*1;
  xadd_entries s r : entries (xadd s r).2 = entries s ++ [((xadd s r).1, r)];
  xadd_waiting s r : waiting (xadd s r).2 = waiting s ++ [((xadd s r).1, r)];
  xadd_pending s r : pending (xadd s r).2 = pending s;
  xreadgroup_entries s c : entries (xreadgroup s c).2 = entries s;
  xreadgroup_none s c : waiting s = [] ->
    (xreadgroup s c).1 = None /\ waiting (xreadgroup s c).2 = [] /\ pending (xreadgroup s c).2 = pending s;
  xreadgroup_some s c x w : waiting s = x :: w ->
    (xreadgroup s c).1 = Some x /\ waiting (xreadgroup s c).2 = w /\
    forall y, y ∈ pending (xreadgroup s c).2 <-> y = (x.1, c) \/ y ∈ pending s;
  xpending_pending s i c t : (i, c, t) ∈ xpending s -> (i, c) ∈ pending s;
  xrange_entry s i x : x ∈ xrange s i <-> x ∈ entries s /\ x.1 = i;
  xclaim_entries s c i t : entries (xclaim s c i t).2 = entries s;
  xclaim_waiting s c i t : waiting (xclaim s c i t).2 = waiting s;
  xclaim_pending s c i t j : j ∈ (pending (xclaim s c i t).2).*1 <-> j ∈ (pending s).*1;
  xclaim_reply s c i t x : x ∈ (xclaim s c i t).1 -> x ∈ entries s /\ x.1 = i;
  xack_entries s l : entries (xack s l).2 = entries s;
  xack_waiting s l : waiting (xack s l).2 = waiting s;
  xack_pending s l y : y ∈ pending (xack s l).2 <-> y ∈ pending s /\ y.1 ∉ l;
  elapse_entries s t : entries (elapse s t) = entries s;
  elapse_waiting s t : waiting (elapse s t) = waiting s;
  elapse_pending s t : pending (elapse s t) = pending s }.

(** ** Operations *)

(** [Coord] are the coordinator's own calls; the other constructors are the
    store's commands and its memory. *)
Inductive qop : Type -> Type :=
  | Coord {X} (o : op X) : qop X
  | ReadGroup : qop (result string (option (eid * string)))
  | Remember (run : string) (i : eid) : qop unit
  | PendingRange : qop (result string (list (eid * string * Z)))
  | Range (i : eid) : qop (result string (list (eid * string)))
  | Claim (i : eid) : qop (result string (list (eid * string)))
  | Ack (ids : list eid) : qop (result string Z)
  | AckParent (run : string) : qop bool.

Abbreviation qprog := (program qop).

(** A coordinator's program over the store. *)
Definition coord {A} (p : prog A) : qprog A := embed (fun X => @Coord X) p.

(** ** The store's methods *)

Definition RECLAIM_MIN_IDLE_MS : Z := 30000.

(** A stream field, raw or in a legacy JSON string. *)
Definition _decode_stream_field (s : string) : string :=
  match String.list_ascii_of_string s with
  | c :: _ => if Ascii.eqb c dquote then default s (json_string s) else s
  | [] => s
  end.

Definition run_of (raw : string) : string := if str_truthy raw then _decode_stream_field raw else "".

Definition failing {A} (text : string) (r : result string A) : qprog A :=
  match r with Ok a => Ret a | Err t => Raise (text +:+ t) end.

Definition load_state (run : string) : qprog (option PipelineRunState) := require (Coord (Load run)).

Definition dequeue_parent : qprog (option PipelineRunState) :=
  r ← perform ReadGroup;
  got ← failing "dequeue_parent: Redis XREADGROUP failed: " r;
  match got with
  | None => Ret None
  | Some (i, raw) =>
      let run := run_of raw in
      if str_truthy run then
        perform (Remember run i);;
        s ← load_state run;
        match s with
        | None => Raise ("dequeue_parent: claimed parent " +:+ py_repr_str run +:+ " has no durable state")
        | Some s => Ret (Some s)
        end
      else Raise ("dequeue_parent: claimed stream entry has no run_id; "
                  +:+ "leave it recoverable instead of treating it as idle")
  end.

Definition recovery_failed : string := "reclaim_orphaned_parents: Redis PEL recovery failed: ".

Definition add_entry (by_run : list (string * list eid)) (x : eid * string) : list (string * list eid) :=
  let run := run_of x.2 in
  if str_truthy run then dict_set by_run run (default [] (dict_get by_run run) ++ [x.1]) else by_run.

(** The recoverable entries, by run. *)
Fixpoint collect_orphans (consumer : string) (items : list (eid * string * Z)) (by_run : list (string * list eid))
    : qprog (list (string * list eid)) :=
  match items with
  | [] => Ret by_run
  | (i, owner, idle) :: items' =>
      messages ← (if String.eqb owner consumer then r ← perform (Range i); failing recovery_failed r
                  else if RECLAIM_MIN_IDLE_MS <=? idle then r ← perform (Claim i); failing recovery_failed r
                  else Ret []);
      collect_orphans consumer items' (fold_left add_entry messages by_run)
  end.

(** [sorted(set(ids), key=stream_id_key)] *)
Definition in_order (ids : list eid) : list eid := merge_sort eid_le (dict_fromkeys ids).

(** Each run once; all but its newest entry are acknowledged. *)
Fixpoint recover (runs : list string) (by_run : list (string * list eid)) (results : list PipelineRunState)
    : qprog (list PipelineRunState) :=
  match runs with
  | [] => Ret results
  | run :: runs' =>
      let ids := in_order (default [] (dict_get by_run run)) in
      match last ids with
      | None => Raise (recovery_failed +:+ "list index out of range")
      | Some retained =>
          let duplicates := take (length ids - 1) ids in
          (match duplicates with
           | [] => Ret ()
           | _ => r ← perform (Ack duplicates);
                  acked ← failing recovery_failed r;
                  if acked =? Z.of_nat (length duplicates) then Ret ()
                  else Raise ("reclaim_orphaned_parents: failed to ACK all duplicate PEL entries for "
                              +:+ py_repr_str run)
           end);;
          s ← load_state run;
          match s with
          | None => Raise ("reclaim_orphaned_parents: state " +:+ py_repr_str run +:+ " found in PEL "
                           +:+ "but load_state returned None; data inconsistency detected")
          | Some s => perform (Remember run retained);; recover runs' by_run (results ++ [s])
          end
      end
  end.

Definition reclaim_orphaned_parents (consumer : string) : qprog (list PipelineRunState) :=
  r ← perform PendingRange;
  items ← failing recovery_failed r;
  by_run ← collect_orphans consumer items [];
  recover (py_sorted by_run.*1) by_run [].

(** ** The runtime *)

Section Runtime.
Variable sha256_hex : string -> string.

(** [ControllerPipelineRuntime.submit_parent] *)
Definition submit_parent (parent run : string) (compiled params : data) : qprog bool :=
  existing ← load_state run;
  match existing with
  | Some _ => Ret false
  | None => coord (submit parent run compiled params)
  end.

(** What becomes of the claimed entry after a tick. *)
Definition settle (s : PipelineRunState) : qprog (option PipelineRunState) :=
  if is_terminal s then
    acked ← perform (AckParent (run_id s));
    if acked : bool then Ret (Some s)
    else Raise ("ack_parent failed for run_id=" +:+ py_repr_str (run_id s) +:+ "; terminal state is persisted "
                +:+ "but stream ACK failed; process must not continue silently")
  else
    requeued ← perform (Coord (Requeue s));
    if requeued : bool then Ret (Some s)
    else Raise ("requeue_parent failed for run_id=" +:+ py_repr_str (run_id s) +:+ "; state is still claimed "
                +:+ "and unrecoverable without orphan reclaim").

Definition process_one (consumer : string) : qprog (option PipelineRunState) :=
  first ← dequeue_parent;
  claimed ← match first with
            | Some s => Ret (Some s)
            | None => orphaned ← reclaim_orphaned_parents consumer; Ret (head orphaned)
            end;
  match claimed with
  | None => Ret None
  | Some s0 =>
      loaded ← load_state (run_id s0);
      match loaded with
      | None => Raise ("claimed parent state disappeared for run_id=" +:+ py_repr_str (run_id s0)
                       +:+ "; stream entry remains unACKed for fail-closed recovery")
      | Some s => s' ← coord (advance sha256_hex s); settle s'
      end
  end.

(** [ControllerPipelineRuntime.cancel] *)
Definition cancel (run : string) : qprog bool := coord (request_cancellation run).

End Runtime.

(** ** The world *)

(** The commands that can fail. *)
Inductive command := HGETALL | HSET | EVAL | XADD | MULTI | XREADGROUP | XPENDING | XRANGE | XCLAIM | XACK.

(** What becomes of a command: it may not arrive, or its reply may be lost. *)
Inductive Fault := Fine | Refused (text : string) | Unheard (text : string).

(** What is outside the store: the answers to the coordinator's other calls,
    and the faults. *)
Class Outside (E : Type) := {
  reply : forall X, op X -> E -> X * E;
  fault : command -> E -> Fault * E }.

Section World.
Context {S E : Type} `{Streams S} `{Outside E}.

(** Hashes, stream, events, each consumer's [_entry_ids], the outside. *)
Record World := mkWorld {
  hashes : gmap string PipelineRunState;
  server : S;
  events : list (string * string * data);
  memory : gmap string (gmap string eid);
  env : E }.

#[export] Instance World_eta : Replaceable World := fun w =>
  mkWorld (hashes w) (server w) (events w) (memory w) (env w).

Definition entry_ids (c : string) (w : World) : gmap string eid := default ∅ (memory w !! c).

Definition remember (c run : string) (i : eid) (w : World) : World :=
  w ⟪ memory := <[c := <[run := i]> (entry_ids c w)]> (memory w) ⟫.
Definition forget (c run : string) (w : World) : World :=
  w ⟪ memory := <[c := delete run (entry_ids c w)]> (memory w) ⟫.

(** A command: its effect and its reply, or its failure. *)
Definition issue {X} (cmd : command) (act : World -> X * World) (failed : string -> X) (w : World) : X * World :=
  let '(f, e) := fault cmd (env w) in
  match f with
  | Fine => let '(x, w') := act w in (x, w' ⟪ env := e ⟫)
  | Refused t => (failed t, w ⟪ env := e ⟫)
  | Unheard t => (failed t, (act w).2 ⟪ env := e ⟫)
  end.

Definition on_server {X} (f : S -> X * S) (w : World) : X * World :=
  let '(x, q) := f (server w) in (x, w ⟪ server := q ⟫).

Definition ok_of {A} (x : A * World) : result string A * World := (Ok x.1, x.2).

Definition no : string -> bool := fun _ => false.

(** [requeue_parent]: the replacement and the acknowledgement of the claimed
    entry are one transaction. *)
Definition requeue_parent (c : string) (s : PipelineRunState) (w : World) : bool * World :=
  match entry_ids c w !! run_id s with
  | Some i =>
      let '(b, w') := issue MULTI (fun w => on_server (fun q => (true, (xack (xadd q (run_id s)).2 [i]).2)) w) no w in
      (b, if b then forget c (run_id s) w' else w')
  | None => issue XADD (fun w => on_server (fun q => (true, (xadd q (run_id s)).2)) w) no w
  end.

(** [ack_parent]: the claim is forgotten whatever becomes of the command. *)
Definition ack_parent (c run : string) (w : World) : bool * World :=
  match entry_ids c w !! run with
  | Some i => issue XACK (fun w => on_server (fun q => (true, (xack q [i]).2)) w) no (forget c run w)
  | None => (true, w)
  end.

Definition append_event (run type : string) (payload : data) (w : World) : World :=
  w ⟪ events := events w ++ [(run, type, payload)] ⟫.

(** The script [_SUBMIT_PARENT_LUA]. *)
Definition submit_script (s : PipelineRunState) (w : World) : bool * World :=
  match hashes w !! run_id s with
  | Some _ => (false, w)
  | None =>
      let w1 := w ⟪ hashes := <[run_id s := s]> (hashes w) ⟫ in
      let w2 := append_event (run_id s) "submitted" [("parent_job_id", PStr (parent_job_id s))] w1 in
      on_server (fun q => (true, (xadd q (run_id s)).2)) w2
  end.

Definition coord_call (c : string) {X} (o : op X) (w : World) : X * World :=
  match o in op X return X * World with
  | Load run =>
      issue HGETALL (fun w => (Ok (hashes w !! run), w))
        (fun t => Err ("load_state: Redis HGETALL failed for " +:+ py_repr_str run +:+ ": " +:+ t)) w
  | Save s => issue HSET (fun w => (true, w ⟪ hashes := <[run_id s := s]> (hashes w) ⟫)) no w
  | Event run type payload => issue XADD (fun w => (true, append_event run type payload w)) no w
  | Requeue s => requeue_parent c s w
  | SubmitParent s => issue EVAL (submit_script s) no w
  | o' => let '(x, e) := reply _ o' (env w) in (x, w ⟪ env := e ⟫)
  end.

Definition call (c : string) X (o : qop X) (w : World) : X * World :=
  match o in qop X return X * World with
  | Coord o => coord_call c o w
  | ReadGroup => issue XREADGROUP (fun w => ok_of (on_server (fun q => xreadgroup q c) w)) Err w
  | Remember run i => ((), remember c run i w)
  | PendingRange => issue XPENDING (fun w => (Ok (xpending (server w)), w)) Err w
  | Range i => issue XRANGE (fun w => (Ok (xrange (server w) i), w)) Err w
  | Claim i => issue XCLAIM (fun w => ok_of (on_server (fun q => xclaim q c i RECLAIM_MIN_IDLE_MS) w)) Err w
  | Ack ids => issue XACK (fun w => ok_of (on_server (fun q => xack q ids) w)) Err w
  | AckParent run => ack_parent c run w
  end.

(** ** Histories *)

(** Each consumer is a process; a method is cut after [n] operations, as an
    exception or a crash cuts it.  A restart forgets the claims. *)
Inductive act :=
  | Admit (c parent run : string) (compiled params : data) (n : nat)
  | Process (c : string) (n : nat)
  | Withdraw (c run : string) (n : nat)
  | Restart (c : string)
  | Elapse (ms : Z).

Variable sha256_hex : string -> string.

Definition do_act (a : act) (w : World) : World :=
  match a with
  | Admit c parent run compiled params n => run_upto (call c) n (submit_parent parent run compiled params) w
  | Process c n => run_upto (call c) n (process_one sha256_hex c) w
  | Withdraw c run n => run_upto (call c) n (cancel run) w
  | Restart c => w ⟪ memory := delete c (memory w) ⟫
  | Elapse ms => w ⟪ server := elapse (server w) ms ⟫
  end.

Definition play (acts : list act) (w : World) : World := fold_left (fun w a => do_act a w) acts w.

End World.
Arguments World : clear implicits.
