(* ===== verification/CoordinatorDelivery.v ===== *)
(** * CoordinatorDelivery: no parent run is lost

    The properties of the durable queue of [CoordinatorStore]: over every
    history of admissions, ticks, cancellation requests, restarts and crashes,
    with commands that fail, a live run stays reachable through the stream,
    and entries are served in order.  A tick inside the queue is the tick of
    [CoordinatorRuns], seen from one run: the whole store is its outside. *)

From S2P Require Import Prelude PyValue PyText Programs Coordinator CoordinatorMachine CoordinatorRuns CoordinatorStore.

(** ** A tick submits nothing *)

Definition tick_op X (o : op X) : Prop := match o with SubmitParent _ => False | _ => True end.

Ltac walk := repeat first
  [done | progress cbn [uses mbind program_mbind program_bind mret program_mret perform require raising]
  | split; [exact I|intros ?] | apply uses_bind; [|intros ?] | progress case_match | assumption].

Section Uses.
Abbreviation ticks := (uses tick_op).

Lemma uses_children children : forall i s un, ticks (cancel_children i children s un).
Proof.
  induction children as [|c l IH]; intros i s un; cbn [cancel_children]; [done|].
  case_match; [apply IH|]. cbn. split; [done|]. intros [[]|t]; cbn; auto.
Qed.

Lemma uses_reusable l : ticks (reusable_child l).
Proof. induction l as [|[i c] l IH]; cbn; [done|]. split; [done|]. intros []; [|done]. by case_match. Qed.

Lemma uses_terminalize s c reason : ticks (_terminalize s c reason).
Proof. unfold _terminalize, save, event. walk. Qed.

Lemma uses_cascade s : ticks (_cascade_cancellation s).
Proof.
  unfold _cascade_cancellation, event, cancel_external. cbn. split; [done|]. intros _. apply uses_bind; [walk|].
  intros un. apply uses_bind; [apply uses_children|]. intros [s1 []]; apply uses_terminalize.
Qed.

Lemma uses_next s map : ticks (_advance_to_next_stage s map).
Proof. unfold _advance_to_next_stage, save, event. repeat first [apply uses_terminalize|progress walk]. Qed.

Lemma uses_after s st map o : ticks (after_result s st map o).
Proof.
  unfold after_result, _handle_stage_failure, _handle_qc_result, save, event, raising.
  repeat first [apply uses_terminalize|apply uses_next|progress walk].
Qed.

Lemma uses_finish s sid st map o : ticks (finish_attempt s sid st map o).
Proof.
  unfold finish_attempt. apply uses_bind; [walk|]. intros now. apply uses_bind; [by destruct (record_result s sid st now o)|].
  intros [s' o']. split; [exact I|]. intros _. apply uses_after.
Qed.

Lemma uses_leaf s st key : ticks (_execute_leaf s st key).
Proof. unfold _execute_leaf, save. repeat first [apply uses_reusable|progress walk]. Qed.

Lemma uses_attempt s sid authority key st resuming h : ticks (run_attempt s sid authority key st resuming h).
Proof. unfold run_attempt, guarded. case_match; [walk|]. case_match; [apply uses_leaf|done]. Qed.

Lemma uses_waiting s sid authority st map o : ticks (finish_waiting s sid authority st map o).
Proof.
  unfold finish_waiting, save, event. case_match; [|walk]. case_match; [walk|apply uses_finish].
Qed.

Lemma uses_run_stage sha s sid st map authority : ticks (run_stage sha s sid st map authority).
Proof.
  unfold run_stage. apply uses_bind; [unfold save, event; walk|]. intros _.
  apply uses_bind; [case_match; [apply uses_attempt|done]|]. intros [s2 o].
  case_match; [apply uses_waiting|apply uses_finish].
Qed.

Lemma uses_current sha s map : ticks (run_current sha s map).
Proof.
  unfold run_current. do 2 (case_match; [|apply uses_terminalize]). apply uses_bind; [unfold require; walk|].
  intros authority. case_match; [apply uses_next|apply uses_run_stage].
Qed.

Lemma uses_advance sha s : ticks (advance sha s).
Proof.
  unfold advance. apply uses_bind; [unfold require; walk|]. intros l. case_match; [apply uses_cascade|].
  case_match; [done|]. unfold advance_live. case_match; [apply uses_current|]. case_match; [apply uses_current|].
  case_match; (split; [exact I|intros _]); [apply uses_current|done].
Qed.

End Uses.

(** ** Reachable runs *)

(** A run id that the stream carries as it is: not empty, and not in a JSON
    quotation of its own. *)
Definition plain (run : string) : Prop := run_of run = run /\ run <> "".

Section Delivery.
Context {S E : Type} `{StreamLaws S} `{Outside E}.
Implicit Types (q : S) (w : World S E) (i : eid).

Definition entry_of q i (run : string) : Prop := exists raw, (i, raw) ∈ entries q /\ run_of raw = run.

(** An entry some consumer will see: not delivered yet, or delivered and not
    acknowledged. *)
Definition unsettled q i : Prop := i ∈ (waiting q).*1 \/ i ∈ (pending q).*1.

Definition reachable q (run : string) : Prop := exists i, entry_of q i run /\ unsettled q i.

Definition live_run w (run : string) : Prop := exists s, hashes w !! run = Some s /\ is_terminal s = false.

(** The runs that must be reachable are the live ones and those of [R]. *)
(** A submission one keeps an eye on: once it is stored, its run is it. *)
Variable watch : option PipelineRunState.

(** A state that a submitted run can reach. *)
Definition lawful (s : PipelineRunState) : Prop :=
  exists parent run compiled params s0, submitted_state parent run compiled params = Ok s0 /\ track s0 s /\
  forall s1, watch = Some s1 -> run_id s0 = run_id s1 -> s0 = s1.

Lemma lawful_track s s' : lawful s -> track s s' -> lawful s'.
Proof.
  intros (p & r & c & m & s0 & Hs & Ht & Hw) Ht'. exists p, r, c, m, s0. split_and!; [done|by eapply track_trans|done].
Qed.

Record good (R : string -> Prop) w : Prop := {
  keyed run s : hashes w !! run = Some s -> run_id s = run /\ lawful s;
  recalled c run i : entry_ids c w !! run = Some i -> entry_of (server w) i run;
  covered run : plain run -> R run \/ live_run w run -> reachable (server w) run;
  watched s : watch = Some s -> is_Some (hashes w !! run_id s) }.

Abbreviation none := (fun _ => False).

Lemma entry_unique q i r1 r2 : entry_of q i r1 -> entry_of q i r2 -> r1 = r2.
Proof.
  intros (x & Hx & <-) (y & Hy & <-). f_equal. pose proof (entries_nodup q) as Hn. revert Hn Hx Hy.
  induction (entries q) as [|[j z] l IH]; cbn; intros Hn Hx Hy; [by apply elem_of_nil in Hx|].
  apply NoDup_cons in Hn as [Hj Hn]. apply elem_of_cons in Hx as [Hx|Hx], Hy as [Hy|Hy]; simplify_eq; auto;
    exfalso; apply Hj; by apply (list_elem_of_fmap_2 fst _ _) in Hx || by apply (list_elem_of_fmap_2 fst _ _) in Hy.
Qed.

(** [q'] has all of [q] but the entries [lost] that it settled. *)
Definition keeps (lost : list eid) q q' : Prop :=
  (forall x, x ∈ entries q -> x ∈ entries q') /\
  (forall i, unsettled q i -> i ∉ lost -> unsettled q' i).

Lemma keeps_trans l1 l2 q1 q2 q3 : keeps l1 q1 q2 -> keeps l2 q2 q3 -> keeps (l1 ++ l2) q1 q3.
Proof.
  intros [He Hu] [He' Hu']. split; [auto|]. intros i Hi Hn. apply not_elem_of_app in Hn as [? ?]. auto.
Qed.

Lemma keeps_same q q' : entries q' = entries q -> waiting q' = waiting q ->
  (forall j, j ∈ (pending q').*1 <-> j ∈ (pending q).*1) -> keeps [] q q'.
Proof.
  intros He Hw Hp. split; [by rewrite He|]. intros i [Hi|Hi] _; [left; by rewrite Hw|right; by apply Hp].
Qed.

Lemma keeps_xadd q r : keeps [] q (xadd q r).2.
Proof.
  split; [intros x Hx; rewrite xadd_entries; set_solver|]. intros i [Hi|Hi] _; unfold unsettled.
  - rewrite xadd_waiting, fmap_app. set_solver.
  - right. by rewrite xadd_pending.
Qed.

Lemma xadd_reachable q r : plain r -> reachable (xadd q r).2 r.
Proof.
  intros [Hr _]. exists (xadd q r).1. split.
  - exists r. rewrite xadd_entries. split; [set_solver|done].
  - left. rewrite xadd_waiting, fmap_app. set_solver.
Qed.

Lemma keeps_xreadgroup q c : keeps [] q (xreadgroup q c).2.
Proof.
  split; [by rewrite xreadgroup_entries|]. intros i Hi _. unfold unsettled in *.
  destruct (waiting q) as [|x l] eqn:Hw.
  - destruct (xreadgroup_none q c Hw) as (_ & -> & ->). done.
  - destruct (xreadgroup_some q c x l Hw) as (_ & -> & Hp). destruct Hi as [Hi|Hi].
    + cbn in Hi. apply elem_of_cons in Hi as [->|Hi]; [|by left]. right.
      apply list_elem_of_fmap. exists (x.1, c). split; [done|]. apply Hp. by left.
    + right. apply list_elem_of_fmap in Hi as (y & -> & Hy). apply list_elem_of_fmap. exists y. split; [done|].
      apply Hp. by right.
Qed.

Lemma keeps_xack q l : keeps l q (xack q l).2.
Proof.
  split; [by rewrite xack_entries|]. intros i [Hi|Hi] Hn; [left; by rewrite xack_waiting|].
  right. apply list_elem_of_fmap in Hi as (y & -> & Hy). apply list_elem_of_fmap. exists y. split; [done|].
  by apply xack_pending.
Qed.

Lemma keeps_xclaim q c i t : keeps [] q (xclaim q c i t).2.
Proof. apply keeps_same; [apply xclaim_entries|apply xclaim_waiting|intros j; apply xclaim_pending]. Qed.

Lemma keeps_elapse q t : keeps [] q (elapse q t).
Proof.
  apply keeps_same; [apply elapse_entries|apply elapse_waiting|]. intros j. by rewrite elapse_pending.
Qed.

Lemma entry_keeps lost q q' i r : keeps lost q q' -> entry_of q i r -> entry_of q' i r.
Proof. intros [He _] (x & Hx & Hr). exists x. auto. Qed.

(** What was reachable stays so, but through settled entries. *)
Lemma reachable_keeps lost q q' r :
  keeps lost q q' -> (forall i, i ∈ lost -> ~ entry_of q i r) -> reachable q r -> reachable q' r.
Proof.
  intros Hk Hl (i & Hi & Hu). exists i. split; [by eapply entry_keeps|]. apply Hk; [done|]. intros Hin. by eapply Hl.
Qed.

(** *** What keeps a store good *)

Lemma good_ext R w w' : hashes w' = hashes w -> server w' = server w -> memory w' = memory w -> good R w -> good R w'.
Proof.
  intros Hh Hs Hm [Hk Hr Hc Hw]. split; unfold entry_ids, live_run; rewrite ?Hh, ?Hs, ?Hm; done.
Qed.

Lemma good_env R w e : good R w -> good R (w ⟪ env := e ⟫).
Proof. intros []; by split. Qed.

Lemma good_weaken (R R' : string -> Prop) w : (forall r, R' r -> R r) -> good R w -> good R' w.
Proof. intros HR [Hk Hr Hc Hw]. split; [done|done| |done]. intros run Hp [?|?]; auto. Qed.

Lemma good_none R w : good R w -> good none w.
Proof. by apply good_weaken. Qed.

Lemma good_add (R : string -> Prop) w run :
  (plain run -> reachable (server w) run) -> good R w -> good (fun r => R r \/ r = run) w.
Proof.
  intros Hr [Hk Hm Hc Hw]. split; [done|done| |done]. intros r Hp [[?| ->]|?]; auto.
Qed.

(** Another server: what it settled must be reachable otherwise, if it has to. *)
Lemma good_server R w q lost :
  keeps lost (server w) q ->
  (forall i run, i ∈ lost -> entry_of (server w) i run -> plain run -> R run \/ live_run w run -> reachable q run) ->
  good R w -> good R (w ⟪ server := q ⟫).
Proof.
  intros Hk Hl [Hkey Hm Hc Hw]. split; cbn; [done| | |done].
  - intros c run i Hi. eapply entry_keeps; [done|]. by apply (Hm c).
  - intros run Hp Hr. destruct (Hc run Hp Hr) as (i & Hi & Hu).
    destruct (decide (i ∈ lost)) as [Hin|Hn]; [by eapply Hl|]. exists i. split; [by eapply entry_keeps|by apply Hk].
Qed.

Lemma good_keeps R w q : keeps [] (server w) q -> good R w -> good R (w ⟪ server := q ⟫).
Proof. intros Hk. apply (good_server R w q []); [done|]. by intros i run ?%elem_of_nil. Qed.

Lemma good_on_server {X} R w (f : S -> X * S) :
  keeps [] (server w) (f (server w)).2 -> good R w -> good R (on_server f w).2.
Proof.
  intros Hk Hg. unfold on_server. destruct (f (server w)) as [x q]. by apply good_keeps.
Qed.

Lemma entry_ids_set c c' m w :
  entry_ids c' (w ⟪ memory := <[c := m]> (memory w) ⟫) = if decide (c' = c) then m else entry_ids c' w.
Proof.
  unfold entry_ids. cbn. case_decide as Hc; [subst; by rewrite lookup_insert_eq|by rewrite lookup_insert_ne].
Qed.

Lemma good_forget R w c run : good R w -> good R (forget c run w).
Proof.
  intros [Hk Hm Hc Hw]. split; cbn; [done| |done|done]. intros c' run' i. unfold forget. rewrite entry_ids_set.
  case_decide as Hc'; [|apply Hm]. intros [_ Hi]%lookup_delete_Some. by apply (Hm c).
Qed.

Lemma good_remember R w c run i : entry_of (server w) i run -> good R w -> good R (remember c run i w).
Proof.
  intros Hi [Hk Hm Hc Hw]. split; cbn; [done| |done|done]. intros c' run' i'. unfold remember. rewrite entry_ids_set.
  case_decide as Hc'; [|apply Hm]. intros [[-> ->]|[_ Hl]]%lookup_insert_Some; [done|by apply (Hm c)].
Qed.

Lemma good_save (R : string -> Prop) w s :
  lawful s -> (is_terminal s = false -> plain (run_id s) -> reachable (server w) (run_id s)) ->
  good R w -> good R (w ⟪ hashes := <[run_id s := s]> (hashes w) ⟫).
Proof.
  intros Hs Hr [Hk Hm Hc Hw]. split; cbn; [|done| |].
  - intros run s'. intros [[<- <-]|[_ Hl]]%lookup_insert_Some; [done|by apply Hk].
  - intros run Hp [HR|(s' & Hl & Ht)]; [apply Hc; auto|].
    cbn in Hl. apply lookup_insert_Some in Hl as [[<- <-]|[_ Hl]]; [by apply Hr|]. apply Hc; [done|]. right. by exists s'.
  - intros s1 H1s%Hw. destruct (decide (run_id s = run_id s1)) as [<-|Hne]; [by rewrite lookup_insert_eq|].
    by rewrite lookup_insert_ne.
Qed.

(** A command keeps the store good when its effect does. *)
Lemma issue_good R {X} cmd (act : World S E -> X * World S E) failed w :
  good R w -> good R (act w).2 -> good R (issue cmd act failed w).2.
Proof.
  intros Hw Ha. unfold issue. destruct (fault cmd (env w)) as [[|t|t] e]; [|by apply good_env..].
  destruct (act w). by apply good_env.
Qed.

(** *** The operations *)

Definition fits (R : string -> Prop) w X (o : op X) : Prop :=
  match o with
  | Save s => lawful s /\ R (run_id s)
  | SubmitParent s => hashes w !! run_id s = None -> lawful s
  | _ => True
  end.

Lemma good_requeue R c s w : good R w -> good R (requeue_parent c s w).2.
Proof.
  intros Hg. unfold requeue_parent. destruct (entry_ids c w !! run_id s) as [i|] eqn:Hi.
  - match goal with |- context [issue MULTI ?a ?f w] => pose proof (issue_good R MULTI a f w Hg) as Hw end.
    destruct (issue MULTI _ _ _) as [b w']. cbn in *. assert (good R w'); [|by destruct b; [apply good_forget|]].
    apply Hw. cbn. apply (good_server R w _ [i]); [apply (keeps_trans [] [i] _ _ _ (keeps_xadd _ _) (keeps_xack _ _))| |done].
    intros j run ->%list_elem_of_singleton He Hp _.
    rewrite <- (entry_unique _ _ _ _ (recalled R w Hg c _ _ Hi) He) in *.
    destruct (xadd_reachable (server w) (run_id s) Hp) as (j & Hj & Hu). exists (xadd (server w) (run_id s)).1.
    assert (i ∈ (entries (server w)).*1) as Hin.
    { destruct He as (raw & Hraw & _). apply list_elem_of_fmap. by exists (i, raw). }
    pose proof (entries_nodup (xadd (server w) (run_id s)).2) as Hn. rewrite xadd_entries, fmap_app in Hn.
    apply NoDup_app in Hn as (_ & Hn & _). specialize (Hn _ Hin).
    split; [eapply entry_keeps; [apply keeps_xack|]|apply keeps_xack; [|set_solver]].
    + exists (run_id s). rewrite xadd_entries. split; [set_solver|apply Hp].
    + left. rewrite xadd_waiting, fmap_app. set_solver.
  - apply issue_good; [done|]. cbn. by apply good_keeps; [apply keeps_xadd|].
Qed.

Lemma good_submit R s w : (hashes w !! run_id s = None -> lawful s) -> good R w -> good R (submit_script s w).2.
Proof.
  intros Hs Hg. unfold submit_script. destruct (hashes w !! run_id s); [done|]. specialize (Hs eq_refl). cbn.
  assert (good R (w ⟪ server := (xadd (server w) (run_id s)).2 ⟫)) as Hq by by apply good_keeps; [apply keeps_xadd|].
  pose proof (good_save R (w ⟪ server := (xadd (server w) (run_id s)).2 ⟫) s Hs (fun _ => xadd_reachable (server w) (run_id s)) Hq) as [Hk Hm Hc Hw]. by split.
Qed.

Lemma good_coord R c X (o : op X) w : fits R w X o -> good R w -> good R (coord_call c o w).2.
Proof.
  intros Hf Hg. destruct o; cbn [coord_call fits] in *;
    try (destruct (reply _ _ (env w)); by apply good_env).
  - by apply issue_good.
  - apply issue_good; [done|]. destruct Hf as [? ?]. apply good_save; [done| |done].
    intros _ Hp. apply (covered R w Hg _ Hp). by left.
  - apply issue_good; [done|]. destruct Hg. by split.
  - by apply good_requeue.
  - apply issue_good; [done|]. by apply good_submit.
Qed.

(** *** A tick inside the queue *)

(** Saves reach the server and are confirmed. *)
Definition saves_succeed : Prop := forall e, (fault HSET e).1 = Fine.

Abbreviation outer c := (fun X (o : op X) w => coord_call c o w).

Lemma outer_reliable c : saves_succeed -> reliable (outer c).
Proof. intros Hs s w. cbn. unfold issue. specialize (Hs (env w)). destruct (fault HSET (env w)). cbn in Hs. by subst. Qed.

Definition not_save X (o : op X) : Prop := match o with Save _ => False | _ => True end.

Lemma saved_or_not {X} (o : op X) : (exists s (HX : X = bool), eq_rect X op o bool HX = Save s) \/ not_save X o.
Proof. destruct o; try (by right). left. by exists s, eq_refl. Qed.

Lemma not_save_fits R w {X} (o : op X) : not_save X o -> tick_op X o -> fits R w X o.
Proof. by destruct o. Qed.

Lemma hashes_issue {X} cmd (a : World S E -> X * World S E) failed w :
  hashes (a w).2 = hashes w -> hashes (issue cmd a failed w).2 = hashes w.
Proof. intros Ha. unfold issue. destruct (fault cmd (env w)) as [[|t|t] e]; [by destruct (a w)|done|done]. Qed.

Lemma hashes_coord c {X} (o : op X) w : not_save X o -> tick_op X o -> hashes (coord_call c o w).2 = hashes w.
Proof.
  intros Hn Ht. destruct o; try done; cbn [coord_call]; try (by destruct (reply _ _ (env w))).
  - by apply hashes_issue.
  - by apply hashes_issue.
  - unfold requeue_parent. case_match; [|by apply hashes_issue].
    match goal with |- context [issue MULTI ?a ?f w] => pose proof (hashes_issue MULTI a f w eq_refl) as Hi end.
    destruct (issue MULTI _ _ _) as [[] w']; done.
Qed.

(** What [CoordinatorRuns] sees of an operation that does not save. *)
Lemma handle_other c {X} (o : op X) d ex w :
  not_save X o -> hashes w !! run_id d = Some d ->
  exists ex', CoordinatorRuns.handle (outer c) X o (CoordinatorRuns.mkWorld d ex w) =
    ((coord_call c o w).1, CoordinatorRuns.mkWorld d ex' (coord_call c o w).2).
Proof.
  intros Hn Hd. destruct o; try done; try (by eexists). exists ex. unfold CoordinatorRuns.handle. cbn -[coord_call].
  f_equal. cbn. unfold issue, load_answer. destruct (fault HGETALL (env w)) as [[|t|t] e]; cbn; try done.
  destruct (hashes w !! run) eqn:Hl; [|done]. destruct (String.eqb_spec run (run_id d)) as [->|]; congruence.
Qed.

Section Tick.
Variables (c run : string) (Good : PipelineRunState -> list (string * Z) -> Prop).
Hypothesis Hsaves : saves_succeed.
Hypothesis Hgood : forall d ex, Good d ex -> run_id d = run /\ lawful d.

Abbreviation here := (good (eq run)).

(** The run's hash is the durable state of [CoordinatorRuns]. *)
Lemma tick_inside {A} (p : prog A) (Q : A -> PipelineRunState -> list (string * Z) -> Prop) d ex w :
  wp (CoordinatorRuns.handle (outer c)) (fun x => Good (durable x) (executed x)) p
    (fun a x => Q a (durable x) (executed x)) (CoordinatorRuns.mkWorld d ex w) ->
  uses tick_op p -> here w -> hashes w !! run = Some d ->
  wp (call c) here (coord p)
    (fun a w' => here w' /\ exists d' ex', hashes w' !! run = Some d' /\ Q a d' ex') w.
Proof.
  revert d ex w. induction p as [a|t|X o k IH]; intros d ex w [Hg Hp] Hu Hh Hd; cbn in *.
  - split; [done|]. by eauto.
  - done.
  - split; [done|]. destruct Hu as [Ho Hu]. destruct (Hgood d ex Hg) as [Hrun Hwf].
    destruct (saved_or_not o) as [(s & HX & Heq)|Hns].
    + subst X. cbn in Heq. subst o. cbn in Hp |- *. unfold issue in *. specialize (Hsaves (env w)).
      destruct (fault HSET (env w)) as [f e]. cbn in Hsaves. subst f. cbn in *.
      destruct (Hgood s ex (wp_inv _ _ _ _ _ Hp)) as [Hr Hw].
      apply (IH true s ex); [done|done| |cbn; by rewrite Hr, lookup_insert_eq].
      destruct (good_save (eq run) w s Hw) with (2 := Hh) as [H1k H1m H1c H1w]; [|by split].
      intros _ Hpl. apply (covered _ w Hh _ Hpl). by left.
    + pose proof (good_coord _ c X o w (not_save_fits _ _ o Hns Ho) Hh) as Hh'.
      pose proof (hashes_coord c o w Hns Ho) as Hd'. rewrite <- Hd' in Hd.
      destruct (handle_other c o d ex w Hns ltac:(by rewrite Hrun, <- Hd')) as [ex' Hp'].
      rewrite Hp' in Hp. destruct (coord_call c o w) as [x w']. cbn in *. by eapply IH.
Qed.

End Tick.

(** *** Commands in a program *)

Section Walk.
Context (c : string) (R : string -> Prop).

Abbreviation runs p Q w := (wp (call c) (good none) p Q w).

Lemma runs_ret {A} (a : A) (Q : A -> World S E -> Prop) w : good R w -> Q a w -> runs (Ret a) Q w.
Proof. intros Hg HQ. split; [by eapply good_none|done]. Qed.

Lemma runs_raise {A} t (Q : A -> World S E -> Prop) w : good R w -> runs (Raise t) Q w.
Proof. intros Hg. split; [by eapply good_none|done]. Qed.

Lemma runs_command {A X} (o : qop (result string X)) cmd act (k : result string X -> qprog A)
    (Q : A -> World S E -> Prop) w :
  (forall w, call c _ o w = issue cmd act Err w) -> good R w -> good R (act w).2 ->
  (forall e, runs (k (act w).1) Q ((act w).2 ⟪ env := e ⟫)) ->
  (forall t w', good R w' -> runs (k (Err t)) Q w') ->
  runs (Vis o k) Q w.
Proof.
  intros Ho Hg Ha Hk Hf. split; [by eapply good_none|]. rewrite Ho. unfold issue.
  destruct (fault cmd (env w)) as [[|t|t] e]; [|by apply Hf, good_env..].
  destruct (act w) as [x w']. cbn in *. apply Hk.
Qed.

Lemma runs_load {A} run (k : option PipelineRunState -> qprog A) (Q : A -> World S E -> Prop) w :
  good R w -> (forall e, runs (k (hashes w !! run)) Q (w ⟪ env := e ⟫)) ->
  runs (load_state run ≫= k) Q w.
Proof.
  intros Hg Hk. split; [by eapply good_none|]. cbn [call coord_call]. unfold issue.
  destruct (fault HGETALL (env w)) as [[|t|t] e]; cbn; [apply Hk| |]; (split; [eapply good_none, good_env; exact Hg|done]).
Qed.

End Walk.

(** *** Taking a run from the queue *)

Lemma dequeue_ok c w : good none w ->
  wp (call c) (good none) dequeue_parent (fun o w' =>
    match o with
    | Some s => good (eq (run_id s)) w' /\ hashes w' !! run_id s = Some s
    | None => good none w'
    end) w.
Proof.
  intros Hg. unfold dequeue_parent. cbn -[call py_repr_str].
  apply (runs_command c none _ XREADGROUP (fun w => ok_of (on_server (fun q => xreadgroup q c) w)));
    [done|done| |intros e|intros t w' Hg'; by apply (runs_raise c none)].
  { apply (good_on_server none w (fun q => xreadgroup q c)), Hg. apply keeps_xreadgroup. }
  pose proof (keeps_xreadgroup (server w) c) as Hk.
  assert (forall x, (xreadgroup (server w) c).1 = Some x -> x ∈ entries (xreadgroup (server w) c).2 /\
    x.1 ∈ (pending (xreadgroup (server w) c).2).*1) as Hgot.
  { intros x. destruct (waiting (server w)) as [|y l] eqn:Hw.
    - destruct (xreadgroup_none (server w) c Hw) as (-> & _). done.
    - destruct (xreadgroup_some (server w) c y l Hw) as (-> & _ & Hp). intros [= <-]. split.
      + apply Hk, waiting_entries. rewrite Hw. set_solver.
      + apply list_elem_of_fmap. exists (y.1, c). split; [done|]. apply Hp. by left. }
  pose proof (good_keeps none w _ Hk Hg) as Hq.
  unfold ok_of, on_server. destruct (xreadgroup (server w) c) as [[[i raw]|] q] eqn:Hx; cbn -[py_repr_str] in *.
  2: { apply (runs_ret c none); by apply (good_ext none (w ⟪ server := q ⟫)). }
  destruct (Hgot _ eq_refl) as [Hin Hpe]. clear Hgot.
  set (w1 := mkWorld (hashes w) q (events w) (memory w) e).
  assert (good none w1) as Hg1 by by apply (good_ext none (w ⟪ server := q ⟫)).
  destruct (str_truthy (run_of raw)); [|by apply (runs_raise c none)].
  assert (entry_of q i (run_of raw)) as He by by exists raw.
  split; [done|]. cbn [call].
  assert (good (eq (run_of raw)) (remember c (run_of raw) i w1)) as Hg2.
  { pose proof (good_remember none w1 c (run_of raw) i He Hg1) as Hg2'.
    eapply good_weaken; [|apply (good_add none _ (run_of raw)); [|exact Hg2']]; [cbn; intros r ->; by right|].
    intros _. exists i. split; [done|by right]. }
  apply (runs_load c (eq (run_of raw))); [done|]. intros e'.
  destruct (hashes _ !! run_of raw) as [s|] eqn:Hs; [|apply (runs_raise c (eq (run_of raw))); by apply good_env].
  destruct (keyed _ _ Hg2 _ _ Hs) as [Hrun _].
  apply (runs_ret c (eq (run_of raw))); [by apply good_env|]. rewrite Hrun. split; [by apply good_env|done].
Qed.

(** *** Recovery *)

(** The entries found for each run are its own; the newest is unsettled. *)
Definition found (by_run : list (string * list eid)) q : Prop :=
  forall run ids, dict_get by_run run = Some ids ->
    (forall i, i ∈ ids -> entry_of q i run /\ run <> "") /\
    (forall i, last (in_order ids) = Some i -> unsettled q i).

Definition all_found (by_run : list (string * list eid)) q : Prop :=
  forall run ids, dict_get by_run run = Some ids ->
    forall i, i ∈ ids -> entry_of q i run /\ unsettled q i /\ run <> "".

Lemma in_order_elem ids i : i ∈ in_order ids <-> i ∈ ids.
Proof. unfold in_order. rewrite (merge_sort_Permutation eid_le). by rewrite elem_of_dict_fromkeys. Qed.

Lemma in_order_nodup ids : NoDup (in_order ids).
Proof. unfold in_order. rewrite (merge_sort_Permutation eid_le). apply NoDup_dict_fromkeys. Qed.

Lemma all_found_found by_run q : all_found by_run q -> found by_run q.
Proof.
  intros Ha run ids Hd. split; [intros i Hi; by destruct (Ha _ _ Hd i Hi) as (? & ? & ?)|].
  intros i Hi. apply last_Some_elem_of in Hi. rewrite in_order_elem in Hi. by destruct (Ha _ _ Hd i Hi) as (? & ? & ?).
Qed.

Lemma keeps_nil_unsettled q q' i : keeps [] q q' -> unsettled q i -> unsettled q' i.
Proof. intros [_ Hk] Hu. apply Hk; [done|apply not_elem_of_nil]. Qed.

Lemma all_found_keeps by_run q q' : keeps [] q q' -> all_found by_run q -> all_found by_run q'.
Proof.
  intros Hk Ha run ids Hd i Hi. destruct (Ha _ _ Hd i Hi) as (He & Hu & Hne). split_and!; [|by eapply keeps_nil_unsettled|done].
  by eapply entry_keeps.
Qed.

Lemma all_found_add by_run q x :
  (x ∈ entries q /\ unsettled q x.1) -> all_found by_run q -> all_found (add_entry by_run x) q.
Proof.
  intros [Hx Hu] Ha run ids. unfold add_entry. destruct (str_truthy (run_of x.2)) eqn:Hne; [|apply Ha].
  rewrite dict_get_set. case_match eqn:Hc.
  - intros [= <-] i. rewrite elem_of_app, list_elem_of_singleton.
    assert (run <> "") as Hne'.
    { subst. unfold str_truthy in Hne. by destruct (String.eqb_spec (run_of x.2) ""). }
    intros [Hi| ->].
    + destruct (dict_get by_run (run_of x.2)) as [ids|] eqn:Hd; [|by apply not_elem_of_nil in Hi]. subst.
      by apply (Ha _ _ Hd).
    + split_and!; [|done|done]. exists x.2. subst. destruct x. done.
  - by apply Ha.
Qed.

Lemma all_found_fold by_run q l :
  (forall x, x ∈ l -> x ∈ entries q /\ unsettled q x.1) -> all_found by_run q ->
  all_found (fold_left add_entry l by_run) q.
Proof.
  revert by_run. induction l as [|x l IH]; intros by_run Hl Ha; [done|]. cbn. apply IH; [set_solver|].
  apply all_found_add; [apply Hl; set_solver|done].
Qed.

Lemma collect_ok c consumer items : forall by_run w,
  good none w -> all_found by_run (server w) -> (forall i o t, (i, o, t) ∈ items -> unsettled (server w) i) ->
  wp (call c) (good none) (collect_orphans consumer items by_run)
    (fun by_run' w' => good none w' /\ all_found by_run' (server w')) w.
Proof.
  induction items as [|[[i owner] idle] items IH]; intros by_run w Hg Ha Hi; cbn -[call].
  { split; [by eapply good_none|done]. }
  assert (forall q l, keeps [] (server w) q -> (forall x, x ∈ l -> x ∈ entries q /\ x.1 = i) ->
    forall w', good none w' -> server w' = q ->
    wp (call c) (good none) (collect_orphans consumer items (fold_left add_entry l by_run))
      (fun by_run' w' => good none w' /\ all_found by_run' (server w')) w') as Hnext.
  { intros q l Hk Hl w' Hg' <-. apply IH; [done| |].
    - apply all_found_fold; [|by eapply all_found_keeps]. intros x Hx. destruct (Hl x Hx) as [He ->]. split; [done|].
      eapply keeps_nil_unsettled; [done|]. eapply (Hi i owner idle). set_solver.
    - intros j o t Hj. eapply keeps_nil_unsettled; [done|]. apply (Hi j o t). set_solver. }
  assert (keeps [] (server w) (server w)) as Hrefl by by apply keeps_same.
  destruct (String.eqb owner consumer); [|destruct (RECLAIM_MIN_IDLE_MS <=? idle)]; cbn -[call].
  - apply (runs_command c none _ XRANGE (fun w => (Ok (xrange (server w) i), w)));
      [done|done|done|intros e|intros t w' Hg'; by apply (runs_raise c none)]. cbn -[call].
    apply (Hnext (server w)); [done| |by apply good_env|done]. intros x. apply xrange_entry.
  - apply (runs_command c none _ XCLAIM (fun w => ok_of (on_server (fun q => xclaim q c i RECLAIM_MIN_IDLE_MS) w)));
      [done|done| |intros e|intros t w' Hg'; by apply (runs_raise c none)].
    { apply (good_on_server none w (fun q => xclaim q c i RECLAIM_MIN_IDLE_MS)); [apply keeps_xclaim|done]. }
    unfold ok_of, on_server.
    pose proof (keeps_xclaim (server w) c i RECLAIM_MIN_IDLE_MS) as Hk'.
    pose proof (good_keeps none w _ Hk' Hg) as Hq.
    pose proof (xclaim_reply (server w) c i RECLAIM_MIN_IDLE_MS) as Hr.
    pose proof (xclaim_entries (server w) c i RECLAIM_MIN_IDLE_MS) as He.
    destruct (xclaim (server w) c i RECLAIM_MIN_IDLE_MS) as [l q]. cbn -[call] in *.
    apply (Hnext q); [done| |by apply (good_ext none (w ⟪ server := q ⟫))|done].
    intros x Hx. rewrite He. by apply Hr.
  - apply (Hnext (server w) []); [done| |done|done]. by intros x ?%elem_of_nil.
Qed.

(** What acknowledging the older entries of a run leaves. *)
Lemma found_xack by_run q run ids retained :
  found by_run q -> dict_get by_run run = Some ids -> last (in_order ids) = Some retained ->
  let l := take (length (in_order ids) - 1) (in_order ids) in
  found by_run (xack q l).2 /\ (forall i, i ∈ l -> entry_of q i run) /\ retained ∉ l.
Proof.
  intros Hf Hd Hl l. destruct (Hf run ids Hd) as [Hids Hlast].
  assert (in_order ids = l ++ [retained]) as Heq.
  { apply last_Some in Hl as [l' Hl]. unfold l. rewrite Hl, length_app. cbn.
    replace (length l' + 1 - 1)%nat with (length l') by lia. by rewrite take_app_length. }
  pose proof (in_order_nodup ids) as Hn. rewrite Heq in Hn. apply NoDup_app in Hn as (_ & Hn & _).
  assert (retained ∉ l) as Hr by (intros Hin; by apply (Hn _ Hin), list_elem_of_singleton).
  assert (forall i, i ∈ l -> entry_of q i run) as He.
  { intros i Hi. apply Hids, in_order_elem. rewrite Heq. set_solver. }
  split_and!; [|done|done]. pose proof (keeps_xack q l) as Hk. intros run2 ids2 Hd2. destruct (Hf run2 ids2 Hd2) as [H2 Hl2].
  split; [intros i Hi; destruct (H2 i Hi); split; [by eapply entry_keeps|done]|].
  intros i Hi. apply Hk; [by apply Hl2|]. intros Hin. pose proof (He i Hin) as Hei.
  assert (i ∈ ids2) as Hi2 by (apply last_Some_elem_of in Hi; by rewrite in_order_elem in Hi).
  rewrite (entry_unique q i run2 run) in Hd2; [|by apply H2|done]. rewrite Hd in Hd2. injection Hd2 as <-.
  rewrite Hl in Hi. by simplify_eq.
Qed.

Definition named_in (l : list PipelineRunState) (run : string) : Prop := run ∈ run_id <$> l.

Lemma recover_ok c by_run runs : forall results w,
  good (named_in results) w -> found by_run (server w) ->
  wp (call c) (good none) (recover runs by_run results) (fun l w' => good (named_in l) w') w.
Proof.
  induction runs as [|run runs IH]; intros results w Hg Hf; cbn [recover].
  { split; [by eapply good_none|done]. }
  set (R := named_in results) in *.
  destruct (last (in_order _)) as [retained|] eqn:Hl; [|by apply (runs_raise c R)].
  destruct (dict_get by_run run) as [ids|] eqn:Hd; [|done]. cbn [default from_option] in *. unfold id in Hl |- *.
  destruct (found_xack by_run (server w) run ids retained Hf Hd Hl) as (Hf' & Hold & Hn).
  destruct (Hf run ids Hd) as [Hids Hlast]. specialize (Hlast _ Hl).
  assert (entry_of (server w) retained run) as Her.
  { apply Hids. apply last_Some_elem_of in Hl. by rewrite in_order_elem in Hl. }
  assert (forall w', good R w' -> found by_run (server w') -> entry_of (server w') retained run ->
    unsettled (server w') retained ->
    wp (call c) (good none) (s ← load_state run;
      match s with
      | None => Raise ("reclaim_orphaned_parents: state " +:+ py_repr_str run +:+ " found in PEL "
                       +:+ "but load_state returned None; data inconsistency detected")
      | Some s => perform (Remember run retained);; recover runs by_run (results ++ [s])
      end) (fun l w' => good (named_in l) w') w') as Hrest.
  { intros w' Hg' Hfw He Hu. apply (runs_load c R); [done|]. intros e.
    destruct (hashes w' !! run) as [s|] eqn:Hs; [|by apply (runs_raise c R), good_env].
    destruct (keyed _ _ Hg' _ _ Hs) as [Hrun _]. cbn -[call]. split; [by eapply good_none, good_env|].
    cbn [call]. apply IH; [|done]. eapply good_weaken; [|apply (good_add R _ run)].
    - intros r. unfold R, named_in. rewrite fmap_app, elem_of_app. cbn. rewrite list_elem_of_singleton, Hrun. tauto.
    - intros _. by exists retained.
    - by apply good_remember; [|apply good_env]. }
  set (l := take (length (in_order ids) - 1) (in_order ids)) in *.
  destruct l as [|i0 l0] eqn:Hdup; [by apply Hrest|]. rewrite <- Hdup in *. cbn -[call load_state py_repr_str].
  assert (good R (w ⟪ server := (xack (server w) l).2 ⟫)) as Hq.
  { apply (good_server R w _ l); [apply keeps_xack| |done]. intros i run2 Hi Hei _ _.
    rewrite <- (entry_unique _ _ _ _ (Hold i Hi) Hei). exists retained.
    split; [by eapply entry_keeps; [apply keeps_xack|]|by apply keeps_xack]. }
  apply (runs_command c R _ XACK (fun w => ok_of (on_server (fun q => xack q l) w)));
    [done|done| |intros e|intros t w' Hg'; by apply (runs_raise c R)];
    unfold ok_of, on_server; destruct (xack (server w) l) as [n q] eqn:Hx; cbn -[call load_state py_repr_str] in *; [done|].
  destruct (n =? _); cbn -[call load_state py_repr_str]; [|split; [by apply (good_none R), (good_ext R (w ⟪ server := q ⟫))|done]].
  apply Hrest; [by apply (good_ext R (w ⟪ server := q ⟫))|done| |]; cbn;
    pose proof (keeps_xack (server w) l) as Hk; rewrite Hx in Hk; [by eapply entry_keeps|by apply Hk].
Qed.

Lemma reclaim_ok c consumer w : good none w ->
  wp (call c) (good none) (reclaim_orphaned_parents consumer) (fun l w' => good (named_in l) w') w.
Proof.
  intros Hg. unfold reclaim_orphaned_parents. cbn -[call collect_orphans recover].
  apply (runs_command c none _ XPENDING (fun w => (Ok (xpending (server w)), w)));
    [done|done|done|intros e|intros t w' Hg'; by apply (runs_raise c none)].
  cbn -[call collect_orphans recover]. apply wp_bind. eapply wp_mono; [|apply collect_ok].
  - cbn. intros by_run w' [Hg' Ha]. apply recover_ok; [|by apply all_found_found].
    eapply good_weaken; [|exact Hg']. intros r. apply elem_of_nil.
  - by apply good_env.
  - by intros run ids.
  - intros i o t Hi. right. apply xpending_pending in Hi. apply list_elem_of_fmap. by exists (i, o).
Qed.

(** *** The runtime's methods *)

(** What becomes of the claim when the tick's result agrees with the store. *)
Lemma settle_ok c s d w :
  good (eq (run_id s)) w -> hashes w !! run_id s = Some d -> is_terminal d = is_terminal s ->
  wp (call c) (good none) (settle s) (fun _ _ => True) w.
Proof.
  intros Hg Hd Ht. unfold settle. destruct (is_terminal s) eqn:Hs; cbn -[call py_repr_str].
  - split; [by eapply good_none|]. cbn [call]. apply good_none in Hg.
    assert (good none (ack_parent c (run_id s) w).2) as Ha.
    { unfold ack_parent. destruct (entry_ids c w !! run_id s) as [i|] eqn:Hi; [|done].
      apply (good_forget none w c (run_id s)) in Hg as Hf. apply issue_good; [done|].
      cbn. apply (good_server none (forget c (run_id s) w) _ [i]); [apply keeps_xack| |done].
      intros j run ->%list_elem_of_singleton He Hp [[]|(s' & Hs' & Hl)]. exfalso.
      rewrite <- (entry_unique _ _ _ _ (recalled none w Hg c _ _ Hi) He) in *. cbn in Hs'. congruence. }
    destruct (ack_parent c (run_id s) w) as [[] w']; by split.
  - split; [by eapply good_none|]. cbn [call]. pose proof (good_requeue _ c s w Hg) as Hr%good_none. cbn [coord_call].
    destruct (requeue_parent c s w) as [[] w']; by split.
Qed.

Variable sha256_hex : string -> string.
Hypothesis Hsaves : saves_succeed.

Lemma tick_ok c s w : good (eq (run_id s)) w -> hashes w !! run_id s = Some s ->
  wp (call c) (good none) (s' ← coord (advance sha256_hex s); settle s') (fun _ _ => True) w.
Proof.
  intros Hg Hs. destruct (keyed _ _ Hg _ _ Hs) as [_ Hlaw].
  assert (wf s) as Hwf by (destruct Hlaw as (p & r & k & m & s0 & Hsub & Ht & _); by eapply lawful_wf). apply wp_bind.
  assert (Inv (outer c) s s []) as Hi.
  { split; [apply track_refl|]. intros _. split; [constructor|]. by intros x n ?%elem_of_nil. }
  pose proof (advance_ok sha256_hex (outer c) s Hwf s [] Hi w) as Hadv.
  eapply (wp_weaken (call c) (good (eq (run_id s)))); [by apply good_none|].
  assert (forall d ex, Inv (outer c) s d ex -> run_id d = run_id s /\ lawful d) as Hgood.
  { intros d ex Hd. pose proof (track_fixed _ _ (proj1 Hd)) as Hf. split; [unfold fixed in Hf; congruence|].
    by eapply lawful_track; [|apply Hd]. }
  eapply wp_mono; [|exact (tick_inside c (run_id s) _ Hsaves Hgood _ (truthful (outer c)) s [] w Hadv
    (uses_advance _ _) Hg Hs)].
  intros s' w' (Hg' & d' & ex' & Hd' & Htr). specialize (Htr (outer_reliable c Hsaves)). unfold fate in Htr.
  injection Htr as Hrun Hterm. destruct (keyed _ _ Hg' _ _ Hd') as [Hrd _].
  apply (settle_ok c s' d'); [|by rewrite <- Hrun, Hrd|done]. by rewrite <- Hrun, Hrd.
Qed.

Lemma process_ok c w : good none w -> wp (call c) (good none) (process_one sha256_hex c) (fun _ _ => True) w.
Proof.
  intros Hg. unfold process_one. apply wp_bind. eapply wp_mono; [|by apply dequeue_ok]. intros first w1 Hfirst.
  apply wp_bind. eapply (wp_mono _ _ _ (fun o w' => match o with Some s => good (eq (run_id s)) w' | None => good none w' end)).
  - intros [s0|] w2 Hw2; [|by apply (runs_ret c none)].
    apply (runs_load c (eq (run_id s0))); [done|]. intros e.
    destruct (hashes w2 !! run_id s0) as [s|] eqn:Hs; [|by apply (runs_raise c (eq (run_id s0))), good_env].
    destruct (keyed _ _ Hw2 _ _ Hs) as [Hrun _]. rewrite <- Hrun in *. apply tick_ok; [by apply good_env|done].
  - destruct first as [s0|]; [apply (runs_ret c (eq (run_id s0))); apply Hfirst|].
    apply wp_bind. eapply wp_mono; [|by apply reclaim_ok]. intros l w2 Hl.
    apply (runs_ret c (named_in l)); [done|]. destruct (head l) as [s0|] eqn:Hh; [|exact (good_none _ _ Hl)].
    eapply good_weaken; [|exact Hl]. intros r <-. unfold named_in. apply list_elem_of_fmap.
    exists s0. split; [done|]. destruct l; [done|]. simplify_eq/=. set_solver.
Qed.

(** An operation of the coordinator among others. *)
Lemma runs_coord R c {A X} (o : op X) (k : X -> qprog A) Q w :
  good R w -> fits R w X o -> (forall x w', coord_call c o w = (x, w') -> good R w' -> wp (call c) (good none) (k x) Q w') ->
  wp (call c) (good none) (Vis (Coord o) k) Q w.
Proof.
  intros Hg Hf Hk. split; [by eapply good_none|]. cbn [call]. pose proof (good_coord R c X o w Hf Hg) as Hg'.
  destruct (coord_call c o w) as [x w'] eqn:Hc. by eapply Hk.
Qed.

Lemma cancel_ok c run w : good none w -> wp (call c) (good none) (cancel run) (fun _ _ => True) w.
Proof.
  intros Hg. unfold cancel, coord, request_cancellation. cbn -[coord_call wp].
  apply (runs_coord none); [done|done|]. cbn [coord_call]. intros l w0 Hl Hg0.
  destruct l as [[s|]|t]; cbn -[coord_call wp]; [|by split..].
  destruct (is_terminal s) eqn:Hterm; cbn -[coord_call wp]; [by split|].
  assert (good (eq (run_id s)) w0) as Hg1.
  { eapply good_weaken; [|apply (good_add none w0 (run_id s)); [|done]]; [cbn; intros r ->; by right|].
    intros Hp. apply (covered _ _ Hg0 _ Hp). right. exists s. split; [|done]. unfold issue in Hl.
    destruct (fault HGETALL (env w)) as [[|t|t] e]; [|done..]. injection Hl as Hs <-. cbn in *.
    by destruct (keyed _ _ Hg _ _ Hs) as [-> _]. }
  assert (lawful s) as Hlaw.
  { unfold issue in Hl. destruct (fault HGETALL (env w)) as [[|t|t] e]; [|done..]. injection Hl as Hs _.
    by destruct (keyed _ _ Hg _ _ Hs). }
  apply (runs_coord (eq (run_id s))); [done| |].
  { split; [|done]. apply (lawful_track s); [done|]. apply (track_move s s); [apply track_refl|]. apply Ask; [solve_only|done|done]. }
  intros [] w1 _ Hg2; cbn -[coord_call wp]; [|split; [by eapply good_none|done]].
  apply (runs_coord (eq (run_id s))); [done|done|].
  intros [] w2 _ Hg3; cbn -[coord_call wp]; [|split; [by eapply good_none|done]].
  apply (runs_coord (eq (run_id s))); [done|done|].
  intros b w3 _ Hg4. split; [by eapply good_none|done].
Qed.

Lemma submitted_run parent run compiled params s : submitted_state parent run compiled params = Ok s -> run_id s = run.
Proof.
  unfold submitted_state. destruct (sanitize_dict "$" params); [|done]. destruct (sanitize_dict "$" compiled); [|done].
  cbn. by intros [= <-].
Qed.

Lemma submit_ok c parent run compiled params w : good none w ->
  wp (call c) (good none) (submit_parent parent run compiled params) (fun _ _ => True) w.
Proof.
  intros Hg. unfold submit_parent. apply (runs_load c none); [done|]. intros e.
  assert (good none (w ⟪ env := e ⟫)) as Hg' by by apply good_env.
  destruct (hashes w !! run); [by apply (runs_ret c none)|]. unfold submit, coord.
  destruct (submitted_state parent run compiled params) as [s|t] eqn:Hs; cbn -[coord_call wp]; [|by split].
  apply (runs_coord none); [done| |intros b w' _ Hg2; by split].
  intros Hn. exists parent, run, compiled, params, s. split_and!; [done|apply track_refl|].
  intros s1 H1s Hr. destruct (watched _ _ Hg' _ H1s) as [s2 H2s]. rewrite <- Hr in H2s. cbn in Hn, H2s. rewrite Hn in H2s. done.
Qed.

Lemma act_good a w : good none w -> good none (do_act sha256_hex a w).
Proof.
  intros Hg. destruct a as [c parent run compiled params n|c n|c run n|c|ms]; cbn [do_act].
  - by eapply wp_sound, submit_ok.
  - by eapply wp_sound, process_ok.
  - by eapply wp_sound, cancel_ok.
  - destruct Hg as [Hk Hm Hc Hw]. split; [done| |done|done]. intros c' run i. unfold entry_ids. cbn.
    destruct (decide (c = c')) as [<-|Hne]; [by rewrite lookup_delete_eq|]. rewrite lookup_delete_ne by done. apply (Hm c').
  - apply good_keeps; [apply keeps_elapse|done].
Qed.

Lemma play_good acts w : good none w -> good none (play sha256_hex acts w).
Proof. revert w. induction acts as [|a acts IH]; intros w Hg; [done|]. cbn. by apply IH, act_good. Qed.

End Delivery.

(** *** What holds of the queue *)

Section Queue.
Context {S E : Type} `{StreamLaws S} `{Outside E}.
Implicit Types (w : World S E).
Variable sha256_hex : string -> string.
Hypothesis Hsaves : saves_succeed (E := E).

(** A store that only the modelled operations have written. *)
Abbreviation sound_store w := (good None (fun _ => False) w).

(** Every state the queue stores is a lawful one: whatever the consumers,
    faults and crashes, each stored run is stored under its own id, its
    attempts are numbered and at most the one at the cursor is in flight, its
    correction rounds are within the bounds of its plan, and it has ended as
    its status says. *)
Theorem stored_runs_lawful acts w run s :
  sound_store w -> hashes (play sha256_hex acts w) !! run = Some s ->
  run_id s = run /\ wf s /\ loops_ok s /\ ended_ok s.
Proof.
  intros Hg Hs. destruct (keyed _ _ _ (play_good _ _ Hsaves acts w Hg) _ _ Hs)
    as [Hr (p & r & c & m & s0 & Hsub & Ht & _)].
  split_and!; [done|by eapply lawful_wf|by eapply lawful_loops|by eapply lawful_ended].
Qed.


Lemma lawful_watch s0 s : lawful None s -> (run_id s = run_id s0 -> track s0 s) ->
  (exists parent run compiled params, submitted_state parent run compiled params = Ok s0) -> lawful (Some s0) s.
Proof.
  intros (p & r & c & m & s1 & Hs & Ht & _) Hsame (p0 & r0 & c0 & m0 & H0').
  destruct (decide (run_id s = run_id s0)) as [Heq|Hne].
  - exists p0, r0, c0, m0, s0. split_and!; [done|by apply Hsame|]. by intros s2 [= ->].
  - exists p, r, c, m, s1. split_and!; [done|done|]. intros s2 [= <-] Hr. exfalso. apply Hne. rewrite <- Hr.
    pose proof (track_fixed _ _ Ht) as Hf. unfold fixed in Hf. congruence.
Qed.

(** A submitted run, once stored, is there for good and is what was submitted. *)
Lemma stored_stays acts w s0 s :
  sound_store w -> hashes w !! run_id s0 = Some s -> track s0 s ->
  (exists parent run compiled params, submitted_state parent run compiled params = Ok s0) ->
  exists s', hashes (play sha256_hex acts w) !! run_id s0 = Some s' /\ track s0 s'.
Proof.
  intros Hg Hs Ht Hsub.
  assert (good (Some s0) (fun _ => False) w) as Hw.
  { destruct Hg as [Hk Hm Hc _]. split; [|done|done|by intros s1 [= <-]; rewrite Hs].
    intros run s' Hs'. destruct (Hk run s' Hs') as [Hr Hl]. split; [done|]. apply lawful_watch; [done| |done].
    intros Heq. rewrite Hr in Heq. subst run. rewrite Heq in Hs'. rewrite Hs in Hs'. by injection Hs' as <-. }
  pose proof (play_good (Some s0) sha256_hex Hsaves acts w Hw) as Hp.
  destruct (watched _ _ _ Hp s0 eq_refl) as [s' Hs']. exists s'. split; [done|].
  destruct (keyed _ _ _ Hp _ _ Hs') as [Hr (p & r & c & m & s1 & _ & Ht1 & Hw1)].
  rewrite <- (Hw1 s0 eq_refl); [done|]. pose proof (track_fixed _ _ Ht1) as Hf. unfold fixed in Hf. congruence.
Qed.

End Queue.

(** ** First come, first served *)

Definition not_read X (o : qop X) : Prop := match o with ReadGroup => False | _ => True end.

Section Order.
Abbreviation reads_no := (uses not_read).

Lemma reads_collect consumer items : forall by_run, reads_no (collect_orphans consumer items by_run).
Proof.
  induction items as [|[[i owner] idle] items IH]; intros by_run; cbn [collect_orphans]; [done|].
  apply uses_bind; [|intros l; apply IH]. unfold failing. walk.
Qed.

Lemma reads_recover by_run runs : forall results, reads_no (recover runs by_run results).
Proof.
  induction runs as [|run runs IH]; intros results; cbn [recover]; [done|]. destruct (last (in_order _)); [|done].
  apply uses_bind; [unfold failing; walk|]. intros _. apply uses_bind; [unfold load_state; walk|]. intros [s|]; [|done].
  split; [done|]. intros ?. apply IH.
Qed.

Lemma reads_process sha c : exists k, process_one sha c = Vis ReadGroup k /\ forall x, reads_no (k x).
Proof.
  eexists. split; [reflexivity|]. intros x. cbn beta.
  apply uses_bind; [|intros first; apply uses_bind; [|intros [s0|]; [|done]]].
  - unfold failing, load_state. walk.
  - destruct first; [done|]. apply uses_bind; [|done]. unfold reclaim_orphaned_parents, failing. apply uses_bind; [walk|].
    intros r. apply uses_bind; [by destruct r|]. intros items. apply uses_bind; [apply reads_collect|].
    intros by_run. apply reads_recover.
  - apply uses_bind; [unfold load_state; walk|]. intros [s|]; [|done]. apply uses_bind.
    + apply uses_embed. by apply uses_all.
    + intros s'. unfold settle. walk.
Qed.

Context {S E : Type} `{StreamLaws S} `{Outside E}.
Implicit Types (q : S) (w : World S E).

(** More entries wait. *)
Definition more q q' : Prop := exists new, waiting q' = waiting q ++ new.

Lemma more_refl q : more q q.
Proof. exists []. by rewrite app_nil_r. Qed.

Lemma more_trans q1 q2 q3 : more q1 q2 -> more q2 q3 -> more q1 q3.
Proof. intros [n1 Hn1] [n2 Hn2]. exists (n1 ++ n2). by rewrite Hn2, Hn1, app_assoc. Qed.

Lemma more_same q q' : waiting q' = waiting q -> more q q'.
Proof. intros Hq. exists []. by rewrite Hq, app_nil_r. Qed.

Lemma more_xadd q r : more q (xadd q r).2.
Proof. eexists. apply xadd_waiting. Qed.

Lemma issue_more {X} cmd (a : World S E -> X * World S E) failed w :
  more (server w) (server (a w).2) -> more (server w) (server (issue cmd a failed w).2).
Proof.
  intros Ha. unfold issue. destruct (fault cmd (env w)) as [[|t|t] e]; [by destruct (a w)|apply more_refl|done].
Qed.

Lemma call_more c X (o : qop X) w : not_read X o -> more (server w) (server (call c X o w).2).
Proof.
  assert (forall c s, more (server w) (server (requeue_parent c s w).2)) as Hre.
  { intros c' s. unfold requeue_parent. destruct (entry_ids c' w !! run_id s) as [i|].
    - match goal with |- context [issue MULTI ?a ?f w] => pose proof (issue_more MULTI a f w) as Hm end.
      destruct (issue MULTI _ _ _) as [b w']. cbn in *. destruct b; apply Hm; (eapply more_trans;
        [apply more_xadd|apply more_same, xack_waiting]).
    - apply issue_more, more_xadd. }
  intros Ho. destruct o as [X o| | | | | | |run]; try done; cbn [call].
  - destruct o; cbn [coord_call]; try (destruct (reply _ _ (env w)); apply more_refl);
      try (apply issue_more; apply more_refl); [apply Hre|]. apply issue_more. unfold submit_script.
    destruct (hashes w !! _); [apply more_refl|]. apply more_xadd.
  - apply more_refl.
  - apply issue_more, more_refl.
  - apply issue_more, more_refl.
  - apply issue_more. unfold ok_of, on_server. cbn. destruct (xclaim _ _ _ _) as [l q] eqn:Hx. cbn.
    apply more_same. pose proof (xclaim_waiting (server w) c i RECLAIM_MIN_IDLE_MS) as Hw. by rewrite Hx in Hw.
  - apply issue_more. unfold ok_of, on_server. cbn. destruct (xack _ _) as [l q] eqn:Hx. cbn.
    apply more_same. pose proof (xack_waiting (server w) ids) as Hw. by rewrite Hx in Hw.
  - unfold ack_parent. destruct (entry_ids c w !! run); [|apply more_refl].
    match goal with |- context [issue XACK ?a ?f ?w'] => pose proof (issue_more XACK a f w') as Hm end.
    apply Hm. apply more_same, xack_waiting.
Qed.

Lemma run_more c {A} (p : qprog A) n w : reads_no p -> more (server w) (server (run_upto (call c) n p w)).
Proof.
  intros Hp. eapply (wp_sound (call c) (fun w' => more (server w) (server w'))).
  apply (wp_uses (call c) _ not_read); [|exact Hp|apply more_refl].
  intros X o w' Ho Hw. eapply more_trans; [exact Hw|by apply call_more].
Qed.

(** Turns taken: ticks that reach the stream. *)
Definition takes (a : act) : bool := match a with Process _ n => (0 <? n)%nat | _ => false end.
Definition turns (acts : list act) : nat := length (List.filter takes acts).

Variable sha256_hex : string -> string.

(** Reads are answered or unheard, never refused. *)
Definition reads_arrive : Prop := forall e t, (fault XREADGROUP e).1 <> Refused t.

Lemma act_order a w : reads_arrive ->
  exists new, waiting (server (do_act sha256_hex a w)) = drop (if takes a then 1 else 0) (waiting (server w)) ++ new.
Proof.
  intros Hr. destruct a as [c parent run compiled params n|c n|c run n|c|ms]; cbn [do_act takes].
  - apply (run_more c). unfold submit_parent. apply uses_bind; [unfold load_state; walk|].
    intros [s|]; [done|]. apply uses_embed. by apply uses_all.
  - destruct n as [|n]; [by apply (more_refl (server w))|].
    destruct (reads_process sha256_hex c) as (k & -> & Hk). cbn [run_upto].
    assert (waiting (server (call c _ ReadGroup w).2) = drop 1 (waiting (server w))) as Hread.
    { cbn. unfold issue. specialize (Hr (env w)). destruct (fault XREADGROUP (env w)) as [f e]. cbn in Hr.
      assert (waiting (xreadgroup (server w) c).2 = drop 1 (waiting (server w))) as Hw.
      { destruct (waiting (server w)) as [|x l] eqn:Hw.
        - by destruct (xreadgroup_none (server w) c Hw) as (_ & -> & _).
        - by destruct (xreadgroup_some (server w) c x l Hw) as (_ & -> & _). }
      unfold on_server. destruct (xreadgroup (server w) c) as [o q]. cbn in *.
      destruct f as [|t|t]; [done| |done]. by destruct (Hr t). }
    destruct (call c _ ReadGroup w) as [x w1]. cbn in Hread. cbn [Nat.ltb Nat.leb]. rewrite <- Hread. by apply (run_more c).
  - apply (run_more c). apply uses_embed. by apply uses_all.
  - by apply more_refl.
  - apply more_same, elapse_waiting.
Qed.

(** C9. First come, first served: each tick that reaches the stream takes the
    oldest waiting entry, and nothing is put before an entry that waits; so the
    entry at place [k] is delivered by the [k+1]-st tick, whatever admissions,
    requests, restarts and crashes come between. *)
Theorem first_come_first_served acts w :
  reads_arrive -> exists new,
  waiting (server (play sha256_hex acts w)) = drop (turns acts) (waiting (server w)) ++ new.
Proof.
  intros Hr. revert w. induction acts as [|a acts IH]; intros w; [exists []; by rewrite app_nil_r|].
  destruct (IH (do_act sha256_hex a w)) as [new Hnew]. destruct (act_order a w Hr) as [new' Hnew'].
  change (play sha256_hex (a :: acts) w) with (play sha256_hex acts (do_act sha256_hex a w)). rewrite Hnew, Hnew'.
  exists (drop (turns acts - length (drop (if takes a then 1 else 0) (waiting (server w)))) new' ++ new).
  rewrite drop_app, drop_drop, <- app_assoc. f_equal. f_equal. unfold turns. cbn. by destruct (takes a).
Qed.

End Order.
