(* ===== verification/CoordinatorDeliveryDemo.v ===== *)
(** * CoordinatorDeliveryDemo: the durable queue at work

    One concrete stream that satisfies the laws, the theorems of
    [CoordinatorDelivery] applied to histories on it, and histories that show
    what their conditions are for. *)

From S2P Require Import Prelude PyValue PyText Programs Coordinator CoordinatorMachine CoordinatorRuns CoordinatorStore.
From S2P Require Import CoordinatorDelivery.

(** ** A stream *)

Module Demo.

(** The entries by number, how many are delivered, and what is pending: entry
    number, owner and time of delivery. *)
Record Server := mkServer { texts : list string; delivered : nat; claims : list (nat * string * Z); clock : Z }.

Definition number (n : nat) : eid := (0, Z.of_nat n).
Definition all_entries (s : Server) : list (eid * string) := imap (fun n r => (number n, r)) (texts s).

(** No more than there are. *)
Definition read (s : Server) : nat := Nat.min (delivered s) (length (texts s)).
Definition is_open (s : Server) (c : nat * string * Z) : bool := (c.1.1 <? read s)%nat.
Definition open_claims (s : Server) : list (nat * string * Z) := List.filter (is_open s) (claims s).

Definition claim_of (c : nat * string * Z) : eid * string := (number c.1.1, c.1.2).

Definition take_over (c : string) (now : Z) (i : eid) (x : nat * string * Z) : nat * string * Z :=
  if decide (number x.1.1 = i) then (x.1.1, c, now) else x.

Definition overdue (s : Server) (i : eid) (idle : Z) (x : nat * string * Z) : bool :=
  bool_decide (number x.1.1 = i) && (idle <=? clock s - x.2).

Definition find_entry (s : Server) (i : eid) : list (eid * string) :=
  List.filter (fun x => bool_decide (x.1 = i)) (all_entries s).

Definition acked (l : list eid) (c : nat * string * Z) : bool := bool_decide (number c.1.1 ∈ l).

#[export] Instance server_streams : Streams Server := {|
  entries := all_entries;
  waiting s := drop (read s) (all_entries s);
  pending s := claim_of <$> open_claims s;
  xadd s r := (number (length (texts s)), mkServer (texts s ++ [r]) (read s) (open_claims s) (clock s));
  xreadgroup s c :=
    match drop (read s) (all_entries s) with
    | [] => (None, s)
    | x :: _ => (Some x, mkServer (texts s) (S (read s)) (open_claims s ++ [(read s, c, clock s)]) (clock s))
    end;
  xpending s := (fun c => (number c.1.1, c.1.2, clock s - c.2)) <$> take 100 (open_claims s);
  xrange := find_entry;
  xclaim s c i idle :=
    if existsb (overdue s i idle) (open_claims s) then
      (find_entry s i, mkServer (texts s) (read s) (take_over c (clock s) i <$> open_claims s) (clock s))
    else ([], s);
  xack s l :=
    (Z.of_nat (length (List.filter (acked l) (open_claims s))),
     mkServer (texts s) (read s) (List.filter (fun c => negb (acked l c)) (open_claims s)) (clock s));
  elapse s t := mkServer (texts s) (read s) (open_claims s) (clock s + t) |}.

(** *** Its laws *)

Lemma ids_seq s : (all_entries s).*1 = number <$> seq 0 (length (texts s)).
Proof. unfold all_entries. rewrite fmap_imap. apply (imap_seq_0 (texts s) number). Qed.

Lemma number_inj n m : number n = number m -> n = m.
Proof. unfold number. intros [= H]. lia. Qed.
#[export] Instance number_Inj : Inj (=) (=) number.
Proof. intros n m. apply number_inj. Qed.

Lemma open_open s : Forall (fun c => is_open s c = true) (open_claims s).
Proof. apply List.Forall_forall. intros c Hc. by apply filter_In in Hc as [_ Hc]. Qed.

Lemma filter_all {A} (f : A -> bool) l : Forall (fun c => f c = true) l -> List.filter f l = l.
Proof. induction 1 as [|x l Hx Hl IH]; [done|]. cbn. by rewrite Hx, IH. Qed.

(** Claims on entries that are delivered stay open. *)
Lemma open_kept s texts' d l t :
  (read s <= Nat.min d (length texts'))%nat -> Forall (fun c => is_open s c = true) l ->
  open_claims (mkServer texts' d l t) = l.
Proof.
  intros Hd Hl. apply filter_all. eapply Forall_impl; [exact Hl|]. unfold is_open, read. cbn. unfold read in Hd.
  intros c Hc. apply Nat.ltb_lt in Hc. apply Nat.ltb_lt. lia.
Qed.

Lemma forall_filter {A} (P : A -> Prop) (f : A -> bool) l : Forall P l -> Forall P (List.filter f l).
Proof. induction 1 as [|x l Hx Hl IH]; cbn; [done|]. destruct (f x); [by constructor|done]. Qed.

Lemma read_le s : (read s <= length (texts s))%nat.
Proof. unfold read. lia. Qed.

Lemma read_bound s d t l : (d <= length (texts s))%nat -> read (mkServer (texts s) d t l) = d.
Proof. unfold read. cbn. lia. Qed.

Lemma entries_length s : length (all_entries s) = length (texts s).
Proof. apply length_imap. Qed.

Lemma in_filter {A} (f : A -> bool) l x : x ∈ List.filter f l <-> x ∈ l /\ f x = true.
Proof. rewrite !list_elem_of_In. apply filter_In. Qed.

#[export] Instance server_laws : StreamLaws Server.
Proof.
  split; cbn [entries waiting pending xadd xreadgroup xpending xrange xclaim xack elapse server_streams].
  - intros s. rewrite ids_seq. apply NoDup_fmap; [apply _|apply NoDup_seq].
  - intros s x Hx. rewrite <- (take_drop (read s) (all_entries s)). set_solver.
  - intros s i c [x [Heq Hx]]%list_elem_of_fmap. unfold claim_of in Heq. injection Heq as -> ->.
    rewrite ids_seq. apply list_elem_of_fmap. exists x.1.1. split; [done|].
    apply elem_of_seq. pose proof (open_open s) as Ho. rewrite Forall_forall in Ho. specialize (Ho _ Hx).
    unfold is_open, read in Ho. apply Nat.ltb_lt in Ho. lia.
  - intros s r. unfold all_entries. cbn. rewrite imap_app. cbn. by rewrite Nat.add_0_r.
  - intros s r. cbn. unfold all_entries at 1. cbn. rewrite imap_app. cbn. rewrite Nat.add_0_r.
    rewrite drop_app_le; [|rewrite length_imap; unfold read; cbn; rewrite length_app; lia].
    f_equal. f_equal. unfold read. cbn. rewrite length_app. lia.
  - intros s r. cbn. f_equal. apply (open_kept s); [unfold read; rewrite length_app; lia|apply open_open].
  - intros s c. by destruct (drop (read s) (all_entries s)).
  - intros s c Hw. rewrite Hw. done.
  - intros s c x w Hw. rewrite Hw. cbn [fst snd].
    assert (read s < length (texts s))%nat as Hlt.
    { destruct (decide (read s < length (texts s))%nat); [done|]. rewrite drop_ge in Hw; [done|]. rewrite entries_length. lia. }
    assert (x = (number (read s), default "" (texts s !! read s))) as Hx.
    { assert (all_entries s !! read s = Some x) as Hl.
      { rewrite <- (Nat.add_0_r (read s)), <- lookup_drop, Hw. done. }
      unfold all_entries in Hl. rewrite list_lookup_imap in Hl. destruct (texts s !! read s); [|done]. by injection Hl as <-. }
    split_and!; [done| |].
    + rewrite read_bound by lia. change (all_entries (mkServer _ _ _ _)) with (all_entries s).
      rewrite <- (Nat.add_1_r (read s)), <- drop_drop, Hw. done.
    + intros y. rewrite Hx. cbn [fst].
      set (s' := mkServer _ _ _ _). assert (read s' = S (read s)) as Hread by (apply read_bound; lia).
      assert (open_claims s' = open_claims s ++ [(read s, c, clock s)]) as ->.
      { apply filter_all, Forall_app. split; [|apply Forall_singleton; apply Nat.ltb_lt; rewrite Hread; cbn; lia].
        eapply Forall_impl; [apply open_open|]. unfold is_open. rewrite Hread. intros a Ha.
        apply Nat.ltb_lt in Ha. apply Nat.ltb_lt. lia. }
      rewrite fmap_app, elem_of_app. cbn. rewrite list_elem_of_singleton. unfold claim_of at 2. cbn. tauto.
  - intros s i c t [x [Heq Hx]]%list_elem_of_fmap. injection Heq as -> -> ->. apply list_elem_of_fmap. exists x. split; [done|].
    rewrite <- (take_drop 100 (open_claims s)). set_solver.
  - intros s i x. unfold find_entry. rewrite in_filter. by rewrite bool_decide_eq_true.
  - intros s c i t. by destruct (existsb _ _).
  - intros s c i t. destruct (existsb _ _); [|done]. cbn [fst snd]. rewrite read_bound by apply read_le. done.
  - intros s c i t j. destruct (existsb _ _); [|done]. cbn [fst snd]. rewrite (open_kept s); [|pose proof (read_le s); lia|].
    + rewrite <- !list_fmap_compose. induction (open_claims s) as [|x l IH]; [done|].
      cbn [fmap list_fmap]. rewrite !elem_of_cons, IH. unfold claim_of, compose, take_over. cbn. by case_decide.
    + apply Forall_fmap. eapply Forall_impl; [apply open_open|]. intros x Hx. unfold compose, take_over, is_open in *.
      by case_decide.
  - intros s c i t x. destruct (existsb _ _); cbn; [|set_solver]. unfold find_entry. rewrite in_filter. by rewrite bool_decide_eq_true.
  - done.
  - intros s l. cbn [fst snd]. rewrite read_bound by apply read_le. done.
  - intros s l y. cbn [fst snd]. rewrite (open_kept s); [|pose proof (read_le s); lia|apply forall_filter, open_open].
    rewrite !list_elem_of_fmap. split.
    + intros (x & -> & Hx). apply in_filter in Hx as [Hx Hn]. split; [by exists x|]. unfold acked in Hn. cbn.
      by apply negb_true_iff, bool_decide_eq_false in Hn.
    + intros [(x & -> & Hx) Hn]. exists x. split; [done|]. apply in_filter. split; [done|]. unfold acked.
      by apply negb_true_iff, bool_decide_eq_false.
  - done.
  - intros s t. cbn [fst snd]. rewrite read_bound by apply read_le. done.
  - intros s t. f_equal. apply (open_kept s); [pose proof (read_le s); lia|apply open_open].
Qed.

(** ** Histories *)

Abbreviation plan := (CoordinatorRuns.Demo.plan ["g"; "q"]).

(** Run [a]'s stages wait for ever; the stages of other runs end at once. *)
Definition waits : Outcome := mkOutcome "in_flight" (PDict []) None None (PStr "handle") [].

Definition answer {X} (o : op X) : X :=
  match o in op X return X with
  | Execute st s key =>
      if String.eqb (run_id s) "a" then Ok waits
      else CoordinatorRuns.Demo.answers CoordinatorRuns.Demo.second_passes (Execute st s key)
  | Poll _ _ _ _ => Ok waits
  | o' => CoordinatorRuns.Demo.answers CoordinatorRuns.Demo.second_passes o'
  end.

(** The saves of a world without a list succeed; one with a list fails those
    the list marks. *)
#[export] Instance calm : Outside unit := {| reply X o e := (answer o, e); fault _ e := (Fine, e) |}.

#[export] Instance marked : Outside (list bool) := {|
  reply X o e := (answer o, e);
  fault cmd e :=
    match cmd, e with
    | HSET, b :: e' => (if b : bool then Fine else Refused "connection lost", e')
    | _, _ => (Fine, e)
    end |}.

Definition started {E} (e : E) : World Server E := mkWorld ∅ (mkServer [] 0 [] 0) [] ∅ e.

Lemma started_good {E} `{Outside E} (e : E) : good None (fun _ => False) (started e).
Proof.
  split; cbn.
  - by intros run s Hs%lookup_empty_Some.
  - intros c run i. unfold entry_ids. cbn. rewrite lookup_empty. cbn. by rewrite lookup_empty.
  - intros run _ [[]|(s & Hs & _)]. cbn in Hs. by rewrite lookup_empty in Hs.
  - done.
Qed.

Abbreviation played := (play (fun s => s)).

Definition submit (run : string) : act := Admit "c" "job" run plan [] 100.
Definition ticks (n : nat) : list act := repeat (Process "c" 1000) n.

(** What a run came to: its terminal code and the attempts of stage [g]. *)
Definition came_to {E} (w : World Server E) (run : string) : option (option TerminalCode * Z) :=
  (fun s => (terminal_code s, Z.of_nat (length (attempts_of s "g")))) <$> hashes w !! run.

Definition standing {E} (w : World Server E) : list string * list (eid * string) :=
  ((waiting (server w)).*2, pending (server w)).

(** A run is admitted once, served to its end, and leaves nothing behind. *)
Example served_to_the_end :
  let w := played (submit "b" :: submit "b" :: ticks 7) (started ()) in
  came_to w "b" = Some (Some SUCCESS, 2) /\ standing w = ([], []).
Proof. by vm_compute. Qed.

(** A consumer crashes within a tick; another takes the run over after the
    idle time. *)
Definition crashed : list act := [submit "b"; Process "c" 9; Restart "c"].

Example recovered_by_another :
  let w := played (crashed ++ Process "d" 1000 :: Elapse 30000 :: repeat (Process "d" 1000) 8) (started ()) in
  standing (played crashed (started ())) = ([], [(number 0, "c")]) /\
  came_to w "b" = Some (Some UNSAFE_RESUME, 1) /\ standing w = ([], []).
Proof. by vm_compute. Qed.


Theorem stored_runs_lawful_witness :
  let w := played (submit "b" :: ticks 3) (started ()) in
  let s := default (CoordinatorRuns.Demo.started []) (hashes w !! "b") in
  run_id s = "b" /\ wf s /\ loops_ok s /\ ended_ok s.
Proof.
  refine (stored_runs_lawful (fun s => s) _ (submit "b" :: ticks 3) (started ()) "b" _ (started_good ()) _).
  - done.
  - by vm_compute.
Defined.

Theorem first_come_first_served_witness :
  exists new, waiting (server (played [Process "c" 5; submit "z"; Withdraw "c" "b" 9; Process "d" 2]
    (played [submit "a"; submit "b"; submit "x"] (started ())))) = [(number 2, "x")] ++ new.
Proof.
  refine (first_come_first_served (fun s => s) [Process "c" 5; submit "z"; Withdraw "c" "b" 9; Process "d" 2]
    (played [submit "a"; submit "b"; submit "x"] (started ())) _).
  done.
Defined.

(** *** What the conditions are for *)

(** A terminal save that fails unnoticed: the claim is acknowledged, and the
    run stays live in the store with no entry left. *)
Example unsaved_end_lost :
  let w := played (submit "b" :: ticks 12) (started (repeat true 18 ++ [false])) in
  (is_terminal <$> hashes w !! "b") = Some false /\ standing w = ([], []).
Proof. by vm_compute. Qed.

(** A cancellation request that loaded before a run's last tick and saves after
    it brings the run back to life; cut before its requeue, it leaves the run
    live with no entry left. *)
Example revived_and_lost :
  let w0 := played (submit "b" :: ticks 4) (started ()) in
  let '(tick, _, w) := both (call "c") ([false] ++ repeat true 200 ++ [false])
                         (process_one (fun s => s) "c") (cancel "b") w0 in
  is_ok (A := unit) (E := unit) match tick with Ret _ => Ok () | _ => Err () end = true /\
  (is_terminal <$> hashes w !! "b") = Some false /\ standing w = ([], []).
Proof. by vm_compute. Qed.

(** A run that only waits keeps the queue from being empty, and orphans are
    looked for only when it is: the crashed run is not recovered, however many
    ticks pass. *)
Example orphan_starves :
  let w n := played ([submit "b"; Process "c" 9; Restart "c"; submit "a"; Elapse 60000] ++ ticks n) (started ()) in
  came_to (w 40%nat) "b" = came_to (w 1%nat) "b" /\ pending (server (w 40%nat)) = [(number 0, "c")] /\
  came_to (w 40%nat) "a" = Some (None, 1).
Proof. by vm_compute. Qed.

(** A request made by a process that holds no claim adds an entry, and the
    entries of a run then each move it on. *)
Example entries_multiply :
  standing (played [submit "a"; Withdraw "d" "a" 9; Withdraw "d" "a" 9] (started ())) = (["a"; "a"; "a"], []).
Proof. by vm_compute. Qed.

End Demo.
