(* ===== verification/CoordinatorAdapters.v ===== *)
(** * CoordinatorAdapters: who executes a stage

    Models the leaf client of [scripts/gpu_manager_pipeline_runtime.py] and the
    reviewed adapters of [scripts/workflow_coordinator_runtime.py]: the exact
    provider/adapter registry, the external executor over reviewed handlers,
    the guarded leaf client and the callback map.  GPU Manager's callables and
    the handlers are parameters over a state of the outside. *)

From stdpp Require Import pretty.
From S2P Require Import Prelude PyValue PyText Coordinator.

(** ** The leaf client *)

Definition _LEAF_REJECT_KEYS : list string :=
  ["service_pipeline_id"; "worker_pipeline"; "pipeline"; "internal_leaf"; "skip_pipeline"; "force_qc_fail"].

Definition forbidden (k : string) : bool := bool_decide (k ∈ _LEAF_REJECT_KEYS).

Definition forbidden_text (path k : string) : string :=
  path +:+ "." +:+ k +:+ ": forbidden key '" +:+ k +:+ "' found in trusted_config "
  +:+ "(must not be forwarded to GPUManager)".

Definition item_path (path : string) (i : Z) : string := path +:+ "[" +:+ pretty i +:+ "]".

(** [_reject_recursive]; [Err] is [ValueError]. *)
Fixpoint _reject_recursive (path : string) (v : value) : result string unit :=
  match v with
  | PDict d =>
      (fix go d := match d with
        | [] => Ok ()
        | (k, x) :: d' =>
            if forbidden k then Err (forbidden_text path k)
            else _ ← _reject_recursive (path +:+ "." +:+ k) x; go d'
        end) d
  | PList l =>
      (fix go (i : Z) l := match l with
        | [] => Ok ()
        | x :: l' => _ ← _reject_recursive (item_path path i) x; go (i + 1) l'
        end) 0 l
  | _ => Ok ()
  end.

Definition binary_key (k : string) : bool :=
  let lowered := py_lower k in
  bool_decide (lowered ∈ ["base64"; "blob"; "bytes"; "authorization"; "secret"])
  || existsb (fun s => ends_with s lowered) ["_b64"; "_base64"; "_blob"; "_bytes"].

(** [_bounded_leaf_output]; [Err] is [ValueError]. *)
Fixpoint _bounded_leaf_output (path : string) (v : value) : result string value :=
  match v with
  | PStr s => Ok (PStr (str_take MAX_STR_LEN s))
  | PDict d =>
      items ← (fix go d := match d with
        | [] => Ok []
        | (k, x) :: d' =>
            if binary_key k then go d'
            else x' ← _bounded_leaf_output (path +:+ "." +:+ k) x; r ← go d'; Ok ((k, x') :: r)
        end) d;
      Ok (PDict items)
  | PList l =>
      if (MAX_COLLECTION_ITEMS <? length l)%nat then Err (path +:+ ": child output list exceeds 1000 items")
      else
        items ← (fix go (i : Z) l := match l with
          | [] => Ok []
          | x :: l' => x' ← _bounded_leaf_output (item_path path i) x; r ← go (i + 1) l'; Ok (x' :: r)
          end) 0 l;
        Ok (PList items)
  | _ => Ok v
  end.

Definition get_text (d : data) (k : string) : string := py_str (dict_get_or d k (PStr "")).

Section LeafClient.
Context {E : Type}.
(** GPU Manager's callables. *)
Variable submit_leaf : value -> value -> string -> data -> E -> result string value * E.
Variable poll_leaf : string -> E -> result string value * E.
Variable cancel_leaf : string -> E -> result string bool * E.
Variable now_iso : string.

Definition first_truthy (d : data) (keys : list string) : value :=
  fold_right (fun k v => value_or (dict_get_or d k PNone) v) (PStr "") keys.

Definition leaf_service (config : data) : value :=
  value_or (dict_get_or config "service_id" (PStr "")) (dict_get_or config "provider" (PStr "")).

Definition leaf_resource (config : data) : value :=
  let resource := dict_get_or config "resource_id" (PStr "") in
  if py_truthy resource then resource
  else match dict_get config "params" with
       | Some (PDict params) => first_truthy params ["resource_id"; "template"; "qwen_template"]
       | _ => resource
       end.

Definition leaf_job_id (key : string) : string := "gm-" +:+ str_take 12 key.

Definition leaf_params (config : data) (parent_run_id parent_job key : string) : data :=
  dict_set (dict_set (dict_set config "parent_run_id" (PStr parent_run_id)) "parent_job_id" (PStr parent_job))
    "idempotency_key" (PStr key).

(** [GPUManagerLeafGenerationClient.submit] *)
Definition leaf_submit (parent_run_id : string) (s : PipelineRunState) (key : string) (config : data) (e : E)
    : result string string * E :=
  match _reject_recursive "$" (PDict config) with
  | Err t => (Err t, e)
  | Ok _ =>
      let expected := leaf_job_id key in
      let '(r, e') := submit_leaf (leaf_service config) (leaf_resource config) expected
                        (leaf_params config parent_run_id (parent_job_id s) key) e in
      match r with
      | Err t => (Err t, e')
      | Ok result =>
          let returned := dict_get_or (as_dict result) "job_id" (PStr "") in
          match returned with
          | PStr t =>
              if String.eqb t expected then (Ok t, e')
              else (Err ("GPUManager returned mismatched job_id: " +:+ py_repr returned +:+ " (expected "
                         +:+ py_repr_str expected +:+ "); service may have routed to an unintended pipeline"), e')
          | _ => (Err ("GPUManager returned mismatched job_id: " +:+ py_repr returned +:+ " (expected "
                       +:+ py_repr_str expected +:+ "); service may have routed to an unintended pipeline"), e')
          end
      end
  end.

Definition normal_status (raw : string) : string :=
  if bool_decide (raw ∈ ["queued"; "in_flight"; "running"]) then "in_flight"
  else if str_truthy raw then raw else "unknown".

Definition leaf_artifact (raw : data) : option ArtifactRef :=
  match dict_get raw "artifact" with
  | Some (PDict a) =>
      Some (mkArtifactRef (get_text a "path_or_url") (get_text a "sha256") (get_text a "producer_stage_id")
              (get_text a "produced_at"))
  | _ => None
  end.

Definition leaf_verdict (raw : data) : option QCVerdict :=
  match dict_get raw "qc_verdict" with
  | Some (PDict q) =>
      match dict_get_or q "passed" PNone with
      | PNone => None
      | p => Some (mkQCVerdict (get_text q "stage_id") (py_truthy p) (get_text q "report")
                     (match dict_get_or q "raw_data" PNone with PNone => None | v => Some (py_str v) end)
                     (py_str (dict_get_or q "scored_at" (PStr now_iso))))
      end
  | _ => None
  end.

(** [poll], on what the tracker returned. *)
Definition leaf_report (reply : value) : result string LeafReport :=
  let raw := as_dict reply in
  let artifact := leaf_artifact raw in
  output ← match dict_get raw "output" with
           | Some (PDict o) => v ← _bounded_leaf_output "$" (PDict o); Ok (as_dict v)
           | _ => Ok []
           end;
  let output' := match artifact, dict_get output "artifact" with
                 | Some a, None => dict_set output "artifact" (PDict (artifact_dict a))
                 | _, _ => output
                 end in
  Ok (mkLeafReport (normal_status (py_lower (get_text raw "status"))) (PDict output')
        (Some match dict_get_or raw "error" PNone with PNone => None | v => Some (py_str v) end)
        (leaf_verdict raw)
        (match artifact with Some a => artifact_dict a | None => [] end)).

Definition leaf_poll (child : string) (e : E) : result string LeafReport * E :=
  let '(r, e') := poll_leaf child e in
  (match r with
   | Ok reply => leaf_report reply
   | Err t => Err ("poll_leaf failed for " +:+ py_repr_str child +:+ ": " +:+ t)
   end, e').

Definition leaf_cancel (child : string) (e : E) : result string bool * E :=
  let '(r, e') := cancel_leaf child e in
  (match r with
   | Ok b => Ok b
   | Err t => Err ("cancel_leaf failed for " +:+ py_repr_str child +:+ ": " +:+ t)
   end, e').

End LeafClient.

(** ** The registry *)

(** [_bindings]: the authority of a provider and adapter. *)
Abbreviation Registry := (gmap (string * string) string).

(** [f"...{x!r}..."] of a value of any kind. *)
Definition register (provider_id adapter_id authority : string) (reg : Registry) : result string Registry :=
  let provider := py_strip provider_id in
  let adapter := py_strip adapter_id in
  let owner := py_lower (py_strip authority) in
  if negb (str_truthy provider) || negb (str_truthy adapter) then Err "provider and adapter IDs must be non-empty"
  else if negb (bool_decide (owner ∈ ["leaf"; "external"])) then
    Err ("authority for " +:+ py_repr_str provider +:+ "/" +:+ py_repr_str adapter +:+ " must be leaf or external")
  else match reg !! (provider, adapter) with
       | Some o =>
           if String.eqb o owner then Ok (<[(provider, adapter) := owner]> reg)
           else Err ("conflicting authority for provider=" +:+ py_repr_str provider +:+ ", adapter="
                     +:+ py_repr_str adapter)
       | None => Ok (<[(provider, adapter) := owner]> reg)
       end.

(** A non-empty text, stripped, as [isinstance(v, str) and v.strip()]. *)
Definition stripped_text (v : option value) : option string :=
  match v with Some (PStr s) => if str_truthy (py_strip s) then Some (py_strip s) else None | _ => None end.

Definition managed_authority (leaf_adapters external_adapters : list string) (provider : string) (config : data)
    (adapter : string) : result string string :=
  match dict_get config "managed" with
  | Some (PStr "worker") => Ok "leaf"
  | Some (PStr "external") => Ok "external"
  | _ =>
      if bool_decide (adapter ∈ leaf_adapters) then Ok "leaf"
      else if bool_decide (adapter ∈ external_adapters) then Ok "external"
      else Err ("provider " +:+ py_repr_str provider +:+ " adapter " +:+ py_repr_str adapter
                +:+ " has no reviewed managed authority")
  end.

Definition bindings_state : Type := Registry * list (string * string).

Definition add_provider (leaf_adapters external_adapters : list string) (st : bindings_state) (p : string * value)
    : result string bindings_state :=
  let '(reg, authorities) := st in
  match p.2 with
  | PDict config =>
      match stripped_text (dict_get config "adapter") with
      | None => Err ("provider " +:+ py_repr_str p.1 +:+ " has no reviewed adapter")
      | Some adapter =>
          authority ← managed_authority leaf_adapters external_adapters p.1 config adapter;
          reg' ← register p.1 adapter authority reg;
          Ok (reg', dict_set authorities (py_strip p.1) authority)
      end
  | _ => Err ("provider " +:+ py_repr_str p.1 +:+ " configuration must be an object")
  end.

Fixpoint fold_result {A B} (f : B -> A -> result string B) (b : B) (l : list A) : result string B :=
  match l with [] => Ok b | x :: l' => b' ← f b x; fold_result f b' l' end.

Definition add_reference (authorities : list (string * string)) (operation adapter : string) (reg : Registry)
    (ref : value) : result string Registry :=
  let provider := py_strip (py_str ref) in
  match dict_get authorities provider with
  | None => Err ("operation " +:+ py_repr_str operation +:+ " references provider " +:+ py_repr_str provider
                 +:+ " without a reviewed provider binding")
  | Some authority => register provider adapter authority reg
  end.

Definition add_operation (authorities : list (string * string)) (catalog : string) (reg : Registry)
    (o : string * value) : result string Registry :=
  let where_ := "operation " +:+ py_repr_str o.1 +:+ " in catalog " +:+ py_repr_str catalog in
  match o.2 with
  | PDict operation =>
      match dict_get operation "adapter" with
      | Some (PStr adapter) =>
          if negb (str_truthy (py_strip adapter)) then Err (where_ +:+ " has no adapter")
          else match dict_get_or operation "provider_refs" (PList []) with
               | PList refs => fold_result (add_reference authorities o.1 adapter) reg refs
               | _ => Err (where_ +:+ " provider_refs must be a list")
               end
      | _ => Err (where_ +:+ " has no adapter")
      end
  | _ => Err (where_ +:+ " must be an object")
  end.

Definition add_catalog (authorities : list (string * string)) (reg : Registry) (c : string * value)
    : result string Registry :=
  match c.2 with
  | PDict catalog =>
      match dict_get_or catalog "operations" (PDict []) with
      | PDict operations => fold_result (add_operation authorities c.1) reg operations
      | _ => Err ("operation catalog " +:+ py_repr_str c.1 +:+ " operations must be an object")
      end
  | _ => Err ("operation catalog " +:+ py_repr_str c.1 +:+ " must be an object")
  end.

(** [ReviewedAdapterRegistry.from_config] *)
Definition registry_from_config (config : data) (operation_catalogs : option value)
    (leaf_adapters external_adapters : list string) : result string Registry :=
  match dict_get_or config "pipeline_providers" (PDict []) with
  | PDict providers =>
      '(reg, authorities) ← fold_result (add_provider leaf_adapters external_adapters) (∅, []) providers;
      match default (dict_get_or config "operation_catalogs" (PDict [])) operation_catalogs with
      | PDict catalogs => fold_result (add_catalog authorities) reg catalogs
      | _ => Err "operation_catalogs must be an object"
      end
  | _ => Err "pipeline_providers must be an object"
  end.

(** The identity a stage names. *)
Definition binding_key (st : data) : string * string :=
  (py_strip (py_str (value_or (dict_get_or st "provider" PNone) (PStr ""))),
   py_strip (py_str (value_or (dict_get_or st "adapter" PNone) (PStr "")))).

Definition binding_for (reg : Registry) (st : data) : result string (string * string * string) :=
  match reg !! binding_key st with
  | Some authority => Ok (binding_key st, authority)
  | None => Err ("no reviewed adapter binding for provider=" +:+ py_repr_str (binding_key st).1 +:+ ", adapter="
                 +:+ py_repr_str (binding_key st).2)
  end.

(** [resolve] *)
Definition resolve (reg : Registry) (st : data) : result string string :=
  b ← binding_for reg st; Ok b.2.

(** ** The external executor *)

(** What a stage is called in a message. *)
Definition stage_name (st : data) : string := py_repr (dict_get_or st "id" PNone).

Section External.
Context {E : Type}.
Abbreviation Handler := (data -> PipelineRunState -> string -> E -> result string value * E).
Abbreviation PollHandler := (data -> PipelineRunState -> string -> string -> E -> result string value * E).
Variables (reg : Registry) (handlers : gmap (string * string) Handler)
  (poll_handlers : gmap (string * string) PollHandler)
  (cancel_handler : option (string -> string -> E -> result string value * E)).
Variable now_iso : string.

Definition external_binding (st : data) : result string (string * string * string) :=
  b ← binding_for reg st;
  if String.eqb b.2 "external" then Ok b else Err ("stage " +:+ stage_name st +:+ " is not externally owned").

Definition or_empty (d : data) (k : string) : value := value_or (dict_get_or d k PNone) (PStr "").

(** [_normalise_qc] *)
Definition _normalise_qc (v : value) (sid : string) : option QCVerdict :=
  match v with
  | PDict q =>
      match dict_get q "passed" with
      | None => None
      | Some p =>
          Some (mkQCVerdict (py_str (value_or (dict_get_or q "stage_id" PNone) (PStr sid))) (py_truthy p)
                  (str_take MAX_STR_LEN (py_str (or_empty q "report")))
                  (match dict_get_or q "raw_data" PNone with
                   | PNone => None | v => Some (str_take MAX_STR_LEN (py_str v)) end)
                  (py_str (value_or (dict_get_or q "scored_at" PNone) (PStr now_iso))))
      end
  | _ => None
  end.

Definition known_status (s : string) : bool :=
  bool_decide (s ∈ ["completed"; "failed"; "queued"; "in_flight"; "pending"]).

(** [_normalise] *)
Definition _normalise (st : data) (raw : value) : result string Outcome :=
  match raw with
  | PDict d =>
      let status := py_lower (py_str (value_or (dict_get_or d "status" PNone) (PStr "failed"))) in
      if negb (known_status status) then
        Err ("external adapter returned unsupported status " +:+ py_repr_str status)
      else match value_or (dict_get_or d "output" PNone) (PDict []) with
           | PDict output =>
               output' ← sanitize_dict "$" output;
               artifact ← match dict_get_or d "artifact" PNone with
                          | PNone => Ok []
                          | PDict a => sanitize_dict "$" a
                          | _ => Err "external artifact must be an object"
                          end;
               Ok (mkOutcome status (PDict output')
                     (match dict_get_or d "error" PNone with
                      | PNone => None | v => Some (str_take MAX_STR_LEN (py_str v)) end)
                     (_normalise_qc (dict_get_or d "qc_verdict" PNone) (py_str (or_empty st "id")))
                     (match dict_get_or d "provider_handle" PNone with PNone => PNone | v => PStr (py_str v) end)
                     artifact)
           | _ => Err "external adapter output must be an object"
           end
  | _ => Err "external adapter result must be an object"
  end.

Definition finish_call (st : data) (r : result string value * E) : result string Outcome * E :=
  (raw ← r.1; _normalise st raw, r.2).

(** [execute] *)
Definition external_execute (st : data) (s : PipelineRunState) (key : string) (e : E) : result string Outcome * E :=
  match external_binding st with
  | Err t => (Err t, e)
  | Ok b =>
      match handlers !! b.1 with
      | None => (Err ("no external executor for provider=" +:+ py_repr_str b.1.1 +:+ ", adapter="
                      +:+ py_repr_str b.1.2), e)
      | Some handler => finish_call st (handler st s key e)
      end
  end.

(** [poll] *)
Definition external_poll (st : data) (s : PipelineRunState) (key handle : string) (e : E)
    : result string Outcome * E :=
  match external_binding st with
  | Err t => (Err t, e)
  | Ok b =>
      match poll_handlers !! b.1 with
      | None => (Ok (no_outcome "failed" (Some "unsafe_external_resume: no reviewed provider poll handler")), e)
      | Some handler => finish_call st (handler st s key handle e)
      end
  end.

(** [cancel]: an exception is [False]. *)
Definition external_cancel (run sid : string) (e : E) : bool * E :=
  match cancel_handler with
  | None => (false, e)
  | Some h => let '(r, e') := h run sid e in (match r with Ok v => py_truthy v | Err _ => false end, e')
  end.

End External.

(** [ReviewedLeafGenerationClient.submit]: the delegate, for leaf stages only. *)
Definition guarded_submit {E : Type} (reg : Registry) (delegate : E -> result string string * E) (st : data) (e : E)
    : result string string * E :=
  match binding_for reg st with
  | Err t => (Err t, e)
  | Ok b => if String.eqb b.2 "leaf" then delegate e
            else (Err ("stage " +:+ stage_name st +:+ " is not leaf-owned"), e)
  end.

(** ** The callback map *)

Section CallbackMap.
Context {H P : Type}.

(** [CoordinatorCallbackMap.from_config]: the registry, when the callbacks are
    exactly the reviewed ones. *)
Definition callback_map_from_config (config : data) (handlers : gmap (string * string) H)
    (poll_handlers : gmap (string * string) P) (operation_catalogs : option value)
    (leaf_adapters external_adapters : list string) : result string Registry :=
  reg ← registry_from_config config operation_catalogs leaf_adapters external_adapters;
  let external := dom (filter (fun i => i.2 = "external") reg) in
  let missing := external ∖ dom handlers in
  let extra := dom handlers ∖ dom reg in
  let poll_extra := dom poll_handlers ∖ external in
  if decide (missing = ∅ /\ extra = ∅ /\ poll_extra = ∅) then Ok reg
  else Err "external callbacks do not match the reviewed bindings".

End CallbackMap.
