(* ===== verification/CoordinatorGuards.v ===== *)
(** * CoordinatorGuards: what passes between the coordinator and its executors

    Properties of [CoordinatorAdapters] and of the sanitizer and the trusted
    configuration of [Coordinator]: what the sanitizer let through it lets
    through again, so what the external executor returns can be recorded; a
    leaf receives no key that could redirect its work, at any depth; and every
    stage is executed by the one owner the configuration reviewed. *)

From stdpp Require Import pretty.
From S2P Require Import Prelude PyValue PyText Coordinator CoordinatorMachine CoordinatorAdapters.

(** ** The sanitizer *)

Definition sanitize_items (path : string) : data -> result string data :=
  fix go d := match d with
  | [] => Ok []
  | (k, x) :: d' => x' ← _deep_sanitize (path +:+ "." +:+ k) x; r ← go d'; Ok ((k, x') :: r)
  end.

Definition sanitize_list (path : string) : Z -> list value -> result string (list value) :=
  fix go i l := match l with
  | [] => Ok []
  | x :: l' => x' ← _deep_sanitize (path +:+ "[" +:+ pretty i +:+ "]") x; r ← go (i + 1) l'; Ok (x' :: r)
  end.

Definition sane (d : data) : Prop := List.find (fun i => rejected_key i.1) d = None /\ List.find rejected_item d = None.

Lemma sanitize_dict_ok path d v :
  _deep_sanitize path (PDict d) = Ok v <-> sane d /\ exists d', sanitize_items path d = Ok d' /\ v = PDict d'.
Proof.
  change (_deep_sanitize path (PDict d)) with
    (match List.find (fun i => rejected_key i.1) d, List.find rejected_item d with
      | Some (k, _), _ => Err (path +:+ "." +:+ k +:+ ": rejected key '" +:+ k +:+ "' for persistence safety")
      | None, Some (k, _) => Err (path +:+ "." +:+ k +:+ ": key suffix rejected for persistence safety")
      | None, None => items ← sanitize_items path d; Ok (PDict items)
      end). unfold sane.
  destruct (List.find _ d) as [[k x]|]; [naive_solver|]. destruct (List.find rejected_item d) as [[k x]|]; [naive_solver|].
  destruct (sanitize_items path d) as [d'|t]; cbn; naive_solver.
Qed.

Lemma sanitize_list_ok path l v :
  _deep_sanitize path (PList l) = Ok v <->
  (length l <= MAX_COLLECTION_ITEMS)%nat /\ exists l', sanitize_list path 0 l = Ok l' /\ v = PList l'.
Proof.
  change (_deep_sanitize path (PList l)) with
    (if (MAX_COLLECTION_ITEMS <? length l)%nat then
       Err (A := value) (path +:+ ": collection exceeds 1000 items for persistence safety")
     else items ← sanitize_list path 0 l; Ok (PList items)).
  destruct (Nat.ltb_spec MAX_COLLECTION_ITEMS (length l)); [split; [done|lia]|].
  destruct (sanitize_list path 0 l) as [l'|t]; cbn; naive_solver.
Qed.

Lemma sane_items d : sane d <-> Forall (fun i => rejected_key i.1 = false /\ rejected_item i = false) d.
Proof.
  unfold sane. induction d as [|i d IH]; cbn; [by split|]. rewrite Forall_cons, <- IH.
  destruct (rejected_key i.1), (rejected_item i); naive_solver.
Qed.

(** An item that passed once passes again: a byte count stays one. *)
Lemma rejected_item_again path k x x' :
  _deep_sanitize path x = Ok x' -> rejected_item (k, x) = false -> rejected_item (k, x') = false.
Proof.
  intros Hx. unfold rejected_item, byte_count. cbn [fst snd].
  destruct (existsb (fun s => ends_with s k) SANITIZE_REJECT_SUFFIXES), (ends_with "_bytes" k); try done.
  destruct x; try done. cbn in Hx. by injection Hx as <-.
Qed.

Definition again (v : value) : Prop := forall path v', _deep_sanitize path v = Ok v' -> _deep_sanitize path v' = Ok v'.

Lemma items_again path d : Forall (fun i => again i.2) d -> forall d', sane d -> sanitize_items path d = Ok d' ->
  sane d' /\ sanitize_items path d' = Ok d'.
Proof.
  induction 1 as [|[k x] d Hx Hd IH]; intros d' Hs Hd'; cbn in Hd'; [by injection Hd' as <-|].
  destruct (_deep_sanitize _ x) as [x'|] eqn:Hx'; [|done]. cbn in Hd'.
  apply sane_items, Forall_cons in Hs as [[Hk Hi] Hs]. rewrite <- sane_items in Hs.
  destruct (sanitize_items path d) as [r|] eqn:Hr; [|done]. cbn in Hd'. injection Hd' as <-.
  destruct (IH r Hs eq_refl) as [Hsr Hrr]. split.
  - apply sane_items, Forall_cons. split; [|by apply sane_items]. split; [done|]. by eapply rejected_item_again.
  - cbn. cbn in Hx. by rewrite (Hx _ _ Hx'), Hrr.
Qed.

Lemma list_again path l : Forall again l -> forall i l', sanitize_list path i l = Ok l' ->
  length l' = length l /\ sanitize_list path i l' = Ok l'.
Proof.
  induction 1 as [|x l Hx Hl IH]; intros i l' Hl'; cbn in Hl'; [by injection Hl' as <-|].
  destruct (_deep_sanitize _ x) as [x'|] eqn:Hx'; [|done]. cbn in Hl'.
  destruct (sanitize_list path (i + 1) l) as [r|] eqn:Hr; [|done]. cbn in Hl'. injection Hl' as <-.
  destruct (IH _ _ Hr) as [Hlen Hrr]. split; [cbn; by rewrite Hlen|]. cbn. by rewrite (Hx _ _ Hx'), Hrr.
Qed.

Definition bounded_text (path s : string) : string :=
  if (MAX_STR_LEN <? String.length s)%nat then too_long_text path else s.

(** Sanitizing is idempotent: what the persistence sanitizer let through at
    a path it lets through again, unchanged. *)
Theorem sanitize_idempotent path v v' : _deep_sanitize path v = Ok v' -> _deep_sanitize path v' = Ok v'.
Proof.
  revert path v'. apply (value_nested_ind again).
  - intros x Hx path v'. destruct x; try done; try (by intros [= <-]).
    change (_deep_sanitize path (PStr s)) with (Ok (E := string) (PStr (bounded_text path s))). intros [= <-].
    change (Ok (E := string) (PStr (bounded_text path (bounded_text path s))) = Ok (PStr (bounded_text path s))).
    unfold bounded_text. destruct (MAX_STR_LEN <? String.length s)%nat eqn:Hs; [|by rewrite Hs].
    by destruct (MAX_STR_LEN <? String.length (too_long_text path))%nat.
  - intros l Hl path v' (Hlen & l' & Hl' & ->)%sanitize_list_ok. apply sanitize_list_ok.
    destruct (list_again path l Hl _ _ Hl') as [Hlen' Hr]. split; [by rewrite Hlen'|by exists l'].
  - intros d Hd path v' (Hs & d' & Hd' & ->)%sanitize_dict_ok. apply sanitize_dict_ok.
    destruct (items_again path d Hd _ Hs Hd') as [Hs' Hr]. split; [done|by exists d'].
Qed.

Lemma sanitize_dict_again path d d' : sanitize_dict path d = Ok d' -> sanitize_dict path d' = Ok d'.
Proof.
  unfold sanitize_dict. destruct (_deep_sanitize path (PDict d)) as [v|] eqn:Hv; [|done].
  apply sanitize_idempotent in Hv as Hv'. apply sanitize_dict_ok in Hv as (_ & d1 & _ & ->).
  cbn [mbind result_bind]. intros [= <-]. by rewrite Hv'.
Qed.

(** ** What the external executor returns *)

Lemma normalise_output now st raw o : _normalise now st raw = Ok o ->
  exists out, o_output o = PDict out /\ sanitize_dict "$" out = Ok out.
Proof.
  unfold _normalise. destruct raw as [| | | | | | | |d]; try done. destruct (negb _); [done|].
  destruct (value_or _ _) as [| | | | | | | |out]; try done.
  destruct (sanitize_dict "$" out) as [out'|] eqn:Hout; cbn [mbind result_bind]; [|done].
  apply sanitize_dict_again in Hout.
  destruct (dict_get_or d "artifact" PNone) as [| | | | | | | |a]; try done; cbn [mbind result_bind].
  - intros [= <-]. by exists out'.
  - destruct (sanitize_dict "$" a); cbn [mbind result_bind]; [|done]. intros [= <-]. by exists out'.
Qed.

Lemma record_result_ok s sid st now o out :
  sanitize_dict "$" (as_dict (o_output o)) = Ok out -> is_ok (reported_artifact (o_artifact o)) = true ->
  is_ok (record_result s sid st now o) = true.
Proof.
  intros Hout Ha. unfold record_result. rewrite Hout. cbn [mbind result_bind].
  destruct (reported_artifact (o_artifact o)) as [r|] eqn:Hr; [|done].
  destruct (o_handle o); cbn -[reported_artifact _provider_handle]; rewrite ?Hr; try done;
    destruct (_provider_handle _); cbn -[reported_artifact]; by rewrite Hr.
Qed.

(** What the external executor returns can be recorded: an outcome that
    came through the reviewed executor, executed or polled, never makes the
    coordinator's record of the attempt raise, provided an artifact it reports
    has its two keys. *)
Theorem external_result_recorded {E : Type} reg handlers polls now st s key handle (e e' : E) o s1 sid st1 t :
  external_execute reg handlers now st s key e = (Ok o, e') \/
  external_poll reg polls now st s key handle e = (Ok o, e') ->
  is_ok (reported_artifact (o_artifact o)) = true -> is_ok (record_result s1 sid st1 t o) = true.
Proof.
  intros Ho Ha.
  assert (exists out, sanitize_dict "$" (as_dict (o_output o)) = Ok out) as [out Hout]; [|by eapply record_result_ok].
  assert (forall r, finish_call now st r = (Ok o, e') -> exists out, sanitize_dict "$" (as_dict (o_output o)) = Ok out) as Hf.
  { intros [[raw|x] e1]; [|done]. unfold finish_call. cbn. intros [= Hn _].
    apply normalise_output in Hn as (out & -> & Hout). by exists out. }
  destruct Ho as [Ho|Ho]; [unfold external_execute in Ho|unfold external_poll in Ho];
    (destruct (external_binding reg st); [|done]).
  - destruct (handlers !! _); [|done]. by apply Hf in Ho.
  - destruct (polls !! _); [by apply Hf in Ho|]. injection Ho as <- _. by exists [].
Qed.

(** ** What a leaf receives *)

Lemma all_keys_weaken (f g : string -> bool) v :
  (forall k, f k = true -> g k = true) -> all_keys f v = true -> all_keys g v = true.
Proof.
  intros Hfg. apply (value_nested_ind (fun v => all_keys f v = true -> all_keys g v = true)).
  - by intros [].
  - induction 1 as [|x l Hx Hl IH]; [done|]. cbn. rewrite !andb_true_iff. naive_solver.
  - induction 1 as [|[k x] d Hx Hd IH]; [done|]. cbn. cbn in Hx, IH. rewrite !andb_true_iff. naive_solver.
Qed.

Lemma all_keys_and (f g : string -> bool) v :
  all_keys f v = true -> all_keys g v = true -> all_keys (fun k => f k && g k) v = true.
Proof.
  apply (value_nested_ind (fun v => all_keys f v = true -> all_keys g v = true -> all_keys (fun k => f k && g k) v = true)).
  - by intros [].
  - induction 1 as [|x l Hx Hl IH]; [done|]. cbn. rewrite !andb_true_iff. naive_solver.
  - induction 1 as [|[k x] d Hx Hd IH]; [done|]. cbn. cbn in Hx, IH. rewrite !andb_true_iff. naive_solver.
Qed.

Lemma deep_strip_keys v : all_keys (fun k => negb (stripped_key k)) (_deep_strip v) = true.
Proof.
  apply (value_nested_ind (fun v => all_keys (fun k => negb (stripped_key k)) (_deep_strip v) = true)).
  - by intros [].
  - induction 1 as [|x l Hx Hl IH]; [done|]. cbn in *. by rewrite Hx, IH.
  - induction 1 as [|[k x] d Hx Hd IH]; [done|]. cbn in *. destruct (stripped_key k) eqn:Hk; [done|]. cbn.
    by rewrite Hk, Hx, IH.
Qed.

Lemma trusted_keys st s : all_keys (fun k => negb (caller_key k)) (PDict (_build_trusted_config st s)) = true.
Proof.
  assert (forall v, all_keys (fun k => negb (caller_key k)) (_deep_strip v) = true) as Hv.
  { intros v. eapply all_keys_weaken; [|apply deep_strip_keys]. intros k Hk. unfold stripped_key in Hk.
    apply negb_true_iff, orb_false_iff in Hk as [-> _]. done. }
  unfold _build_trusted_config. rewrite all_keys_dict. apply forallb_dict_set; [cbn [fst snd]; by rewrite Hv|].
  induction st as [|[k v] st IH]; [done|]. cbn. destruct (caller_key k) eqn:Hk; [done|]. cbn. by rewrite Hk, Hv, IH.
Qed.

(** The check of the leaf client is exact. *)
Lemma reject_exact v : forall path,
  _reject_recursive path v = Ok () <-> all_keys (fun k => negb (forbidden k)) v = true.
Proof.
  apply (value_nested_ind (fun v => forall path,
    _reject_recursive path v = Ok () <-> all_keys (fun k => negb (forbidden k)) v = true)).
  - by intros [].
  - intros l Hl path. cbn. generalize 0. induction Hl as [|x l Hx Hl IH]; intros i; cbn; [done|].
    rewrite andb_true_iff, <- (Hx (item_path path i)), <- (IH (i + 1)).
    destruct (_reject_recursive _ x) as [[]|t]; cbn; naive_solver.
  - intros d Hd path. cbn. induction Hd as [|[k x] d Hx Hd IH]; cbn; [done|]. cbn in Hx.
    rewrite !andb_true_iff, <- (Hx (path +:+ "." +:+ k)), <- IH, negb_true_iff.
    destruct (forbidden k); [naive_solver|]. destruct (_reject_recursive _ x) as [[]|t]; cbn; naive_solver.
Qed.

(** A key that neither redirects the work nor bypasses the leaf's pipeline. *)
Definition harmless (k : string) : bool := negb (caller_key k) && negb (forbidden k).

(** C13. A leaf receives nothing that redirects it: whatever the stage, the
    request and the outputs of earlier stages contain, every dict key at every
    depth of the parameters handed to GPU Manager is harmless. *)
Theorem leaf_receives_clean (answer : value -> value -> string -> data -> result string value) st run s key :
  let spy := fun service resource job params (l : list data) => (answer service resource job params, l ++ [params]) in
  Forall (fun params => all_keys harmless (PDict params) = true)
    (leaf_submit spy run s key (_build_trusted_config st s) []).2.
Proof.
  intros spy. unfold leaf_submit. destruct (_reject_recursive _ _) as [[]|t] eqn:Hr; [|constructor].
  set (params := leaf_params _ _ _ _). assert (all_keys harmless (PDict params) = true) as Hp.
  { assert (all_keys harmless (PDict (_build_trusted_config st s)) = true) as Hc.
    { apply all_keys_and; [apply trusted_keys|by apply reject_exact in Hr]. }
    rewrite all_keys_dict in *. unfold params, leaf_params. by repeat (apply forallb_dict_set; [done|]). }
  unfold spy. cbn. clearbody params.
  repeat match goal with |- context [match ?x with _ => _ end] => destruct x end; cbn; by repeat constructor.
Qed.

(** ** Who owns a stage *)

Lemma fold_result_inv {A B} (P : B -> Prop) (f : B -> A -> result string B) l : forall b b',
  (forall b x b', x ∈ l -> P b -> f b x = Ok b' -> P b') -> P b -> fold_result f b l = Ok b' -> P b'.
Proof.
  induction l as [|x l IH]; intros b b' Hf Hb; cbn; [by intros [= <-]|].
  destruct (f b x) as [b1|] eqn:Hx; cbn; [|done]. intros Hl. eapply (IH b1); [| |exact Hl].
  - intros b2 y b3 Hy. apply Hf. set_solver.
  - eapply Hf; [|exact Hb|exact Hx]. set_solver.
Qed.

Section Reviewed.
Context (config : data) (leaf_adapters external_adapters : list string) (providers catalogs : data).

(** A provider of the configuration, under its stripped id, with its authority
    and its own adapter. *)
Definition declared (provider authority adapter : string) : Prop :=
  exists id c, (id, PDict c) ∈ providers /\ py_strip id = provider /\
    stripped_text (dict_get c "adapter") = Some adapter /\
    managed_authority leaf_adapters external_adapters id c adapter = Ok authority.

(** An operation of the catalogs that uses the adapter and names the provider. *)
Definition referenced (provider adapter : string) : Prop :=
  exists cid cat ops oid op text refs ref, (cid, PDict cat) ∈ catalogs /\
    dict_get_or cat "operations" (PDict []) = PDict ops /\ (oid, PDict op) ∈ ops /\
    dict_get op "adapter" = Some (PStr text) /\ py_strip text = adapter /\
    dict_get_or op "provider_refs" (PList []) = PList refs /\ ref ∈ refs /\ py_strip (py_str ref) = provider.

Definition reviewed (reg : Registry) : Prop := forall provider adapter authority,
  reg !! (provider, adapter) = Some authority ->
  (exists own, declared provider authority own /\ (adapter = own \/ referenced provider adapter)).

Lemma managed_owner id c adapter authority :
  managed_authority leaf_adapters external_adapters id c adapter = Ok authority ->
  authority = "leaf" \/ authority = "external".
Proof. unfold managed_authority. intros H. repeat case_match; simplify_eq; auto. Qed.

Lemma register_ok p a o reg reg' : register p a o reg = Ok reg' ->
  reg' = <[(py_strip p, py_strip a) := py_lower (py_strip o)]> reg.
Proof. unfold register. intros H. repeat case_match; by simplify_eq. Qed.

Lemma owner_text o : o = "leaf" \/ o = "external" -> py_lower (py_strip o) = o.
Proof. by intros [-> | ->]. Qed.

Lemma drop_spaces_idem cs : drop_spaces (drop_spaces cs) = drop_spaces cs.
Proof. apply drop_spaces_id, drop_spaces_clean. Qed.

Lemma strip_stripped v a : stripped_text v = Some a -> py_strip a = a.
Proof.
  unfold stripped_text. destruct v as [[]|]; try done. case_match; [|done]. intros [= <-]. apply py_strip_idem.
Qed.

Definition known_authorities (authorities : list (string * string)) : Prop :=
  forall p o, dict_get authorities p = Some o -> exists own, declared p o own.

Lemma add_provider_ok st p st' : p ∈ providers -> reviewed st.1 /\ known_authorities st.2 ->
  add_provider leaf_adapters external_adapters st p = Ok st' -> reviewed st'.1 /\ known_authorities st'.2.
Proof.
  destruct st as [reg authorities], p as [id v]. intros Hin [Hreg Hauth]. unfold add_provider. cbn [fst snd] in *.
  destruct v as [| | | | | | | |c]; try done. destruct (stripped_text _) as [a|] eqn:Ha; [|done].
  destruct (managed_authority _ _ _ _ _) as [o|] eqn:Ho; cbn [mbind result_bind]; [|done].
  destruct (register _ _ _ _) as [reg'|] eqn:Hr; cbn [mbind result_bind]; [|done]. intros [= <-]. cbn [fst snd].
  assert (declared (py_strip id) o a) as Hd by by exists id, c.
  apply register_ok in Hr. rewrite owner_text in Hr by (by eapply managed_owner). rewrite (strip_stripped _ _ Ha) in Hr.
  subst reg'. split.
  - intros p' a' o'. intros [[[= <- <-] <-]|[_ Hl]]%lookup_insert_Some; [exists a; auto|by apply Hreg].
  - intros p' o'. rewrite dict_get_set. case_decide; [intros [= <-]; subst; by exists a|apply Hauth].
Qed.

Lemma add_catalog_ok authorities reg c reg' : c ∈ catalogs -> known_authorities authorities -> reviewed reg ->
  add_catalog authorities reg c = Ok reg' -> reviewed reg'.
Proof.
  destruct c as [cid v]. intros Hin Hauth Hreg. unfold add_catalog. cbn [fst snd].
  destruct v as [| | | | | | | |cat]; try done. destruct (dict_get_or cat _ _) as [| | | | | | | |ops] eqn:Hops; try done.
  apply (fold_result_inv reviewed); [|done]. clear reg reg' Hreg. intros reg [oid v] reg' Hop Hreg.
  unfold add_operation. cbn [fst snd]. destruct v as [| | | | | | | |op]; try done.
  destruct (dict_get op "adapter") as [[| | | | | |text| |]|] eqn:Ha; try done. destruct (negb _); [done|].
  destruct (dict_get_or op _ _) as [| | | | | | |refs|] eqn:Hrefs; try done.
  apply (fold_result_inv reviewed); [|done]. clear reg reg' Hreg. intros reg ref reg' Href Hreg.
  unfold add_reference. destruct (dict_get authorities _) as [o|] eqn:Hp; [|done].
  intros Hr%register_ok. destruct (Hauth _ _ Hp) as [own Hd].
  assert (py_lower (py_strip o) = o) as Ho.
  { apply owner_text. destruct Hd as (id & c & _ & _ & _ & Hm). by eapply managed_owner. }
  rewrite Ho, py_strip_idem in Hr. subst reg'. intros p' a' o'.
  intros [[[= <- <-] <-]|[_ Hl]]%lookup_insert_Some; [|by apply Hreg].
  exists own. split; [done|]. right. exists cid, cat, ops, oid, op, text, refs, ref. by split_and!.
Qed.

End Reviewed.

Lemma registry_reviewed config catalogs_arg leafs exts reg :
  registry_from_config config catalogs_arg leafs exts = Ok reg ->
  exists providers catalogs,
    dict_get_or config "pipeline_providers" (PDict []) = PDict providers /\
    default (dict_get_or config "operation_catalogs" (PDict [])) catalogs_arg = PDict catalogs /\
    reviewed leafs exts providers catalogs reg.
Proof.
  unfold registry_from_config. destruct (dict_get_or config "pipeline_providers" _) as [| | | | | | | |providers]; try done.
  destruct (fold_result _ _ providers) as [[reg0 authorities]|] eqn:Hp; cbn [mbind result_bind]; [|done].
  destruct (default _ catalogs_arg) as [| | | | | | | |catalogs]; try done. intros Hc.
  exists providers, catalogs. split_and!; [done|done|].
  assert (reviewed leafs exts providers catalogs reg0 /\ known_authorities leafs exts providers authorities) as [Hr Ha].
  { apply (fold_result_inv (fun st => reviewed leafs exts providers catalogs st.1 /\
      known_authorities leafs exts providers st.2)) with (3 := Hp); [|by split].
    intros st p st' Hin Hst Hadd. by eapply add_provider_ok. }
  eapply (fold_result_inv (reviewed leafs exts providers catalogs)) with (3 := Hc); [|done].
  intros r c r' Hin Hrr Hadd. by eapply add_catalog_ok.
Qed.

(** C12. Every stage has one owner, and a reviewed one: with the callback map
    of a configuration, a stage that resolves at all names a provider the
    configuration declares, with the authority declared for it and an adapter
    that is the provider's own or one an operation pairs it with; an external
    stage is run by its own handler, which exists, and never submitted as a
    leaf; a leaf stage goes to the leaf client and never to a handler. *)
Theorem stage_has_one_owner {E : Type}
    (handlers : gmap (string * string) (data -> PipelineRunState -> string -> E -> result string value * E))
    (polls : gmap (string * string) (data -> PipelineRunState -> string -> string -> E -> result string value * E))
    config catalogs_arg leafs exts reg st authority :
  callback_map_from_config config handlers polls catalogs_arg leafs exts = Ok reg ->
  resolve reg st = Ok authority ->
  (exists providers catalogs own,
    dict_get_or config "pipeline_providers" (PDict []) = PDict providers /\
    default (dict_get_or config "operation_catalogs" (PDict [])) catalogs_arg = PDict catalogs /\
    declared leafs exts providers (binding_key st).1 authority own /\
    ((binding_key st).2 = own \/ referenced catalogs (binding_key st).1 (binding_key st).2)) /\
  (authority = "external" /\
     (exists handler, handlers !! binding_key st = Some handler /\
       forall now s key e, external_execute reg handlers now st s key e = finish_call now st (handler st s key e)) /\
     (forall delegate (e : E), exists t, guarded_submit reg delegate st e = (Err t, e)) \/
   authority = "leaf" /\ (forall delegate (e : E), guarded_submit reg delegate st e = delegate e) /\
     (forall now s key e, exists t, external_execute reg handlers now st s key e = (Err t, e))).
Proof.
  unfold callback_map_from_config. destruct (registry_from_config _ _ _ _) as [reg0|] eqn:Hreg; [|done].
  cbn [mbind result_bind]. case_decide as Hexact; [|done]. intros [= <-] Hres.
  unfold resolve, binding_for in Hres. destruct (reg0 !! binding_key st) as [o|] eqn:Hb; [|done].
  cbn in Hres. injection Hres as <-.
  apply registry_reviewed in Hreg as (providers & catalogs & Hp & Hc & Hrev).
  destruct (binding_key st) as [p a] eqn:Hkey. destruct (Hrev p a o Hb) as (own & Hd & Hown). split.
  { exists providers, catalogs, own. by split_and!. }
  assert (o = "leaf" \/ o = "external") as Ho by (destruct Hd as (id & c & _ & _ & _ & Hm); by eapply managed_owner).
  assert (binding_for reg0 st = Ok (binding_key st, o)) as Hbind by (unfold binding_for; by rewrite Hkey, Hb).
  destruct Ho as [-> | ->]; [right|left]; (split; [done|]).
  - split; intros; [unfold guarded_submit|unfold external_execute, external_binding]; rewrite Hbind; cbn; [done|by eexists].
  - assert (is_Some (handlers !! (p, a))) as [handler Hh].
    { apply elem_of_dom. destruct Hexact as [Hmiss _].
      assert ((p, a) ∈ dom (filter (fun i => i.2 = "external") reg0)) as Hin.
      { apply elem_of_dom. exists "external". by apply map_lookup_filter_Some. }
      set_solver. }
    split; [exists handler; split; [done|]|]; intros; [unfold external_execute, external_binding|unfold guarded_submit];
      rewrite Hbind; cbn; [by rewrite Hkey, Hh|by eexists].
Qed.
