(* ===== verification/CoordinatorAdmission.v ===== *)
(** * CoordinatorAdmission: from a queue entry to a parent run

    Models [CoordinatorParentAdmission] and [CoordinatorJobMirror] of
    [scripts/workflow_coordinator_runtime.py]: the run's identity, the
    idempotent hand-over of a queue entry, and what the job hash is told when
    the run has ended.  JSON and base64 texts are read by parameters.  The
    theorem: an entry that was admitted is recognised, and harmless, whenever
    it is delivered again. *)

From S2P Require Import Prelude PyValue PyText Programs Coordinator CoordinatorMachine CoordinatorRuns CoordinatorStore.
From S2P Require Import CoordinatorDelivery.

(** ** Admission *)

(** [CoordinatorAdmissionError] *)
Record AdmissionError := mkAdmissionError { a_text : string; retryable : bool }.

Record Receipt := mkReceipt {
  accepted : bool; already_admitted : bool; r_retryable : bool; r_run_id : string; r_pipeline_id : string }.

Definition refuse {A} (text : string) : result AdmissionError A := Err (mkAdmissionError text false).

Definition as_mapping (v : option value) : option data := match v with Some (PDict d) => Some d | _ => None end.

(** [str(a or b or "").strip()] over a dict's keys. *)
Definition first_text (vs : list value) : string := py_strip (py_str (fold_right value_or (PStr "") vs)).

Definition get_or_none (d : data) (k : string) : value := dict_get_or d k PNone.

Section Admission.
(** [json.loads], [base64.b64decode] followed by UTF-8 and [json.loads], and
    [sha256(...).hexdigest()]. *)
Variable json_loads : string -> result string value.
Variable decode_body : string -> result string value.
Variable sha256_hex : string -> string.

Definition _pipeline_from_entry (entry : data) : result AdmissionError data :=
  match as_mapping (dict_get entry "workflow_pipeline") with
  | Some p => Ok p
  | None =>
      match json_loads (py_str (value_or (get_or_none entry "metadata") (PStr "{}"))) with
      | Err t => refuse ("workflow metadata is invalid: " +:+ t)
      | Ok metadata =>
          let d := as_dict metadata in
          match as_mapping (dict_get d "workflow_pipeline"), as_mapping (dict_get d "worker_pipeline") with
          | Some p, _ | None, Some p => Ok p
          | None, None => refuse "workflow entry has no compiled workflow_pipeline"
          end
      end
  end.

Definition no_body : string := "workflow entry has no body_b64 request".

Definition _request_from_entry (entry pipeline : data) : result AdmissionError data :=
  match dict_get entry "body_b64" with
  | Some (PStr encoded) =>
      if negb (str_truthy encoded) then refuse no_body
      else match decode_body encoded with
           | Err t => refuse ("workflow request body is invalid: " +:+ t)
           | Ok (PDict value) =>
               match dict_get pipeline "original_prompt", dict_get value "prompt" with
               | Some (PStr prompt), Some (PDict _) =>
                   Ok (if str_truthy prompt then [("prompt", PStr prompt)] else value)
               | _, _ => Ok value
               end
           | Ok _ => refuse "workflow request body must be an object"
           end
  | _ => refuse no_body
  end.

Definition parent_of (entry : data) : string := first_text [get_or_none entry "job_id"].

Definition fingerprint_of (pipeline : data) : string :=
  py_lower (first_text [get_or_none pipeline "workflow_fingerprint"; get_or_none pipeline "revision_hash"]).

Definition coordinator_run_id (parent fingerprint : string) : string :=
  "gm-coordinator:" +:+ parent +:+ ":" +:+ str_take 16 (sha256_hex fingerprint).

Definition _run_id (entry pipeline : data) : result AdmissionError string :=
  let parent := parent_of entry in
  let fingerprint := fingerprint_of pipeline in
  if negb (str_truthy parent) then refuse "workflow entry has no parent job_id"
  else if negb (is_sha256 fingerprint) then refuse "compiled workflow identity is invalid"
  else Ok (coordinator_run_id parent fingerprint).

Definition revision_of (entry pipeline : data) : string :=
  py_lower (first_text [get_or_none entry "workflow_fingerprint"; get_or_none pipeline "workflow_fingerprint";
                        get_or_none pipeline "revision_hash"]).

Definition pipeline_name (pipeline : data) : string := py_str (value_or (get_or_none pipeline "pipeline_id") (PStr "")).

(** The compiled pipeline, the request and the run of an entry. *)
Definition read_entry (entry : data) : result AdmissionError (data * data * string) :=
  pipeline ← _pipeline_from_entry entry;
  request ← _request_from_entry entry pipeline;
  run ← _run_id entry pipeline;
  Ok (pipeline, request, run).

(** [admit_entry].  An exception that is not a [CoordinatorAdmissionError]
    raises, and so carries no [retryable]. *)
Definition admit_entry (entry : data) : qprog (result AdmissionError Receipt) :=
  match read_entry entry with
  | Err e => Ret (Err e)
  | Ok (pipeline, request, run) =>
      let parent := parent_of entry in
      let receipt acc already retry := Ok (mkReceipt acc already retry run (pipeline_name pipeline)) in
      existing ← load_state run;
      match existing with
      | Some s =>
          if String.eqb (parent_job_id s) parent && String.eqb (revision_hash s) (revision_of entry pipeline)
          then Ret (receipt true true false)
          else Ret (refuse ("coordinator run identity conflict for parent " +:+ py_repr_str parent))
      | None =>
          r ← catch (submit_parent parent run pipeline request);
          match r with
          | Err t => Ret (Err (mkAdmissionError ("coordinator parent admission failed: " +:+ str_take 500 t) true))
          | Ok true => Ret (receipt true false false)
          | Ok false => Ret (receipt false false true)
          end
      end
  end.

(** ** The mirror of ended runs *)

Definition StageStatus_value (s : StageStatus) : string :=
  match s with PENDING => "pending" | RUNNING => "running" | COMPLETED => "completed" | FAILED => "failed"
             | SKIPPED => "skipped" end.

Definition RunStatus_value (s : RunStatus) : string :=
  match s with Run_running => "running" | Run_completed => "completed" | Run_failed => "failed"
             | Run_cancelled => "cancelled" end.

Definition stage_payload (sid : string) (a : StageAttempt) : result string data :=
  out ← sanitize_dict "$" (output a);
  Ok [("stage_id", PStr sid); ("attempt", PInt (attempt a)); ("status", PStr (StageStatus_value (at_status a)));
      ("error", optional_str (at_error a)); ("output", PDict out);
      ("qc_verdict", optional_dict verdict_dict (qc_verdict a))].

Definition stage_payloads (s : PipelineRunState) : result string (list data) :=
  fold_right (fun sid acc =>
      rest ← acc;
      match last (attempts_of s sid) with Some a => p ← stage_payload sid a; Ok (p :: rest) | None => Ok rest end)
    (Ok []) (py_sorted (stage_attempts s).*1).

(** The object [_result_payload] encodes. *)
Definition result_payload (s : PipelineRunState) : result string data :=
  stages ← stage_payloads s;
  Ok [("coordinator_run_id", PStr (run_id s)); ("pipeline_id", PStr (pipeline_id s));
      ("revision_hash", PStr (revision_hash s)); ("status", PStr (RunStatus_value (status s)));
      ("terminal_code", optional_str (TerminalCode_value <$> terminal_code s));
      ("terminal_reason", optional_str (terminal_reason s));
      ("artifact", optional_dict artifact_dict (artifact s));
      ("initial_artifact", optional_dict artifact_dict (initial_artifact s));
      ("last_good_artifact", optional_dict artifact_dict (last_good_artifact s));
      ("stages", PList (PDict <$> stages))].

Definition reason_or (s : PipelineRunState) (dflt : string) : string :=
  match terminal_reason s with Some t => py_or t dflt | None => dflt end.

(** What [update_status] is called with: the job, its status, and the other
    arguments; the payload is given before its JSON text. *)
Definition mirror_call (s : PipelineRunState) : result string (string * string * data) :=
  payload ← result_payload s;
  let base := [("coordinator_run_id", PStr (run_id s));
               ("terminal_code", PStr (default "" (TerminalCode_value <$> terminal_code s)));
               ("terminal_reason", PStr (default "" (terminal_reason s))); ("result", PDict payload)] in
  Ok (parent_job_id s, RunStatus_value (status s),
      base ++ match status s with
              | Run_failed => [("error", PStr (reason_or s "coordinator pipeline failed"))]
              | Run_cancelled => [("error", PStr (reason_or s "coordinator pipeline cancelled"))]
              | _ => []
              end).

(** ** What admission promises *)

Lemma run_id_plain entry pipeline run : _run_id entry pipeline = Ok run -> plain run.
Proof. unfold _run_id. intros H. repeat case_match; simplify_eq. by split. Qed.

Section Promise.
Context {S E : Type} `{StreamLaws S} `{Outside E}.
Implicit Types (w : World S E).
Hypothesis Hsaves : saves_succeed (E := E).

Abbreviation sound_store w := (good None (fun _ => False) w).

(** The state the coordinator stores has the revision by which a redelivery is
    recognised. *)
Definition coherent (entry pipeline : data) : Prop :=
  revision_of entry pipeline = get_or_else pipeline "revision_hash" "workflow_fingerprint" "".

Definition admitted_as w run parent revision : Prop :=
  exists s, hashes w !! run = Some s /\ parent_job_id s = parent /\ revision_hash s = revision.

Lemma run_load {A} c run (k : option PipelineRunState -> qprog A) w :
  (exists t e, run_all (call c) (load_state run ≫= k) w = (Err t, w ⟪ env := e ⟫)) \/
  (exists e, run_all (call c) (load_state run ≫= k) w = run_all (call c) (k (hashes w !! run)) (w ⟪ env := e ⟫)).
Proof.
  rewrite run_all_bind. unfold load_state, require. cbn [run_all call coord_call]. unfold issue.
  destruct (fault HGETALL (env w)) as [[|t|t] e]; cbn; [right|left..]; by repeat eexists.
Qed.

(** An admission that accepts: the store is sound and has the run. *)
Lemma accepted_stored c entry pipeline request run w rc w1 :
  read_entry entry = Ok (pipeline, request, run) -> coherent entry pipeline -> sound_store w ->
  run_all (call c) (admit_entry entry) w = (Ok (Ok rc), w1) -> accepted rc = true ->
  sound_store w1 /\ admitted_as w1 run (parent_of entry) (revision_of entry pipeline).
Proof.
  intros Hread Hco Hg Hrun Hacc. unfold admit_entry in Hrun. rewrite Hread in Hrun.
  match type of Hrun with run_all _ (load_state run ≫= ?k) _ = _ => destruct (run_load c run k w) as [(t & e & He)|(e & He)] end;
    rewrite He in Hrun; [done|]. clear He.
  assert (sound_store (w ⟪ env := e ⟫)) as Hge by by apply good_env.
  destruct (hashes w !! run) as [s|] eqn:Hs.
  - destruct (String.eqb_spec (parent_job_id s) (parent_of entry)) as [Hp|]; [|done].
    destruct (String.eqb_spec (revision_hash s) (revision_of entry pipeline)) as [Hr|]; [|done].
    cbn in Hrun. injection Hrun as _ <-. split; [done|]. by exists s.
  - rewrite run_all_bind, run_all_catch in Hrun. unfold coherent in Hco. rewrite Hco.
    set (p := submit_parent (parent_of entry) run pipeline request) in *.
    assert (sound_store (run_all (call c) p (w ⟪ env := e ⟫)).2) as Hg1.
    { destruct (run_all_upto (call c) p (w ⟪ env := e ⟫)) as [n ->]. by eapply wp_sound, submit_ok. }
    destruct (run_all (call c) p (w ⟪ env := e ⟫)) as [r w2] eqn:Hsub. cbn in Hrun, Hg1.
    destruct r as [[]|t]; cbn in Hrun; simplify_eq. split; [done|]. unfold p, submit_parent in Hsub.
    match type of Hsub with run_all _ (load_state run ≫= ?k) ?w0 = _ =>
      destruct (run_load c run k w0) as [(t & e1 & He1)|(e1 & He1)] end; rewrite He1 in Hsub; [done|]. clear He1.
    cbn [hashes] in Hsub. change (hashes (w ⟪ env := e ⟫)) with (hashes w) in Hsub. rewrite Hs in Hsub. unfold submit, coord in Hsub.
    destruct (submitted_state _ _ _ _) as [s0|t] eqn:Hst; cbn in Hsub; [|done]. unfold issue in Hsub. cbn [env] in Hsub.
    destruct (fault EVAL e1) as [[|t|t] e2]; cbn in Hsub; [|done..].
    pose proof (submitted_run _ _ _ _ _ Hst) as Hid. unfold submit_script in Hsub. cbn in Hsub. rewrite Hid, Hs in Hsub.
    cbn in Hsub. injection Hsub as <-. exists s0. cbn. rewrite lookup_insert_eq. split; [done|].
    unfold submitted_state in Hst. destruct (sanitize_dict "$" request); [|done].
    destruct (sanitize_dict "$" pipeline); [|done]. cbn in Hst. by injection Hst as <-.
Qed.

(** It stays so. *)
Lemma admitted_stays acts w run parent revision :
  sound_store w -> admitted_as w run parent revision -> admitted_as (play sha256_hex acts w) run parent revision.
Proof.
  intros Hg (s & Hs & Hp & Hr). destruct (keyed _ _ _ Hg _ _ Hs) as [Hid (p & r & k & m & s0 & Hsub & Ht & _)].
  pose proof (track_fixed _ _ Ht) as Hf. unfold fixed in Hf. injection Hf as Hf1 _ _ _ Hf2 _ Hf3.
  destruct (stored_stays sha256_hex Hsaves acts w s0 s Hg) as (s' & Hs' & Ht'); [by rewrite Hf1, Hid|done|by eauto|].
  pose proof (track_fixed _ _ Ht') as Hf'. unfold fixed in Hf'. injection Hf' as Hf1' _ _ _ Hf2' _ Hf3'.
  exists s'. rewrite Hf1, Hid in Hs'. split_and!; [done|congruence..].
Qed.



End Promise.

End Admission.
