(* ===== verification/CoordinatorAdmissionDemo.v ===== *)
(** * CoordinatorAdmissionDemo: adapters and admission at work

    The theorems of [CoordinatorGuards] and [CoordinatorAdmission] applied to
    concrete stages and entries on the stream of [CoordinatorDeliveryDemo], and
    cases that show what their conditions are for. *)

From S2P Require Import Prelude PyValue PyText Programs Coordinator CoordinatorMachine CoordinatorRuns CoordinatorStore.
From S2P Require Import CoordinatorDelivery CoordinatorDeliveryDemo CoordinatorAdapters CoordinatorGuards CoordinatorAdmission.

Module AdmissionDemo.
Import CoordinatorDeliveryDemo.Demo.

(** ** Adapters *)

Theorem sanitize_idempotent_witness :
  _deep_sanitize "$" (PDict [("n_bytes", PInt 4); ("l", PList [PStr "a"])])
  = Ok (PDict [("n_bytes", PInt 4); ("l", PList [PStr "a"])]).
Proof. apply (sanitize_idempotent "$" (PDict [("n_bytes", PInt 4); ("l", PList [PStr "a"])])). by vm_compute. Defined.

(** A leaf provider with its own adapter, an external one that an operation
    pairs with another. *)
Definition config : data :=
  [("pipeline_providers", PDict
      [("comfy", PDict [("adapter", PStr "image"); ("managed", PStr "worker")]);
       ("remote", PDict [("adapter", PStr "http"); ("managed", PStr "external")])]);
   ("operation_catalogs", PDict
      [("llm", PDict [("operations", PDict
          [("ask", PDict [("adapter", PStr "chat"); ("provider_refs", PList [PStr " remote "])])])])])].

Definition stage (provider adapter : string) : data :=
  [("id", PStr "s"); ("provider", PStr provider); ("adapter", PStr adapter)].

Definition completed : value :=
  PDict [("status", PStr "Completed"); ("output", PDict [("text", PStr "hi")]);
         ("artifact", PDict [("path_or_url", PStr "/o"); ("sha256", PStr "00")])].

Abbreviation handler := (data -> PipelineRunState -> string -> unit -> result string value * unit).
Abbreviation poller := (data -> PipelineRunState -> string -> string -> unit -> result string value * unit).

Definition handlers : gmap (string * string) handler :=
  <[("remote", "http") := fun _ _ _ e => (Ok completed, e)]> (<[("remote", "chat") := fun _ _ _ e => (Ok completed, e)]> ∅).

Definition polls : gmap (string * string) poller := ∅.

Definition reg : Registry :=
  match callback_map_from_config config handlers polls None [] [] with Ok r => r | Err _ => ∅ end.

Definition some_state : PipelineRunState := CoordinatorRuns.Demo.started [].

Theorem external_result_recorded_witness :
  is_ok (record_result some_state "s" (stage "remote" "chat") "now"
    (match (external_execute reg handlers "now" (stage "remote" "chat") some_state "key" ()).1 with
     | Ok o => o | Err _ => no_outcome "" None end)) = true.
Proof.
  refine (external_result_recorded reg handlers polls "now" (stage "remote" "chat") some_state "key" "h" () () _
    some_state "s" (stage "remote" "chat") "now" _ _).
  - left. by vm_compute.
  - by vm_compute.
Defined.

Theorem stage_has_one_owner_witness :
  exists providers catalogs own,
    dict_get_or config "pipeline_providers" (PDict []) = PDict providers /\
    default (dict_get_or config "operation_catalogs" (PDict [])) None = PDict catalogs /\
    declared [] [] providers "remote" "external" own /\ ("chat" = own \/ referenced catalogs "remote" "chat").
Proof.
  refine (proj1 (stage_has_one_owner handlers polls config None [] [] reg (stage "remote" "chat") "external" _ _));
    vm_compute; reflexivity.
Defined.

(** Callbacks for leaf bindings are let in, though they can never be called. *)
Example leaf_callback_accepted :
  is_ok (callback_map_from_config config (<[("comfy", "image") := fun _ _ _ e => (Ok completed, e)]> handlers) polls
    None [] []) = true.
Proof. by vm_compute. Qed.

(** A key of the request that the coordinator keeps and the leaf client
    refuses: the stage can never be submitted. *)
Example request_key_blocks :
  let s := some_state ⟪ request_params := [("pipeline", PStr "x")] ⟫ in
  let submit_leaf := fun _ _ job _ (e : unit) => (Ok (PDict [("job_id", PStr job)]), e) in
  (leaf_submit submit_leaf "run" s "key" (_build_trusted_config (stage "comfy" "image") s) ()).1
  = Err "$.context.request_params.pipeline: forbidden key 'pipeline' found in trusted_config (must not be forwarded to GPUManager)".
Proof. by vm_compute. Qed.

(** An output that the leaf client lets through and the sanitizer refuses: the
    attempt can never be recorded. *)
Example password_never_recorded :
  match leaf_report "now" (PDict [("status", PStr "completed"); ("output", PDict [("password", PStr "x")])]) with
  | Ok r => l_status r = "completed" /\
      is_ok (record_result some_state "s" (stage "comfy" "image") "now" (leaf_outcome r)) = false
  | Err _ => False
  end.
Proof. by vm_compute. Qed.

(** A verdict of a leaf that names no stage keeps the empty name. *)
Example leaf_verdict_unnamed :
  (v_stage_id <$> leaf_verdict "now" [("qc_verdict", PDict [("passed", PBool false)])]) = Some "" /\
  (v_stage_id <$> _normalise_qc "now" (PDict [("passed", PBool false)]) "q") = Some "q".
Proof. by vm_compute. Qed.

(** ** Admission *)

Definition fingerprint : string := "0123456789abcdef0123456789abcdef0123456789abcdef0123456789abcdef".

Definition pipeline (identities : data) : data :=
  identities ++ [("pipeline_id", PStr "p"); ("stages", PList [CoordinatorRuns.Demo.stage "g" "generate" []])].

Definition entry (identities : data) : data :=
  [("job_id", PStr "job-1"); ("workflow_pipeline", PDict (pipeline identities)); ("body_b64", PStr "e30=")].

Definition plain_entry : data := entry [("workflow_fingerprint", PStr fingerprint)].

Definition loads : string -> result string value := fun _ => Ok (PDict []).
Definition digest : string -> string := fun s => s.
Definition run : string := "gm-coordinator:job-1:0123456789abcdef".

Abbreviation admitting e := (admit_entry loads loads digest e).

Definition first_receipt : Receipt := mkReceipt true false false run "p".
Definition first_world : World Server unit := (run_all (call "c") (admitting plain_entry) (started ())).2.

Lemma read_plain : read_entry loads loads digest plain_entry =
  Ok (pipeline [("workflow_fingerprint", PStr fingerprint)], [], run).
Proof. by vm_compute. Qed.

Lemma first_admission : run_all (call "c") (admitting plain_entry) (started ()) = (Ok (Ok first_receipt), first_world).
Proof. unfold first_world. by vm_compute. Qed.



(** *** What the conditions are for *)

(** Two identities that differ, or one in upper case: the run is admitted, and
    its redelivery is a permanent conflict. *)
Definition conflicting (identities : data) : bool :=
  let '(first, w) := run_all (call "c") (admitting (entry identities)) (started ()) in
  let '(second, _) := run_all (call "c") (admitting (entry identities)) w in
  match first, second with
  | Ok (Ok r), Ok (Err e) => accepted r && negb (retryable e)
  | _, _ => false
  end.

Example redelivery_conflict :
  conflicting [("workflow_fingerprint", PStr fingerprint); ("revision_hash", PStr "r1")] = true /\
  conflicting [("revision_hash", PStr "0123456789ABCDEF0123456789abcdef0123456789abcdef0123456789abcdef")] = true /\
  conflicting [("workflow_fingerprint", PStr fingerprint)] = false.
Proof. by vm_compute. Qed.

(** A store that does not answer. *)
Record Down := mkDown {}.
#[local] Instance down : Outside Down := {| reply X o e := (answer o, e); fault _ e := (Refused "down", e) |}.

(** The outage is raised as it is, not as a retryable admission error. *)
Example outage_not_retryable :
  (run_all (call "c") (admitting plain_entry) (started mkDown)).1
  = Err ("load_state: Redis HGETALL failed for '" +:+ run +:+ "': down").
Proof. by vm_compute. Qed.

End AdmissionDemo.
