(* ===== verification/ExecutionBoundary.v ===== *)
(** * ExecutionBoundary: who runs which stage

    Models [scripts/execution_boundary.py]: the ownership registry, the
    classification of a pipeline's stages, the dispatch mode, and the two
    handoff seams of pipelines that mix worker-owned and external stages.
    Error texts are constructors; the process-wide registry is explicit. *)

From S2P Require Import Prelude PyValue StageDispatch.

(** ** The registry *)

Record Ownership := mkOwnership {
  PROVIDER_OWNERSHIP_MAP : gmap string string; MANAGED_WORKER_PROVIDERS : gset string }.

Definition no_ownership : Ownership := mkOwnership ∅ ∅.

Inductive OwnershipError :=
  | NoMetadata (provider_id : string)
  | NoProviderField (sid : string)
  | MixedOwnership
  | NoStages | NotMixed | NoExternalStages | NoWorkerStage
  | NothingPrecedes (index : nat)
  | NotAPreStage (sid dep : string).

Definition register_provider_ownership (o : Ownership) (provider_id adapter managed : string) : Ownership :=
  mkOwnership (<[provider_id := adapter]> (PROVIDER_OWNERSHIP_MAP o))
    (if String.eqb managed "worker" then MANAGED_WORKER_PROVIDERS o ∪ {[provider_id]}
     else MANAGED_WORKER_PROVIDERS o ∖ {[provider_id]}).

Definition clear_provider_ownership (_ : Ownership) : Ownership := no_ownership.

Definition get_provider_adapter (o : Ownership) (provider_id : string) : result OwnershipError string :=
  match PROVIDER_OWNERSHIP_MAP o !! provider_id with
  | Some adapter => Ok adapter
  | None => Err (NoMetadata provider_id)
  end.

Definition is_provider_worker_owned (o : Ownership) (provider_id : string) : result OwnershipError bool :=
  match PROVIDER_OWNERSHIP_MAP o !! provider_id with
  | Some _ => Ok (bool_decide (provider_id ∈ MANAGED_WORKER_PROVIDERS o))
  | None => Err (NoMetadata provider_id)
  end.

(** ** Classification *)

Inductive DispatchMode := RECONCILE | GENERIC | MIXED_OWNERSHIP | UNSUPPORTED.
#[export] Instance DispatchMode_eq_dec : EqDecision DispatchMode.
Proof. solve_decision. Defined.

Record StageClassification := mkStageClassification {
  dispatch_mode : DispatchMode; self_owned_providers : gset string;
  external_providers : gset string; unknown_providers : gset string;
  class_errors : list OwnershipError }.

Definition class_is_self_owned (c : StageClassification) : bool :=
  bool_decide (dispatch_mode c = RECONCILE) && bool_decide (unknown_providers c = ∅).
Definition class_is_external (c : StageClassification) : bool := bool_decide (dispatch_mode c = GENERIC).
Definition class_is_mixed (c : StageClassification) : bool :=
  bool_decide (dispatch_mode c = MIXED_OWNERSHIP).
Definition is_fail_closed (c : StageClassification) : bool :=
  negb (bool_decide (unknown_providers c = ∅)) || bool_decide (dispatch_mode c = UNSUPPORTED).

(** [classify_stage]: provider, adapter, worker-owned, error. *)
Definition classify_stage (o : Ownership) (s : StageDef)
    : string * option string * bool * option OwnershipError :=
  if negb (str_truthy (sd_provider s)) then (sd_provider s, None, false, Some (NoProviderField (sd_id s)))
  else
    match get_provider_adapter o (sd_provider s), is_provider_worker_owned o (sd_provider s) with
    | Ok adapter, Ok worker => (sd_provider s, Some adapter, worker, None)
    | Err e, _ | _, Err e => (sd_provider s, None, false, Some e)
    end.

(** The accumulators of the loop: self-owned, external, unknown, errors. *)
Record Scan := mkScan {
  self_owned : gset string; external : gset string; unknown : gset string;
  scan_errors : list OwnershipError }.

Definition scan_one (o : Ownership) (a : Scan) (s : StageDef) : Scan :=
  if negb (str_truthy (sd_provider s)) then
    mkScan (self_owned a) (external a) (unknown a ∪ {[sd_provider s]})
      (scan_errors a ++ [NoProviderField (sd_id s)])
  else
    match is_provider_worker_owned o (sd_provider s) with
    | Err e => mkScan (self_owned a) (external a) (unknown a ∪ {[sd_provider s]}) (scan_errors a ++ [e])
    | Ok true => mkScan (self_owned a ∪ {[sd_provider s]}) (external a) (unknown a) (scan_errors a)
    | Ok false => mkScan (self_owned a) (external a ∪ {[sd_provider s]}) (unknown a) (scan_errors a)
    end.

Definition scan (o : Ownership) (stages : list StageDef) : Scan :=
  fold_left (scan_one o) stages (mkScan ∅ ∅ ∅ []).

Definition classify_stages (o : Ownership) (stages : list StageDef) : StageClassification :=
  match stages with
  | [] => mkStageClassification RECONCILE ∅ ∅ ∅ []
  | _ =>
      let a := scan o stages in
      if negb (bool_decide (unknown a = ∅)) then
        mkStageClassification UNSUPPORTED (self_owned a) (external a) (unknown a) (scan_errors a)
      else if bool_decide (external a = ∅) then mkStageClassification RECONCILE (self_owned a) ∅ ∅ []
      else if bool_decide (self_owned a = ∅) then mkStageClassification GENERIC ∅ (external a) ∅ []
      else mkStageClassification MIXED_OWNERSHIP (self_owned a) (external a) ∅ [MixedOwnership]
  end.

(** The three predicates raise on unknown providers. *)
Definition known_or_raise (o : Ownership) (stages : list StageDef) (k : StageClassification -> bool)
    : result (gset string) bool :=
  let c := classify_stages o stages in
  if bool_decide (unknown_providers c = ∅) then Ok (k c) else Err (unknown_providers c).

Definition is_self_owned o stages := known_or_raise o stages class_is_self_owned.
Definition is_external o stages := known_or_raise o stages class_is_external.
Definition is_mixed_ownership o stages := known_or_raise o stages class_is_mixed.

Definition get_dispatch_mode (o : Ownership) (stages : list StageDef) (execution_mode : string)
    : result (gset string) DispatchMode :=
  match stages with
  | [] => Ok RECONCILE
  | _ =>
      let c := classify_stages o stages in
      if negb (bool_decide (unknown_providers c = ∅)) then Err (unknown_providers c)
      else if class_is_mixed c then
        Ok (if String.eqb execution_mode "generic" then MIXED_OWNERSHIP else UNSUPPORTED)
      else if String.eqb execution_mode "legacy_reconcile" then
        Ok (if class_is_self_owned c then RECONCILE else UNSUPPORTED)
      else Ok (if class_is_self_owned c then RECONCILE else GENERIC)
  end.

Definition is_metadata_error (e : OwnershipError) : bool :=
  match e with NoMetadata _ | NoProviderField _ => true | _ => false end.

Definition validate_ownership (o : Ownership) (stages : list StageDef) : list OwnershipError :=
  List.filter is_metadata_error (class_errors (classify_stages o stages)).

(** The legacy predicate. *)
Fixpoint _has_non_krea_stage (o : Ownership) (stages : list StageDef) : bool :=
  match stages with
  | [] => false
  | s :: stages' =>
      if negb (str_truthy (sd_provider s)) then true
      else
        match is_provider_worker_owned o (sd_provider s) with
        | Err _ | Ok false => true
        | Ok true => _has_non_krea_stage o stages'
        end
  end.

(** ** The handoff after the worker's stages *)

Record Evidence := mkEvidence {
  ev_original_prompt : string; ev_enhanced_prompts : list (string * value);
  ev_artifacts : list (string * data); ev_qc_results : list (string * data);
  ev_correction_loop_count : Z }.

Definition evidence_context (e : Evidence) : StageContext :=
  (new_context (ev_original_prompt e))
    ⟪ enhanced_prompts := ev_enhanced_prompts e ⟫ ⟪ artifacts := ev_artifacts e ⟫
    ⟪ qc_results := ev_qc_results e ⟫ ⟪ correction_loop_count := ev_correction_loop_count e ⟫.

Record HandoffResult := mkHandoffResult {
  external_stages : list StageDef; worker_owned_providers : gset string;
  handoff_errors : list OwnershipError; is_handoff_safe : bool;
  seeded_context : option StageContext; seeded_results : option (list StageResult);
  qc_verdict_false : bool }.

Definition unsafe_handoff (workers : gset string) (es : list OwnershipError) : HandoffResult :=
  mkHandoffResult [] workers es false None None false.

Definition data_of (m : list (string * data)) (sid : string) : data := default [] (dict_get m sid).

(** The data a worker-owned stage is taken to have produced. *)
Definition seeded_data (e : Evidence) (s : StageDef) : data :=
  let k := sd_kind s in
  if String.eqb k "prompt_enhance" then
    let prompt := dict_get_or (ev_enhanced_prompts e) (sd_id s) (PStr "") in
    if py_truthy prompt then [("prompt", prompt)] else []
  else if String.eqb k "generate" || String.eqb k "delegate" then data_of (ev_artifacts e) (sd_id s)
  else if String.eqb k "qc" then data_of (ev_qc_results e) (sd_id s)
  else if String.eqb k "correct" then data_of (ev_artifacts e) (sd_id s)
  else [].

Definition seeded_result (e : Evidence) (s : StageDef) : StageResult :=
  mkStageResult (sd_id s) (sd_kind s) (sd_provider s) ok (seeded_data e s) "" 0.

Definition qc_failed (e : Evidence) (s : StageDef) : bool :=
  String.eqb (sd_kind s) "qc"
  && negb (py_truthy (dict_get_or (data_of (ev_qc_results e) (sd_id s)) "qc_pass" (PBool false))).

(** The outputs of a pre-stage, merged into the context. *)
Definition merge_pre (c : StageContext) (r : StageResult) : StageContext :=
  if String.eqb (kind r) "prompt_enhance" then
    let prompt := dict_get_or (result_data r) "prompt" (PStr "") in
    if py_truthy prompt then with_prompt c (stage_id r) prompt else c
  else if String.eqb (kind r) "generate" || String.eqb (kind r) "delegate" then
    with_artifact c (stage_id r) (result_data r)
  else if String.eqb (kind r) "qc" then with_qc c (stage_id r) (result_data r)
  else c.

Definition worker_stage (c : StageClassification) (s : StageDef) : bool :=
  bool_decide (sd_provider s ∈ self_owned_providers c).

Definition pre_ids (pre : list StageResult) : list string := List.filter str_truthy (stage_id <$> pre).

Definition to_dispatch (c : StageClassification) (pre : list StageResult) (s : StageDef) : bool :=
  bool_decide (sd_provider s ∈ external_providers c) && negb (bool_decide (sd_id s ∈ pre_ids pre)).

Definition safe_handoff_stages (o : Ownership) (stages : list StageDef) (e : Evidence)
    (pre_results : list StageResult) : HandoffResult :=
  match stages with
  | [] => unsafe_handoff ∅ [NoStages]
  | _ =>
      let c := classify_stages o stages in
      if negb (bool_decide (unknown_providers c = ∅)) then
        unsafe_handoff (self_owned_providers c) (class_errors c)
      else if negb (class_is_mixed c) then unsafe_handoff (self_owned_providers c) [NotMixed]
      else
        let ext := List.filter (to_dispatch c pre_results) stages in
        match ext with
        | [] => unsafe_handoff (self_owned_providers c) [NoExternalStages]
        | _ =>
            let owned := List.filter (worker_stage c) stages in
            mkHandoffResult ext (self_owned_providers c) [] true
              (Some (fold_left merge_pre pre_results (evidence_context e)))
              (Some (pre_results ++ (seeded_result e <$> owned)))
              (existsb (qc_failed e) owned)
        end
  end.

(** ** The handoff before the worker's stages *)

Record PreStageHandoff := mkPreStageHandoff {
  pre_stages : list StageDef; worker_stages : list StageDef; is_pre_dispatch_safe : bool;
  pre_context : option StageContext; pre_errors : list OwnershipError }.

Definition unsafe_pre (stages : list StageDef) (es : list OwnershipError) : PreStageHandoff :=
  mkPreStageHandoff [] stages false None es.

(** [enumerate] up to the first worker-owned stage. *)
Fixpoint first_worker_idx (c : StageClassification) (stages : list StageDef) : option nat :=
  match stages with
  | [] => None
  | s :: stages' => if worker_stage c s then Some O else S <$> first_worker_idx c stages'
  end.

Definition pre_stage_errors (candidates : list StageDef) : list OwnershipError :=
  s ← candidates;
  NotAPreStage (sd_id s) <$> List.filter (fun d => negb (bool_decide (d ∈ sd_id <$> candidates))) (sd_depends_on s).

(** The stages before the cut, when there are any and they depend on each
    other only. *)
Definition cut_at (stages : list StageDef) (e : Evidence) (idx : nat) : PreStageHandoff :=
  match take idx stages with
  | [] => unsafe_pre stages [NothingPrecedes idx]
  | candidates =>
      match pre_stage_errors candidates with
      | [] => mkPreStageHandoff candidates (drop idx stages) true (Some (evidence_context e)) []
      | es => unsafe_pre stages es
      end
  end.

Definition extract_pre_handoff_stages (o : Ownership) (stages : list StageDef) (e : Evidence)
    : PreStageHandoff :=
  match stages with
  | [] => unsafe_pre [] [NoStages]
  | _ =>
      let c := classify_stages o stages in
      if negb (bool_decide (unknown_providers c = ∅)) then unsafe_pre stages (class_errors c)
      else if negb (class_is_mixed c) then unsafe_pre stages [NotMixed]
      else
        match first_worker_idx c stages with
        | None => unsafe_pre stages [NoWorkerStage]
        | Some idx => cut_at stages e idx
        end
  end.

(** ** Ownership of a stage *)

(** [None] is unknown, [Some true] the worker, [Some false] external. *)
Definition owner (o : Ownership) (s : StageDef) : option bool :=
  if str_truthy (sd_provider s) then
    match is_provider_worker_owned o (sd_provider s) with Ok b => Some b | Err _ => None end
  else None.

Lemma owner_provider o s t : sd_provider s = sd_provider t -> owner o s = owner o t.
Proof. unfold owner. by intros ->. Qed.

Lemma scan_one_spec o a s p :
  (p ∈ self_owned (scan_one o a s) <-> p ∈ self_owned a \/ (p = sd_provider s /\ owner o s = Some true)) /\
  (p ∈ external (scan_one o a s) <-> p ∈ external a \/ (p = sd_provider s /\ owner o s = Some false)) /\
  (p ∈ unknown (scan_one o a s) <-> p ∈ unknown a \/ (p = sd_provider s /\ owner o s = None)).
Proof.
  unfold scan_one, owner. destruct (str_truthy (sd_provider s)); cbn [negb]; [|set_solver].
  destruct (is_provider_worker_owned o (sd_provider s)) as [[]|]; set_solver.
Qed.

Lemma scan_spec o stages p :
  (p ∈ self_owned (scan o stages) <-> exists s, s ∈ stages /\ p = sd_provider s /\ owner o s = Some true) /\
  (p ∈ external (scan o stages) <-> exists s, s ∈ stages /\ p = sd_provider s /\ owner o s = Some false) /\
  (p ∈ unknown (scan o stages) <-> exists s, s ∈ stages /\ p = sd_provider s /\ owner o s = None).
Proof.
  unfold scan. enough (forall a,
    (p ∈ self_owned (fold_left (scan_one o) stages a) <->
       p ∈ self_owned a \/ exists s, s ∈ stages /\ p = sd_provider s /\ owner o s = Some true) /\
    (p ∈ external (fold_left (scan_one o) stages a) <->
       p ∈ external a \/ exists s, s ∈ stages /\ p = sd_provider s /\ owner o s = Some false) /\
    (p ∈ unknown (fold_left (scan_one o) stages a) <->
       p ∈ unknown a \/ exists s, s ∈ stages /\ p = sd_provider s /\ owner o s = None)) as Hgo.
  { destruct (Hgo (mkScan ∅ ∅ ∅ [])) as (H1 & H2 & H3). cbn [self_owned external unknown] in *.
    rewrite H1, H2, H3. set_solver. }
  induction stages as [|s stages IH]; intros a; cbn [fold_left].
  - split_and!; split; intros; try (by left); destruct H as [?|(? & ?%not_elem_of_nil & _)]; done.
  - destruct (IH (scan_one o a s)) as (-> & -> & ->). destruct (scan_one_spec o a s p) as (-> & -> & ->).
    setoid_rewrite elem_of_cons. split_and!; naive_solver.
Qed.

(** Who owns what, as the sets of the classification say it. *)
Lemma unknown_empty o stages :
  unknown (scan o stages) = ∅ <-> forall s, s ∈ stages -> owner o s <> None.
Proof.
  split.
  - intros He s Hs Ho. assert (sd_provider s ∈ unknown (scan o stages)) as Hin by (apply scan_spec; eauto).
    set_solver.
  - intros Hall. apply leibniz_equiv, elem_of_equiv_empty. intros p (s & Hs & _ & Ho)%scan_spec.
    by apply (Hall s).
Qed.

Lemma external_empty o stages :
  external (scan o stages) = ∅ <-> forall s, s ∈ stages -> owner o s <> Some false.
Proof.
  split.
  - intros He s Hs Ho. assert (sd_provider s ∈ external (scan o stages)) as Hin by (apply scan_spec; eauto).
    set_solver.
  - intros Hall. apply leibniz_equiv, elem_of_equiv_empty. intros p (s & Hs & _ & Ho)%scan_spec.
    by apply (Hall s).
Qed.

Lemma self_owned_empty o stages :
  self_owned (scan o stages) = ∅ <-> forall s, s ∈ stages -> owner o s <> Some true.
Proof.
  split.
  - intros He s Hs Ho. assert (sd_provider s ∈ self_owned (scan o stages)) as Hin by (apply scan_spec; eauto).
    set_solver.
  - intros Hall. apply leibniz_equiv, elem_of_equiv_empty. intros p (s & Hs & _ & Ho)%scan_spec.
    by apply (Hall s).
Qed.

(** A provider belongs to one side only. *)
Lemma self_owned_spec o stages s :
  s ∈ stages -> (sd_provider s ∈ self_owned (scan o stages) <-> owner o s = Some true).
Proof.
  intros Hs. rewrite (proj1 (scan_spec o stages _)). split; [|eauto].
  intros (t & _ & Hp & Ho). by rewrite (owner_provider o s t).
Qed.

Lemma external_spec o stages s :
  s ∈ stages -> (sd_provider s ∈ external (scan o stages) <-> owner o s = Some false).
Proof.
  intros Hs. rewrite (proj1 (proj2 (scan_spec o stages _))). split; [|eauto].
  intros (t & _ & Hp & Ho). by rewrite (owner_provider o s t).
Qed.

(** The classification, read off the owners. *)
Inductive classified (o : Ownership) (stages : list StageDef) : StageClassification -> Prop :=
  | classified_unknown s :
      s ∈ stages -> owner o s = None ->
      classified o stages (mkStageClassification UNSUPPORTED (self_owned (scan o stages))
        (external (scan o stages)) (unknown (scan o stages)) (scan_errors (scan o stages)))
  | classified_worker :
      (forall s, s ∈ stages -> owner o s = Some true) ->
      classified o stages (mkStageClassification RECONCILE (self_owned (scan o stages)) ∅ ∅ [])
  | classified_external :
      stages <> [] -> (forall s, s ∈ stages -> owner o s = Some false) ->
      classified o stages (mkStageClassification GENERIC ∅ (external (scan o stages)) ∅ [])
  | classified_mixed s t :
      (forall s, s ∈ stages -> owner o s <> None) ->
      s ∈ stages -> owner o s = Some true -> t ∈ stages -> owner o t = Some false ->
      classified o stages (mkStageClassification MIXED_OWNERSHIP (self_owned (scan o stages))
        (external (scan o stages)) ∅ [MixedOwnership]).

Lemma classify_spec o stages : classified o stages (classify_stages o stages).
Proof.
  unfold classify_stages. destruct stages as [|s0 stages0].
  { apply (classified_worker o []). by intros s ?%not_elem_of_nil. }
  set (stages := s0 :: stages0).
  destruct (bool_decide (unknown (scan o stages) = ∅)) eqn:Hu; cbn [negb]; bool_prop.
  2: { apply set_choose_L in Hu as [p (s & Hs & _ & Ho)%scan_spec]. by eapply classified_unknown. }
  rewrite unknown_empty in Hu.
  destruct (bool_decide (external (scan o stages) = ∅)) eqn:He; bool_prop.
  { apply classified_worker. rewrite external_empty in He. intros s Hs.
    specialize (Hu s Hs). specialize (He s Hs). destruct (owner o s) as [[]|]; done. }
  destruct (bool_decide (self_owned (scan o stages) = ∅)) eqn:Hw; bool_prop.
  { apply classified_external; [done|]. rewrite self_owned_empty in Hw. intros s Hs.
    specialize (Hu s Hs). specialize (Hw s Hs). destruct (owner o s) as [[]|]; done. }
  apply set_choose_L in He as [p (t & Ht & _ & Hot)%scan_spec].
  apply set_choose_L in Hw as [q (s & Hs & _ & Hos)%scan_spec].
  exact (classified_mixed o stages s t Hu Hs Hos Ht Hot).
Qed.

(** The sides of a classified pipeline, for one of its stages. *)
Lemma classify_sides o stages s :
  (forall t, t ∈ stages -> owner o t <> None) -> s ∈ stages ->
  let c := classify_stages o stages in
  (sd_provider s ∈ self_owned_providers c <-> owner o s = Some true) /\
  (sd_provider s ∈ external_providers c <-> owner o s = Some false).
Proof.
  intros Hk Hs. pose proof (self_owned_spec o stages s Hs) as Hw. pose proof (external_spec o stages s Hs) as He.
  destruct (classify_spec o stages) as [t Ht Ho|Hall|_ Hall|]; cbn;
    [by destruct (Hk t Ht)|..|done]; specialize (Hall s Hs); rewrite Hall in *; set_solver.
Qed.

Lemma known_iff o stages :
  unknown_providers (classify_stages o stages) = ∅ <-> forall s, s ∈ stages -> owner o s <> None.
Proof.
  destruct (classify_spec o stages) as [s Hs Ho|Hall|_ Hall|s t Hall Hs Hos Ht Hot]; cbn;
    [apply unknown_empty|split; [|done]; intros _ u Hu; by rewrite (Hall u Hu) ..|by split].
Qed.

(** ** The dispatch mode *)

(** The mode, read off the owners of the stages. *)
Definition mode_of_owners (owners : list (option bool)) (execution_mode : string) : DispatchMode :=
  if forallb (fun w => bool_decide (w = Some true)) owners then RECONCILE
  else if existsb (fun w => bool_decide (w = Some true)) owners then
    if String.eqb execution_mode "generic" then MIXED_OWNERSHIP else UNSUPPORTED
  else if String.eqb execution_mode "legacy_reconcile" then UNSUPPORTED else GENERIC.

Lemma all_worker o stages :
  forallb (fun w => bool_decide (w = Some true)) (owner o <$> stages) = true
  <-> forall s, s ∈ stages -> owner o s = Some true.
Proof.
  rewrite forallb_forall. setoid_rewrite <- list_elem_of_In. setoid_rewrite list_elem_of_fmap.
  split.
  - intros H s Hs. eapply bool_decide_eq_true_1, H. eauto.
  - intros H w (s & -> & Hs). apply bool_decide_eq_true_2. auto.
Qed.

Lemma some_worker o stages :
  existsb (fun w => bool_decide (w = Some true)) (owner o <$> stages) = true
  <-> exists s, s ∈ stages /\ owner o s = Some true.
Proof.
  rewrite existsb_exists. setoid_rewrite <- list_elem_of_In. setoid_rewrite list_elem_of_fmap.
  split.
  - intros (w & (s & Hw & Hs) & ->%bool_decide_eq_true_1). eauto.
  - intros (s & Hs & Ho). exists (owner o s). split; [eauto|]. by apply bool_decide_eq_true_2.
Qed.

(** [get_dispatch_mode] decides by the owners of the stages and nothing
    else: it raises exactly when a stage names no registered provider, naming
    the providers of such stages; otherwise a pipeline whose stages are all
    worker-owned reconciles, a mixed one is mixed under the generic mode and
    unsupported under any other, and an external one is generic unless the
    legacy mode, which takes no external stage, is asked for. *)
Theorem dispatch_mode_exact o stages execution_mode :
  match get_dispatch_mode o stages execution_mode with
  | Ok m => (forall s, s ∈ stages -> owner o s <> None)
            /\ m = mode_of_owners (owner o <$> stages) execution_mode
  | Err u => exists s, s ∈ stages /\ owner o s = None
             /\ forall p, p ∈ u <-> exists t, t ∈ stages /\ p = sd_provider t /\ owner o t = None
  end.
Proof.
  unfold get_dispatch_mode. destruct stages as [|s0 stages0].
  { split; [|done]. by intros s ?%not_elem_of_nil. }
  set (stages := s0 :: stages0). pose proof (all_worker o stages) as Haw. pose proof (some_worker o stages) as Hsw.
  unfold mode_of_owners, class_is_mixed, class_is_self_owned.
  destruct (classify_spec o stages) as [s Hs Ho|Hall|_ Hall|s t Hall Hs Hos Ht Hot];
    destruct (String.eqb execution_mode "generic"), (String.eqb execution_mode "legacy_reconcile"); cbn -[stages].
  1-4: rewrite bool_decide_eq_false_2; [|by rewrite unknown_empty; intros H; apply (H s)].
  1-4: exists s; split_and!; [done..|]; intros p; apply scan_spec.
  1-4: rewrite (proj2 Haw Hall); split; [|done]; intros u Hu; by rewrite (Hall u Hu).
  1-4: split; [intros u Hu; by rewrite (Hall u Hu)|].
  1-4: destruct (forallb _ _);
    [by pose proof (proj1 Haw eq_refl s0 (list_elem_of_here _ _)) as H1; rewrite Hall in H1 by left|].
  1-4: destruct (existsb _ _); [|done].
  1-4: destruct (proj1 Hsw eq_refl) as (u & Hu & Hou); by rewrite Hall in Hou.
  all: split; [done|]; rewrite (proj2 Hsw) by eauto.
  all: destruct (forallb _ _); [|done]; by rewrite ((proj1 Haw eq_refl) t Ht) in Hot.
Qed.

(** ** The handoffs *)

Lemma mixed_owned o stages :
  class_is_mixed (classify_stages o stages) = true -> forall s, s ∈ stages -> owner o s <> None.
Proof.
  unfold class_is_mixed. rewrite bool_decide_eq_true.
  destruct (classify_spec o stages) as [| | |s t Hall]; cbn; done.
Qed.

Lemma worker_stage_spec o stages s :
  (forall t, t ∈ stages -> owner o t <> None) -> s ∈ stages ->
  worker_stage (classify_stages o stages) s = true <-> owner o s = Some true.
Proof.
  intros Hk Hs. unfold worker_stage. rewrite bool_decide_eq_true. by apply (classify_sides o stages s).
Qed.

Lemma to_dispatch_spec o stages pre s :
  (forall t, t ∈ stages -> owner o t <> None) -> s ∈ stages ->
  to_dispatch (classify_stages o stages) pre s = true <-> owner o s = Some false /\ sd_id s ∉ pre_ids pre.
Proof.
  intros Hk Hs. unfold to_dispatch. rewrite andb_true_iff, negb_true_iff, bool_decide_eq_true, bool_decide_eq_false.
  by rewrite (proj2 (classify_sides o stages s Hk Hs)).
Qed.

Lemma filter_ext_elem {A} (f g : A -> bool) l :
  (forall x, x ∈ l -> f x = g x) -> List.filter f l = List.filter g l.
Proof.
  induction l as [|x l IH]; intros H; [done|]. cbn. rewrite (H x) by left.
  rewrite IH; [done|]. intros y Hy. apply H. by right.
Qed.

Lemma filter_owned o stages :
  (forall s, s ∈ stages -> owner o s <> None) ->
  List.filter (worker_stage (classify_stages o stages)) stages
  = List.filter (fun s => bool_decide (owner o s = Some true)) stages.
Proof.
  intros Hk. apply filter_ext_elem. intros s Hs. apply eq_true_iff_eq.
  rewrite (worker_stage_spec o stages s Hk Hs). by rewrite bool_decide_eq_true.
Qed.

(** An unknown provider always leaves an error behind. *)
Lemma unknown_has_error o stages s :
  s ∈ stages -> owner o s = None -> scan_errors (scan o stages) <> [].
Proof.
  unfold scan. intros Hs Ho.
  assert (forall l a, scan_errors a <> [] -> scan_errors (fold_left (scan_one o) l a) <> []) as Hkeep.
  { induction l as [|t l IH]; intros a Ha; [done|]. apply IH. unfold scan_one.
    destruct (negb _); [by intros [? ?]%app_nil|]. destruct (is_provider_worker_owned _ _) as [[]|]; try done.
    by intros [? ?]%app_nil. }
  generalize (mkScan ∅ ∅ ∅ []). induction Hs as [l|s t l Hs IH]; intros a; cbn [fold_left]; [|by apply IH].
  apply Hkeep. revert Ho. unfold owner, scan_one. destruct (str_truthy _); cbn [negb].
  - destruct (is_provider_worker_owned _ _) as [[]|]; try done. by intros _ [? ?]%app_nil.
  - by intros _ [? ?]%app_nil.
Qed.

(** What the handoff hands over when it is safe, and when it is. *)
Lemma safe_handoff_spec o stages e pre :
  let h := safe_handoff_stages o stages e pre in
  let c := classify_stages o stages in
  let ext := List.filter (to_dispatch c pre) stages in
  let owned := List.filter (worker_stage c) stages in
  is_handoff_safe h = class_is_mixed c && negb (bool_decide (ext = [])) /\
  (is_handoff_safe h = true ->
    external_stages h = ext /\ seeded_results h = Some (pre ++ (seeded_result e <$> owned))
    /\ seeded_context h = Some (fold_left merge_pre pre (evidence_context e))
    /\ qc_verdict_false h = existsb (qc_failed e) owned) /\
  (is_handoff_safe h = false ->
    external_stages h = [] /\ seeded_results h = None /\ seeded_context h = None /\ handoff_errors h <> []).
Proof.
  unfold safe_handoff_stages. destruct stages as [|s0 stages0]; [done|].
  set (stages := s0 :: stages0).
  destruct (class_is_mixed (classify_stages o stages)) eqn:Hm.
  - rewrite bool_decide_eq_true_2 by (by apply known_iff, mixed_owned). cbn [negb andb].
    destruct (List.filter (to_dispatch _ _) stages) eqn:He; [done|]. by rewrite bool_decide_eq_false_2.
  - destruct (bool_decide _) eqn:Hu; cbn -[stages]; [done|]. split_and!; [done..|]. intros _. split_and!; try done.
    revert Hu. rewrite bool_decide_eq_false.
    destruct (classify_spec o stages); cbn -[stages]; try done. intros _. by eapply unknown_has_error.
Qed.

(** The handoff after the worker's stages is fail-closed and splits the
    pipeline: it is safe exactly when the ownership is known and mixed and an
    external stage remains; a safe one hands over every stage of an external
    provider that was not already run, and those only, and carries one
    successful result, in pipeline order after the results of the pre-stages,
    for each stage of the worker; an unsafe one hands over nothing and says
    why. *)
Theorem handoff_partitions o stages e pre :
  let h := safe_handoff_stages o stages e pre in
  (is_handoff_safe h = true <->
     (forall s, s ∈ stages -> owner o s <> None)
     /\ (exists s, s ∈ stages /\ owner o s = Some true) /\ external_stages h <> []) /\
  (is_handoff_safe h = true ->
     (forall s, s ∈ external_stages h <-> s ∈ stages /\ owner o s = Some false /\ sd_id s ∉ pre_ids pre) /\
     exists seeded, seeded_results h = Some (pre ++ seeded)
       /\ stage_id <$> seeded = sd_id <$> List.filter (fun s => bool_decide (owner o s = Some true)) stages
       /\ Forall (fun r => status r = ok) seeded) /\
  (is_handoff_safe h = false -> external_stages h = [] /\ seeded_results h = None /\ handoff_errors h <> []).
Proof.
  destruct (safe_handoff_spec o stages e pre) as (Hsafe & Ht & Hf). cbv zeta in *.
  set (h := safe_handoff_stages o stages e pre) in *. split_and!.
  - destruct (is_handoff_safe h) eqn:Hh.
    + symmetry in Hsafe. apply andb_true_iff in Hsafe as [Hm Hx]. split; [intros _|done].
      destruct (Ht eq_refl) as [-> _]. split_and!; [by apply mixed_owned| |by bool_prop].
      revert Hm. unfold class_is_mixed. rewrite bool_decide_eq_true.
      destruct (classify_spec o stages); cbn; try done; eauto.
    + split; [done|]. intros (_ & _ & Hx). by destruct (Hf eq_refl) as [? _].
  - intros Hh. rewrite Hh in Hsafe. symmetry in Hsafe. apply andb_true_iff in Hsafe as [Hm _].
    pose proof (mixed_owned o stages Hm) as Hk. destruct (Ht Hh) as (-> & -> & _). split.
    + intros s. rewrite list_elem_of_In, filter_In, <- list_elem_of_In. split.
      * intros [Hs Hd]. by apply (to_dispatch_spec o stages pre s Hk Hs) in Hd as [??].
      * intros (Hs & Hd). split; [done|]. by apply to_dispatch_spec.
    + eexists. split; [done|]. split; [|by apply Forall_fmap, Forall_forall].
      rewrite <- list_fmap_compose, (filter_owned o stages Hk). by apply list_fmap_ext.
  - intros Hh. by destruct (Hf Hh) as (? & ? & _ & ?).
Qed.

Lemma first_worker_spec c stages idx :
  first_worker_idx c stages = Some idx ->
  Forall (fun s => worker_stage c s = false) (take idx stages)
  /\ exists s rest, drop idx stages = s :: rest /\ worker_stage c s = true.
Proof.
  revert idx. induction stages as [|s stages IH]; intros idx; cbn; [done|].
  destruct (worker_stage c s) eqn:Hw; [intros [= <-]; cbn; eauto|].
  destruct (first_worker_idx c stages) as [i|]; [|done]. intros [= <-].
  destruct (IH i eq_refl) as [? ?]. cbn. auto.
Qed.

Lemma pre_errors_none candidates :
  pre_stage_errors candidates = [] <->
  forall s d, s ∈ candidates -> d ∈ sd_depends_on s -> d ∈ sd_id <$> candidates.
Proof.
  unfold pre_stage_errors. generalize (sd_id <$> candidates). intros ids.
  assert (forall l, List.filter (fun d => negb (bool_decide (d ∈ ids))) l = []
                    <-> forall d, d ∈ l -> d ∈ ids) as Hf.
  { induction l as [|d l IH]; cbn; [split; [by intros _ ? ?%not_elem_of_nil|done]|].
    destruct (bool_decide (d ∈ ids)) eqn:Hd; cbn; bool_prop; setoid_rewrite elem_of_cons.
    - rewrite IH. naive_solver.
    - split; [done|]. intros H. destruct Hd. apply H. by left. }
  induction candidates as [|s l IH]; cbn; [split; [by intros _ ? ? ?%not_elem_of_nil|done]|].
  setoid_rewrite elem_of_cons. split.
  - intros [H1%fmap_nil_inv H2]%app_nil. pose proof (proj1 (Hf _) H1). pose proof (proj1 IH H2). naive_solver.
  - intros H. apply app_nil. split; [|apply IH; eauto].
    rewrite (proj2 (Hf _)); [done|eauto].
Qed.

(** The cut: the first stage of the worker. *)
Lemma cut_exact o stages :
  (forall s, s ∈ stages -> owner o s <> None) ->
  match first_worker_idx (classify_stages o stages) stages with
  | Some idx => exists s rest, drop idx stages = s :: rest /\ owner o s = Some true
                /\ Forall (fun t => owner o t = Some false) (take idx stages)
  | None => forall s, s ∈ stages -> owner o s <> Some true
  end.
Proof.
  intros Hk. pose proof (fun s Hs => worker_stage_spec o stages s Hk Hs) as Hw. revert Hw.
  generalize (classify_stages o stages). intros c Hw.
  destruct (first_worker_idx c stages) as [idx|] eqn:Hi.
  - destruct (first_worker_spec _ _ _ Hi) as [Hpre (s & rest & Hd & Hs)]. exists s, rest.
    assert (s ∈ stages) as Hin by (rewrite <- (take_drop idx stages), Hd; set_solver).
    split_and!; [done|by apply Hw|]. apply Forall_forall. intros t Ht. rewrite Forall_forall in Hpre.
    specialize (Hpre t Ht). assert (t ∈ stages) as Ht' by (rewrite <- (take_drop idx stages); set_solver).
    clear Ht. rename Ht' into Ht.
    specialize (Hk t Ht). destruct (owner o t) as [[]|] eqn:Ho; try done. by rewrite (proj2 (Hw t Ht) Ho) in Hpre.
  - intros s Hs Ho. apply (Hw s Hs) in Ho. clear Hk Hw. induction Hs; cbn in Hi; [by rewrite Ho in Hi|].
    destruct (worker_stage c y); [done|]. destruct (first_worker_idx c l); [done|auto].
Qed.

Lemma cut_unique o pre s rest pre' s' rest' :
  pre ++ s :: rest = pre' ++ s' :: rest' -> owner o s = Some true -> owner o s' = Some true ->
  Forall (fun t => owner o t = Some false) pre -> Forall (fun t => owner o t = Some false) pre' ->
  pre = pre' /\ s = s'.
Proof.
  intros H Hs Hs' Hp. revert pre' H. induction Hp as [|t pre Ht Hp IH]; intros [|t' pre'] H Hp';
    cbn in H; simplify_eq; try (apply Forall_cons in Hp' as [Ht' Hp']); try congruence; [done|].
  by destruct (IH pre') as [-> ->].
Qed.

Lemma extract_mixed o stages e :
  class_is_mixed (classify_stages o stages) = true ->
  extract_pre_handoff_stages o stages e
  = match first_worker_idx (classify_stages o stages) stages with
    | None => unsafe_pre stages [NoWorkerStage]
    | Some idx => cut_at stages e idx
    end.
Proof.
  intros Hm. unfold extract_pre_handoff_stages. destruct stages as [|s stages]; [done|].
  rewrite bool_decide_eq_true_2 by (by apply known_iff, mixed_owned). by rewrite Hm.
Qed.

Lemma extract_unmixed o stages e :
  class_is_mixed (classify_stages o stages) = false ->
  let p := extract_pre_handoff_stages o stages e in
  is_pre_dispatch_safe p = false /\ pre_stages p = [] /\ worker_stages p = stages /\ pre_errors p <> [].
Proof.
  intros Hm. unfold extract_pre_handoff_stages. destruct stages as [|s0 stages0]; [done|].
  set (stages := s0 :: stages0) in *. rewrite Hm.
  destruct (bool_decide _) eqn:Hu; cbn -[stages]; [done|]. split_and!; try done.
  revert Hu. rewrite bool_decide_eq_false.
  destruct (classify_spec o stages); cbn -[stages]; try done. intros _. by eapply unknown_has_error.
Qed.

Lemma cut_outcome stages e idx :
  let pre := take idx stages in
  (pre <> [] /\ (forall t d, t ∈ pre -> d ∈ sd_depends_on t -> d ∈ sd_id <$> pre)
   /\ cut_at stages e idx = mkPreStageHandoff pre (drop idx stages) true (Some (evidence_context e)) [])
  \/ exists es, es <> [] /\ (pre = [] \/ ~ (forall t d, t ∈ pre -> d ∈ sd_depends_on t -> d ∈ sd_id <$> pre))
     /\ cut_at stages e idx = unsafe_pre stages es.
Proof.
  cbv zeta. unfold cut_at. destruct (take idx stages) as [|s l] eqn:Hpre.
  { right. exists [NothingPrecedes idx]. auto. }
  destruct (pre_stage_errors (s :: l)) eqn:He.
  - left. split_and!; [done| |done]. by apply pre_errors_none.
  - right. eexists. split_and!; [|right|done]; [done|]. intros H%pre_errors_none. by rewrite He in H.
Qed.

(** A safe cut. *)
Lemma safe_pre o stages e :
  let p := extract_pre_handoff_stages o stages e in
  is_pre_dispatch_safe p = true ->
  class_is_mixed (classify_stages o stages) = true /\ stages = pre_stages p ++ worker_stages p
  /\ Forall (fun t => owner o t = Some false) (pre_stages p).
Proof.
  cbv zeta. destruct (class_is_mixed (classify_stages o stages)) eqn:Hm.
  2: { by destruct (extract_unmixed o stages e Hm) as (-> & _). }
  rewrite (extract_mixed o stages e Hm). pose proof (cut_exact o stages (mixed_owned o stages Hm)) as Hcut.
  destruct (first_worker_idx _ stages) as [idx|]; cbn; [|done]. destruct Hcut as (s & rest & _ & _ & Hpre).
  destruct (cut_outcome stages e idx) as [(_ & _ & ->)|(es & _ & _ & ->)]; cbn; [|done].
  by rewrite take_drop.
Qed.

(** The handoff before the worker's stages is fail-closed: a safe one cuts
    the pipeline at the first stage the worker owns, the stages before the cut
    are all external, there is at least one, and they depend on nothing
    outside themselves, so they can run before the worker has run anything; it
    is safe exactly when such a cut exists in a mixed pipeline; an unsafe one
    leaves the whole pipeline to the worker and says why. *)
Theorem pre_handoff_closed o stages e :
  let p := extract_pre_handoff_stages o stages e in
  (is_pre_dispatch_safe p = true <->
     class_is_mixed (classify_stages o stages) = true /\
     exists pre s rest, stages = pre ++ s :: rest /\ pre <> [] /\ owner o s = Some true
       /\ Forall (fun t => owner o t = Some false) pre
       /\ forall t d, t ∈ pre -> d ∈ sd_depends_on t -> d ∈ sd_id <$> pre) /\
  (is_pre_dispatch_safe p = true ->
     stages = pre_stages p ++ worker_stages p /\ pre_stages p <> []
     /\ Forall (fun t => owner o t = Some false) (pre_stages p)
     /\ (exists s rest, worker_stages p = s :: rest /\ owner o s = Some true)
     /\ forall t d, t ∈ pre_stages p -> d ∈ sd_depends_on t -> d ∈ sd_id <$> pre_stages p) /\
  (is_pre_dispatch_safe p = false -> pre_stages p = [] /\ worker_stages p = stages /\ pre_errors p <> []).
Proof.
  cbv zeta. destruct (class_is_mixed (classify_stages o stages)) eqn:Hm.
  - rewrite (extract_mixed o stages e Hm). pose proof (mixed_owned o stages Hm) as Hk.
    pose proof (cut_exact o stages Hk) as Hcut.
    destruct (first_worker_idx _ stages) as [idx|]; cbn.
    + destruct Hcut as (s & rest & Hd & Hs & Hpre). pose proof (take_drop idx stages) as Heq. rewrite Hd in Heq.
      destruct (cut_outcome stages e idx) as [(Hne & Hc & ->)|(es & Hes & Hno & ->)]; cbn; split_and!; try done.
      * split; [intros _; split; [done|]; exists (take idx stages), s, rest; by rewrite Heq|done].
      * intros _. rewrite Hd, Heq. split_and!; eauto.
      * split; [done|]. intros (_ & pre & u & rest' & -> & Hne & Hu & Hall & Hc).
        destruct (cut_unique o (take idx (pre ++ u :: rest')) s rest pre u rest') as [Hp _]; [done..|].
        destruct Hno as [Hno|Hno]; rewrite Hp in Hno; [done|]. by destruct Hno.
    + split_and!; try done. split; [done|]. intros (_ & pre & u & rest & -> & _ & Hu & _).
      destruct (Hcut u); [set_solver|done].
  - destruct (extract_unmixed o stages e Hm) as (-> & -> & -> & He). split_and!; [|done..].
    split; [done|]. by intros [? _].
Qed.

(** ** The two handoffs together *)

Lemma filter_complement {A} (f g : A -> bool) l :
  (forall x, x ∈ l -> g x = negb (f x)) -> List.filter f l ++ List.filter g l ≡ₚ l.
Proof.
  induction l as [|x l IH]; intros H; [done|]. assert (List.filter f l ++ List.filter g l ≡ₚ l) as IH'.
  { apply IH. intros y Hy. apply H. by right. }
  cbn. rewrite (H x) by left. destruct (f x); cbn; [by rewrite IH'|].
  by rewrite <- Permutation_middle, IH'.
Qed.

Lemma filter_none {A} (f : A -> bool) l : (forall x, x ∈ l -> f x = false) -> List.filter f l = [].
Proof.
  induction l as [|x l IH]; intros H; [done|]. cbn. rewrite (H x) by left. apply IH.
  intros y Hy. apply H. by right.
Qed.

Lemma pre_ids_elem pre i : i ∈ pre_ids pre <-> i ∈ stage_id <$> pre /\ str_truthy i = true.
Proof. unfold pre_ids. by rewrite !list_elem_of_In, filter_In. Qed.

(** Splitting the pipeline at the cut and then by owner loses no stage. *)
Lemma hybrid_split o stages pre ws rs :
  stages = pre ++ ws -> (forall s, s ∈ stages -> owner o s <> None) ->
  NoDup (sd_id <$> stages) -> Forall (fun s => str_truthy (sd_id s) = true) stages ->
  Forall (fun t => owner o t = Some false) pre -> stage_id <$> rs = sd_id <$> pre ->
  pre ++ List.filter (fun s => bool_decide (owner o s = Some true)) stages
      ++ List.filter (to_dispatch (classify_stages o stages) rs) stages ≡ₚ stages.
Proof.
  intros Heq Hk Hnd Htr Hpre Hids. rewrite Forall_forall in Hpre, Htr.
  set (c := classify_stages o stages).
  assert (forall s, s ∈ stages -> to_dispatch c rs s = true <-> owner o s = Some false /\ sd_id s ∉ sd_id <$> pre)
    as Hd.
  { intros s Hs. unfold c. rewrite (to_dispatch_spec o stages rs s Hk Hs), pre_ids_elem, Hids.
    specialize (Htr s Hs). naive_solver. }
  subst stages. rewrite !List.filter_app, (filter_none _ pre), (filter_none (to_dispatch c rs) pre); cbn.
  - rewrite filter_complement; [done|]. intros s Hs. apply eq_true_iff_eq.
    assert (s ∈ pre ++ ws) as Hin by set_solver. rewrite (Hd s Hin), negb_true_iff, bool_decide_eq_false.
    rewrite fmap_app in Hnd. apply NoDup_app in Hnd as (_ & Hnot & _).
    specialize (Hk s Hin). destruct (owner o s) as [[]|]; try done; [naive_solver|].
    split; [done|]. intros _. split; [done|]. intros Hp. apply (Hnot _ Hp). by apply list_elem_of_fmap_2.
  - intros s Hs. apply not_true_is_false. rewrite (Hd s) by set_solver. intros [_ Hn].
    apply Hn. by apply list_elem_of_fmap_2.
  - intros s Hs. rewrite (Hpre s Hs). by apply bool_decide_eq_false_2.
Qed.

(** A mixed pipeline that runs its leading external stages first, then the
    worker's stages, then hands over: every stage of the pipeline is on exactly
    one of the three sides, so no stage runs twice and none is forgotten; and
    the results the handoff seeds, together with the stages it hands over,
    name every stage of the pipeline once. *)
Theorem hybrid_runs_each_stage_once {W} (call : W -> StageDef -> StageContext -> W * CallResult)
    max_corrections max_retries w o stages e e' run :
  let p := extract_pre_handoff_stages o stages e in
  let h := safe_handoff_stages o stages e' (results run) in
  (forall s w c w' r, call w s c = (w', Returned r) -> stage_id r = sd_id s) ->
  NoDup (sd_id <$> stages) -> Forall (fun s => str_truthy (sd_id s) = true) stages ->
  is_pre_dispatch_safe p = true ->
  dispatch call max_corrections max_retries w (pre_stages p) (evidence_context e) = Ok run ->
  pre_stages p ++ List.filter (fun s => bool_decide (owner o s = Some true)) stages ++ external_stages h
    ≡ₚ stages
  /\ forall sr, seeded_results h = Some sr ->
     (stage_id <$> sr) ++ (sd_id <$> external_stages h) ≡ₚ sd_id <$> stages.
Proof.
  cbv zeta. intros Hcall Hnd Htr Hsafe Hrun.
  destruct (safe_pre o stages e Hsafe) as (Hm & Heq & Hpre).
  pose proof (mixed_owned o stages Hm) as Hk.
  set (pre := pre_stages (extract_pre_handoff_stages o stages e)) in *.
  assert (run_inv run pre) as [Hrs _].
  { apply (dispatch_runs call max_corrections max_retries w pre (evidence_context e)); [eauto| |done].
    rewrite Heq, fmap_app in Hnd. by apply NoDup_app in Hnd as [? _]. }
  assert (stage_id <$> results run = sd_id <$> pre) as Hids.
  { clear -Hrs. induction Hrs as [|s r ss rs [Hid _] _ IH]; [done|]. cbn. by rewrite Hid, IH. }
  pose proof (hybrid_split o stages pre _ _ Heq Hk Hnd Htr Hpre Hids) as Hsplit.
  destruct (safe_handoff_spec o stages e' (results run)) as (Hh & Ht & Hf). cbv zeta in *. rewrite Hm in Hh.
  destruct (is_handoff_safe (safe_handoff_stages o stages e' (results run))).
  - destruct (Ht eq_refl) as (-> & -> & _). split; [done|]. intros sr [= <-].
    rewrite fmap_app, Hids, <- list_fmap_compose, (filter_owned o stages Hk).
    rewrite <- Hsplit at 4. by rewrite !fmap_app, app_assoc.
  - destruct (Hf eq_refl) as (-> & -> & _). split; [|done].
    symmetry in Hh. apply negb_false_iff in Hh. bool_prop. by rewrite <- Hh.
Qed.

(** ** Witnesses *)

Module BoundaryDemo.

Definition registry : Ownership :=
  register_provider_ownership (register_provider_ownership no_ownership "comfy" "http" "worker") "vision" "sdk" "".

(** A caption by an external provider, a picture by the worker, and its check
    by the external provider again. *)
Definition stages : list StageDef :=
  [mkStageDef "caption" "prompt_enhance" "vision" [] [] None;
   mkStageDef "picture" "generate" "comfy" [] ["caption"] None;
   mkStageDef "check" "qc" "vision" [] ["picture"] None].

Definition evidence : Evidence := mkEvidence "a horse" [] [("picture", [("path", PStr "a.png")])] [] 0.

Definition call (w : unit) (s : StageDef) (_ : StageContext) : unit * CallResult :=
  (w, Returned (mkStageResult (sd_id s) (sd_kind s) (sd_provider s) ok [("prompt", PStr "a grey horse")] "" 0)).

Definition run : Progress :=
  match dispatch call 1 3 tt (pre_stages (extract_pre_handoff_stages registry stages evidence))
          (evidence_context evidence) with
  | Ok p => p
  | Err _ => start tt (new_context "")
  end.

Definition handoff : HandoffResult := safe_handoff_stages registry stages evidence (results run).

End BoundaryDemo.

Lemma handoff_partitions_witness :
  is_handoff_safe BoundaryDemo.handoff = true /\ (sd_id <$> external_stages BoundaryDemo.handoff) = ["check"] /\
  forall s, s ∈ external_stages BoundaryDemo.handoff -> owner BoundaryDemo.registry s = Some false.
Proof.
  assert (is_handoff_safe BoundaryDemo.handoff = true) as Hs by (by vm_compute).
  destruct (handoff_partitions BoundaryDemo.registry BoundaryDemo.stages BoundaryDemo.evidence
    (results BoundaryDemo.run)) as (_ & H & _).
  split; [exact Hs|]. split; [by vm_compute|]. intros s Hin. by apply (proj1 (H Hs)).
Defined.

Lemma pre_handoff_closed_witness :
  let p := extract_pre_handoff_stages BoundaryDemo.registry BoundaryDemo.stages BoundaryDemo.evidence in
  (sd_id <$> pre_stages p) = ["caption"] /\ BoundaryDemo.stages = pre_stages p ++ worker_stages p.
Proof.
  cbv zeta. split; [by vm_compute|].
  apply (pre_handoff_closed BoundaryDemo.registry BoundaryDemo.stages BoundaryDemo.evidence). by vm_compute.
Defined.

Lemma hybrid_runs_each_stage_once_witness :
  exists sr, seeded_results BoundaryDemo.handoff = Some sr
  /\ (stage_id <$> sr) ++ (sd_id <$> external_stages BoundaryDemo.handoff) ≡ₚ sd_id <$> BoundaryDemo.stages.
Proof.
  exists (default [] (seeded_results BoundaryDemo.handoff)). split; [by vm_compute|].
  apply (hybrid_runs_each_stage_once BoundaryDemo.call 1 3 tt BoundaryDemo.registry BoundaryDemo.stages
    BoundaryDemo.evidence BoundaryDemo.evidence BoundaryDemo.run).
  - intros s w c w' r [= _ <-]. done.
  - apply (bool_decide_unpack _). by vm_compute.
  - by repeat constructor.
  - by vm_compute.
  - by vm_compute.
  - by vm_compute.
Defined.

Lemma dispatch_mode_exact_witness :
  get_dispatch_mode BoundaryDemo.registry BoundaryDemo.stages "generic" = Ok MIXED_OWNERSHIP
  /\ mode_of_owners (owner BoundaryDemo.registry <$> BoundaryDemo.stages) "generic" = MIXED_OWNERSHIP.
Proof.
  pose proof (dispatch_mode_exact BoundaryDemo.registry BoundaryDemo.stages "generic") as H.
  destruct (get_dispatch_mode BoundaryDemo.registry BoundaryDemo.stages "generic") as [m|] eqn:Hm.
  - destruct H as [_ ->]. split; [done|]. by vm_compute.
  - by vm_compute in Hm.
Defined.
