(* ===== verification/RuntimeContracts.v ===== *)
(** * RuntimeContracts: runtime profiles, model sets and observations

    Models [scripts/runtime_contracts.py].  A validator returns the list of its
    messages; [Err] is the [TypeError] of looking an unhashable value up in a
    set, which escapes.  The fields a profile may not have are reported in the
    order of the source, where Python follows the order of a set.  The
    canonical text of a profile and its digest are one parameter. *)

From stdpp Require Import pretty.
From S2P Require Import Prelude PyValue PyText WorkflowContracts.

Definition RUNTIME_PROFILE_SCHEMA_VERSION : string := "runtime-profile.v1".
Definition MODEL_SET_SCHEMA_VERSION : string := "model-set.v1".

Definition _STATES : list string := ["stopped"; "loading"; "ready"; "draining"; "faulted"].
Definition _MODEL_SET_STATUSES : list string := ["draft"; "qualified"; "retired"].
Definition _MODEL_SET_KINDS : list string := ["model-runtime"; "control-plane"].
Definition _DISALLOWED_FIELDS : list string :=
  ["command"; "exec"; "shell"; "privileged"; "host_mounts"; "docker_socket"; "host_network"].
Definition _MODEL_SET_DISALLOWED_FIELDS : list string :=
  _DISALLOWED_FIELDS ++ ["path"; "url"; "endpoint"; "environment"; "env"; "secret"; "credentials"; "mounts"].

Definition complain (ok : bool) (text : string) : list string := if ok then [] else [text].

Definition is_text (v : value) (s : string) : bool := match v with PStr t => String.eqb t s | _ => false end.

(** A string that is not blank. *)
Definition nonblank (v : value) : bool := match v with PStr s => str_truthy (py_strip s) | _ => false end.

Definition _string_list (v : value) : bool := match v with PList l => forallb nonblank l | _ => false end.

Definition at_least (n : Z) (v : value) : bool := match v with PInt m => n <=? m | _ => false end.

(** [v in names], which hashes [v]. *)
Definition member (v : value) (names : list string) : result string bool :=
  match v with
  | PList _ => Err "unhashable type: 'list'"
  | PDict _ => Err "unhashable type: 'dict'"
  | PStr s => Ok (bool_decide (s ∈ names))
  | _ => Ok false
  end.

Definition listed (names : list string) : string := py_repr (PList (PStr <$> py_sorted names)).

(** [d.get(k)] *)
Definition get (d : data) (k : string) : value := dict_get_or d k PNone.

(** [k not in d or f(d[k])] *)
Definition if_present (d : data) (k : string) (f : value -> bool) : bool :=
  match dict_get d k with Some v => f v | None => true end.

(** ** Profiles *)

Definition process_errors (process : value) : list string :=
  match process with
  | PNone => []
  | PDict p =>
      complain (if_present p "unit" (fun v => is_none v || is_str v)) "process.unit must be a string"
      ++ complain (match dict_get_or p "port" (PInt 0) with PInt n => (0 <=? n) && (n <=? 65535) | _ => false end)
           "process.port must be an integer between 0 and 65535"
      ++ complain (if_present p "health_path" is_str) "process.health_path must be a string"
  | _ => ["process must be an object"]
  end.

Definition name_errors (name : string) : list string :=
  complain (id_fullmatch name) "name must contain only letters, digits, '.', '_' or '-'".

(** The checks on a profile that is an object. *)
Definition profile_errors (p : data) : list string :=
  complain (is_text (get p "schema_version") RUNTIME_PROFILE_SCHEMA_VERSION)
    ("schema_version must be " +:+ py_repr_str RUNTIME_PROFILE_SCHEMA_VERSION)
  ++ complain (at_least 1 (dict_get_or p "revision" (PInt 1))) "revision must be a positive integer"
  ++ concat ((fun field => complain (nonblank (get p field)) (field +:+ " must be a non-empty string"))
             <$> ["engine"; "adapter"])
  ++ process_errors (dict_get_or p "process" (PDict []))
  ++ complain (match get p "model_set" with PNone | PStr _ | PDict _ => true | _ => false end)
       "model_set must be a string or object"
  ++ complain (if_present p "model_set_revision" (at_least 1)) "model_set_revision must be a positive integer"
  ++ complain (if_present p "model_set_fingerprint" (fun v => is_sha256 (py_str v)))
       "model_set_fingerprint must be a lowercase SHA-256"
  ++ complain (if_present p "capabilities" _string_list) "capabilities must be a list of non-empty strings"
  ++ complain (if_present p "resource_requirements" is_mapping) "resource_requirements must be an object"
  ++ complain (if_present p "identity_fields" _string_list) "identity_fields must be a list of non-empty strings"
  ++ concat ((fun field => complain (negb (bool_decide (is_Some (dict_get p field))))
                             (field +:+ " is not allowed in a runtime profile")) <$> _DISALLOWED_FIELDS).

Definition validate_runtime_profile (name : string) (profile : value) : list string :=
  name_errors name ++ match profile with PDict p => profile_errors p | _ => ["profile must be an object"] end.

(** ** Model sets *)

Fixpoint _dangerous_model_set_fields (v : value) (prefix : string) : list string :=
  match v with
  | PDict d =>
      (fix go d := match d with
        | [] => []
        | (k, x) :: d' =>
            let child := if str_truthy prefix then prefix +:+ "." +:+ k else k in
            complain (negb (bool_decide (py_lower k ∈ _MODEL_SET_DISALLOWED_FIELDS)))
              (child +:+ " is not allowed in a model set")
            ++ _dangerous_model_set_fields x child ++ go d'
        end) d
  | PList l =>
      (fix go (i : Z) l := match l with
        | [] => []
        | x :: l' => _dangerous_model_set_fields x (prefix +:+ "[" +:+ pretty i +:+ "]") ++ go (i + 1) l'
        end) 0 l
  | _ => []
  end.

(** What the loop over the components gathers. *)
Record ComponentScan := mkComponentScan {
  cs_errors : list string; cs_seen : list string; cs_roles : list string; cs_devices : list string }.

#[export] Instance ComponentScan_eta : Replaceable ComponentScan := fun s =>
  mkComponentScan (cs_errors s) (cs_seen s) (cs_roles s) (cs_devices s).

Definition component_field (qualified : bool) (prefix : string) (c : data) (field : string) : list string :=
  let v := get c field in
  if negb (nonblank v) then [prefix +:+ "." +:+ field +:+ " must be a non-empty string"]
  else complain (negb (qualified
         && (let low := String.list_ascii_of_string (py_lower (py_strip (py_str v))) in
             starts_with (String.list_ascii_of_string "unresolved") low
             || starts_with (String.list_ascii_of_string "unknown") low)))
         (prefix +:+ "." +:+ field +:+ " may not be unresolved in a qualified model set").

Definition digest_errors (qualified : bool) (prefix : string) (digest : value) : list string :=
  complain (match digest with PNone => true | PStr s => is_sha256 s | _ => false end)
    (prefix +:+ ".sha256 must be null or lowercase SHA-256")
  ++ complain (negb (qualified && is_none digest)) (prefix +:+ ".sha256 is required for a qualified model set").

(** A non-blank text under [k], noted. *)
Definition noted (c : data) (k : string) (names : list string) : list string :=
  match get c k with PStr s => if str_truthy (py_strip s) then names ++ [s] else names | _ => names end.

Definition scan_component (qualified : bool) (st : ComponentScan) (index : Z) (component : value) : ComponentScan :=
  let prefix := "components[" +:+ pretty index +:+ "]" in
  match component with
  | PDict c =>
      let '(id_errors, seen) :=
        match get c "id" with
        | PStr s => if negb (id_fullmatch s) then ([prefix +:+ ".id must be a safe identifier"], cs_seen st)
                    else if decide (s ∈ cs_seen st) then ([prefix +:+ ".id is duplicated"], cs_seen st)
                    else ([], cs_seen st ++ [s])
        | _ => ([prefix +:+ ".id must be a safe identifier"], cs_seen st)
        end in
      mkComponentScan
        (cs_errors st ++ id_errors
         ++ concat (component_field qualified prefix c <$> ["role"; "artifact"; "precision"; "device"])
         ++ complain (if_present c "compatible_with" _string_list)
              (prefix +:+ ".compatible_with must be a list of component IDs")
         ++ digest_errors qualified prefix (get c "sha256"))
        seen (noted c "role" (cs_roles st)) (noted c "device" (cs_devices st))
  | _ => st ⟪ cs_errors := cs_errors st ++ [prefix +:+ " must be an object"] ⟫
  end.

Fixpoint scan_components (qualified : bool) (st : ComponentScan) (index : Z) (l : list value) : ComponentScan :=
  match l with
  | [] => st
  | c :: l' => scan_components qualified (scan_component qualified st index c) (index + 1) l'
  end.

Definition budget_errors (qualified runtime : bool) (device : string) (amount : value) : list string :=
  complain (str_truthy (py_strip device)) "memory_budget_mib keys must be non-empty strings"
  ++ (if is_none amount && negb qualified then []
      else if negb (at_least 0 amount) then
        ["memory_budget_mib." +:+ device +:+ " must be a non-negative integer"
         +:+ (if qualified then " for a qualified model set" else " or null")]
      else complain (negb (qualified && runtime && py_eq amount (PInt 0)))
             ("memory_budget_mib." +:+ device +:+ " must be positive for a qualified model runtime")).

Definition missing_names (wanted have : list string) : list string :=
  py_sorted (List.filter (fun s => negb (bool_decide (s ∈ have))) (dict_fromkeys wanted)).

Definition budgets_errors (qualified runtime : bool) (devices : list string) (budgets : value) : list string :=
  match budgets with
  | PDict b =>
      complain (negb (runtime && match b with [] => true | _ => false end))
        "model-runtime sets must declare memory budgets"
      ++ concat ((fun i => budget_errors qualified runtime i.1 i.2) <$> b)
      ++ ((fun device => "memory_budget_mib must declare component device " +:+ py_repr_str device)
          <$> missing_names devices b.*1)
  | _ => ["memory_budget_mib must be an object"]
  end.

Definition texts_of (v : value) : list string := match v with PList l => omap as_str l | _ => [] end.

Definition compatibility_errors (qualified runtime : bool) (roles : list string) (compatibility : value)
    : list string :=
  let fields := ["engines"; "requires_roles"; "accepts"; "produces"] in
  match compatibility with
  | PDict c =>
      concat ((fun field => complain (if_present c field _string_list)
                 ("compatibility." +:+ field +:+ " must be a list of non-empty strings")) <$> fields)
      ++ (if _string_list (get c "requires_roles") then
            (fun role => "compatibility.requires_roles references undeclared role " +:+ py_repr_str role)
            <$> missing_names (texts_of (get c "requires_roles")) roles
          else [])
      ++ (if qualified && runtime then
            concat ((fun field => complain (py_truthy (get c field))
                       ("compatibility." +:+ field +:+ " is required for a qualified model runtime")) <$> fields)
          else [])
  | _ => ["compatibility must be an object"]
  end.

Definition validate_model_set (name : string) (model_set : value) : result string (list string) :=
  match model_set with
  | PDict m =>
      let head := name_errors name
        ++ complain (is_text (get m "schema_version") MODEL_SET_SCHEMA_VERSION)
             ("schema_version must be " +:+ py_repr_str MODEL_SET_SCHEMA_VERSION)
        ++ complain (is_text (get m "id") name) "id must match the registry model-set name"
        ++ complain (at_least 1 (dict_get_or m "revision" (PInt 1))) "revision must be a positive integer" in
      known_status ← member (get m "status") _MODEL_SET_STATUSES;
      known_kind ← member (get m "kind") _MODEL_SET_KINDS;
      let qualified := is_text (get m "status") "qualified" in
      let runtime := is_text (get m "kind") "model-runtime" in
      let components := match get m "components" with PList l => l | _ => [] end in
      let scan := scan_components qualified (mkComponentScan [] [] [] []) 0 components in
      Ok (head
          ++ complain known_status ("status must be one of " +:+ listed _MODEL_SET_STATUSES)
          ++ complain known_kind ("kind must be one of " +:+ listed _MODEL_SET_KINDS)
          ++ (match get m "components" with
              | PList l => complain (negb (runtime && match l with [] => true | _ => false end))
                             "model-runtime sets must declare at least one component"
              | _ => ["components must be a list"] end)
          ++ cs_errors scan
          ++ budgets_errors qualified runtime (cs_devices scan) (get m "memory_budget_mib")
          ++ compatibility_errors qualified runtime (cs_roles scan) (get m "compatibility")
          ++ _dangerous_model_set_fields model_set "")
  | _ => Ok (name_errors name ++ ["model set must be an object"])
  end.

(** ** Observations and the registry *)

Section Fingerprint.
(** [runtime_profile_fingerprint] and [model_set_fingerprint]: the SHA-256 of
    the sorted compact JSON text. *)
Variable fingerprint : value -> string.

Definition validate_runtime_observation (profile_name : string) (profile observation : data)
    : result string (list string) :=
  known ← member (get observation "state") _STATES;
  Ok (validate_runtime_profile profile_name (PDict profile)
      ++ complain (is_text (get observation "profile_name") profile_name)
           "observation.profile_name does not match selected profile"
      ++ complain (is_text (get observation "profile_fingerprint") (fingerprint (PDict profile)))
           "observation.profile_fingerprint does not match selected profile"
      ++ complain known ("observation.state must be one of " +:+ listed _STATES)
      ++ complain (at_least 1 (get observation "process_generation"))
           "observation.process_generation must be a positive integer"
      ++ concat ((fun field => complain (is_bool (get observation field))
                                 ("observation." +:+ field +:+ " must be boolean"))
                 <$> ["process_ready"; "model_ready"; "accepting"])
      ++ complain (negb (is_text (get observation "state") "ready"
                         && negb (py_truthy (get observation "process_ready")
                                  && py_truthy (get observation "model_ready"))))
           "ready observation requires process_ready and model_ready"
      ++ complain (is_none (get profile "model_set") || py_eq (get observation "model_set") (get profile "model_set"))
           "observation.model_set does not match selected profile").

Definition prefixed (where_ : string) (errors : list string) : list string := (fun e => where_ +:+ ": " +:+ e) <$> errors.

(** The reference of one profile to its model set. *)
Definition reference_errors (model_sets : data) (i : string * value) : list string :=
  let where_ := "runtime_profiles." +:+ i.1 +:+ ".model_set" in
  match i.2 with
  | PDict profile =>
      match get profile "model_set" with
      | PStr name =>
          match dict_get model_sets name with
          | None => [where_ +:+ " references unknown model set " +:+ py_repr_str name]
          | Some (PDict m) =>
              complain (py_eq (get profile "model_set_revision") (get m "revision"))
                (where_ +:+ "_revision does not match " +:+ py_repr_str name)
              ++ complain (is_text (get profile "model_set_fingerprint") (fingerprint (PDict m)))
                (where_ +:+ "_fingerprint does not match " +:+ py_repr_str name)
          | Some _ => []
          end
      | _ => []
      end
  | _ => []
  end.

Definition service_errors (profiles : data) (i : string * value) : result string (list string) :=
  match i.2 with
  | PDict service =>
      let name := get service "runtime_profile" in
      if py_truthy name then
        known ← member name profiles.*1;
        Ok (complain known ("services." +:+ i.1 +:+ ".runtime_profile references unknown profile " +:+ py_repr name))
      else Ok []
  | _ => Ok []
  end.

(** The messages of every item, or the first exception. *)
Fixpoint gather {A} (f : A -> result string (list string)) (l : list A) : result string (list string) :=
  match l with [] => Ok [] | x :: l' => e ← f x; r ← gather f l'; Ok (e ++ r) end.

Definition or_object (v : value) : value := match v with PNone => PDict [] | _ => v end.

Definition validate_runtime_registry (registry : value) : result string (list string) :=
  match registry with
  | PDict r =>
      if negb (bool_decide (is_Some (dict_get r "runtime_profiles")))
         && negb (bool_decide (is_Some (dict_get r "model_sets"))) then Ok []
      else match or_object (dict_get_or r "runtime_profiles" (PDict [])) with
           | PDict profiles =>
               let errors := concat ((fun i => prefixed ("runtime_profiles." +:+ i.1)
                                                 (validate_runtime_profile i.1 i.2)) <$> profiles) in
               match or_object (dict_get_or r "model_sets" (PDict [])) with
               | PDict sets =>
                   set_errors ← gather (fun i => prefixed ("model_sets." +:+ i.1) <$> validate_model_set i.1 i.2) sets;
                   let references := if bool_decide (is_Some (dict_get r "model_sets"))
                                     then concat (reference_errors sets <$> profiles) else [] in
                   services ← match dict_get_or r "services" (PDict []) with
                              | PDict s => gather (service_errors profiles) s | _ => Ok [] end;
                   Ok (errors ++ set_errors ++ references ++ services)
               | _ => Ok (errors ++ ["model_sets must be an object"])
               end
           | _ => Ok ["runtime_profiles must be an object"]
           end
  | _ => Ok ["registry must be an object"]
  end.

(** ** What an accepted observation says *)

Lemma complain_nil ok t : complain ok t = [] <-> ok = true.
Proof. by destruct ok. Qed.

Lemma observation_accepted name profile observation :
  validate_runtime_observation name profile observation = Ok [] ->
  validate_runtime_profile name (PDict profile) = [] /\
  get observation "profile_name" = PStr name /\
  get observation "profile_fingerprint" = PStr (fingerprint (PDict profile)) /\
  (exists n, get observation "process_generation" = PInt n /\ 1 <= n) /\
  (exists p m a, get observation "process_ready" = PBool p /\ get observation "model_ready" = PBool m /\
     get observation "accepting" = PBool a /\
     (get observation "state" = PStr "ready" -> p = true /\ m = true)).
Proof.
  assert (forall v s, is_text v s = true -> v = PStr s) as Ht.
  { intros [| | | | | |t| |] s; cbn; try done. by intros ->%String.eqb_eq. }
  unfold validate_runtime_observation. destruct (member _ _) as [known|]; [|done]. cbn [mbind result_bind].
  intros [= H]. rewrite !app_nil, !complain_nil in H. destruct H as (H1 & H2 & H3 & _ & H4 & H5 & H6 & _).
  destruct H5 as (Hp & Hm & Ha & _).
  split_and!; [done|by apply Ht|by apply Ht| |].
  - destruct (get observation "process_generation"); try done. cbn in H4. eexists. split; [done|lia].
  - destruct (get observation "process_ready") as [|p| | | | | | |]; try done.
    destruct (get observation "model_ready") as [|m| | | | | | |]; try done.
    destruct (get observation "accepting") as [|a| | | | | | |]; try done.
    exists p, m, a. split_and!; [done..|]. intros Hs. rewrite Hs in H6. cbn in H6. by destruct p, m.
Qed.

End Fingerprint.
