(* ===== verification/RuntimeState.v ===== *)
(** * RuntimeState: fenced records of what actually runs

    Models [RuntimeStateStore] of [scripts/runtime_state.py]: which process and
    model generation of a runtime instance is really there, as adapters observe
    it while they hold a transition lease.  Every method runs under the store's
    lock and is one step; times are whole microseconds. *)

From S2P Require Import Prelude PyValue PyText RuntimeContracts.

(** [RuntimeStateError], its subclass [RuntimeConflict], and the [TypeError]
    of an observation whose state is not hashable. *)
Inductive RuntimeError := StateError (text : string) | RuntimeConflict (text : string) | TypeError (text : string).

Inductive RuntimeControlState := UNKNOWN | STOPPED | TRANSITIONING | READY | DEGRADED | BLOCKED.
#[export] Instance RuntimeControlState_eq_dec : EqDecision RuntimeControlState.
Proof. solve_decision. Defined.

Inductive RuntimeDesiredState := DesiredStopped | DesiredReady.
#[export] Instance RuntimeDesiredState_eq_dec : EqDecision RuntimeDesiredState.
Proof. solve_decision. Defined.

Definition state_text (s : RuntimeControlState) : string :=
  match s with
  | UNKNOWN => "unknown" | STOPPED => "stopped" | TRANSITIONING => "transitioning"
  | READY => "ready" | DEGRADED => "degraded" | BLOCKED => "blocked"
  end.
Definition desired_text (d : RuntimeDesiredState) : string :=
  match d with DesiredStopped => "stopped" | DesiredReady => "ready" end.

Record RuntimeTransitionLease := mkLease {
  lease_instance : string; lease_owner : string; lease_fence : Z; lease_expires_at : time }.

Record RuntimeInstanceRecord := mkRecord {
  instance_id : string; profile_name : string; profile_fingerprint : string;
  desired_state : RuntimeDesiredState; state : RuntimeControlState;
  process_generation : Z; process_ready : bool; model_ready : bool; accepting : bool;
  transition_owner : option string; transition_fence : Z; transition_expires_at : time;
  observed_at : time; last_error : option string }.

#[export] Instance RuntimeInstanceRecord_eta : Replaceable RuntimeInstanceRecord := fun r =>
  mkRecord (instance_id r) (profile_name r) (profile_fingerprint r) (desired_state r) (state r)
    (process_generation r) (process_ready r) (model_ready r) (accepting r) (transition_owner r)
    (transition_fence r) (transition_expires_at r) (observed_at r) (last_error r).
#[export] Instance RuntimeTransitionLease_eta : Replaceable RuntimeTransitionLease := fun l =>
  mkLease (lease_instance l) (lease_owner l) (lease_fence l) (lease_expires_at l).
#[export] Instance RuntimeTransitionLease_eq_dec : EqDecision RuntimeTransitionLease.
Proof. solve_decision. Defined.
#[export] Instance RuntimeInstanceRecord_eq_dec : EqDecision RuntimeInstanceRecord.
Proof. solve_decision. Defined.

Abbreviation Store := (gmap string RuntimeInstanceRecord) (only parsing).

(** A record as registered or begun for the first time. *)
Definition fresh_record (id name fp : string) (now : time) : RuntimeInstanceRecord :=
  mkRecord id name fp DesiredStopped UNKNOWN 0 false false false None 0 0 now None.

Definition _desired (s : string) : result RuntimeError RuntimeDesiredState :=
  if String.eqb s "ready" then Ok DesiredReady
  else if String.eqb s "stopped" then Ok DesiredStopped
  else Err (StateError ("unsupported desired runtime state: " +:+ py_repr_str s)).

Definition _state_for_observation (observation : data) : RuntimeControlState :=
  let s := get observation "state" in
  if is_text s "ready" then READY
  else if is_text s "stopped" then STOPPED
  else if is_text s "loading" || is_text s "draining" then TRANSITIONING
  else if is_text s "faulted" then BLOCKED
  else UNKNOWN.

(** A transition somebody still owns. *)
Definition live (r : RuntimeInstanceRecord) (now : time) : bool :=
  opt_truthy (transition_owner r) && (now <? transition_expires_at r).

Definition _require_owner (r : RuntimeInstanceRecord) (l : RuntimeTransitionLease) (now : time)
    : result RuntimeError unit :=
  guard (String.eqb (lease_instance l) (instance_id r)) (StateError "lease instance does not match runtime record");;
  guard (bool_decide (transition_owner r = Some (lease_owner l)) && (transition_fence r =? lease_fence l)
         && opt_truthy (transition_owner r) && negb (transition_expires_at r <=? now))
    (RuntimeConflict "runtime transition lease is stale or expired").

Definition lease_expiry (now ttl : time) : time := now + Z.max 100000 ttl.

Definition check_profile (name : string) (profile : data) : result RuntimeError unit :=
  match validate_runtime_profile name (PDict profile) with
  | [] => Ok ()
  | errors => Err (StateError ("invalid runtime profile: " +:+ String.concat "; " errors))
  end.

Section Store.
Variable fingerprint : value -> string.

(** [register]: the record after it. *)
Definition registered (current : option RuntimeInstanceRecord) (id name : string) (profile : data) (now : time)
    : result RuntimeError RuntimeInstanceRecord :=
  check_profile name profile;;
  guard (str_truthy (py_strip id)) (StateError "instance_id must be non-empty");;
  let fp := fingerprint (PDict profile) in
  match current with
  | None => Ok (fresh_record id name fp now)
  | Some r =>
      let same := String.eqb (profile_name r) name && String.eqb (profile_fingerprint r) fp in
      guard (negb (live r now)) (RuntimeConflict "cannot replace a runtime during a live transition");;
      guard (negb (bool_decide (state r = READY) && negb same))
        (RuntimeConflict "cannot replace an admitted runtime profile");;
      Ok (r ⟪ profile_name := name ⟫ ⟪ profile_fingerprint := fp ⟫
            ⟪ state := if same then state r else UNKNOWN ⟫
            ⟪ process_ready := same && process_ready r ⟫
            ⟪ model_ready := same && model_ready r ⟫
            ⟪ accepting := same && accepting r ⟫
            ⟪ observed_at := now ⟫)
  end.

(** [begin_transition]: the record and the lease. *)
Definition begun (current : option RuntimeInstanceRecord) (id name : string) (profile : data)
    (owner desired : string) (ttl now : time)
    : result RuntimeError (RuntimeInstanceRecord * RuntimeTransitionLease) :=
  check_profile name profile;;
  guard (str_truthy (py_strip owner)) (StateError "transition owner must be non-empty");;
  d ← _desired desired;
  let fp := fingerprint (PDict profile) in
  let r := default (fresh_record id name fp now) current in
  guard (negb (live r now)) (RuntimeConflict "runtime transition already owned");;
  let fence := transition_fence r + 1 in
  let expires := lease_expiry now ttl in
  Ok (r ⟪ profile_name := name ⟫ ⟪ profile_fingerprint := fp ⟫ ⟪ desired_state := d ⟫
        ⟪ state := TRANSITIONING ⟫ ⟪ process_ready := false ⟫ ⟪ model_ready := false ⟫ ⟪ accepting := false ⟫
        ⟪ transition_owner := Some owner ⟫ ⟪ transition_fence := fence ⟫ ⟪ transition_expires_at := expires ⟫
        ⟪ last_error := None ⟫ ⟪ observed_at := now ⟫,
      mkLease id owner fence expires).

(** The record a lease speaks of, while its owner holds it. *)
Definition owned (st : Store) (l : RuntimeTransitionLease) (now : time) (missing : RuntimeError)
    : result RuntimeError RuntimeInstanceRecord :=
  match st !! lease_instance l with
  | None => Err missing
  | Some r => _require_owner r l now;; Ok r
  end.

Definition conflict_missing : RuntimeError := RuntimeConflict "runtime instance is missing".

(** [renew] *)
Definition renewed (st : Store) (l : RuntimeTransitionLease) (ttl now : time)
    : result RuntimeError (RuntimeInstanceRecord * RuntimeTransitionLease) :=
  r ← owned st l now conflict_missing;
  let expires := lease_expiry now ttl in
  Ok (r ⟪ transition_expires_at := expires ⟫ ⟪ observed_at := now ⟫, l ⟪ lease_expires_at := expires ⟫).

(** [fail_transition] *)
Definition failed (st : Store) (l : RuntimeTransitionLease) (error : string) (now : time)
    : result RuntimeError RuntimeInstanceRecord :=
  r ← owned st l now conflict_missing;
  Ok (r ⟪ state := BLOCKED ⟫ ⟪ process_ready := false ⟫ ⟪ model_ready := false ⟫ ⟪ accepting := false ⟫
        ⟪ transition_owner := None ⟫ ⟪ transition_expires_at := 0 ⟫ ⟪ observed_at := now ⟫
        ⟪ last_error := Some (py_or (str_take 1000 error) "runtime transition failed") ⟫).

Definition as_int (v : value) : Z := match v with PInt n => n | _ => 0 end.

(** An observation that ends the transition. *)
Definition settles (s : RuntimeControlState) : bool := bool_decide (s = READY) || bool_decide (s = STOPPED).

(** The generation to record: a stopped unit has none of its own. *)
Definition next_generation (r : RuntimeInstanceRecord) (observation : data) : result RuntimeError Z :=
  let n := as_int (get observation "process_generation") in
  if n <? process_generation r then
    if is_text (get observation "state") "stopped" then Ok (process_generation r)
    else Err (RuntimeConflict "runtime observation is from an older process generation")
  else Ok n.

(** [publish_observation] *)
Definition published (st : Store) (l : RuntimeTransitionLease) (profile observation : data) (now : time)
    : result RuntimeError RuntimeInstanceRecord :=
  let name := get observation "profile_name" in
  match validate_runtime_observation fingerprint (py_str name) profile observation with
  | Err t => Err (TypeError t)
  | Ok (e :: errors) => Err (StateError ("invalid runtime observation: " +:+ String.concat "; " (e :: errors)))
  | Ok [] =>
      r ← owned st l now (StateError "runtime instance is missing");
      guard (is_text name (profile_name r) && String.eqb (profile_fingerprint r) (fingerprint (PDict profile)))
        (StateError "observation profile does not match transition profile");;
      generation ← next_generation r observation;
      let s := _state_for_observation observation in
      guard (negb (bool_decide (s = READY) && negb (bool_decide (desired_state r = DesiredReady))))
        (StateError "ready observation contradicts desired stopped state");;
      let p := py_truthy (get observation "process_ready") in
      let m := py_truthy (get observation "model_ready") in
      let a := py_truthy (get observation "accepting") in
      guard (negb (bool_decide (s = READY) && negb (p && m && a))) (StateError "ready observation is not accepting");;
      Ok (r ⟪ state := s ⟫ ⟪ process_generation := generation ⟫
            ⟪ process_ready := p ⟫ ⟪ model_ready := m ⟫ ⟪ accepting := a ⟫
            ⟪ transition_owner := if settles s then None else transition_owner r ⟫
            ⟪ transition_expires_at := if settles s then 0 else transition_expires_at r ⟫
            ⟪ observed_at := now ⟫
            ⟪ last_error := if decide (s = BLOCKED) then Some "adapter reported faulted" else None ⟫)
  end.

(** [admission_errors]: none means that work may be sent to the instance. *)
Definition record_errors (r : RuntimeInstanceRecord) (name : string) (profile : data) (now : time) : list string :=
  complain (String.eqb (profile_name r) name) "runtime profile name does not match instance"
  ++ complain (String.eqb (profile_fingerprint r) (fingerprint (PDict profile)))
       "runtime profile fingerprint does not match instance"
  ++ complain (bool_decide (state r = READY)) ("runtime state is " +:+ state_text (state r))
  ++ complain (bool_decide (desired_state r = DesiredReady))
       ("runtime desired state is " +:+ desired_text (desired_state r))
  ++ complain (process_ready r) "process is not ready"
  ++ complain (model_ready r) "model is not ready"
  ++ complain (accepting r) "runtime is not accepting"
  ++ complain (1 <=? process_generation r) "process generation is unknown"
  ++ complain (negb (live r now)) "runtime transition is active".

Definition admission_errors (st : Store) (id name : string) (profile : data) (now : time) : list string :=
  let errors := validate_runtime_profile name (PDict profile) in
  match st !! id with
  | None => "runtime instance is not registered" :: errors
  | Some r => errors ++ record_errors r name profile now
  end.

Definition snapshot (st : Store) (id : string) : result RuntimeError RuntimeInstanceRecord :=
  match st !! id with
  | Some r => Ok r
  | None => Err (StateError ("unknown runtime instance " +:+ py_repr_str id))
  end.

Definition snapshots (st : Store) : list RuntimeInstanceRecord :=
  omap (fun id => st !! id) (py_sorted (map_to_list st).*1).

(** ** Histories *)

Inductive store_op :=
  | Register (id name : string) (profile : data) (now : time)
  | Begin (id name : string) (profile : data) (owner desired : string) (ttl now : time)
  | Renew (l : RuntimeTransitionLease) (ttl now : time)
  | FailTransition (l : RuntimeTransitionLease) (error : string) (now : time)
  | Publish (l : RuntimeTransitionLease) (profile observation : data) (now : time).

Inductive reply :=
  | Recorded (r : RuntimeInstanceRecord)
  | Granted (r : RuntimeInstanceRecord) (l : RuntimeTransitionLease)
  | Renewed (l : RuntimeTransitionLease)
  | Refused (e : RuntimeError).

Definition target (o : store_op) : string :=
  match o with
  | Register id _ _ _ | Begin id _ _ _ _ _ _ => id
  | Renew l _ _ | FailTransition l _ _ | Publish l _ _ _ => lease_instance l
  end.

(** What an operation answers and the record it leaves, if it succeeds. *)
Definition outcome (o : store_op) (st : Store) : result RuntimeError (RuntimeInstanceRecord * reply) :=
  match o with
  | Register id name profile now => (fun r => (r, Recorded r)) <$> registered (st !! id) id name profile now
  | Begin id name profile owner desired ttl now =>
      (fun '(r, l) => (r, Granted r l)) <$> begun (st !! id) id name profile owner desired ttl now
  | Renew l ttl now => (fun '(r, l') => (r, Renewed l')) <$> renewed st l ttl now
  | FailTransition l error now => (fun r => (r, Recorded r)) <$> failed st l error now
  | Publish l profile observation now => (fun r => (r, Recorded r)) <$> published st l profile observation now
  end.

Definition do_op (o : store_op) (st : Store) : reply * Store :=
  match outcome o st with
  | Ok (r, a) => (a, <[target o := r]> st)
  | Err e => (Refused e, st)
  end.

(** The store after a history, and its operations with their answers. *)
Definition run (ops : list store_op) (st : Store) : Store := fold_left (fun st o => (do_op o st).2) ops st.

Fixpoint history (ops : list store_op) (st : Store) : list (store_op * reply) :=
  match ops with
  | [] => []
  | o :: ops' => (o, (do_op o st).1) :: history ops' (do_op o st).2
  end.

End Store.
