(* ===== verification/RuntimeFence.v ===== *)
(** * RuntimeFence: what the fenced records promise

    Over any history of the store of [RuntimeState]: fences and process
    generations only grow, a superseded lease is dead, and an instance that
    admits work has earned it by evidence published under its last lease. *)

From S2P Require Import Prelude PyValue PyText RuntimeContracts RuntimeState.

Section Fence.
Variable fingerprint : value -> string.
Abbreviation do_op := (do_op fingerprint).
Abbreviation outcome := (outcome fingerprint).
Abbreviation run := (run fingerprint).
Abbreviation history := (history fingerprint).

Definition fence_of (st : Store) (id : string) : Z := default 0 (transition_fence <$> st !! id).
Definition generation_of (st : Store) (id : string) : Z := default 0 (process_generation <$> st !! id).

(** The lease an operation carries. *)
Definition lease_of (o : store_op) : option RuntimeTransitionLease :=
  match o with Renew l _ _ | FailTransition l _ _ | Publish l _ _ _ => Some l | _ => None end.

Lemma owned_ok st l now missing r : owned st l now missing = Ok r ->
  st !! lease_instance l = Some r /\ transition_owner r = Some (lease_owner l) /\
  transition_fence r = lease_fence l /\ instance_id r = lease_instance l.
Proof.
  unfold owned. destruct (st !! lease_instance l) as [r0|]; [|done]. unfold _require_owner. intros H. inv_ok.
  bool_prop. split_and!; [done|done|done|]. by apply eq_sym, String.eqb_eq.
Qed.

Lemma generation_ok r obs n : next_generation r obs = Ok n -> process_generation r <= n.
Proof.
  unfold next_generation. destruct (_ <? _) eqn:H; [destruct (is_text _ _)|]; intros; simplify_eq; bool_prop; lia.
Qed.

(** An operation that carries a lease succeeds only for the holder. *)
Lemma leased_holder o l st r a : lease_of o = Some l -> outcome o st = Ok (r, a) ->
  exists r0, st !! lease_instance l = Some r0 /\ transition_owner r0 = Some (lease_owner l) /\
    transition_fence r0 = lease_fence l /\ transition_fence r = lease_fence l /\
    process_generation r0 <= process_generation r /\ desired_state r = desired_state r0 /\ target o = lease_instance l.
Proof.
  destruct o as [| |l' ttl now|l' error now|l' profile obs now]; intros [= ->]; cbn -[renewed failed published];
    intros H.
  - destruct (renewed _ _ _ _) as [[r1 l1]|] eqn:Hr; [|done]. cbn in H. simplify_eq. unfold renewed in Hr. inv_ok.
    simplify_eq. apply owned_ok in Heqr0 as (H1 & H2 & H3 & _). eexists. split_and!; [done..|cbn; lia|done|done].
  - destruct (failed _ _ _ _) as [r1|] eqn:Hr; [|done]. cbn in H. simplify_eq. unfold failed in Hr. inv_ok.
    apply owned_ok in Heqr0 as (H1 & H2 & H3 & _). eexists. split_and!; [done..|cbn; lia|done|done].
  - destruct (published _ _ _ _ _ _) as [r1|] eqn:Hr; [|done]. cbn in H. simplify_eq. unfold published in Hr.
    destruct (validate_runtime_observation _ _ _ _) as [[|]|]; [|done..]. inv_ok.
    apply owned_ok in Heqr0 as (H1 & H2 & H3 & _). eexists. split_and!; [done..| |done|done]. cbn.
    match goal with H : next_generation _ _ = Ok _ |- _ => apply generation_ok in H end. lia.
Qed.

Lemma begun_ok current id name profile owner desired ttl now r l :
  begun fingerprint current id name profile owner desired ttl now = Ok (r, l) ->
  transition_fence r = default 0 (transition_fence <$> current) + 1 /\
  lease_fence l = transition_fence r /\ lease_instance l = id /\ lease_owner l = owner /\
  transition_owner r = Some owner /\ state r = TRANSITIONING /\ _desired desired = Ok (desired_state r) /\
  process_generation r = default 0 (process_generation <$> current).
Proof. unfold begun. intros H. inv_ok. simplify_eq. by destruct current. Qed.

Lemma registered_ok current id name profile now r :
  registered fingerprint current id name profile now = Ok r ->
  transition_fence r = default 0 (transition_fence <$> current) /\
  process_generation r = default 0 (process_generation <$> current) /\
  (forall r0, current = Some r0 -> transition_owner r = transition_owner r0 /\ desired_state r = desired_state r0) /\
  (current = None -> transition_owner r = None) /\
  (state r = READY -> exists r0, current = Some r0 /\
     r = r0 ⟪ observed_at := now ⟫).
Proof.
  unfold registered. intros H. inv_ok. destruct current as [r0|]; [|simplify_eq; split_and!; naive_solver].
  inv_ok. split_and!; [done|done|intros r1 [= ->]; done|done|]. cbn. intros Hs. exists r0. split; [done|].
  destruct (String.eqb (profile_name r0) name && _) eqn:Hsame; [|done].
  apply andb_true_iff in Hsame as [Hn Hf]. apply String.eqb_eq in Hn, Hf.
  rewrite <- Hn, <- Hf. done.
Qed.

Lemma outcome_grows o st r a : outcome o st = Ok (r, a) ->
  fence_of st (target o) <= transition_fence r /\ generation_of st (target o) <= process_generation r.
Proof.
  intros H. destruct (lease_of o) as [l|] eqn:Hl.
  - destruct (leased_holder _ _ _ _ _ Hl H) as (r0 & Hr0 & _ & Hf & Hf' & Hg & _ & Ht). rewrite Ht.
    unfold fence_of, generation_of. rewrite Hr0. cbn. lia.
  - destruct o as [id name profile now|id name profile owner desired ttl now| | |]; try done; cbn in *.
    + destruct (registered _ _ _ _ _ _) as [r1|] eqn:Hr; [|done]. cbn in H. simplify_eq.
      apply registered_ok in Hr as (Hf & Hg & _). unfold fence_of, generation_of. by rewrite Hf, Hg.
    + destruct (begun _ _ _ _ _ _ _ _ _) as [[r1 l1]|] eqn:Hr; [|done]. cbn in H. simplify_eq.
      apply begun_ok in Hr as (Hf & _ & _ & _ & _ & _ & _ & Hg). unfold fence_of, generation_of. rewrite Hf, Hg. lia.
Qed.

Lemma do_op_grows o st id :
  fence_of st id <= fence_of (do_op o st).2 id /\ generation_of st id <= generation_of (do_op o st).2 id.
Proof.
  unfold RuntimeState.do_op. destruct (outcome o st) as [[r a]|] eqn:Ho; cbn; [|lia].
  destruct (decide (target o = id)) as [<-|Hne].
  - unfold fence_of at 2, generation_of at 2. rewrite lookup_insert_eq. cbn. by apply outcome_grows in Ho.
  - unfold fence_of, generation_of. rewrite lookup_insert_ne by done. lia.
Qed.

(** C0. Fences and process generations never decrease: whatever the adapters
    report and whoever begins, renews or fails a transition, in every history
    the fence of each instance and the generation of its process only grow. *)
Theorem fences_and_generations_grow ops st id :
  fence_of st id <= fence_of (run ops st) id /\ generation_of st id <= generation_of (run ops st) id.
Proof.
  revert st. induction ops as [|o ops IH]; intros st; [cbn; lia|].
  destruct (do_op_grows o st id), (IH (do_op o st).2).
  change (run (o :: ops) st) with (run ops (do_op o st).2). split; lia.
Qed.

Lemma run_app ops ops' st : run (ops ++ ops') st = run ops' (run ops st).
Proof. apply fold_left_app. Qed.

(** C20. A superseded lease is dead: once a later begin on the same instance
    was granted, the earlier lease can never renew, fail or publish again, and
    trying to changes nothing, over any operations in between and after. *)
Theorem runtime_fencing id n1 p1 w1 d1 ttl1 t1 n2 p2 w2 d2 ttl2 t2 st between later r1 l1 r2 l2 o l :
  let st1 := (do_op (Begin id n1 p1 w1 d1 ttl1 t1) st).2 in
  (do_op (Begin id n1 p1 w1 d1 ttl1 t1) st).1 = Granted r1 l1 ->
  let st2 := run between st1 in
  (do_op (Begin id n2 p2 w2 d2 ttl2 t2) st2).1 = Granted r2 l2 ->
  let st3 := run later (do_op (Begin id n2 p2 w2 d2 ttl2 t2) st2).2 in
  lease_of o = Some l -> lease_instance l = id -> lease_fence l = lease_fence l1 ->
  exists e, do_op o st3 = (Refused e, st3).
Proof.
  intros st1 H1 st2 H2 st3 Hl Hi Hf.
  assert (fence_of st1 id = lease_fence l1) as Hf1.
  { subst st1. revert H1. unfold RuntimeState.do_op. cbn -[begun]. destruct (begun _ _ _ _ _ _ _ _ _) as [[r l0]|] eqn:Hb; [|done].
    cbn. intros [= -> ->]. apply begun_ok in Hb as (_ & -> & _). unfold fence_of. by rewrite lookup_insert_eq. }
  assert (lease_fence l1 < fence_of st3 id) as Hlt.
  { destruct (fences_and_generations_grow later (do_op (Begin id n2 p2 w2 d2 ttl2 t2) st2).2 id) as [Hge _]. fold st3 in Hge.
    destruct (fences_and_generations_grow between st1 id) as [Hge' _]. fold st2 in Hge'.
    assert (fence_of (do_op (Begin id n2 p2 w2 d2 ttl2 t2) st2).2 id = fence_of st2 id + 1) as Heq; [|lia].
    revert H2. unfold RuntimeState.do_op. cbn -[begun]. destruct (begun _ _ _ _ _ _ _ _ _) as [[r l0]|] eqn:Hb; [|done].
    intros _. cbn. apply begun_ok in Hb as (Hb & _). unfold fence_of at 1. rewrite lookup_insert_eq. apply Hb. }
  unfold RuntimeState.do_op. destruct (outcome o st3) as [[r a]|e] eqn:Ho; [|by exists e]. exfalso.
  destruct (leased_holder _ _ _ _ _ Hl Ho) as (r0 & Hr0 & _ & Hf0 & _). rewrite Hi in Hr0.
  unfold fence_of in Hlt. rewrite Hr0 in Hlt. cbn in Hlt. lia.
Qed.

(** ** Admission *)

(** An answered operation that begins a transition of [id], and one that
    reports on it. *)
Definition is_grant (id : string) (e : store_op * reply) : bool :=
  match e with (Begin id' _ _ _ _ _ _, Granted _ _) => String.eqb id' id | _ => false end.
Definition is_report (id : string) (e : store_op * reply) : bool :=
  match e with
  | (Publish l _ _ _, Recorded _) | (FailTransition l _ _, Recorded _) => String.eqb (lease_instance l) id
  | _ => false
  end.

Definition last_that (f : store_op * reply -> bool) (h : list (store_op * reply)) : option (store_op * reply) :=
  last (List.filter f h).

(** The last transition of [id] was begun by [owner] with this fence. *)
Definition begun_last (id : string) (h : list (store_op * reply)) (owner : string) (fence : Z) (d : RuntimeDesiredState)
    : Prop :=
  exists name profile desired ttl now r l,
    last_that (is_grant id) h = Some (Begin id name profile owner desired ttl now, Granted r l) /\
    lease_fence l = fence /\ _desired desired = Ok d.

(** Full evidence that the runtime of this profile is there. *)
Definition ready_evidence (obs : data) (name fp : string) (generation : Z) : Prop :=
  get obs "state" = PStr "ready" /\ get obs "profile_name" = PStr name /\ get obs "profile_fingerprint" = PStr fp /\
  get obs "process_generation" = PInt generation /\ 1 <= generation /\ get obs "process_ready" = PBool true /\
  get obs "model_ready" = PBool true /\ get obs "accepting" = PBool true.

(** The last word on [id] since its transition began is such evidence, by the
    holder of that transition. *)
Definition earned (id : string) (h : list (store_op * reply)) (name fp : string) (generation : Z) : Prop :=
  exists l profile obs now r,
    last_that (fun e => is_grant id e || is_report id e) h = Some (Publish l profile obs now, Recorded r) /\
    lease_instance l = id /\ begun_last id h (lease_owner l) (lease_fence l) DesiredReady /\
    ready_evidence obs name fp generation.

(** An operation grants the instance to somebody, or leaves its fence. *)
Lemma do_op_fence o st id :
  (is_grant id (o, (do_op o st).1) = false /\ fence_of (do_op o st).2 id = fence_of st id) \/
  fence_of st id < fence_of (do_op o st).2 id.
Proof.
  unfold RuntimeState.do_op. destruct (outcome o st) as [[r a]|] eqn:Ho; [|left; split; [by destruct o|done]].
  cbn [fst snd]. destruct (decide (target o = id)) as [<-|Hne].
  - unfold fence_of. rewrite lookup_insert_eq. cbn. fold (fence_of st (target o)).
    destruct (lease_of o) as [l|] eqn:Hl.
    + left. destruct (leased_holder _ _ _ _ _ Hl Ho) as (r0 & Hr0 & _ & Hf & Hf' & _ & _ & Ht).
      split; [by destruct o|]. unfold fence_of. rewrite Ht, Hr0. cbn. lia.
    + destruct o as [id name profile now|id name profile owner desired ttl now| | |]; try done; cbn in *.
      * left. split; [done|]. destruct (registered _ _ _ _ _ _) as [r1|] eqn:Hr; [|done]. cbn in Ho. simplify_eq.
        apply registered_ok in Hr as (Hf & _). by rewrite Hf.
      * right. destruct (begun _ _ _ _ _ _ _ _ _) as [[r1 l1]|] eqn:Hr; [|done]. cbn in Ho. simplify_eq.
        apply begun_ok in Hr as (Hf & _). rewrite Hf. unfold fence_of. lia.
  - left. split; [|unfold fence_of; by rewrite lookup_insert_ne].
    destruct o; try done. cbn in *. destruct a; try done. by apply String.eqb_neq.
Qed.

(** What the records say about the history. *)
Definition explained (h : list (store_op * reply)) (id : string) (r : RuntimeInstanceRecord) : Prop :=
  (forall owner, transition_owner r = Some owner -> begun_last id h owner (transition_fence r) (desired_state r)) /\
  (state r = READY -> earned id h (profile_name r) (profile_fingerprint r) (process_generation r)).

Lemma last_that_snoc f h e : last_that f (h ++ [e]) = if f e then Some e else last_that f h.
Proof.
  unfold last_that. rewrite List.filter_app. cbn. destruct (f e); [by rewrite last_snoc|by rewrite app_nil_r].
Qed.

Lemma history_snoc ops o st : history (ops ++ [o]) st = history ops st ++ [(o, (do_op o (run ops st)).1)].
Proof. revert st. induction ops as [|o' ops IH]; intros st; [done|]. cbn. f_equal. apply IH. Qed.

Lemma begun_last_skip id h e owner f d : is_grant id e = false ->
  begun_last id h owner f d -> begun_last id (h ++ [e]) owner f d.
Proof. unfold begun_last. rewrite last_that_snoc. by intros ->. Qed.

Lemma explained_skip h e id r : is_grant id e = false -> is_report id e = false ->
  explained h id r -> explained (h ++ [e]) id r.
Proof.
  intros Hg Hr [H1 H2]. split.
  - intros w Hw. by apply begun_last_skip, H1.
  - intros Hs. destruct (H2 Hs) as (l & p & obs & now & r' & Hl & Hi & Hb & He). exists l, p, obs, now, r'.
    rewrite last_that_snoc, Hg, Hr. split_and!; [done|done|by apply begun_last_skip|done].
Qed.

Lemma desired_ok s : _desired s = Ok DesiredReady -> s = "ready".
Proof. unfold _desired. repeat case_match; try done. intros _. by apply String.eqb_eq. Qed.

Lemma published_ok st l profile obs now r : published fingerprint st l profile obs now = Ok r ->
  exists r0, st !! lease_instance l = Some r0 /\ transition_owner r0 = Some (lease_owner l) /\
    transition_fence r0 = lease_fence l /\ transition_fence r = transition_fence r0 /\
    desired_state r = desired_state r0 /\
    (transition_owner r = None \/ transition_owner r = transition_owner r0) /\
    (state r = READY -> desired_state r0 = DesiredReady /\
       ready_evidence obs (profile_name r) (profile_fingerprint r) (process_generation r)).
Proof.
  unfold published. destruct (validate_runtime_observation _ _ _ _) as [[|]|] eqn:Hv; [|done..].
  intros H. inv_ok. apply owned_ok in Heqr0 as (H1 & H2 & H3 & H4). eexists. split_and!; [done..| |].
  - cbn. destruct (settles _); auto.
  - cbn. intros Hs. rewrite Hs in *. rewrite bool_decide_true in * by done. cbn in *. bool_prop.
    apply observation_accepted in Hv as (_ & Hn & Hf & (n & Hg & Hge) & (p & m & acc & Hp & Hm & Ha & _)).
    assert (get obs "state" = PStr "ready") as Hst.
    { unfold _state_for_observation in Hs. destruct (is_text (get obs "state") "ready") eqn:Ht.
      - destruct (get obs "state"); try done. cbn in Ht. by apply String.eqb_eq in Ht as ->.
      - repeat case_match; done. }
    split; [done|]. unfold ready_evidence. rewrite Hp, Hm, Ha in *. cbn in *.
    match goal with H : next_generation _ _ = Ok _ |- _ =>
      unfold next_generation in H; rewrite Hg, Hst in H; cbn in H; destruct (n <? _); [done|]; simplify_eq/= end.
    match goal with H : is_text _ _ = true |- _ => rewrite Hn in H; cbn in H; apply String.eqb_eq in H end.
    match goal with H : String.eqb (profile_fingerprint _) _ = true |- _ => apply String.eqb_eq in H end.
    split_and!; congruence.
Qed.

Lemma begun_last_snoc id h name profile owner desired ttl now r l d :
  lease_fence l = transition_fence r -> _desired desired = Ok d ->
  begun_last id (h ++ [(Begin id name profile owner desired ttl now, Granted r l)]) owner (transition_fence r) d.
Proof.
  intros Hf Hd. exists name, profile, desired, ttl, now, r, l. rewrite last_that_snoc. cbn. by rewrite String.eqb_refl.
Qed.

Lemma report_explained h o id r0 r : explained h id r0 ->
  is_grant id (o, Recorded r) = false -> transition_fence r = transition_fence r0 -> desired_state r = desired_state r0 ->
  (transition_owner r = None \/ transition_owner r = transition_owner r0) ->
  (state r = READY -> earned id (h ++ [(o, Recorded r)]) (profile_name r) (profile_fingerprint r) (process_generation r)) ->
  explained (h ++ [(o, Recorded r)]) id r.
Proof.
  intros [H1 _] Hg Hf Hd Ho Hs. split; [|done]. intros w Hw. destruct Ho as [Ho|Ho]; [congruence|].
  apply begun_last_skip; [done|]. rewrite Hf, Hd. apply H1. congruence.
Qed.

Lemma step_explained h st o r a id : (forall id r0, st !! id = Some r0 -> explained h id r0) ->
  outcome o st = Ok (r, a) -> target o = id -> explained (h ++ [(o, a)]) id r.
Proof.
  intros IH H <-. destruct o as [id name profile now|id name profile owner desired ttl now|l ttl now|l error now|l profile obs now];
    cbn -[registered begun renewed failed published] in H; cbn [target].
  - destruct (registered _ _ _ _ _ _) as [r1|] eqn:Hr; [|done]. cbn in H. simplify_eq.
    apply registered_ok in Hr as (Hf & _ & Hsome & Hnone & Hready). destruct (st !! id) as [r0|] eqn:Hr0.
    + destruct (Hsome r0 eq_refl) as [Ho Hd], (IH _ _ Hr0) as [H1 H2]. apply explained_skip; [done|done|]. split.
      * intros w Hw. rewrite Hf, Hd. cbn. apply H1. congruence.
      * intros Hs. destruct (Hready Hs) as (r1 & [= <-] & ->). by apply H2.
    + split; [intros w Hw; rewrite Hnone in Hw by done; done|]. intros Hs. by destruct (Hready Hs) as (r1 & ? & _).
  - destruct (begun _ _ _ _ _ _ _ _ _) as [[r1 l1]|] eqn:Hr; [|done]. cbn in H. simplify_eq.
    apply begun_ok in Hr as (_ & Hl & _ & _ & Ho & Hs & Hd & _). split; [|by rewrite Hs].
    rewrite Ho. intros w [= <-]. by apply begun_last_snoc.
  - destruct (renewed _ _ _ _) as [[r1 l1]|] eqn:Hr; [|done]. cbn in H. simplify_eq. unfold renewed in Hr. inv_ok.
    simplify_eq. match goal with H : owned _ _ _ _ = Ok _ |- _ => apply owned_ok in H as (Hr0 & _) end.
    apply explained_skip; [done|done|]. by apply (IH _ _ Hr0).
  - destruct (failed _ _ _ _) as [r1|] eqn:Hr; [|done]. cbn in H. simplify_eq. unfold failed in Hr. inv_ok.
    match goal with H : owned _ _ _ _ = Ok _ |- _ => apply owned_ok in H as (Hr0 & _) end.
    eapply report_explained; [by apply (IH _ _ Hr0)|done|done|done|by left|done].
  - destruct (published _ _ _ _ _ _) as [r1|] eqn:Hr; [|done]. cbn in H. simplify_eq.
    apply published_ok in Hr as (r0 & Hr0 & Ho & Hlf & Hf & Hd & Hor & Hs).
    destruct (IH _ _ Hr0) as [H1 _]. eapply report_explained; [by apply (IH _ _ Hr0)|done..|].
    intros Hready. destruct (Hs Hready) as [Hdr He]. exists l, profile, obs, now, r. rewrite last_that_snoc. cbn.
    rewrite String.eqb_refl. split_and!; [done|done| |done]. apply begun_last_skip; [done|].
    rewrite <- Hlf, <- Hdr. by apply H1.
Qed.

Lemma run_explained ops id r : run ops ∅ !! id = Some r -> explained (history ops ∅) id r.
Proof.
  revert id r. induction ops as [|o ops IH] using rev_ind; intros id r; [cbn; by rewrite lookup_empty|].
  rewrite history_snoc, run_app. cbn -[RuntimeState.do_op]. unfold RuntimeState.do_op.
  destruct (outcome o (run ops ∅)) as [[r' a]|e] eqn:Ho; cbn.
  - destruct (decide (target o = id)) as [Ht|Hne].
    + rewrite Ht, lookup_insert_eq. intros [= <-]. by eapply step_explained.
    + rewrite lookup_insert_ne by done. intros Hr. apply explained_skip; [| |by apply IH].
      * destruct o; try done. cbn. destruct a; try done. by apply String.eqb_neq.
      * destruct o; try done; cbn; destruct a; try done; by apply String.eqb_neq.
  - intros Hr. apply explained_skip; [by destruct o|by destruct o|by apply IH].
Qed.

(** C18. Admission is earned: whenever an instance admits work for a profile,
    its last transition was begun for readiness, the last report on it since
    is full evidence of that very profile, its process and its model, published
    by the holder of that transition, and no transition is in progress. *)
Theorem admission_is_earned ops id name profile now :
  admission_errors fingerprint (run ops ∅) id name profile now = [] ->
  exists r : RuntimeInstanceRecord, run ops ∅ !! id = Some r /\
    earned id (history ops ∅) name (fingerprint (PDict profile)) (process_generation r) /\ live r now = false.
Proof.
  unfold admission_errors. destruct (run ops ∅ !! id) as [r|] eqn:Hr; [|done].
  intros [_ H]%app_nil. unfold record_errors in H. rewrite !app_nil, !complain_nil in H.
  destruct H as (Hn & Hf & Hs & _ & _ & _ & _ & _ & Hl). bool_prop. apply String.eqb_eq in Hn, Hf.
  exists r. split_and!; [done| |done]. destruct (run_explained _ _ _ Hr) as [_ H2]. specialize (H2 Hs). by rewrite Hn, Hf in H2.
Qed.

End Fence.
