(* ===== verification/RuntimeFile.v ===== *)
(** * RuntimeFile: runtime records that survive a restart

    Models [FileRuntimeStateStore] of [scripts/runtime_state.py].  The file is
    its parsed JSON document (or absent); a write of it succeeds, fails before
    the new file is in place, or fails after.  A document whose fields have
    other types than a record's, which Python would take as they are, is
    outside the model and refused. *)

From S2P Require Import Prelude PyValue PyText RuntimeContracts RuntimeState RuntimeFence.

Definition SCHEMA_VERSION : string := "runtime-state-store.v1".

Definition record_fields : list string :=
  ["instance_id"; "profile_name"; "profile_fingerprint"; "desired_state"; "state"; "process_generation";
   "process_ready"; "model_ready"; "accepting"; "transition_owner"; "transition_fence"; "transition_expires_at";
   "observed_at"; "last_error"].

Definition opt_text (o : option string) : value := match o with Some s => PStr s | None => PNone end.

(** [asdict(record)] *)
Definition asdict (r : RuntimeInstanceRecord) : data :=
  [("instance_id", PStr (instance_id r)); ("profile_name", PStr (profile_name r));
   ("profile_fingerprint", PStr (profile_fingerprint r)); ("desired_state", PStr (desired_text (desired_state r)));
   ("state", PStr (state_text (state r))); ("process_generation", PInt (process_generation r));
   ("process_ready", PBool (process_ready r)); ("model_ready", PBool (model_ready r));
   ("accepting", PBool (accepting r)); ("transition_owner", opt_text (transition_owner r));
   ("transition_fence", PInt (transition_fence r)); ("transition_expires_at", PFloat (transition_expires_at r));
   ("observed_at", PFloat (observed_at r)); ("last_error", opt_text (last_error r))].

(** The records in the order of their ids. *)
Definition sorted_items (st : Store) : list (string * RuntimeInstanceRecord) :=
  omap (fun id => pair id <$> st !! id) (py_sorted (map_to_list st).*1).

Definition document (st : Store) : value :=
  PDict [("schema_version", PStr SCHEMA_VERSION);
         ("records", PDict ((fun i => (i.1, PDict (asdict i.2))) <$> sorted_items st))].

(** ** Reading *)

Definition same_set (a b : list string) : bool :=
  forallb (fun k => bool_decide (k ∈ b)) a && forallb (fun k => bool_decide (k ∈ a)) b.

Definition text_of (v : value) : result string string :=
  match v with PStr s => Ok s | _ => Err "a field that is not a text" end.
Definition opt_of (v : value) : result string (option string) :=
  match v with PNone => Ok None | PStr s => Ok (Some s) | _ => Err "a field that is not a text or null" end.
Definition int_of (v : value) : result string Z :=
  match v with PInt n => Ok n | _ => Err "a field that is not an integer" end.
Definition bool_of (v : value) : result string bool :=
  match v with PBool b => Ok b | _ => Err "a field that is not a boolean" end.
Definition time_of (v : value) : result string time :=
  match v with PFloat t => Ok t | PInt n => Ok (seconds n) | _ => Err "a field that is not a time" end.

Definition desired_of (v : value) : result string RuntimeDesiredState :=
  match v with
  | PStr "stopped" => Ok DesiredStopped
  | PStr "ready" => Ok DesiredReady
  | _ => Err (py_repr v +:+ " is not a valid RuntimeDesiredState")
  end.

Definition state_of (v : value) : result string RuntimeControlState :=
  match v with
  | PStr "unknown" => Ok UNKNOWN
  | PStr "stopped" => Ok STOPPED
  | PStr "transitioning" => Ok TRANSITIONING
  | PStr "ready" => Ok READY
  | PStr "degraded" => Ok DEGRADED
  | PStr "blocked" => Ok BLOCKED
  | _ => Err (py_repr v +:+ " is not a valid RuntimeControlState")
  end.

Definition record_of (id : string) (raw : value) : result string RuntimeInstanceRecord :=
  match raw with
  | PDict d =>
      guard (same_set d.*1 record_fields) ("invalid record shape for " +:+ py_repr_str id);;
      desired ← desired_of (get d "desired_state");
      state ← state_of (get d "state");
      rid ← text_of (get d "instance_id");
      name ← text_of (get d "profile_name");
      fp ← text_of (get d "profile_fingerprint");
      generation ← int_of (get d "process_generation");
      p ← bool_of (get d "process_ready");
      m ← bool_of (get d "model_ready");
      a ← bool_of (get d "accepting");
      owner ← opt_of (get d "transition_owner");
      fence ← int_of (get d "transition_fence");
      expires ← time_of (get d "transition_expires_at");
      observed ← time_of (get d "observed_at");
      error ← opt_of (get d "last_error");
      guard (String.eqb rid id && negb (fence <? 0)) ("invalid record identity for " +:+ py_repr_str id);;
      Ok (mkRecord rid name fp desired state generation p m a owner fence expires observed error)
  | _ => Err ("invalid record shape for " +:+ py_repr_str id)
  end.

Fixpoint load_records (items : data) (acc : Store) : result string Store :=
  match items with
  | [] => Ok acc
  | (id, raw) :: items' => r ← record_of id raw; load_records items' (<[id := r]> acc)
  end.

(** [_load]: [None] is a path that does not exist. *)
Definition load (file : option value) : result string Store :=
  match file with
  | None => Ok ∅
  | Some (PDict d) =>
      if is_text (get d "schema_version") SCHEMA_VERSION then
        match get d "records" with PDict items => load_records items ∅ | _ => Err "records must be an object" end
      else Err "unsupported schema version"
  | Some _ => Err "state document must be an object"
  end.

(** ** The store *)

Record FileStore := mkFileStore { memory : Store; file : option value }.

(** How a write ends: in place, not in place, or in place and reported as
    failed ([fsync] of the directory). *)
Inductive Write := Written | Unwritten | Unsynced.

Definition after_write (w : Write) (st : Store) (old : option value) : option value :=
  match w with Unwritten => old | _ => Some (document st) end.

Section File.
Variable fingerprint : value -> string.

(** A method: the operation of the base class, then [_persist].  [None] is the
    [OSError] of a failed write, which leaves the operation done in memory. *)
Definition file_op (o : store_op) (w : Write) (s : FileStore) : option reply * FileStore :=
  match do_op fingerprint o (memory s) with
  | (Refused e, _) => (Some (Refused e), s)
  | (a, st) => (match w with Written => Some a | _ => None end, mkFileStore st (after_write w st (file s)))
  end.

(** What the controller process does; a restart that cannot read the file
    raises, and leaves no store. *)
Inductive file_act := FileOp (o : store_op) (w : Write) | Restart.

Definition file_step (a : file_act) (s : FileStore) : option (store_op * reply) * FileStore :=
  match a with
  | FileOp o w => let '(r, s') := file_op o w s in (pair o <$> r, s')
  | Restart => match load (file s) with Ok st => (None, mkFileStore st (file s)) | Err _ => (None, s) end
  end.

Definition file_run (acts : list file_act) (s : FileStore) : FileStore :=
  fold_left (fun s a => (file_step a s).2) acts s.

(** The answers the callers got, with their operations. *)
Fixpoint answers (acts : list file_act) (s : FileStore) : list (store_op * reply) :=
  match acts with
  | [] => []
  | a :: acts' => option_list (file_step a s).1 ++ answers acts' (file_step a s).2
  end.

Definition granted_fence (id : string) (e : store_op * reply) : option Z :=
  if is_grant id e then match e.2 with Granted _ l => Some (lease_fence l) | _ => None end else None.

(** ** What survives *)

Definition wf_store (st : Store) : Prop :=
  forall id r, st !! id = Some r -> instance_id r = id /\ 0 <= transition_fence r.

Lemma outcome_wf o st r a : wf_store st -> outcome fingerprint o st = Ok (r, a) ->
  instance_id r = target o /\ 0 <= transition_fence r.
Proof.
  intros Hwf H. pose proof (outcome_grows fingerprint o st r a H) as [Hge _].
  assert (0 <= fence_of st (target o)) as H0.
  { unfold fence_of. destruct (st !! target o) as [r0|] eqn:Hr; cbn; [|lia]. by apply (Hwf _ _ Hr). }
  split; [|lia]. destruct o as [id name profile now|id name profile owner desired ttl now|l ttl now|l error now|l profile obs now];
    cbn -[registered begun renewed failed published] in H; cbn [target].
  - destruct (registered _ _ _ _ _ _) as [r1|] eqn:Hr; [|done]. cbn in H. simplify_eq. unfold registered in Hr. inv_ok.
    destruct (st !! id) as [r0|] eqn:Hr0; inv_ok; [|done]. by apply (Hwf _ _ Hr0).
  - destruct (begun _ _ _ _ _ _ _ _ _) as [[r1 l1]|] eqn:Hr; [|done]. cbn in H. simplify_eq. unfold begun in Hr. inv_ok.
    simplify_eq. cbn. destruct (st !! id) as [r0|] eqn:Hr0; [|done]. by apply (Hwf _ _ Hr0).
  - destruct (renewed _ _ _ _) as [[r1 l1]|] eqn:Hr; [|done]. cbn in H. simplify_eq. unfold renewed in Hr. inv_ok.
    simplify_eq. match goal with H : owned _ _ _ _ = Ok _ |- _ => by apply owned_ok in H as (_ & _ & _ & ?) end.
  - destruct (failed _ _ _ _) as [r1|] eqn:Hr; [|done]. cbn in H. simplify_eq. unfold failed in Hr. inv_ok.
    match goal with H : owned _ _ _ _ = Ok _ |- _ => by apply owned_ok in H as (_ & _ & _ & ?) end.
  - destruct (published _ _ _ _ _ _) as [r1|] eqn:Hr; [|done]. cbn in H. simplify_eq. unfold published in Hr.
    destruct (validate_runtime_observation _ _ _ _) as [[|]|]; [|done..]. inv_ok.
    match goal with H : owned _ _ _ _ = Ok _ |- _ => by apply owned_ok in H as (_ & _ & _ & ?) end.
Qed.

Lemma do_op_wf o st : wf_store st -> wf_store (do_op fingerprint o st).2.
Proof.
  intros Hwf. unfold do_op. destruct (outcome fingerprint o st) as [[r a]|] eqn:Ho; [|done]. cbn.
  intros id r'. destruct (decide (target o = id)) as [<-|Hne].
  - rewrite lookup_insert_eq. intros [= <-]. by eapply outcome_wf.
  - rewrite lookup_insert_ne by done. apply Hwf.
Qed.

Lemma record_of_asdict r : 0 <= transition_fence r -> record_of (instance_id r) (PDict (asdict r)) = Ok r.
Proof.
  intros Hf. destruct r as [id name fp d s n p m a o f e obs err]. cbn in Hf. unfold record_of.
  assert (same_set (asdict (mkRecord id name fp d s n p m a o f e obs err)).*1 record_fields = true) as -> by done.
  assert ((f <? 0) = false) as Hlt by lia.
  destruct d, s, o, err; cbn -[Z.ltb]; by rewrite String.eqb_refl, Hlt.
Qed.

Definition insert_all (items : list (string * RuntimeInstanceRecord)) (acc : Store) : Store :=
  fold_left (fun m i => <[i.1 := i.2]> m) items acc.

Lemma load_records_ok items acc :
  Forall (fun i => instance_id i.2 = i.1 /\ 0 <= transition_fence i.2) items ->
  load_records ((fun i => (i.1, PDict (asdict i.2))) <$> items) acc = Ok (insert_all items acc).
Proof.
  intros H. revert acc. induction H as [|[id r] items [Hid Hf] _ IH]; intros acc; [done|]. cbn [fmap list_fmap fst snd] in *.
  change (load_records _ acc) with
    (r' ← record_of id (PDict (asdict r)); load_records ((fun i => (i.1, PDict (asdict i.2))) <$> items) (<[id := r']> acc)).
  rewrite <- Hid, record_of_asdict by done. apply IH.
Qed.

Lemma insert_all_lookup (st : Store) items acc k : Forall (fun i => st !! i.1 = Some i.2) items ->
  insert_all items acc !! k = if decide (k ∈ items.*1) then st !! k else acc !! k.
Proof.
  intros H. revert acc. induction H as [|[id r] items Hid _ IH]; intros acc; [done|]. cbn in *. rewrite IH.
  destruct (decide (id = k)) as [->|Hne].
  - rewrite lookup_insert_eq, Hid. repeat case_decide; set_solver.
  - rewrite lookup_insert_ne by done. repeat case_decide; set_solver.
Qed.

Lemma elem_of_sorted_items st i : i ∈ sorted_items st <-> st !! i.1 = Some i.2.
Proof.
  unfold sorted_items. rewrite list_elem_of_omap. destruct i as [id r]. cbn. split.
  - intros (id' & _ & Hid). destruct (st !! id') eqn:Hr; [|done]. cbn in Hid. by simplify_eq.
  - intros Hr. exists id. split; [|by rewrite Hr]. rewrite py_sorted_perm. apply list_elem_of_fmap.
    exists (id, r). split; [done|]. by apply elem_of_map_to_list.
Qed.

Lemma load_document st : wf_store st -> load (Some (document st)) = Ok st.
Proof.
  intros Hwf. unfold load, document. cbn -[load_records]. rewrite load_records_ok.
  - f_equal. apply map_eq. intros k. rewrite (insert_all_lookup st).
    + case_decide as Hk; [done|]. rewrite lookup_empty. destruct (st !! k) as [r|] eqn:Hr; [|done]. exfalso. apply Hk.
      apply list_elem_of_fmap. exists (k, r). split; [done|]. by apply elem_of_sorted_items.
    + apply Forall_forall. intros i. apply elem_of_sorted_items.
  - apply Forall_forall. intros [id r] Hi%elem_of_sorted_items. by apply Hwf.
Qed.

(** What a restart finds: the records of the last write that came into place. *)
Definition on_disk (s : FileStore) (d : Store) : Prop := wf_store d /\ load (file s) = Ok d.

(** Fences handed out are on disk, and memory is never behind the disk. *)
Definition durable (id : string) (g : Z) (s : FileStore) : Prop :=
  wf_store (memory s) /\ exists d, on_disk s d /\ g <= fence_of d id /\ fence_of d id <= fence_of (memory s) id.

Lemma file_run_snoc acts a s : file_run (acts ++ [a]) s = (file_step a (file_run acts s)).2.
Proof. unfold file_run. by rewrite fold_left_app. Qed.

Lemma durable_start id : durable id 0 (mkFileStore ∅ None).
Proof.
  assert (wf_store ∅) as H by (intros id' r Hr; by rewrite lookup_empty in Hr).
  split; [done|]. exists ∅. split; [by split|]. unfold fence_of. cbn. rewrite lookup_empty. cbn. lia.
Qed.

Lemma granted_new o st id f :
  granted_fence id (o, (do_op fingerprint o st).1) = Some f ->
  fence_of st id < f /\ fence_of (do_op fingerprint o st).2 id = f.
Proof.
  unfold granted_fence. intros H. destruct (is_grant id _) eqn:Hg; [|done].
  destruct o as [|id' name profile owner desired ttl now| | |]; try done. unfold do_op in *. cbn -[begun] in *.
  destruct (begun _ _ _ _ _ _ _ _ _) as [[r l]|] eqn:Hb; [|done]. cbn in *. apply String.eqb_eq in Hg as ->.
  simplify_eq. apply begun_ok in Hb as (Hf & Hl & _). unfold fence_of. rewrite lookup_insert_eq. cbn.
  change (default 0 (transition_fence <$> st !! id)) with (fence_of st id) in *. lia.
Qed.

Lemma file_step_durable id g a s : durable id g s ->
  match (file_step a s).1 ≫= granted_fence id with
  | Some f => g < f /\ durable id f (file_step a s).2
  | None => durable id g (file_step a s).2
  end.
Proof.
  intros (Hwf & d & [Hd Hload] & Hg & Hm). destruct a as [o w|]; cbn [file_step].
  - pose proof (do_op_wf o (memory s) Hwf) as Hwf'. pose proof (do_op_grows fingerprint o (memory s) id) as [Hge _].
    pose proof (granted_new o (memory s) id) as Hnew. unfold file_op.
    destruct (do_op fingerprint o (memory s)) as [a st] eqn:Ho. cbn [fst snd] in *.
    assert (forall g', g' <= fence_of st id -> durable id g' (mkFileStore st (Some (document st)))) as Hdone.
    { intros g' Hg'. split; [done|]. exists st. split; [split; [done|by apply load_document]|]. cbn. lia. }
    assert (durable id g (mkFileStore st (file s))) as Hkeep.
    { split; [done|]. exists d. split; [done|]. cbn in *. lia. }
    assert (match (match w with Written => Some a | _ => None end ≫= granted_fence id ∘ pair o) with
            | Some f => g < f /\ durable id f (mkFileStore st (after_write w st (file s)))
            | None => durable id g (mkFileStore st (after_write w st (file s))) end) as Hwrite.
    { destruct w; cbn; [|done|apply Hdone; lia]. destruct (granted_fence id (o, a)) as [f|] eqn:Hf; [|apply Hdone; lia].
      destruct (Hnew f eq_refl) as [H1 H2]. split; [lia|apply Hdone; lia]. }
    destruct a as [r|r l|l|e]; try (destruct w; exact Hwrite).
    assert (granted_fence id (o, Refused e) = None) as Hn by by destruct o. cbn. rewrite Hn.
    split; [done|]. by exists d.
  - rewrite Hload. cbn. split; [done|]. exists d. split; [split; done|]. cbn. lia.
Qed.

(** C19. A restart never hands a fence out twice: whatever the writes do, fail
    or be reported as failed, and however often the process restarts from the
    file, the fences of the leases its callers were granted on an instance
    strictly increase; so the host never sees a stale one as new. *)
Theorem granted_fences_increase id acts :
  StronglySorted Z.lt (omap (granted_fence id) (answers acts (mkFileStore ∅ None))).
Proof.
  assert (forall s g, durable id g s ->
    StronglySorted Z.lt (omap (granted_fence id) (answers acts s)) /\
    Forall (Z.lt g) (omap (granted_fence id) (answers acts s))) as H.
  { induction acts as [|a acts IH]; intros s g Hs; [by split; constructor|].
    pose proof (file_step_durable id g a s Hs) as Hstep. cbn [answers].
    destruct (file_step a s) as [[e|] s']; cbn [fst snd] in *; [|by apply IH].
    cbn in *. destruct (granted_fence id e) as [f|]; [|by apply IH].
    destruct Hstep as [Hlt Hd], (IH _ _ Hd) as [H1 H2]. split; [by constructor|].
    constructor; [done|]. eapply Forall_impl; [apply H2|]. cbn. lia. }
  eapply H, durable_start.
Qed.

(** C21. A restart resumes: after any history, if the last write came into
    place, the process that starts on the file has exactly the records the
    one before it had. *)
Theorem runtime_restart_resumes acts o w :
  let s := file_run (acts ++ [FileOp o w]) (mkFileStore ∅ None) in
  w <> Unwritten -> is_ok (outcome fingerprint o (memory (file_run acts (mkFileStore ∅ None)))) = true ->
  load (file s) = Ok (memory s).
Proof.
  intros s Hw Hok. subst s. rewrite file_run_snoc.
  assert (wf_store (memory (file_run acts (mkFileStore ∅ None)))) as Hwf.
  { assert (exists g, durable "" g (file_run acts (mkFileStore ∅ None))) as (g & ? & _); [|done].
    clear. induction acts as [|a acts IH] using rev_ind.
    - exists 0. apply durable_start.
    - destruct IH as [g IH]. rewrite file_run_snoc.
      pose proof (file_step_durable "" g a _ IH) as H. destruct (_ ≫= _); [destruct H|]; eauto. }
  set (s := file_run acts _) in *. clearbody s. cbn [file_step]. unfold file_op. pose proof (do_op_wf o (memory s) Hwf) as Hwf'.
  unfold do_op in *. destruct (outcome fingerprint o (memory s)) as [[r a]|] eqn:Ho; [|done]. cbn [fst snd] in *.
  assert (match a with Refused _ => False | _ => True end) as Ha.
  { destruct o; cbn -[registered begun renewed failed published] in Ho;
      match type of Ho with fmap _ ?x = _ => destruct x as [x'|]; [|done] end; try destruct x'; cbn in Ho; by simplify_eq. }
  destruct a; try done; destruct w; try done; by apply load_document.
Qed.

End File.
