(* ===== verification/RuntimeSupervisor.v ===== *)
(** * RuntimeSupervisor: one fenced runtime transition

    Models [transition_runtime] of [scripts/runtime_supervisor.py] as a program
    over the awaits of the source: calls of the store, calls of the engine's
    adapter, the event the keepalive task sets when a renewal fails, and the
    loop's clock.  An await may raise or be cancelled.  Before every operation
    other actors, the keepalive among them, may use the store. *)

From S2P Require Import Prelude PyValue PyText Programs RuntimeContracts RuntimeState RuntimeFence.

Inductive TransitionPhase := INSPECT | DRAIN | UNLOAD | STOP | PREPARE | LOAD | HEALTH | RECONCILE.
#[export] Instance TransitionPhase_eq_dec : EqDecision TransitionPhase.
Proof. solve_decision. Defined.

Definition phase_text (p : TransitionPhase) : string :=
  match p with
  | INSPECT => "inspect" | DRAIN => "drain" | UNLOAD => "unload" | STOP => "stop"
  | PREPARE => "prepare" | LOAD => "load" | HEALTH => "health" | RECONCILE => "reconcile"
  end.

(** How an await ends when it does not return: an exception, the task's
    cancellation; or the model's fuel is used up. *)
Inductive stop := Fault (text : string) | Cancelled | OutOfFuel.

Inductive sup_op : Type -> Type :=
  | SBegin : sup_op (result stop (RuntimeInstanceRecord * RuntimeTransitionLease))
  | SRenew (l : RuntimeTransitionLease) : sup_op (result stop unit)
  | SPublish (l : RuntimeTransitionLease) (observation : data) : sup_op (result stop RuntimeInstanceRecord)
  | SFail (l : RuntimeTransitionLease) (error : string) : sup_op (result stop unit)
  | Bind (owner : string) (fence : Z) : sup_op (result stop unit)
  | Adapter (p : TransitionPhase) : sup_op (result stop data)
  | Lost : sup_op bool
  | LoopTime : sup_op time
  | WaitLost (timeout : time) : sup_op (result stop bool)
  | StopKeepalive : sup_op unit
  | Clear : sup_op (result stop unit).

(** A stretch of the coroutine: it returns or stops. *)
Definition co (A : Type) : Type := program sup_op (result stop A).
#[export] Instance co_ret : MRet co := fun _ a => Ret (Ok a).
#[export] Instance co_bind : MBind co := fun A B k p =>
  program_bind (O := sup_op) (fun r : result stop A => match r with Ok a => k a | Err s => Ret (Err s) end) p.

Definition await {A} (o : sup_op (result stop A)) : co A := perform o.
Definition raises {A} (s : stop) : co A := Ret (Err s).
Definition ask {A} (o : sup_op A) : co A := Vis o (fun a => Ret (Ok a)).

Definition _ensure_lease_live (p : TransitionPhase) : co unit :=
  lost ← ask Lost;
  if lost : bool then raises (Fault (phase_text p +:+ " failed: runtime transition lease lost")) else mret ().

(** [_observation_reached_desired] *)
Definition is_bool_value (b : bool) (v : value) : bool := match v with PBool c => Bool.eqb b c | _ => false end.

Definition flags (b : bool) (observation : data) : bool :=
  forallb (fun k => is_bool_value b (get observation k)) ["process_ready"; "model_ready"; "accepting"].

Definition reached_ready (observation : data) : bool := is_text (get observation "state") "ready" && flags true observation.
Definition reached_stopped (observation : data) : bool :=
  is_text (get observation "state") "stopped" && flags false observation.

Definition _observation_reached_desired (observation : data) (desired : RuntimeDesiredState) : bool :=
  match desired with DesiredReady => reached_ready observation | DesiredStopped => reached_stopped observation end.

Section Supervisor.
Variables (desired : RuntimeDesiredState) (timeout poll : time).

Definition last_state (evidence : data) : string := py_str (value_or (get evidence "state") (PStr "unknown")).

(** The loop of [_wait_for_desired_observation]. *)
Fixpoint wait_loop (fuel : nat) (deadline : time) : co data :=
  match fuel with
  | O => raises OutOfFuel
  | S fuel' =>
      evidence ← await (Adapter HEALTH);
      _ensure_lease_live HEALTH;;
      if _observation_reached_desired evidence desired then mret evidence
      else if String.eqb (last_state evidence) "faulted" then raises (Fault "runtime reported a faulted state")
      else
        now ← ask LoopTime;
        let remaining := deadline - now in
        if remaining <=? 0 then
          raises (Fault ("runtime did not reach " +:+ py_repr_str (desired_text desired)
                         +:+ " before readiness timeout (last_state=" +:+ py_repr_str (last_state evidence) +:+ ")"))
        else
          set ← await (WaitLost (Z.min poll remaining));
          (if set : bool then _ensure_lease_live HEALTH else mret ());;
          wait_loop fuel' deadline
  end.

Definition _wait_for_desired_observation (fuel : nat) : co data :=
  if timeout <=? 0 then raises (Fault "readiness timeout must be positive")
  else if poll <=? 0 then raises (Fault "readiness poll interval must be positive")
  else now ← ask LoopTime; wait_loop fuel (now + timeout).

(** An adapter call, then the lease. *)
Definition act (p : TransitionPhase) : co data :=
  r ← await (Adapter p); _ensure_lease_live p;; mret r.

(** The [try] body; what stops it comes with the phase it was in. *)
Definition at_phase {A} (p : TransitionPhase) (c : co A) : program sup_op (result (TransitionPhase * stop) A) :=
  program_bind (fun r : result stop A => Ret (match r with Ok a => Ok a | Err s => Err (p, s) end)) c.

Definition phased (A : Type) : Type := program sup_op (result (TransitionPhase * stop) A).
#[export] Instance phased_ret : MRet phased := fun _ a => Ret (Ok a).
#[export] Instance phased_bind : MBind phased := fun A B k p =>
  program_bind (O := sup_op)
    (fun r : result (TransitionPhase * stop) A => match r with Ok a => k a | Err s => Ret (Err s) end) p.

Definition step {A} (p : TransitionPhase) (c : co A) : phased A := at_phase p c.

Definition renew_at (p : TransitionPhase) (l : RuntimeTransitionLease) : phased unit := step p (await (SRenew l)).

Definition teardown (l : RuntimeTransitionLease) : phased unit :=
  step DRAIN (act DRAIN);; renew_at DRAIN l;;
  step UNLOAD (act UNLOAD);; renew_at UNLOAD l.

Definition bring_up (l : RuntimeTransitionLease) : phased unit :=
  match desired with
  | DesiredStopped => step STOP (act STOP);; mret ()
  | DesiredReady =>
      step PREPARE (act PREPARE);; renew_at PREPARE l;;
      step LOAD (act LOAD);; mret ()
  end.

Definition body (fuel : nat) (l : RuntimeTransitionLease) : phased RuntimeInstanceRecord :=
  step INSPECT (await (Bind (lease_owner l) (lease_fence l)));;
  observed ← step INSPECT (act INSPECT);
  if _observation_reached_desired observed desired then step INSPECT (await (SPublish l observed))
  else
    renew_at INSPECT l;;
    step INSPECT (_ensure_lease_live INSPECT);;
    (if reached_stopped observed then mret () else teardown l);;
    bring_up l;;
    evidence ← step HEALTH (_wait_for_desired_observation fuel);
    step HEALTH (await (SPublish l evidence)).

Definition stop_text (s : stop) : string := match s with Fault t => t | Cancelled => "cancelled" | OutOfFuel => "" end.

(** The two [except] clauses: an ordinary exception of [reconcile] is
    swallowed, a cancellation of it is not. *)
Definition recover_transition (l : RuntimeTransitionLease) (p : TransitionPhase) (s : stop) : co RuntimeInstanceRecord :=
  match s with
  | OutOfFuel => raises OutOfFuel
  | _ =>
      Vis (Adapter RECONCILE) (fun r =>
        match r with
        | Err Cancelled => raises Cancelled
        | _ =>
            Vis (SFail l (phase_text p +:+ ": " +:+ stop_text s)) (fun f =>
              match s, f with
              | Cancelled, _ => raises Cancelled
              | _, Err (Fault t) =>
                  raises (Fault (phase_text p +:+ " failed and transition fence was lost: " +:+ t))
              | _, Err e => raises e
              | _, Ok _ => raises (Fault (phase_text p +:+ " failed: " +:+ stop_text s))
              end)
        end)
  end.

(** The [finally] clause; an exception in it replaces the result. *)
Definition finally {A} (r : result stop A) : co A :=
  ask StopKeepalive;;
  Vis Clear (fun c => match c with Ok _ => Ret r | Err s => raises s end).

Definition transition_runtime (fuel : nat) : co RuntimeInstanceRecord :=
  '(_, l) ← await SBegin;
  program_bind (fun r =>
    program_bind finally
      (match r with Ok a => Ret (Ok a) | Err (p, s) => recover_transition l p s end)) (body fuel l).

End Supervisor.

(** ** The world *)

(** What becomes of a call of the store: its answer may be replaced by an
    exception or a cancellation, before or after it took effect. *)
Inductive Fate := Fine | NotDone (s : stop) | Unheard (s : stop).

(** Everything the coroutine does not control: the other actors' calls of the
    store before each of its operations, its clock readings, the fate of its
    calls and the answers of all else. *)
Class Surroundings (E : Type) := {
  others : E -> list store_op * E;
  instant : E -> time * E;
  fate : E -> Fate * E;
  respond : forall X, sup_op X -> E -> X * E }.

(** Calls of the store by the coroutine and by others, with their answers, and
    the calls of the adapter. *)
Inductive entry := Own (o : store_op) (a : reply) | Theirs (o : store_op) (a : reply)
  | Called (p : TransitionPhase) (r : result stop data).

Record SupWorld (E : Type) := mkSupWorld { records : Store; log : list entry; surroundings : E }.
Arguments mkSupWorld {E}.
Arguments records {E}.
Arguments log {E}.
Arguments surroundings {E}.

Definition error_text (e : RuntimeError) : string :=
  match e with StateError t | RuntimeConflict t | TypeError t => t end.

Section World.
Context {E : Type} `{Surroundings E}.
Variables (fingerprint : value -> string) (id name : string) (profile : data) (owner : string) (ttl : time).
Variables (desired : RuntimeDesiredState) (timeout poll : time).
Abbreviation SupWorld := (SupWorld E).

(** The others' turn. *)
Definition interleave (w : SupWorld) : SupWorld :=
  let '(ops, e) := others (surroundings w) in
  mkSupWorld (run fingerprint ops (records w))
    (log w ++ ((fun i => Theirs i.1 i.2) <$> history fingerprint ops (records w))) e.

Definition store_call {X} (o : time -> store_op) (read : reply -> result stop X) (w : SupWorld) : result stop X * SupWorld :=
  let '(t, e1) := instant (surroundings w) in
  let '(f, e2) := fate e1 in
  let '(a, st) := do_op fingerprint (o t) (records w) in
  let done := mkSupWorld st (log w ++ [Own (o t) a]) e2 in
  match f with
  | Fine => (read a, done)
  | NotDone s => (Err s, mkSupWorld (records w) (log w) e2)
  | Unheard s => (Err s, done)
  end.

Definition unit_of (a : reply) : result stop unit :=
  match a with Refused e => Err (Fault (error_text e)) | _ => Ok () end.
Definition granted_of (a : reply) : result stop (RuntimeInstanceRecord * RuntimeTransitionLease) :=
  match a with Granted r l => Ok (r, l) | Refused e => Err (Fault (error_text e)) | _ => Err (Fault "") end.
Definition recorded_of (a : reply) : result stop RuntimeInstanceRecord :=
  match a with Recorded r => Ok r | Refused e => Err (Fault (error_text e)) | _ => Err (Fault "") end.

Definition own_call {X} (o : sup_op X) (w : SupWorld) : X * SupWorld :=
  match o in sup_op X return X * SupWorld with
  | SBegin => store_call (Begin id name profile owner (desired_text desired) ttl) granted_of w
  | SRenew l => store_call (Renew l ttl) unit_of w
  | SPublish l observation => store_call (Publish l profile observation) recorded_of w
  | SFail l error => store_call (FailTransition l error) unit_of w
  | Adapter p =>
      let '(r, e) := respond _ (Adapter p) (surroundings w) in
      (r, mkSupWorld (records w) (log w ++ [Called p r]) e)
  | o' => let '(x, e) := respond _ o' (surroundings w) in (x, mkSupWorld (records w) (log w) e)
  end.

Definition call X (o : sup_op X) (w : SupWorld) : X * SupWorld := own_call o (interleave w).

End World.
Arguments call {E _}.
