(* ===== verification/RuntimeTransition.v ===== *)
(** * RuntimeTransition: what a fenced transition guarantees

    Theorems about [transition_runtime] of [RuntimeSupervisor], whatever other
    actors do to the store between its awaits, whatever the adapter answers and
    wherever calls fail or the task is cancelled. *)

From S2P Require Import Prelude PyValue PyText Programs RuntimeContracts RuntimeState RuntimeFence RuntimeSupervisor.

(** ** The logic of coroutines *)

Section Logic.
Context {W : Type} (handle : forall X, sup_op X -> W -> X * W) (I : W -> Prop).

Lemma wp_then {S A B} (p : program sup_op (result S A)) (k : A -> program sup_op (result S B)) Q w :
  wp handle I p (fun r w => match r with Ok a => wp handle I (k a) Q w | Err s => Q (Err s) w end) w ->
  wp handle I (program_bind (fun r => match r with Ok a => k a | Err s => Ret (Err s) end) p) Q w.
Proof.
  intros H. apply wp_bind. eapply wp_conseq; [|exact H]. intros [a|s] w' Hi Hq; [done|]. by split.
Qed.

Lemma wp_at_phase {A} p (c : co A) Q w :
  wp handle I c (fun r w => Q (match r with Ok a => Ok a | Err s => Err (p, s) end) w) w -> wp handle I (at_phase p c) Q w.
Proof. intros H. unfold at_phase. apply wp_bind. eapply wp_conseq; [|exact H]. intros [a|s] w' Hi Hq; by split. Qed.

(** A program of which only the invariant is needed. *)
Lemma wp_frame {A} (p : program sup_op A) w :
  (forall X o w, I w -> I (handle X o w).2) -> I w -> wp handle I p (fun _ => I) w.
Proof. intros Hop. apply (wp_uses _ _ (fun _ _ => True)); [auto|by apply uses_all]. Qed.

End Logic.

Section Transition.
Context {E : Type} `{Surroundings E}.
Variables (fingerprint : value -> string) (id name : string) (profile : data) (owner : string) (ttl : time).
Variables (desired : RuntimeDesiredState) (timeout poll : time).
Abbreviation SupWorld := (SupWorld E).
Abbreviation call := (call fingerprint id name profile owner ttl desired).
Abbreviation transition := (transition_runtime desired timeout poll).

(** ** Alone, and on evidence *)

Definition grants (e : entry) : bool :=
  match e with Own o a | Theirs o a => is_grant id (o, a) | Called _ _ => false end.

Definition no_grant (l : list entry) : Prop := Forall (fun e => grants e = false) l.

(** From the begin on: nobody else was granted the instance as long as its
    fence is the one of the lease. *)
Definition since (base : list entry) (f : Z) (seen : list entry -> Prop) (w : SupWorld) : Prop :=
  exists during, log w = base ++ during /\ seen during /\
    ((no_grant during /\ fence_of (records w) id = f) \/ f < fence_of (records w) id).

Lemma history_fence ops st :
  (no_grant ((fun i => Theirs i.1 i.2) <$> history fingerprint ops st) /\
   fence_of (run fingerprint ops st) id = fence_of st id) \/ fence_of st id < fence_of (run fingerprint ops st) id.
Proof.
  revert st. induction ops as [|o ops IH]; intros st; [left; by split; [constructor|]|]. cbn [history fmap list_fmap].
  change (run fingerprint (o :: ops) st) with (run fingerprint ops (do_op fingerprint o st).2).
  destruct (do_op_fence fingerprint o st id) as [[Hg Hf]|Hf], (IH (do_op fingerprint o st).2) as [[Hg' Hf']|Hf'].
  - left. split; [by constructor|lia].
  - right. lia.
  - right. lia.
  - right. lia.
Qed.

Definition grows (seen : list entry -> Prop) : Prop := forall l l', seen l -> seen (l ++ l').

Lemma since_more base f seen w new st e : grows seen -> since base f seen w ->
  (no_grant new /\ fence_of st id = fence_of (records w) id) \/ fence_of (records w) id < fence_of st id ->
  since base f seen (mkSupWorld st (log w ++ new) e).
Proof.
  intros Hs (during & Hl & Hd & Hf) Hn. exists (during ++ new). cbn. split_and!; [by rewrite Hl, app_assoc|by apply Hs|].
  destruct Hf as [[Hg Hf]|Hf], Hn as [[Hg' Hf']|Hf']; [left|right; lia..]. split; [by apply Forall_app|lia].
Qed.

Lemma store_call_since {X} base f seen (o : time -> store_op) (read : reply -> result stop X) w :
  grows seen -> since base f seen w -> since base f seen (store_call fingerprint o read w).2.
Proof.
  intros Hs Hw. unfold store_call. destruct (instant _) as [t e1], (fate e1) as [ft e2].
  pose proof (do_op_fence fingerprint (o t) (records w) id) as Hf.
  destruct (do_op fingerprint (o t) (records w)) as [a st]. cbn [fst snd] in Hf.
  assert (since base f seen (mkSupWorld st (log w ++ [Own (o t) a]) e2)) as Hd.
  { apply since_more; [done|done|]. destruct Hf as [[Hg Hf]|Hf]; [left|by right]. split; [|done].
    constructor; [done|constructor]. }
  assert (since base f seen (mkSupWorld (records w) (log w) e2)) as Hn by done.
  by destruct ft.
Qed.

Lemma interleave_since base f seen w : grows seen -> since base f seen w -> since base f seen (interleave fingerprint w).
Proof.
  intros Hs Hw. unfold interleave. destruct (others _) as [ops e]. apply since_more; [done|done|]. apply history_fence.
Qed.

Lemma since_call base f seen X (o : sup_op X) w : grows seen -> since base f seen w -> since base f seen (call X o w).2.
Proof.
  intros Hs Hw. apply (interleave_since _ _ _ _ Hs) in Hw. unfold RuntimeSupervisor.call.
  set (w1 := interleave fingerprint w) in *. clearbody w1.
  destruct o; cbn [own_call]; try by apply store_call_since.
  all: destruct (respond _ _ _) as [x e]; cbn; try exact Hw.
  apply since_more; [done|done|]. left. split; [by constructor; [|constructor]|done].
Qed.

Lemma grows_true : grows (fun _ => True).
Proof. done. Qed.

Lemma grows_in x : grows (fun l => x ∈ l).
Proof. intros l l' Hx. apply elem_of_app. by left. Qed.

(** The record was published by the holder, on evidence, with no other grant
    in between. *)
Definition published_at (base : list entry) (l : RuntimeTransitionLease) (r : RuntimeInstanceRecord) (w : SupWorld) : Prop :=
  exists during obs t rest p,
    log w = base ++ during ++ Own (Publish l profile obs t) (Recorded r) :: rest /\ no_grant during /\
    (p = INSPECT \/ p = HEALTH) /\ Called p (Ok obs) ∈ during /\ _observation_reached_desired obs desired = true /\
    state r = match desired with DesiredReady => READY | DesiredStopped => STOPPED end /\
    accepting r = match desired with DesiredReady => true | DesiredStopped => false end /\
    transition_owner r = None.

Lemma reached_state obs : _observation_reached_desired obs desired = true ->
  _state_for_observation obs = match desired with DesiredReady => READY | DesiredStopped => STOPPED end /\
  py_truthy (get obs "accepting") = match desired with DesiredReady => true | DesiredStopped => false end.
Proof.
  assert (forall b v, is_bool_value b v = true -> py_truthy v = b) as Hb.
  { intros b [|c| | | | | | |]; try done. cbn. by intros ->%Bool.eqb_prop. }
  unfold _state_for_observation. destruct desired; cbn -[flags is_text]; unfold reached_ready, reached_stopped, flags;
    intros [Hs Hf]%andb_true_iff; cbn [forallb] in Hf; bool_prop; rewrite ?Hs.
  - assert (is_text (get obs "state") "ready" = false) as ->; [|by split; [|apply Hb]].
    destruct (get obs "state"); try done. cbn in *. by apply String.eqb_eq in Hs as ->.
  - by split; [|apply Hb].
Qed.

Lemma published_record st l p obs t r : published fingerprint st l p obs t = Ok r ->
  state r = _state_for_observation obs /\ accepting r = py_truthy (get obs "accepting") /\
  transition_owner r = if settles (_state_for_observation obs) then None else Some (lease_owner l).
Proof.
  unfold published. destruct (validate_runtime_observation _ _ _ _) as [[|]|]; [|done..]. intros H0. inv_ok.
  match goal with H : owned _ _ _ _ = Ok _ |- _ => apply owned_ok in H as (_ & Ho & _) end. cbn. by rewrite Ho.
Qed.

Lemma publish_since base l p obs w :
  lease_instance l = id -> (p = INSPECT \/ p = HEALTH) -> _observation_reached_desired obs desired = true ->
  since base (lease_fence l) (fun d => Called p (Ok obs) ∈ d) w ->
  wp call (since base (lease_fence l) (fun _ => True)) (await (SPublish l obs))
    (fun r w' => match r with Ok rec => published_at base l rec w' | Err _ => True end) w.
Proof.
  intros Hid Hp Hr Hw. unfold await, perform. cbn [wp].
  assert (forall w', since base (lease_fence l) (fun d => Called p (Ok obs) ∈ d) w' ->
    since base (lease_fence l) (fun _ => True) w') as Hweak.
  { intros w' (d & ? & _ & ?). by exists d. }
  split; [by apply Hweak|]. pose proof (since_call base _ _ _ (SPublish l obs) w (grows_in _) Hw) as Hw'.
  apply (interleave_since _ _ _ _ (grows_in _)) in Hw. unfold RuntimeSupervisor.call in *.
  set (w1 := interleave fingerprint w) in *. clearbody w1. cbn [own_call] in *. unfold store_call in *.
  destruct (instant _) as [t e1], (fate e1) as [ft e2].
  destruct (do_op fingerprint (Publish l profile obs t) (records w1)) as [a st] eqn:Ho.
  destruct ft; cbn [fst snd] in *; (split; [by apply Hweak|]); try done.
  destruct a as [r| | |]; cbn; try done. destruct Hw as (during & Hl & Hin & Hf).
  unfold do_op in Ho. cbn -[published] in Ho.
  destruct (published fingerprint (records w1) l profile obs t) as [r1|] eqn:Hpub; cbn in Ho; [|done].
  simplify_eq. pose proof Hpub as Hpub'. apply published_ok in Hpub' as (r0 & Hr0 & _ & Hfence & _).
  assert (fence_of (records w1) (lease_instance l) = lease_fence l) as Hfe.
  { unfold fence_of. by rewrite Hr0. }
  rewrite Hid in Hfe.
  exists during, obs, t, [], p. cbn [log]. rewrite Hl, <- app_assoc.
  destruct Hf as [[Hg _]|Hf]; [|lia]. split_and!; [done..| | |].
  all: destruct (reached_state obs Hr) as [Hst Hac], (published_record _ _ _ _ _ _ Hpub) as (H1 & H2 & H3);
    rewrite ?H1, ?H2, ?H3, ?Hst, ?Hac; by destruct desired.
Qed.

(** Steps of which only the lease matters. *)
Lemma since_frame base f seen {A} (p : program sup_op A) w : grows seen -> since base f seen w ->
  wp call (since base f seen) p (fun _ => since base f seen) w.
Proof. intros Hs. apply wp_frame. intros X o w'. by apply since_call. Qed.

Lemma since_weaken base f (seen seen' : list entry -> Prop) w :
  (forall d, seen d -> seen' d) -> since base f seen w -> since base f seen' w.
Proof. intros Hs (d & Hl & Hd & Hf). exists d. auto. Qed.

Section Body.
Variables (base : list entry) (l : RuntimeTransitionLease).
Hypothesis Hid : lease_instance l = id.
Abbreviation held := (since base (lease_fence l) (fun _ => True)).
Abbreviation saw p obs := (since base (lease_fence l) (fun d => Called p (Ok obs) ∈ d)).

Lemma held_frame {A} (p : program sup_op A) w : held w -> wp call held p (fun _ => held) w.
Proof. by apply since_frame. Qed.

Lemma saw_frame {A} q obs (p : program sup_op A) w : saw q obs w -> wp call held p (fun _ => saw q obs) w.
Proof.
  intros Hw. apply (wp_weaken _ (saw q obs)).
  - intros w'. by apply since_weaken.
  - apply since_frame; [apply grows_in|done].
Qed.

(** A step whose result does not matter. *)
Lemma held_then {S A B} (p : program sup_op (result S A)) (k : A -> program sup_op (result S B)) Q w :
  held w -> (forall a w', held w' -> wp call held (k a) Q w') -> (forall s w', held w' -> Q (Err s) w') ->
  wp call held (program_bind (fun r => match r with Ok a => k a | Err s => Ret (Err s) end) p) Q w.
Proof.
  intros Hw Hk He. apply wp_then. eapply wp_mono; [|by apply held_frame]. intros [a|s] w' Hw'; [by apply Hk|by apply He].
Qed.

(** An answer of the adapter is seen from then on. *)
Lemma call_saw p w r w' : held w -> call _ (Adapter p) w = (r, w') ->
  held w' /\ match r with Ok obs => saw p obs w' | Err _ => True end.
Proof.
  intros Hw Hc. pose proof (since_call _ _ _ _ (Adapter p) w grows_true Hw) as Hw'. rewrite Hc in Hw'.
  split; [done|]. destruct r as [obs|]; [|done]. apply (interleave_since _ _ _ _ grows_true) in Hw.
  unfold RuntimeSupervisor.call in Hc. set (w1 := interleave fingerprint w) in *. clearbody w1.
  cbn [own_call] in Hc. destruct (respond _ _ _) as [x e]. simplify_eq. destruct Hw as (d & Hl & _ & Hf).
  exists (d ++ [Called p (Ok obs)]). cbn [log records]. split_and!; [by rewrite Hl, app_assoc|set_solver|].
  destruct Hf as [[Hg Hf]|Hf]; [left|by right]. split; [|done]. apply Forall_app. split; [done|]. by constructor; [|constructor].
Qed.

Lemma act_saw p w : held w ->
  wp call held (act p) (fun r w' => match r with Ok obs => saw p obs w' | Err _ => held w' end) w.
Proof.
  intros Hw. unfold act, await, perform. apply wp_then. cbn [wp]. split; [done|].
  destruct (call _ (Adapter p) w) as [r w'] eqn:Hc. destruct (call_saw _ _ _ _ Hw Hc) as [Hw' Hs].
  split; [done|]. destruct r as [obs|]; [|done]. apply wp_then.
  eapply wp_conseq; [|by apply saw_frame]. intros [u|s] w2 Hi Hs'; [|done]. cbn. by split.
Qed.

Lemma wait_saw fuel deadline w : held w ->
  wp call held (wait_loop desired poll fuel deadline)
    (fun r w' => match r with Ok obs => saw HEALTH obs w' /\ _observation_reached_desired obs desired = true | Err _ => held w' end) w.
Proof.
  revert w. induction fuel as [|fuel IH]; intros w Hw; [by cbn|]. cbn [wait_loop]. unfold await, perform at 1.
  apply wp_then. cbn [wp]. split; [done|].
  destruct (call _ (Adapter HEALTH) w) as [r w'] eqn:Hc. destruct (call_saw _ _ _ _ Hw Hc) as [Hw' Hs].
  split; [done|]. destruct r as [obs|]; [|done]. apply wp_then.
  eapply wp_conseq; [|by apply saw_frame]. intros [u|s] w2 Hi Hs2; [|done].
  destruct (_observation_reached_desired obs desired) eqn:Hr; [by cbn|].
  destruct (String.eqb _ _); [by cbn|]. apply held_then; [done| |done]. intros now w3 Hw3.
  destruct (deadline - now <=? 0); [by cbn|]. apply held_then; [done| |done]. intros set w4 Hw4.
  apply held_then; [done| |done]. intros _ w5 Hw5. by apply IH.
Qed.

Lemma body_published fuel w : held w ->
  wp call held (body desired timeout poll fuel l)
    (fun r w' => match r with Ok rec => published_at base l rec w' | Err _ => True end) w.
Proof.
  intros Hw. unfold body, step. apply held_then; [done| |done]. intros _ w1 Hw1.
  apply wp_then, wp_at_phase. eapply wp_conseq; [|by apply act_saw]. intros [obs|s] w2 Hi2 Hs; [|done].
  destruct (_observation_reached_desired obs desired) eqn:Hr.
  { apply wp_at_phase. eapply wp_conseq; [|by eapply publish_since; [|left| |]]. by intros []. }
  apply held_then; [done| |done]. intros _ w3 Hw3. apply held_then; [done| |done]. intros _ w4 Hw4.
  apply held_then; [done| |done]. intros _ w5 Hw5. apply held_then; [done| |done]. intros _ w6 Hw6.
  apply wp_then, wp_at_phase. unfold _wait_for_desired_observation. destruct (timeout <=? 0); [by cbn|].
  destruct (poll <=? 0); [by cbn|]. apply held_then; [done| |done]. intros now w7 Hw7.
  eapply wp_conseq; [|by apply wait_saw]. intros [ev|s] w8 Hi8 Hs8; [|done]. destruct Hs8 as [Hs8 Hr8].
  apply wp_at_phase. eapply wp_conseq; [|by eapply publish_since; [|right| |]]. by intros [].
Qed.

End Body.

(** ** The whole *)

Definition entries_grow (w w' : SupWorld) : Prop := exists new, log w' = log w ++ new.

Lemma call_grows X (o : sup_op X) w : entries_grow w (call X o w).2.
Proof.
  assert (entries_grow w (interleave fingerprint w)) as [new Hnew].
  { unfold interleave. destruct (others _) as [ops e]. by eexists. }
  unfold RuntimeSupervisor.call. set (w1 := interleave fingerprint w) in *. clearbody w1.
  assert (entries_grow w1 (own_call fingerprint id name profile owner ttl desired o w1).2) as [new' Hnew'];
    [|exists (new ++ new'); by rewrite Hnew', Hnew, app_assoc].
  destruct o; cbn [own_call]; unfold store_call; try destruct (instant _) as [t e1]; try destruct (fate _) as [f e2];
    try destruct (do_op _ _ _) as [a st]; try destruct f; try destruct (respond _ _ _) as [x e]; cbn;
    try (by eexists); exists []; by rewrite app_nil_r.
Qed.

Lemma published_at_grows base l r w w' : published_at base l r w -> entries_grow w w' -> published_at base l r w'.
Proof.
  intros (d & obs & t & rest & p & Hl & Hrest) [new Hnew]. exists d, obs, t, (rest ++ new), p.
  split; [|done]. by rewrite Hnew, Hl, <- !app_assoc.
Qed.

Lemma finally_keeps (Q : result stop RuntimeInstanceRecord -> SupWorld -> Prop) r w :
  (forall w', entries_grow w w' -> Q r w') -> (forall s w', Q (Err s) w') ->
  wp call (fun _ => True) (finally r) Q w.
Proof.
  intros HQ He. unfold finally. apply wp_then. cbn [wp ask]. split; [done|].
  pose proof (call_grows _ StopKeepalive w) as [n1 H1]. destruct (call _ StopKeepalive w) as [u w1]. cbn [snd] in H1.
  split; [done|]. split; [done|]. pose proof (call_grows _ Clear w1) as [n2 H2].
  destruct (call _ Clear w1) as [c w2]. cbn [snd] in H2. destruct c as [u'|s]; (split; [done|]); [|apply He].
  apply HQ. exists (n1 ++ n2). by rewrite H2, H1, app_assoc.
Qed.

Lemma recover_fails l p s w :
  wp call (fun _ => True) (recover_transition l p s) (fun r _ => exists e, r = Err e) w.
Proof.
  unfold recover_transition. destruct s as [t| |]; [| |by cbn; eauto].
  all: cbn [wp]; split; [done|]; destruct (call _ (Adapter RECONCILE) w) as [r w1];
    destruct r as [d|[| |]]; try (by split; [done|eauto]); (split; [done|]);
    destruct (call _ (SFail _ _) w1) as [f w2]; destruct f as [|[| |]]; (split; [done|eauto]).
Qed.

(** C16. A transition completes alone and on evidence: when it returns, it had
    begun the instance, nobody else was granted the instance until its record
    was published under the same lease, the adapter had answered, in its first
    inspection or in a health check, the observation that was published, and
    that observation has reached the desired state: ready and accepting, or
    stopped. *)
Theorem transition_completes_on_evidence fuel w r w' :
  run_all call (transition fuel) w = (Ok (Ok r), w') ->
  exists before b l t during obs t' rest p,
    log w' = before ++ Own (Begin id name profile owner (desired_text desired) ttl t) (Granted b l)
             :: during ++ Own (Publish l profile obs t') (Recorded r) :: rest /\
    no_grant during /\ (p = INSPECT \/ p = HEALTH) /\ Called p (Ok obs) ∈ during /\
    _observation_reached_desired obs desired = true /\
    state r = match desired with DesiredReady => READY | DesiredStopped => STOPPED end /\
    accepting r = match desired with DesiredReady => true | DesiredStopped => false end /\ transition_owner r = None.
Proof.
  intros Hrun.
  assert (wp call (fun _ => True) (transition fuel)
    (fun r w' => match r with
                 | Ok rec => exists before b l t, published_at (before ++ [Own (Begin id name profile owner (desired_text desired) ttl t) (Granted b l)]) l rec w'
                 | Err _ => True end) w) as Hwp.
  2:{ pose proof (wp_result _ _ _ _ _ _ _ Hwp Hrun) as (before & b & l & t & d & obs & t' & rest & p & Hl & Hrest).
      exists before, b, l, t, d, obs, t', rest, p. split; [|done]. by rewrite Hl, <- !app_assoc. }
  unfold transition_runtime, await, perform. apply wp_then. cbn [wp]. split; [done|].
  unfold RuntimeSupervisor.call at 1. set (w1 := interleave fingerprint w). clearbody w1. cbn [own_call]. unfold store_call.
  destruct (instant _) as [t e1], (fate e1) as [ft e2].
  destruct (do_op fingerprint (Begin id name profile owner (desired_text desired) ttl t) (records w1)) as [a st] eqn:Ho.
  destruct ft; cbn [granted_of wp]; [|by split..].
  destruct a as [|b l| |]; cbn [granted_of wp]; try by split. split; [done|].
  set (begin := Own (Begin id name profile owner (desired_text desired) ttl t) (Granted b l)).
  unfold do_op in Ho. cbn -[begun] in Ho.
  destruct (begun _ _ _ _ _ _ _ _ _) as [[b' l']|] eqn:Hb; [|done]. cbn in Ho. injection Ho as Hb' Hl' Hst.
  subst b' l'. apply begun_ok in Hb as (_ & Hf & Hid & _).
  set (w2 := mkSupWorld st (log w1 ++ [begin]) e2).
  assert (since (log w2) (lease_fence l) (fun _ => True) w2) as Hw2.
  { exists []. rewrite app_nil_r. split_and!; [done|done|]. left. split; [constructor|]. cbn [records w2].
    unfold fence_of. rewrite <- Hst, lookup_insert_eq. cbn. by rewrite Hf. }
  apply wp_bind. eapply wp_weaken with (I := since (log w2) (lease_fence l) (fun _ => True)); [done|].
  eapply wp_mono; [|by apply body_published]. intros r1 w3 Hr1. apply wp_bind. destruct r1 as [rec|[p s]].
  - cbn [wp]. split; [done|]. apply finally_keeps; [|done]. intros w4 Hg. exists (log w1), b, l, t.
    by eapply published_at_grows.
  - eapply wp_mono; [|apply recover_fails]. intros r2 w4 [e ->]. by apply finally_keeps.
Qed.


(** ** The order of the adapter's calls *)

Definition calls_of (l : list entry) : list (TransitionPhase * result stop data) :=
  omap (fun e => match e with Called p r => Some (p, r) | _ => None end) l.
Abbreviation calls w := (calls_of (log w)).

(** What a transition does after its inspection answered [first], with [n]
    health checks. *)
Definition plan (first : result stop data) (n : nat) : list TransitionPhase :=
  INSPECT ::
  match first with
  | Err _ => []
  | Ok observed =>
      if _observation_reached_desired observed desired then []
      else (if reached_stopped observed then [] else [DRAIN; UNLOAD])
           ++ match desired with DesiredReady => [PREPARE; LOAD] | DesiredStopped => [STOP] end
           ++ replicate n HEALTH
  end.

(** Calls that follow the plan of their first answer, each after the one
    before it returned, and then at most a reconciliation. *)
Definition follows (cs : list (TransitionPhase * result stop data)) (planned : list TransitionPhase) : Prop :=
  exists ok final rec, cs = ok ++ final ++ rec /\ Forall (fun c => is_ok c.2 = true) ok /\
    (length final <= 1)%nat /\ (ok ++ final).*1 `prefix_of` planned /\ (rec = [] \/ rec.*1 = [RECONCILE]).

Definition orderly (cs : list (TransitionPhase * result stop data)) : Prop :=
  exists first n, follows cs (plan first n) /\ (forall r, cs !! 0%nat = Some (INSPECT, r) -> r = first).

Section Order.
Variable base : list (TransitionPhase * result stop data).
Definition in_order (w : SupWorld) : Prop := exists cs, calls w = base ++ cs /\ orderly cs.

(** The calls so far: a beginning of the plan, all of them returned. *)
Definition trail (first : result stop data) (ps : list TransitionPhase) (w : SupWorld) : Prop :=
  exists cs n, calls w = base ++ cs /\ Forall (fun c => is_ok c.2 = true) cs /\ cs.*1 = ps /\
    ps `prefix_of` plan first n /\ (forall r, cs !! 0%nat = Some (INSPECT, r) -> r = first).

(** The same, but the last call may have failed. *)
Definition stuck (w : SupWorld) : Prop :=
  exists first cs final n, calls w = base ++ cs ++ final /\ Forall (fun c => is_ok c.2 = true) cs /\
    (length final <= 1)%nat /\ (cs ++ final).*1 `prefix_of` plan first n /\
    (forall r, (cs ++ final) !! 0%nat = Some (INSPECT, r) -> r = first).

Lemma trail_stuck first ps w : trail first ps w -> stuck w.
Proof.
  intros (cs & n & Hc & Hok & Hp & Hpre & Hf). exists first, cs, [], n. rewrite app_nil_r, Hp.
  split_and!; [done..|cbn; lia|done|done].
Qed.

Lemma stuck_in_order w : stuck w -> in_order w.
Proof.
  intros (first & cs & final & n & Hc & Hok & Hl & Hpre & Hf). exists (cs ++ final). split; [done|]. exists first, n.
  split; [|done]. exists cs, final, []. rewrite app_nil_r. split_and!; [done..|by left].
Qed.

Lemma call_calls X (o : sup_op X) w :
  calls (call X o w).2 = calls w ++
    match o in sup_op X return X -> list (TransitionPhase * result stop data) with
    | Adapter p => fun r => [(p, r)] | _ => fun _ => [] end (call X o w).1.
Proof.
  assert (calls (interleave fingerprint w) = calls w) as Hi.
  { unfold interleave. destruct (others _) as [ops e]. cbn [log]. unfold calls_of. rewrite omap_app.
    assert (omap (fun e => match e with Called p r => Some (p, r) | _ => None end)
      ((fun i => Theirs i.1 i.2) <$> history fingerprint ops (records w)) = []) as ->; [|by rewrite app_nil_r].
    by induction (history fingerprint ops (records w)). }
  unfold RuntimeSupervisor.call. rewrite <- Hi. set (w1 := interleave fingerprint w). clearbody w1.
  destruct o; cbn [own_call]; unfold store_call; try destruct (instant _) as [t e1]; try destruct (fate _) as [f e2];
    try destruct (do_op _ _ _) as [a st]; try destruct f; try destruct (respond _ _ _) as [x e]; cbn [fst snd log];
    unfold calls_of; rewrite ?omap_app; cbn; by rewrite ?app_nil_r.
Qed.

Definition quiet X (o : sup_op X) : Prop := match o with Adapter _ => False | _ => True end.

(** A stretch without adapter calls. *)
Lemma quiet_keeps {A} (p : program sup_op A) (P : SupWorld -> Prop) w :
  (forall w w', calls w = calls w' -> P w -> P w') -> (forall w, P w -> in_order w) -> uses quiet p -> P w ->
  wp call in_order p (fun _ => P) w.
Proof.
  intros HP Hi Hq Hw. apply (wp_weaken _ P); [done|]. eapply wp_uses; [|exact Hq|done].
  intros X o w1 Ho Hp. eapply HP; [|done]. rewrite call_calls. destruct o; try done; by rewrite app_nil_r.
Qed.

Lemma trail_calls first ps w w' : calls w = calls w' -> trail first ps w -> trail first ps w'.
Proof. intros Hc (cs & n & H1 & Hrest). exists cs, n. by rewrite <- Hc. Qed.

Lemma trail_in_order first ps w : trail first ps w -> in_order w.
Proof. intros Hw. by eapply stuck_in_order, trail_stuck. Qed.

Lemma quiet_trail {A} (p : program sup_op A) first ps w :
  uses quiet p -> trail first ps w -> wp call in_order p (fun _ => trail first ps) w.
Proof.
  intros Hq Hw. apply quiet_keeps; [|by apply trail_in_order|done|done]. intros w1 w2. apply trail_calls.
Qed.

(** One step of the plan. *)
Lemma adapter_step first ps p n w r w' : trail first ps w -> call _ (Adapter p) w = (r, w') ->
  (ps ++ [p]) `prefix_of` plan first n -> (ps = [] -> r = first) ->
  stuck w' /\ match r with Ok _ => trail first (ps ++ [p]) w' | Err _ => True end.
Proof.
  intros (cs & m & Hc & Hok & Hp & _ & Hf) Hcall Hpre Hfirst. pose proof (call_calls _ (Adapter p) w) as Hcs.
  rewrite Hcall in Hcs. cbn [fst snd] in Hcs.
  assert (forall r0, (cs ++ [(p, r)]) !! 0%nat = Some (INSPECT, r0) -> r0 = first) as Hf'.
  { intros r0. destruct cs as [|c cs]; cbn; [|apply Hf]. intros [= -> ->]. by apply Hfirst. }
  split.
  - exists first, cs, [(p, r)], n. split_and!; [by rewrite Hcs, Hc, app_assoc|done|cbn; lia| |done].
    by rewrite fmap_app, Hp.
  - destruct r as [d|]; [|done]. exists (cs ++ [(p, Ok d)]), n. split_and!; [by rewrite Hcs, Hc, app_assoc| | |done|done].
    + apply Forall_app. split; [done|]. by constructor.
    + by rewrite fmap_app, Hp.
Qed.

Lemma live_quiet p : uses quiet (_ensure_lease_live p).
Proof. cbn. split; [done|]. by intros []. Qed.

Lemma act_step first ps p n w : trail first ps w ->
  (ps ++ [p]) `prefix_of` plan first n -> ps <> [] ->
  wp call in_order (act p) (fun r w' => match r with Ok _ => trail first (ps ++ [p]) w' | Err _ => stuck w' end) w.
Proof.
  intros Hw Hpre Hne. unfold act, await, perform. apply wp_then. cbn [wp]. split; [by eapply trail_in_order|].
  destruct (call _ (Adapter p) w) as [r w'] eqn:Hc.
  destruct (adapter_step _ _ _ _ _ _ _ Hw Hc Hpre) as [Hs Ht]; [done|]. split; [by apply stuck_in_order|].
  destruct r as [d|s]; [|done]. apply wp_then. eapply wp_conseq; [|apply quiet_trail; [apply live_quiet|done]].
  intros [u|s] w2 Hi Hw2; [by split|]. by eapply trail_stuck.
Qed.

Lemma stuck_calls w w' : calls w = calls w' -> stuck w -> stuck w'.
Proof. intros Hc (first & cs & final & n & H1 & Hrest). exists first, cs, final, n. by rewrite <- Hc. Qed.

Lemma quiet_stuck {A} (p : program sup_op A) w :
  uses quiet p -> stuck w -> wp call in_order p (fun _ => stuck) w.
Proof. intros Hq Hw. apply quiet_keeps; [apply stuck_calls|by apply stuck_in_order|done|done]. Qed.

Lemma act_then {B} first ps p n (k : data -> phased B) (Q : result (TransitionPhase * stop) B -> SupWorld -> Prop) w :
  trail first ps w -> (ps ++ [p]) `prefix_of` plan first n -> ps <> [] ->
  (forall d w', trail first (ps ++ [p]) w' -> wp call in_order (k d) Q w') -> (forall s w', stuck w' -> Q (Err s) w') ->
  wp call in_order (program_bind (fun r => match r with Ok a => k a | Err s => Ret (Err s) end) (step p (act p))) Q w.
Proof.
  intros Hw Hpre Hne Hk He. unfold step. apply wp_then, wp_at_phase.
  eapply wp_mono; [|by eapply act_step]. intros [d|s] w' Hw'; [by apply Hk|by apply He].
Qed.

Lemma quiet_then {S A B} first ps (p : program sup_op (result S A)) (k : A -> program sup_op (result S B))
    (Q : result S B -> SupWorld -> Prop) w :
  uses quiet p -> trail first ps w ->
  (forall a w', trail first ps w' -> wp call in_order (k a) Q w') -> (forall s w', stuck w' -> Q (Err s) w') ->
  wp call in_order (program_bind (fun r => match r with Ok a => k a | Err s => Ret (Err s) end) p) Q w.
Proof.
  intros Hq Hw Hk He. apply wp_then. eapply wp_mono; [|by apply quiet_trail].
  intros [a|s] w' Hw'; [by apply Hk|]. by eapply He, trail_stuck.
Qed.

Lemma wait_step first pre fuel deadline k w :
  (forall n, plan first n = pre ++ replicate n HEALTH) -> pre <> [] -> trail first (pre ++ replicate k HEALTH) w ->
  wp call in_order (wait_loop desired poll fuel deadline) (fun _ => stuck) w.
Proof.
  intros Hplan Hne. revert k w. induction fuel as [|fuel IH]; intros k w Hw.
  { cbn. split; [by eapply trail_in_order|by eapply trail_stuck]. }
  cbn [wait_loop]. unfold await, perform at 1. apply wp_then. cbn [wp]. split; [by eapply trail_in_order|].
  destruct (call _ (Adapter HEALTH) w) as [r w'] eqn:Hc.
  assert (pre ++ replicate (S k) HEALTH = (pre ++ replicate k HEALTH) ++ [HEALTH]) as Hk.
  { by rewrite replicate_S_end, app_assoc. }
  destruct (adapter_step _ _ _ (S k) _ _ _ Hw Hc) as [Hs Ht].
  { by rewrite Hplan, Hk. }
  { by destruct pre. }
  rewrite <- Hk in Ht. split; [by apply stuck_in_order|]. destruct r as [ev|s]; [|done].
  assert (forall {A} (s : stop) w', stuck w' -> wp call in_order (raises (A := A) s) (fun _ => stuck) w') as Hraise.
  { intros A s w2 Hw2. split; [by apply stuck_in_order|done]. }
  eapply quiet_then; [apply live_quiet|done| |done]. intros _ w2 Hw2.
  destruct (_observation_reached_desired ev desired); [by split; [eapply trail_in_order|eapply trail_stuck]|].
  destruct (String.eqb _ _); [by eapply Hraise, trail_stuck|].
  eapply quiet_then; [by cbn|done| |done]. intros now w3 Hw3.
  destruct (deadline - now <=? 0); [by eapply Hraise, trail_stuck|].
  eapply quiet_then; [by cbn|done| |done]. intros set w4 Hw4.
  eapply quiet_then; [by destruct set; [apply live_quiet|]|done| |done]. intros _ w5 Hw5. by eapply IH.
Qed.

Lemma step_quiet {A} p (o : sup_op (result stop A)) : quiet _ o -> uses quiet (step p (await o)).
Proof. intros Ho. split; [done|]. by intros []. Qed.

Definition up (d : RuntimeDesiredState) : list TransitionPhase :=
  match d with DesiredReady => [PREPARE; LOAD] | DesiredStopped => [STOP] end.
Definition down (observed : data) : list TransitionPhase := if reached_stopped observed then [] else [DRAIN; UNLOAD].

Lemma prefix_drop first ps ps' n : (ps ++ ps') `prefix_of` plan first n -> ps `prefix_of` plan first n.
Proof. intros Hp. etrans; [|exact Hp]. by eexists. Qed.

Lemma down_step first ps n observed l w : trail first ps w -> ps <> [] -> (ps ++ down observed) `prefix_of` plan first n ->
  wp call in_order (if reached_stopped observed then mret (M := phased) () else teardown l)
    (fun r w' => match r with Ok _ => trail first (ps ++ down observed) w' | Err _ => stuck w' end) w.
Proof.
  intros Hw Hne Hpre. unfold down in *. destruct (reached_stopped observed).
  { rewrite app_nil_r in *. split; [by eapply trail_in_order|done]. }
  change [DRAIN; UNLOAD] with ([DRAIN] ++ [UNLOAD]) in *. rewrite app_assoc in *. unfold teardown.
  eapply act_then; [done|by eapply prefix_drop|done| |done]. intros _ w3 Hw3.
  eapply quiet_then; [by apply step_quiet|done| |done]. intros _ w4 Hw4.
  eapply act_then; [done|done|by destruct ps| |done]. intros _ w5 Hw5.
  eapply wp_mono; [|apply quiet_trail; [by apply step_quiet|done]].
  intros [_|s] w6 Hw6; [done|exact (trail_stuck _ _ _ Hw6)].
Qed.

Lemma up_step d first ps n l w : trail first ps w -> ps <> [] -> (ps ++ up d) `prefix_of` plan first n ->
  wp call in_order (bring_up d l)
    (fun r w' => match r with Ok _ => trail first (ps ++ up d) w' | Err _ => stuck w' end) w.
Proof.
  intros Hw Hne Hpre. unfold up, bring_up in *. destruct d.
  - eapply act_then; [done|done|done| |done]. intros _ w3 Hw3. split; [by eapply trail_in_order|done].
  - rewrite (app_assoc ps [PREPARE] [LOAD] : ps ++ [PREPARE; LOAD] = _) in *.
    eapply act_then; [done|by eapply prefix_drop|done| |done]. intros _ w3 Hw3.
    eapply quiet_then; [by apply step_quiet|done| |done]. intros _ w4 Hw4.
    eapply act_then; [done|done|by destruct ps| |done]. intros _ w5 Hw5. split; [by eapply trail_in_order|done].
Qed.

Lemma inspect_step w : (forall first, trail first [] w) ->
  wp call in_order (act INSPECT) (fun r w' => match r with Ok obs => trail (Ok obs) [INSPECT] w' | Err _ => stuck w' end) w.
Proof.
  intros Hw. unfold act, await, perform. apply wp_then. cbn [wp].
  split; [by eapply trail_in_order, (Hw (Err OutOfFuel))|]. destruct (call _ (Adapter INSPECT) w) as [r w'] eqn:Hc.
  destruct (adapter_step r [] _ 0 _ _ _ (Hw r) Hc) as [Hs Ht]; [by eexists|done|]. split; [by apply stuck_in_order|].
  destruct r as [d|s]; [|done]. eapply quiet_then; [apply live_quiet|done| |done]. intros _ w2 Hw2.
  split; [by eapply trail_in_order|done].
Qed.

Lemma ready_step fuel first pre w : (forall n, plan first n = pre ++ replicate n HEALTH) -> pre <> [] -> trail first pre w ->
  wp call in_order (_wait_for_desired_observation desired timeout poll fuel) (fun _ => stuck) w.
Proof.
  intros Hplan Hne Hw. unfold _wait_for_desired_observation.
  destruct (timeout <=? 0); [by split; [eapply trail_in_order|eapply trail_stuck]|].
  destruct (poll <=? 0); [by split; [eapply trail_in_order|eapply trail_stuck]|].
  eapply quiet_then; [by cbn|done| |done]. intros now w1 Hw1. eapply (wait_step _ _ _ _ 0); [done|done|by rewrite app_nil_r].
Qed.

Lemma body_step fuel l w : (forall first, trail first [] w) ->
  wp call in_order (body desired timeout poll fuel l) (fun _ => stuck) w.
Proof.
  intros Hw. unfold body. apply wp_then.
  eapply (wp_mono _ _ _ (fun _ w' => forall first, trail first [] w')).
  2:{ apply quiet_keeps; [|by intros w1 Hw1; eapply trail_in_order, (Hw1 (Err OutOfFuel))|by apply step_quiet|done].
      intros w1 w2 Hc H12 first. by eapply trail_calls. }
  clear w Hw. intros [_|s] w Hw; [|by eapply trail_stuck, (Hw (Err OutOfFuel))].
  apply wp_then, wp_at_phase. eapply wp_mono; [|by apply inspect_step]. clear w Hw. intros [obs|s] w Hw; [|done].
  destruct (_observation_reached_desired obs desired) eqn:Hr.
  { eapply wp_mono; [|eapply (quiet_trail _ (Ok obs)); [|done]]; [|by apply step_quiet].
    intros r w' Hw'. exact (trail_stuck _ _ _ Hw'). }
  assert (forall n, plan (Ok obs) n = ([INSPECT] ++ down obs ++ up desired) ++ replicate n HEALTH) as Hplan.
  { intros n. unfold plan. rewrite Hr. cbn. by rewrite <- app_assoc. }
  eapply quiet_then; [by apply step_quiet|done| |done]. intros _ w1 Hw1.
  eapply quiet_then; [cbn; split; [done|by intros []]|done| |done]. intros _ w2 Hw2. apply wp_then.
  eapply wp_mono; [|eapply (down_step _ _ 0); [done|done|rewrite Hplan, <- !app_assoc; cbn; by eexists]].
  clear w w1 w2 Hw Hw1 Hw2. intros [_|s] w Hw; [|done]. apply wp_then.
  eapply wp_mono; [|eapply (up_step _ _ _ 0); [done|done|rewrite Hplan; cbn; by rewrite app_nil_r]].
  clear w Hw. intros [_|s] w Hw; [|done]. rewrite <- app_assoc in Hw. apply wp_then, wp_at_phase.
  eapply wp_mono; [|by eapply ready_step; [exact Hplan| |]].
  intros [ev|s] w2 Hw2; [|done]. by apply quiet_stuck; [apply step_quiet|].
Qed.

Lemma in_order_calls w w' : calls w = calls w' -> in_order w -> in_order w'.
Proof. intros Hc (cs & H1 & Hrest). exists cs. by rewrite <- Hc. Qed.

Lemma reconciled w r w' : stuck w -> call _ (Adapter RECONCILE) w = (r, w') -> in_order w'.
Proof.
  intros (first & cs & final & n & H1 & Hok & Hl & Hpre & Hf) Hcall.
  pose proof (call_calls _ (Adapter RECONCILE) w) as Hc. rewrite Hcall in Hc. cbn [fst snd] in Hc.
  exists (cs ++ final ++ [(RECONCILE, r)]). split; [by rewrite Hc, H1, <- !app_assoc|]. exists first, n. split.
  - exists cs, final, [(RECONCILE, r)]. split_and!; [done..|by right].
  - rewrite app_assoc. intros r'. destruct (cs ++ final) eqn:He; [done|]. by apply Hf.
Qed.

Lemma quiet_in_order {A} (p : program sup_op A) w :
  uses quiet p -> in_order w -> wp call in_order p (fun _ => in_order) w.
Proof. intros Hq Hw. apply quiet_keeps; [apply in_order_calls|done|done|done]. Qed.

Lemma recover_step l p s w : stuck w -> wp call in_order (recover_transition l p s) (fun _ => in_order) w.
Proof.
  intros Hw. pose proof (stuck_in_order _ Hw) as Hi. unfold recover_transition.
  destruct s as [t| |]; [| |by split]; cbn [wp]; (split; [done|]);
    destruct (call _ (Adapter RECONCILE) w) as [r w1] eqn:Hc; pose proof (reconciled _ _ _ Hw Hc) as Hi1;
    (apply quiet_in_order; [|done]); destruct r as [d|[| |]]; try exact I; (split; [exact I|]); by intros [|[| |]].
Qed.

Lemma transition_step fuel w : calls w = base -> wp call in_order (transition fuel) (fun _ => in_order) w.
Proof.
  intros Hw. assert (forall w', calls w' = base -> forall first, trail first [] w') as Ht.
  { intros w' Hw' first. exists [], 0%nat. rewrite app_nil_r. split_and!; [done|constructor|done|by eexists|done]. }
  assert (forall w', calls w' = base -> in_order w') as Hi by (intros w' Hw'; by eapply trail_in_order, (Ht w' Hw' (Err OutOfFuel))).
  unfold transition_runtime, await, perform. apply wp_then. cbn [wp]. split; [by apply Hi|].
  pose proof (call_calls _ SBegin w) as Hc. destruct (call _ SBegin w) as [r w1]. cbn [fst snd] in Hc.
  rewrite app_nil_r, Hw in Hc. split; [by apply Hi|]. destruct r as [[b l]|s]; [|by apply Hi]. apply wp_bind.
  eapply wp_conseq; [|apply body_step; by apply Ht]. intros r w2 Hi2 Hs. apply wp_bind.
  assert (forall r w', in_order w' -> wp call in_order (finally (A := RuntimeInstanceRecord) r) (fun _ => in_order) w') as Hf.
  { intros r' w' Hw'. apply quiet_in_order; [|done]. cbn. split; [done|]. intros _. split; [done|]. by intros []. }
  destruct r as [rec|[p s]]; [split; [done|by apply Hf]|].
  eapply wp_mono; [|by apply recover_step]. intros r' w' Hw'. by apply Hf.
Qed.

End Order.

(** C17. The adapter is called in order, also when the transition is cut short at
    any point by a fault, a cancellation or a crash: the calls made so far are
    a beginning of the plan that the first inspection sets (drain and unload
    unless it was stopped already; then prepare and load, or stop; then
    health checks; nothing after an inspection that reached the desired state),
    each made only after the one before it returned, and followed by at most
    one reconciliation. *)
Theorem adapter_calls_in_order n fuel w :
  exists cs, calls_of (log (run_upto call n (transition fuel) w)) = calls_of (log w) ++ cs /\ orderly cs.
Proof. by eapply (wp_sound _ (in_order (calls_of (log w)))), transition_step. Qed.

End Transition.
