(* ===== verification/RuntimeReadiness.v ===== *)
(** * RuntimeReadiness: the wait for readiness ends

    The fuel of [wait_loop] is only a bound on the model: over a clock that goes
    forward and waits that last, a transition with enough of it runs as with
    any more. *)

From S2P Require Import Prelude PyValue PyText Programs RuntimeContracts RuntimeState RuntimeSupervisor RuntimeTransition.

Lemma run_all_bind_ext {O : Type -> Type} {W A B} (handle : forall X, O X -> W -> X * W) (I : W -> Prop)
    (p : program O A) (k k' : A -> program O B) w :
  wp handle I p (fun a w' => run_all handle (k a) w' = run_all handle (k' a) w') w ->
  run_all handle (program_bind k p) w = run_all handle (program_bind k' p) w.
Proof.
  intros Hk. change (run_all handle (p ≫= k) w = run_all handle (p ≫= k') w). rewrite !run_all_bind.
  destruct (run_all handle p w) as [[a|t] w'] eqn:Hp; [|done]. exact (wp_result _ _ _ _ _ _ _ Hk Hp).
Qed.

Lemma run_all_bind_first {O : Type -> Type} {W A B} (handle : forall X, O X -> W -> X * W)
    (p p' : program O A) (k : A -> program O B) w :
  run_all handle p w = run_all handle p' w ->
  run_all handle (program_bind k p) w = run_all handle (program_bind k p') w.
Proof.
  intros Hp. change (run_all handle (p ≫= k) w = run_all handle (p' ≫= k) w). by rewrite !run_all_bind, Hp.
Qed.

Definition advances {E} (clock : E -> time) (lost : E -> bool) (e e' : E) : Prop :=
  clock e <= clock e' /\ (lost e = true -> lost e' = true).

(** A clock: it is read by [LoopTime], never runs backwards, and a wait that
    ends before the lease was lost lasts as long as it was asked to.  A lost
    lease stays lost. *)
Class Clocked (E : Type) `{Surroundings E} := {
  clock : E -> time;
  lost : E -> bool;
  others_later e : advances clock lost e (others e).2;
  instant_later e : advances clock lost e (instant e).2;
  fate_later e : advances clock lost e (fate e).2;
  respond_later X (o : sup_op X) e : advances clock lost e (respond X o e).2;
  reads_clock e : (respond _ LoopTime e).1 = clock e;
  tells_lost e : lost e = true -> (respond _ Lost e).1 = true;
  waits d e : 0 < d ->
    match respond _ (WaitLost d) e with
    | (Ok true, e') => lost e' = true
    | (Ok false, e') => clock e + d <= clock e'
    | (Err _, _) => True
    end }.

Section Readiness.
Context {E : Type} `{Surroundings E} `{!Clocked E}.
Variables (fingerprint : value -> string) (id name : string) (profile : data) (owner : string) (ttl : time).
Variables (desired : RuntimeDesiredState) (timeout poll : time).
Abbreviation SupWorld := (SupWorld E).
Abbreviation call := (call fingerprint id name profile owner ttl desired).
Abbreviation transition := (transition_runtime desired timeout poll).
Abbreviation now w := (clock (surroundings w)).
Abbreviation gone w := (lost (surroundings w)).

Definition after (w w' : SupWorld) : Prop := now w <= now w' /\ (gone w = true -> gone w' = true).

Lemma later_trans e1 e2 e3 : advances clock lost e1 e2 -> advances clock lost e2 e3 -> advances clock lost e1 e3.
Proof. intros [H1 H2] [H3 H4]. split; [lia|auto]. Qed.

Lemma interleave_after w : after w (interleave fingerprint w).
Proof. unfold interleave. pose proof (others_later (surroundings w)). by destruct (others _) as [ops e]. Qed.

Lemma own_after X (o : sup_op X) w : after w (own_call fingerprint id name profile owner ttl desired o w).2.
Proof.
  assert (forall Y (p : time -> store_op) (r : reply -> result stop Y), after w (store_call fingerprint p r w).2) as Hs.
  { intros Y p r. unfold store_call. pose proof (instant_later (surroundings w)) as Hi.
    destruct (instant _) as [t e1]. pose proof (fate_later e1) as Hf. destruct (fate e1) as [f e2].
    destruct (do_op _ _ _) as [a st]. pose proof (later_trans _ _ _ Hi Hf). by destruct f. }
  destruct o; cbn [own_call]; try apply Hs;
    match goal with |- context [respond _ ?o ?e] => pose proof (respond_later _ o e); by destruct (respond _ o e) end.
Qed.

Lemma call_after X (o : sup_op X) w : after w (call X o w).2.
Proof. eapply later_trans; [apply interleave_after|apply own_after]. Qed.

Lemma call_clock w : now w <= (call _ LoopTime w).1 <= now (call _ LoopTime w).2.
Proof.
  unfold RuntimeSupervisor.call. pose proof (interleave_after w) as [Hi _]. set (w1 := interleave fingerprint w) in *.
  cbn [own_call]. pose proof (reads_clock (surroundings w1)) as Hr.
  pose proof (respond_later _ LoopTime (surroundings w1)) as [Hl _]. destruct (respond _ _ _) as [t e]. cbn in *. lia.
Qed.

Lemma call_wait d w : 0 < d ->
  match call _ (WaitLost d) w with
  | (Ok true, w') => gone w' = true
  | (Ok false, w') => now w + d <= now w'
  | (Err _, _) => True
  end.
Proof.
  intros Hd. unfold RuntimeSupervisor.call. pose proof (interleave_after w) as [Hi _]. set (w1 := interleave fingerprint w) in *.
  cbn [own_call]. pose proof (waits d (surroundings w1) Hd) as Hw. destruct (respond _ _ _) as [[[|]|] e]; cbn in *; [done|lia|done].
Qed.

Lemma call_lost w : gone w = true -> (call _ Lost w).1 = true.
Proof.
  intros Hl. unfold RuntimeSupervisor.call. apply (interleave_after w) in Hl. set (w1 := interleave fingerprint w) in *.
  cbn [own_call]. pose proof (tells_lost (surroundings w1) Hl) as Ht. by destruct (respond _ _ _) as [b e].
Qed.

Lemma after_trans w1 w2 w3 : after w1 w2 -> after w2 w3 -> after w1 w3.
Proof. apply later_trans. Qed.

(** Two coroutines that differ from some point on only. *)
Lemma same_then {S A B} (p : program sup_op (result S A)) (k k' : A -> program sup_op (result S B)) w :
  (forall a w', after w w' -> run_all call (k a) w' = run_all call (k' a) w') ->
  run_all call (program_bind (fun r => match r with Ok a => k a | Err s => Ret (Err s) end) p) w
  = run_all call (program_bind (fun r => match r with Ok a => k' a | Err s => Ret (Err s) end) p) w.
Proof.
  intros Hk. apply (run_all_bind_ext _ (after w)). eapply wp_mono.
  2:{ apply wp_frame; [|by split]. intros X o w1 Hw1. eapply after_trans; [exact Hw1|apply call_after]. }
  intros [a|s] w' Hw'; [by apply Hk|done].
Qed.

(** Once the lease is gone, the check of it raises. *)
Lemma gone_stops {B} p (k k' : unit -> co B) (w : SupWorld) : gone w = true ->
  run_all call (_ensure_lease_live p ≫= k) w = run_all call (_ensure_lease_live p ≫= k') w.
Proof. intros Hg. cbn -[RuntimeSupervisor.call]. pose proof (call_lost w Hg) as Hl. destruct (call _ Lost w) as [b w']. cbn in Hl. by subst b. Qed.

(** A poll takes the whole interval, or reaches the deadline. *)
Lemma wait_loop_fuel fuel more deadline w : 0 < poll -> deadline <= now w + Z.of_nat fuel * poll ->
  run_all call (wait_loop desired poll (S fuel) deadline) w = run_all call (wait_loop desired poll (S fuel + more) deadline) w.
Proof.
  intros Hpoll. revert w. induction fuel as [|fuel IH]; intros w Hk;
    cbn [wait_loop Nat.add]; apply same_then; intros ev w1 [H1 _]; apply same_then; intros _ w2 [H2 _];
    (destruct (_observation_reached_desired ev desired); [done|]); (destruct (String.eqb _ _); [done|]);
    cbn -[RuntimeSupervisor.call]; pose proof (call_clock w2) as Ht; destruct (call _ LoopTime w2) as [t w3]; cbn [fst snd] in Ht.
  { assert ((deadline - t <=? 0) = true) as -> by lia. done. }
  destruct (deadline - t <=? 0) eqn:Hr; [done|]. apply Z.leb_gt in Hr.
  pose proof (call_wait (Z.min poll (deadline - t)) w3 ltac:(lia)) as Hw.
  cbn -[RuntimeSupervisor.call wait_loop]. destruct (call _ (WaitLost _) w3) as [[set|s] w4]; [|done].
  destruct set; [exact (gone_stops HEALTH _ _ _ Hw)|]. apply (IH w4). nia.
Qed.

Lemma ready_fuel fuel more w : timeout <= Z.of_nat fuel * poll ->
  run_all call (_wait_for_desired_observation desired timeout poll (S fuel)) w
  = run_all call (_wait_for_desired_observation desired timeout poll (S fuel + more)) w.
Proof.
  intros Hf. unfold _wait_for_desired_observation. destruct (timeout <=? 0); [done|]. destruct (poll <=? 0) eqn:Hp; [done|].
  apply Z.leb_gt in Hp. cbn -[wait_loop RuntimeSupervisor.call]. pose proof (call_clock w) as Ht. destruct (call _ LoopTime w) as [t w1]. cbn [fst snd] in Ht.
  apply wait_loop_fuel; lia.
Qed.

(** C22. The wait for readiness ends: over a clock that goes forward, a
    transition makes at most [timeout / poll] waits, rounded up: allowed that
    many, it runs exactly as when it is allowed any number more, whatever its
    adapter answers and the other actors do. *)
Theorem readiness_wait_ends fuel more w : timeout <= Z.of_nat fuel * poll ->
  run_all call (transition (S fuel)) w = run_all call (transition (S fuel + more)) w.
Proof.
  intros Hf. unfold transition_runtime. apply same_then. intros [b l] w1 _. apply run_all_bind_first. unfold body.
  apply same_then. intros _ w2 _. apply same_then. intros observed w3 _.
  destruct (_observation_reached_desired observed desired); [done|].
  do 4 (apply same_then; intros _ ? _). do 2 apply run_all_bind_first. by apply ready_fuel.
Qed.

End Readiness.
