(* ===== verification/RuntimeDemo.v ===== *)
(** * RuntimeDemo: the runtime theorems at concrete inputs

    One profile, observations of it, histories of the store and of its file,
    and runs of a transition, at which the theorems of [RuntimeFence],
    [RuntimeFile], [RuntimeTransition] and [RuntimeReadiness] apply; and some behaviours the code
    has that its comments and tests do not mention. *)

From S2P Require Import Prelude PyValue PyText Programs RuntimeContracts RuntimeState RuntimeFence RuntimeFile RuntimeSupervisor RuntimeTransition RuntimeReadiness.

(** The digest: any function will do for these inputs. *)
Definition demo_fingerprint (v : value) : string := "sha256:" +:+ py_repr v.

Definition demo_profile : data :=
  [("schema_version", PStr "runtime-profile.v1"); ("engine", PStr "llama.cpp"); ("adapter", PStr "host")].

Definition demo_observation (state : string) (up : bool) : data :=
  [("profile_name", PStr "gemma"); ("profile_fingerprint", PStr (demo_fingerprint (PDict demo_profile)));
   ("state", PStr state); ("process_generation", PInt 3); ("process_ready", PBool up); ("model_ready", PBool up);
   ("accepting", PBool up)].

Definition demo_begin (owner : string) (now : time) : store_op :=
  Begin "gpu0" "gemma" demo_profile owner "ready" (seconds 30) now.

Definition lease_a : RuntimeTransitionLease := mkLease "gpu0" "a" 1 (seconds 30).
Definition lease_b : RuntimeTransitionLease := mkLease "gpu0" "b" 2 (seconds 61).

Definition earned_history : list store_op :=
  [demo_begin "a" 0; Renew lease_a (seconds 30) (seconds 1);
   Publish lease_a demo_profile (demo_observation "ready" true) (seconds 2)].

(** Owner [b] takes the instance over when the lease of [a] expired: [a] can no
    longer publish that its process is ready. *)
Theorem runtime_fencing_witness :
  exists e, do_op demo_fingerprint (Publish lease_a demo_profile (demo_observation "ready" true) (seconds 32))
    (run demo_fingerprint [] (do_op demo_fingerprint (demo_begin "b" (seconds 31))
       (run demo_fingerprint [Renew lease_a (seconds 30) 0] (do_op demo_fingerprint (demo_begin "a" 0) ∅).2)).2)
    = (Refused e, run demo_fingerprint [] (do_op demo_fingerprint (demo_begin "b" (seconds 31))
       (run demo_fingerprint [Renew lease_a (seconds 30) 0] (do_op demo_fingerprint (demo_begin "a" 0) ∅).2)).2).
Proof.
  eapply (runtime_fencing demo_fingerprint "gpu0") with (l := lease_a); vm_compute; reflexivity.
Defined.

(** The instance of [earned_history] admits work. *)
Theorem admission_is_earned_witness :
  exists r : RuntimeInstanceRecord, run demo_fingerprint earned_history ∅ !! "gpu0" = Some r /\
    earned "gpu0" (history demo_fingerprint earned_history ∅) "gemma" (demo_fingerprint (PDict demo_profile))
      (process_generation r) /\ live r (seconds 3) = false.
Proof. apply (admission_is_earned demo_fingerprint). vm_compute; reflexivity. Defined.

(** The process restarts between the begin and the report; a report whose
    directory could not be synced is there after the next restart. *)
Theorem runtime_restart_resumes_witness :
  load (file (file_run demo_fingerprint
    ([FileOp (demo_begin "a" 0) Written; Restart]
     ++ [FileOp (Publish lease_a demo_profile (demo_observation "ready" true) (seconds 2)) Unsynced]) (mkFileStore ∅ None)))
  = Ok (memory (file_run demo_fingerprint
    ([FileOp (demo_begin "a" 0) Written; Restart]
     ++ [FileOp (Publish lease_a demo_profile (demo_observation "ready" true) (seconds 2)) Unsynced]) (mkFileStore ∅ None))).
Proof. apply (runtime_restart_resumes demo_fingerprint); [done|vm_compute; reflexivity]. Defined.

(** A world in which nobody else acts, nothing fails, the adapter answers from a
    list, and only waits take time. *)
Definition Calm : Type := time * list data.

#[export] Instance calm : Surroundings Calm := {
  others e := ([], e);
  instant e := (e.1, e);
  fate e := (Fine, e);
  respond X o e :=
    match o in sup_op X return X * Calm with
    | Adapter p => match e.2 with [] => (Err (Fault "no answer"), e) | d :: e' => (Ok d, (e.1, e')) end
    | Lost => (false, e)
    | LoopTime => (e.1, e)
    | WaitLost d => (Ok false, (e.1 + Z.max 0 d, e.2))
    | StopKeepalive => ((), e)
    | Bind _ _ | Clear | SRenew _ | SFail _ _ => (Ok (), e)
    | SBegin | SPublish _ _ => (Err Cancelled, e)
    end }.

#[export] Instance calm_clocked : Clocked Calm.
Proof.
  refine {| clock := fst; lost := fun _ => false |}; try done.
  - intros X o [t e]. destruct o as [| | | | |p| | |d| |]; cbn; try done; [by destruct e|]. split; [cbn; lia|done].
  - intros d [t e] Hd. cbn. lia.
Defined.

Definition demo_start (answers : list data) : SupWorld Calm := mkSupWorld ∅ [] (0, answers).

Definition demo_call : forall X, sup_op X -> SupWorld Calm -> X * SupWorld Calm :=
  call demo_fingerprint "gpu0" "gemma" demo_profile "a" (seconds 30) DesiredReady.

Definition demo_transition : co RuntimeInstanceRecord := transition_runtime DesiredReady (seconds 60) (seconds 1) 5.

(** Inspected as stopped, prepared, loaded, and ready at the second health
    check. *)
Definition demo_answers : list data :=
  [demo_observation "stopped" false; []; []; demo_observation "loading" false; demo_observation "ready" true].

Definition demo_record : RuntimeInstanceRecord :=
  mkRecord "gpu0" "gemma" (demo_fingerprint (PDict demo_profile)) DesiredReady READY 3 true true true None 1 0 (seconds 1) None.

Definition demo_end : SupWorld Calm := (run_all demo_call demo_transition (demo_start demo_answers)).2.

Theorem transition_completes_on_evidence_witness :
  exists before b l t during obs t' rest p,
    log demo_end = before ++ Own (Begin "gpu0" "gemma" demo_profile "a" "ready" (seconds 30) t) (Granted b l)
             :: during ++ Own (Publish l demo_profile obs t') (Recorded demo_record) :: rest /\
    no_grant "gpu0" during /\ (p = INSPECT \/ p = HEALTH) /\ Called p (Ok obs) ∈ during /\
    _observation_reached_desired obs DesiredReady = true /\
    state demo_record = READY /\ accepting demo_record = true /\ transition_owner demo_record = None.
Proof.
  apply (transition_completes_on_evidence demo_fingerprint "gpu0" "gemma" demo_profile "a" (seconds 30) DesiredReady
    (seconds 60) (seconds 1) 5 (demo_start demo_answers)).
  vm_compute; reflexivity.
Defined.

(** With a timeout of four seconds and an interval of one, four waits suffice:
    an engine that never gets ready is given up on. *)
Theorem readiness_wait_ends_witness :
  run_all demo_call (transition_runtime DesiredReady (seconds 4) (seconds 1) 5)
    (demo_start (demo_observation "stopped" false :: [] :: [] :: replicate 6 (demo_observation "loading" false)))
  = run_all demo_call (transition_runtime DesiredReady (seconds 4) (seconds 1) (5 + 3))
    (demo_start (demo_observation "stopped" false :: [] :: [] :: replicate 6 (demo_observation "loading" false))).
Proof.
  apply (readiness_wait_ends demo_fingerprint "gpu0" "gemma" demo_profile "a" (seconds 30) DesiredReady (seconds 4)
    (seconds 1) 4 3).
  vm_compute; discriminate.
Defined.

(** ** Behaviours *)

(** A report that could not be written raises, but stays: the process in which
    it failed admits work, the one that restarts from the file does not. *)
Example unwritten_report_admits :
  let s := file_run demo_fingerprint
    [FileOp (demo_begin "a" 0) Written; FileOp (Publish lease_a demo_profile (demo_observation "ready" true) 1) Unwritten]
    (mkFileStore ∅ None) in
  admission_errors demo_fingerprint (memory s) "gpu0" "gemma" demo_profile 2 = [] /\
  admission_errors demo_fingerprint (memory (file_step demo_fingerprint Restart s).2) "gpu0" "gemma" demo_profile 2 <> [].
Proof. vm_compute. split; [reflexivity|discriminate]. Qed.

(** A begin that could not be written raises, and its caller has no lease; yet
    nobody can begin the instance before that lease expires. *)
Example unwritten_begin_blocks :
  let s := file_run demo_fingerprint [FileOp (demo_begin "a" 0) Unwritten] (mkFileStore ∅ None) in
  (do_op demo_fingerprint (demo_begin "a" (seconds 29)) (memory s)).1
  = Refused (RuntimeConflict "runtime transition already owned").
Proof. vm_compute; reflexivity. Qed.

(** A list where a name is expected is not reported, it raises. *)
Example unhashable_state_raises :
  exists t, validate_runtime_observation demo_fingerprint "gemma" demo_profile [("state", PList [])] = Err t.
Proof. eexists. vm_compute; reflexivity. Qed.
