(* ===== verification/QueueRedis.v ===== *)
(** * QueueRedis: what the queue engine keeps in Redis

    The commands and scripts that [scripts/queue_engine.py] sends, each of which
    Redis runs as one step: streams of jobs and of dead letters, job hashes,
    idempotency markers, the job counter.  One stream with its consumer group
    is a parameter with laws ([QueueStream], [QueueStreamLaws]); the scripts
    are translated from their Lua text.  Keys of jobs and markers may carry an
    expiry; when a key expires is left to the environment. *)

From stdpp Require Import pretty.
From S2P Require Import Prelude PyValue PyText.

(** ** One stream *)

Abbreviation fields := (gmap string string) (only parsing).

(** An entry id: milliseconds and sequence number. *)
Abbreviation eid := (N * N)%type (only parsing).
Definition id_text (i : eid) : string := pretty i.1 +:+ "-" +:+ pretty i.2.

(** A stream and its consumer group, which the engine creates at the beginning
    of the stream, so that it makes no difference when.  [issued] are the ids it ever gave,
    [waiting] its entries that no consumer was given yet, [pel] who holds the
    others that were not acknowledged, [pending_rows] the same with idle
    milliseconds and deliveries; [lag] is how many wait, where the server can
    tell, and [entries_read] how many it ever gave to the group. *)
Class QueueStream (S : Type) := {
  fresh : S;
  parse_id : string -> option eid;
  issued : S -> list eid;
  items : S -> list (eid * fields);
  waiting : S -> list (eid * fields);
  pel : S -> list (eid * string);
  lag : S -> option Z;
  entries_read : S -> Z;
  pending_rows : S -> list (eid * string * Z * Z);
  x_add : S -> fields -> eid * S;
  x_read : S -> string -> nat -> list (eid * fields) * S;
  x_last : S -> string;
  x_after : S -> string -> option (eid * fields);
  x_range : S -> string -> list (eid * fields);
  x_claim : S -> string -> eid -> bool * S;
  x_ack : S -> eid -> S;
  x_del : S -> eid -> S;
  x_trim : S -> nat -> Z * S;
  x_trim_about : S -> nat -> S }.

(** The entries other than [i]. *)
Definition without (i : eid) (l : list (eid * fields)) : list (eid * fields) :=
  List.filter (fun x => negb (bool_decide (x.1 = i))) l.

(** What the commands do, as documented. *)
Class QueueStreamLaws (S : Type) `{QueueStream S} := {
  parse_id_text i : parse_id (id_text i) = Some i;
  items_fresh : items fresh = [];
  items_issued s x : x ∈ items s -> x.1 ∈ issued s;
  items_nodup s : NoDup (items s).*1;
  waiting_last s : exists given, items s = given ++ waiting s;
  x_add_new s d : (x_add s d).1 ∉ issued s;
  x_add_issued s d i : i ∈ issued (x_add s d).2 <-> i = (x_add s d).1 \/ i ∈ issued s;
  x_add_items s d : items (x_add s d).2 = items s ++ [((x_add s d).1, d)];
  x_add_waiting s d : waiting (x_add s d).2 = waiting s ++ [((x_add s d).1, d)];
  x_read_reply s c n : (0 < n)%nat -> (x_read s c n).1 = take n (waiting s);
  x_read_waiting s c n : (0 < n)%nat -> waiting (x_read s c n).2 = drop n (waiting s);
  x_read_items s c n : items (x_read s c n).2 = items s;
  x_read_issued s c n : issued (x_read s c n).2 = issued s;
  x_read_less s c n x : x ∈ waiting (x_read s c n).2 -> x ∈ waiting s;
  x_claim_waiting s c i x : x ∈ waiting (x_claim s c i).2 -> x ∈ waiting s;
  x_ack_waiting s i x : x ∈ waiting (x_ack s i) -> x ∈ waiting s;
  x_del_waiting s i x : x ∈ waiting (x_del s i) -> x ∈ waiting s;
  x_trim_waiting s n x : x ∈ waiting (x_trim s n).2 -> x ∈ waiting s;
  x_trim_about_waiting s n x : x ∈ waiting (x_trim_about s n) -> x ∈ waiting s;
  lag_waiting s n : lag s = Some n -> n = Z.of_nat (length (waiting s));
  x_last_text s : x_last s <> "";
  x_after_last s : x_after s (x_last s) = head (waiting s);
  x_range_id s i : x_range s (id_text i) = List.filter (fun x => bool_decide (x.1 = i)) (items s);
  x_claim_items s c i : items (x_claim s c i).2 = items s;
  x_claim_issued s c i : issued (x_claim s c i).2 = issued s;
  x_ack_items s i : items (x_ack s i) = items s;
  x_ack_issued s i : issued (x_ack s i) = issued s;
  x_del_items s i : items (x_del s i) = without i (items s);
  x_del_issued s i : issued (x_del s i) = issued s;
  x_trim_items s n : items (x_trim s n).2 = drop (length (items s) - n) (items s);
  x_trim_issued s n : issued (x_trim s n).2 = issued s;
  x_trim_count s n : (x_trim s n).1 = Z.of_nat (length (items s) - n);
  x_trim_about_items s n : exists m, (m <= length (items s) - n)%nat /\ items (x_trim_about s n) = drop m (items s);
  x_trim_about_issued s n : issued (x_trim_about s n) = issued s }.

(** ** The key space *)

(** The JSON object of [claim_idempotency]. *)
Record Marker := mkMarker { marker_job : string; marker_sha : string; marker_service : string; marker_group : string }.
#[export] Instance Marker_eq_dec : EqDecision Marker.
Proof. solve_decision. Defined.

Definition GROUP : string := "workers".
Definition EXACT_DEAD_LETTER_CAP : nat := 100.
Definition DEAD_LETTER_AUDIT_STREAM : string := "dead-letter:audit".
Definition DEAD_LETTER_METRICS_HASH : string := "dead-letter:metrics".
Definition HASH_PREFIX : string := "job:".
Definition IDEMPOTENCY_PREFIX : string := "job-idempotency:".

Definition is_terminal (status : option string) : bool :=
  match status with
  | Some s => String.eqb s "completed" || String.eqb s "failed" || String.eqb s "cancelled"
  | None => false
  end.

(** Streams, the metrics hash of dropped dead letters, job hashes, markers, the
    keys with an expiry, how often each watched key was written, the counter. *)
Record Redis (S : Type) := mkRedis {
  streams : gmap string S;
  dropped : gmap string Z;
  jobs : gmap string fields;
  markers : gmap string Marker;
  expiring : gset string;
  writes : gmap string Z;
  counter : option Z }.
Arguments mkRedis {S}.
Arguments streams {S}.
Arguments dropped {S}.
Arguments jobs {S}.
Arguments markers {S}.
Arguments expiring {S}.
Arguments writes {S}.
Arguments counter {S}.
#[export] Instance Redis_eta {S} : Replaceable (Redis S) := fun w =>
  mkRedis (streams w) (dropped w) (jobs w) (markers w) (expiring w) (writes w) (counter w).

Inductive KeyType := none_key | stream_key | hash_key.
#[export] Instance KeyType_eq_dec : EqDecision KeyType.
Proof. solve_decision. Defined.

(** ** Commands *)

Inductive CancelReply :=
  | NoEntry | EntryJobMismatch (job : string) | AlreadyTerminal (status : string) | NotQueued (status : string)
  | RemovedAndTerminalized.
#[export] Instance CancelReply_eq_dec : EqDecision CancelReply.
Proof. solve_decision. Defined.

Inductive cmd : Type -> Type :=
  (* streams *)
  | XGroupCreate (k : string) : cmd unit
  | XAdd (k : string) (d : fields) : cmd string
  | XReadGroup (consumer : string) (ks : list string) (count : nat) : cmd (list (string * list (eid * fields)))
  | XInfoLast (k : string) : cmd (option string)
  | XRead (k last : string) : cmd (option (eid * fields))
  | XRange (k id : string) : cmd (list (eid * fields))
  | XRangeAll (k : string) (count : nat) : cmd (list (eid * fields))
  | XLen (k : string) : cmd Z
  | XInfoLength (k : string) : cmd (option Z)
  | XAck (k id : string) : cmd unit
  | AckTx (k id : string) : cmd unit
  | ReplaceTx (k id : string) (d : fields) : cmd string
  | XClaim (consumer k id : string) : cmd bool
  | XTrim (k : string) (n : nat) : cmd unit
  | XTrimAbout (k : string) (n : nat) : cmd unit
  | DeadLetterTransfer (source dlq id service : string) (d : fields) : cmd (Z * Z)
  | DeadLetterPurge (dlq actor reason timestamp service : string) : cmd (Z * string)
  | HGetDropped (service : string) : cmd Z
  | XInfoGroup (k : string) : cmd (option (option Z * Z * Z))
  | XPending (k : string) (count : nat) : cmd (list (eid * string * Z * Z))
  | EnqueueTracked (key k : string) (payload record : fields) (sha prefix : string) : cmd string
  | CancelQueued (k key id job completed_at error source by_ : string) : cmd CancelReply
  (* jobs *)
  | Incr : cmd Z
  | WatchCounter : cmd (Z * Z)
  | ResetCounter (version : Z) : cmd bool
  | HSet (key : string) (d : fields) : cmd unit
  | Persist (key : string) : cmd unit
  | StatusTx (key : string) (d : fields) (terminal : bool) : cmd unit
  | HGet (key field : string) : cmd (option string)
  | MarkerTtl (key marker job : string) : cmd unit
  | Exists (key : string) : cmd bool
  | HeartbeatScript (key : string) (d : fields) : cmd bool
  | PreserveScript (key : string) : cmd Z
  | WatchStatus (key : string) : cmd (option string * Z)
  | IntentTx (key : string) (version : Z) : cmd bool
  | HGetAll (key : string) : cmd fields
  | Delete (key : string) : cmd unit
  | SetNx (key : string) (m : Marker) : cmd bool
  | Get (key : string) : cmd (option Marker).

Section Exec.
Context {S : Type} `{QueueStream S}.
Abbreviation Redis := (Redis S).

Definition stream_at (w : Redis) (k : string) : S := default fresh (streams w !! k).

Definition put_stream (k : string) (s : S) (w : Redis) : Redis := w ⟪ streams := <[k := s]> (streams w) ⟫.

Definition on_stream {X} (k : string) (f : S -> X * S) (w : Redis) : X * Redis :=
  let '(x, s) := f (stream_at w k) in (x, put_stream k s w).

(** A command that changes a stream only if there is one. *)
Definition change (k : string) (f : S -> S) (w : Redis) : Redis :=
  match streams w !! k with Some s => put_stream k (f s) w | None => w end.

(** [TYPE] *)
Definition type_of (w : Redis) (k : string) : KeyType :=
  match streams w !! k with
  | Some _ => stream_key
  | None =>
      if String.eqb k DEAD_LETTER_METRICS_HASH && negb (bool_decide (dropped w = ∅)) then hash_key else none_key
  end.

Definition invalid_id {X} (w : Redis) : result string X * Redis :=
  (Err "ERR Invalid stream ID specified as stream command argument", w).

Definition wrong_type {X} (w : Redis) : result string X * Redis :=
  (Err "WRONGTYPE Operation against a key holding the wrong kind of value", w).

Definition with_id {X} (id : string) (f : eid -> Redis -> result string X * Redis) (w : Redis) : result string X * Redis :=
  match parse_id id with Some i => f i w | None => invalid_id w end.

Definition add_text (s : S) (d : fields) : string * S := let '(i, s') := x_add s d in (id_text i, s').

(** XACK and XDEL of one entry. *)
Definition remove_entry (i : eid) (s : S) : S := x_del (x_ack s i) i.

(** [_DEAD_LETTER_TRANSFER_LUA]: the dead letter stays when the metrics cannot
    be read. *)
Definition dead_letter_transfer (source dlq : string) (i : eid) (service : string) (d : fields) (w : Redis)
    : result string (Z * Z) * Redis :=
  if negb (bool_decide (type_of w source = stream_key)) then (Err "source_not_stream", w)
  else if bool_decide (type_of w dlq = hash_key) then (Err "dlq_not_stream", w)
  else if bool_decide (type_of w DEAD_LETTER_METRICS_HASH = stream_key) then (Err "metrics_not_hash", w)
  else
    let w1 := (on_stream dlq (fun s => x_add s d) w).2 in
    let '(removed, w2) := on_stream dlq (fun s => x_trim s EXACT_DEAD_LETTER_CAP) w1 in
    if bool_decide (type_of w2 DEAD_LETTER_METRICS_HASH = stream_key) then wrong_type w2
    else
    let w3 := if 0 <? removed
              then w2 ⟪ dropped := <[service := default 0 (dropped w2 !! service) + removed]> (dropped w2) ⟫ else w2 in
    let total := default 0 (dropped w3 !! service) in
    (Ok (removed, total), change source (remove_entry i) w3).

Definition audit_record (actor reason timestamp : string) (count : Z) (service : string) : fields :=
  <["actor" := actor]> (<["reason" := reason]> (<["timestamp" := timestamp]> (<["count" := pretty count]>
    (<["service" := service]> {["cap" := pretty (Z.of_nat EXACT_DEAD_LETTER_CAP)]})))).

(** [_DEAD_LETTER_PURGE_LUA] *)
Definition dead_letter_purge (dlq actor reason timestamp service : string) (w : Redis) : result string (Z * string) * Redis :=
  if bool_decide (type_of w dlq = hash_key) then (Err "dlq_not_stream", w)
  else
    let count := Z.of_nat (length (items (stream_at w dlq))) in
    let '(audit_id, w1) :=
      on_stream DEAD_LETTER_AUDIT_STREAM (fun s => add_text s (audit_record actor reason timestamp count service)) w in
    (Ok (count, audit_id), w1 ⟪ streams := delete dlq (streams w1) ⟫).

(** ** Job hashes *)

Definition touch (key : string) (w : Redis) : Redis :=
  w ⟪ writes := <[key := default 0 (writes w !! key) + 1]> (writes w) ⟫.

Definition job_at (w : Redis) (key : string) : fields := default ∅ (jobs w !! key).
Definition status_at (w : Redis) (key : string) : option string := job_at w key !! "status".

Definition hset (key : string) (d : fields) (w : Redis) : Redis :=
  touch key (w ⟪ jobs := <[key := d ∪ job_at w key]> (jobs w) ⟫).

(** [EXPIRE] and [PERSIST] of an existing key. *)
Definition known (w : Redis) (key : string) : bool :=
  bool_decide (is_Some (jobs w !! key)) || bool_decide (is_Some (markers w !! key)).
Definition expire (key : string) (w : Redis) : Redis :=
  if known w key then w ⟪ expiring := {[key]} ∪ expiring w ⟫ else w.
Definition persist (key : string) (w : Redis) : Redis := w ⟪ expiring := expiring w ∖ {[key]} ⟫.

Definition job_id_of (d : fields) : option string := d !! "job_id".

(** The entry goes and the tracker becomes terminal. *)
Definition cancel_entry (k key : string) (i : eid) (completed_at error source by_ : string) (w : Redis)
    : result string CancelReply * Redis :=
  let record := <["status" := "cancelled"]> (<["completed_at" := completed_at]> (<["error" := error]>
    (<["cancelled_by" := by_]> (<["cancellation_audit_source" := source]> {["cancellation_at" := completed_at]})))) in
  (Ok RemovedAndTerminalized, expire key (hset key record (change k (remove_entry i) w))).

(** [_CANCEL_QUEUED_LUA] *)
Definition cancel_queued (k key id job completed_at error source by_ : string) : Redis -> result string CancelReply * Redis :=
  with_id id (fun i w =>
  match x_range (stream_at w k) id with
  | [] => (Ok NoEntry, w)
  | (_, d) :: _ =>
      if negb (bool_decide (job_id_of d = Some job)) then (Ok (EntryJobMismatch (default "" (job_id_of d))), w)
      else
        match status_at w key with
        | Some status =>
            if is_terminal (Some status) then (Ok (AlreadyTerminal status), w)
            else if negb (String.eqb status "queued") then (Ok (NotQueued status), w)
            else cancel_entry k key i completed_at error source by_ w
        | None => cancel_entry k key i completed_at error source by_ w
        end
  end).

(** The script of [enqueue] for a tracked child. *)
Definition enqueue_tracked (key k : string) (payload record : fields) (sha prefix : string) (w : Redis)
    : result string string * Redis :=
  match jobs w !! key with
  | Some job =>
      if negb (bool_decide (job !! "request_sha256" = Some sha)) then (Err "deterministic child identity conflict", w)
      else match job !! "entry_id" with
           | None => (Err "child outcome unknown: missing queue receipt", w)
           | Some prior => (Ok prior, w)
           end
  | None =>
      let '(entry, w1) := on_stream k (fun s => add_text s payload) w in
      let handle := prefix +:+ entry in
      (Ok handle, hset key {["entry_id" := handle]} (hset key record w1))
  end.

(** ** Reading for a group *)

Fixpoint read_group (consumer : string) (count : nat) (ks : list string) (w : Redis)
    : list (string * list (eid * fields)) * Redis :=
  match ks with
  | [] => ([], w)
  | k :: ks' =>
      let '(got, w1) := on_stream k (fun s => x_read s consumer count) w in
      let '(rest, w2) := read_group consumer count ks' w1 in
      (match got with [] => rest | _ => (k, got) :: rest end, w2)
  end.

Definition no_group {X} (w : Redis) : result string X * Redis :=
  (Err "NOGROUP No such key or consumer group", w).

Definition there (w : Redis) (k : string) : bool := bool_decide (is_Some (streams w !! k)).

Definition ok {X} (r : X * Redis) : result string X * Redis := (Ok r.1, r.2).

(** The scripts of [update_heartbeat], [update_status] and
    [preserve_unfinished_receipts]. *)
Definition heartbeat (key : string) (d : fields) (w : Redis) : bool * Redis :=
  match jobs w !! key with
  | None => (false, w)
  | Some _ =>
      let w1 := hset key d w in
      (true, if is_terminal (status_at w1 key) then expire key w1 else persist key w1)
  end.

Definition marker_ttl (key marker job : string) (w : Redis) : Redis :=
  match markers w !! marker with
  | None => w
  | Some m =>
      if negb (String.eqb (marker_job m) job) then w
      else if is_terminal (status_at w key) then expire marker w else persist marker w
  end.

Definition preserve (key : string) (w : Redis) : Z * Redis :=
  match jobs w !! key with
  | None => (0, w)
  | Some job =>
      match job !! "status" with
      | None => (0, w)
      | Some s =>
          if is_terminal (Some s) then (0, w)
          else
            let w1 := persist key w in
            ((if bool_decide (key ∈ expiring w) then 1 else 0),
             match job !! "idempotency_key_sha256" with
             | Some digest => persist (IDEMPOTENCY_PREFIX +:+ digest) w1
             | None => w1
             end)
      end
  end.

Definition reset_counter (version : Z) (w : Redis) : bool * Redis :=
  if default 0 (writes w !! "job_counter") =? version
  then (true, touch "job_counter" (w ⟪ counter := Some 1 ⟫)) else (false, w).

Definition intent (key : string) (version : Z) (w : Redis) : bool * Redis :=
  if default 0 (writes w !! key) =? version then (true, hset key {["cancellation_intent" := "1"]} w) else (false, w).

Definition incr (w : Redis) : Z * Redis :=
  let n := default 0 (counter w) + 1 in (n, touch "job_counter" (w ⟪ counter := Some n ⟫)).

Definition set_nx (key : string) (m : Marker) (w : Redis) : bool * Redis :=
  match markers w !! key with
  | Some _ => (false, w)
  | None => (true, w ⟪ markers := <[key := m]> (markers w) ⟫ ⟪ expiring := expiring w ∖ {[key]} ⟫)
  end.

(** A key that goes: deleted, or expired. *)
Definition forget (key : string) (w : Redis) : Redis :=
  touch key (w ⟪ jobs := delete key (jobs w) ⟫ ⟪ markers := delete key (markers w) ⟫
    ⟪ expiring := expiring w ∖ {[key]} ⟫).

Definition expired (key : string) (w : Redis) : Redis := if bool_decide (key ∈ expiring w) then forget key w else w.

(** The two pipelines in a transaction run to their end when a command in them
    fails.  A change of an expiry alone does not count as a write, so a
    transaction may be granted here that Redis refuses. *)
Definition exec {X} (c : cmd X) (w : Redis) : result string X * Redis :=
  match c in cmd X return result string X * Redis with
  | XGroupCreate k => (Ok (), put_stream k (stream_at w k) w)
  | XAdd k d => ok (on_stream k (fun s => add_text s d) w)
  | XReadGroup consumer ks count => if forallb (there w) ks then ok (read_group consumer count ks w) else no_group w
  | XInfoLast k => match streams w !! k with Some s => (Ok (Some (x_last s)), w) | None => (Err "ERR no such key", w) end
  | XRead k last => (Ok (streams w !! k ≫= fun s => x_after s last), w)
  | XRange k id => with_id id (fun _ w => (Ok (take 1 (x_range (stream_at w k) id)), w)) w
  | XRangeAll k count =>
      if bool_decide (type_of w k = hash_key) then wrong_type w else (Ok (take count (items (stream_at w k))), w)
  | XLen k => if bool_decide (type_of w k = hash_key) then wrong_type w else (Ok (Z.of_nat (length (items (stream_at w k)))), w)
  | XInfoLength k => (Ok ((fun s => Z.of_nat (length (items s))) <$> streams w !! k), w)
  | XAck k id => with_id id (fun i w => (Ok (), change k (fun s => x_ack s i) w)) w
  | AckTx k id =>
      let '(r, w1) := with_id id (fun i w => (Ok (), change k (remove_entry i) w)) w in (r, change k (fun s => (x_trim s 500).2) w1)
  | ReplaceTx k id d =>
      let '(r, w1) := with_id id (fun i w => (Ok (), change k (remove_entry i) w)) w in
      let '(t, w2) := on_stream k (fun s => let '(t, s') := add_text s d in (t, (x_trim s' 500).2)) w1 in
      (match r with Ok _ => Ok t | Err e => Err e end, w2)
  | XClaim consumer k id =>
      if there w k then with_id id (fun i w => ok (on_stream k (fun s => x_claim s consumer i) w)) w else no_group w
  | XTrim k n => (Ok (), change k (fun s => (x_trim s n).2) w)
  | XTrimAbout k n => (Ok (), change k (fun s => x_trim_about s n) w)
  | DeadLetterTransfer source dlq id service d =>
      with_id id (fun i w => dead_letter_transfer source dlq i service d w) w
  | DeadLetterPurge dlq actor reason timestamp service => dead_letter_purge dlq actor reason timestamp service w
  | HGetDropped service =>
      if bool_decide (type_of w DEAD_LETTER_METRICS_HASH = stream_key) then wrong_type w else (Ok (default 0 (dropped w !! service)), w)
  | XInfoGroup k =>
      (match streams w !! k with
       | Some s => Ok (Some (lag s, Z.of_nat (length (pel s)), entries_read s))
       | None => Err "ERR no such key"
       end, w)
  | XPending k count =>
      (match streams w !! k with
       | Some s => Ok (take count (pending_rows s))
       | None => Err "NOGROUP No such key or consumer group"
       end, w)
  | EnqueueTracked key k payload record sha prefix => enqueue_tracked key k payload record sha prefix w
  | CancelQueued k key id job completed_at error source by_ => cancel_queued k key id job completed_at error source by_ w
  | Incr => ok (incr w)
  | WatchCounter => (Ok (default 0 (counter w), default 0 (writes w !! "job_counter")), w)
  | ResetCounter version => ok (reset_counter version w)
  | HSet key d => (Ok (), hset key d w)
  | Persist key => (Ok (), persist key w)
  | StatusTx key d terminal => (Ok (), let w1 := hset key d w in if terminal : bool then expire key w1 else persist key w1)
  | HGet key field => (Ok (job_at w key !! field), w)
  | MarkerTtl key marker job => (Ok (), marker_ttl key marker job w)
  | Exists key => (Ok (bool_decide (is_Some (jobs w !! key))), w)
  | HeartbeatScript key d => ok (heartbeat key d w)
  | PreserveScript key => ok (preserve key w)
  | WatchStatus key => (Ok (status_at w key, default 0 (writes w !! key)), w)
  | IntentTx key version => ok (intent key version w)
  | HGetAll key => (Ok (job_at w key), w)
  | Delete key => (Ok (), forget key w)
  | SetNx key m => ok (set_nx key m w)
  | Get key => (Ok (markers w !! key), w)
  end.

(** ** Histories *)

(** What any number of processes send, in the order Redis runs it, and the
    expiry of keys. *)
Inductive event :=
  | Sent {X : Type} (c : cmd X)
  | Expired (key : string).

Definition happen (e : event) (w : Redis) : Redis :=
  match e with Sent c => (exec c w).2 | Expired key => expired key w end.

Definition history (es : list event) (w : Redis) : Redis := fold_left (fun w e => happen e w) es w.

Definition no_keys : Redis := mkRedis ∅ ∅ ∅ ∅ ∅ ∅ None.

End Exec.
