(* ===== verification/QueueEngine.v ===== *)
(** * QueueEngine: the job queue over Redis streams

    Models [RedisQueue] of [scripts/queue_engine.py] (and the two methods that
    only its asynchronous twin has) as programs over the commands of
    [QueueRedis]: handles and lanes, admission, claiming by priority and age,
    acknowledgement, requeue, dead letters, cancellation.  A command may raise
    [RedisError]; which methods catch it is part of the model. *)

From stdpp Require Import pretty.
From S2P Require Import Prelude PyValue PyText Programs Priority QueueRedis.

(** ** Programs *)

Inductive qerr := RedisErr (text : string) | ValueErr (text : string) | KeyErr (key : string) | RuntimeErr (text : string) | PriorityErr (e : PriorityError).

(** Commands and the process's own clocks. *)
Inductive qop : Type -> Type :=
  | Send {X} (c : cmd X) : qop (result string X)
  | NowIso : qop string
  | Clock : qop time.

Definition qm (A : Type) : Type := program qop (result qerr A).
#[export] Instance qm_ret : MRet qm := fun _ a => Ret (Ok a).
#[export] Instance qm_bind : MBind qm := fun A B k p =>
  program_bind (O := qop) (fun r : result qerr A => match r with Ok a => k a | Err e => Ret (Err e) end) p.

Definition send {X} (c : cmd X) : qm X :=
  Vis (Send c) (fun r => Ret (match r with Ok x => Ok x | Err t => Err (RedisErr t) end)).
Definition ask {X} (o : qop X) : qm X := Vis o (fun x => Ret (Ok x)).
Definition lift {A} (r : result qerr A) : qm A := Ret r.

(** [except redis.RedisError] *)
Definition except_redis {A} (p : qm A) (handler : string -> A) : qm A :=
  program_bind (fun r : result qerr A => Ret (match r with Err (RedisErr t) => Ok (handler t) | r' => r' end)) p.

(** [except Exception] *)
Definition except_any {A} (p : qm A) (d : A) : qm A :=
  program_bind (fun r : result qerr A => Ret (match r with Err _ => Ok d | r' => r' end)) p.

Fixpoint each {A} (f : A -> qm unit) (l : list A) : qm unit :=
  match l with [] => mret () | x :: l' => f x;; each f l' end.

(** ** Streams and handles *)

Definition PRIORITY_LANES : list string := ["interactive"; "normal"; "background"].
Definition _ENTRY_HANDLE_PREFIX : string := "lane:".

Definition lane_rank (lane : string) : option Z :=
  if String.eqb lane "interactive" then Some 0 else if String.eqb lane "normal" then Some 1
  else if String.eqb lane "background" then Some 2 else None.
Definition is_lane (lane : string) : bool := bool_decide (is_Some (lane_rank lane)).

Definition unknown_lane (lane : string) : qerr := ValueErr ("unknown priority lane: " +:+ py_repr_str lane).

Definition _priority_lane (contracted : data) : result qerr string :=
  let lane := py_lower (py_strip (py_str (value_or (dict_get_or contracted "priority_class" PNone) (PStr "normal")))) in
  guard (is_lane lane) (unknown_lane lane);; Ok lane.

(** A missing routing group is the empty text. *)
Definition _lane_stream_name (service group lane : string) : result qerr string :=
  let authority := py_or group service in
  guard (str_truthy authority) (ValueErr "queue lane requires service_name or routing_group");;
  guard (is_lane lane) (unknown_lane lane);;
  Ok ("queue:" +:+ authority +:+ ":lane:" +:+ lane).

Definition _legacy_stream_name (service group : string) : result qerr string :=
  let authority := py_or group service in
  guard (str_truthy authority) (ValueErr "queue stream requires service_name or routing_group");;
  Ok ("queue:" +:+ authority).

Definition _stream (service group : string) : result qerr string :=
  if str_truthy group then Ok ("queue:" +:+ group)
  else if str_truthy service then Ok ("queue:" +:+ service)
  else Err (ValueErr "queue_engine._stream requires service_name or routing_group").

Definition _entry_handle (lane id : string) : string := _ENTRY_HANDLE_PREFIX +:+ lane +:+ ":" +:+ id.

(** Stream, raw id and lane of a handle. *)
Definition _parse_entry_handle (handle service group : string) : result qerr (string * string * option string) :=
  let bad := ValueErr ("invalid priority queue entry handle: " +:+ py_repr_str handle) in
  if starts_with (chars _ENTRY_HANDLE_PREFIX) (chars handle) then
    let '(lane, rest) := span (fun c => negb (Ascii.eqb c (chr 58))) (drop 5 (chars handle)) in
    match rest with
    | [] => Err bad
    | _ :: raw =>
        guard (is_lane (of_chars lane) && str_truthy (of_chars raw)) bad;;
        stream ← _lane_stream_name service group (of_chars lane);
        Ok (stream, of_chars raw, Some (of_chars lane))
    end
  else stream ← _legacy_stream_name service group; Ok (stream, handle, None).

(** ** Priority and age *)

Section Queue.
Variable json_dumps : value -> string.
(** [priority_lanes_enabled] and the two bounds of ageing. *)
Variables (priority_lanes_enabled : bool) (priority_aging_interval : time) (priority_aging_cap : Z).

Definition aging_interval : time := Z.max (seconds 1) priority_aging_interval.
Definition aging_cap : Z := Z.max 0 priority_aging_cap.

Definition age_of (i : eid) (now : time) : time := Z.max 0 (now - Z.of_N i.1 * 1000).

(** [_priority_age_score] of an entry with a server's id, whose text starts with
    its milliseconds. *)
Definition _priority_age_score (lane : option string) (i : eid) (now : time) : Z * time * Z :=
  let rank := default 1 (lane ≫= lane_rank) in
  let age := age_of i now in
  (2 - rank + Z.min aging_cap (age / aging_interval), age, - Z.of_N i.1).

Definition score_leb (a b : Z * time * Z) : bool :=
  let '(a1, a2, a3) := a in let '(b1, b2, b3) := b in
  (a1 <? b1) || ((a1 =? b1) && ((a2 <? b2) || ((a2 =? b2) && (a3 <=? b3)))).

(** [max(candidates, key=...)]: the first of the greatest. *)
Fixpoint best {A} (l : list ((Z * time * Z) * A)) : option ((Z * time * Z) * A) :=
  match l with
  | [] => None
  | x :: l' => match best l' with Some y => if score_leb y.1 x.1 then Some x else Some y | None => Some x end
  end.

Definition _stream_specs (service group : string) : result qerr (list (string * option string)) :=
  legacy ← _stream service group;
  if priority_lanes_enabled then
    interactive ← _lane_stream_name service group "interactive";
    normal ← _lane_stream_name service group "normal";
    background ← _lane_stream_name service group "background";
    Ok [(interactive, Some "interactive"); (normal, Some "normal"); (background, Some "background"); (legacy, None)]
  else Ok [(legacy, None)].

Definition resolve_entry_stream (service handle group : string) : qm (string * string * option string) :=
  lift (_parse_entry_handle handle service group).

(** ** Admission *)

Definition _ensure_group (service group : string) : qm unit :=
  stream ← lift (_stream service group); send (XGroupCreate stream).

Definition field_text (v : value) : string :=
  match v with PList _ | PDict _ => json_dumps v | _ => py_str v end.

Definition to_payload (d : data) : fields := list_to_map (rev (map (fun i => (i.1, field_text i.2)) d)).

(** The values that are not [None], as texts. *)
Definition to_record (d : data) : fields :=
  list_to_map (rev (omap (fun i => match i.2 with PNone => None | v => Some (i.1, py_str v) end) d)).

Definition key_of (d : fields) (k : string) : result qerr string :=
  match d !! k with Some v => Ok v | None => Err (KeyErr k) end.

Definition contract (job_data : data) : result qerr data :=
  let convention :=
    match dict_get_or job_data "priority_convention" PNone with
    | PNone => PStr (if py_eq (dict_get_or job_data "routing_group_type" PNone) (PStr "generation")
                     then "generation_higher_is_urgent" else "legacy_lower_is_urgent")
    | c => c
    end in
  match apply_priority_contract job_data [] convention false with Ok d => Ok d | Err e => Err (PriorityErr e) end.

(** Stream, fields and handle prefix of a job. *)
Definition placement (service group lane : string) (contracted : data) : qm (string * data * string) :=
  legacy ← lift (_stream service group);
  if priority_lanes_enabled then
    stream ← lift (_lane_stream_name service group lane);
    now ← ask NowIso;
    mret (stream, dict_set (dict_setdefault contracted "enqueued_at" (PStr now)) "priority_lane" (PStr lane),
          _entry_handle lane "")
  else mret (legacy, contracted, "").

(** The entry, and with [tracked_job] its record. *)
Definition add_entry (stream prefix : string) (payload : fields) (tracked : option data) : qm (option string) :=
  match tracked with
  | Some job =>
      let record := to_record job in
      id ← lift (key_of record "job_id");
      sha ← lift (key_of record "request_sha256");
      handle ← send (EnqueueTracked (HASH_PREFIX +:+ id) stream payload record sha prefix);
      mret (Some handle)
  | None => entry ← send (XAdd stream payload); mret (Some (prefix +:+ entry))
  end.

Definition enqueue_try (service : string) (job_data : data) (group : string) (tracked : option data) : qm (option string) :=
  _ensure_group service group;;
  contracted ← lift (contract job_data);
  lane ← lift (_priority_lane contracted);
  '(stream, placed, prefix) ← placement service group lane contracted;
  add_entry stream prefix (to_payload placed) tracked.

(** [enqueue]; [None] when Redis failed. *)
Definition enqueue (service : string) (job_data : data) (group : string) (tracked : option data) : qm (option string) :=
  except_redis (enqueue_try service job_data group tracked) (fun _ => None).

(** ** Claiming *)

Fixpoint after_last (sep t : text) : option text :=
  match t with
  | [] => None
  | _ :: t' =>
      match after_last sep t' with
      | Some r => Some r
      | None => if starts_with sep t then Some (drop (length sep) t) else None
      end
  end.

Definition stream_lane (selected : option string) (stream : string) : option string :=
  match selected with Some l => Some l | None => of_chars <$> after_last (chars ":lane:") (chars stream) end.

Definition claimed_job (lane : option string) (e : eid * fields) : fields :=
  <["_entry_id" := match lane with
                   | Some l => if is_lane l then _entry_handle l (id_text e.1) else id_text e.1
                   | None => id_text e.1 end]> e.2.

Definition _decode_claimed_entries (streams : list (string * list (eid * fields))) (selected : option string) : list fields :=
  flat_map (fun i => map (claimed_job (stream_lane selected i.1)) i.2) streams.

(** The head of a stream, peeked at. *)
Definition look_at (stream : string) : qm (option (eid * fields)) :=
  last ← send (XInfoLast stream);
  send (XRead stream (match last with Some l => py_or l "0-0" | None => "0-0" end)).

(** A failure of Redis counts as none. *)
Definition peek (stream : string) : qm (option (eid * fields)) := except_redis (look_at stream) (fun _ => None).

Definition candidate : Type := ((Z * time * Z) * (string * option string)).

Section Claiming.
Variable look : string -> qm (option (eid * fields)).

Fixpoint candidates (now : time) (specs : list (string * option string)) : qm (list candidate) :=
  match specs with
  | [] => mret []
  | (stream, lane) :: specs' =>
      row ← look stream;
      rest ← candidates now specs';
      mret (match row with
            | Some e => (_priority_age_score lane e.1 now, (stream, lane)) :: rest
            | None => rest
            end)
  end.

Definition selected_lane (specs : list (string * option string)) : qm (option (string * option string)) :=
  if priority_lanes_enabled then
    now ← ask Clock;
    found ← candidates now specs;
    mret (snd <$> best found)
  else mret None.

Definition dequeue_try (service consumer : string) (count : nat) (group : string) : qm (list fields) :=
  specs ← lift (_stream_specs service group);
  each (fun s => send (XGroupCreate s.1)) specs;;
  chosen ← selected_lane specs;
  match chosen with
  | Some (stream, lane) =>
      claimed ← send (XReadGroup consumer [stream] count);
      mret (_decode_claimed_entries claimed lane)
  | None =>
      streams ← send (XReadGroup consumer specs.*1 count);
      mret (_decode_claimed_entries streams None)
  end.

End Claiming.

Definition dequeue (service consumer : string) (count : nat) (group : string) : qm (list fields) :=
  except_redis (dequeue_try peek service consumer count group) (fun _ => []).

(** ** Settling *)

Definition ack_try (service consumer handle group : string) : qm bool :=
  '(stream, raw, _) ← resolve_entry_stream service handle group;
  send (AckTx stream raw);; mret true.

Definition ack (service consumer handle group : string) : qm bool :=
  except_redis (ack_try service consumer handle group) (fun _ => false).

Definition counted (d : fields) (field : string) : result qerr Z :=
  let raw := default "" (d !! field) in
  if str_truthy raw then
    match int_of_str raw with
    | Some n => Ok (n + 1)
    | None => Err (ValueErr ("invalid literal for int() with base 10: " +:+ py_repr_str raw))
    end
  else Ok 1.

Definition _dead_letter_stream (service : string) : string := "dead-letter:" +:+ service.

Definition dead_letter (d : fields) (count : Z) (now : string) : fields :=
  <["_nack_count" := pretty count]> (<["_dead_letter_cap" := pretty (Z.of_nat EXACT_DEAD_LETTER_CAP)]>
    (<["_dead_letter_ts" := now]> d)).

Definition nack_try (service handle : string) (max_retries : Z) (group : string) : qm bool :=
  '(stream, raw, _) ← resolve_entry_stream service handle group;
  entries ← send (XRange stream raw);
  match entries with
  | [] => send (XAck stream raw);; mret true
  | (_, original) :: _ =>
      count ← lift (counted original "_nack_count");
      if max_retries <=? count then
        now ← ask NowIso;
        send (DeadLetterTransfer stream (_dead_letter_stream service) raw service (dead_letter original count now));;
        mret true
      else send (ReplaceTx stream raw (<["_nack_count" := pretty count]> original));; mret true
  end.

Definition nack (service handle : string) (max_retries : Z) (group : string) : qm bool :=
  except_redis (nack_try service handle max_retries group) (fun _ => false).

(** [AsyncRedisQueue.yield_pending]: here every exception is caught. *)
Definition yield_pending (service handle group : string) : qm bool :=
  except_any
    ('(stream, raw, _) ← resolve_entry_stream service handle group;
     entries ← send (XRange stream raw);
     match entries with
     | [] => send (XAck stream raw);; mret true
     | (_, original) :: _ =>
         count ← lift (counted original "_yield_count");
         send (ReplaceTx stream raw (<["_yield_count" := pretty count]> original));; mret true
     end) false.

(** [AsyncRedisQueue.renew_pending] *)
Definition renew_pending (service consumer handle group : string) : qm bool :=
  except_any ('(stream, raw, _) ← resolve_entry_stream service handle group; send (XClaim consumer stream raw)) false.

(** ** Cancellation *)

Inductive CancelOutcome :=
  | CancelError (text : string)
  | Cancelled (reply : CancelReply) (stream : string).

Definition cancel_queued_atomically (service group handle job error source by_ : string) : qm CancelOutcome :=
  if negb (str_truthy handle && str_truthy job) then mret (CancelError "missing required argument (entry_id / job_id)")
  else
    match _parse_entry_handle handle service group with
    | Err (ValueErr t) => mret (CancelError t)
    | Err e => lift (Err e)
    | Ok (stream, raw, _) =>
        now ← ask NowIso;
        except_redis
          (reply ← send (CancelQueued stream (HASH_PREFIX +:+ job) raw job now error source by_);
           mret (Cancelled reply stream))
          CancelError
    end.

(** ** Dead letters *)

Record DeadLetters := mkDeadLetters { available : bool; entries : list (eid * fields); total : Z; dropped_count : Z }.

Definition dead_letters_try (service : string) (count : nat) : qm DeadLetters :=
  raw ← send (XRangeAll (_dead_letter_stream service) count);
  n ← send (XLen (_dead_letter_stream service));
  d ← send (HGetDropped service);
  mret (mkDeadLetters true raw n d).

Definition outage : DeadLetters := mkDeadLetters false [] 0 0.

Definition get_dead_letters (service : string) (count : nat) : qm DeadLetters :=
  except_redis (dead_letters_try service count) (fun _ => outage).

Inductive PurgeResult := Unauthorized (why : string) | PurgeError | Purged (count : Z) (audit_id : string).

Definition purge_script (service actor reason now : string) : qm PurgeResult :=
  '(count, audit) ← send (DeadLetterPurge (_dead_letter_stream service) (py_strip actor) (py_strip reason) now service);
  mret (Purged count audit).

Definition purge_dead_letters (service actor reason : string) : qm PurgeResult :=
  if negb (str_truthy (py_strip actor)) then mret (Unauthorized "actor_required")
  else if negb (str_truthy (py_strip reason)) then mret (Unauthorized "reason_required")
  else now ← ask NowIso; except_redis (purge_script service actor reason now) (fun _ => PurgeError).

(** ** Maintenance *)

Fixpoint sum_over {A} (f : A -> qm Z) (l : list A) : qm Z :=
  match l with [] => mret 0 | x :: l' => n ← f x; m ← sum_over f l'; mret (n + m) end.

Definition purge_stream (stream : string) : qm Z :=
  length ← send (XInfoLength stream);
  match length with
  | None => mret 0
  | Some n => if 0 <? n then send (XTrim stream 0);; mret n else mret 0
  end.

Definition purge_try (service group : string) : qm Z :=
  specs ← lift (_stream_specs service group); sum_over purge_stream specs.*1.

Definition purge (service group : string) : qm Z := except_redis (purge_try service group) (fun _ => 0).

Definition cleanup_stream (max_entries : nat) (stream : string) : qm Z :=
  length ← send (XInfoLength stream);
  match length with
  | None => mret 0
  | Some before =>
      send (XTrimAbout stream max_entries);;
      after ← send (XInfoLength stream);
      mret (Z.max 0 (before - default 0 after))
  end.

Definition cleanup_try (service : string) (max_entries : nat) (group : string) : qm Z :=
  specs ← lift (_stream_specs service group); sum_over (cleanup_stream max_entries) specs.*1.

Definition cleanup (service : string) (max_entries : nat) (group : string) : qm Z :=
  except_redis (cleanup_try service max_entries group) (fun _ => 0).

End Queue.
