(* ===== verification/QueueJobs.v ===== *)
(** * QueueJobs: job identity and status

    Models [JobTracker] and [terminalize_if_impossible] of
    [scripts/queue_engine.py] over the commands of [QueueRedis]: job ids, the
    idempotency markers of admissions, the status hash of a job and when it may
    expire.  The listings that scan all job keys are left out; the scan of
    [preserve_unfinished_receipts] is an argument.  [_now_iso] is a clock. *)

From stdpp Require Import pretty.
From S2P Require Import Prelude PyValue PyText Programs QueueRedis QueueEngine.

Definition _key (job : string) : string := HASH_PREFIX +:+ job.

(** ** Ids *)

(** [f"J-{n:04d}"] *)
Definition job_name (n : Z) : string :=
  let digits := pretty n in "J-" +:+ String.concat "" (replicate (4 - String.length digits) "0") +:+ digits.

Definition next_job_id : qm (option string) :=
  except_redis
    (n ← send Incr;
     if 9999 <? n then
       '(current, version) ← send WatchCounter;
       if 9999 <? current then
         done ← send (ResetCounter version);
         if done : bool then mret (Some (job_name 1)) else lift (Err (RedisErr "Watched variable changed."))
       else mret (Some (job_name current))
     else mret (Some (job_name n)))
    (fun _ => None).

(** ** Admission keys *)

Section Jobs.
Variable sha256_hex : string -> string.

Definition _idempotency_key (key : string) : string := IDEMPOTENCY_PREFIX +:+ sha256_hex key.

Inductive Claim :=
  | Claimed (m : Marker) | Replay (m : Marker) | Conflict (error : string) | Unavailable (error : string).

Definition claim_check (key sha job : string) (ttl : Z) : result qerr unit :=
  guard (str_truthy (py_strip key)) (ValueErr "idempotency_key must be a non-empty string");;
  guard (bool_decide (String.length key <= 256)%nat) (ValueErr "idempotency_key exceeds 256 characters");;
  guard (bool_decide (String.length sha = 64%nat)) (ValueErr "request_sha256 must be a SHA-256 hex digest");;
  guard (str_truthy (py_strip job)) (ValueErr "job_id must be a non-empty string");;
  guard (0 <? ttl) (ValueErr "ttl_seconds must be positive").

Definition claim_of (sha : string) (existing : option Marker) : Claim :=
  match existing with
  | None => Unavailable "idempotency marker disappeared"
  | Some m =>
      if negb (String.eqb (marker_sha m) sha) then Conflict "idempotency_key_reused_for_different_request"
      else if str_truthy (marker_job m) then Replay m else Unavailable "idempotency marker missing job"
  end.

Definition claim_idempotency (key sha job service group : string) (ttl : Z) : qm Claim :=
  lift (claim_check key sha job ttl);;
  let m := mkMarker job sha service group in
  except_redis
    (won ← send (SetNx (_idempotency_key key) m);
     if won : bool then mret (Claimed m)
     else existing ← send (Get (_idempotency_key key)); mret (claim_of sha existing))
    (fun _ => Unavailable "idempotency store unavailable").

End Jobs.

(** ** Records *)

Definition terminal_status (s : string) : bool := is_terminal (Some s).

(** The optional arguments of [create_job], in the order it writes them: the
    first four with their own test, the others when they are not empty. *)
Record JobOptions := mkJobOptions {
  priority : option Z; priority_class : option string; broker_priority : option Z; priority_convention : option string;
  priority_source : option string; idempotency_key_sha256 : option string; request_sha256 : option string;
  parent_job_id : string; service_revision : option string; service_revision_fingerprint : option string;
  workflow_revision : option string; workflow_fingerprint : option string }.

Definition given (field : string) (v : option string) : list (string * string) :=
  match v with Some s => if str_truthy s then [(field, s)] else [] | None => [] end.

Definition new_job (job service source prompt : string) (max_tokens : Z) (group now : string) (o : JobOptions) : fields :=
  list_to_map (rev
    ([("job_id", job); ("service_name", service); ("routing_group", group); ("status", "queued"); ("source", source);
      ("submitted_at", now); ("started_at", ""); ("completed_at", ""); ("assigned_slot", "");
      ("prompt_preview", str_take 200 prompt); ("max_tokens", pretty max_tokens); ("result", ""); ("error", "");
      ("position", "")]
     ++ given "priority" (pretty <$> priority o) ++ given "priority_class" (priority_class o)
     ++ given "broker_priority" (pretty <$> broker_priority o) ++ given "priority_convention" (priority_convention o)
     ++ given "priority_source" (priority_source o) ++ given "idempotency_key_sha256" (idempotency_key_sha256 o)
     ++ given "request_sha256" (request_sha256 o) ++ given "parent_job_id" (Some (parent_job_id o))
     ++ given "service_revision" (service_revision o)
     ++ given "service_revision_fingerprint" (service_revision_fingerprint o)
     ++ given "workflow_revision" (workflow_revision o) ++ given "workflow_fingerprint" (workflow_fingerprint o))).

Definition create_job (job service source prompt : string) (max_tokens : Z) (group : string) (o : JobOptions)
    : qm (option fields) :=
  now ← ask NowIso;
  let record := new_job job service source prompt max_tokens group now o in
  except_redis (send (HSet (_key job) record);; send (Persist (_key job));; mret (Some record)) (fun _ => None).

(** The fields that a status brings with it. *)
Definition status_fields (status now : string) : fields :=
  if terminal_status status then <["status" := status]> {["completed_at" := now]}
  else if String.eqb status "in_flight" then
    <["status" := status]> (<["started_at" := now]> (<["completed_at" := ""]> (<["error" := ""]> {["result" := ""]})))
  else {["status" := status]}.

Definition update_status (job status : string) (kwargs : data) : qm bool :=
  except_redis
    (now ← (if terminal_status status || String.eqb status "in_flight" then ask NowIso else mret "");
     send (StatusTx (_key job) (to_record kwargs ∪ status_fields status now) (terminal_status status));;
     digest ← send (HGet (_key job) "idempotency_key_sha256");
     match digest with
     | Some d => if str_truthy d then send (MarkerTtl (_key job) (IDEMPOTENCY_PREFIX +:+ d) job);; mret true else mret true
     | None => mret true
     end)
    (fun _ => false).

Definition update_fields (job : string) (updates : data) : qm bool :=
  except_redis
    (let d := to_record updates in
     if bool_decide (d = ∅) then mret true
     else
       there ← send (Exists (_key job));
       if there : bool then send (HSet (_key job) d);; mret true else mret false)
    (fun _ => false).

Definition update_heartbeat (job : string) (updates : data) : qm bool :=
  except_redis
    (let d := to_record updates in
     if bool_decide (d = ∅) then mret true else send (HeartbeatScript (_key job) d))
    (fun _ => false).

(** [updated] and the status that was seen. *)
Fixpoint mark_attempts (attempts : nat) (key : string) : qm (bool * string) :=
  match attempts with
  | O => mret (false, "conflict")
  | S n =>
      '(status, version) ← send (WatchStatus key);
      match status with
      | None => mret (false, "missing")
      | Some s =>
          if negb (str_truthy s) then mret (false, "missing")
          else if negb (String.eqb s "in_flight") then mret (false, s)
          else
            done ← send (IntentTx key version);
            if done : bool then mret (true, "in_flight") else mark_attempts n key
      end
  end.

Definition mark_cancellation_intent_if_in_flight (job : string) : qm (bool * string) :=
  except_redis (mark_attempts 3 (_key job)) (fun _ => (false, "error")).

Definition get_job (job : string) : qm (option fields) :=
  except_redis (d ← send (HGetAll (_key job)); mret (if bool_decide (d = ∅) then None else Some d)) (fun _ => None).

Definition delete_job (job : string) : qm bool := except_redis (send (Delete (_key job));; mret true) (fun _ => false).

(** Over the keys the scan answers. *)
Definition preserve_unfinished_receipts (keys : list string) (limit : nat) : qm Z :=
  sum_over (fun key => send (PreserveScript key)) (take limit keys).

(** ** Jobs that cannot go on *)

Inductive Terminalize := Noop (reason : string) | NotStored | Terminalized.

Definition terminalize_if_impossible (job : string) (has_pel has_entry running force : bool) : qm Terminalize :=
  found ← get_job job;
  match found with
  | None => mret (Noop "job_not_found")
  | Some d =>
      if negb (bool_decide (d !! "status" = Some "in_flight")) then
        mret (Noop ("status=" +:+ match d !! "status" with Some s => py_repr_str s | None => "None" end))
      else if negb force then mret (Noop "force flag not set")
      else if running then mret (Noop "service_running")
      else if has_pel then mret (Noop "stream_has_pel")
      else if has_entry then mret (Noop "stream_has_entry")
      else
        done ← update_status job "cancelled"
          [("error", PStr "terminalize_if_impossible: no PEL, no stream entry, service stopped")];
        mret (if done : bool then Terminalized else NotStored)
  end.
