(* ===== verification/QueueSends.v ===== *)
(** * QueueSends: which keys the queue engine touches

    Every method of [QueueEngine] and [QueueJobs] gives its commands only keys
    of the right kind ([sendable]): queue streams, job hashes, markers, and the
    dead-letter stream of the service.  The theorems of [QueueSafety] are about
    histories of such commands. *)

From stdpp Require Import pretty.
From S2P Require Import Prelude PyValue PyText Programs Priority QueueRedis QueueEngine QueueJobs.

(** ** Which commands are sent *)

Definition queue_key (k : string) : Prop := exists a, k = "queue:" +:+ a.
Definition job_key (k : string) : Prop := exists a, k = HASH_PREFIX +:+ a.
Definition marker_key (k : string) : Prop := exists a, k = IDEMPOTENCY_PREFIX +:+ a.

(** The keys the methods give to their commands. *)
Definition sendable {X} (c : cmd X) : Prop :=
  match c with
  | XGroupCreate k | XAdd k _ | XInfoLast k | XRead k _ | XRange k _ | XInfoLength k | XAck k _ | AckTx k _
  | ReplaceTx k _ _ | XPending k _ | XClaim _ k _ | XTrim k _ | XTrimAbout k _ => queue_key k
  | XReadGroup _ ks _ => Forall queue_key ks
  | XRangeAll _ _ | XLen _ | HGetDropped _ | XInfoGroup _ | Incr | WatchCounter | ResetCounter _ => True
  | DeadLetterTransfer source dlq _ service _ => queue_key source /\ dlq = _dead_letter_stream service
  | DeadLetterPurge dlq _ _ _ service => dlq = _dead_letter_stream service
  | EnqueueTracked key k _ _ _ _ | CancelQueued k key _ _ _ _ _ _ => job_key key /\ queue_key k
  | HSet key _ | Persist key | StatusTx key _ _ | HGet key _ | Exists key | HeartbeatScript key _ | PreserveScript key
  | WatchStatus key | IntentTx key _ | HGetAll key | Delete key => job_key key
  | MarkerTtl key marker job => key = _key job /\ marker_key marker
  | SetNx key _ | Get key => marker_key key
  end.

Definition sends (X : Type) (o : qop X) : Prop := match o with Send c => sendable c | _ => True end.

Lemma uses_then {A B} (p : qm A) (k : A -> qm B) :
  uses sends p -> (forall a, uses sends (k a)) -> uses sends (p ≫= k).
Proof. intros Hp Hk. apply (uses_bind sends); [done|]. by intros []. Qed.

Lemma uses_caught {A B} (p : qm A) (f : result qerr A -> result qerr B) :
  uses sends p -> uses sends (program_bind (fun r => Ret (f r)) p).
Proof. intros Hp. by apply (uses_bind sends). Qed.

Lemma uses_lift {A B} (r : result qerr A) (k : A -> qm B) :
  (forall a, r = Ok a -> uses sends (k a)) -> uses sends (lift r ≫= k).
Proof. intros Hk. destruct r; [by apply Hk|done]. Qed.

Lemma queue_key_intro a : queue_key ("queue:" +:+ a).
Proof. by exists a. Qed.

Lemma lane_stream_key service group lane k : _lane_stream_name service group lane = Ok k -> queue_key k.
Proof. unfold _lane_stream_name. intros H. inv_ok. simplify_eq. apply queue_key_intro. Qed.

Lemma legacy_stream_key service group k : _legacy_stream_name service group = Ok k -> queue_key k.
Proof. unfold _legacy_stream_name. intros H. inv_ok. simplify_eq. apply queue_key_intro. Qed.

Lemma stream_key_of service group k : _stream service group = Ok k -> queue_key k.
Proof. unfold _stream. repeat case_match; intros; simplify_eq; apply queue_key_intro. Qed.

Lemma handle_key handle service group k raw lane :
  _parse_entry_handle handle service group = Ok (k, raw, lane) -> queue_key k.
Proof.
  unfold _parse_entry_handle. destruct (starts_with _ _).
  - destruct (span _ _) as [l [|c rest]]; [done|]. intros H. inv_ok. simplify_eq. by eapply lane_stream_key.
  - intros H. inv_ok. simplify_eq. by eapply legacy_stream_key.
Qed.

Lemma specs_keys lanes service group specs : _stream_specs lanes service group = Ok specs -> Forall queue_key specs.*1.
Proof.
  unfold _stream_specs. intros H. inv_ok. destruct lanes; inv_ok; simplify_eq; cbn; repeat apply Forall_cons_2;
    try apply Forall_nil_2; first [eapply stream_key_of; eassumption|eapply lane_stream_key; eassumption].
Qed.

Lemma uses_each {A} (f : A -> qm unit) l : (forall x, x ∈ l -> uses sends (f x)) -> uses sends (each f l).
Proof.
  induction l as [|x l IH]; intros Hf; [done|]. apply uses_then; [apply Hf; left|]. intros _. apply IH.
  intros y Hy. apply Hf. by right.
Qed.

Lemma uses_sum {A} (f : A -> qm Z) l : (forall x, x ∈ l -> uses sends (f x)) -> uses sends (sum_over f l).
Proof.
  induction l as [|x l IH]; intros Hf; [done|]. apply uses_then; [apply Hf; left|]. intros n.
  apply uses_then; [|done]. apply IH. intros y Hy. apply Hf. by right.
Qed.

Lemma uses_resolve {B} service handle group (k : string * string * option string -> qm B) :
  (forall stream raw lane, queue_key stream -> uses sends (k (stream, raw, lane))) ->
  uses sends (resolve_entry_stream service handle group ≫= k).
Proof. intros Hk. apply uses_lift. intros [[stream raw] lane] H. by eapply Hk, handle_key. Qed.

Lemma send_sends {X} (c : cmd X) : sendable c -> uses sends (send c).
Proof. intros Hc. split; [done|]. by intros []. Qed.

Lemma send_then {X B} (c : cmd X) (k : X -> qm B) :
  sendable c -> (forall x, uses sends (k x)) -> uses sends (send c ≫= k).
Proof. intros Hc Hk. apply uses_then; [by apply send_sends|done]. Qed.

Lemma ask_then {X B} (o : qop X) (k : X -> qm B) : sends _ o -> (forall x, uses sends (k x)) -> uses sends (ask o ≫= k).
Proof. intros Ho Hk. apply uses_then; [by split|done]. Qed.

Lemma enqueue_sends dumps lanes service job group tracked : uses sends (enqueue dumps lanes service job group tracked).
Proof.
  apply uses_caught. unfold _ensure_group. apply uses_then.
  { apply uses_lift. intros k Hk. by apply send_sends, (stream_key_of _ _ _ Hk). }
  intros _. apply uses_lift. intros contracted _. apply uses_lift. intros lane _.
  assert (forall stream d prefix, queue_key stream -> uses sends (add_entry stream prefix d tracked)) as Htail.
  { intros stream d prefix Hs. unfold add_entry. destruct tracked as [j|]; [|by apply send_then].
    apply uses_lift. intros id _. apply uses_lift. intros sha _. apply send_then; [|done]. split; [by exists id|done]. }
  unfold placement. destruct (_stream service group) as [legacy|] eqn:Hl; [|done]. apply stream_key_of in Hl.
  destruct lanes; [|by apply Htail]. destruct (_lane_stream_name service group lane) as [stream|] eqn:Hk; [|done].
  split; [done|]. intros now. apply Htail. by eapply lane_stream_key.
Qed.

(** What a program can return. *)
Fixpoint gives {A} (Q : A -> Prop) (p : program qop A) : Prop :=
  match p with Ret a => Q a | Raise _ => True | Vis _ k => forall x, gives Q (k x) end.

Lemma gives_bind {A B} (Q : A -> Prop) (R : B -> Prop) (p : program qop A) (k : A -> program qop B) :
  gives Q p -> (forall a, Q a -> gives R (k a)) -> gives R (program_bind k p).
Proof. intros Hp Hk. induction p as [a|t|X o c IH]; cbn in *; auto. Qed.

Lemma uses_gives {A B} (Q : A -> Prop) (p : program qop A) (k : A -> program qop B) :
  uses sends p -> gives Q p -> (forall a, Q a -> uses sends (k a)) -> uses sends (program_bind k p).
Proof. intros Hp Hg Hk. induction p as [a|t|X o c IH]; cbn in *; [auto|done|]. destruct Hp. split; auto. Qed.

Lemma look_sends k : queue_key k -> uses sends (look_at k).
Proof. intros Hk. by apply send_then; [|intros last; apply send_sends]. Qed.

Lemma peek_sends k : queue_key k -> uses sends (peek k).
Proof. intros Hk. by apply uses_caught, look_sends. Qed.

Section Looking.
Variable look : string -> qm (option (eid * fields)).
Hypothesis Hlook : forall k, queue_key k -> uses sends (look k).

Lemma candidates_sends interval cap now specs :
  Forall queue_key specs.*1 -> uses sends (candidates interval cap look now specs).
Proof.
  induction specs as [|[stream lane] specs IH]; intros H; [done|]. inversion_clear H.
  apply uses_then; [by apply Hlook|]. intros row. by apply uses_then; [apply IH|].
Qed.

Definition from (specs : list (string * option string)) (r : result qerr (list candidate)) : Prop :=
  match r with Ok l => forall c, c ∈ l -> c.2 ∈ specs | Err _ => True end.

Lemma gives_any {A} (p : program qop A) : gives (fun _ => True) p.
Proof. induction p; cbn; auto. Qed.

Lemma candidates_from interval cap now specs : gives (from specs) (candidates interval cap look now specs).
Proof.
  induction specs as [|[stream lane] specs IH]; [by intros c Hc%elem_of_nil|].
  apply (gives_bind (fun _ => True)); [apply gives_any|].
  intros [row|e] _; [|done]. eapply gives_bind; [exact IH|]. intros [rest|e] Hr; [|done]. cbn in *.
  destruct row as [e|]; cbn; intros c Hc; [|by right; apply Hr]. apply elem_of_cons in Hc as [->|Hc]; [left|right; auto].
Qed.

Lemma best_in {A} (l : list ((Z * time * Z) * A)) x : best l = Some x -> x ∈ l.
Proof.
  revert x. induction l as [|y l IH]; intros x; [done|]. cbn. destruct (best l) as [z|]; [|intros [= ->]; left].
  destruct (score_leb _ _); intros [= ->]; [left|right; by apply IH].
Qed.

Lemma selected_sends lanes interval cap specs : Forall queue_key specs.*1 ->
  uses sends (selected_lane lanes interval cap look specs) /\
  gives (fun r => forall s, r = Ok (Some s) -> s ∈ specs) (selected_lane lanes interval cap look specs).
Proof.
  intros Hs. unfold selected_lane. destruct lanes; [|split; [done|by intros s [=]]]. split.
  - apply ask_then; [done|]. intros now. apply uses_then; [by apply candidates_sends|done].
  - cbn. intros now. eapply gives_bind; [apply candidates_from|]. intros [found|e] Hf; cbn; [|done].
    intros s [= Hb]. apply fmap_Some in Hb as (c & Hc & ->). by apply Hf, best_in.
Qed.

Lemma dequeue_try_sends lanes interval cap service consumer count group :
  uses sends (dequeue_try lanes interval cap look service consumer count group).
Proof.
  apply uses_lift. intros specs Hs. apply specs_keys in Hs. apply uses_then.
  { apply uses_each. intros s Hin. apply send_sends. rewrite Forall_forall in Hs. by apply Hs, list_elem_of_fmap_2. }
  intros _. destruct (selected_sends lanes interval cap specs Hs) as [Hu Hg]. eapply uses_gives; [done|exact Hg|].
  intros [[[stream lane]|]|e] Hin; [| |done]; apply send_then; try done; cbn.
  constructor; [|done]. rewrite Forall_forall in Hs. apply Hs. apply (list_elem_of_fmap_2 fst specs (stream, lane)). by apply Hin.
Qed.

End Looking.

Lemma dequeue_sends lanes interval cap service consumer count group :
  uses sends (dequeue lanes interval cap service consumer count group).
Proof. apply uses_caught, dequeue_try_sends, peek_sends. Qed.

(** The methods that work on a handle. *)
Lemma settle_sends service consumer handle group max :
  uses sends (ack service consumer handle group) /\ uses sends (nack service handle max group) /\
  uses sends (yield_pending service handle group) /\ uses sends (renew_pending service consumer handle group).
Proof.
  split_and!; apply uses_caught; apply uses_resolve; intros stream raw lane Hs; [by apply send_then| | |by apply send_sends].
  - apply send_then; [done|]. intros [|[i d] l]; [by apply send_then|]. apply uses_lift. intros n _.
    destruct (max <=? n); [|by apply send_then]. apply ask_then; [done|]. intros now. by apply send_then.
  - apply send_then; [done|]. intros [|[i d] l]; [by apply send_then|]. apply uses_lift. intros n _. by apply send_then.
Qed.

Lemma cancel_sends service group handle job error source by_ :
  uses sends (cancel_queued_atomically service group handle job error source by_).
Proof.
  unfold cancel_queued_atomically. destruct (negb _); [done|].
  destruct (_parse_entry_handle handle service group) as [[[stream raw] lane]|[]] eqn:Hp; [|done..].
  apply handle_key in Hp. apply ask_then; [done|]. intros now. apply uses_caught, send_then; [|done].
  split; [by exists job|done].
Qed.

Lemma dead_letter_sends service actor reason count :
  uses sends (get_dead_letters service count) /\ uses sends (purge_dead_letters service actor reason).
Proof.
  split.
  - apply uses_caught. do 3 (apply send_then; [done|]; intros ?). done.
  - unfold purge_dead_letters. destruct (negb _); [done|]. destruct (negb _); [done|]. apply ask_then; [done|].
    intros now. apply uses_caught. apply send_then; [done|]. by intros [].
Qed.

Lemma maintenance_sends lanes service group max :
  uses sends (purge lanes service group) /\ uses sends (cleanup lanes service max group).
Proof.
  split; apply uses_caught, uses_lift; intros specs Hs%specs_keys; rewrite Forall_forall in Hs; apply uses_sum; intros k Hk%Hs;
    (apply send_then; [done|]); intros [n|]; try done.
  - cbn. destruct (0 <? n); [|done]. by apply send_then.
  - apply send_then; [done|]. intros _. by apply send_then.
Qed.

Lemma job_key_of job : job_key (_key job).
Proof. by exists job. Qed.
#[local] Hint Resolve job_key_of : core.

Lemma id_sends : uses sends next_job_id.
Proof.
  apply uses_caught, send_then; [done|]. intros n. destruct (9999 <? n); [|done]. apply send_then; [done|].
  intros [current version]. destruct (9999 <? current); [|done]. apply send_then; [done|]. by intros [].
Qed.

Lemma claim_sends sha256 key sha job service group ttl : uses sends (claim_idempotency sha256 key sha job service group ttl).
Proof.
  apply uses_lift. intros _ _. apply uses_caught. assert (marker_key (_idempotency_key sha256 key)) by by eexists.
  apply send_then; [done|]. intros []; [done|]. by apply send_then.
Qed.

Lemma create_sends job service source prompt tokens group o : uses sends (create_job job service source prompt tokens group o).
Proof.
  apply ask_then; [done|]. intros now. apply uses_caught, send_then; [apply job_key_of|]. intros _.
  by apply send_then; [apply job_key_of|].
Qed.

Lemma update_sends job status kwargs : uses sends (update_status job status kwargs).
Proof.
  apply uses_caught, uses_then; [by destruct (_ || _)|]. intros now. apply send_then; [apply job_key_of|]. intros _.
  apply send_then; [apply job_key_of|]. intros [d|]; [|done]. destruct (str_truthy d); [|done].
  apply send_then; [|done]. split; [done|by exists d].
Qed.

Lemma record_sends job updates :
  uses sends (update_fields job updates) /\ uses sends (update_heartbeat job updates) /\ uses sends (get_job job) /\
  uses sends (delete_job job).
Proof.
  split_and!; apply uses_caught.
  - cbv zeta. destruct (bool_decide _); [done|]. apply send_then; [apply job_key_of|]. intros []; [|done].
    by apply send_then; [apply job_key_of|].
  - cbv zeta. destruct (bool_decide _); [done|]. apply send_sends, job_key_of.
  - by apply send_then; [apply job_key_of|].
  - by apply send_then; [apply job_key_of|].
Qed.

Lemma intent_sends job : uses sends (mark_cancellation_intent_if_in_flight job).
Proof.
  apply uses_caught. generalize 3%nat. intros n. induction n as [|n IH]; [done|]. apply send_then; [apply job_key_of|].
  intros [[s|] version]; [|done]. destruct (negb (str_truthy s)); [done|]. destruct (negb _); [done|].
  apply send_then; [apply job_key_of|]. by intros [].
Qed.

Lemma terminalize_sends job has_pel has_entry running force :
  uses sends (terminalize_if_impossible job has_pel has_entry running force).
Proof.
  apply uses_then; [by apply (record_sends job [])|]. intros [d|]; [|done]. repeat (case_match; [done|]).
  apply uses_then; [apply update_sends|done].
Qed.
