(* ===== verification/QueueAsync.v ===== *)
(** * QueueAsync: the asynchronous twins

    Models [AsyncRedisQueue] of [scripts/queue_engine.py], which sends the
    commands of [RedisQueue] from the event loop and catches every exception,
    and shows where the two agree.  A blocking read is the read at the moment it
    is answered. *)

From S2P Require Import Prelude PyValue PyText Programs QueueRedis QueueEngine QueueJobs QueueSends.

Section Async.
Variable json_dumps : value -> string.
Variables (priority_lanes_enabled : bool) (priority_aging_interval : time) (priority_aging_cap : Z).

(** It admits no tracked children. *)
Definition async_enqueue (service : string) (job_data : data) (group : string) : qm (option string) :=
  except_any (enqueue_try json_dumps priority_lanes_enabled service job_data group None) None.

(** A failure while it looks at the lanes ends the call. *)
Definition async_dequeue (service consumer : string) (count : nat) (group : string) : qm (list fields) :=
  except_any (dequeue_try priority_lanes_enabled priority_aging_interval priority_aging_cap look_at service consumer count group) [].

Definition async_ack (service consumer handle group : string) : qm bool := except_any (ack_try service consumer handle group) false.

Definition async_nack (service handle : string) (max_retries : Z) (group : string) : qm bool :=
  except_any (nack_try service handle max_retries group) false.

Definition async_get_dead_letters (service : string) (count : nat) : qm DeadLetters :=
  except_any (dead_letters_try service count) outage.

Definition async_purge_dead_letters (service actor reason : string) : qm PurgeResult :=
  if negb (str_truthy (py_strip actor)) then mret (Unauthorized "actor_required")
  else if negb (str_truthy (py_strip reason)) then mret (Unauthorized "reason_required")
  else now ← ask NowIso; except_any (purge_script service actor reason now) PurgeError.

Definition async_purge (service group : string) : qm Z := except_any (purge_try priority_lanes_enabled service group) 0.

Definition async_cleanup (service : string) (max_entries : nat) (group : string) : qm Z :=
  except_any (cleanup_try priority_lanes_enabled service max_entries group) 0.

(** ** The commands they send *)

Lemma uses_uncaught {A B} (p : qm A) (f : result qerr A -> result qerr B) :
  uses sends (program_bind (fun r => Ret (f r)) p) -> uses sends p.
Proof. induction p as [a|t|X o k IH]; cbn; [done|done|]. intros [Ho Hk]. split; [done|auto]. Qed.

Lemma async_sends service consumer handle group job count max actor reason max_entries :
  uses sends (async_enqueue service job group) /\ uses sends (async_dequeue service consumer count group) /\
  uses sends (async_ack service consumer handle group) /\ uses sends (async_nack service handle max group) /\
  uses sends (async_get_dead_letters service count) /\ uses sends (async_purge_dead_letters service actor reason) /\
  uses sends (async_purge service group) /\ uses sends (async_cleanup service max_entries group).
Proof.
  destruct (settle_sends service consumer handle group max) as (Ha & Hn & _ & _).
  destruct (dead_letter_sends service actor reason count) as [Hd _].
  destruct (maintenance_sends priority_lanes_enabled service group max_entries) as [Hp Hc].
  split_and!; [| | | | |unfold async_purge_dead_letters| |].
  - apply uses_caught. exact (uses_uncaught _ _ (enqueue_sends json_dumps priority_lanes_enabled service job group None)).
  - apply uses_caught, dequeue_try_sends, look_sends.
  - apply uses_caught. exact (uses_uncaught _ _ Ha).
  - apply uses_caught. exact (uses_uncaught _ _ Hn).
  - apply uses_caught. exact (uses_uncaught _ _ Hd).
  - destruct (negb _); [done|]. destruct (negb _); [done|]. apply ask_then; [done|].
    intros now. apply uses_caught, send_then; [done|]. by intros [].
  - apply uses_caught. exact (uses_uncaught _ _ Hp).
  - apply uses_caught. exact (uses_uncaught _ _ Hc).
Qed.

(** ** Where they agree *)

Section Alike.
Context {W : Type} (handle : forall X, qop X -> W -> X * W).
Abbreviation run p w := (run_all handle p w).

(** The same run, but an exception is answered by [d]. *)
Definition quiet {A} (d : A) (o : result string (result qerr A) * W) : result string (result qerr A) * W :=
  match o with (Ok (Err _), w) => (Ok (Ok d), w) | o => o end.

Lemma caught_alike {A} (p : qm A) d w : run (except_any p d) w = quiet d (run (except_redis p (fun _ => d)) w).
Proof.
  unfold except_any, except_redis. etrans; [exact (run_all_bind handle p _ w)|]. symmetry.
  etrans; [exact (f_equal (quiet d) (run_all_bind handle p _ w))|].
  by destruct (run p w) as [[[a|[]]|t] w'].
Qed.


End Alike.
End Async.
