(* ===== verification/QueueSafety.v ===== *)
(** * QueueSafety: what the queue engine keeps

    Theorems about every history of the commands that any number of processes
    send through the methods of [QueueEngine] and [QueueJobs] ([QueueSends]), in
    the order Redis runs them, with keys expiring in between. *)

From stdpp Require Import pretty.
From S2P Require Import Prelude PyValue PyText Programs QueueRedis QueueEngine QueueJobs QueueSends.

Definition sendable_event (e : event) : Prop := match e with Sent c => sendable c | Expired _ => True end.

(** ** Keys *)

Lemma queue_not_dead k service : queue_key k -> k <> _dead_letter_stream service.
Proof. by intros [a ->]. Qed.

Lemma queue_not_audit k : queue_key k -> k <> DEAD_LETTER_AUDIT_STREAM.
Proof. by intros [a ->]. Qed.

Lemma job_not_marker k m : job_key k -> marker_key m -> k <> m.
Proof. by intros [a ->] [b ->]. Qed.

Lemma append_inj (a b c : string) : a +:+ b = a +:+ c -> b = c.
Proof. induction a as [|x a IH]; [done|]. cbn. intros [= H]. by apply IH. Qed.

Section Safety.
Context {S : Type} `{QueueStream S} `{!QueueStreamLaws S}.
Abbreviation Redis := (Redis S).

(** ** One stream among the others *)

Lemma put_same k s (w : Redis) : stream_at (put_stream k s w) k = s.
Proof. unfold stream_at, put_stream. cbn. by rewrite lookup_insert_eq. Qed.

Lemma put_other k k' s (w : Redis) : k <> k' -> stream_at (put_stream k' s w) k = stream_at w k.
Proof. intros Hk. unfold stream_at, put_stream. cbn. by rewrite lookup_insert_ne. Qed.

Lemma on_stream_same {X} k (f : S -> X * S) (w : Redis) : stream_at (on_stream k f w).2 k = (f (stream_at w k)).2.
Proof. unfold on_stream. destruct (f (stream_at w k)) as [x s]. apply put_same. Qed.

Lemma on_stream_other {X} k k' (f : S -> X * S) (w : Redis) : k <> k' -> stream_at (on_stream k' f w).2 k = stream_at w k.
Proof. intros Hk. unfold on_stream. destruct (f (stream_at w k')) as [x s]. by apply put_other. Qed.

Lemma change_other k k' (f : S -> S) (w : Redis) : k <> k' -> stream_at (change k' f w) k = stream_at w k.
Proof. intros Hk. unfold change. destruct (streams w !! k'); [by apply put_other|done]. Qed.

(** A change of a stream that is not there is none. *)
Lemma change_same k (f : S -> S) (w : Redis) :
  stream_at (change k f w) k = stream_at w k \/ stream_at (change k f w) k = f (stream_at w k).
Proof.
  unfold change. destruct (streams w !! k) as [s|] eqn:Hs; [|by left]. right. rewrite put_same. unfold stream_at. by rewrite Hs.
Qed.

(** The commands on jobs, markers and the counter. *)
Definition no_stream {X} (c : cmd X) : bool :=
  match c with
  | Incr | WatchCounter | ResetCounter _ | HSet _ _ | Persist _ | StatusTx _ _ _ | HGet _ _ | MarkerTtl _ _ _ | Exists _
  | HeartbeatScript _ _ | PreserveScript _ | WatchStatus _ | IntentTx _ _ | HGetAll _ | Delete _ | SetNx _ _ | Get _ => true
  | _ => false
  end.

Lemma expire_streams key (w : Redis) : streams (expire key w) = streams w.
Proof. unfold expire. by destruct (known w key). Qed.

Lemma exec_streams {X} (c : cmd X) (w : Redis) : no_stream c = true -> streams (exec c w).2 = streams w.
Proof.
  destruct c; try done; intros _; cbn [exec snd ok].
  - unfold reset_counter. by destruct (_ =? _).
  - by destruct terminal; [rewrite expire_streams|].
  - unfold marker_ttl. destruct (markers w !! marker); [|done]. destruct (negb _); [done|].
    by destruct (is_terminal _); [rewrite expire_streams|].
  - unfold heartbeat. destruct (jobs w !! key); [|done]. cbn. by destruct (is_terminal _); [rewrite expire_streams|].
  - unfold preserve. destruct (jobs w !! key) as [job|]; [|done]. destruct (job !! "status") as [st|]; [|done].
    destruct (is_terminal _); [done|]. by destruct (job !! "idempotency_key_sha256").
  - unfold intent. by destruct (_ =? _).
  - unfold set_nx. by destruct (markers w !! key).
Qed.

(** ** Steps of a stream *)

(** What holds of a stream whatever is done to it. *)
Record stable (P : S -> Prop) : Prop := {
  stable_add s d : P s -> P (x_add s d).2;
  stable_read s c n : P s -> P (x_read s c n).2;
  stable_claim s c i : P s -> P (x_claim s c i).2;
  stable_ack s i : P s -> P (x_ack s i);
  stable_del s i : P s -> P (x_del s i);
  stable_trim s n : P s -> P (x_trim s n).2;
  stable_trim_about s n : P s -> P (x_trim_about s n) }.

Section Stable.
Variables (P : S -> Prop) (k : string).
Hypotheses (HP : stable P) (Hk : queue_key k).
Abbreviation holds w := (P (stream_at w k)).

Lemma holds_on_stream {X} k' (f : S -> X * S) (w : Redis) : (forall s, P s -> P (f s).2) -> holds w -> holds (on_stream k' f w).2.
Proof.
  intros Hf Hw. destruct (decide (k = k')) as [<-|Hne]; [rewrite on_stream_same; by apply Hf|by rewrite on_stream_other].
Qed.

Lemma holds_change k' (f : S -> S) (w : Redis) : (forall s, P s -> P (f s)) -> holds w -> holds (change k' f w).
Proof.
  intros Hf Hw. destruct (decide (k = k')) as [<-|Hne]; [|by rewrite change_other].
  destruct (change_same k f w) as [->| ->]; [done|by apply Hf].
Qed.

Lemma remove_holds i s : P s -> P (remove_entry i s).
Proof. intros Hs. by apply (stable_del P HP), (stable_ack P HP). Qed.

Lemma holds_with_id {X} id (f : eid -> Redis -> result string X * Redis) w :
  (forall i, holds (f i w).2) -> holds w -> holds (with_id id f w).2.
Proof. intros Hf Hw. unfold with_id. by destruct (parse_id id). Qed.

Lemma holds_read_group consumer count ks w : holds w -> holds (read_group consumer count ks w).2.
Proof.
  revert w. induction ks as [|k' ks IH]; intros w Hw; [done|]. cbn [read_group].
  pose proof (holds_on_stream k' (fun s => x_read s consumer count) w ltac:(intros s; apply (stable_read P HP)) Hw) as Hw1.
  destruct (on_stream k' _ w) as [got w1]. specialize (IH w1 Hw1). by destruct (read_group consumer count ks w1) as [rest w2].
Qed.

Lemma add_text_snd (s : S) d : (add_text s d).2 = (x_add s d).2.
Proof. unfold add_text. by destruct (x_add s d). Qed.

Lemma holds_cancel k' key id job at_ error source by_ w :
  holds w -> holds (cancel_queued k' key id job at_ error source by_ w).2.
Proof.
  intros Hw. unfold cancel_queued. apply holds_with_id; [|done]. intros j.
  assert (holds (cancel_entry k' key j at_ error source by_ w).2) as Hc.
  { unfold cancel_entry. cbn [snd]. unfold expire. destruct (known _ _); cbn; by apply holds_change; [apply remove_holds|]. }
  destruct (x_range _ _) as [|[i d] l]; [done|]. destruct (negb _); [done|].
  destruct (status_at w key); [|done]. destruct (is_terminal _); [done|]. by destruct (negb _).
Qed.

Lemma holds_transfer source dlq i service d w : holds w -> holds (dead_letter_transfer source dlq i service d w).2.
Proof.
  intros Hw. unfold dead_letter_transfer. destruct (negb _); [done|]. do 2 (destruct (bool_decide _); [done|]).
  set (w1 := (on_stream dlq _ w).2). assert (holds w1) as Hw1 by (apply holds_on_stream; [intros s; apply (stable_add P HP)|done]).
  pose proof (holds_on_stream dlq (fun s => x_trim s EXACT_DEAD_LETTER_CAP) w1 ltac:(intros s; apply (stable_trim P HP)) Hw1) as Hw2.
  destruct (on_stream dlq _ w1) as [removed w2]. cbn [snd] in *. destruct (bool_decide _); [done|].
  apply holds_change; [apply remove_holds|]. by destruct (0 <? removed).
Qed.

Lemma holds_purge actor reason timestamp service w :
  holds w -> holds (dead_letter_purge (_dead_letter_stream service) actor reason timestamp service w).2.
Proof.
  intros Hw. unfold dead_letter_purge. destruct (bool_decide _); [done|].
  pose proof (on_stream_other k DEAD_LETTER_AUDIT_STREAM (fun s => add_text s (audit_record actor reason timestamp
    (Z.of_nat (length (items (stream_at w (_dead_letter_stream service))))) service)) w (queue_not_audit k Hk)) as Ho.
  destruct (on_stream _ _ w) as [audit w1]. cbn in *. unfold stream_at in *. cbn.
  rewrite lookup_delete_ne; [by rewrite Ho|]. by apply not_eq_sym, queue_not_dead.
Qed.
Lemma expired_streams key (w : Redis) : streams (expired key w) = streams w.
Proof. unfold expired. by destruct (bool_decide _). Qed.

Lemma holds_removed k' id (w : Redis) :
  holds w -> holds (with_id id (fun i w => (Ok (), change k' (remove_entry i) w)) w).2.
Proof. intros Hw. apply holds_with_id; [|done]. intros i. by apply holds_change; [apply remove_holds|]. Qed.

Lemma holds_exec {X} (c : cmd X) w : sendable c -> holds w -> holds (exec c w).2.
Proof.
  intros Hc Hw. destruct (no_stream c) eqn:Hs.
  { unfold stream_at. rewrite exec_streams by done. exact Hw. }
  destruct c; try done; cbn [exec snd].
  - destruct (decide (k = k0)) as [<-|Hne]; [by rewrite put_same|by rewrite put_other].
  - apply holds_on_stream; [|done]. intros s Hp. rewrite add_text_snd. by apply (stable_add P HP).
  - destruct (forallb _ _); [by apply holds_read_group|done].
  - by destruct (streams w !! k0).
  - by apply holds_with_id.
  - by destruct (bool_decide _).
  - by destruct (bool_decide _).
  - apply holds_with_id; [|done]. intros i. by apply holds_change; [intros s; apply (stable_ack P HP)|].
  - pose proof (holds_removed k0 id w Hw) as Hr. destruct (with_id id _ w) as [r w1].
    apply holds_change; [intros s; apply (stable_trim P HP)|done].
  - pose proof (holds_removed k0 id w Hw) as Hr. destruct (with_id id _ w) as [r w1]. cbn [snd] in Hr.
    pose proof (holds_on_stream k0 (fun s => let '(t, s') := add_text s d in (t, (x_trim s' 500).2)) w1) as Ho.
    destruct (on_stream _ _ w1) as [t w2]. apply Ho; [|done]. intros s Hp. pose proof (add_text_snd s d) as Ha.
    destruct (add_text s d) as [t' s']. cbn in *. subst s'. by apply (stable_trim P HP), (stable_add P HP).
  - destruct (there w k0); [|done]. apply holds_with_id; [|done]. intros i. by apply holds_on_stream; [intros s; apply (stable_claim P HP)|].
  - by apply holds_change; [intros s; apply (stable_trim P HP)|].
  - by apply holds_change; [intros s; apply (stable_trim_about P HP)|].
  - apply holds_with_id; [|done]. intros i. by apply holds_transfer.
  - cbn in Hc. subst dlq. by apply holds_purge.
  - by destruct (bool_decide _).
  - unfold enqueue_tracked. destruct (jobs w !! key) as [job|].
    { destruct (negb _); [done|]. by destruct (job !! "entry_id"). }
    pose proof (holds_on_stream k0 (fun s => add_text s payload) w) as Ho. destruct (on_stream k0 _ w) as [entry w1].
    apply Ho; [|done]. intros s Hp. rewrite add_text_snd. by apply (stable_add P HP).
  - by apply holds_cancel.
Qed.

Lemma holds_happen e w : sendable_event e -> holds w -> holds (happen e w).
Proof.
  destruct e as [X c|key]; [by apply holds_exec|]. intros _ Hw. cbn [happen].
  unfold stream_at. rewrite expired_streams. exact Hw.
Qed.

Lemma holds_history es w : Forall sendable_event es -> holds w -> holds (history es w).
Proof.
  revert w. induction es as [|e es IH]; intros w Hes Hw; [done|]. inversion_clear Hes.
  apply IH; [done|]. by apply holds_happen.
Qed.

End Stable.
(** ** Entries that are gone, entries that were given out *)

Lemma issued_stable_add (s : S) d i : i ∈ issued s -> i ∈ issued (x_add s d).2 /\ i <> (x_add s d).1.
Proof.
  intros Hi. split; [apply x_add_issued; by right|]. intros ->. by apply (x_add_new s d).
Qed.

Definition gone (i : eid) (s : S) : Prop := i ∈ issued s /\ i ∉ (items s).*1.

Lemma without_keys i (l : list (eid * fields)) j : j ∈ (without i l).*1 <-> j <> i /\ j ∈ l.*1.
Proof.
  unfold without. rewrite !list_elem_of_fmap. split.
  - intros (x & -> & [Hx Hb]%list_elem_of_In%List.filter_In). apply negb_true_iff, bool_decide_eq_false in Hb.
    split; [done|]. exists x. split; [done|]. by apply list_elem_of_In.
  - intros (Hj & x & -> & Hx). exists x. split; [done|]. apply list_elem_of_In, List.filter_In.
    split; [by apply list_elem_of_In|]. by apply negb_true_iff, bool_decide_eq_false.
Qed.

Lemma drop_keys n (l : list (eid * fields)) i : i ∈ (drop n l).*1 -> i ∈ l.*1.
Proof. rewrite fmap_drop. intros Hi. apply list_elem_of_lookup in Hi as (m & Hm). rewrite lookup_drop in Hm. by eapply list_elem_of_lookup_2. Qed.

Lemma gone_stable i : stable (gone i).
Proof.
  split; unfold gone; intros s.
  - intros d [Hi Hn]. destruct (issued_stable_add s d i Hi) as [Hi' Hne]. split; [done|].
    rewrite x_add_items, fmap_app. set_solver.
  - intros c n. by rewrite x_read_issued, x_read_items.
  - intros c j. by rewrite x_claim_issued, x_claim_items.
  - intros j. by rewrite x_ack_issued, x_ack_items.
  - intros j. rewrite x_del_issued, x_del_items, without_keys. naive_solver.
  - intros n [Hi Hn]. rewrite x_trim_issued, x_trim_items. split; [done|]. by intros ?%drop_keys.
  - intros n [Hi Hn]. destruct (x_trim_about_items s n) as (m & _ & Hm). rewrite x_trim_about_issued, Hm.
    split; [done|]. by intros ?%drop_keys.
Qed.

Definition given_out (i : eid) (s : S) : Prop := i ∈ issued s /\ i ∉ (waiting s).*1.

Lemma keys_incl (l l' : list (eid * fields)) i : (forall x, x ∈ l -> x ∈ l') -> i ∈ l.*1 -> i ∈ l'.*1.
Proof. intros Hl (x & -> & Hx)%list_elem_of_fmap. apply list_elem_of_fmap. eauto. Qed.


(** Cancels of one entry: only the first can succeed. *)

Lemma cancel_removes k key i job at_ error source by_ (w : Redis) :
  (cancel_queued k key (id_text i) job at_ error source by_ w).1 = Ok RemovedAndTerminalized ->
  exists d, (i, d) ∈ items (stream_at w k) /\ d !! "job_id" = Some job /\
    (status_at w key = None \/ status_at w key = Some "queued") /\
    i ∉ (items (stream_at (cancel_queued k key (id_text i) job at_ error source by_ w).2 k)).*1 /\
    status_at (cancel_queued k key (id_text i) job at_ error source by_ w).2 key = Some "cancelled".
Proof.
  unfold cancel_queued, with_id. rewrite parse_id_text, x_range_id. destruct (List.filter _ _) as [|[j d] l] eqn:Hf; [done|].
  assert ((j, d) ∈ items (stream_at w k) /\ j = i) as [Hin ->].
  { assert (In (j, d) (List.filter (fun x : eid * fields => bool_decide (x.1 = i)) (items (stream_at w k)))) as Hin by (rewrite Hf; by left).
    apply List.filter_In in Hin as [Hin Hb%bool_decide_eq_true]. split; [by apply list_elem_of_In|done]. }
  destruct (bool_decide (job_id_of d = Some job)) eqn:Hj; cbn [negb]; [|done]. apply bool_decide_eq_true in Hj.
  assert (forall r, r = cancel_entry k key i at_ error source by_ w ->
    i ∉ (items (stream_at r.2 k)).*1 /\ status_at r.2 key = Some "cancelled") as Hentry.
  { intros r ->. unfold cancel_entry. cbn [snd].
    assert (forall v : Redis, streams (expire key v) = streams v /\ jobs (expire key v) = jobs v) as He.
    { intros v. unfold expire. by destruct (known v key). }
    unfold stream_at, status_at, job_at. rewrite (proj1 (He _)), (proj2 (He _)). cbn. rewrite lookup_insert_eq. cbn.
    split; [|apply lookup_union_Some_l, lookup_insert_eq].
    assert (streams w !! k = Some (stream_at w k)) as Hs.
    { unfold stream_at in *. destruct (streams w !! k); [done|]. cbn in Hin. rewrite items_fresh in Hin. by apply elem_of_nil in Hin. }
    unfold change. rewrite Hs. cbn. rewrite lookup_insert_eq. cbn. unfold remove_entry.
    rewrite x_del_items, without_keys. naive_solver. }
  destruct (status_at w key) as [st|] eqn:Hst; [|intros _; exists d; naive_solver].
  destruct (is_terminal (Some st)); [done|]. destruct (String.eqb st "queued") eqn:Hq; cbn [negb]; [|done].
  apply String.eqb_eq in Hq as ->. intros _. exists d. naive_solver.
Qed.

(** A cancel is all or nothing: either it answers that it removed the entry,
    and then the entry was the job's, no other status than queued was recorded,
    the entry is gone and the record says cancelled; or nothing at all has
    changed, the records of finished jobs included. *)
Theorem cancel_all_or_nothing k key i job at_ error source by_ (w : Redis) :
  let '(r, w') := exec (CancelQueued k key (id_text i) job at_ error source by_) w in
  (r = Ok RemovedAndTerminalized /\
   (exists d, (i, d) ∈ items (stream_at w k) /\ d !! "job_id" = Some job) /\
   (status_at w key = None \/ status_at w key = Some "queued") /\
   i ∉ (items (stream_at w' k)).*1 /\ status_at w' key = Some "cancelled") \/
  (r <> Ok RemovedAndTerminalized /\ w' = w).
Proof.
  cbn [exec]. pose proof (cancel_removes k key i job at_ error source by_ w) as Hc.
  destruct (cancel_queued _ _ _ _ _ _ _ _ w) as [r w'] eqn:Hr. cbn [fst snd] in Hc.
  destruct (decide (r = Ok RemovedAndTerminalized)) as [->|Hne].
  { left. destruct (Hc eq_refl) as (d & H1 & H2 & H3 & H4 & H5). split_and!; [done|by exists d|done..]. }
  right. split; [done|]. revert Hr. unfold cancel_queued, with_id. rewrite parse_id_text.
  destruct (x_range _ _) as [|[j d] l]; [by intros [= <- <-]|]. destruct (negb _); [by intros [= <- <-]|]. unfold cancel_entry.
  repeat case_match; intros; by simplify_eq.
Qed.

(** C25. A queued entry is cancelled at most once: after a cancel removed it,
    every later cancel of that entry, for whatever job, finds no entry, whatever
    was sent in between: so its capacity is released once. *)
Theorem cancelled_once k i key job at_ error source by_ es key' job' at' error' source' by' (w : Redis) :
  queue_key k -> Forall sendable_event es ->
  (exec (CancelQueued k key (id_text i) job at_ error source by_) w).1 = Ok RemovedAndTerminalized ->
  (exec (CancelQueued k key' (id_text i) job' at' error' source' by')
     (history es (exec (CancelQueued k key (id_text i) job at_ error source by_) w).2)).1 = Ok NoEntry.
Proof.
  intros Hk Hes Hr. cbn [exec] in *. destruct (cancel_removes _ _ _ _ _ _ _ _ _ Hr) as (d & Hin & _ & _ & Hout & _).
  assert (gone i (stream_at (cancel_queued k key (id_text i) job at_ error source by_ w).2 k)) as Hg.
  { split; [|done]. apply (holds_cancel (fun s => i ∈ issued s) k); [split|]; intros; [by apply issued_stable_add|..].
    all: rewrite ?x_read_issued, ?x_claim_issued, ?x_ack_issued, ?x_del_issued, ?x_trim_issued, ?x_trim_about_issued; try done.
    apply (items_issued _ (i, d) Hin). }
  apply (holds_history _ k (gone_stable i) Hk es _ Hes) in Hg as [_ Hg]. unfold cancel_queued at 1, with_id at 1. rewrite parse_id_text, x_range_id.
  destruct (List.filter _ _) as [|x l] eqn:Hf; [done|]. exfalso. apply Hg, list_elem_of_fmap. exists x.
  assert (In x (x :: l)) as Hx by by left. rewrite <- Hf in Hx. apply List.filter_In in Hx as [Hx Hb%bool_decide_eq_true].
  split; [done|by apply list_elem_of_In].
Qed.

(** Claims. *)

Lemma waiting_keys (s : S) : NoDup (waiting s).*1.
Proof.
  destruct (waiting_last s) as [l Hl]. pose proof (items_nodup s) as Hn. rewrite Hl, fmap_app in Hn.
  by apply NoDup_app in Hn as (_ & _ & ?).
Qed.

Lemma waiting_issued (s : S) i : i ∈ (waiting s).*1 -> i ∈ issued s.
Proof.
  intros (x & -> & Hx)%list_elem_of_fmap. apply items_issued. destruct (waiting_last s) as [l ->]. apply elem_of_app. by right.
Qed.

Lemma given_out_stable i : stable (given_out i).
Proof.
  split; unfold given_out; intros s.
  - intros d [Hi Hn]. destruct (issued_stable_add s d i Hi) as [Hi' Hne]. split; [done|].
    rewrite x_add_waiting, fmap_app. set_solver.
  - intros c n [Hi Hn]. rewrite x_read_issued. split; [done|]. intros Hw. apply Hn. revert Hw. apply keys_incl.
    intros x. apply x_read_less.
  - intros c j [Hi Hn]. rewrite x_claim_issued. split; [done|]. intros Hw. apply Hn. revert Hw. apply keys_incl.
    intros x. apply x_claim_waiting.
  - intros j [Hi Hn]. rewrite x_ack_issued. split; [done|]. intros Hw. apply Hn. revert Hw. apply keys_incl.
    intros x. apply x_ack_waiting.
  - intros j [Hi Hn]. rewrite x_del_issued. split; [done|]. intros Hw. apply Hn. revert Hw. apply keys_incl.
    intros x. apply x_del_waiting.
  - intros n [Hi Hn]. rewrite x_trim_issued. split; [done|]. intros Hw. apply Hn. revert Hw. apply keys_incl.
    intros x. apply x_trim_waiting.
  - intros n [Hi Hn]. rewrite x_trim_about_issued. split; [done|]. intros Hw. apply Hn. revert Hw. apply keys_incl.
    intros x. apply x_trim_about_waiting.
Qed.

(** A group read gives only entries that were waiting, and gives them out. *)
Lemma read_group_gives consumer n ks k got i (w : Redis) : (0 < n)%nat -> queue_key k ->
  (k, got) ∈ (read_group consumer n ks w).1 -> i ∈ got.*1 ->
  ~ given_out i (stream_at w k) /\ given_out i (stream_at (read_group consumer n ks w).2 k).
Proof.
  intros Hn Hk. revert w. induction ks as [|k' ks IH]; intros w; [by intros ?%elem_of_nil|]. cbn [read_group].
  pose proof (holds_on_stream (given_out i) k k' (fun s => x_read s consumer n) w
    ltac:(intros s; apply (stable_read _ (given_out_stable i)))) as Hstep.
  pose proof (on_stream_same k' (fun s => x_read s consumer n) w) as Hsame.
  assert ((on_stream k' (fun s => x_read s consumer n) w).1 = (x_read (stream_at w k') consumer n).1) as Hgot.
  { unfold on_stream. by destruct (x_read _ _ _). }
  destruct (on_stream k' _ w) as [got' w1]. cbn [fst snd] in *. specialize (IH w1).
  pose proof (holds_read_group (given_out i) k (given_out_stable i) consumer n ks w1) as Hrest.
  destruct (read_group consumer n ks w1) as [rest w2]. cbn [fst snd] in *. intros Hin Hi.
  assert ((k, got) ∈ rest \/ (k = k' /\ got = got')) as [Hin'|[<- ->]].
  { destruct got'; [by left|]. apply elem_of_cons in Hin as [[= -> ->]|Hin]; [by right|by left]. }
  - destruct (IH Hin' Hi) as [Hn1 Hg]. split; [|done]. intros Hg0. by apply Hn1, Hstep.
  - rewrite Hgot, x_read_reply in Hi by done.
    assert (i ∈ (waiting (stream_at w k)).*1) as Hw.
    { rewrite <- (take_drop n (waiting (stream_at w k))), fmap_app. set_solver. }
    split; [by intros [_ ?]|]. apply Hrest. rewrite Hsame. split; [rewrite x_read_issued; by apply waiting_issued|].
    rewrite x_read_waiting by done. pose proof (waiting_keys (stream_at w k)) as Hnd.
    rewrite <- (take_drop n (waiting (stream_at w k))), fmap_app in Hnd. apply NoDup_app in Hnd as (_ & Hd & _). by apply Hd.
Qed.


(** ** Entries leave only when something is decided *)

(** What takes an entry out of its stream on purpose. *)
Definition settles (e : event) (k : string) (i : eid) (w : Redis) : Prop :=
  match e with
  | Sent c =>
      match c with
      | AckTx k' id | ReplaceTx k' id _ | DeadLetterTransfer k' _ id _ _ => k' = k /\ parse_id id = Some i
      | CancelQueued k' key id job at_ error source by_ =>
          k' = k /\ parse_id id = Some i /\ (cancel_queued k key id job at_ error source by_ w).1 = Ok RemovedAndTerminalized
      | XTrim k' _ => k' = k
      | XTrimAbout k' n => k' = k /\ (n < length (items (stream_at w k)))%nat
      | _ => False
      end
  | Expired _ => False
  end.

Abbreviation here i k w := (i ∈ (items (stream_at w k)).*1).
Abbreviation length_at w k := (length (items (stream_at w k))).

#[export] Instance settles_dec e k i (w : Redis) : Decision (settles e k i w).
Proof. destruct e as [X c|key]; [destruct c|]; cbn; apply _. Defined.

Lemma without_length i (l : list (eid * fields)) : (length (without i l) <= length l)%nat.
Proof. apply List.filter_length_le. Qed.

Lemma trim_keeps (s : S) n i : i ∈ (items s).*1 -> (length (items s) <= n)%nat -> i ∈ (items (x_trim s n).2).*1.
Proof. intros Hi Hn. rewrite x_trim_items. by replace (length (items s) - n)%nat with 0%nat by lia. Qed.

Lemma remove_keeps (s : S) i j : i ∈ (items s).*1 -> i <> j -> i ∈ (items (remove_entry j s)).*1.
Proof. intros Hi Hj. unfold remove_entry. rewrite x_del_items, x_ack_items. by apply without_keys. Qed.

Lemma remove_length (s : S) j : (length (items (remove_entry j s)) <= length (items s))%nat.
Proof. unfold remove_entry. rewrite x_del_items, x_ack_items. apply without_length. Qed.

Lemma change_keeps k k' (f : S -> S) i (w : Redis) :
  here i k w -> (k = k' -> i ∈ (items (f (stream_at w k))).*1) -> here i k (change k' f w).
Proof.
  intros Hi Hf. destruct (decide (k = k')) as [<-|Hne]; [|by rewrite change_other].
  destruct (change_same k f w) as [->| ->]; [done|by apply Hf].
Qed.

Lemma on_stream_keeps {X} k k' (f : S -> X * S) i (w : Redis) :
  here i k w -> (k = k' -> i ∈ (items (f (stream_at w k)).2).*1) -> here i k (on_stream k' f w).2.
Proof.
  intros Hi Hf. destruct (decide (k = k')) as [<-|Hne]; [rewrite on_stream_same; by apply Hf|by rewrite on_stream_other].
Qed.
Lemma read_group_items consumer n ks k (w : Redis) :
  items (stream_at (read_group consumer n ks w).2 k) = items (stream_at w k).
Proof.
  revert w. induction ks as [|k' ks IH]; intros w; [done|]. cbn [read_group].
  assert (items (stream_at (on_stream k' (fun s => x_read s consumer n) w).2 k) = items (stream_at w k)) as Hs.
  { destruct (decide (k = k')) as [<-|Hne]; [by rewrite on_stream_same, x_read_items|by rewrite on_stream_other]. }
  destruct (on_stream k' _ w) as [got w1]. cbn [snd] in Hs. specialize (IH w1). rewrite Hs in IH.
  by destruct (read_group consumer n ks w1) as [rest w2].
Qed.

Lemma transfer_keeps source dlq j service d k i (w : Redis) : queue_key k -> dlq = _dead_letter_stream service ->
  here i k w -> (k = source -> i <> j) -> here i k (dead_letter_transfer source dlq j service d w).2.
Proof.
  intros Hk -> Hi Hj. pose proof (queue_not_dead k service Hk) as Hd. unfold dead_letter_transfer. destruct (negb _); [done|].
  do 2 (destruct (bool_decide _); [done|]). set (w1 := (on_stream _ _ w).2).
  assert (here i k w1) as Hw1 by (subst w1; by rewrite on_stream_other).
  pose proof (on_stream_other k _ (fun s => x_trim s EXACT_DEAD_LETTER_CAP) w1 Hd) as Hw2.
  destruct (on_stream _ _ w1) as [removed w2]. cbn [snd] in *. rewrite <- Hw2 in Hw1. destruct (bool_decide _); [done|].
  apply change_keeps; [by destruct (0 <? removed)|]. intros ->. apply remove_keeps; [by destruct (0 <? removed)|by apply Hj].
Qed.

Lemma add_keeps i d (s : S) : i ∈ (items s).*1 -> i ∈ (items (add_text s d).2).*1.
Proof. intros Hi. unfold add_text. pose proof (x_add_items s d) as Ha. destruct (x_add s d). cbn in *. rewrite Ha, fmap_app. set_solver. Qed.

Lemma cancel_keeps k' key id job at_ error source by_ k i (w : Redis) : here i k w ->
  ~ settles (Sent (CancelQueued k' key id job at_ error source by_)) k i w ->
  here i k (cancel_queued k' key id job at_ error source by_ w).2.
Proof.
  intros Hi Hn. cbn [settles] in Hn. unfold cancel_queued, with_id in *. destruct (parse_id id) as [j|] eqn:Hj; [|done].
  assert ((k' = k -> i <> j) -> here i k (cancel_entry k' key j at_ error source by_ w).2) as Hentry.
  { intros Hne. unfold cancel_entry. cbn [snd]. unfold stream_at. rewrite expire_streams. cbn. apply change_keeps; [done|].
    intros ->. apply remove_keeps; [done|by apply Hne]. }
  revert Hn. destruct (x_range (stream_at w k') id) as [|[j' d] l] eqn:Hx; [done|]. destruct (negb _) eqn:Hb; [done|].
  destruct (status_at w key) as [st|] eqn:Hst; [destruct (is_terminal _) eqn:Ht; [done|]; destruct (negb (String.eqb st "queued")) eqn:Hq; [done|]|];
    intros Hn; apply Hentry; intros -> ->; apply Hn; (split; [done|]); (split; [done|]); by rewrite ?Hx, ?Hb, ?Hst, ?Ht, ?Hq.
Qed.

(** Removing another entry. *)
Lemma removed_keeps k' id k i (w : Redis) : here i k w -> (k' = k -> parse_id id <> Some i) ->
  let w' := (with_id id (fun j w => (Ok (), change k' (remove_entry j) w)) w).2 in
  here i k w' /\ (length_at w' k <= length_at w k)%nat.
Proof.
  intros Hi Hn. unfold with_id. destruct (parse_id id) as [j|] eqn:Hj; [|done]. cbn [snd]. split.
  - apply change_keeps; [done|]. intros ->. apply remove_keeps; [done|]. intros ->. by apply Hn.
  - destruct (decide (k = k')) as [<-|Hne]; [|by rewrite change_other].
    destruct (change_same k (remove_entry j) w) as [->| ->]; [done|apply remove_length].
Qed.

(** Every other command keeps the entry, while the stream is short. *)
Lemma exec_keeps {X} (c : cmd X) k i (w : Redis) : queue_key k -> sendable c -> here i k w -> ~ settles (Sent c) k i w ->
  (length_at w k < 500)%nat -> here i k (exec c w).2.
Proof.
  intros Hk Hc Hi Hn Hlen. destruct (no_stream c) eqn:Hs.
  { unfold stream_at. rewrite exec_streams by done. exact Hi. }
  destruct c; try done; cbn [exec snd].
  - destruct (decide (k = k0)) as [<-|Hne]; [by rewrite put_same|by rewrite put_other].
  - apply on_stream_keeps; [done|]. intros <-. by apply add_keeps.
  - destruct (forallb _ _); [|done]. unfold ok. cbn [snd]. by rewrite read_group_items.
  - by destruct (streams w !! k0).
  - unfold with_id. by destruct (parse_id id).
  - by destruct (bool_decide _).
  - by destruct (bool_decide _).
  - unfold with_id. destruct (parse_id id) as [j|]; [|done]. apply change_keeps; [done|]. intros ->. by rewrite x_ack_items.
  - destruct (removed_keeps k0 id k i w Hi) as [Hr Hl]; [intros ->; by intros Hj; apply Hn|].
    destruct (with_id id _ w) as [r w1]. cbn [snd] in *. apply change_keeps; [done|]. intros ->. apply trim_keeps; [done|lia].
  - destruct (removed_keeps k0 id k i w Hi) as [Hr Hl]; [intros ->; by intros Hj; apply Hn|].
    destruct (with_id id _ w) as [r w1]. cbn [snd] in *.
    pose proof (on_stream_keeps k k0 (fun s => let '(t, s') := add_text s d in (t, (x_trim s' 500).2)) i w1 Hr) as Ho.
    destruct (on_stream _ _ w1) as [t w2]. apply Ho. intros ->. pose proof (add_keeps i d (stream_at w1 k0) Hr) as Ha.
    unfold add_text in *. pose proof (x_add_items (stream_at w1 k0) d) as Hx. destruct (x_add _ d) as [u s']. cbn [snd] in *.
    apply trim_keeps; [done|]. rewrite Hx, length_app. cbn. lia.
  - destruct (there w k0); [|done]. unfold with_id. destruct (parse_id id) as [j|]; [|done]. apply on_stream_keeps; [done|].
    intros ->. cbn. by rewrite x_claim_items.
  - apply change_keeps; [done|]. intros ->. by destruct Hn.
  - apply change_keeps; [done|]. intros ->. destruct (x_trim_about_items (stream_at w k0) n) as (m & Hm & ->).
    replace m with 0%nat; [done|]. destruct (decide (n < length (items (stream_at w k0)))%nat); [by destruct Hn|lia].
  - unfold with_id. destruct (parse_id id) as [j|] eqn:Hj; [|done]. destruct Hc as [_ Hd]. apply transfer_keeps; [done..|].
    intros -> ->. by apply Hn.
  - cbn in Hc. subst dlq. by apply (holds_purge (fun s => i ∈ (items s).*1) k Hk).
  - by destruct (bool_decide _).
  - unfold enqueue_tracked. destruct (jobs w !! key) as [job|].
    { destruct (negb _); [done|]. by destruct (job !! "entry_id"). }
    pose proof (on_stream_keeps k k0 (fun s => add_text s payload) i w Hi) as Ho. destruct (on_stream k0 _ w) as [entry w1].
    apply Ho. intros <-. by apply add_keeps.
  - by apply cancel_keeps.
Qed.

(** C24. A queued job is not lost: an entry of a queue stream stays in it until
    its own acknowledgement, requeue, dead-lettering or granted cancel, or an
    explicit purge or cleanup, takes it out, in every history in which the
    stream stays shorter than the 500 entries that acknowledgements trim to. *)
Theorem queued_until_settled k i es (w : Redis) : queue_key k -> Forall sendable_event es -> here i k w ->
  here i k (history es w) \/
  exists before e after, es = before ++ e :: after /\ here i k (history before w) /\
    (settles e k i (history before w) \/ (500 <= length_at (history before w) k)%nat).
Proof.
  intros Hk. revert w. induction es as [|e es IH]; intros w Hes Hi; [by left|]. inversion_clear Hes.
  destruct (decide (500 <= length_at w k)%nat) as [Hlong|Hshort]; [right; exists [], e, es; auto|].
  destruct (decide (here i k (happen e w))) as [Hi'|Hgone].
  - destruct (IH (happen e w)) as [Hh|(before & e' & after & -> & Hb & Hse)]; [done|done|by left|].
    right. by exists (e :: before), e', after.
  - right. exists [], e, es. split_and!; [done|done|]. left. destruct e as [X c|key].
    + destruct (decide (settles (Sent c) k i w)); [done|]. destruct Hgone. apply exec_keeps; try done. lia.
    + destruct Hgone. cbn [happen]. unfold stream_at. rewrite expired_streams. exact Hi.
Qed.
End Safety.
