(* ===== verification/QueueLedger.v ===== *)
(** * QueueLedger: what the queue engine accounts for

    Over the histories of [QueueSafety]: every dead letter is kept, counted as
    dropped, or counted by an audited purge; an admission key is granted to a
    second job only after the first one ended; a cancellation intent is only
    written to a job in flight; a tracked child is enqueued once. *)

From stdpp Require Import pretty.
From S2P Require Import Prelude PyValue PyText Programs QueueRedis QueueEngine QueueJobs QueueSends QueueSafety.

Section Ledger.
Context {S : Type} `{QueueStream S} `{!QueueStreamLaws S}.
Abbreviation Redis := (Redis S).

(** ** What a command leaves alone *)

Definition touched {X} (c : cmd X) : list string :=
  match c with
  | XGroupCreate k | XAdd k _ | XAck k _ | AckTx k _ | ReplaceTx k _ _ | XClaim _ k _ | XTrim k _ | XTrimAbout k _
  | EnqueueTracked _ k _ _ _ _ | CancelQueued k _ _ _ _ _ _ _ => [k]
  | XReadGroup _ ks _ => ks
  | DeadLetterTransfer source dlq _ _ _ => [source; dlq]
  | DeadLetterPurge dlq _ _ _ _ => [DEAD_LETTER_AUDIT_STREAM; dlq]
  | _ => []
  end.

Lemma put_untouched k k' s (w : Redis) : k <> k' -> streams (put_stream k' s w) !! k = streams w !! k.
Proof. intros Hk. cbn. by apply lookup_insert_ne. Qed.

Lemma on_untouched {X} k k' (f : S -> X * S) (w : Redis) : k <> k' -> streams (on_stream k' f w).2 !! k = streams w !! k.
Proof. intros Hk. unfold on_stream. destruct (f _) as [x s]. by apply put_untouched. Qed.

Lemma change_untouched k k' f (w : Redis) : k <> k' -> streams (change k' f w) !! k = streams w !! k.
Proof. intros Hk. unfold change. destruct (streams w !! k'); [by apply put_untouched|done]. Qed.

Lemma read_untouched consumer n ks k (w : Redis) : k ∉ ks -> streams (read_group consumer n ks w).2 !! k = streams w !! k.
Proof.
  revert w. induction ks as [|k' ks IH]; intros w Hk; [done|]. apply not_elem_of_cons in Hk as [Hne Hk]. cbn [read_group].
  pose proof (on_untouched k k' (fun s => x_read s consumer n) w Hne) as Ho. destruct (on_stream k' _ w) as [got w1].
  specialize (IH w1 Hk). destruct (read_group consumer n ks w1) as [rest w2]. cbn in *. by rewrite IH.
Qed.

Lemma with_id_streams {X} id (f : eid -> Redis -> result string X * Redis) (w : Redis) k :
  (forall i, streams (f i w).2 !! k = streams w !! k) -> streams (with_id id f w).2 !! k = streams w !! k.
Proof. intros Hf. unfold with_id. by destruct (parse_id id). Qed.

Lemma exec_untouched {X} (c : cmd X) k (w : Redis) : k ∉ touched c -> streams (exec c w).2 !! k = streams w !! k.
Proof.
  intros Hk. destruct (no_stream c) eqn:Hn; [by rewrite exec_streams|].
  destruct c; try done; cbn [exec snd touched] in *; rewrite ?not_elem_of_cons in Hk.
  - apply put_untouched, Hk.
  - apply on_untouched, Hk.
  - destruct (forallb _ _); [by apply read_untouched|done].
  - by destruct (streams w !! k0).
  - by apply with_id_streams.
  - by destruct (bool_decide _).
  - by destruct (bool_decide _).
  - apply with_id_streams. intros i. apply change_untouched, Hk.
  - pose proof (with_id_streams id (fun i w => (Ok (), change k0 (remove_entry i) w)) w k) as Hr.
    destruct (with_id id _ w) as [r w1]. cbn [snd] in *. rewrite change_untouched by apply Hk.
    apply Hr. intros i. apply change_untouched, Hk.
  - pose proof (with_id_streams id (fun i w => (Ok (), change k0 (remove_entry i) w)) w k) as Hr.
    destruct (with_id id _ w) as [r w1]. cbn [snd] in *. set (f := fun s : S => let '(t, s') := add_text s d in (t, (x_trim s' 500).2)).
    pose proof (on_untouched k k0 f w1 (proj1 Hk)) as Ho. destruct (on_stream k0 f w1) as [t w2]. cbn [snd] in *. rewrite Ho.
    apply Hr. intros i. apply change_untouched, Hk.
  - destruct (there w k0); [|done]. apply with_id_streams. intros i. apply on_untouched, Hk.
  - apply change_untouched, Hk.
  - apply change_untouched, Hk.
  - apply with_id_streams. intros i. destruct Hk as (Hk1 & Hk2 & _). unfold dead_letter_transfer.
    destruct (negb _); [done|]. do 2 (destruct (bool_decide _); [done|]).
    pose proof (on_untouched k dlq (fun s => x_add s d) w Hk2) as H1. set (w1 := (on_stream dlq _ w).2) in *.
    pose proof (on_untouched k dlq (fun s => x_trim s EXACT_DEAD_LETTER_CAP) w1 Hk2) as H2.
    destruct (on_stream dlq _ w1) as [removed w2]. cbn [snd] in *. destruct (bool_decide _); [cbn; by rewrite H2, H1|].
    cbn [snd]. rewrite change_untouched by done.
    destruct (0 <? removed); cbn; by rewrite H2, H1.
  - destruct Hk as (Hk1 & Hk2 & _). unfold dead_letter_purge. destruct (bool_decide _); [done|].
    set (f := fun s : S => _). pose proof (on_untouched k DEAD_LETTER_AUDIT_STREAM f w Hk1) as Ho.
    destruct (on_stream _ f w) as [a w1]. cbn in *. by rewrite lookup_delete_ne.
  - by destruct (bool_decide _).
  - unfold enqueue_tracked. destruct (jobs w !! key) as [job|].
    { destruct (negb _); [done|]. by destruct (job !! "entry_id"). }
    destruct Hk as [Hk _]. pose proof (on_untouched k k0 (fun s => add_text s payload) w Hk) as Ho.
    by destruct (on_stream k0 _ w) as [e w1].
  - apply with_id_streams. intros i.
    assert (streams (cancel_entry k0 key i completed_at error source by_ w).2 !! k = streams w !! k) as Hc.
    { unfold cancel_entry. cbn [snd]. rewrite expire_streams. cbn. apply change_untouched, Hk. }
    repeat case_match; done.
Qed.

Lemma stream_untouched {X} (c : cmd X) k (w : Redis) : k ∉ touched c -> stream_at (exec c w).2 k = stream_at w k.
Proof. intros Hk. unfold stream_at. by rewrite exec_untouched. Qed.

(** Only dead letters are counted. *)
Definition counts_dropped {X} (c : cmd X) : bool := match c with DeadLetterTransfer _ _ _ _ _ => true | _ => false end.

Lemma on_stream_dropped {X} k (f : S -> X * S) (w : Redis) : dropped (on_stream k f w).2 = dropped w.
Proof. unfold on_stream. by destruct (f _). Qed.
Lemma change_dropped k f (w : Redis) : dropped (change k f w) = dropped w.
Proof. unfold change. by destruct (streams w !! k). Qed.
Lemma expire_dropped key (w : Redis) : dropped (expire key w) = dropped w.
Proof. unfold expire. by destruct (known w key). Qed.

Lemma read_dropped consumer n ks (w : Redis) : dropped (read_group consumer n ks w).2 = dropped w.
Proof.
  revert w. induction ks as [|k ks IH]; intros w; [done|]. cbn [read_group].
  pose proof (on_stream_dropped k (fun s => x_read s consumer n) w) as Ho. destruct (on_stream k _ w) as [got w1].
  specialize (IH w1). destruct (read_group consumer n ks w1) as [rest w2]. cbn in *. by rewrite IH.
Qed.

Lemma exec_dropped {X} (c : cmd X) (w : Redis) : counts_dropped c = false -> dropped (exec c w).2 = dropped w.
Proof.
  destruct c; try done; intros _; cbn [exec snd ok]; unfold with_id; try (destruct (parse_id id); [|done]); cbn [snd ok];
    rewrite ?on_stream_dropped, ?change_dropped, ?read_dropped; try done.
  - destruct (forallb _ _); [apply read_dropped|done].
  - by destruct (streams w !! k).
  - by destruct (bool_decide _).
  - by destruct (bool_decide _).
  - destruct (parse_id id); cbn; by rewrite !change_dropped.
  - set (f := fun s : S => let '(t, s') := add_text s d in (t, (x_trim s' 500).2)).
    assert (forall w' : Redis, dropped w' = dropped w -> dropped (on_stream k f w').2 = dropped w) as Hd.
    { intros w' Hw'. by rewrite on_stream_dropped. }
    destruct (parse_id id) as [i|].
    + specialize (Hd (change k (remove_entry i) w) (change_dropped k _ w)). by destruct (on_stream k f _) as [t w2].
    + specialize (Hd w eq_refl). cbn. by destruct (on_stream k f w) as [t w2].
  - destruct (there w k); [|done]. destruct (parse_id id); [|done]. cbn. apply on_stream_dropped.
  - unfold dead_letter_purge. destruct (bool_decide _); [done|]. set (f := fun s : S => _).
    pose proof (on_stream_dropped DEAD_LETTER_AUDIT_STREAM f w) as Ho. by destruct (on_stream _ f w) as [a w1].
  - by destruct (bool_decide _).
  - unfold enqueue_tracked. destruct (jobs w !! key) as [job|].
    { destruct (negb _); [done|]. by destruct (job !! "entry_id"). }
    pose proof (on_stream_dropped k (fun s => add_text s payload) w) as Ho. by destruct (on_stream k _ w) as [e w1].
  - unfold cancel_queued, with_id. destruct (parse_id id) as [i|]; [|done].
    assert (dropped (cancel_entry k key i completed_at error source by_ w).2 = dropped w) as Hc.
    { unfold cancel_entry. cbn [snd]. rewrite expire_dropped. cbn. apply change_dropped. }
    repeat case_match; done.
  - unfold reset_counter. by destruct (_ =? _).
  - by destruct terminal; [rewrite expire_dropped|].
  - unfold marker_ttl. destruct (markers w !! marker); [|done]. destruct (negb _); [done|].
    by destruct (is_terminal _); [rewrite expire_dropped|].
  - unfold heartbeat. destruct (jobs w !! key); [|done]. cbn. by destruct (is_terminal _); [rewrite expire_dropped|].
  - unfold preserve. destruct (jobs w !! key) as [job|]; [|done]. destruct (job !! "status") as [st|]; [|done].
    destruct (is_terminal _); [done|]. by destruct (job !! "idempotency_key_sha256").
  - unfold intent. by destruct (_ =? _).
  - unfold set_nx. by destruct (markers w !! key).
Qed.

(** ** Dead letters *)

Section DeadLetters.
Variable service : string.
Abbreviation dlq := (_dead_letter_stream service).
Hypothesis Hservice : service <> "audit" /\ service <> "metrics".

Lemma dlq_not_audit : dlq <> DEAD_LETTER_AUDIT_STREAM.
Proof. unfold _dead_letter_stream. change DEAD_LETTER_AUDIT_STREAM with ("dead-letter:" +:+ "audit"). destruct Hservice. by intros ?%append_inj. Qed.

Lemma dlq_not_metrics : dlq <> DEAD_LETTER_METRICS_HASH.
Proof. unfold _dead_letter_stream. change DEAD_LETTER_METRICS_HASH with ("dead-letter:" +:+ "metrics"). destruct Hservice. by intros ?%append_inj. Qed.

Lemma type_stream (w : Redis) k : type_of w k = stream_key <-> is_Some (streams w !! k).
Proof. unfold type_of. destruct (streams w !! k); [by split; [eexists|]|]. split; [by destruct (_ && _)|by intros []]. Qed.

(** Dead letters moved and purged by an event. *)
Definition moved (e : event) (w : Redis) : Z :=
  match e with
  | Sent (DeadLetterTransfer source k id s d) =>
      if String.eqb s service && is_ok (exec (DeadLetterTransfer source k id s d) w).1 then 1 else 0
  | _ => 0
  end.
Definition purged (e : event) (w : Redis) : Z :=
  match e with
  | Sent (DeadLetterPurge k actor reason t s) =>
      if String.eqb s service then match (dead_letter_purge k actor reason t s w).1 with Ok (n, _) => n | Err _ => 0 end else 0
  | _ => 0
  end.

Fixpoint tally (f : event -> Redis -> Z) (es : list event) (w : Redis) : Z :=
  match es with [] => 0 | e :: es' => f e w + tally f es' (happen e w) end.

Definition held (w : Redis) : Z := Z.of_nat (length (items (stream_at w dlq))).
Definition lost (w : Redis) : Z := default 0 (dropped w !! service).

Lemma key_differs s : s <> service -> _dead_letter_stream s <> dlq.
Proof. unfold _dead_letter_stream. by intros Hs ?%append_inj. Qed.

(** Adding to the stream of [s] and trimming it. *)
Lemma add_and_trim s d (w : Redis) :
  let w1 := (on_stream (_dead_letter_stream s) (fun q => x_add q d) w).2 in
  let '(removed, w2) := on_stream (_dead_letter_stream s) (fun q => x_trim q EXACT_DEAD_LETTER_CAP) w1 in
  dropped w2 = dropped w /\ 0 <= removed /\
  (s <> service -> held w2 = held w) /\ (s = service -> held w2 + removed = held w + 1 /\ (held w <= 100 -> held w2 <= 100)).
Proof.
  cbv zeta. unfold on_stream at 2. pose proof (x_add_items (stream_at w (_dead_letter_stream s)) d) as Ha.
  destruct (x_add (stream_at w (_dead_letter_stream s)) d) as [i q] eqn:Hq. cbn [fst snd] in *. unfold on_stream.
  rewrite put_same. pose proof (x_trim_items q EXACT_DEAD_LETTER_CAP) as Ht. pose proof (x_trim_count q EXACT_DEAD_LETTER_CAP) as Hc.
  destruct (x_trim q EXACT_DEAD_LETTER_CAP) as [removed q']. cbn [fst snd] in *. split_and!; [done|lia| |].
  - intros Hs. unfold held. by rewrite !put_other by (by apply not_eq_sym, key_differs).
  - intros ->. unfold held. rewrite put_same, Ht, length_drop, Hc, Ha, length_app. unfold EXACT_DEAD_LETTER_CAP. cbn. lia.
Qed.

Lemma transfer_step source id s d (w : Redis) : queue_key source ->
  let '(r, w') := exec (DeadLetterTransfer source (_dead_letter_stream s) id s d) w in
  held w' + lost w' = held w + lost w + (if String.eqb s service && is_ok r then 1 else 0) /\
  (held w <= 100 -> held w' <= 100).
Proof.
  intros Hq. cbn [exec]. unfold with_id. destruct (parse_id id) as [i|]; [|cbn; destruct (String.eqb s service); cbn; lia].
  unfold dead_letter_transfer. destruct (negb _); [cbn; destruct (String.eqb s service); cbn; lia|].
  destruct (bool_decide _); [cbn; destruct (String.eqb s service); cbn; lia|].
  destruct (bool_decide (type_of w _ = stream_key)) eqn:Hm; [cbn; destruct (String.eqb s service); cbn; lia|].
  pose proof (add_and_trim s d w) as Hat. cbv zeta in *.
  assert (s = service -> streams (on_stream (_dead_letter_stream s) (fun q => x_trim q EXACT_DEAD_LETTER_CAP)
    (on_stream (_dead_letter_stream s) (fun q => x_add q d) w).2).2 !! DEAD_LETTER_METRICS_HASH = streams w !! DEAD_LETTER_METRICS_HASH) as Hm2.
  { intros ->. pose proof (not_eq_sym dlq_not_metrics). by rewrite !on_untouched. }
  destruct (on_stream _ _ (on_stream _ _ w).2) as [removed w2]. cbn [snd] in Hm2. destruct Hat as (Hd & Hr & Hother & Hsame).
  destruct (bool_decide (type_of w2 _ = stream_key)) eqn:Hm'.
  { unfold wrong_type, lost. cbn [is_ok]. rewrite andb_false_r, Hd. assert (s <> service) as Hne; [|rewrite Hother by done; lia].
    intros Hs. apply bool_decide_eq_false in Hm. apply bool_decide_eq_true in Hm'. apply Hm, type_stream.
    rewrite <- (Hm2 Hs). by apply type_stream. }
  set (w3 := if 0 <? removed then _ else w2). assert (held (change source (remove_entry i) w3) = held w2) as Hh.
  { unfold held. rewrite change_other by (by apply not_eq_sym, queue_not_dead). unfold w3. by destruct (0 <? removed). }
  assert (lost (change source (remove_entry i) w3) = lost w + (if String.eqb s service then removed else 0)) as Hl.
  { unfold lost. rewrite change_dropped. unfold w3. destruct (0 <? removed) eqn:H0; cbn; rewrite Hd.
    - destruct (String.eqb_spec s service) as [->|Hne]; [by rewrite lookup_insert_eq|by rewrite lookup_insert_ne, Z.add_0_r].
    - destruct (String.eqb s service); lia. }
  cbn [is_ok]. rewrite Hh, Hl, andb_true_r. destruct (String.eqb_spec s service) as [->|Hne]; [|rewrite Hother by done; lia].
  destruct (Hsame eq_refl). lia.
Qed.

Lemma purge_step actor reason t s (w : Redis) :
  let w' := (dead_letter_purge (_dead_letter_stream s) actor reason t s w).2 in
  held w' + lost w' + purged (Sent (DeadLetterPurge (_dead_letter_stream s) actor reason t s)) w = held w + lost w /\
  (held w <= 100 -> held w' <= 100).
Proof.
  cbn [purged]. unfold dead_letter_purge. destruct (bool_decide _); [cbn; destruct (String.eqb s service); lia|].
  set (f := fun q : S => _). pose proof (on_stream_other dlq DEAD_LETTER_AUDIT_STREAM f w dlq_not_audit) as Ho.
  pose proof (on_stream_dropped DEAD_LETTER_AUDIT_STREAM f w) as Hd. destruct (on_stream _ f w) as [audit w1]. cbn [fst snd] in *.
  set (w' := w1 ⟪ streams := delete (_dead_letter_stream s) (streams w1) ⟫).
  assert (lost w' = lost w) as -> by (unfold lost; cbn; by rewrite Hd).
  assert (held w' = if String.eqb s service then 0 else held w) as ->.
  { unfold held. change (stream_at w' dlq) with (default fresh (delete (_dead_letter_stream s) (streams w1) !! dlq)).
    destruct (String.eqb_spec s service) as [->|Hne]; [by rewrite lookup_delete_eq; cbn; rewrite items_fresh|].
    rewrite lookup_delete_ne by (by apply key_differs). fold (stream_at w1 dlq). by rewrite Ho. }
  destruct (String.eqb_spec s service) as [->|Hne]; unfold held; lia.
Qed.

Definition balanced (e : event) (w : Redis) : Prop :=
  held (happen e w) + lost (happen e w) + purged e w = held w + lost w + moved e w /\ (held w <= 100 -> held (happen e w) <= 100).

Lemma untouched_balanced {X} (c : cmd X) (w : Redis) : dlq ∉ touched c -> counts_dropped c = false ->
  moved (Sent c) w = 0 -> purged (Sent c) w = 0 -> balanced (Sent c) w.
Proof.
  intros Ht Hc Hm Hp. unfold balanced. rewrite Hm, Hp. unfold held, lost. cbn [happen].
  rewrite stream_untouched, exec_dropped by done. lia.
Qed.

Lemma queue_untouched k : queue_key k -> dlq ∉ [k].
Proof. intros Hk Hin%list_elem_of_singleton. by apply (queue_not_dead k service Hk). Qed.

Lemma event_balanced e (w : Redis) : sendable_event e -> balanced e w.
Proof.
  destruct e as [X c|key]; cbn [sendable_event]; [|intros _; unfold balanced, held, lost, stream_at;
    cbn [happen moved purged]; unfold expired; destruct (bool_decide _); cbn; lia].
  intros Hc. destruct c; try (apply untouched_balanced; [|done..]; cbn in *; (apply queue_untouched; tauto) || apply not_elem_of_nil).
  - apply untouched_balanced; [|done..]. cbn in *. intros Hin. rewrite Forall_forall in Hc.
    by apply (queue_not_dead dlq service (Hc dlq Hin)).
  - destruct Hc as [Hq ->]. pose proof (transfer_step source id service0 d w Hq) as Ht. unfold balanced. cbn [happen moved purged].
    destruct (exec _ w) as [r w']. cbn [fst snd]. lia.
  - cbn in Hc. subst. pose proof (purge_step actor reason timestamp service0 w) as Hp. cbv zeta in Hp. unfold balanced. cbn [happen moved exec]. lia.
Qed.

End DeadLetters.

(** ** Admission keys *)

(** What can happen to the marker of a key: nothing, while it has no expiry;
    and it gets one only when its job has ended. *)
Definition marked (mk : string) (m : Marker) (w : Redis) : Prop := markers w !! mk = Some m.

Lemma on_stream_jobs {X} k (f : S -> X * S) (w : Redis) :
  markers (on_stream k f w).2 = markers w /\ expiring (on_stream k f w).2 = expiring w /\
  jobs (on_stream k f w).2 = jobs w /\ writes (on_stream k f w).2 = writes w.
Proof. unfold on_stream. by destruct (f _). Qed.

Lemma change_jobs k f (w : Redis) :
  markers (change k f w) = markers w /\ expiring (change k f w) = expiring w /\ jobs (change k f w) = jobs w /\
  writes (change k f w) = writes w.
Proof. unfold change. by destruct (streams w !! k). Qed.

Lemma read_jobs consumer n ks (w : Redis) :
  markers (read_group consumer n ks w).2 = markers w /\ expiring (read_group consumer n ks w).2 = expiring w /\
  jobs (read_group consumer n ks w).2 = jobs w /\ writes (read_group consumer n ks w).2 = writes w.
Proof.
  revert w. induction ks as [|k ks IH]; intros w; [done|]. cbn [read_group].
  pose proof (on_stream_jobs k (fun s => x_read s consumer n) w) as Ho. destruct (on_stream k _ w) as [got w1].
  specialize (IH w1). destruct (read_group consumer n ks w1) as [rest w2]. cbn in *. intuition congruence.
Qed.

(** The commands on streams alone. *)
Definition only_streams {X} (c : cmd X) : bool :=
  match c with
  | XGroupCreate _ | XAdd _ _ | XReadGroup _ _ _ | XInfoLast _ | XRead _ _ | XRange _ _ | XRangeAll _ _ | XLen _
  | XInfoLength _ | XAck _ _ | AckTx _ _ | ReplaceTx _ _ _ | XClaim _ _ _ | XTrim _ _ | XTrimAbout _ _
  | DeadLetterTransfer _ _ _ _ _ | DeadLetterPurge _ _ _ _ _ | HGetDropped _ | XInfoGroup _ | XPending _ _ => true
  | _ => false
  end.

Lemma transfer_jobs source k i s d (w : Redis) :
  let w' := (dead_letter_transfer source k i s d w).2 in
  markers w' = markers w /\ expiring w' = expiring w /\ jobs w' = jobs w /\ writes w' = writes w.
Proof.
  unfold dead_letter_transfer, wrong_type. destruct (negb _); [done|]. do 2 (destruct (bool_decide _); [done|]).
  pose proof (on_stream_jobs k (fun q => x_add q d) w) as H1. set (w1 := (on_stream k _ w).2) in *.
  pose proof (on_stream_jobs k (fun q => x_trim q EXACT_DEAD_LETTER_CAP) w1) as H2.
  destruct (on_stream k _ w1) as [removed w2]. cbn [snd] in *. cbv zeta. destruct (bool_decide _); [cbn [snd]; intuition congruence|].
  set (w3 := if 0 <? removed then _ else w2).
  pose proof (change_jobs source (remove_entry i) w3) as H3.
  assert (markers w3 = markers w2 /\ expiring w3 = expiring w2 /\ jobs w3 = jobs w2 /\ writes w3 = writes w2) as H4.
  { unfold w3. by destruct (0 <? removed). }
  cbn [snd]. intuition congruence.
Qed.

Lemma removed_jobs k id (w : Redis) :
  let w' := (with_id id (fun i w => (Ok (), change k (remove_entry i) w)) w).2 in
  markers w' = markers w /\ expiring w' = expiring w /\ jobs w' = jobs w /\ writes w' = writes w.
Proof. unfold with_id. destruct (parse_id id); [apply change_jobs|done]. Qed.

Lemma streams_leave_jobs {X} (c : cmd X) (w : Redis) : only_streams c = true ->
  let w' := (exec c w).2 in
  markers w' = markers w /\ expiring w' = expiring w /\ jobs w' = jobs w /\ writes w' = writes w.
Proof.
  destruct c; try done; intros _; cbn [exec snd ok]; unfold with_id; try (destruct (parse_id id); [|done]); cbn [snd ok];
    try done; try apply on_stream_jobs; try apply change_jobs; try apply transfer_jobs; try (by destruct (bool_decide _)).
  - destruct (forallb _ _); [apply read_jobs|done].
  - by destruct (streams w !! k).
  - pose proof (removed_jobs k id w) as Hr. unfold with_id in Hr. destruct (match parse_id id with Some _ => _ | None => _ end) as [r w1].
    cbn [snd] in *. pose proof (change_jobs k (fun s => (x_trim s 500).2) w1). intuition congruence.
  - pose proof (removed_jobs k id w) as Hr. unfold with_id in Hr. destruct (match parse_id id with Some _ => _ | None => _ end) as [r w1].
    cbn [snd] in *. set (f := fun s : S => let '(t, s') := add_text s d in (t, (x_trim s' 500).2)).
    pose proof (on_stream_jobs k f w1). destruct (on_stream k f w1) as [t w2]. cbn [snd] in *. intuition congruence.
  - destruct (there w k); [|done]. destruct (parse_id id); [|done]. apply on_stream_jobs.
  - unfold dead_letter_purge. destruct (bool_decide _); [done|]. set (f := fun q : S => _).
    pose proof (on_stream_jobs DEAD_LETTER_AUDIT_STREAM f w) as Ho. by destruct (on_stream _ f w) as [a w1].
Qed.

Lemma expire_other key mk (w : Redis) : key <> mk -> mk ∉ expiring w -> mk ∉ expiring (expire key w).
Proof. intros Hk Hm. unfold expire. destruct (known w key); [|done]. cbn. set_solver. Qed.

Lemma persist_other key mk (w : Redis) : mk ∉ expiring w -> mk ∉ expiring (persist key w).
Proof. cbn. set_solver. Qed.

Lemma expire_markers key (w : Redis) : markers (expire key w) = markers w.
Proof. unfold expire. by destruct (known w key). Qed.

(** The marker is there and does not expire. *)
Definition firm (mk : string) (m : Marker) (w : Redis) : Prop := marked mk m w /\ mk ∉ expiring w.

Lemma firm_expire mk m key (w : Redis) : key <> mk -> firm mk m w -> firm mk m (expire key w).
Proof. intros Hk [Hm He]. split; [unfold marked; by rewrite expire_markers|by apply expire_other]. Qed.

Lemma firm_hset mk m key d (w : Redis) : firm mk m w -> firm mk m (hset key d w).
Proof. done. Qed.

Lemma firm_same mk m (w w' : Redis) : markers w' = markers w -> expiring w' = expiring w -> firm mk m w -> firm mk m w'.
Proof. unfold firm, marked. by intros -> ->. Qed.

Lemma firm_forget mk m key (w : Redis) : key <> mk -> firm mk m w -> firm mk m (forget key w).
Proof.
  intros Hk [Hm He]. split; [|cbn; set_solver]. unfold marked. cbn. by rewrite lookup_delete_ne.
Qed.

(** The event that lets the marker of an ended job expire. *)
Definition releases (mk : string) (m : Marker) (e : event) (w : Redis) : Prop :=
  e = Sent (MarkerTtl (_key (marker_job m)) mk (marker_job m)) /\
  is_terminal (status_at w (_key (marker_job m))) = true.

Lemma firm_step mk m e (w : Redis) : marker_key mk -> sendable_event e -> firm mk m w ->
  firm mk m (happen e w) \/ releases mk m e w.
Proof.
  intros Hmk He Hf. destruct e as [X c|key]; cbn [happen].
  2:{ left. unfold expired. destruct (bool_decide _) eqn:Hb; [|done]. apply bool_decide_eq_true in Hb.
      apply firm_forget; [|done]. intros ->. by destruct Hf. }
  cbn [sendable_event] in He. assert (forall key, job_key key -> key <> mk) as Hjob by (intros key Hk; by apply job_not_marker).
  destruct (only_streams c) eqn:Ho.
  { left. destruct (streams_leave_jobs c w Ho) as (H1 & H2 & _). by apply (firm_same mk m w). }
  destruct c; try done; cbn [sendable] in He; cbn [exec snd ok]; try (by left).
  - left. destruct He as [He _]. unfold enqueue_tracked. destruct (jobs w !! key) as [job|].
    { destruct (negb _); [done|]. by destruct (job !! "entry_id"). }
    pose proof (on_stream_jobs k (fun q => add_text q payload) w) as (H1 & H2 & _).
    destruct (on_stream k _ w) as [entry w1]. cbn [fst snd] in *. by apply firm_hset, firm_hset, (firm_same mk m w).
  - left. destruct He as [He _]. unfold cancel_queued, with_id. destruct (parse_id id) as [i|]; [|done].
    assert (firm mk m (cancel_entry k key i completed_at error source by_ w).2) as Hc.
    { unfold cancel_entry. cbn [snd]. apply firm_expire; [by apply Hjob|].
      destruct (change_jobs k (remove_entry i) w) as (H1 & H2 & _). by apply firm_hset, (firm_same mk m w). }
    repeat case_match; done.
  - left. unfold reset_counter. by destruct (_ =? _).
  - left. split; [apply Hf|]. apply persist_other, Hf.
  - left. destruct terminal; [by apply firm_expire; [apply Hjob|]|]. split; [apply Hf|]. apply persist_other, Hf.
  - destruct He as [-> Hm]. unfold marker_ttl. destruct (markers w !! marker) as [m'|] eqn:Hl; [|by left].
    destruct (negb _) eqn:Hj; [by left|]. apply negb_false_iff, String.eqb_eq in Hj.
    destruct (is_terminal _) eqn:Ht; [|left; split; [apply Hf|apply persist_other, Hf]].
    destruct (decide (marker = mk)) as [->|Hne]; [|by left; apply firm_expire].
    right. destruct Hf as [Hf _]. unfold marked in Hf. simplify_eq. by split.
  - left. unfold heartbeat. destruct (jobs w !! key); [|done]. cbn [snd]. destruct (is_terminal _).
    + by apply firm_expire; [apply Hjob|].
    + split; [apply Hf|]. apply persist_other, Hf.
  - left. unfold preserve. destruct (jobs w !! key) as [job|]; [|done]. destruct (job !! "status") as [st|]; [|done].
    destruct (is_terminal _); [done|]. destruct (job !! "idempotency_key_sha256"); cbn [snd];
      (split; [apply Hf|]); by repeat apply persist_other; apply Hf.
  - left. unfold intent. by destruct (_ =? _).
  - left. by apply firm_forget; [apply Hjob|].
  - left. unfold set_nx. destruct (markers w !! key) as [m'|] eqn:Hk; [done|]. cbn [snd]. destruct Hf as [Hf Hx].
    unfold marked in Hf. split; [|cbn; set_solver]. unfold marked. cbn. rewrite lookup_insert_ne; [done|]. by intros ->; simplify_eq.
Qed.

(** C27. An admission key is granted again only after its job ended: between two
    grants of one idempotency key, whatever any process sent and whichever keys
    expired in between, the job that the first grant named was seen recorded as
    completed, failed or cancelled. *)
Theorem key_granted_again_after_end mk m m' es (w : Redis) : marker_key mk -> Forall sendable_event es ->
  (exec (SetNx mk m) w).1 = Ok true ->
  (exec (SetNx mk m') (history es (exec (SetNx mk m) w).2)).1 = Ok true ->
  exists before after, es = before ++ Sent (MarkerTtl (_key (marker_job m)) mk (marker_job m)) :: after /\
    is_terminal (status_at (history before (exec (SetNx mk m) w).2) (_key (marker_job m))) = true.
Proof.
  intros Hmk Hes H1. assert (firm mk m (exec (SetNx mk m) w).2) as Hf.
  { revert H1. cbn. unfold set_nx. destruct (markers w !! mk); [done|]. intros _. split; [|cbn; set_solver].
    unfold marked. cbn. by rewrite lookup_insert_eq. }
  clear H1. revert Hf. generalize (exec (SetNx mk m) w).2. clear w.
  induction Hes as [|e es He Hes IH]; intros w Hf H2.
  { exfalso. revert H2. cbn. unfold set_nx. destruct Hf as [Hf _]. unfold marked in Hf. by rewrite Hf. }
  destruct (firm_step mk m e w Hmk He Hf) as [Hf'|[-> Ht]]; [|by exists [], es].
  destruct (IH (happen e w) Hf' H2) as (before & after & -> & Ht). by exists (e :: before), after.
Qed.

(** ** Cancellation intents *)

(** The hash of a job is as it was, or a write of it was counted. *)
Definition noticed (key : string) (w w' : Redis) : Prop :=
  (jobs w' !! key = jobs w !! key /\ default 0 (writes w' !! key) = default 0 (writes w !! key)) \/
  default 0 (writes w !! key) < default 0 (writes w' !! key).

Lemma noticed_trans key w1 w2 w3 : noticed key w1 w2 -> noticed key w2 w3 -> noticed key w1 w3.
Proof. intros [[H1 H2]|H1] [[H3 H4]|H3]; [left; split; congruence|right; lia..]. Qed.

Lemma noticed_same key (w w' : Redis) : jobs w' = jobs w -> writes w' = writes w -> noticed key w w'.
Proof. intros H1 H2. left. by rewrite H1, H2. Qed.

Lemma noticed_touch key k (w w' : Redis) :
  (k <> key -> jobs w' !! key = jobs w !! key) -> writes w' = writes w -> noticed key w (touch k w').
Proof.
  intros Hj Hw. unfold noticed. cbn. rewrite Hw. destruct (decide (k = key)) as [->|Hne].
  - right. rewrite lookup_insert_eq. cbn. lia.
  - left. rewrite lookup_insert_ne by done. auto.
Qed.

Lemma noticed_hset key k d (w : Redis) : noticed key w (hset k d w).
Proof. apply noticed_touch; [|done]. intros Hk. cbn. by rewrite lookup_insert_ne. Qed.

Lemma noticed_forget key k (w : Redis) : noticed key w (forget k w).
Proof. apply noticed_touch; [|done]. intros Hk. cbn. by rewrite lookup_delete_ne. Qed.

Lemma noticed_expire key k (w : Redis) : noticed key w (expire k w).
Proof. unfold expire. destruct (known w k); by apply noticed_same. Qed.

Lemma noticed_happen key e (w : Redis) : noticed key w (happen e w).
Proof.
  assert (noticed key w w) as Hsame by by apply noticed_same.
  destruct e as [X c|k]; cbn [happen]; [|unfold expired; destruct (bool_decide _); [apply noticed_forget|done]].
  destruct (only_streams c) eqn:Ho.
  { destruct (streams_leave_jobs c w Ho) as (_ & _ & H1 & H2). by apply noticed_same. }
  destruct c; try done; cbn [exec snd ok]; try done.
  - unfold enqueue_tracked. destruct (jobs w !! key0) as [job|].
    { destruct (negb _); [done|]. by destruct (job !! "entry_id"). }
    pose proof (on_stream_jobs k (fun q => add_text q payload) w) as (_ & _ & H1 & H2).
    destruct (on_stream k _ w) as [entry w1]. cbn [fst snd] in *.
    eapply noticed_trans; [by apply (noticed_same key w w1)|]. eapply noticed_trans; apply noticed_hset.
  - unfold cancel_queued, with_id. destruct (parse_id id) as [i|]; [|done].
    assert (noticed key w (cancel_entry k key0 i completed_at error source by_ w).2) as Hc.
    { unfold cancel_entry. cbn [snd].
      destruct (change_jobs k (remove_entry i) w) as (_ & _ & H1 & H2).
      eapply noticed_trans; [by apply (noticed_same key w (change k (remove_entry i) w))|].
      eapply noticed_trans; [apply noticed_hset|apply noticed_expire]. }
    repeat case_match; done.
  - by apply noticed_touch.
  - unfold reset_counter. destruct (_ =? _); [by apply noticed_touch|done].
  - apply noticed_hset.
  - destruct terminal; [|apply noticed_hset]. eapply noticed_trans; [apply noticed_hset|apply noticed_expire].
  - unfold marker_ttl. destruct (markers w !! marker); [|done]. destruct (negb _); [done|].
    destruct (is_terminal _); [apply noticed_expire|done].
  - unfold heartbeat. destruct (jobs w !! key0); [|done]. cbn [snd]. destruct (is_terminal _); [|apply noticed_hset].
    eapply noticed_trans; [apply noticed_hset|apply noticed_expire].
  - unfold preserve. destruct (jobs w !! key0) as [job|]; [|done]. destruct (job !! "status") as [st|]; [|done].
    destruct (is_terminal _); [done|]. by destruct (job !! "idempotency_key_sha256").
  - unfold intent. destruct (_ =? _); [apply noticed_hset|done].
  - apply noticed_forget.
  - unfold set_nx. by destruct (markers w !! key0).
Qed.

Lemma noticed_history key es (w : Redis) : noticed key w (history es w).
Proof.
  revert w. induction es as [|e es IH]; intros w; [by apply noticed_same|].
  eapply noticed_trans; [apply noticed_happen|apply IH].
Qed.

(** A cancellation intent never touches a job that ended: when the intent
    of a call that saw the job in flight is written, the job is still in flight
    and stays so, whatever was sent between the call's reading and its write. *)
Theorem intent_only_in_flight key version es (w : Redis) :
  (exec (WatchStatus key) w).1 = Ok (Some "in_flight", version) ->
  (exec (IntentTx key version) (history es w)).1 = Ok true ->
  status_at (history es w) key = Some "in_flight" /\
  status_at (exec (IntentTx key version) (history es w)).2 key = Some "in_flight".
Proof.
  cbn [exec fst]. intros [= Hst Hv] Hok. unfold ok, intent in *. destruct (_ =? version) eqn:Heq; [|done].
  apply Z.eqb_eq in Heq. destruct (noticed_history key es w) as [[Hj _]|Hlt]; [|lia].
  assert (status_at (history es w) key = Some "in_flight") as Hs by (unfold status_at, job_at in *; by rewrite Hj).
  split; [done|]. cbn [snd]. unfold status_at, job_at. cbn. rewrite lookup_insert_eq. cbn.
  rewrite lookup_union_r; [exact Hs|]. by rewrite lookup_singleton_ne.
Qed.

(** ** Tracked children *)

(** An event leaves the receipt of a tracked child alone. *)
Definition leaves_receipt (key : string) (e : event) : Prop :=
  match e with
  | Sent c =>
      match c with
      | HSet k d | StatusTx k d _ | HeartbeatScript k d =>
          k = key -> d !! "entry_id" = None /\ d !! "request_sha256" = None
      | Delete k => k <> key
      | _ => True
      end
  | Expired k => k <> key
  end.

Definition receipt (key sha handle : string) (w : Redis) : Prop :=
  is_Some (jobs w !! key) /\ job_at w key !! "entry_id" = Some handle /\ job_at w key !! "request_sha256" = Some sha.

Lemma receipt_jobs key sha handle (w w' : Redis) : jobs w' !! key = jobs w !! key -> receipt key sha handle w -> receipt key sha handle w'.
Proof. unfold receipt, job_at. by intros ->. Qed.

Lemma receipt_hset key sha handle k d (w : Redis) : (k = key -> d !! "entry_id" = None /\ d !! "request_sha256" = None) ->
  receipt key sha handle w -> receipt key sha handle (hset k d w).
Proof.
  intros Hd Hr. destruct (decide (k = key)) as [->|Hne]; [|apply (receipt_jobs _ _ _ w); [cbn; by rewrite lookup_insert_ne|done]].
  destruct Hr as (_ & He & Hs), (Hd eq_refl) as [H1 H2]. unfold receipt, job_at. cbn. rewrite lookup_insert_eq. cbn.
  split_and!; [done| |]; by rewrite lookup_union_r.
Qed.

Lemma expire_jobs key (w : Redis) : jobs (expire key w) = jobs w.
Proof. unfold expire. by destruct (known w key). Qed.

Lemma receipt_expire key sha handle k (w : Redis) : receipt key sha handle w -> receipt key sha handle (expire k w).
Proof. apply receipt_jobs. by rewrite expire_jobs. Qed.

Lemma receipt_forget key sha handle k (w : Redis) : k <> key -> receipt key sha handle w -> receipt key sha handle (forget k w).
Proof. intros Hk. apply receipt_jobs. cbn. by rewrite lookup_delete_ne. Qed.

Lemma receipt_happen key sha handle e (w : Redis) : leaves_receipt key e -> receipt key sha handle w -> receipt key sha handle (happen e w).
Proof.
  intros He Hr. destruct e as [X c|k]; cbn [happen]; [|unfold expired; destruct (bool_decide _); [by apply receipt_forget|done]].
  destruct (only_streams c) eqn:Ho.
  { destruct (streams_leave_jobs c w Ho) as (_ & _ & H1 & _). by apply (receipt_jobs _ _ _ w); [rewrite H1|]. }
  destruct c; try done; cbn [leaves_receipt] in He; cbn [exec snd ok]; try done.
  - unfold enqueue_tracked. destruct (jobs w !! key0) as [job|] eqn:Hk.
    { destruct (negb _); [done|]. by destruct (job !! "entry_id"). }
    assert (key0 <> key) as Hne by (intros ->; destruct Hr as [[? Hx] _]; by rewrite Hk in Hx).
    pose proof (on_stream_jobs k (fun q => add_text q payload) w) as (_ & _ & H1 & _).
    destruct (on_stream k _ w) as [entry w1]. cbn [fst snd] in *. apply (receipt_jobs _ _ _ w); [|done].
    cbn. by rewrite !lookup_insert_ne, H1.
  - unfold cancel_queued, with_id. destruct (parse_id id) as [i|]; [|done].
    assert (receipt key sha handle (cancel_entry k key0 i completed_at error source by_ w).2) as Hc.
    { unfold cancel_entry. cbn [snd]. apply receipt_expire, receipt_hset.
      - intros _. split; by rewrite !lookup_insert_ne, lookup_singleton_ne.
      - destruct (change_jobs k (remove_entry i) w) as (_ & _ & H1 & _). by apply (receipt_jobs _ _ _ w); [rewrite H1|]. }
    repeat case_match; done.
  - unfold reset_counter. by destruct (_ =? _).
  - by apply receipt_hset.
  - destruct terminal; [by apply receipt_expire, receipt_hset|by apply receipt_hset].
  - unfold marker_ttl. destruct (markers w !! marker); [|done]. destruct (negb _); [done|].
    destruct (is_terminal _); [by apply receipt_expire|done].
  - unfold heartbeat. destruct (jobs w !! key0); [|done]. cbn [snd].
    destruct (is_terminal _); [by apply receipt_expire, receipt_hset|by apply receipt_hset].
  - unfold preserve. destruct (jobs w !! key0) as [job|]; [|done]. destruct (job !! "status") as [st|]; [|done].
    destruct (is_terminal _); [done|]. by destruct (job !! "idempotency_key_sha256").
  - unfold intent. destruct (_ =? _); [|done]. apply receipt_hset; [|done]. intros _. split; by rewrite lookup_singleton_ne.
  - by apply receipt_forget.
  - unfold set_nx. by destruct (markers w !! key0).
Qed.

(** A tracked child is enqueued once: repeating its enqueue, as after a
    reply that was lost, answers the handle of the first entry and changes
    nothing, whatever was sent in between that leaves its receipt alone. *)
Theorem tracked_enqueued_once key k payload record sha prefix k' payload' record' prefix' handle es (w : Redis) :
  jobs w !! key = None -> record !! "request_sha256" = Some sha -> Forall (leaves_receipt key) es ->
  (exec (EnqueueTracked key k payload record sha prefix) w).1 = Ok handle ->
  let w' := history es (exec (EnqueueTracked key k payload record sha prefix) w).2 in
  exec (EnqueueTracked key k' payload' record' sha prefix') w' = (Ok handle, w').
Proof.
  intros Hnew Hrec Hes Hok. assert (receipt key sha handle (exec (EnqueueTracked key k payload record sha prefix) w).2) as Hr.
  { revert Hok. cbn [exec]. unfold enqueue_tracked. rewrite Hnew. destruct (on_stream k _ w) as [entry w1].
    cbn. intros [= <-]. unfold receipt, job_at. cbn. rewrite lookup_insert_eq. cbn. split; [done|].
    split; [apply lookup_union_Some_l, lookup_insert_eq|]. rewrite lookup_union_r by by rewrite lookup_singleton_ne.
    unfold job_at. cbn. rewrite lookup_insert_eq. cbn. by apply lookup_union_Some_l. }
  cbv zeta. revert Hr. clear Hok Hnew Hrec. generalize (exec (EnqueueTracked key k payload record sha prefix) w).2. clear w.
  induction Hes as [|e es He Hes IH]; intros w Hr; [|by apply (IH (happen e w)), receipt_happen].
  cbn [history fold_left exec]. unfold enqueue_tracked. destruct Hr as ([job Hj] & H1 & H2). unfold job_at in *.
  rewrite Hj in *. cbn in H1, H2. by rewrite H2, bool_decide_eq_true_2, H1.
Qed.

End Ledger.
