(* ===== verification/QueueClaims.v ===== *)
(** * QueueClaims: the most urgent job is claimed first

    [dequeue] with priority lanes, run while nobody else sends commands: it
    claims the head of the lane whose head has the greatest score of priority
    and age. *)

From S2P Require Import Prelude PyValue PyText Programs QueueRedis QueueEngine QueueAsync QueueSafety.

Section Claims.
Context {S : Type} `{QueueStream S} `{!QueueStreamLaws S}.
Abbreviation Redis := (Redis S).
Variables (interval : time) (cap : Z).

(** Commands run at once, at one moment. *)
Definition alone (X : Type) (o : qop X) (w : Redis * time) : X * (Redis * time) :=
  match o in qop X return X * (Redis * time) with
  | Send c => let '(r, w') := exec c w.1 in (r, (w', w.2))
  | NowIso => ("", w)
  | Clock => (w.2, w)
  end.

Abbreviation run p w := (run_all alone p w).

Lemma run_then {A B} (p : qm A) (k : A -> qm B) w :
  run (p ≫= k) w = match run p w with
                   | (Ok (Ok a), w') => run (k a) w'
                   | (Ok (Err e), w') => (Ok (Err e), w')
                   | (Err t, w') => (Err t, w')
                   end.
Proof.
  etrans; [exact (run_all_bind alone p (fun r => match r with Ok a => k a | Err e => Ret (Err e) end) w)|].
  by destruct (run p w) as [[[a|e]|t] w'].
Qed.

Lemma run_caught {A} (p : qm A) handler w a w' : run p w = (Ok (Ok a), w') -> run (except_redis p handler) w = (Ok (Ok a), w').
Proof.
  intros Hp. unfold except_redis. etrans; [exact (run_all_bind alone p _ w)|]. by rewrite Hp.
Qed.

Lemma run_send {X} (c : cmd X) (w : Redis) t x w' : exec c w = (Ok x, w') -> run (send c) (w, t) = (Ok (Ok x), (w', t)).
Proof. intros He. cbn. by rewrite He. Qed.

(** The same streams, and those of [ks] are there. *)
Definition prepared (ks : list string) (w w' : Redis) : Prop :=
  (forall k, stream_at w' k = stream_at w k) /\ Forall (fun k => is_Some (streams w' !! k)) ks.

Lemma run_groups (specs : list (string * option string)) (w : Redis) t :
  exists w', run (each (fun s => send (XGroupCreate s.1)) specs) (w, t) = (Ok (Ok ()), (w', t)) /\
    prepared specs.*1 w w' /\ (forall k, is_Some (streams w !! k) -> is_Some (streams w' !! k)).
Proof.
  revert w. induction specs as [|[k lane] specs IH]; intros w; [by exists w|]. cbn [each].
  set (w1 := put_stream k (stream_at w k) w). destruct (IH w1) as (w' & Hr & [Hs Hk] & Hd). exists w'.
  assert (forall k', stream_at w1 k' = stream_at w k') as H1.
  { intros k'. destruct (decide (k' = k)) as [->|Hne]; [by apply put_same|by apply put_other]. }
  split_and!.
  - etrans; [apply (run_then (send (XGroupCreate k)))|]. rewrite (run_send (XGroupCreate k) w t () w1 eq_refl). exact Hr.
  - split; [intros k'; by rewrite Hs, H1|]. cbn. constructor; [|done]. apply Hd. cbn. by rewrite lookup_insert_eq.
  - intros k' Hk'. apply Hd. cbn. destruct (decide (k = k')) as [->|Hne]; [by rewrite lookup_insert_eq|by rewrite lookup_insert_ne].
Qed.

(** The heads of the streams, scored. *)
Definition heads (now : time) (w : Redis) (specs : list (string * option string)) : list candidate :=
  omap (fun s => (fun e => (_priority_age_score interval cap s.2 e.1 now, s)) <$> head (waiting (stream_at w s.1))) specs.

(** Looking at a stream that is there. *)
Definition sees (look : string -> qm (option (eid * fields))) : Prop := forall k (w : Redis) t,
  is_Some (streams w !! k) -> run (look k) (w, t) = (Ok (Ok (head (waiting (stream_at w k)))), (w, t)).

Lemma look_sees : sees look_at.
Proof.
  intros k w t [s Hs]. etrans; [apply (run_then (send (XInfoLast k)))|].
  rewrite (run_send (XInfoLast k) w t (Some (x_last s)) w) by (cbn; by rewrite Hs).
  unfold py_or, str_truthy. assert (String.eqb (x_last s) "" = false) as -> by by apply String.eqb_neq, x_last_text.
  cbn [negb]. apply run_send. cbn. unfold stream_at. rewrite Hs. cbn. by rewrite x_after_last.
Qed.

Lemma peek_sees : sees peek.
Proof. intros k w t Hk. by apply run_caught, look_sees. Qed.

Section Looking.
Variable look : string -> qm (option (eid * fields)).
Hypothesis Hlook : sees look.

Lemma run_candidates now specs (w : Redis) t : Forall (fun k => is_Some (streams w !! k)) specs.*1 ->
  run (candidates interval cap look now specs) (w, t) = (Ok (Ok (heads now w specs)), (w, t)).
Proof.
  induction specs as [|[k lane] specs IH]; intros Hk; [done|]. inversion_clear Hk as [|? ? Hs Hk']. cbn [candidates].
  etrans; [apply (run_then (look k))|]. rewrite Hlook by done.
  etrans; [apply (run_then (candidates interval cap look now specs))|]. rewrite IH by done.
  cbn. by destruct (head (waiting (stream_at w k))).
Qed.

End Looking.

Lemma score_leb_total a b : score_leb a b = false -> score_leb b a = true.
Proof. destruct a as [[a1 a2] a3], b as [[b1 b2] b3]. unfold score_leb. lia. Qed.

Lemma score_leb_trans a b c : score_leb a b = true -> score_leb b c = true -> score_leb a c = true.
Proof. destruct a as [[a1 a2] a3], b as [[b1 b2] b3], c as [[c1 c2] c3]. unfold score_leb. lia. Qed.

Lemma score_leb_refl a : score_leb a a = true.
Proof. destruct a as [[a1 a2] a3]. unfold score_leb. lia. Qed.

Lemma best_greatest {A} (l : list ((Z * time * Z) * A)) x y : best l = Some x -> y ∈ l -> score_leb y.1 x.1 = true.
Proof.
  revert x y. induction l as [|z l IH]; intros x y; [done|]. cbn. destruct (best l) as [b|] eqn:Hb.
  - destruct (score_leb b.1 z.1) eqn:Hz; intros [= <-] [->|Hy]%elem_of_cons.
    + apply score_leb_refl.
    + eapply score_leb_trans; [by apply IH|done].
    + by apply score_leb_total.
    + by apply IH.
  - intros [= <-] [->|Hy]%elem_of_cons; [apply score_leb_refl|]. exfalso. destruct l as [|a l]; [by apply elem_of_nil in Hy|].
    cbn in Hb. destruct (best l); [by destruct (score_leb _ _)|done].
Qed.

Lemma best_none {A} (l : list ((Z * time * Z) * A)) : best l = None -> l = [].
Proof. destruct l as [|a l]; [done|]. cbn. destruct (best l); [by destruct (score_leb _ _)|done]. Qed.

Lemma best_member {A} (l : list ((Z * time * Z) * A)) x : best l = Some x -> x ∈ l.
Proof.
  revert x. induction l as [|z l IH]; intros x; [done|]. cbn. destruct (best l); [|intros [= <-]; left].
  destruct (score_leb _ _); intros [= <-]; [left|right; by apply IH].
Qed.

Lemma all_there ks (w : Redis) : Forall (fun k => is_Some (streams w !! k)) ks -> forallb (there w) ks = true.
Proof. induction 1 as [|k ks Hk _ IH]; [done|]. cbn. rewrite IH. unfold there. by rewrite bool_decide_eq_true_2. Qed.

Lemma read_group_empty consumer ks (w : Redis) : (forall k, k ∈ ks -> waiting (stream_at w k) = []) ->
  (read_group consumer 1 ks w).1 = [].
Proof.
  revert w. induction ks as [|k ks IH]; intros w Hks; [done|]. cbn [read_group]. unfold on_stream.
  pose proof (x_read_reply (stream_at w k) consumer 1 ltac:(lia)) as Hr.
  pose proof (x_read_waiting (stream_at w k) consumer 1 ltac:(lia)) as Hw.
  rewrite (Hks k) in Hr, Hw by left. destruct (x_read (stream_at w k) consumer 1) as [got s]. cbn in Hr, Hw. subst got.
  specialize (IH (put_stream k s w)). destruct (read_group consumer 1 ks (put_stream k s w)) as [rest w2].
  cbn in *. apply IH. intros k' Hk'. destruct (decide (k' = k)) as [->|Hne]; [by rewrite put_same|].
  rewrite put_other by done. apply Hks. by right.
Qed.

Definition takes_the_best (p : qm (list fields)) (specs : list (string * option string)) (now : time) (w : Redis) : Prop :=
  exists jobs w', run p (w, now) = (Ok (Ok jobs), w') /\
    match jobs with
    | [] => forall k lane, (k, lane) ∈ specs -> waiting (stream_at w k) = []
    | [job] => exists k lane e rest, (k, lane) ∈ specs /\ waiting (stream_at w k) = e :: rest /\
        job = claimed_job (stream_lane lane k) e /\
        forall k' lane' e', (k', lane') ∈ specs -> head (waiting (stream_at w k')) = Some e' ->
          score_leb (_priority_age_score interval cap lane' e'.1 now) (_priority_age_score interval cap lane e.1 now) = true
    | _ => False
    end.

Lemma claim_takes_the_best look service consumer group specs now (w : Redis) :
  sees look -> _stream_specs true service group = Ok specs ->
  takes_the_best (dequeue_try true interval cap look service consumer 1 group) specs now w.
Proof.
  intros Hlook Hspecs. destruct (run_groups specs w now) as (w1 & Hg & [Hs Hk] & _).
  assert (forall k, waiting (stream_at w1 k) = waiting (stream_at w k)) as Hw by (intros k; by rewrite Hs).
  assert (run (selected_lane true interval cap look specs) (w1, now) = (Ok (Ok (snd <$> best (heads now w1 specs))), (w1, now))) as Hsel.
  { unfold selected_lane. change (run (candidates interval cap look now specs ≫= fun found => mret (snd <$> best found)) (w1, now)
      = (Ok (Ok (snd <$> best (heads now w1 specs))), (w1, now))). by rewrite run_then, run_candidates. }
  assert (forall k lane e', (k, lane) ∈ specs -> head (waiting (stream_at w k)) = Some e' ->
    (_priority_age_score interval cap lane e'.1 now, (k, lane)) ∈ heads now w1 specs) as Hheads.
  { intros k lane e' Hin He. unfold heads. apply list_elem_of_omap. exists (k, lane). split; [done|]. cbn. by rewrite Hw, He. }
  destruct (best (heads now w1 specs)) as [[sc [k lane]]|] eqn:Hb.
  - pose proof (best_member _ _ Hb) as Hin. unfold heads in Hin. apply list_elem_of_omap in Hin as ([k' lane'] & Hin & He).
    cbn in He. destruct (waiting (stream_at w1 k')) as [|e rest] eqn:Hwait; [done|]. cbn in He. simplify_eq.
    assert (exists w2, exec (XReadGroup consumer [k] 1) w1 = (Ok [(k, [e])], w2)) as [w2 Hread].
    { assert (Forall (fun q => is_Some (streams w1 !! q)) [k]) as Hk1.
      { apply Forall_singleton. rewrite Forall_forall in Hk. by apply Hk, (list_elem_of_fmap_2 fst specs (k, lane)). }
      cbn [exec]. rewrite all_there by done. cbn [read_group]. unfold ok. unfold on_stream. pose proof (x_read_reply (stream_at w1 k) consumer 1 ltac:(lia)) as Hr.
      rewrite Hwait in Hr. destruct (x_read (stream_at w1 k) consumer 1) as [got s]. cbn in *. subst got. by eexists. }
    exists [claimed_job (stream_lane lane k) e], (w2, now). split.
    + unfold dequeue_try. rewrite Hspecs. rewrite run_then. cbn [run_all lift]. rewrite run_then, Hg, run_then, Hsel. cbn [fmap option_fmap option_map snd].
      rewrite run_then, (run_send _ w1 now [(k, [e])] w2 Hread). done.
    + exists k, lane, e, rest. rewrite Hw in Hwait. split_and!; [done..|]. intros k2 lane2 e2 Hin2 He2.
      exact (best_greatest _ _ _ Hb (Hheads _ _ _ Hin2 He2)).
  - apply best_none in Hb. assert (forall k lane, (k, lane) ∈ specs -> waiting (stream_at w k) = []) as Hnone.
    { intros k lane Hin. destruct (waiting (stream_at w k)) as [|e rest] eqn:He; [done|].
      pose proof (Hheads k lane e Hin) as Hh. rewrite He, Hb in Hh. by apply elem_of_nil in Hh. }
    pose proof (read_group_empty consumer specs.*1 w1) as Hread. destruct (read_group consumer 1 specs.*1 w1) as [got w2] eqn:Hg2.
    exists [], (w2, now). split; [|done].
    assert (got = []) as ->.
    { apply Hread. intros k Hin. apply list_elem_of_fmap in Hin as ([k' lane] & -> & Hin). rewrite Hw. by eapply Hnone. }
    unfold dequeue_try. rewrite Hspecs. etrans; [apply (run_then (lift (Ok specs)))|]. cbn [run_all lift].
    etrans; [apply (run_then (each _ specs))|]. rewrite Hg. etrans; [apply (run_then (selected_lane true interval cap look specs))|].
    rewrite Hsel. cbn [fmap option_fmap option_map].
    etrans; [apply (run_then (send (XReadGroup consumer specs.*1 1)))|].
    rewrite (run_send (XReadGroup consumer specs.*1 1) w1 now [] w2); [done|]. cbn [exec]. rewrite all_there by done. by rewrite Hg2.
Qed.

Lemma takes_caught p handler specs now (w : Redis) : takes_the_best p specs now w -> takes_the_best (except_redis p handler) specs now w.
Proof. intros (jobs & w' & Hp & Hj). exists jobs, w'. split; [by apply run_caught|done]. Qed.

Lemma takes_any p d specs now (w : Redis) : takes_the_best p specs now w -> takes_the_best (except_any p d) specs now w.
Proof.
  intros (jobs & w' & Hp & Hj). exists jobs, w'. split; [|done].
  unfold except_any. etrans; [exact (run_all_bind alone p _ _)|]. by rewrite Hp.
Qed.

(** C28. The most urgent job is claimed first: while nobody else sends commands, a
    claim of one job, of the synchronous queue or its asynchronous twin, answers
    nothing exactly when no stream of the service has a job waiting; otherwise
    it answers the oldest job of a stream, and no other stream's oldest job has
    a greater score of priority and age. *)
Theorem dequeue_takes_the_best service consumer group specs now (w : Redis) :
  _stream_specs true service group = Ok specs ->
  takes_the_best (dequeue true interval cap service consumer 1 group) specs now w /\
  takes_the_best (async_dequeue true interval cap service consumer 1 group) specs now w.
Proof.
  intros Hs. split; [by apply takes_caught, claim_takes_the_best, Hs; apply peek_sees|].
  by apply takes_any, claim_takes_the_best, Hs; apply look_sees.
Qed.

End Claims.
