(* ===== verification/QueueReports.v ===== *)
(** * QueueReports: how deep a queue is

    Models the reports of [RedisQueue] and [AsyncRedisQueue] of
    [scripts/queue_engine.py] (depth, oldest wait, pending entries) and the depth
    that [RoutingEngine] reads, and shows when a reported depth is the number of
    jobs that wait. *)

From S2P Require Import Prelude PyValue PyText Programs QueueRedis QueueEngine QueueJobs QueueSends QueueSafety QueueAsync QueueClaims.

(** An error of Redis as a value. *)
Definition attempt {A} (p : qm A) : qm (result string A) :=
  program_bind (fun r : result qerr A => Ret (match r with
    | Ok a => Ok (Ok a) | Err (RedisErr t) => Ok (Err t) | Err e => Err e end)) p.

Record Observation := mkObservation {
  observed : string; depth : Z; known : bool; reason : string; pending_count : Z; error : option string }.

Record Report := mkReport {
  report_stream : string; report_streams : list string; report_depth : Z; report_known : bool; report_reason : string;
  report_pending : Z; report_error : option string }.

Record PendingRow := mkPendingRow {
  row_entry : string; row_stream : string; row_consumer : string; row_idle : Z; row_deliveries : Z }.

Section Reports.
(** Whether an error with that text is a [ResponseError], and its class. *)
Variables (response_error : string -> bool) (class_name : string -> string).
Variable priority_lanes_enabled : bool.
Variable externally_owned_routing_groups : list string.
Abbreviation _stream_specs := (_stream_specs priority_lanes_enabled).

(** ** Depth *)

Definition failed_observation (k t : string) : Observation :=
  mkObservation k 0 false (if response_error t then "redis_response_error" else "redis_error") 0
    (Some (class_name t +:+ ": " +:+ str_take 240 t)).

(** What the group of a stream with [n] entries says. *)
Definition group_observation (k : string) (n : Z) (g : option (option Z * Z * Z)) : Observation :=
  match g with
  | None => mkObservation k n true "no_consumer_group" 0 None
  | Some (Some l, p, _) => mkObservation k (Z.min (Z.max 0 l) n) true "consumer_group_lag" (Z.max 0 p) None
  | Some (None, p, _) => mkObservation k 0 false "consumer_group_lag_unavailable" (Z.max 0 p) None
  end.

Definition _observe_stream_depth (k : string) : qm Observation :=
  info ← attempt (send (XInfoLength k));
  match info with
  | Err t => mret (failed_observation k t)
  | Ok None => mret (mkObservation k 0 true "stream_missing" 0 None)
  | Ok (Some n) =>
      if Z.max 0 n =? 0 then mret (mkObservation k 0 true "empty" 0 None)
      else
        groups ← attempt (send (XInfoGroup k));
        mret (match groups with Err t => failed_observation k t | Ok g => group_observation k (Z.max 0 n) g end)
  end.

Fixpoint observe_all (specs : list (string * option string)) : qm (list Observation) :=
  match specs with
  | [] => mret []
  | (k, _) :: specs' => o ← _observe_stream_depth k; rest ← observe_all specs'; mret (o :: rest)
  end.

Definition sum_of (f : Observation -> Z) (l : list Observation) : Z := fold_right (fun o n => f o + n) 0 l.

Definition combined (first : string) (l : list Observation) : Report :=
  mkReport first (observed <$> l) (sum_of depth l) (forallb known l)
    (if priority_lanes_enabled then "priority_lanes" else match l with o :: _ => reason o | [] => "unknown" end)
    (sum_of pending_count l) (head (omap error l)).

Definition get_queue_depth_observation (service group : string) : qm Report :=
  specs ← lift (_stream_specs service group);
  legacy ← lift (_stream service group);
  if bool_decide (py_or group service ∈ externally_owned_routing_groups) then
    mret (mkReport legacy [] 0 false "external_queue_authority" 0 None)
  else
    l ← observe_all specs;
    mret (combined (default legacy (head specs.*1)) l).

Definition get_queue_depth (service group : string) (strict : bool) : qm Z :=
  o ← get_queue_depth_observation service group;
  if strict && negb (report_known o) && negb (String.eqb (report_reason o) "external_queue_authority") then
    lift (Err (match report_error o with
               | Some detail => RedisErr detail
               | None => RuntimeErr ("queue depth unavailable: " +:+ report_reason o)
               end))
  else mret (report_depth o).

(** [AsyncRedisQueue.get_queue_depth] and [RoutingEngine._get_queue_depth] guess
    where the server cannot tell. *)
Definition guess_depth (k : string) : qm Z :=
  info ← send (XInfoLength k);
  match info with
  | None => mret 0
  | Some n =>
      if n =? 0 then mret 0
      else
        groups ← attempt (send (XInfoGroup k));
        match groups with
        | Err t => if response_error t then mret n else lift (Err (RedisErr t))
        | Ok None => mret n
        | Ok (Some (Some l, _, _)) => mret (Z.min (Z.max 0 l) n)
        | Ok (Some (None, _, entries_read)) => mret (Z.max 0 (n - entries_read))
        end
  end.

Definition async_get_queue_depth (service group : string) : qm Z :=
  except_any (specs ← lift (_stream_specs service group); sum_over guess_depth specs.*1) 0.

(** [RoutingEngine._get_queue_depth] *)
Definition _get_queue_depth (service group : string) : qm Z :=
  except_any (specs ← lift (_stream_specs service group); sum_over guess_depth specs.*1) 0.

(** ** Waiting and pending *)

Fixpoint first_waits (now : time) (ks : list string) : qm (list time) :=
  match ks with
  | [] => mret []
  | k :: ks' =>
      entries ← send (XRangeAll k 1);
      rest ← first_waits now ks';
      mret (match entries with e :: _ => age_of e.1 now :: rest | [] => rest end)
  end.

Definition get_oldest_wait_seconds (service group : string) : qm (option time) :=
  if bool_decide (py_or group service ∈ externally_owned_routing_groups) then mret None
  else
    except_any
      (now ← ask Clock;
       specs ← lift (_stream_specs service group);
       waits ← first_waits now specs.*1;
       mret (match waits with [] => None | w :: ws => Some (fold_left Z.max ws w) end)) None.

Definition pending_row (k : string) (lane : option string) (r : eid * string * Z * Z) : PendingRow :=
  let '(i, consumer, idle, deliveries) := r in
  mkPendingRow (match lane with Some l => _entry_handle l (id_text i) | None => id_text i end) k consumer idle deliveries.

Fixpoint pending_of (strict : bool) (specs : list (string * option string)) : qm (list PendingRow) :=
  match specs with
  | [] => mret []
  | (k, lane) :: specs' =>
      made ← attempt (send (XGroupCreate k));
      match made with Err t => if strict then lift (Err (RedisErr t)) else mret () | Ok _ => mret () end;;
      rows ← send (XPending k 100);
      rest ← pending_of strict specs';
      mret ((pending_row k lane <$> rows) ++ rest)
  end.

Definition get_pending (service group : string) (strict : bool) : qm (list PendingRow) :=
  let p := specs ← lift (_stream_specs service group); pending_of strict specs in
  if strict then p else except_redis p (fun _ => []).

(** The asynchronous one creates the group silently even when strict. *)
Definition async_get_pending (service group : string) (strict : bool) : qm (list PendingRow) :=
  let p := specs ← lift (_stream_specs service group); pending_of false specs in
  if strict then p else except_redis p (fun _ => []).

Definition stale (min_idle_ms : Z) (l : list PendingRow) : list PendingRow := List.filter (fun r => min_idle_ms <? row_idle r) l.

Definition get_stale_pel_candidates (service group : string) (min_idle_ms : Z) : qm (list PendingRow) :=
  l ← get_pending service group false; mret (stale min_idle_ms l).

(** ** The commands they send *)

Lemma attempt_then {X B} (c : cmd X) (k : result string X -> qm B) :
  sendable c -> (forall r, uses sends (k r)) -> uses sends (attempt (send c) ≫= k).
Proof. intros Hc Hk. apply uses_then; [by apply uses_caught, send_sends|done]. Qed.

Lemma specs_forall service group specs : _stream_specs service group = Ok specs -> forall k, k ∈ specs.*1 -> queue_key k.
Proof. intros Hs%specs_keys. by rewrite Forall_forall in Hs. Qed.

Lemma depth_sends service group strict :
  uses sends (get_queue_depth service group strict) /\ uses sends (async_get_queue_depth service group).
Proof.
  split.
  - apply uses_then; [|intros o; by destruct (_ && _)]. apply uses_lift. intros specs Hs. apply uses_lift. intros legacy _.
    destruct (bool_decide _); [done|]. apply uses_then; [|done]. pose proof (specs_forall _ _ _ Hs) as Hk. clear Hs.
    induction specs as [|[k lane] specs IH]; [done|]. apply uses_then.
    + apply attempt_then; [by apply Hk; left|]. intros [[n|]|t]; [|done..]. destruct (_ =? 0); [done|]. by apply attempt_then.
    + intros o. apply uses_then; [|done]. apply IH. intros k' Hk'. apply Hk. by right.
  - apply uses_caught, uses_lift. intros specs Hs. apply uses_sum. intros k Hk%(specs_forall _ _ _ Hs). apply send_then; [done|].
    intros [n|]; [|done]. destruct (_ =? 0); [done|]. apply attempt_then; [done|].
    intros [[[[[l|] p] r]|]|t]; [done..|]. by destruct (response_error t).
Qed.

Lemma pending_sends strict specs : (forall k, k ∈ specs.*1 -> queue_key k) -> uses sends (pending_of strict specs).
Proof.
  induction specs as [|[k lane] specs IH]; intros Hk; [done|]. apply attempt_then; [by apply Hk; left|]. intros r.
  apply uses_then; [by destruct r, strict|]. intros _. apply send_then; [by apply Hk; left|]. intros rows.
  apply uses_then; [|done]. apply IH. intros k' Hk'. apply Hk. by right.
Qed.

Lemma report_sends service group strict :
  uses sends (get_pending service group strict) /\ uses sends (async_get_pending service group strict) /\
  uses sends (get_oldest_wait_seconds service group).
Proof.
  split_and!.
  - assert (uses sends (specs ← lift (_stream_specs service group); pending_of strict specs)) as Hp.
    { apply uses_lift. intros specs Hs. by eapply pending_sends, specs_forall. }
    unfold get_pending. destruct strict; [exact Hp|by apply uses_caught].
  - assert (uses sends (specs ← lift (_stream_specs service group); pending_of false specs)) as Hp.
    { apply uses_lift. intros specs Hs. by eapply pending_sends, specs_forall. }
    unfold async_get_pending. destruct strict; [exact Hp|by apply uses_caught].
  - unfold get_oldest_wait_seconds. destruct (bool_decide _); [done|]. apply uses_caught, ask_then; [done|]. intros now.
    apply uses_lift. intros specs _. apply uses_then; [|done].
    induction specs.*1 as [|k ks IH]; [done|]. apply send_then; [done|]. intros l. by apply uses_then.
Qed.

(** ** The depth that is reported *)

Section Depth.
Context {S : Type} `{QueueStream S} `{!QueueStreamLaws S}.
Abbreviation Redis := (Redis S).
Abbreviation run p w := (run_all alone p w).

Lemma run_attempt {A} (p : qm A) w a w' : run p w = (Ok (Ok a), w') -> run (attempt p) w = (Ok (Ok (Ok a)), w').
Proof. intros Hp. unfold attempt. etrans; [exact (run_all_bind alone p _ w)|]. by rewrite Hp. Qed.

(** What a look at a stream finds. *)
Definition observation (k : string) (s : option S) : Observation :=
  match s with
  | None => mkObservation k 0 true "stream_missing" 0 None
  | Some s =>
      let n := Z.of_nat (length (items s)) in
      if n =? 0 then mkObservation k 0 true "empty" 0 None
      else group_observation k n (Some (lag s, Z.of_nat (length (pel s)), entries_read s))
  end.

Lemma run_observe k (w : Redis) t : run (_observe_stream_depth k) (w, t) = (Ok (Ok (observation k (streams w !! k))), (w, t)).
Proof.
  etrans; [apply (run_then (attempt (send (XInfoLength k))))|].
  rewrite (run_attempt _ _ _ _ (run_send (XInfoLength k) w t _ w eq_refl)).
  unfold observation. destruct (streams w !! k) as [s|] eqn:Hs; [|done]. cbn [fmap option_fmap option_map].
  rewrite Z.max_r by lia. destruct (_ =? 0); [done|].
  etrans; [apply (run_then (attempt (send (XInfoGroup k))))|].
  assert (run (send (XInfoGroup k)) (w, t) = (Ok (Ok (Some (lag s, Z.of_nat (length (pel s)), entries_read s))), (w, t))) as Hg.
  { apply run_send. cbn. by rewrite Hs. }
  by rewrite (run_attempt _ _ _ _ Hg).
Qed.

Lemma run_observe_all specs (w : Redis) t :
  run (observe_all specs) (w, t) = (Ok (Ok ((fun s => observation s.1 (streams w !! s.1)) <$> specs)), (w, t)).
Proof.
  induction specs as [|[k lane] specs IH]; [done|]. cbn [observe_all].
  etrans; [apply (run_then (_observe_stream_depth k))|]. rewrite run_observe.
  etrans; [apply (run_then (observe_all specs))|]. by rewrite IH.
Qed.

Lemma waiting_short (s : S) : (length (waiting s) <= length (items s))%nat.
Proof. destruct (waiting_last s) as [l ->]. rewrite length_app. lia. Qed.

(** How many jobs wait in the streams [ks]. *)
Definition waiting_jobs (w : Redis) (ks : list string) : Z :=
  fold_right (fun k n => Z.of_nat (length (waiting (stream_at w k))) + n) 0 ks.

(** The server can tell how many wait. *)
Definition tells (w : Redis) (k : string) : Prop := items (stream_at w k) = [] \/ is_Some (lag (stream_at w k)).

Lemma observation_known k (w : Redis) : known (observation k (streams w !! k)) = true <-> tells w k.
Proof.
  unfold tells, stream_at, observation. destruct (streams w !! k) as [s|]; cbn; [|rewrite items_fresh; tauto].
  destruct (Z.eqb_spec (Z.of_nat (length (items s))) 0) as [Hz|Hz].
  - split; [intros _; left; apply nil_length_inv; lia|done].
  - destruct (lag s) eqn:Hl; cbn; [naive_solver|]. split; [done|]. intros [Hi|[? [=]]]. by rewrite Hi in Hz.
Qed.

Lemma observation_depth k (w : Redis) : known (observation k (streams w !! k)) = true ->
  depth (observation k (streams w !! k)) = Z.of_nat (length (waiting (stream_at w k))).
Proof.
  unfold stream_at, observation. destruct (streams w !! k) as [s|]; cbn.
  - pose proof (waiting_short s). destruct (Z.eqb_spec (Z.of_nat (length (items s))) 0); [cbn; lia|].
    destruct (lag s) eqn:Hl; cbn; [|done]. intros _. apply lag_waiting in Hl. lia.
  - intros _. pose proof (waiting_short fresh) as Hf. rewrite items_fresh in Hf. cbn in Hf. lia.
Qed.

(** C32. A depth that is reported as known is exact: while nobody else sends
    commands, the report of a service that no other broker owns is known exactly
    when the server can tell for each of its streams, the depth is then the
    number of jobs that wait, and a strict caller is never told another. *)
Theorem known_depth_is_exact service group specs now (w : Redis) :
  _stream_specs service group = Ok specs -> py_or group service ∉ externally_owned_routing_groups ->
  exists o, run (get_queue_depth_observation service group) (w, now) = (Ok (Ok o), (w, now)) /\
    (report_known o = true <-> Forall (tells w) specs.*1) /\
    (report_known o = true -> report_depth o = waiting_jobs w specs.*1) /\
    forall n, run (get_queue_depth service group true) (w, now) = (Ok (Ok n), (w, now)) -> n = waiting_jobs w specs.*1.
Proof.
  intros Hs Hext. assert (exists legacy, _stream service group = Ok legacy) as [legacy Hl].
  { unfold _stream_specs in Hs. destruct (_stream service group) as [l|e]; [by exists l|done]. }
  set (l := (fun s => observation s.1 (streams w !! s.1)) <$> specs).
  set (o := combined (default legacy (head specs.*1)) l).
  assert (run (get_queue_depth_observation service group) (w, now) = (Ok (Ok o), (w, now))) as Ho.
  { unfold get_queue_depth_observation. rewrite Hs, Hl. etrans; [apply (run_then (lift (Ok specs)))|]. cbn [run_all lift].
    etrans; [apply (run_then (lift (Ok legacy)))|]. cbn [run_all lift]. rewrite bool_decide_eq_false_2 by done.
    etrans; [apply (run_then (observe_all specs))|]. by rewrite run_observe_all. }
  assert (report_known o = true <-> Forall (tells w) specs.*1) as Hk.
  { clear Ho Hs. subst o l. cbn. induction specs as [|[k lane] specs IH]; cbn; [by split|].
    rewrite andb_true_iff, IH, Forall_cons, observation_known. done. }
  assert (report_known o = true -> report_depth o = waiting_jobs w specs.*1) as Hd.
  { clear Ho Hs Hk. subst o l. cbn. induction specs as [|[k lane] specs IH]; cbn; [done|].
    intros [H1 H2]%andb_true_iff. f_equal; [by apply observation_depth|by apply IH]. }
  exists o. split_and!; [done..|]. intros n. unfold get_queue_depth. intros Hn.
  assert (forall (k : Report -> qm Z), run (get_queue_depth_observation service group ≫= k) (w, now) = run (k o) (w, now)) as Hb.
  { intros k. etrans; [apply (run_then (get_queue_depth_observation service group))|]. by rewrite Ho. }
  rewrite Hb in Hn. cbn [andb] in Hn. destruct (report_known o) eqn:Hko; cbn [negb andb] in Hn.
  - injection Hn as <-. by apply Hd.
  - assert (String.eqb (report_reason o) "external_queue_authority" = false) as Hr.
    { subst o l. cbn. destruct priority_lanes_enabled; [done|]. destruct specs as [|[k lane] specs]; [done|]. cbn.
      unfold observation. destruct (streams w !! k) as [s|]; [|done]. cbn. destruct (_ =? 0); [done|]. by destruct (lag s). }
    rewrite Hr in Hn. cbn in Hn. by destruct (head _).
Qed.

End Depth.
End Reports.
