(* ===== verification/QueueSlots.v ===== *)
(** * QueueSlots: the parallel slots of a service

    Models [SlotManager] and [AsyncSlotManager] of [scripts/queue_engine.py] as programs over the
    commands it sends, with what they keep: a grant of a slot lasts until
    somebody releases that slot or prepares it anew.  A service's hash maps slot
    numbers to records; the order of HGETALL is a parameter.  Times of
    [reap_stale_slots] are those it reads from the records' texts, by a
    parameter. *)

From stdpp Require Import pretty.
From S2P Require Import Prelude PyValue PyText Programs.

Record Slot := mkSlot { slot_job : string; started_at : string; status : string }.
#[export] Instance Slot_eq_dec : EqDecision Slot.
Proof. solve_decision. Defined.

Definition free_slot : Slot := mkSlot "" "" "free".
Definition is_free (s : Slot) : bool := String.eqb (status s) "free".

Abbreviation Hash := (gmap string Slot) (only parsing).

(** The fields and values of a hash, in the server's order. *)
Class HashOrder := {
  listing : Hash -> list (string * Slot);
  listing_permutation h : listing h ≡ₚ map_to_list h }.

(** ** Commands *)

Inductive slot_cmd : Type -> Type :=
  | SExists : slot_cmd bool
  | SGetAll : slot_cmd (list (string * Slot))
  | SInitTx (add remove : list string) : slot_cmd unit
  | SAcquire (job now : string) : slot_cmd (option string)
  | SGet (id : string) : slot_cmd (option Slot)
  | SPut (id : string) (s : Slot) : slot_cmd unit.

Section Commands.
Context `{HashOrder}.

Definition acquire (job now : string) (h : Hash) : option string * Hash :=
  match List.find (fun x => is_free x.2) (listing h) with
  | Some (id, s) => (Some id, <[id := mkSlot job now "busy"]> h)
  | None => (None, h)
  end.

Definition init_tx (add remove : list string) (h : Hash) : Hash :=
  fold_left (fun h id => delete id h) remove (fold_left (fun h id => <[id := free_slot]> h) add h).

(** The hash of one service. *)
Definition slot_exec {X} (c : slot_cmd X) (h : Hash) : X * Hash :=
  match c in slot_cmd X return X * Hash with
  | SExists => (negb (bool_decide (h = ∅)), h)
  | SGetAll => (listing h, h)
  | SInitTx add remove => ((), init_tx add remove h)
  | SAcquire job now => acquire job now h
  | SGet id => (h !! id, h)
  | SPut id s => ((), <[id := s]> h)
  end.

End Commands.

(** ** Programs *)

(** A command of the service's hash, which Redis may fail; the clock. *)
Inductive slot_op : Type -> Type :=
  | SlotSend {X} (c : slot_cmd X) : slot_op (result string X)
  | SlotNow : slot_op string.

Definition sm (A : Type) : Type := program slot_op (result string A).
#[export] Instance sm_ret : MRet sm := fun _ a => Ret (Ok a).
#[export] Instance sm_bind : MBind sm := fun A B k p =>
  program_bind (O := slot_op) (fun r : result string A => match r with Ok a => k a | Err e => Ret (Err e) end) p.

Definition slot_send {X} (c : slot_cmd X) : sm X := perform (SlotSend c).

(** [except redis.RedisError: return d] *)
Definition or_else {A} (d : A) (p : sm A) : sm A :=
  program_bind (fun r : result string A => Ret (Ok (match r with Ok a => a | Err _ => d end))) p.

Definition slot_number (id : string) : Z := default 0 (int_of_str id).

Section Manager.
(** [service_slots.get(service, 0)] *)
Variable max_slots : nat.

Definition slot_ids : list string := (fun i => pretty (Z.of_nat i)) <$> seq 0 max_slots.

Definition missing_slots (existing : list (string * Slot)) : list string :=
  List.filter (fun id => negb (bool_decide (id ∈ existing.*1))) slot_ids.

Definition surplus_slots (existing : list (string * Slot)) : list string :=
  (List.filter (fun x => (Z.of_nat max_slots <=? slot_number x.1) && is_free x.2) existing).*1.

Definition _init_slots : sm unit :=
  or_else ()
    (there ← slot_send SExists;
     existing ← (if there : bool then slot_send SGetAll else mret []);
     slot_send (SInitTx (missing_slots existing) (surplus_slots existing))).

(** [AsyncSlotManager._init_slots]: only a hash that is not there. *)
Definition async_init_slots : sm unit :=
  or_else () (there ← slot_send SExists; if there : bool then mret () else slot_send (SInitTx slot_ids [])).

(** The methods of the two managers differ in how they prepare the hash. *)
Definition acquire_with (prepare : sm unit) (job : string) : sm (option Z) :=
  or_else None
    (prepare;;
     now ← Vis SlotNow (fun t => Ret (Ok t));
     slot ← slot_send (SAcquire job now);
     mret (slot_number <$> slot)).

Definition acquire_slot : string -> sm (option Z) := acquire_with _init_slots.
Definition async_acquire_slot : string -> sm (option Z) := acquire_with async_init_slots.

Definition release_slot (slot : Z) : sm bool :=
  or_else false
    (raw ← slot_send (SGet (pretty slot));
     match raw with
     | None => mret false
     | Some s => slot_send (SPut (pretty slot) (mkSlot "" "" "free"));; mret true
     end).

Definition slots_with (prepare : sm unit) : sm (list (string * Slot)) := or_else [] (prepare;; slot_send SGetAll).
Definition get_slots : sm (list (string * Slot)) := slots_with _init_slots.
Definition async_get_slots : sm (list (string * Slot)) := slots_with async_init_slots.

Definition count_free (l : list (string * Slot)) : Z := Z.of_nat (length (List.filter (fun x => is_free x.2) l)).

Definition available_with (prepare : sm unit) : sm Z := or_else 0 (prepare;; all ← slot_send SGetAll; mret (count_free all)).
Definition get_available_slots : sm Z := available_with _init_slots.
Definition async_get_available_slots : sm Z := available_with async_init_slots.

Definition get_slot_for_job (job : string) : sm (option Z) :=
  or_else None
    (all ← slot_send SGetAll;
     mret ((fun x => slot_number x.1) <$> List.find (fun x => String.eqb (slot_job x.2) job) all)).

(** Microseconds from a record's start to now; [None] when the text is no time. *)
Variable age_of_text : string -> string -> option time.

Definition is_stale (max_age : time) (now : string) (s : Slot) : bool :=
  String.eqb (status s) "busy" &&
  (negb (str_truthy (started_at s)) || match age_of_text (started_at s) now with Some a => max_age <? a | None => true end).

(** The releases of [reap_stale_slots], in the order of the listing. *)
Fixpoint reap (max_age : time) (now : string) (all : list (string * Slot)) (reaped : list (Z * string)) : sm (list (Z * string)) :=
  match all with
  | [] => mret reaped
  | (id, s) :: all' =>
      if is_stale max_age now s then
        release_slot (slot_number id);;
        reap max_age now all' (reaped ++ [(slot_number id, slot_job s)])
      else reap max_age now all' reaped
  end.

Definition reap_with (prepare : sm unit) (max_age : time) : sm (list (Z * string)) :=
  or_else []
    (prepare;;
     all ← slot_send SGetAll;
     now ← Vis SlotNow (fun t => Ret (Ok t));
     reap max_age now all []).

Definition reap_stale_slots : time -> sm (list (Z * string)) := reap_with _init_slots.
Definition async_reap_stale_slots : time -> sm (list (Z * string)) := reap_with async_init_slots.

End Manager.

(** ** A grant lasts *)

Inductive slot_event :=
  | SlotSent {X : Type} (c : slot_cmd X).

Section Grants.
Context `{HashOrder}.

Definition slot_happen (e : slot_event) (h : Hash) : Hash := match e with SlotSent c => (slot_exec c h).2 end.
Definition slot_history (es : list slot_event) (h : Hash) : Hash := fold_left (fun h e => slot_happen e h) es h.

(** An event writes or removes slot [id] otherwise than by a grant. *)
Definition overrides (id : string) (e : slot_event) : Prop :=
  match e with
  | SlotSent c =>
      match c with SPut k _ => k = id | SInitTx add remove => id ∈ add \/ id ∈ remove | _ => False end
  end.

Lemma acquire_grants job now h id h' : acquire job now h = (Some id, h') ->
  (exists s, h !! id = Some s /\ is_free s = true) /\ h' = <[id := mkSlot job now "busy"]> h.
Proof.
  unfold acquire. destruct (List.find _ _) as [[k s]|] eqn:Hf; [|done]. intros [= -> <-].
  apply List.find_some in Hf as [Hin Hs]. split; [|done]. exists s. split; [|done].
  apply list_elem_of_In in Hin. rewrite listing_permutation in Hin. by apply elem_of_map_to_list.
Qed.

Lemma init_keeps add remove h id : id ∉ add -> id ∉ remove -> init_tx add remove h !! id = h !! id.
Proof.
  unfold init_tx. intros Ha Hr.
  assert (forall l g, id ∉ l -> fold_left (fun (h : Hash) k => <[k := free_slot]> h) l g !! id = g !! id) as H1.
  { induction l as [|k l IH]; intros g Hl; [done|]. cbn. apply not_elem_of_cons in Hl as [Hk Hl].
    by rewrite IH, lookup_insert_ne. }
  assert (forall l g, id ∉ l -> fold_left (fun (h : Hash) k => delete k h) l g !! id = g !! id) as H2.
  { induction l as [|k l IH]; intros g Hl; [done|]. cbn. apply not_elem_of_cons in Hl as [Hk Hl].
    by rewrite IH, lookup_delete_ne. }
  by rewrite H2, H1.
Qed.

(** What a granted slot stays through. *)
Lemma busy_stays id s e h : h !! id = Some s -> is_free s = false -> ~ overrides id e ->
  slot_happen e h !! id = Some s /\
  match e with SlotSent c => match c with SAcquire job now => (acquire job now h).1 <> Some id | _ => True end end.
Proof.
  intros Hh Hs He. destruct e as [X c]. destruct c; cbn in *; try done.
  - split; [|done]. rewrite init_keeps; [done|tauto|tauto].
  - destruct (acquire job now h) as [[k|] h'] eqn:Ha; cbn.
    + apply acquire_grants in Ha as [(s' & Hk & Hf) ->]. assert (k <> id) by (intros ->; simplify_eq; by rewrite Hs in Hf).
      split; [by rewrite lookup_insert_ne|congruence].
    + split; [|done]. unfold acquire in Ha. by destruct (List.find _ _) as [[? ?]|]; simplify_eq.
  - split; [|done]. by rewrite lookup_insert_ne.
Qed.

(** The commands of managers of [max_slots] slots that release no other slot than
    their own, on a hash that has every slot: they prepare it from a listing
    that has them all. *)
Definition proper (max_slots : nat) (id : string) (e : slot_event) : Prop :=
  match e with
  | SlotSent c =>
      match c with
      | SPut k _ => k <> id
      | SInitTx add remove =>
          exists existing, (forall k, k ∈ slot_ids max_slots -> k ∈ existing.*1) /\
            add = missing_slots max_slots existing /\ remove = surplus_slots max_slots existing
      | _ => True
      end
  end.

Lemma complete_adds_none max_slots existing :
  (forall id, id ∈ slot_ids max_slots -> id ∈ existing.*1) -> missing_slots max_slots existing = [].
Proof.
  intros Hall. unfold missing_slots. induction (slot_ids max_slots) as [|id l IH]; [done|]. cbn.
  rewrite bool_decide_eq_true_2 by (apply Hall; left). cbn. apply IH. intros k Hk. apply Hall. by right.
Qed.

Lemma proper_keeps max_slots id e : slot_number id < Z.of_nat max_slots -> proper max_slots id e -> ~ overrides id e.
Proof.
  intros Hid. destruct e as [X c]. destruct c; cbn; try tauto.
  intros (existing & Hall & -> & ->). rewrite complete_adds_none by done. intros [Hin|Hin]; [by apply elem_of_nil in Hin|].
  apply list_elem_of_fmap in Hin as (x & -> & Hx%list_elem_of_In). apply List.filter_In in Hx as [_ Hx]. bool_prop. lia.
Qed.

(** C29. A slot has one holder: from its grant on, as long as nobody else releases
    that slot, no acquire of any process is granted it and it stays recorded
    busy for that job, whatever acquires, releases of other slots, reapings of
    them and preparations run in between on the complete hash. *)
Theorem slot_granted_once max_slots job now id es es' job' now' h :
  slot_number id < Z.of_nat max_slots -> Forall (proper max_slots id) (es ++ es') ->
  (acquire job now h).1 = Some id ->
  let w := slot_history es (acquire job now h).2 in
  (acquire job' now' w).1 <> Some id /\
  slot_history es' (acquire job' now' w).2 !! id = Some (mkSlot job now "busy").
Proof.
  intros Hid Hes Ha.
  assert (forall es h, Forall (proper max_slots id) es -> h !! id = Some (mkSlot job now "busy") ->
    slot_history es h !! id = Some (mkSlot job now "busy")) as Hstay.
  { clear -Hid. induction es as [|e es IH]; intros h Hes Hh; [done|]. inversion_clear Hes.
    apply IH; [done|]. apply busy_stays; [done|done|by eapply proper_keeps]. }
  destruct (acquire job now h) as [o h'] eqn:Hq. cbn [fst snd] in *. subst o. apply acquire_grants in Hq as [_ ->].
  apply Forall_app in Hes as [H1 H2]. cbv zeta. set (w := slot_history es _).
  assert (w !! id = Some (mkSlot job now "busy")) as Hw by (apply Hstay; [done|apply lookup_insert_eq]).
  destruct (busy_stays id _ (SlotSent (SAcquire job' now')) w Hw eq_refl) as [Hw' Hn]; [by intros []|]. split; [exact Hn|].
  by apply Hstay.
Qed.

End Grants.
