(* ===== verification/QueueRouting.v ===== *)
(** * QueueRouting: which service of a group gets the next job

    Models [RoutingEngine] and [CapacityTracker] of [scripts/queue_engine.py],
    and [service_is_publicly_eligible] of [scripts/gpu_manager_contracts.py].
    The free slots that [SlotManager] counts and the depths of the streams are
    arguments; so is the parser of decimal texts.  Numbers with a fraction are
    whole millionths. *)

From S2P Require Import Prelude PyValue PyText RuntimeContracts.

(** ** Eligible services *)

Definition PUBLIC_ACTIVATION_STATUSES : list string :=
  ["enabled"; "qualified"; "ready"; "active"; "activated"; "production-qualified"].

(** The first text that is not blank decides. *)
Fixpoint first_status (values : list value) : option string :=
  match values with
  | [] => None
  | v :: values' => if nonblank v then Some (py_lower (py_strip (py_str v))) else first_status values'
  end.

Definition status_values (entry : data) : list value :=
  let metadata := match get entry "metadata" with PDict m => Some m | _ => None end in
  flat_map (fun field => get entry field :: match metadata with Some m => [get m field] | None => [] end)
    ["activation_status"; "qualification_status"; "status"].

Definition service_is_publicly_eligible (entry : value) : bool :=
  match entry with
  | PDict e =>
      match dict_get_or e "enabled" (PBool true) with
      | PBool false => false
      | _ => match first_status (status_values e) with
             | Some s => bool_decide (s ∈ PUBLIC_ACTIVATION_STATUSES)
             | None => true
             end
      end
  | _ => false
  end.

(** ** Numbers of the configuration *)

Definition at_most_minimum (minimum : option Z) (n : Z) : Z := match minimum with Some m => Z.max m n | None => n end.

(** Infinity raises OverflowError, which is not caught. *)
Definition _safe_int (v : value) (dflt : Z) (minimum : option Z) : result string Z :=
  match v with
  | PInt n => Ok (at_most_minimum minimum n)
  | PFloat us => Ok (at_most_minimum minimum (int_seconds us))
  | PStr s => Ok (at_most_minimum minimum (default dflt (int_of_str s)))
  | PInfinity => Err "cannot convert float infinity to integer"
  | _ => Ok (at_most_minimum minimum dflt)
  end.

Section Routing.
(** [float(text)] when it is a finite number. *)
Variable float_of_text : string -> option Z.

Definition _safe_float (v : value) (minimum : Z) : Z :=
  Z.max minimum
    match v with
    | PInt n => seconds n
    | PFloat us => us
    | PStr s => default 0 (float_of_text s)
    | _ => 0
    end.

(** ** Members *)

Record Member := mkMember {
  service : string; slots_total : Z; slots_free : Z; queue_depth : Z; speed : Z; lane : Z }.
#[export] Instance Member_eq_dec : EqDecision Member.
Proof. solve_decision. Defined.

Variables (available depth : string -> Z).

(** The record of one configured service, unless it is not schedulable here. *)
Definition member_of (group name : string) (cfg : data) : result string (option Member) :=
  if negb (is_text (get cfg "routing_group") group) then Ok None
  else
    schedulable ← match get cfg "routing_group_type" with PNone => Ok true | t => member t ["llm"; "generation"] end;
    if negb schedulable then Ok None
    else
      other ← member (get cfg "type") ["cloud"; "provider"; "orchestrator"; "control_plane"];
      if other : bool then Ok None
      else if negb (service_is_publicly_eligible (PDict cfg)) then Ok None
      else
        total ← _safe_int (dict_get_or cfg "parallel" (PInt 1)) 1 (Some 1);
        lane ← _safe_int (get cfg "lane") 0 (Some 0);
        Ok (Some (mkMember name total (Z.min total (Z.max 0 (available name))) (depth name)
                    (_safe_float (get cfg "speed") 0) lane)).

Fixpoint get_group_members (group : string) (config : list (string * data)) : result string (list Member) :=
  match config with
  | [] => Ok []
  | (name, cfg) :: config' =>
      m ← member_of group name cfg;
      rest ← get_group_members group config';
      Ok (option_list m ++ rest)
  end.

End Routing.

Record GroupStatus := mkGroupStatus { total_slots : Z; free_slots : Z; can_accept : bool }.

Definition sum_of (f : Member -> Z) (l : list Member) : Z := fold_right (fun m n => f m + n) 0 l.

Definition get_group_status (members : list Member) : GroupStatus :=
  let free := sum_of slots_free members in mkGroupStatus (sum_of slots_total members) free (0 <? free).

(** ** Capacity *)

Record Tracker := mkTracker { active : gmap string Z; pending : gmap string Z }.
#[export] Instance Tracker_eta : Replaceable Tracker := fun t => mkTracker (active t) (pending t).

Definition count (m : gmap string Z) (k : string) : Z := default 0 (m !! k).
Definition pending_key (service group : string) : string := py_or group service.

Definition on_submit (service group : string) (t : Tracker) : Tracker :=
  let key := pending_key service group in t ⟪ pending := <[key := count (pending t) key + 1]> (pending t) ⟫.

Definition on_start (service group : string) (t : Tracker) : Tracker :=
  let key := pending_key service group in
  t ⟪ pending := <[key := Z.max 0 (count (pending t) key - 1)]> (pending t) ⟫
    ⟪ active := <[service := count (active t) service + 1]> (active t) ⟫.

Definition on_complete (service : string) (t : Tracker) : Tracker :=
  t ⟪ active := <[service := Z.max 0 (count (active t) service - 1)]> (active t) ⟫.

Definition on_cancel (service group : string) (t : Tracker) : Tracker :=
  let key := pending_key service group in t ⟪ pending := <[key := Z.max 0 (count (pending t) key - 1)]> (pending t) ⟫.

Definition get_capacity (service : string) (slots_total : Z) (group : string) (t : Tracker) : Z :=
  let key := pending_key service group in
  match active t !! service, pending t !! key with
  | None, None => slots_total
  | _, _ => Z.max 0 (slots_total - count (active t) service - count (pending t) key)
  end.

Definition get_load (service : string) (t : Tracker) : Z := count (active t) service + count (pending t) service.

(** ** Choosing *)

(** A member with its capacity. *)
Abbreviation scored := (Member * Z)%type (only parsing).

Definition triple_leb (a b : Z * Z * Z) : bool :=
  let '(a1, a2, a3) := a in let '(b1, b2, b3) := b in
  (a1 <? b1) || ((a1 =? b1) && ((a2 <? b2) || ((a2 =? b2) && (a3 <=? b3)))).

(** [list.sort(key=...)], which keeps equal elements in order. *)
Fixpoint insert_by {A} (key : A -> Z * Z * Z) (x : A) (l : list A) : list A :=
  match l with
  | [] => [x]
  | y :: l' => if triple_leb (key x) (key y) then x :: l else y :: insert_by key x l'
  end.
Definition sort_by {A} (key : A -> Z * Z * Z) (l : list A) : list A := fold_right (insert_by key) [] l.

Abbreviation Cursors := (gmap string nat) (only parsing).

Definition tied {A} (key : A -> Z * Z * Z) (l : list A) : list A :=
  match l with [] => [] | x :: _ => List.filter (fun y => bool_decide (key y = key x)) l end.

(** [None] is the ValueError of an empty list. *)
Definition _choose_fair {A} (group : string) (candidates : list A) (key : A -> Z * Z * Z) (cursors : Cursors)
    : option A * Cursors :=
  match tied key candidates with
  | [] => (None, cursors)
  | [x] => (Some x, cursors)
  | ties =>
      let cursor := (default 0 (cursors !! group) mod length ties)%nat in
      (ties !! cursor, <[group := ((cursor + 1) mod length ties)%nat]> cursors)
  end.

(** The keys of the two tiers. *)
Definition lane_key (m : scored) : Z * Z * Z := (lane m.1, - speed m.1, - slots_total m.1).
Definition spread_key (m : scored) : Z * Z * Z :=
  (- m.2, if 1 <=? lane m.1 then lane m.1 else 1000000000, - speed m.1).

Section Find.
(** [get_capacity] of the tracker, or the free slots when there is none. *)
Variable capacity : Member -> Z.

Definition candidates (exclude : list string) (members : list Member) : list scored :=
  (fun m => (m, Z.max 0 (capacity m))) <$> List.filter (fun m => negb (bool_decide (service m ∈ exclude))) members.

Definition has_room (m : scored) : bool := 0 <? m.2.
Definition has_lane (m : scored) : bool := 1 <=? lane m.1.

Definition or_all {A} (l fallback : list A) : list A := match l with [] => fallback | _ => l end.

(** Pool and key of the tier that applies. *)
Definition pool (prefer_priority : bool) (available : list scored) : list scored * (scored -> Z * Z * Z) :=
  let lanes := List.filter has_lane available in
  if prefer_priority && negb (bool_decide (lanes = [])) then (lanes, lane_key) else (or_all lanes available, spread_key).

Definition find_service_for_group (group : string) (members : list Member) (exclude : list string) (prefer_priority : bool)
    (cursors : Cursors) : option string * Cursors :=
  let available := List.filter has_room (candidates exclude members) in
  match available with
  | [] => (None, cursors)
  | _ =>
      let '(l, key) := pool prefer_priority available in
      let '(chosen, cursors') := _choose_fair group (sort_by key l) key cursors in
      ((fun m => service m.1) <$> chosen, cursors')
  end.

(** ** The best, and in turn *)

Lemma triple_leb_total a b : triple_leb a b = false -> triple_leb b a = true.
Proof. destruct a as [[a1 a2] a3], b as [[b1 b2] b3]. unfold triple_leb. lia. Qed.

Lemma triple_leb_trans a b c : triple_leb a b = true -> triple_leb b c = true -> triple_leb a c = true.
Proof. destruct a as [[a1 a2] a3], b as [[b1 b2] b3], c as [[c1 c2] c3]. unfold triple_leb. lia. Qed.

Lemma triple_leb_antisym a b : triple_leb a b = true -> triple_leb b a = true -> a = b.
Proof. destruct a as [[a1 a2] a3], b as [[b1 b2] b3]. unfold triple_leb. intros H1 H2. repeat f_equal; lia. Qed.

Lemma triple_leb_refl a : triple_leb a a = true.
Proof. destruct a as [[a1 a2] a3]. unfold triple_leb. lia. Qed.

Section Sorting.
Context {A : Type} (key : A -> Z * Z * Z).

Lemma insert_permutation x l : insert_by key x l ≡ₚ x :: l.
Proof.
  induction l as [|y l IH]; [done|]. cbn. destruct (triple_leb _ _); [done|]. rewrite IH. by apply perm_swap.
Qed.

Lemma sort_permutation l : sort_by key l ≡ₚ l.
Proof. induction l as [|x l IH]; [done|]. cbn. by rewrite insert_permutation, IH. Qed.

(** The first of the sorted list is least. *)
Lemma insert_head x l : (forall y z, head l = Some y -> z ∈ l -> triple_leb (key y) (key z) = true) ->
  forall y z, head (insert_by key x l) = Some y -> z ∈ insert_by key x l -> triple_leb (key y) (key z) = true.
Proof.
  intros Hl y z Hy Hz. rewrite insert_permutation in Hz. revert Hy Hz. destruct l as [|y0 l]; cbn.
  - intros [= <-] ->%list_elem_of_singleton. apply triple_leb_refl.
  - destruct (triple_leb (key x) (key y0)) eqn:Hx; cbn; intros [= <-] [->|Hz]%elem_of_cons.
    + apply triple_leb_refl.
    + eapply triple_leb_trans; [exact Hx|]. by apply (Hl y0).
    + by apply triple_leb_total.
    + by apply (Hl y0).
Qed.

Lemma sort_head l y z : head (sort_by key l) = Some y -> z ∈ l -> triple_leb (key y) (key z) = true.
Proof.
  intros Hy Hz. rewrite <- (sort_permutation l) in Hz. revert y z Hy Hz. induction l as [|x l IH]; [done|].
  cbn. by apply insert_head.
Qed.

Lemma tied_in l x : x ∈ tied key (sort_by key l) -> x ∈ l /\ forall z, z ∈ l -> triple_leb (key x) (key z) = true.
Proof.
  intros Hx. unfold tied in Hx. destruct (sort_by key l) as [|y s] eqn:Hs; [by apply elem_of_nil in Hx|].
  apply list_elem_of_In, List.filter_In in Hx as [Hx Hk%bool_decide_eq_true]. rewrite <- Hs in Hx. apply list_elem_of_In in Hx.
  rewrite (sort_permutation l) in Hx. split; [done|]. intros z Hz. rewrite Hk. apply (sort_head l); [by rewrite Hs|done].
Qed.

Lemma tied_some l : l <> [] -> tied key (sort_by key l) <> [].
Proof.
  intros Hl. unfold tied. destruct (sort_by key l) as [|y s] eqn:Hs.
  - pose proof (sort_permutation l) as Hp. rewrite Hs in Hp. by apply Permutation_nil_l in Hp.
  - cbn. by rewrite bool_decide_eq_true_2.
Qed.

(** A choice is one of the ties, and moves the cursor on. *)
Lemma choose_turn group l c : tied key l <> [] ->
  (_choose_fair group l key c).1 = tied key l !! (default 0 (c !! group) mod length (tied key l))%nat /\
  (default 0 ((_choose_fair group l key c).2 !! group) mod length (tied key l)
   = (default 0 (c !! group) + 1) mod length (tied key l))%nat.
Proof.
  intros Hne. unfold _choose_fair. destruct (tied key l) as [|x [|x' t]]; [done| |].
  - cbn [length fst snd]. by rewrite !Nat.mod_1_r.
  - set (n := length (x :: x' :: t)). assert (n <> 0)%nat as Hn by done. cbn [fst snd]. split; [done|].
    rewrite lookup_insert_eq. cbn [default id]. rewrite Nat.Div0.mod_mod, Nat.Div0.add_mod_idemp_l. done.
Qed.

Lemma choose_some group l c : tied key l <> [] -> exists x, (_choose_fair group l key c).1 = Some x /\ x ∈ tied key l.
Proof.
  intros Hne. destruct (choose_turn group l c Hne) as [-> _].
  assert (default 0 (c !! group) mod length (tied key l) < length (tied key l))%nat as Hlt.
  { apply Nat.mod_upper_bound. by destruct (tied key l). }
  apply lookup_lt_is_Some in Hlt as [x Hx]. exists x. split; [done|]. by eapply list_elem_of_lookup_2.
Qed.

End Sorting.

Lemma pool_available prefer available m : m ∈ (pool prefer available).1 -> m ∈ available.
Proof.
  assert (m ∈ List.filter has_lane available -> m ∈ available) as Hf.
  { intros [Hm _]%list_elem_of_In%List.filter_In. by apply list_elem_of_In. }
  unfold pool. destruct (_ && _); [exact Hf|]. unfold or_all. cbn.
  destruct (List.filter has_lane available) eqn:Hl; [done|]. exact Hf.
Qed.

Lemma pool_some prefer available : available <> [] -> (pool prefer available).1 <> [].
Proof.
  intros Ha. unfold pool. destruct (prefer && _) eqn:Hp; cbn.
  - bool_prop. by intros ?.
  - unfold or_all. by destruct (List.filter has_lane available).
Qed.

Section Choice.
Variables (group : string) (members : list Member) (exclude : list string) (prefer : bool).
Abbreviation room := (List.filter has_room (candidates exclude members)).
Abbreviation best := (pool prefer room).
Abbreviation ties := (tied best.2 (sort_by best.2 best.1)).
Abbreviation find c := (find_service_for_group group members exclude prefer c).

Lemma room_member m n : (m, n) ∈ room <-> m ∈ members /\ service m ∉ exclude /\ n = Z.max 0 (capacity m) /\ 0 < n.
Proof.
  rewrite list_elem_of_In, List.filter_In. unfold has_room, candidates. cbn [snd].
  rewrite <- list_elem_of_In, list_elem_of_fmap. split.
  - intros [(m' & [= -> ->] & Hm) Hn]. apply list_elem_of_In, List.filter_In in Hm as [Hm Hx].
    apply negb_true_iff, bool_decide_eq_false in Hx. split_and!; [by apply list_elem_of_In|done|done|lia].
  - intros (Hm & Hx & -> & Hn). split; [|lia]. exists m. split; [done|]. apply list_elem_of_In, List.filter_In.
    split; [by apply list_elem_of_In|]. by apply negb_true_iff, bool_decide_eq_false.
Qed.

Lemma find_ties c : room <> [] ->
  find c = ((fun m => service m.1) <$> (_choose_fair group (sort_by best.2 best.1) best.2 c).1,
            (_choose_fair group (sort_by best.2 best.1) best.2 c).2).
Proof.
  intros Hr. unfold find_service_for_group. destruct room as [|x l] eqn:Hl; [done|].
  destruct (pool prefer (x :: l)) as [q key]. cbn. by destruct (_choose_fair _ _ _ _).
Qed.

(** C30. Routing serves the best: a service is chosen exactly when a member that is
    not excluded has room; it is such a member, and none of the members its tier
    considers has a better key: the lowest lane and then the fastest, or the
    most room. *)
Theorem routing_serves_best c :
  match (find c).1 with
  | None => forall m, m ∈ members -> service m ∉ exclude -> capacity m <= 0
  | Some s => exists m n, (m, n) ∈ best.1 /\ service m = s /\ m ∈ members /\ s ∉ exclude /\ 0 < capacity m /\
      forall m', m' ∈ best.1 -> triple_leb (best.2 (m, n)) (best.2 m') = true
  end.
Proof.
  destruct (decide (room = [])) as [Hr|Hr].
  - unfold find_service_for_group. rewrite Hr. cbn. intros m Hm Hx. destruct (decide (0 < capacity m)); [|lia].
    assert ((m, Z.max 0 (capacity m)) ∈ room) as Hin by (apply room_member; split_and!; [done|done|done|lia]).
    rewrite Hr in Hin. by apply elem_of_nil in Hin.
  - rewrite find_ties by done. cbn [fst].
    destruct (choose_some best.2 group (sort_by best.2 best.1) c) as ([m n] & -> & Hin).
    { by apply tied_some, pool_some. }
    cbn. apply tied_in in Hin as [Hin Hleast]. exists m, n. pose proof (pool_available _ _ _ Hin) as Ha.
    apply room_member in Ha as (H1 & H2 & H3 & H4). split_and!; try done. lia.
Qed.

(** The state of the cursors after [k] calls. *)
Fixpoint cursors_after (k : nat) (c : Cursors) : Cursors := match k with O => c | S k' => cursors_after k' (find c).2 end.

(** Equal members take turns: called again and again for members that do not
    change, the engine goes round the members with the best key in order, so
    each of [n] of them is served once in [n] calls. *)
Theorem ties_take_turns k c : room <> [] ->
  (find (cursors_after k c)).1 =
  (fun m => service m.1) <$> ties !! ((default 0 (c !! group) + k) mod length ties)%nat.
Proof.
  intros Hr. assert (ties <> []) as Hne by by apply tied_some, pool_some.
  revert c. induction k as [|k IH]; intros c.
  - cbn [cursors_after]. rewrite find_ties by done. cbn [fst]. rewrite Nat.add_0_r. by rewrite (proj1 (choose_turn _ _ _ c Hne)).
  - cbn [cursors_after]. rewrite IH. do 2 f_equal. rewrite find_ties by done. cbn [snd].
    destruct (choose_turn best.2 group (sort_by best.2 best.1) c Hne) as [_ Hc].
    rewrite <- Nat.Div0.add_mod_idemp_l, Hc, Nat.Div0.add_mod_idemp_l. f_equal. lia.
Qed.

End Choice.
End Find.
