(* ===== verification/QueueFleet.v ===== *)
(** * QueueFleet: capacity told to and read from other machines

    Models [CapacityReporter] and [FleetGossiper] of [scripts/queue_engine.py]
    (their asynchronous twins differ in catching every exception): the capacity
    document of a machine, its publication to the servers of the peers, the
    reading of theirs, and the choice of a remote service.  A stored document
    is its parsed object (texts that are no JSON object are left out); what a
    server answers and how long ago a time text was are operations. *)

From S2P Require Import Prelude PyValue PyText Programs RuntimeContracts.

Inductive fleet_op : Type -> Type :=
  | SlotsFree (service : string) : fleet_op Z
  | Depth (service : string) : fleet_op Z
  | NowText : fleet_op string
  | ClockNow : fleet_op time
  | SetKey (server key : string) (d : data) : fleet_op (result string unit)
  | GetKey (key : string) : fleet_op (result string (option data))
  | ScanKeys : fleet_op (result string (list string))
  | DeleteKey (key : string) : fleet_op (result string unit)
  (* the age of an ISO time, or the exception it raises *)
  | AgeOf (v : value) : fleet_op (result string time).

Definition PEER_TTL : time := seconds 30.
Definition STALE_SECONDS : time := seconds 30.

Definition capacity_key (machine : string) : string := "capacity:" +:+ machine.

(** ** The document of this machine *)

(** [v - n] *)
Definition minus_int (v : value) (n : Z) : result string value :=
  match v with
  | PInt m => Ok (PInt (m - n))
  | PBool b => Ok (PInt ((if b then 1 else 0) - n))
  | PFloat us => Ok (PFloat (us - seconds n))
  | _ => Err "TypeError: unsupported operand type(s) for -"
  end.

Definition service_capacity (name : string) (total active : value) (depth free : Z) (now : time) : value :=
  PDict [("slots_total", total); ("slots_active", active); ("queue_depth", PInt depth); ("can_accept", PBool (0 <? free));
         ("capacity_source", PStr "slot_manager"); ("identity_echo", PStr name); ("observed_at", PFloat now);
         ("freshness", PStr "current")].

Fixpoint capacities (now : time) (config : list (string * data)) : program fleet_op data :=
  match config with
  | [] => Ret []
  | (name, cfg) :: config' =>
      let total := dict_get_or cfg "parallel" (PInt 1) in
      free ← perform (SlotsFree name);
      depth ← perform (Depth name);
      active ← raising (minus_int total free);
      rest ← capacities now config';
      Ret ((name, service_capacity name total active depth free now) :: rest)
  end.

Definition get_local_capacity (machine : string) (config : list (string * data)) : program fleet_op data :=
  now ← perform ClockNow;
  services ← capacities now config;
  Ret [("machine_id", PStr machine); ("services", PDict services)].

(** [publish] of the reporter. *)
Definition publish (machine : string) (config : list (string * data)) : program fleet_op bool :=
  d ← get_local_capacity machine config;
  now ← perform NowText;
  r ← perform (SetKey machine (capacity_key machine) (dict_set (dict_set d "published_at" (PStr now)) "last_seen" (PStr now)));
  Ret (match r with Ok _ => true | Err _ => false end).

(** [publish_to_peers]: this machine's server first. *)
Fixpoint push (key : string) (d : data) (servers : list string) : program fleet_op (list (string * bool)) :=
  match servers with
  | [] => Ret []
  | s :: servers' =>
      r ← perform (SetKey s key d);
      rest ← push key d servers';
      Ret ((s, match r with Ok _ => true | Err _ => false end) :: rest)
  end.

Definition publish_to_peers (machine : string) (peers : list string) (local_capacity_fn : program fleet_op data)
    : program fleet_op (list (string * bool)) :=
  d ← local_capacity_fn;
  now ← perform NowText;
  results ← push (capacity_key machine) (dict_set d "last_seen" (PStr now)) (machine :: peers);
  Ret (dict_update [] results).

(** ** The documents of the others *)

Definition _is_stale (d : data) : program fleet_op bool :=
  let last_seen := dict_get_or d "last_seen" (PStr "") in
  if negb (py_truthy last_seen) then Ret true
  else age ← perform (AgeOf last_seen); Ret (match age with Ok a => STALE_SECONDS <? a | Err _ => true end).

Definition read_peer_capacity (peer : string) : program fleet_op (option data) :=
  raw ← perform (GetKey (capacity_key peer));
  match raw with
  | Ok (Some d) => old ← _is_stale d; Ret (if old : bool then None else Some d)
  | _ => Ret None
  end.

Fixpoint read_all_peers (peers : list string) : program fleet_op (list (string * option data)) :=
  match peers with
  | [] => Ret []
  | p :: peers' => d ← read_peer_capacity p; rest ← read_all_peers peers'; Ret ((p, d) :: rest)
  end.

Definition is_value_error (t : string) : bool := starts_with (chars "ValueError") (chars t).

(** [get_peer_capacity] of the reporter: a document without [published_at] is
    never too old. *)
Definition get_peer_capacity (peer : string) : program fleet_op (option data) :=
  raw ← perform (GetKey (capacity_key peer));
  match raw with
  | Ok (Some d) =>
      let published := dict_get_or d "published_at" (PStr "") in
      if negb (py_truthy published) then Ret (Some d)
      else
        age ← perform (AgeOf published);
        match age with
        | Ok a => Ret (if PEER_TTL <? a then None else Some d)
        | Err t => if is_value_error t then Ret None else Raise t
        end
  | _ => Ret None
  end.

(** The part of [get_all_peers] after the scan: an error of the server ends it
    with what it has. *)
Fixpoint collect_peers (keys : list string) (peers : list (string * data)) : program fleet_op (list (string * data)) :=
  match keys with
  | [] => Ret peers
  | key :: keys' =>
      raw ← perform (GetKey key);
      match raw with
      | Err _ => Ret peers
      | Ok None => collect_peers keys' peers
      | Ok (Some d) =>
          let published := dict_get_or d "published_at" (PStr "") in
          if negb (py_truthy published) then collect_peers keys' peers
          else
            age ← perform (AgeOf published);
            match age with
            | Ok a => collect_peers keys' (if a <=? PEER_TTL then dict_set peers (of_chars (drop 9 (chars key))) d else peers)
            | Err t => if is_value_error t then collect_peers keys' peers else Raise t
            end
      end
  end.

Definition get_all_peers : program fleet_op (list (string * data)) :=
  keys ← perform ScanKeys;
  match keys with Ok ks => collect_peers ks [] | Err _ => Ret [] end.

Definition mark_stale (machine : string) : program fleet_op bool :=
  r ← perform (DeleteKey (capacity_key machine)); Ret (match r with Ok _ => true | Err _ => false end).

(** ** The choice of a remote service *)

(** Machine, service, its document, and its free slots in millionths; NaN and
    infinity count as no numbers. *)
Abbreviation offer := (string * string * data * Z)%type (only parsing).

Definition amount (v : value) : result string Z :=
  match number v with Some us => Ok us | None => Err "TypeError: unsupported operand type(s)" end.

(** [services.items()] and [svc_info.get] raise on what is no object. *)
Definition object_of (v : value) : result string data :=
  match v with PDict d => Ok d | _ => Err "AttributeError: object has no attribute" end.

Definition free_slots_of (info : data) : result string Z :=
  total ← amount (dict_get_or info "slots_total" (PInt 0));
  active ← amount (dict_get_or info "slots_active" (PInt 0));
  match dict_get info "slots_free" with Some v => amount v | None => Ok (total - active) end.

Definition in_group (group : string) (info : data) : bool :=
  let rg := dict_get_or info "routing_group" (PStr "") in negb (py_truthy rg) || is_text rg group.

Definition offer_of (group : string) (exclude : list string) (peer name : string) (v : value) : result string (option offer) :=
  if bool_decide (name ∈ exclude) then Ok None
  else
    info ← object_of v;
    if negb (py_truthy (dict_get_or info "can_accept" (PBool false))) then Ok None
    else if negb (in_group group info) then Ok None
    else
      free ← free_slots_of info;
      Ok (if free <=? 0 then None else Some (peer, name, info, free)).

Fixpoint offers_in (group : string) (exclude : list string) (peer : string) (services : data) : result string (list offer) :=
  match services with
  | [] => Ok []
  | (name, v) :: services' =>
      o ← offer_of group exclude peer name v;
      rest ← offers_in group exclude peer services';
      Ok (option_list o ++ rest)
  end.

Fixpoint offers (group : string) (exclude peers : list string) : program fleet_op (list offer) :=
  match peers with
  | [] => Ret []
  | p :: peers' =>
      cap ← read_peer_capacity p;
      mine ← match cap with
             | None => Ret []
             | Some d => raising (services ← object_of (dict_get_or d "services" (PDict [])); offers_in group exclude p services)
             end;
      rest ← offers group exclude peers';
      Ret (mine ++ rest)
  end.

(** The first of the freest, as the stable descending sort leaves it. *)
Fixpoint freest (l : list offer) : option offer :=
  match l with
  | [] => None
  | x :: l' => match freest l' with Some y => if y.2 <=? x.2 then Some x else Some y | None => Some x end
  end.

Definition find_remote_service (group : string) (exclude peers : list string) : program fleet_op (option (string * string * data)) :=
  l ← offers group exclude peers; Ret (fst <$> freest l).

(** ** What is chosen *)

Lemma freest_greatest l x y : freest l = Some x -> y ∈ l -> y.2 <= x.2.
Proof.
  revert x y. induction l as [|z l IH]; intros x y; [done|]. cbn. destruct (freest l) as [b|] eqn:Hb.
  - destruct (b.2 <=? z.2) eqn:Hz; intros [= <-] [->|Hy]%elem_of_cons; [lia| |lia|by apply IH].
    specialize (IH b y eq_refl Hy). lia.
  - intros [= <-] [->|Hy]%elem_of_cons; [done|]. destruct l as [|a l]; [by apply elem_of_nil in Hy|].
    cbn in Hb. by destruct (freest l) as [c|]; [destruct (c.2 <=? a.2)|].
Qed.

Lemma freest_member l x : freest l = Some x -> x ∈ l.
Proof.
  revert x. induction l as [|z l IH]; intros x; [done|]. cbn. destruct (freest l) as [b|]; [|intros [= <-]; left].
  destruct (b.2 <=? z.2); intros [= <-]; [left|right; by apply IH].
Qed.

(** What an offer stands for. *)
Definition offered (group : string) (exclude : list string) (o : offer) : Prop :=
  let '(peer, name, info, free) := o in
  name ∉ exclude /\ py_truthy (dict_get_or info "can_accept" (PBool false)) = true /\ in_group group info = true /\
  free_slots_of info = Ok free /\ 0 < free.

Lemma offer_offered group exclude peer name v o : offer_of group exclude peer name v = Ok (Some o) -> offered group exclude o.
Proof.
  unfold offer_of. destruct (bool_decide (name ∈ exclude)) eqn:Hx; [done|]. apply bool_decide_eq_false in Hx.
  destruct (object_of v) as [info|]; [|done]. cbn. destruct (py_truthy _) eqn:Ha; [|done]. cbn.
  destruct (in_group group info) eqn:Hg; [|done]. cbn. destruct (free_slots_of info) as [free|] eqn:Hf; [|done]. cbn.
  destruct (free <=? 0) eqn:H0; [done|]. intros [= <-]. cbn. split_and!; [done..|lia].
Qed.

Lemma offers_in_offered group exclude peer services l :
  offers_in group exclude peer services = Ok l -> Forall (offered group exclude) l.
Proof.
  revert l. induction services as [|[name v] services IH]; intros l; [by intros [= <-]|]. cbn.
  destruct (offer_of group exclude peer name v) as [o|] eqn:Ho; [|done]. cbn.
  destruct (offers_in group exclude peer services) as [rest|]; [|done]. cbn. intros [= <-].
  apply Forall_app. split; [|by apply IH]. destruct o; [|constructor]. cbn. apply Forall_singleton. by eapply offer_offered.
Qed.

Section Runs.
Context {W : Type} (handle : forall X, fleet_op X -> W -> X * W).
Abbreviation run p w := (run_all handle p w).

Lemma offers_offered group exclude peers w l w' :
  run (offers group exclude peers) w = (Ok l, w') -> Forall (offered group exclude) l.
Proof.
  revert w l. induction peers as [|p peers IH]; intros w l; [by intros [= <-]|]. cbn [offers].
  rewrite run_all_bind. destruct (run (read_peer_capacity p) w) as [[cap|t] w1]; [|done].
  rewrite run_all_bind. destruct (run _ w1) as [[mine|t] w2] eqn:Hm; [|done].
  rewrite run_all_bind. destruct (run (offers group exclude peers) w2) as [[rest|t] w3] eqn:Hr; [|done]. cbn. intros [= <- <-].
  apply Forall_app. split; [|by eapply IH]. destruct cap as [d|]; [|by injection Hm as <- _].
  destruct (object_of _) as [services|]; [|done]. cbn in Hm. destruct (offers_in group exclude p services) as [m|] eqn:Ho; [|done].
  injection Hm as <- _. by eapply offers_in_offered.
Qed.

(** A remote service is chosen among the fresh documents of the peers: it is not
    excluded, accepts, names the group or none, and no other offer has more
    free slots; none is chosen only when there is no offer. *)
Theorem remote_is_freest group exclude peers w r w' :
  run (find_remote_service group exclude peers) w = (Ok r, w') ->
  exists l, run (offers group exclude peers) w = (Ok l, w') /\ Forall (offered group exclude) l /\
    match r with
    | None => l = []
    | Some o => exists free, (o, free) ∈ l /\ forall o', o' ∈ l -> o'.2 <= free
    end.
Proof.
  unfold find_remote_service. rewrite run_all_bind. destruct (run (offers group exclude peers) w) as [[l|t] w1] eqn:Hl; [|done].
  cbn. intros [= <- <-]. exists l. split; [done|]. split; [by eapply offers_offered|].
  destruct (freest l) as [[o free]|] eqn:Hf; cbn.
  - exists free. split; [by apply freest_member|]. intros o' Ho. by apply (freest_greatest l (o, free)).
  - destruct l as [|x l]; [done|]. cbn in Hf. by destruct (freest l) as [y|]; [destruct (y.2 <=? x.2)|].
Qed.

End Runs.
