(* ===== verification/QueueServer.v ===== *)
(** * QueueServer: one stream that keeps the laws

    A concrete stream with its group, as an instance of [QueueStream]: numbered
    cells, of which the deleted ones are empty, and how many of them were
    handed out.  Its laws show that those of [QueueRedis] hold together. *)

From stdpp Require Import pretty.
From S2P Require Import Prelude PyValue PyText QueueRedis.

(** ** Reading an id *)

Fixpoint read_number (n : N) (s : string) : N * string :=
  match s with
  | String c s' => match digit_value c with Some d => read_number (n * 10 + Z.to_N d) s' | None => (n, s) end
  | EmptyString => (n, s)
  end.

Definition read_id (s : string) : option eid :=
  let '(a, rest) := read_number 0 s in
  match rest with
  | String c rest' => if Ascii.eqb c (chr 45) then let '(b, t) := read_number 0 rest' in if String.eqb t "" then Some (a, b) else None else None
  | EmptyString => None
  end.

Lemma read_digit n x s : (x < 10)%N -> read_number n (String (pretty_N_char x) s) = read_number (n * 10 + x) s.
Proof.
  intros Hx. assert (digit_value (pretty_N_char x) = Some (Z.of_N x)) as Hd.
  { destruct x as [|p]; [done|]. do 4 (destruct p as [p|p|]; try done; try lia). }
  cbn [read_number]. by rewrite Hd, N2Z.id.
Qed.

Lemma read_digits x s : read_number 0 (pretty_N_go x s) = read_number x s.
Proof.
  revert s. induction (N.lt_wf_0 x) as [x _ IH]; intros s. destruct (decide (x = 0)%N) as [->|Hx]; [done|].
  rewrite pretty_N_go_step by lia. rewrite IH by (apply N.div_lt; lia).
  rewrite read_digit by (apply N.mod_lt; lia). f_equal. pose proof (N.div_mod x 10). lia.
Qed.

Lemma pretty_go_app x s t : pretty_N_go x s +:+ t = pretty_N_go x (s +:+ t).
Proof.
  revert s. induction (N.lt_wf_0 x) as [x _ IH]; intros s. destruct (decide (x = 0)%N) as [->|Hx]; [done|].
  rewrite !(pretty_N_go_step x) by lia. by rewrite IH by (apply N.div_lt; lia).
Qed.

Lemma read_pretty (x : N) t : read_number 0 (pretty x +:+ t) = read_number x t.
Proof.
  unfold pretty, pretty_N. destruct (decide (x = 0)%N) as [->|Hx]; [done|]. rewrite pretty_go_app. apply read_digits.
Qed.

Lemma string_app_nil (s : string) : s +:+ "" = s.
Proof. induction s as [|c s IH]; [done|]. exact (f_equal (String c) IH). Qed.

Lemma read_id_text i : read_id (id_text i) = Some i.
Proof.
  destruct i as [a b]. unfold read_id, id_text. cbn [fst snd]. rewrite read_pretty.
  change (read_number a ("-" +:+ pretty b)) with (a, "-" +:+ pretty b). change ("-" +:+ pretty b) with (String (chr 45) (pretty b)).
  cbv iota beta. rewrite <- (string_app_nil (pretty b)), read_pretty. done.
Qed.

(** ** Cells *)

Abbreviation cell := (option fields) (only parsing).

Definition cell_id (n : nat) : eid := (N.of_nat n, 0%N).

#[export] Instance cell_id_inj : Inj (=) (=) cell_id.
Proof. intros m n [= H]. lia. Qed.

(** The entries of cells of which the first has number [n]. *)
Fixpoint entries_from (n : nat) (l : list cell) : list (eid * fields) :=
  match l with
  | [] => []
  | None :: l' => entries_from (S n) l'
  | Some d :: l' => (cell_id n, d) :: entries_from (S n) l'
  end.

Fixpoint blank (i : eid) (n : nat) (l : list cell) : list cell :=
  match l with [] => [] | c :: l' => (if decide (cell_id n = i) then None else c) :: blank i (S n) l' end.

(** Empties the first [m] entries. *)
Fixpoint erase (m : nat) (l : list cell) : list cell :=
  match m, l with
  | S m', Some _ :: l' => None :: erase m' l'
  | S _, None :: l' => None :: erase m l'
  | _, _ => l
  end.

(** How many cells hold the first [m] entries. *)
Fixpoint span_of (m : nat) (l : list cell) : nat :=
  match m, l with
  | S m', Some _ :: l' => S (span_of m' l')
  | S _, None :: l' => S (span_of m l')
  | _, _ => O
  end.

Lemma entries_app n l l' : entries_from n (l ++ l') = entries_from n l ++ entries_from (length l + n) l'.
Proof.
  revert n. induction l as [|[d|] l IH]; intros n; [done|cbn..].
  - rewrite IH. cbn. do 3 f_equal. lia.
  - rewrite IH. do 2 f_equal. lia.
Qed.

Lemma entries_range n l x : x ∈ entries_from n l -> exists m, x.1 = cell_id m /\ (n <= m < n + length l)%nat.
Proof.
  revert n. induction l as [|[d|] l IH]; intros n; cbn; [by intros ?%elem_of_nil|..].
  - intros [->|Hx]%elem_of_cons; [exists n; split; [done|lia]|]. destruct (IH _ Hx) as (m & ? & ?). exists m. split; [done|lia].
  - intros Hx. destruct (IH _ Hx) as (m & ? & ?). exists m. split; [done|lia].
Qed.

Lemma entries_nodup n l : NoDup (entries_from n l).*1.
Proof.
  revert n. induction l as [|[d|] l IH]; intros n; cbn; [constructor|constructor|apply IH]; [|apply IH].
  intros (x & Hid & Hx)%list_elem_of_fmap. destruct (entries_range _ _ _ Hx) as (m & Hm & ?).
  rewrite Hm in Hid. apply (inj cell_id) in Hid. lia.
Qed.

Lemma entries_blank i n l : entries_from n (blank i n l) = without i (entries_from n l).
Proof.
  revert n. induction l as [|[d|] l IH]; intros n; [done|cbn..].
  - destruct (decide (cell_id n = i)) as [He|He]; cbn; [by rewrite bool_decide_eq_true_2; cbn|rewrite bool_decide_eq_false_2 by done; cbn; by rewrite IH].
  - by destruct (decide _); cbn.
Qed.

Lemma blank_length i n l : length (blank i n l) = length l.
Proof. revert n. induction l as [|c l IH]; intros n; [done|]. cbn. by rewrite IH. Qed.

Lemma blank_drop i n k l : drop k (blank i n l) = blank i (k + n) (drop k l).
Proof.
  revert n k. induction l as [|c l IH]; intros n [|k]; [done..|]. cbn. rewrite IH. f_equal. lia.
Qed.

Lemma entries_erase m n l : entries_from n (erase m l) = drop m (entries_from n l).
Proof.
  revert m n. induction l as [|[d|] l IH]; intros [|m] n; try done.
  - cbn. apply IH.
  - change (entries_from (S n) (erase (S m) l) = drop (S m) (entries_from (S n) l)). apply IH.
Qed.

Lemma erase_length m l : length (erase m l) = length l.
Proof. revert m. induction l as [|[d|] l IH]; intros [|m]; try done; cbn; f_equal; [apply IH|apply (IH (S m))]. Qed.

Lemma erase_0 l : erase 0 l = l.
Proof. by destruct l as [|[d|] l]. Qed.

Lemma erase_drop k m l : exists m', drop k (erase m l) = erase m' (drop k l).
Proof.
  revert k m. induction l as [|[d|] l IH]; intros k m; [by exists m; destruct k, m|..];
    (destruct k as [|k]; [by exists m|]); (destruct m as [|m]; [by exists O; rewrite erase_0, ?erase_0; destruct (drop (S k) _) as [|[]]|]).
  - apply IH.
  - apply (IH k (S m)).
Qed.

Lemma span_drop m n l : entries_from (span_of m l + n) (drop (span_of m l) l) = drop m (entries_from n l).
Proof.
  revert m n. induction l as [|[d|] l IH]; intros [|m] n; try done; cbn [span_of drop entries_from plus].
  - rewrite <- (IH m (S n)). by rewrite Nat.add_succ_r.
  - rewrite <- (IH (S m) (S n)). by rewrite Nat.add_succ_r.
Qed.

Lemma span_le m l : (span_of m l <= length l)%nat.
Proof. revert m. induction l as [|[d|] l IH]; intros [|m]; cbn; [lia..| | |]; try lia; [specialize (IH m)|specialize (IH (S m))]; cbn in *; lia. Qed.

(** ** The stream *)

Record Server := mkServer { cells : list cell; given : nat; owners : list (eid * string) }.

(** No more than there are. *)
Definition delivered (s : Server) : nat := Nat.min (given s) (length (cells s)).
Definition all_entries (s : Server) : list (eid * fields) := entries_from 1 (cells s).
Definition unread (s : Server) : list (eid * fields) := entries_from (S (delivered s)) (drop (delivered s) (cells s)).

Definition with_cells (l : list cell) (s : Server) : Server := mkServer l (delivered s) (owners s).
Definition trim (s : Server) (n : nat) : Server := with_cells (erase (length (all_entries s) - n) (cells s)) s.

#[export] Instance server_stream : QueueStream Server := {|
  fresh := mkServer [] 0 [];
  parse_id := read_id;
  issued s := cell_id <$> seq 1 (length (cells s));
  items := all_entries;
  waiting := unread;
  pel := owners;
  lag s := if forallb (fun c => bool_decide (is_Some c)) (drop (delivered s) (cells s)) then Some (Z.of_nat (length (unread s))) else None;
  entries_read s := Z.of_nat (delivered s);
  pending_rows s := (fun x => (x.1, x.2, 0, 1)) <$> owners s;
  x_add s d := (cell_id (S (length (cells s))), with_cells (cells s ++ [Some d]) s);
  x_read s c n :=
    (take n (unread s), mkServer (cells s) (span_of n (drop (delivered s) (cells s)) + delivered s)
                          (owners s ++ ((fun x => (x.1, c)) <$> take n (unread s))));
  x_last s := id_text (cell_id (delivered s));
  x_after s t := match read_id t with Some i => head (entries_from (S (N.to_nat i.1)) (drop (N.to_nat i.1) (cells s))) | None => None end;
  x_range s t := match read_id t with Some i => List.filter (fun x => bool_decide (x.1 = i)) (all_entries s) | None => [] end;
  x_claim s c i := (bool_decide (i ∈ (owners s).*1),
                    mkServer (cells s) (delivered s) ((fun x => if decide (x.1 = i) then (i, c) else x) <$> owners s));
  x_ack s i := mkServer (cells s) (delivered s) (List.filter (fun x => negb (bool_decide (x.1 = i))) (owners s));
  x_del s i := with_cells (blank i 1 (cells s)) s;
  x_trim s n := (Z.of_nat (length (all_entries s) - n), trim s n);
  x_trim_about := trim |}.

(** *** Its laws *)

Lemma delivered_le s : (delivered s <= length (cells s))%nat.
Proof. unfold delivered. lia. Qed.

(** Other cells, no fewer. *)
Lemma delivered_same s l o : (delivered s <= length l)%nat -> delivered (mkServer l (delivered s) o) = delivered s.
Proof. intros Hl. change (Nat.min (delivered s) (length l) = delivered s). lia. Qed.

Lemma unread_cells s l : (length (cells s) <= length l)%nat ->
  unread (with_cells l s) = entries_from (S (delivered s)) (drop (delivered s) l).
Proof.
  intros Hl. pose proof (delivered_le s). unfold unread, with_cells. rewrite delivered_same by lia. done.
Qed.

Lemma unread_owners s o : unread (mkServer (cells s) (delivered s) o) = unread s.
Proof. unfold unread. rewrite delivered_same by apply delivered_le. done. Qed.

Lemma trim_waiting s n x : x ∈ unread (trim s n) -> x ∈ unread s.
Proof.
  unfold trim. rewrite unread_cells by by rewrite erase_length.
  destruct (erase_drop (delivered s) (length (all_entries s) - n) (cells s)) as [m ->].
  rewrite entries_erase. intros Hx. rewrite <- (take_drop m). apply elem_of_app. by right.
Qed.

Lemma add_items s d : all_entries (with_cells (cells s ++ [Some d]) s) = all_entries s ++ [(cell_id (S (length (cells s))), d)].
Proof. unfold all_entries. cbn. rewrite entries_app. cbn. by rewrite Nat.add_comm. Qed.

Lemma add_waiting s d : unread (with_cells (cells s ++ [Some d]) s) = unread s ++ [(cell_id (S (length (cells s))), d)].
Proof.
  pose proof (delivered_le s). rewrite unread_cells by (rewrite length_app; lia). rewrite drop_app_le by done.
  rewrite entries_app. unfold unread. cbn. do 4 f_equal. rewrite length_drop. lia.
Qed.

Lemma read_waiting s n o : unread (mkServer (cells s) (span_of n (drop (delivered s) (cells s)) + delivered s) o) = drop n (unread s).
Proof.
  pose proof (span_le n (drop (delivered s) (cells s))) as Hs. rewrite length_drop in Hs. pose proof (delivered_le s).
  unfold unread. assert (delivered (mkServer (cells s) (span_of n (drop (delivered s) (cells s)) + delivered s) o)
    = span_of n (drop (delivered s) (cells s)) + delivered s)%nat as -> by (change (Nat.min (span_of n (drop (delivered s) (cells s)) + delivered s) (length (cells s))
    = span_of n (drop (delivered s) (cells s)) + delivered s)%nat; lia).
  cbn [cells]. rewrite (Nat.add_comm _ (delivered s)), <- drop_drop.
  rewrite <- span_drop. f_equal. lia.
Qed.

Lemma waiting_suffix s : exists l, all_entries s = l ++ unread s.
Proof.
  exists (entries_from 1 (take (delivered s) (cells s))). unfold all_entries, unread.
  rewrite <- (take_drop (delivered s) (cells s)) at 1. rewrite entries_app, length_take. do 2 f_equal.
  pose proof (delivered_le s). lia.
Qed.

#[export] Instance server_laws : QueueStreamLaws Server.
Proof.
  split; cbn [fresh parse_id issued items waiting pel lag entries_read pending_rows x_add x_read x_last x_after x_range x_claim x_ack x_del x_trim
    x_trim_about server_stream fst snd].
  - apply read_id_text.
  - done.
  - intros s x Hx. destruct (entries_range _ _ _ Hx) as (m & -> & ?). apply list_elem_of_fmap. exists m.
    split; [done|]. apply elem_of_seq. lia.
  - intros s. apply entries_nodup.
  - apply waiting_suffix.
  - intros s d (m & Hm & Hin)%list_elem_of_fmap. apply (inj cell_id) in Hm. apply elem_of_seq in Hin. lia.
  - intros s d i. cbn. rewrite length_app, Nat.add_1_r, seq_S, fmap_app, elem_of_app. cbn.
    rewrite list_elem_of_singleton. tauto.
  - apply add_items.
  - apply add_waiting.
  - done.
  - intros s c n _. apply read_waiting.
  - done.
  - done.
  - intros s c n x. rewrite read_waiting. intros Hx. rewrite <- (take_drop n). apply elem_of_app. by right.
  - intros s c i x. by rewrite unread_owners.
  - intros s i x. by rewrite unread_owners.
  - intros s i x. rewrite unread_cells by by rewrite blank_length. rewrite blank_drop, Nat.add_1_r, entries_blank.
    unfold without. intros Hx%list_elem_of_In%List.filter_In. apply list_elem_of_In, Hx.
  - apply trim_waiting.
  - apply trim_waiting.
  - intros s n. by destruct (forallb _ _); intros [= <-].
  - intros s H. pose proof (read_id_text (cell_id (delivered s))) as Hr. by rewrite H in Hr.
  - intros s. rewrite read_id_text. unfold cell_id. cbn. by rewrite Nat2N.id.
  - intros s i. by rewrite read_id_text.
  - done.
  - done.
  - done.
  - done.
  - intros s i. apply entries_blank.
  - intros s i. cbn. by rewrite blank_length.
  - intros s n. apply entries_erase.
  - intros s n. cbn. by rewrite erase_length.
  - done.
  - intros s n. exists (length (all_entries s) - n)%nat. split; [lia|]. apply entries_erase.
  - intros s n. cbn. by rewrite erase_length.
Qed.
