(* ===== verification/QueueDemo.v ===== *)
(** * QueueDemo: the queue engine at work

    The theorems of [QueueSafety], [QueueLedger], [QueueClaims], [QueueSlots] and
    [QueueRouting] at concrete inputs, on the stream of [QueueServer]; and
    histories that show what the engine does where its comments promise
    otherwise. *)

From stdpp Require Import pretty.
From S2P Require Import Prelude PyValue PyText Programs QueueRedis QueueEngine QueueJobs QueueSends QueueAsync QueueSafety QueueLedger QueueClaims QueueReports QueueSlots QueueRouting QueueFleet QueueServer.

Definition lane_q : string := "queue:llm".
Definition demo_job (n : string) : fields := <["job_id" := n]> {["prompt" := "hello"]}.

(** Two jobs wait. *)
Definition two_waiting : Redis Server :=
  history [Sent (HSet "job:J-0001" (<["job_id" := "J-0001"]> {["status" := "queued"]})); Sent (XAdd lane_q (demo_job "J-0001"));
           Sent (XAdd lane_q (demo_job "J-0002"))] no_keys.

Definition first_id : eid := (1%N, 0%N).
Definition second_id : eid := (2%N, 0%N).

Lemma lane_key_q : queue_key lane_q.
Proof. by exists "llm". Qed.

Definition demo_cancel : cmd CancelReply := CancelQueued lane_q "job:J-0001" "1-0" "J-0001" "t1" "cancelled" "api" "op".

(** A second cancel, after another process claimed the other job. *)
Theorem cancelled_once_witness :
  (exec (CancelQueued lane_q "job:J-0002" (id_text first_id) "J-0002" "t2" "again" "api" "op")
     (history [Sent (XReadGroup "worker" [lane_q] 1)] (exec demo_cancel two_waiting).2)).1 = Ok NoEntry.
Proof.
  apply (cancelled_once lane_q first_id "job:J-0001" "J-0001" "t1" "cancelled" "api" "op"); [exact lane_key_q| |vm_compute; reflexivity].
  constructor; [|constructor]. constructor; [exact lane_key_q|constructor].
Defined.


(** Claimed, and then acknowledged. *)
Theorem queued_until_settled_witness :
  first_id ∈ (items (stream_at (history [Sent (XReadGroup "a" [lane_q] 1); Sent (AckTx lane_q "1-0")] two_waiting) lane_q)).*1 \/
  exists before e after, [Sent (XReadGroup "a" [lane_q] 1); Sent (AckTx lane_q "1-0")] = before ++ e :: after /\
    first_id ∈ (items (stream_at (history before two_waiting) lane_q)).*1 /\
    (settles e lane_q first_id (history before two_waiting) \/
     (500 <= length (items (stream_at (history before two_waiting) lane_q)))%nat).
Proof.
  apply queued_until_settled; [exact lane_key_q| |vm_compute; constructor].
  constructor; [constructor; [exact lane_key_q|constructor]|]. constructor; [exact lane_key_q|constructor].
Defined.

Definition letter_history : list event :=
  [Sent (XAdd lane_q (demo_job "J-0001")); Sent (XAdd lane_q (demo_job "J-0002"));
   Sent (DeadLetterTransfer lane_q "dead-letter:llm" "1-0" "llm" (demo_job "J-0001"));
   Sent (DeadLetterPurge "dead-letter:llm" "op" "cleanup" "t" "llm");
   Sent (DeadLetterTransfer lane_q "dead-letter:llm" "2-0" "llm" (demo_job "J-0002"))].


Definition demo_marker (job : string) : Marker := mkMarker job "sha" "llm" "".
Definition ended_history : list event :=
  [Sent (StatusTx "job:J-0001" {["status" := "completed"]} true); Sent (MarkerTtl "job:J-0001" "job-idempotency:x" "J-0001");
   Expired "job-idempotency:x"].

(** The job completed, its marker expired, and the key is granted again. *)
Theorem key_granted_again_after_end_witness :
  exists before after, ended_history = before ++ Sent (MarkerTtl "job:J-0001" "job-idempotency:x" "J-0001") :: after /\
    is_terminal (status_at (history before (exec (SetNx "job-idempotency:x" (demo_marker "J-0001")) two_waiting).2) "job:J-0001") = true.
Proof.
  apply (key_granted_again_after_end "job-idempotency:x" (demo_marker "J-0001") (demo_marker "J-0003"));
    [by exists "x"| |vm_compute; reflexivity|vm_compute; reflexivity].
  repeat constructor; first [by exists "J-0001"|by exists "x"].
Defined.

Definition in_flight : Redis Server := history [Sent (StatusTx "job:J-0001" {["status" := "in_flight"]} false)] no_keys.

(** Another job is written between the reading and the write. *)
Theorem intent_only_in_flight_witness :
  status_at (history [Sent (HSet "job:J-0002" {["status" := "queued"]})] in_flight) "job:J-0001" = Some "in_flight" /\
  status_at (exec (IntentTx "job:J-0001" 1) (history [Sent (HSet "job:J-0002" {["status" := "queued"]})] in_flight)).2 "job:J-0001"
    = Some "in_flight".
Proof. apply intent_only_in_flight; vm_compute; reflexivity. Defined.

Definition child_record : fields := <["job_id" := "J-0001"]> {["request_sha256" := "sha"]}.
Definition demo_enqueue : cmd string := EnqueueTracked "job:J-0001" lane_q (demo_job "J-0001") child_record "sha" "".

(** The reply was lost, a worker claimed and acknowledged the entry. *)
Theorem tracked_enqueued_once_witness :
  let w' := history [Sent (XReadGroup "a" [lane_q] 1); Sent (AckTx lane_q "1-0");
                     Sent (StatusTx "job:J-0001" {["status" := "completed"]} true)] (exec demo_enqueue (no_keys (S := Server))).2 in
  exec demo_enqueue w' = (Ok "1-0", w').
Proof.
  apply (tracked_enqueued_once "job:J-0001" lane_q (demo_job "J-0001") child_record "sha" "");
    [vm_compute; reflexivity|vm_compute; reflexivity| |vm_compute; reflexivity].
  repeat constructor; intros _; vm_compute; reflexivity.
Defined.

(** ** Claiming *)

Definition demo_specs : list (string * option string) :=
  [("queue:llm:lane:interactive", Some "interactive"); ("queue:llm:lane:normal", Some "normal");
   ("queue:llm:lane:background", Some "background"); ("queue:llm", None)].

(** A background job of second 0 and an interactive one of second 60. *)
Definition two_lanes : Redis Server :=
  history [Sent (XAdd "queue:llm:lane:background" (demo_job "J-0001")); Sent (XAdd "queue:llm:lane:interactive" (demo_job "J-0002"))] no_keys.

Theorem dequeue_takes_the_best_witness :
  takes_the_best (seconds 60) 3 (dequeue true (seconds 60) 3 "llm" "a" 1 "") demo_specs (seconds 61) two_lanes /\
  takes_the_best (seconds 60) 3 (async_dequeue true (seconds 60) 3 "llm" "a" 1 "") demo_specs (seconds 61) two_lanes.
Proof. apply dequeue_takes_the_best. vm_compute; reflexivity. Defined.

(** ** Depth *)

(** One job waits and one is claimed. *)
Definition half_claimed : Redis Server := history [Sent (XReadGroup "a" [lane_q] 1)] two_waiting.

Theorem known_depth_is_exact_witness :
  exists o, run_all alone (get_queue_depth_observation (fun _ => true) (fun _ => "ResponseError") false ["media"] "llm" "") (half_claimed, 0)
      = (Ok (Ok o), (half_claimed, 0)) /\
    (report_known o = true <-> Forall (tells half_claimed) [lane_q]) /\
    (report_known o = true -> report_depth o = waiting_jobs half_claimed [lane_q]) /\
    forall n, run_all alone (get_queue_depth (fun _ => true) (fun _ => "ResponseError") false ["media"] "llm" "" true) (half_claimed, 0)
      = (Ok (Ok n), (half_claimed, 0)) -> n = waiting_jobs half_claimed [lane_q].
Proof.
  apply (known_depth_is_exact (fun _ => true) (fun _ => "ResponseError") false ["media"] "llm" "" [(lane_q, None)]);
    [vm_compute; reflexivity|set_solver].
Defined.

(** ** Slots *)

#[export] Instance map_order : HashOrder := {| listing h := map_to_list h; listing_permutation h := reflexivity _ |}.

Definition two_free : gmap string Slot := <["0" := free_slot]> {["1" := free_slot]}.

Theorem slot_granted_once_witness :
  let w := slot_history [SlotSent (SAcquire "J-0002" "t1")] (acquire "J-0001" "t0" two_free).2 in
  (acquire "J-0003" "t2" w).1 <> Some "1" /\
  slot_history [SlotSent (SPut "0" free_slot)] (acquire "J-0003" "t2" w).2 !! "1" = Some (mkSlot "J-0001" "t0" "busy").
Proof. apply (slot_granted_once 2 "J-0001" "t0" "1" [SlotSent (SAcquire "J-0002" "t1")] [SlotSent (SPut "0" free_slot)] "J-0003" "t2" two_free);
  [vm_compute; reflexivity|apply List.Forall_cons; [done|apply List.Forall_cons; [done|apply List.Forall_nil]]|vm_compute; reflexivity]. Defined.

(** ** Routing *)

Definition twin (name : string) : Member := mkMember name 2 2 0 1 0.

Theorem ties_take_turns_witness :
  (find_service_for_group slots_free "llm" [twin "a"; twin "b"] [] true
     (cursors_after slots_free "llm" [twin "a"; twin "b"] [] true 3 ∅)).1 = Some "b".
Proof. etrans; [apply ties_take_turns; vm_compute; discriminate|]. vm_compute; reflexivity. Defined.

(** ** What the engine does besides *)

(** Acknowledging a job trims the stream to 500 entries, waiting ones included:
    of 502 jobs, the acknowledgement of the first drops the second, which nobody
    claimed. *)
Definition long_queue : Redis Server :=
  history (replicate 502 (Sent (XAdd lane_q (demo_job "J")))) no_keys.

Theorem ack_drops_waiting_job :
  let w := history [Sent (XReadGroup "a" [lane_q] 1)] long_queue in
  existsb (fun x => bool_decide (x.1 = second_id)) (waiting (stream_at w lane_q)) = true /\
  existsb (fun x => bool_decide (x.1 = second_id)) (items (stream_at (exec (AckTx lane_q "1-0") w).2 lane_q)) = false.
Proof. vm_compute; split; reflexivity. Qed.

(** Two processes that requeue one entry at the same time, both having read it,
    make two jobs of it; a requeue that read it before it was acknowledged
    brings it back. *)
Definition one_claimed : Redis Server := history [Sent (XAdd lane_q (demo_job "J")); Sent (XReadGroup "a" [lane_q] 1)] no_keys.
Definition requeue : event := Sent (ReplaceTx lane_q "1-0" (demo_job "J")).

Theorem requeue_is_no_check :
  (waiting (stream_at (history [requeue; requeue] one_claimed) lane_q)).*2 = [demo_job "J"; demo_job "J"] /\
  (waiting (stream_at (history [Sent (AckTx lane_q "1-0"); requeue] one_claimed) lane_q)).*2 = [demo_job "J"].
Proof. split; vm_compute; reflexivity. Qed.

(** Two transfers of one entry make two dead letters. *)
Theorem transfer_is_no_check :
  let e := Sent (DeadLetterTransfer lane_q "dead-letter:llm" "1-0" "llm" (demo_job "J")) in
  (items (stream_at (history [e; e] one_claimed) "dead-letter:llm")).*2 = [demo_job "J"; demo_job "J"].
Proof. vm_compute; reflexivity. Qed.

(** The dead letters of a service named [audit] are in the stream of the audit
    records, and its purge deletes them with the record it just wrote. *)
Theorem audit_purges_its_log :
  let w := history [Sent (DeadLetterPurge "dead-letter:llm" "op" "cleanup" "t1" "llm")] (no_keys (S := Server)) in
  length (items (stream_at w DEAD_LETTER_AUDIT_STREAM)) = 1%nat /\
  streams (exec (DeadLetterPurge "dead-letter:audit" "op" "cleanup" "t2" "audit") w).2 !! DEAD_LETTER_AUDIT_STREAM = None.
Proof. split; vm_compute; reflexivity. Qed.

(** The dead-lettering of a service named [metrics] fails after it made the
    counters a stream; from then on no service can dead-letter a job. *)
Theorem metrics_stops_dead_letters :
  let w := history [Sent (DeadLetterTransfer lane_q "dead-letter:metrics" "1-0" "metrics" (demo_job "J"))] one_claimed in
  length (items (stream_at w "dead-letter:metrics")) = 1%nat /\
  (exec (DeadLetterTransfer lane_q "dead-letter:llm" "1-0" "llm" (demo_job "J")) w).1 = Err "metrics_not_hash".
Proof. split; vm_compute; reflexivity. Qed.

(** After 9999 jobs the ids begin again, and a new job is written over the hash
    of the one that still runs. *)
Definition last_id_given : Redis Server :=
  history [Sent (StatusTx "job:J-0001" {["status" := "in_flight"]} false)] (no_keys ⟪ counter := Some 9999 ⟫).

Definition no_options : JobOptions := mkJobOptions None None None None None None None "" None None None None.

Theorem ids_wrap_over_live_jobs :
  let '(id, w) := run_all alone next_job_id (last_id_given, 0) in
  let '(_, w') := run_all alone (create_job "J-0001" "llm" "api" "hi" 10 "" no_options) w in
  id = Ok (Ok (Some "J-0001")) /\ status_at w.1 "job:J-0001" = Some "in_flight" /\ status_at w'.1 "job:J-0001" = Some "queued".
Proof. vm_compute; repeat split; reflexivity. Qed.

(** A status is written over whatever is there: a cancelled job runs again. *)
Theorem status_leaves_terminal :
  let w := history [Sent (StatusTx "job:J-0001" {["status" := "cancelled"]} true)] (no_keys (S := Server)) in
  status_at (run_all alone (update_status "J-0001" "in_flight" []) (w, 0)).2.1 "job:J-0001" = Some "in_flight".
Proof. vm_compute; reflexivity. Qed.

(** [ttl_seconds] must be positive and is not used. *)
Theorem claim_ignores_ttl sha256_hex key sha job service group ttl ttl' : 0 < ttl -> 0 < ttl' ->
  claim_idempotency sha256_hex key sha job service group ttl = claim_idempotency sha256_hex key sha job service group ttl'.
Proof.
  intros H1 H2. unfold claim_idempotency, claim_check.
  by rewrite (proj2 (Z.ltb_lt 0 ttl) H1), (proj2 (Z.ltb_lt 0 ttl') H2).
Qed.

(** Two managers prepare the hash at first use: the one that looked before the
    other wrote frees the slot again, and both jobs get it. *)
Theorem slots_prepared_twice :
  let add := missing_slots 2 [] in
  let w := slot_history [SlotSent (SInitTx add [])] ∅ in
  let '(first, w1) := acquire "J-0001" "t0" w in
  let '(again, _) := acquire "J-0002" "t1" (slot_history [SlotSent (SInitTx add [])] w1) in
  first = Some "1" /\ again = Some "1".
Proof. vm_compute; split; reflexivity. Qed.

(** Slots that the configuration adds are seen by the synchronous manager only. *)
Definition slots_alone (X : Type) (o : slot_op X) (h : gmap string Slot) : X * gmap string Slot :=
  match o in slot_op X return X * gmap string Slot with
  | SlotSend c => let '(r, h') := slot_exec c h in (Ok r, h')
  | SlotNow => ("", h)
  end.

Theorem async_misses_new_slots :
  let h := {["0" := mkSlot "J-0001" "t0" "busy"]} in
  (run_all slots_alone (acquire_slot 2 "J-0002") h).1 = Ok (Ok (Some 1)) /\
  (run_all slots_alone (async_acquire_slot 2 "J-0002") h).1 = Ok (Ok None).
Proof. vm_compute; split; reflexivity. Qed.

(** One of three jobs is done, the last one was cancelled, and the second waits:
    the server cannot tell any more how many wait, the observation says so, and
    the two guesses, which subtract all that was ever read from what is left,
    say that none does. *)
Definition guessing : Redis Server :=
  history [Sent (XAdd lane_q (demo_job "J-0003")); Sent (XReadGroup "a" [lane_q] 1); Sent (AckTx lane_q "1-0");
           Sent (CancelQueued lane_q "job:J-0003" "3-0" "J-0003" "t" "cancelled" "api" "op")] two_waiting.

Theorem guess_misses_a_job :
  length (waiting (stream_at guessing lane_q)) = 1%nat /\
  (run_all alone (get_queue_depth_observation (fun _ => true) (fun _ => "") false [] "llm" "") (guessing, 0)).1
    = Ok (Ok (mkReport lane_q [lane_q] 0 false "consumer_group_lag_unavailable" 0 None)) /\
  (run_all alone (async_get_queue_depth (fun _ => true) false "llm" "") (guessing, 0)).1 = Ok (Ok 0).
Proof. vm_compute; repeat split; reflexivity. Qed.

(** *** Other machines *)

(** A server whose keys hold documents, all of them just written, and the hashes
    of the capacity tracker, which a GET refuses. *)
Record Shelf := mkShelf { documents : list (string * data); hashes : list string }.

Definition shelf_handle (X : Type) (o : fleet_op X) (w : Shelf) : X * Shelf :=
  match o in fleet_op X return X * Shelf with
  | SlotsFree _ => (2, w)
  | Depth _ => (0, w)
  | NowText => ("now", w)
  | ClockNow => (0, w)
  | SetKey _ key d => (Ok (), mkShelf (dict_set (documents w) key d) (hashes w))
  | GetKey key => (if bool_decide (key ∈ hashes w) then Err "WRONGTYPE" else Ok (dict_get (documents w) key), w)
  | ScanKeys => (Ok (hashes w ++ (documents w).*1), w)
  | DeleteKey _ => (Ok (), w)
  | AgeOf _ => (Ok 0, w)
  end.

Definition images_config : list (string * data) := [("painter", [("parallel", PInt 2); ("routing_group", PStr "images")])].
Definition published : Shelf := (run_all shelf_handle (publish "m2" images_config) (mkShelf [] [])).2.

(** The published document names no group, and a service without one is offered
    to every group. *)
Theorem remote_ignores_group :
  match (run_all shelf_handle (find_remote_service "llm" [] ["m2"]) published).1 with
  | Ok (Some (machine, name, _)) => machine = "m2" /\ name = "painter"
  | _ => False
  end.
Proof. vm_compute; split; reflexivity. Qed.

(** The hash of the capacity tracker has a key of the same pattern; reading it
    ends the listing before the other machines. *)
Theorem tracker_hides_peers :
  (run_all shelf_handle get_all_peers published).1 <> Ok [] /\
  (run_all shelf_handle get_all_peers (mkShelf (documents published) ["capacity:track:llm"])).1 = Ok [].
Proof. split; [by vm_compute|vm_compute; reflexivity]. Qed.

(** A document that the gossiper pushed has no [published_at], and the reporter
    takes it however old it is. *)
Theorem pushed_never_stale d w : dict_get d "published_at" = None -> dict_get (documents w) "capacity:m2" = Some d ->
  bool_decide ("capacity:m2" ∈ hashes w) = false -> (run_all shelf_handle (get_peer_capacity "m2") w).1 = Ok (Some d).
Proof.
  intros Hd Hw Hh. unfold get_peer_capacity. cbn. change (capacity_key "m2") with "capacity:m2". rewrite Hh, Hw.
  unfold dict_get_or. by rewrite Hd.
Qed.

(** A number too large for a float is no number to fall back from. *)
Theorem safe_int_of_infinity dflt minimum : _safe_int PInfinity dflt minimum = Err "cannot convert float infinity to integer".
Proof. reflexivity. Qed.
